(* ===== verification/_CoqProject ===== *)
-Q . S2P
Prelude.v
Types.v
GoStrings.v
Store.v
RaftLog.v
Storage.v
Raft.v
RaftFacts.v
Cluster.v
Run.v
Election.v
LogCore.v
LogFacts.v
Agree.v
AgreeSteps.v
Agreement.v
Acknowledge.v
ReadIndex.v
NoPanic.v
Replicator.v
Reader.v
Transfer.v
Proposals.v
Proposer.v
Replica.v
Crc.v
Wal.v
RaftStore.v
SnapshotFile.v
RaftStoreFacts.v
Shard.v
Transport.v
Stubs.v
MemNet.v
Node.v
Gets.v
Writes.v
Lifecycle.v
Http.v
Mux.v
Server.v
Edge.v
Client.v
Cdn.v
CloudFront.v
Metrics.v
Status.v
Gateway.v
Cmd.v
Bench.v
Preload.v
Main.v
