(* ===== verification/Prelude.v ===== *)
(** * EdgeKV: a verification of its sources

    EdgeKV is a key-value store written in Go. Keys are spread over shards; each shard is a group of
    replicas that agree on a log with Raft and apply it to a state machine in memory. A
    node hosts a replica of every shard, serves them over HTTP, and keeps their logs and snapshots on
    disk. Keys in some namespaces may be read through an edge cache, whose copies a
    node invalidates in the background after a write. A client library retries requests and follows the leaders.

    ** Parts of the program and the files that model them

    - [Types] the messages of internal/pb and the codecs they are encoded with; [GoStrings] what the
      sources use of strings, strconv and net/url; [Http] requests, responses and headers.
    - [Store] internal/store: versions, tombstones, conditional writes, deduplication of
      retried commands, snapshots.
    - [RaftLog], [Storage], [Raft] internal/raft: the log in memory, the storage
      interface with its contract and the in-memory implementation, and one replica. The replica's fields are guarded by
      one mutex, so a critical section is one function from state to state ([HandleRequestVote],
      [HandleAppendEntries], [campaign_elect], [applier_apply], ...) and a goroutine that gives the lock up is
      split there. [MemNet] is the in-process network.
    - [Cluster] the replicas of a group with their goroutines and the messages between them as a step relation;
      [Run] an executable scheduler for it.
    - [Crc], [Wal], [RaftStore], [SnapshotFile] internal/wal and internal/raftstore: segment files as lists of
      bytes, checksums computed, writes that stop at any byte.
    - [Shard], [Transport], [Node] internal/shard, internal/transport, internal/node; [Stubs] the generated client stubs, handlers and service
      description of internal/pb/edgekv_grpc.pb.go.
    - [Reader] the callers of ReadIndex and the reader goroutine they share, [Proposer] the callers of Propose, their channel and the
      goroutine that batches them, as interleaved events; [Replicator] the loop of a leader's replicator with the follower it calls.
    - [Lifecycle] the rebalancer of a node, the transfers it makes and [Stop], as interleaved events.
    - [Mux], [Server], [Status], [Gateway] internal/server: the routing of requests by the patterns it registers, every handler as a function to its
      response and its effects in order, the collectors, and the whole of ServeHTTP.
    - [Edge], [Cdn], [CloudFront] cmd/edgekv-edge and internal/cdn: the cache, the purge of the caches, the queue with its worker, and the
      requests to CloudFront.
    - [Client] pkg/client; [Metrics] internal/metrics; [Cmd], [Main] the configuration of cmd/edgekv
      and the start of its process; [Cmd], [Bench], [Preload] the computations, the workers' iterations, the report and the preloading of cmd/edgekv-bench.

    ** What is proved

    - Agreement, for every execution of a group with any loss, delay, repetition and reordering of messages
      and any crashes and restarts: one leader per term ([Election]); a leader has every committed
      entry, and all replicas apply the entries of one log without a gap ([Agreement], through the
      abstract history of [LogCore] that [Agree] and [AgreeSteps] relate to the code); hence replicas that
      have applied equally much hold equal data ([Replica]). A proposal answered with a result is in that log and the result is its own
      ([Acknowledge]). A call of ReadIndex that returns without an error is linearizable: the state it permits to read contains every write acknowledged before
      the call, by any node ([ReadIndex] for a confirmation of leadership, [Reader] for the calls that share one). It assumes that the leader's clock has advanced between the last request that was
      answered and the beginning of the confirmation; [ReadIndex] ends with what happens otherwise. A leader refuses writes only while a transfer of its leadership is in flight ([Transfer]). Proposals are conserved: each that was handed over waits or was answered once ([Proposals]),
      and each call of Propose is answered once ([Proposer]); a Write returns the result of its own command, which no replica ever loses ([Writes]), and a Get returns a value at least as
      new as every acknowledged write ([Gets]). No replica ever panics, and every crashed one can start again ([NoPanic]). A replicator's loop ends, with a follower that holds the leader's log unless the leadership was
      lost ([Replicator]); the number of rounds is bounded by (last + 1)(last + 3) for a log that ends at last, the fuel the loop is given. The processes of
      one cluster, started on empty disks, are an initial state of this group for every shard ([Main]). [RaftFacts] and [LogFacts] hold the effect of each critical section.
    - The state machine ([Store]): a well-formedness invariant, refinement to a map with versions, at-most-once execution of retried
      commands within the window, no conditional write against a version that is not the current one, and
      restoring a snapshot followed by the rest of the log.
    - Durability ([Wal], [RaftStoreFacts], [SnapshotFile]): recovery after a crash inside any write, refinement of the
      storage contract, snapshots that are switched to atomically and read back exactly.
    - Serving ([Mux], [Server], [Node], [Gateway]): every key but two has the path the client writes for it, every request has an answer and is counted once, what may be cached, when a path is invalidated, that a request is forwarded once and as the same command,
      that every key and every message reaches one shard. When a node stops, storage is closed once, after everything the node itself started is over, and a stop that has begun can be completed ([Lifecycle]).
    - Caching ([Edge], [Cdn]): a copy that is not served in place of an error is never older than the
      origin allowed, whatever requests and invalidations overlap; invalidation removes exactly what it names; no queued path is lost.
    - The client ([Client]): requests end within the configured attempts and repeat exactly, every attempt decodes to one command, a Put finds the leader in two calls,
      and two committed attempts of a Put are executed once, composed from [Client], [Server] and [Store].
    - The rest ([Metrics], [Cmd], [Bench], [Transport], [MemNet]): histograms, configuration, a report of the load generator that adds up, preloading that puts every key once ([Preload]), retries of CloudFront requests ([CloudFront]), snapshot streams, and stubs
      whose calls reach the method of the same name and the Raft group the request names ([Stubs]).

    Some theorems show where the code falls short of its comments; they are stated about concrete runs. The contract of the durable storage
    holds under a condition on snapshots that keep the log, stated there; [RaftStoreFacts] ends
    with a run that breaks it without that condition and with one in which a crash inside a rotation loses the
    vote. Agreement is proved for storages that satisfy the contract.

    ** Conventions

    Panics are values of [res]; errors are values of sums or options. Integers that can reach their width wrap explicitly ([u64], [u32], [i64]);
    log indexes and terms are unbounded, since each increment costs a durable write. Times are integers in nanoseconds. Loops that are not structural carry fuel: the
    length of what they scan ([TrimSpace], [search_loop], segment reading), which each round shortens, or the
    configured number of attempts ([do_loop]). Code outside the repository is a parameter with documented laws: the
    protobuf codec ([Codec], [CodecLaws]), gRPC, the HTTP client, JSON, clocks, random bytes, [%g].

    ** Not modelled

    The generated encoders, getters and reflection tables of the messages (internal/pb/edgekv.pb.go; no code of the repository calls the getters); the gRPC library itself; the AWS library behind CloudFront; the flag package, the listeners' goroutines, signals and logging of the
    commands; the random numbers, the JSON and the printed output of the load generator, whose iterations take what was drawn as an argument; the target of the mux's redirects. Liveness of elections is not
    stated: it depends on timing the step relation leaves open. *)

From stdpp Require Export base tactics numbers option list list_numbers strings gmap fin_maps sorting.
From Stdlib Require Export NArith ZArith Lia.
From Stdlib Require Import Strings.Byte.

#[global] Open Scope N_scope.

(** ** Go values

    [[]byte] is a list of bytes (a nil slice and an empty one have the same
    contents, and nothing in the sources observes the difference); [uint64],
    [uint32] are [N], with the wrap-around written where the source can
    reach it; [time.Time] and [time.Duration] are integers in nanoseconds. *)
Abbreviation byte := Byte.byte.
Abbreviation bytes := (list byte).

#[global] Instance byte_eq_dec : EqDecision byte := Byte.byte_eq_dec.

#[global] Program Instance byte_countable : Countable byte :=
  inj_countable Byte.to_N Byte.of_N _.
Next Obligation. apply Byte.of_to_N. Qed.

#[global] Instance byte_inhabited : Inhabited byte := populate Byte.x00.

Definition u64_modulus : N := 2 ^ 64.
Definition u32_modulus : N := 2 ^ 32.

(** Conversion to [uint64] / [uint32]: reduction modulo the width. *)
Definition u64 (n : N) : N := n mod u64_modulus.
Definition u32 (n : N) : N := n mod u32_modulus.

(** [a - b] on [uint64]: wraps around when [a < b]. *)
Definition u64_sub (a b : N) : N := (a + u64_modulus - u64 b) mod u64_modulus.

(** [uint64(len(l))]. *)
Definition lenN {A} (l : list A) : N := N.of_nat (length l).

(** ** Panics

    A Go function that can panic returns a [res]: the value, or the fact that
    the goroutine (hence the process) died. *)
Inductive res (A : Type) : Type :=
| Ok (a : A)
| Panic (why : string).
Arguments Ok {A} a.
Arguments Panic {A} why.

#[global] Instance res_ret : MRet res := fun A a => Ok a.
#[global] Instance res_bind : MBind res := fun A B f m =>
  match m with
  | Ok a => f a
  | Panic w => Panic w
  end.
#[global] Instance res_fmap : FMap res := fun A B f m =>
  match m with
  | Ok a => Ok (f a)
  | Panic w => Panic w
  end.

Definition is_ok {A} (m : res A) : bool :=
  match m with Ok _ => true | Panic _ => false end.

(** [a, err := f()]: a Go result that is a value or an error. *)
Definition or_panic {A} (why : string) (m : option A) : res A :=
  match m with Some a => Ok a | None => Panic why end.

(** ** Record update

    [r <| f := v |>] is [r] with field [f] replaced by [v]. The instance for a
    field is computed from the record's eta expansion. *)
Class Eta (R : Type) := eta : R -> R.
Class Setter {R T : Type} (proj : R -> T) := set_field : T -> R -> R.
Arguments set_field {R T} proj {_} v r.

Ltac solve_setter :=
  match goal with
  | |- @Setter ?R ?T ?proj =>
      let e := constr:(_ : Eta R) in
      let e := eval hnf in e in
      exact (fun (v : T) (r : R) => ltac:(
        let b := eval cbv beta in (e r) in
        match b with
        | context C [proj r] => let b' := context C [v] in exact b'
        end))
  end.

#[global] Hint Extern 1 (Setter _) => solve_setter : typeclass_instances.

Declare Scope edgekv_scope.
Notation "r <| f := v |>" := (set_field f v r)
  (at level 8, f at level 1, v at level 200, left associativity) : edgekv_scope.
#[global] Open Scope edgekv_scope.

(** ** Machine integers *)
Arguments u64 : simpl never.
Arguments u32 : simpl never.
Arguments u64_sub : simpl never.

Lemma u64_small n : n < u64_modulus -> u64 n = n.
Proof. apply N.mod_small. Qed.

Lemma u64_lt n : u64 n < u64_modulus.
Proof. by apply N.mod_lt. Qed.

Lemma u64_sub_small a b : b <= a -> a < u64_modulus -> u64_sub a b = a - b.
Proof.
  intros Hle Hlt. unfold u64_sub. rewrite u64_small by lia.
  replace (a + u64_modulus - b) with ((a - b) + 1 * u64_modulus) by lia.
  rewrite N.Div0.mod_add. apply N.mod_small. lia.
Qed.

(** ** Panicking computations *)
Lemma bind_Ok {A B} (m : res A) (f : A -> res B) b :
  m ≫= f = Ok b <-> exists a, m = Ok a /\ f a = Ok b.
Proof. destruct m; simpl; naive_solver. Qed.

Lemma or_panic_Ok {A} w (m : option A) a : or_panic w m = Ok a <-> m = Some a.
Proof. destruct m; simpl; naive_solver. Qed.

(** Decompose a hypothesis that a computation returned. *)
Ltac inv_ok :=
  repeat match goal with
  | H : Ok _ = Ok _ |- _ => injection H; clear H; intros; subst
  | H : Panic _ = Ok _ |- _ => discriminate H
  | H : Ok _ = Panic _ |- _ => discriminate H
  | H : or_panic _ _ = Ok _ |- _ => apply or_panic_Ok in H
  | H : _ ≫= _ = Ok _ |- _ => apply bind_Ok in H; destruct H as (? & ? & H)
  | H : context [let '(_, _) := ?p in _] |- _ =>
      is_var p; destruct p
  end.

(** ** Lists indexed by [N] *)
Lemma lenN_app {A} (l k : list A) : lenN (l ++ k) = lenN l + lenN k.
Proof. unfold lenN. rewrite length_app. lia. Qed.
Lemma lenN_nil {A} : lenN (@nil A) = 0.
Proof. done. Qed.
Lemma lenN_cons {A} (x : A) l : lenN (x :: l) = 1 + lenN l.
Proof. unfold lenN. simpl length. lia. Qed.
Lemma lenN_fmap {A B} (f : A -> B) l : lenN (f <$> l) = lenN l.
Proof. unfold lenN. by rewrite length_fmap. Qed.
Lemma lenN_take {A} n (l : list A) : lenN (take n l) = N.min (N.of_nat n) (lenN l).
Proof. unfold lenN. rewrite length_take. lia. Qed.
Lemma lenN_drop {A} n (l : list A) : lenN (drop n l) = lenN l - N.of_nat n.
Proof. unfold lenN. rewrite length_drop. lia. Qed.

Create Rewrite HintDb edgekv.
#[export] Hint Rewrite @lenN_app @lenN_nil @lenN_cons @lenN_fmap @lenN_take @lenN_drop : edgekv.

(** Folding insertions of distinct keys builds the map of the list. *)
Lemma foldl_insert_lookup {K A X} `{Countable K} (key : X -> K) (val : X -> A) (l : list X) (m : gmap K A) k :
  k ∉ (key <$> l) ->
  foldl (fun m x => <[key x := val x]> m) m l !! k = m !! k.
Proof.
  revert m. induction l as [|x l IH]; intros m Hk; simpl; [done|].
  rewrite fmap_cons, not_elem_of_cons in Hk. rewrite IH by tauto.
  apply lookup_insert_ne. naive_solver.
Qed.

Lemma foldl_insert_elem {K A X} `{Countable K} (key : X -> K) (val : X -> A) (l : list X) (m : gmap K A) x :
  NoDup (key <$> l) -> x ∈ l ->
  foldl (fun m x => <[key x := val x]> m) m l !! key x = Some (val x).
Proof.
  revert m. induction l as [|y l IH]; intros m Hnd Hx; [by apply not_elem_of_nil in Hx|].
  rewrite fmap_cons, NoDup_cons in Hnd. destruct Hnd as [Hy Hnd]. simpl.
  apply elem_of_cons in Hx as [->|Hx]; [|by apply IH].
  rewrite foldl_insert_lookup by done. apply lookup_insert_eq.
Qed.

(** ** Sorted lists *)
Lemma StronglySorted_mono {A} (R1 R2 : relation A) (l : list A) :
  (forall x y, R1 x y -> R2 x y) -> StronglySorted R1 l -> StronglySorted R2 l.
Proof.
  intros HR Hs. induction Hs as [|x l _ IH Hall]; constructor; [done|]. eapply Forall_impl; [exact Hall|]. auto.
Qed.

Lemma StronglySorted_of_sublist {A} (R : relation A) (l k : list A) :
  l `sublist_of` k -> StronglySorted R k -> StronglySorted R l.
Proof.
  intros Hsub. induction Hsub as [|x l k Hsub IH|x l k Hsub IH]; intros Hs; [done|..].
  - apply StronglySorted_cons in Hs as [Hall Hs]. constructor; [by apply IH|].
    rewrite Forall_forall in *. intros y Hy. apply Hall. eapply elem_of_submseteq; [exact Hy|by apply sublist_submseteq].
  - apply StronglySorted_cons in Hs as [_ Hs]. by apply IH.
Qed.

(** ** Majorities *)

(** Two duplicate-free lists of members, each more than half of the group,
    share a member. *)
Lemma quorum_intersect (peers l1 l2 : list string) :
  NoDup l1 -> NoDup l2 -> l1 ⊆ peers -> l2 ⊆ peers ->
  (length peers / 2 + 1 <= length l1)%nat -> (length peers / 2 + 1 <= length l2)%nat ->
  exists x, x ∈ l1 /\ x ∈ l2.
Proof.
  intros Hn1 Hn2 Hs1 Hs2 Hl1 Hl2. destruct (decide (Exists (.∈ l2) l1)) as [He|He].
  - apply Exists_exists in He as (x & ? & ?). eauto.
  - assert (Hnd : NoDup (l1 ++ l2)).
    { apply NoDup_app. split_and!; [done| |done]. intros x Hx1 Hx2. apply He, Exists_exists. eauto. }
    assert (Hsub : l1 ++ l2 ⊆ peers) by (intros x [?|?]%elem_of_app; auto).
    apply NoDup_submseteq in Hsub; [|done]. apply submseteq_length in Hsub. rewrite length_app in Hsub.
    pose proof (Nat.div_mod_eq (length peers) 2). pose proof (Nat.mod_upper_bound (length peers) 2). lia.
Qed.
