(* ===== verification/Types.v ===== *)
(** * Messages (internal/pb) and their wire format

    The protobuf messages of [proto/edgekv.proto] as records, with the field
    order of the generated Go structs. An enum is open in proto3 (a decoded
    value may be any int32), so each enum type has a constructor for the
    values without a name.

    [proto.Marshal] and [proto.Unmarshal] are third-party code: they are the
    operations of the class [Codec], and what the program relies on (decoding
    an encoding gives the message back) is the class [CodecLaws]. *)

From S2P Require Import Prelude.

(** ** Enums *)
Inductive EntryType :=
| ENTRY_NORMAL
| ENTRY_NOOP
| ENTRY_OTHER (n : Z).

Inductive Op :=
| OP_PUT
| OP_DELETE
| OP_OTHER (n : Z).

Inductive Status :=
| STATUS_OK
| STATUS_NOT_FOUND
| STATUS_VERSION_MISMATCH
| STATUS_OTHER (n : Z).

#[global] Instance EntryType_eq_dec : EqDecision EntryType.
Proof. solve_decision. Defined.
#[global] Instance Op_eq_dec : EqDecision Op.
Proof. solve_decision. Defined.
#[global] Instance Status_eq_dec : EqDecision Status.
Proof. solve_decision. Defined.

(** ** Raft log and persistent state *)
Record Entry := mkEntry {
  ent_Index : N;
  ent_Term : N;
  ent_Type : EntryType;
  ent_Data : bytes;
}.

Record HardState := mkHardState {
  hs_Term : N;
  hs_VotedFor : string;
}.

Record SnapshotMeta := mkSnapshotMeta {
  sm_LastIncludedIndex : N;
  sm_LastIncludedTerm : N;
  sm_MinWalSegment : N;
}.

(** ** Raft RPCs *)
Record RequestVoteRequest := mkRequestVoteRequest {
  rv_Group : N;
  rv_Term : N;
  rv_CandidateId : string;
  rv_LastLogIndex : N;
  rv_LastLogTerm : N;
  rv_PreVote : bool;
}.

Record RequestVoteResponse := mkRequestVoteResponse {
  rvr_Term : N;
  rvr_VoteGranted : bool;
}.

Record AppendEntriesRequest := mkAppendEntriesRequest {
  ae_Group : N;
  ae_Term : N;
  ae_LeaderId : string;
  ae_PrevLogIndex : N;
  ae_PrevLogTerm : N;
  ae_Entries : list Entry;
  ae_LeaderCommit : N;
}.

#[global] Instance eta_AppendEntriesRequest : Eta AppendEntriesRequest := fun m =>
  mkAppendEntriesRequest (ae_Group m) (ae_Term m) (ae_LeaderId m) (ae_PrevLogIndex m) (ae_PrevLogTerm m)
    (ae_Entries m) (ae_LeaderCommit m).

Record AppendEntriesResponse := mkAppendEntriesResponse {
  aer_Term : N;
  aer_Success : bool;
  aer_ConflictIndex : N;
  aer_ConflictTerm : N;
}.

Record InstallSnapshotRequest := mkInstallSnapshotRequest {
  is_Group : N;
  is_Term : N;
  is_LeaderId : string;
  is_LastIncludedIndex : N;
  is_LastIncludedTerm : N;
  is_Data : bytes;
}.

Record InstallSnapshotResponse := mkInstallSnapshotResponse {
  isr_Term : N;
}.

Record InstallSnapshotChunk := mkInstallSnapshotChunk {
  isc_Header : option InstallSnapshotRequest;
  isc_Data : bytes;
}.

Record TimeoutNowRequest := mkTimeoutNowRequest {
  tn_Group : N;
  tn_Term : N;
  tn_LeaderId : string;
}.

Record TimeoutNowResponse := mkTimeoutNowResponse {
  tnr_Term : N;
}.

(** ** State machine: commands, results, snapshot *)
Record Command := mkCommand {
  cmd_Op : Op;
  cmd_Key : string;
  cmd_Value : bytes;
  cmd_HasExpectedVersion : bool;
  cmd_ExpectedVersion : N;
  cmd_RequestId : string;
  cmd_Cacheable : bool;
  cmd_TtlSeconds : N;
  cmd_TimestampUnixMs : Z;
}.

Record Result := mkResult {
  res_Status : Status;
  res_Version : N;
}.

Record SnapshotRecord := mkSnapshotRecord {
  sr_Key : string;
  sr_Value : bytes;
  sr_Version : N;
  sr_Deleted : bool;
  sr_Cacheable : bool;
  sr_TtlSeconds : N;
  sr_UpdatedUnixMs : Z;
}.

Record SnapshotDedup := mkSnapshotDedup {
  sd_RequestId : string;
  sd_Index : N;
  sd_Result : option Result;
}.

Record StoreSnapshot := mkStoreSnapshot {
  ss_Records : list SnapshotRecord;
  ss_Dedup : list SnapshotDedup;
}.

#[global] Instance Entry_eq_dec : EqDecision Entry.
Proof. solve_decision. Defined.
#[global] Instance HardState_eq_dec : EqDecision HardState.
Proof. solve_decision. Defined.
#[global] Instance SnapshotMeta_eq_dec : EqDecision SnapshotMeta.
Proof. solve_decision. Defined.
#[global] Instance RequestVoteRequest_eq_dec : EqDecision RequestVoteRequest.
Proof. solve_decision. Defined.
#[global] Instance RequestVoteResponse_eq_dec : EqDecision RequestVoteResponse.
Proof. solve_decision. Defined.
#[global] Instance AppendEntriesRequest_eq_dec : EqDecision AppendEntriesRequest.
Proof. solve_decision. Defined.
#[global] Instance AppendEntriesResponse_eq_dec : EqDecision AppendEntriesResponse.
Proof. solve_decision. Defined.
#[global] Instance InstallSnapshotRequest_eq_dec : EqDecision InstallSnapshotRequest.
Proof. solve_decision. Defined.
#[global] Instance Command_eq_dec : EqDecision Command.
Proof. solve_decision. Defined.
#[global] Instance Result_eq_dec : EqDecision Result.
Proof. solve_decision. Defined.

#[global] Instance eta_Command : Eta Command := fun c =>
  mkCommand (cmd_Op c) (cmd_Key c) (cmd_Value c) (cmd_HasExpectedVersion c)
    (cmd_ExpectedVersion c) (cmd_RequestId c) (cmd_Cacheable c)
    (cmd_TtlSeconds c) (cmd_TimestampUnixMs c).
#[global] Instance eta_SnapshotMeta : Eta SnapshotMeta := fun m =>
  mkSnapshotMeta (sm_LastIncludedIndex m) (sm_LastIncludedTerm m) (sm_MinWalSegment m).
#[global] Instance eta_InstallSnapshotRequest : Eta InstallSnapshotRequest := fun r =>
  mkInstallSnapshotRequest (is_Group r) (is_Term r) (is_LeaderId r)
    (is_LastIncludedIndex r) (is_LastIncludedTerm r) (is_Data r).

(** The zero message, which is also what a nil [*pb.Result] encodes as. *)
Definition Result0 : Result := mkResult STATUS_OK 0.

(** ** Encoding

    [marshal] fails ([None]) on a message the wire format cannot carry, such
    as a string that is not UTF-8. *)
Class Codec (A : Type) := {
  marshal : A -> option bytes;
  unmarshal : bytes -> option A;
}.

Class CodecLaws (A : Type) `{Codec A} :=
  unmarshal_marshal (a : A) (b : bytes) : marshal a = Some b -> unmarshal b = Some a.

(** A codec whose encoder never fails. *)
Class CodecTotal (A : Type) `{Codec A} :=
  marshal_total (a : A) : is_Some (marshal a).

(** ** A concrete codec

    The bits of the canonical numbering of a countable type, one per byte. It
    stands for protobuf where a theorem is evaluated on a concrete input. *)
Fixpoint pos_to_bytes (p : positive) : bytes :=
  match p with
  | xH => []
  | xO p => Byte.x00 :: pos_to_bytes p
  | xI p => Byte.x01 :: pos_to_bytes p
  end.

Fixpoint bytes_to_pos (b : bytes) : option positive :=
  match b with
  | [] => Some xH
  | Byte.x00 :: b => xO <$> bytes_to_pos b
  | Byte.x01 :: b => xI <$> bytes_to_pos b
  | _ => None
  end.

Lemma bytes_to_pos_to_bytes p : bytes_to_pos (pos_to_bytes p) = Some p.
Proof. induction p as [p IH|p IH|]; simpl; rewrite ?IH; done. Qed.

Definition countable_codec (A : Type) `{Countable A} : Codec A := {|
  marshal a := Some (pos_to_bytes (encode a));
  unmarshal b := bytes_to_pos b ≫= decode;
|}.

Lemma countable_codec_laws (A : Type) `{Countable A} : @CodecLaws A (countable_codec A).
Proof.
  intros a b [= <-]. simpl. rewrite bytes_to_pos_to_bytes. simpl. apply decode_encode.
Qed.

Lemma countable_codec_total (A : Type) `{Countable A} : @CodecTotal A (countable_codec A).
Proof. intros a. by eexists. Qed.

(** *** Countability of the messages that are encoded *)
#[global] Program Instance EntryType_countable : Countable EntryType :=
  inj_countable
    (fun t => match t with ENTRY_NORMAL => inl false | ENTRY_NOOP => inl true | ENTRY_OTHER n => inr n end)
    (fun t => Some (match t with inl false => ENTRY_NORMAL | inl true => ENTRY_NOOP | inr n => ENTRY_OTHER n end)) _.
Next Obligation. by intros []. Qed.

#[global] Program Instance Op_countable : Countable Op :=
  inj_countable
    (fun t => match t with OP_PUT => inl false | OP_DELETE => inl true | OP_OTHER n => inr n end)
    (fun t => Some (match t with inl false => OP_PUT | inl true => OP_DELETE | inr n => OP_OTHER n end)) _.
Next Obligation. by intros []. Qed.

#[global] Program Instance Status_countable : Countable Status :=
  inj_countable
    (fun t => match t with STATUS_OK => inl None | STATUS_NOT_FOUND => inl (Some false)
                        | STATUS_VERSION_MISMATCH => inl (Some true) | STATUS_OTHER n => inr n end)
    (fun t => Some (match t with inl None => STATUS_OK | inl (Some false) => STATUS_NOT_FOUND
                        | inl (Some true) => STATUS_VERSION_MISMATCH | inr n => STATUS_OTHER n end)) _.
Next Obligation. by intros []. Qed.

#[global] Program Instance Entry_countable : Countable Entry :=
  inj_countable (fun e => (ent_Index e, ent_Term e, ent_Type e, ent_Data e))
    (fun '(i, t, y, d) => Some (mkEntry i t y d)) _.
Next Obligation. by intros []. Qed.

#[global] Program Instance HardState_countable : Countable HardState :=
  inj_countable (fun h => (hs_Term h, hs_VotedFor h)) (fun '(t, v) => Some (mkHardState t v)) _.
Next Obligation. by intros []. Qed.

#[global] Program Instance SnapshotMeta_countable : Countable SnapshotMeta :=
  inj_countable (fun m => (sm_LastIncludedIndex m, sm_LastIncludedTerm m, sm_MinWalSegment m))
    (fun '(i, t, w) => Some (mkSnapshotMeta i t w)) _.
Next Obligation. by intros []. Qed.

#[global] Program Instance Result_countable : Countable Result :=
  inj_countable (fun r => (res_Status r, res_Version r)) (fun '(s, v) => Some (mkResult s v)) _.
Next Obligation. by intros []. Qed.

#[global] Program Instance Command_countable : Countable Command :=
  inj_countable
    (fun c => (cmd_Op c, cmd_Key c, cmd_Value c, cmd_HasExpectedVersion c, cmd_ExpectedVersion c,
               cmd_RequestId c, cmd_Cacheable c, cmd_TtlSeconds c, cmd_TimestampUnixMs c))
    (fun '(o, k, v, h, e, r, c, t, ts) => Some (mkCommand o k v h e r c t ts)) _.
Next Obligation. by intros []. Qed.

#[global] Instance SnapshotRecord_eq_dec : EqDecision SnapshotRecord.
Proof. solve_decision. Defined.
#[global] Program Instance SnapshotRecord_countable : Countable SnapshotRecord :=
  inj_countable
    (fun r => (sr_Key r, sr_Value r, sr_Version r, sr_Deleted r, sr_Cacheable r, sr_TtlSeconds r, sr_UpdatedUnixMs r))
    (fun '(k, v, n, d, c, t, u) => Some (mkSnapshotRecord k v n d c t u)) _.
Next Obligation. by intros []. Qed.

#[global] Instance SnapshotDedup_eq_dec : EqDecision SnapshotDedup.
Proof. solve_decision. Defined.
#[global] Program Instance SnapshotDedup_countable : Countable SnapshotDedup :=
  inj_countable (fun d => (sd_RequestId d, sd_Index d, sd_Result d))
    (fun '(r, i, x) => Some (mkSnapshotDedup r i x)) _.
Next Obligation. by intros []. Qed.

#[global] Instance StoreSnapshot_eq_dec : EqDecision StoreSnapshot.
Proof. solve_decision. Defined.
#[global] Program Instance StoreSnapshot_countable : Countable StoreSnapshot :=
  inj_countable (fun s => (ss_Records s, ss_Dedup s)) (fun '(r, d) => Some (mkStoreSnapshot r d)) _.
Next Obligation. by intros []. Qed.
