(* ===== verification/GoStrings.v ===== *)
(** * Strings and numbers of Go's standard library

    What the gateway, the edge cache, the client and the commands use of packages
    [strings], [strconv] and [net/url]. A Go string is a sequence of bytes, as
    is a [string] here. *)

From stdpp Require Export pretty.
From Stdlib Require Import Ascii.
From S2P Require Import Prelude.

#[global] Open Scope N_scope.

(** ** strings *)
Definition HasPrefix (s p : string) : bool := String.prefix p s.

(** [strings.CutPrefix]. *)
Fixpoint CutPrefix (s p : string) : option string :=
  match p, s with
  | EmptyString, _ => Some s
  | String a p, String b s => if decide (a = b) then CutPrefix s p else None
  | String _ _, EmptyString => None
  end.

(** [strings.Cut] with a separator of one byte; [None]: not found. *)
Fixpoint Cut (sep : ascii) (s : string) : option (string * string) :=
  match s with
  | EmptyString => None
  | String a s =>
      if decide (a = sep) then Some (EmptyString, s)
      else match Cut sep s with
           | Some (x, y) => Some (String a x, y)
           | None => None
           end
  end.

(** [strings.Split] with a separator of one byte. *)
Fixpoint Split (sep : ascii) (s : string) : list string :=
  match s with
  | EmptyString => [EmptyString]
  | String a s =>
      if decide (a = sep) then EmptyString :: Split sep s
      else match Split sep s with
           | x :: l => String a x :: l
           | [] => [String a EmptyString]
           end
  end.

(** [strings.Join]. *)
Fixpoint Join (sep : string) (l : list string) : string :=
  match l with
  | [] => EmptyString
  | [x] => x
  | x :: l => x +:+ sep +:+ Join sep l
  end.

Fixpoint rev_string (s acc : string) : string :=
  match s with
  | EmptyString => acc
  | String a s => rev_string s (String a acc)
  end.

(** [strings.TrimRight] with a cutset of one byte. *)
Fixpoint trim_left_byte (c : ascii) (s : string) : string :=
  match s with
  | String a s' => if decide (a = c) then trim_left_byte c s' else s
  | EmptyString => s
  end.

Definition TrimRight (s : string) (c : ascii) : string :=
  rev_string (trim_left_byte c (rev_string s EmptyString)) EmptyString.

(** The code points [unicode.IsSpace] accepts, in UTF-8. *)
Definition bytes_string (l : list N) : string := foldr (fun n s => String (ascii_of_N n) s) EmptyString l.

Definition spaces : list string :=
  bytes_string <$>
    [[9]; [10]; [11]; [12]; [13]; [32]; [194; 133]; [194; 160]; [225; 154; 128];
     [226; 128; 128]; [226; 128; 129]; [226; 128; 130]; [226; 128; 131]; [226; 128; 132]; [226; 128; 133];
     [226; 128; 134]; [226; 128; 135]; [226; 128; 136]; [226; 128; 137]; [226; 128; 138];
     [226; 128; 168]; [226; 128; 169]; [226; 128; 175]; [226; 129; 159]; [227; 128; 128]].

Fixpoint trim_left (fuel : nat) (set : list string) (s : string) : string :=
  match fuel with
  | O => s
  | S fuel =>
      match list_find (fun p => is_Some (CutPrefix s p)) set with
      | Some (_, p) => trim_left fuel set (default s (CutPrefix s p))
      | None => s
      end
  end.

(** [strings.TrimSpace]: every round removes a byte at least, so the length is
    enough fuel. *)
Definition TrimSpace (s : string) : string :=
  let s := trim_left (String.length s) spaces s in
  rev_string (trim_left (String.length s) ((fun p => rev_string p EmptyString) <$> spaces) (rev_string s EmptyString)) EmptyString.

(** ** sort *)
Definition sort_strings (l : list string) : list string := merge_sort String.le l.

(** ** strconv *)
Definition digit_value (a : ascii) : option N :=
  let n := N_of_ascii a in
  if (48 <=? n) && (n <=? 57) then Some (n - 48) else None.

Fixpoint parse_digits (bound acc : N) (s : string) : option N :=
  match s with
  | EmptyString => Some acc
  | String a s =>
      match digit_value a with
      | None => None
      | Some d => if acc * 10 + d <? bound then parse_digits bound (acc * 10 + d) s else None
      end
  end.

(** [strconv.ParseUint(s, 10, bits)]; [None] is any error. *)
Definition ParseUint (s : string) (bits : N) : option N :=
  if bool_decide (s = EmptyString) then None else parse_digits (2 ^ bits) 0 s.

(** [strconv.FormatUint(n, 10)] and [strconv.Itoa] of a natural number. *)
Definition FormatUint (n : N) : string := pretty n.

(** [strconv.Atoi]; [None] is any error. *)
Definition Atoi (s : string) : option Z :=
  match s with
  | String "-"%char s' =>
      if bool_decide (s' = EmptyString) then None else (fun n => (- Z.of_N n)%Z) <$> parse_digits (2 ^ 63 + 1) 0 s'
  | String "+"%char s' =>
      if bool_decide (s' = EmptyString) then None else Z.of_N <$> parse_digits (2 ^ 63) 0 s'
  | _ => if bool_decide (s = EmptyString) then None else Z.of_N <$> parse_digits (2 ^ 63) 0 s
  end.

(** ** net/url *)
Definition upper_hex (n : N) : ascii := ascii_of_N (if n <? 10 then 48 + n else 55 + n).

Definition hex_value (a : ascii) : option N :=
  let n := N_of_ascii a in
  if (48 <=? n) && (n <=? 57) then Some (n - 48)
  else if (97 <=? n) && (n <=? 102) then Some (n - 87)
  else if (65 <=? n) && (n <=? 70) then Some (n - 55)
  else None.

(** Bytes a path segment keeps: letters, digits and [-_.~$&+:=@]. *)
Definition segment_byte (a : ascii) : bool :=
  let n := N_of_ascii a in
  ((97 <=? n) && (n <=? 122)) || ((65 <=? n) && (n <=? 90)) || ((48 <=? n) && (n <=? 57)) ||
  bool_decide (n ∈ [45; 95; 46; 126; 36; 38; 43; 58; 61; 64]).

(** [url.PathEscape]. *)
Fixpoint PathEscape (s : string) : string :=
  match s with
  | EmptyString => EmptyString
  | String a s =>
      if segment_byte a then String a (PathEscape s)
      else String "%"%char (String (upper_hex (N_of_ascii a / 16)) (String (upper_hex (N_of_ascii a mod 16)) (PathEscape s)))
  end.

(** [url.PathUnescape]. *)
Fixpoint PathUnescape (s : string) : option string :=
  match s with
  | EmptyString => Some EmptyString
  | String "%"%char s =>
      match s with
      | String a (String b s) =>
          match hex_value a, hex_value b with
          | Some x, Some y => String (ascii_of_N (x * 16 + y)) <$> PathUnescape s
          | _, _ => None
          end
      | _ => None
      end
  | String a s => String a <$> PathUnescape s
  end.

(** [url.QueryUnescape]: as in a path, and a plus is a space. *)
Fixpoint QueryUnescape (s : string) : option string :=
  match s with
  | EmptyString => Some EmptyString
  | String a s =>
      if bool_decide (a = "%"%char) then
        match s with
        | String a (String b s) =>
            match hex_value a, hex_value b with
            | Some x, Some y => String (ascii_of_N (x * 16 + y)) <$> QueryUnescape s
            | _, _ => None
            end
        | _ => None
        end
      else String (if bool_decide (a = "+"%char) then " "%char else a) <$> QueryUnescape s
  end.

(** ** Bytes of a string *)
Fixpoint has_byte (c : ascii) (s : string) : bool :=
  match s with
  | EmptyString => false
  | String a s => bool_decide (a = c) || has_byte c s
  end.

(** [url.ParseQuery] and [Values.Get]: the first value of each parameter; malformed ones are left out. *)
Definition add_param (m : gmap string string) (kv : string) : gmap string string :=
  if has_byte ";"%char kv || bool_decide (kv = EmptyString) then m
  else
    let '(k, v) := match Cut "="%char kv with Some p => p | None => (kv, EmptyString) end in
    match QueryUnescape k, QueryUnescape v with
    | Some k, Some v => match m !! k with Some _ => m | None => <[k := v]> m end
    | _, _ => m
    end.

Definition ParseQuery (q : string) : gmap string string := foldl add_param ∅ (Split "&"%char q).

(** ** Lemmas *)
Lemma app_String a x y : String a x +:+ y = String a (x +:+ y).
Proof. done. Qed.

Lemma CutPrefix_app p s : CutPrefix (p +:+ s) p = Some s.
Proof. induction p as [|a p IH]; [by destruct s|]. rewrite app_String. cbn [CutPrefix]. by rewrite decide_True. Qed.

Lemma CutPrefix_Some s p t : CutPrefix s p = Some t -> s = p +:+ t.
Proof.
  revert s. induction p as [|a p IH]; intros [|b s] Hs; try (by injection Hs as <-); [done|].
  cbn [CutPrefix] in Hs. destruct (decide (a = b)) as [->|]; [|done]. rewrite app_String. f_equal. by apply IH.
Qed.

Lemma Cut_app sep x y : has_byte sep x = false -> Cut sep (x +:+ String sep y) = Some (x, y).
Proof.
  induction x as [|a x IH]; rewrite ?app_String; cbn [Cut Split has_byte]; intros Hx; [by unfold String.append; cbn [Cut Split]; rewrite decide_True|].
  apply orb_false_iff in Hx as [Ha Hx]. apply bool_decide_eq_false in Ha. rewrite decide_False by done.
  by rewrite IH.
Qed.

Lemma Split_none sep x : has_byte sep x = false -> Split sep x = [x].
Proof.
  induction x as [|a x IH]; cbn [Split has_byte]; intros Hx; [done|].
  apply orb_false_iff in Hx as [Ha Hx]. apply bool_decide_eq_false in Ha. rewrite decide_False by done. by rewrite IH.
Qed.

Lemma Split_app sep x y : has_byte sep x = false -> Split sep (x +:+ String sep y) = x :: Split sep y.
Proof.
  induction x as [|a x IH]; rewrite ?app_String; cbn [Cut Split has_byte]; intros Hx; [by unfold String.append; cbn [Cut Split]; rewrite decide_True|].
  apply orb_false_iff in Hx as [Ha Hx]. apply bool_decide_eq_false in Ha. rewrite decide_False by done.
  by rewrite IH.
Qed.

Lemma Split_Join sep l :
  l <> [] -> Forall (fun x => has_byte sep x = false) l -> Split sep (Join (String sep EmptyString) l) = l.
Proof.
  intros Hne Hl. induction Hl as [|x l Hx Hl IH]; [done|]. destruct l as [|y l]; [by apply Split_none|].
  change (Join (String sep EmptyString) (x :: y :: l)) with (x +:+ String sep (Join (String sep EmptyString) (y :: l))).
  rewrite Split_app by done. by rewrite IH.
Qed.

Lemma digit_value_pretty n : n < 10 -> digit_value (pretty_N_char n) = Some n.
Proof.
  intros Hn. assert (Hc : n ∈ [0; 1; 2; 3; 4; 5; 6; 7; 8; 9]) by (rewrite !elem_of_cons; lia).
  repeat (apply elem_of_cons in Hc as [->|Hc]; [by vm_compute|]). by apply elem_of_nil in Hc.
Qed.

Lemma parse_pretty_go bound n s : n < bound -> parse_digits bound 0 (pretty_N_go n s) = parse_digits bound n s.
Proof.
  revert s. induction (N.lt_wf_0 n) as [n _ IH]; intros s Hn. destruct (decide (n = 0)) as [->|Hz]; [by rewrite pretty_N_go_0|].
  rewrite pretty_N_go_step by lia. rewrite IH; [|apply N.div_lt; lia|].
  - cbn [parse_digits]. rewrite digit_value_pretty by (apply N.mod_lt; lia).
    rewrite <- (N.mul_comm 10), <- N.div_mod by lia. by rewrite (proj2 (N.ltb_lt _ _) Hn).
  - pose proof (N.div_lt n 10). lia.
Qed.

Lemma parse_pretty bound n : n < bound -> parse_digits bound 0 (pretty n) = Some n.
Proof.
  intros Hn. unfold pretty, pretty_N. case_decide as Hz; [|by rewrite parse_pretty_go].
  subst. change (parse_digits bound 0 "0") with (if 0 <? bound then Some 0 else None). by rewrite (proj2 (N.ltb_lt _ _) Hn).
Qed.

Lemma pretty_nonempty (n : N) : pretty n <> EmptyString.
Proof. intros He. pose proof (parse_pretty (n + 1) n ltac:(lia)) as Hp. rewrite He in Hp. cbn in Hp.
  injection Hp as <-. by vm_compute in He. Qed.

Lemma ParseUint_FormatUint n bits : n < 2 ^ bits -> ParseUint (FormatUint n) bits = Some n.
Proof.
  intros Hn. unfold ParseUint, FormatUint. rewrite bool_decide_false by apply pretty_nonempty. by apply parse_pretty.
Qed.

Lemma parse_digits_bound bound acc s n : acc < bound -> parse_digits bound acc s = Some n -> n < bound.
Proof.
  revert acc. induction s as [|a s IH]; intros acc Ha Hs; cbn in Hs; [by injection Hs as <-|].
  destruct (digit_value a) as [d|]; [|done]. destruct (N.ltb_spec (acc * 10 + d) bound); [by eapply IH|done].
Qed.

Lemma ParseUint_bound s bits n : ParseUint s bits = Some n -> n < 2 ^ bits.
Proof.
  unfold ParseUint. case_bool_decide; [done|]. apply parse_digits_bound. apply N.neq_0_lt_0, N.pow_nonzero. lia.
Qed.

(** Strings of letters and digits. *)
Definition alnum (a : ascii) : bool :=
  let n := N_of_ascii a in ((97 <=? n) && (n <=? 122)) || ((65 <=? n) && (n <=? 90)) || ((48 <=? n) && (n <=? 57)).

Fixpoint all_alnum (s : string) : bool :=
  match s with EmptyString => true | String a s => alnum a && all_alnum s end.

Lemma all_alnum_no_byte c s : alnum c = false -> all_alnum s = true -> has_byte c s = false.
Proof.
  intros Hc. induction s as [|a s IH]; [done|]. cbn. intros [Ha Hs]%andb_true_iff. rewrite IH by done. rewrite orb_false_r.
  apply bool_decide_false. by intros ->; rewrite Hc in Ha.
Qed.

Lemma QueryUnescape_alnum s : all_alnum s = true -> QueryUnescape s = Some s.
Proof.
  induction s as [|a s IH]; [done|]. cbn [all_alnum QueryUnescape]. intros [Ha Hs]%andb_true_iff. rewrite IH by done.
  rewrite !bool_decide_false by (intros ->; by vm_compute in Ha). done.
Qed.

Lemma all_alnum_pretty_go n s : all_alnum s = true -> all_alnum (pretty_N_go n s) = true.
Proof.
  revert s. induction (N.lt_wf_0 n) as [n _ IH]; intros s Hs. destruct (decide (n = 0)) as [->|Hz]; [by rewrite pretty_N_go_0|].
  rewrite pretty_N_go_step by lia. apply IH; [apply N.div_lt; lia|]. cbn [all_alnum]. apply andb_true_iff. split; [|done].
  pose proof (N.mod_lt n 10 ltac:(lia)) as Hn. revert Hn. generalize (n mod 10). intros m Hm.
  assert (Hc : m ∈ [0; 1; 2; 3; 4; 5; 6; 7; 8; 9]) by (rewrite !elem_of_cons; lia).
  repeat (apply elem_of_cons in Hc as [->|Hc]; [by vm_compute|]). by apply elem_of_nil in Hc.
Qed.

Lemma all_alnum_FormatUint n : all_alnum (FormatUint n) = true.
Proof. unfold FormatUint, pretty, pretty_N. case_decide; [done|]. by apply all_alnum_pretty_go. Qed.

Lemma has_byte_app c x y : has_byte c (x +:+ y) = has_byte c x || has_byte c y.
Proof. induction x as [|a x IH]; [done|]. rewrite app_String. cbn. by rewrite IH, orb_assoc. Qed.

Lemma ParseQuery_one k v :
  k <> EmptyString -> all_alnum v = true -> has_byte "="%char k = false -> has_byte "&"%char k = false -> has_byte ";"%char k = false ->
  QueryUnescape k = Some k -> ParseQuery (k +:+ String "="%char v) = {[k := v]}.
Proof.
  intros Hk Hv He Ha Hs Hu. unfold ParseQuery.
  rewrite Split_none by (rewrite has_byte_app, Ha; cbn; by apply all_alnum_no_byte).
  cbn. unfold add_param. rewrite has_byte_app, Hs. cbn [has_byte orb]. rewrite (all_alnum_no_byte ";") by done.
  rewrite (bool_decide_false (_ +:+ _ = _)) by by destruct k. cbn. rewrite Cut_app by done.
  rewrite Hu, QueryUnescape_alnum by done. by rewrite lookup_empty.
Qed.

(** Escaping a segment and decoding it again. *)
Lemma N_ascii_lt a : N_of_ascii a < 256.
Proof. apply N_ascii_bounded. Qed.

Lemma hex_value_upper n : n < 16 -> hex_value (upper_hex n) = Some n.
Proof.
  intros Hn. assert (Hc : n ∈ [0; 1; 2; 3; 4; 5; 6; 7; 8; 9; 10; 11; 12; 13; 14; 15]) by (rewrite !elem_of_cons; lia).
  repeat (apply elem_of_cons in Hc as [->|Hc]; [by vm_compute|]). by apply elem_of_nil in Hc.
Qed.

Lemma PathUnescape_kept a s : segment_byte a = true -> PathUnescape (String a s) = String a <$> PathUnescape s.
Proof.
  intros Ha. destruct (decide (a = "%"%char)) as [->|Hne]; [by vm_compute in Ha|]. cbn.
  destruct a as [[] [] [] [] [] [] [] []]; try done.
Qed.

Lemma PathUnescape_PathEscape s : PathUnescape (PathEscape s) = Some s.
Proof.
  induction s as [|a s IH]; [done|]. cbn [PathEscape]. destruct (segment_byte a) eqn:Ha.
  - rewrite PathUnescape_kept by done. by rewrite IH.
  - cbn [PathUnescape]. pose proof (N_ascii_lt a).
    rewrite hex_value_upper by (apply N.Div0.div_lt_upper_bound; lia).
    rewrite hex_value_upper by (apply N.mod_lt; lia). rewrite IH. cbn [fmap option_fmap option_map]. do 2 f_equal.
    rewrite <- (N.mul_comm 16), <- N.div_mod by lia. apply ascii_N_embedding.
Qed.

Lemma has_byte_PathEscape c s :
  segment_byte c = false -> hex_value c = None -> c <> "%"%char -> has_byte c (PathEscape s) = false.
Proof.
  intros Hc Hh Hp. assert (Hup : forall n, n < 16 -> upper_hex n <> c).
  { intros n Hn <-. by rewrite hex_value_upper in Hh. }
  induction s as [|a s IH]; [done|]. cbn [PathEscape]. destruct (segment_byte a) eqn:Ha; cbn [has_byte]; rewrite IH.
  - rewrite orb_false_r. apply bool_decide_false. by intros ->; rewrite Hc in Ha.
  - pose proof (N_ascii_lt a). rewrite !bool_decide_false; [done|..]; try by intros ->.
    + apply Hup. apply N.mod_lt. lia.
    + apply Hup. apply N.Div0.div_lt_upper_bound. lia.
    + by apply not_eq_sym.
Qed.

Lemma sort_strings_perm l : sort_strings l ≡ₚ l.
Proof. apply merge_sort_Permutation. Qed.

Lemma sort_strings_sorted l : StronglySorted String.le (sort_strings l).
Proof. apply StronglySorted_merge_sort; apply _. Qed.

(** The sorted list depends only on the elements. *)
Lemma sort_strings_unique l l' : l ≡ₚ l' -> sort_strings l = sort_strings l'.
Proof.
  intros Hp. apply (StronglySorted_unique String.le); [apply sort_strings_sorted..|]. by rewrite !sort_strings_perm.
Qed.
