(* ===== verification/Store.v ===== *)
(** * The key-value state machine (internal/store/store.go)

    [Store] is the mutex-protected struct: each exported method holds the lock
    for its whole body, so a method is one function on the state. A record is
    reached only through the map, so updating it in place is an insertion.
    The iteration order of a Go map is unspecified: [Snapshot] takes the order
    as an argument. *)

From S2P Require Import Prelude Types.

(** ** Data *)
Inductive error := ErrNotFound | ErrVersionMismatch | ErrUnknownStatus | ErrCorruptSnapshot.

#[global] Instance error_eq_dec : EqDecision error.
Proof. solve_decision. Defined.

(** What a reader sees for a key ([store.Entry]). *)
Record ReadEntry := mkReadEntry {
  re_Value : bytes;
  re_Version : N;
  re_Cacheable : bool;
  re_TTLSeconds : N;
  re_UpdatedUnixMs : Z;
}.

Record record := mkRecord {
  value : bytes;
  version : N;
  deleted : bool;
  cacheable : bool;
  ttlSeconds : N;
  updatedMs : Z;
}.

Record dedupEntry := mkDedupEntry {
  de_index : N;
  de_result : option Result;
}.

Record dedupKey := mkDedupKey {
  dk_index : N;
  dk_id : string;
}.

Record Store := mkStore {
  data : gmap string record;
  dedup : gmap string dedupEntry;
  dedupOrder : list dedupKey;
  dedupWindow : N;
}.

#[global] Instance eta_Store : Eta Store := fun s =>
  mkStore (data s) (dedup s) (dedupOrder s) (dedupWindow s).
#[global] Instance record_eq_dec : EqDecision record.
Proof. solve_decision. Defined.
#[global] Instance dedupEntry_eq_dec : EqDecision dedupEntry.
Proof. solve_decision. Defined.
#[global] Instance dedupKey_eq_dec : EqDecision dedupKey.
Proof. solve_decision. Defined.

(** The zero value of the struct. *)
Definition record0 : record := mkRecord [] 0 false false 0 0.

Definition DefaultDedupWindow : N := 100000.

(** ** Operations *)
Definition New : Store := mkStore ∅ ∅ [] DefaultDedupWindow.

Definition SetDedupWindow (n : N) (s : Store) : Store := s <| dedupWindow := n |>.

Definition cloneBytes (b : bytes) : bytes := b.

Definition Get (s : Store) (key : string) : ReadEntry + error :=
  match data s !! key with
  | None => inr ErrNotFound
  | Some rec =>
      if deleted rec then inr ErrNotFound
      else inl (mkReadEntry (cloneBytes (value rec)) (version rec) (cacheable rec)
                  (ttlSeconds rec) (updatedMs rec))
  end.

Definition Len (s : Store) : nat :=
  size (filter (fun kr : string * record => deleted kr.2 = false) (data s)).

(** The version a client can observe: a missing or deleted key is version 0. *)
Definition visible (rec : option record) : N :=
  match rec with
  | Some r => if deleted r then 0 else version r
  | None => 0
  end.

Definition applyLocked (s : Store) (cmd : Command) : res (Store * Result) :=
  let rec := data s !! cmd_Key cmd in
  if cmd_HasExpectedVersion cmd && negb (cmd_ExpectedVersion cmd =? visible rec) then
    Ok (s, mkResult STATUS_VERSION_MISMATCH (visible rec))
  else
    match cmd_Op cmd with
    | OP_PUT =>
        let old := default record0 rec in
        let rec' := mkRecord (cloneBytes (cmd_Value cmd)) (u64 (version old + 1)) false
                      (cmd_Cacheable cmd) (cmd_TtlSeconds cmd) (cmd_TimestampUnixMs cmd) in
        Ok (s <| data := <[cmd_Key cmd := rec']> (data s) |>,
            mkResult STATUS_OK (version rec'))
    | OP_DELETE =>
        if visible rec =? 0 then Ok (s, mkResult STATUS_NOT_FOUND 0)
        else
          match rec with
          | None => Panic "nil pointer"
          | Some old =>
              let rec' := mkRecord [] (u64 (version old + 1)) true
                            (cacheable old) (ttlSeconds old) (cmd_TimestampUnixMs cmd) in
              Ok (s <| data := <[cmd_Key cmd := rec']> (data s) |>,
                  mkResult STATUS_OK (version rec'))
          end
    | OP_OTHER _ => Panic "store: unknown op"
    end.

Definition statusErr (st : Status) : option error :=
  match st with
  | STATUS_OK => None
  | STATUS_NOT_FOUND => Some ErrNotFound
  | STATUS_VERSION_MISMATCH => Some ErrVersionMismatch
  | STATUS_OTHER _ => Some ErrUnknownStatus
  end.

Definition Put (s : Store) (key : string) (v : bytes) : res (Store * N) :=
  '(s', r) ← applyLocked s (mkCommand OP_PUT key v false 0 "" false 0 0);
  Ok (s', res_Version r).

Definition CAS (s : Store) (key : string) (v : bytes) (expectedVersion : N) :
    res (Store * (N * option error)) :=
  '(s', r) ← applyLocked s (mkCommand OP_PUT key v true expectedVersion "" false 0 0);
  Ok (s', (res_Version r, statusErr (res_Status r))).

Definition Delete (s : Store) (key : string) : res (Store * (N * option error)) :=
  '(s', r) ← applyLocked s (mkCommand OP_DELETE key [] false 0 "" false 0 0);
  Ok (s', (res_Version r, statusErr (res_Status r))).

(** The loop of [evictDedupLocked], on the queue and the table. *)
Fixpoint evict_loop (window index : N) (order : list dedupKey)
    (tbl : gmap string dedupEntry) : list dedupKey * gmap string dedupEntry :=
  match order with
  | [] => ([], tbl)
  | oldest :: rest =>
      if u64_sub index (dk_index oldest) <=? window then (order, tbl)
      else evict_loop window index rest (delete (dk_id oldest) tbl)
  end.

Definition evictDedupLocked (s : Store) (index : N) : Store :=
  let '(order, tbl) := evict_loop (dedupWindow s) index (dedupOrder s) (dedup s) in
  s <| dedup := tbl |> <| dedupOrder := order |>.

Section Encoded.
Context `{Codec Command} `{Codec Result} `{Codec StoreSnapshot}.

Definition mustMarshal (r : option Result) : res bytes :=
  or_panic "store: marshal" (marshal (default Result0 r)).

(** [Apply], after the command has been decoded and old request IDs evicted. *)
Definition applyDeduped (s : Store) (index : N) (cmd : Command) : res (Store * bytes) :=
  match (if bool_decide (cmd_RequestId cmd = "") then None else dedup s !! cmd_RequestId cmd) with
  | Some prev =>
      out ← mustMarshal (de_result prev);
      Ok (s, out)
  | None =>
      '(s', r) ← applyLocked s cmd;
      out ← mustMarshal (Some r);
      let s'' :=
        if bool_decide (cmd_RequestId cmd = "") then s'
        else s' <| dedup := <[cmd_RequestId cmd := mkDedupEntry index (Some r)]> (dedup s') |>
                <| dedupOrder := dedupOrder s' ++ [mkDedupKey index (cmd_RequestId cmd)] |> in
      Ok (s'', out)
  end.

Definition Apply (s : Store) (index : N) (d : bytes) : res (Store * bytes) :=
  match unmarshal d with
  | None => Panic "store: corrupt command"
  | Some cmd => applyDeduped (evictDedupLocked s index) index cmd
  end.

(** The applier's fold over a sequence of committed entries. *)
Fixpoint run (s : Store) (log : list (N * bytes)) : res (Store * list bytes) :=
  match log with
  | [] => Ok (s, [])
  | (i, d) :: log =>
      '(s', out) ← Apply s i d;
      '(s'', outs) ← run s' log;
      Ok (s'', out :: outs)
  end.

Definition snapshotRecord (kr : string * record) : SnapshotRecord :=
  mkSnapshotRecord kr.1 (value kr.2) (version kr.2) (deleted kr.2) (cacheable kr.2)
    (ttlSeconds kr.2) (updatedMs kr.2).

Definition snapshotDedup (s : Store) (k : dedupKey) : SnapshotDedup :=
  mkSnapshotDedup (dk_id k) (dk_index k) (dedup s !! dk_id k ≫= de_result).

(** [iter] is the order in which [range s.data] visits the map. *)
Definition Snapshot (iter : list (string * record)) (s : Store) : option bytes :=
  marshal (mkStoreSnapshot (snapshotRecord <$> iter) (snapshotDedup s <$> dedupOrder s)).

Definition restoreRecord (m : gmap string record) (r : SnapshotRecord) : gmap string record :=
  <[sr_Key r := mkRecord (sr_Value r) (sr_Version r) (sr_Deleted r) (sr_Cacheable r)
                  (sr_TtlSeconds r) (sr_UpdatedUnixMs r)]> m.

Definition restoreDedup (m : gmap string dedupEntry) (d : SnapshotDedup) : gmap string dedupEntry :=
  <[sd_RequestId d := mkDedupEntry (sd_Index d) (sd_Result d)]> m.

Definition Restore (s : Store) (d : bytes) : Store + error :=
  match unmarshal d with
  | None => inr ErrCorruptSnapshot
  | Some snap =>
      inl (mkStore (foldl restoreRecord ∅ (ss_Records snap))
             (foldl restoreDedup ∅ (ss_Dedup snap))
             ((fun d => mkDedupKey (sd_Index d) (sd_RequestId d)) <$> ss_Dedup snap)
             (dedupWindow s))
  end.

End Encoded.

(** ** Eviction *)
Lemma evict_loop_spec window index order tbl order' tbl' :
  evict_loop window index order tbl = (order', tbl') ->
  exists gone,
    order = gone ++ order' /\
    Forall (fun k => window < u64_sub index (dk_index k)) gone /\
    (forall k, head order' = Some k -> u64_sub index (dk_index k) <= window) /\
    (forall id, tbl' !! id = if decide (id ∈ (dk_id <$> gone)) then None else tbl !! id).
Proof.
  revert tbl. induction order as [|k order IH]; intros tbl; simpl.
  - intros [= <- <-]. exists []. by split_and!.
  - destruct (N.leb_spec (u64_sub index (dk_index k)) window) as [Hle|Hlt].
    + intros [= <- <-]. exists []. split_and!; [done|done|naive_solver|done].
    + intros Hev. destruct (IH _ Hev) as (gone & -> & Hgone & Hhd & Htbl).
      exists (k :: gone). split_and!; [done|by constructor|done|].
      intros id. rewrite Htbl, fmap_cons, lookup_delete. repeat case_decide; set_solver.
Qed.

(** ** The invariant

    [last] is the index of the last applied entry. The queue is sorted by
    index, names every remembered request ID exactly once, and no version can
    exceed the number of entries applied. *)
Record table_ok (s : Store) : Prop := {
  tb_nodup : NoDup (dk_id <$> dedupOrder s);
  tb_sync id i : (exists r, dedup s !! id = Some (mkDedupEntry i r)) <-> mkDedupKey i id ∈ dedupOrder s;
}.

Record store_ok (s : Store) (last : N) : Prop := {
  ok_sorted : StronglySorted (fun a b => dk_index a < dk_index b) (dedupOrder s);
  ok_bound : Forall (fun k => dk_index k <= last) (dedupOrder s);
  ok_table : table_ok s;
  ok_version k r : data s !! k = Some r -> 1 <= version r <= last;
  ok_tombstone k r : data s !! k = Some r -> deleted r = true -> value r = [];
}.

Lemma ok_sync s last id i :
  store_ok s last -> (exists r, dedup s !! id = Some (mkDedupEntry i r)) <-> mkDedupKey i id ∈ dedupOrder s.
Proof. intros Hok. apply (tb_sync _ (ok_table _ _ Hok)). Qed.

Lemma table_ok_ext s s' : dedup s' = dedup s -> dedupOrder s' = dedupOrder s -> table_ok s -> table_ok s'.
Proof. intros Hd Ho [Hn Hy]. split; rewrite ?Hd, ?Ho; done. Qed.

Lemma table_ok_New : table_ok New.
Proof. split; simpl; [constructor|set_solver]. Qed.

Lemma store_ok_New : store_ok New 0.
Proof. split; simpl; try constructor; try apply table_ok_New; set_solver. Qed.

Lemma store_ok_mono s last last' : last <= last' -> store_ok s last -> store_ok s last'.
Proof.
  intros Hle Hok. destruct Hok as [Hs Hb Hy Hv Ht]. split; try done.
  - eapply Forall_impl; [exact Hb|]. simpl. lia.
  - intros k r Hr. specialize (Hv k r Hr). lia.
Qed.

Lemma ok_order_inj s last k1 k2 :
  store_ok s last -> k1 ∈ dedupOrder s -> k2 ∈ dedupOrder s -> dk_id k1 = dk_id k2 -> k1 = k2.
Proof.
  intros Hok H1 H2 Heq. destruct k1 as [i1 id], k2 as [i2 id2]; simpl in *; subst.
  apply (ok_sync _ _ _ _ Hok) in H1 as [r1 H1], H2 as [r2 H2]. congruence.
Qed.

(** Evicting keeps exactly the request IDs inside the window. *)
Lemma evictDedupLocked_lookup s last index :
  store_ok s last -> last <= index < u64_modulus ->
  forall id, dedup (evictDedupLocked s index) !! id =
    match dedup s !! id with
    | Some e => if index - de_index e <=? dedupWindow s then Some e else None
    | None => None
    end.
Proof.
  intros Hok Hidx id. unfold evictDedupLocked.
  destruct (evict_loop _ _ _ _) as [order' tbl'] eqn:Hev.
  destruct (evict_loop_spec _ _ _ _ _ _ Hev) as (gone & Hord & Hgone & Hhd & Htbl). cbn.
  rewrite Htbl. clear Hev Htbl.
  assert (Hsub : forall k, k ∈ dedupOrder s -> u64_sub index (dk_index k) = index - dk_index k).
  { intros k Hk. pose proof (proj1 (Forall_forall _ _) (ok_bound _ _ Hok) k Hk) as Hb.
    simpl in Hb. apply u64_sub_small; lia. }
  destruct (dedup s !! id) as [[i r]|] eqn:Hlk; simpl; [|by case_decide].
  assert (Hin : mkDedupKey i id ∈ dedupOrder s) by (apply (ok_sync _ _ _ _ Hok); eauto).
  case_decide as Hd.
  - apply list_elem_of_fmap in Hd as (k & Hid & Hk).
    assert (k = mkDedupKey i id) as ->.
    { eapply ok_order_inj; [done| |done|done]. rewrite Hord. set_solver. }
    pose proof (proj1 (Forall_forall _ _) Hgone _ Hk) as Hw. cbv beta in Hw.
    rewrite (Hsub _ Hin) in Hw. simpl in Hw. destruct (N.leb_spec (index - i) (dedupWindow s)); [lia|done].
  - rewrite Hord in Hin. apply elem_of_app in Hin as [Hin|Hin].
    { destruct Hd. apply list_elem_of_fmap. by exists (mkDedupKey i id). }
    pose proof (ok_sorted _ _ Hok) as Hs. rewrite Hord in Hs.
    destruct order' as [|k0 order']; [by apply elem_of_nil in Hin|].
    pose proof (Hhd k0 eq_refl) as Hk0. rewrite Hsub in Hk0 by (rewrite Hord; set_solver).
    assert (dk_index k0 <= i).
    { apply StronglySorted_app in Hs as (_ & _ & Hs). apply StronglySorted_inv in Hs as [_ Hs].
      apply elem_of_cons in Hin as [<-|Hin]; [done|].
      pose proof (proj1 (Forall_forall _ _) Hs _ Hin) as Hlt. simpl in Hlt. lia. }
    destruct (N.leb_spec (index - i) (dedupWindow s)); [done|lia].
Qed.

Lemma evictDedupLocked_table s index : table_ok s -> table_ok (evictDedupLocked s index).
Proof.
  intros [Hn Hy]. unfold evictDedupLocked.
  destruct (evict_loop _ _ _ _) as [order' tbl'] eqn:Hev.
  destruct (evict_loop_spec _ _ _ _ _ _ Hev) as (gone & Hord & _ & _ & Htbl). clear Hev.
  rewrite Hord, fmap_app in Hn. apply NoDup_app in Hn as (_ & Hdis & Hn). split; cbn; [done|].
  intros id i. rewrite Htbl. specialize (Hy id i). rewrite Hord, elem_of_app in Hy.
  assert (Hf : forall l : list dedupKey, mkDedupKey i id ∈ l -> id ∈ (dk_id <$> l)).
  { intros l Hl. apply list_elem_of_fmap. by exists (mkDedupKey i id). }
  case_decide as Hd; split.
  - by intros [].
  - intros Hin. destruct (Hdis id Hd (Hf _ Hin)).
  - intros Hr. apply Hy in Hr as [Hr|Hr]; [|done]. by destruct Hd; apply Hf.
  - intros Hin. apply Hy. by right.
Qed.

Lemma evictDedupLocked_ok s last index :
  store_ok s last -> store_ok (evictDedupLocked s index) last.
Proof.
  intros Hok. pose proof (evictDedupLocked_table s index (ok_table _ _ Hok)) as Htab. revert Htab. unfold evictDedupLocked.
  destruct (evict_loop _ _ _ _) as [order' tbl'] eqn:Hev.
  destruct (evict_loop_spec _ _ _ _ _ _ Hev) as (gone & Hord & _ & _ & Htbl). clear Hev.
  destruct Hok as [Hs Hb Hy Hv Ht]. split; cbn; try done.
  - rewrite Hord in Hs. by apply StronglySorted_app in Hs as (_ & _ & Hs).
  - rewrite Hord in Hb. by apply Forall_app in Hb as [_ Hb].
Qed.

(** ** One command *)
Lemma applyLocked_frame s cmd s' r :
  applyLocked s cmd = Ok (s', r) ->
  dedup s' = dedup s /\ dedupOrder s' = dedupOrder s /\ dedupWindow s' = dedupWindow s.
Proof. unfold applyLocked. intros H. repeat case_match; inv_ok; by simplify_eq/=. Qed.

Lemma applyLocked_effect s cmd s' r :
  applyLocked s cmd = Ok (s', r) ->
  (res_Status r <> STATUS_OK /\ s' = s) \/
  (exists rec', data s' = <[cmd_Key cmd := rec']> (data s) /\ r = mkResult STATUS_OK (version rec') /\
     version rec' = u64 (version (default record0 (data s !! cmd_Key cmd)) + 1) /\
     (deleted rec' = true -> value rec' = []) /\
     (cmd_HasExpectedVersion cmd = true -> cmd_ExpectedVersion cmd = visible (data s !! cmd_Key cmd))).
Proof.
  unfold applyLocked. intros H.
  destruct (cmd_HasExpectedVersion cmd) eqn:Hh; cbn [andb] in H;
    [destruct (N.eqb_spec (cmd_ExpectedVersion cmd) (visible (data s !! cmd_Key cmd))) as [Hv|]; cbn [negb] in H|];
    repeat case_match; inv_ok; simplify_eq/=;
    first [by left; split | right; eexists; split_and!; [reflexivity|done|done|done|done]].
Qed.

(** The version of a key as the state machine counts it, 0 before the first write. *)
Definition keyVersion (s : Store) (k : string) : N := version (default record0 (data s !! k)).

Lemma applyLocked_version s cmd s' r k :
  applyLocked s cmd = Ok (s', r) -> keyVersion s k + 1 < u64_modulus ->
  keyVersion s' k = keyVersion s k \/ (k = cmd_Key cmd /\ keyVersion s' k = keyVersion s k + 1).
Proof.
  intros Hap Hb. destruct (applyLocked_effect _ _ _ _ Hap) as [[_ ->]|(rec' & Hd & _ & Hv & _)]; [by left|].
  unfold keyVersion in *. rewrite Hd, lookup_insert. case_decide as Hk; [|by left].
  subst k. right. simpl. rewrite Hv, u64_small; done.
Qed.

(** A command keeps the records within the invariant. *)
Lemma applyLocked_ok s last index cmd s' r :
  store_ok s last -> last < index < u64_modulus ->
  applyLocked s cmd = Ok (s', r) -> store_ok s' index.
Proof.
  intros Hok Hidx Hap. destruct (applyLocked_frame _ _ _ _ Hap) as (Hd & Ho & _).
  assert (Hver : forall k rec, data s' !! k = Some rec ->
            1 <= version rec <= index /\ (deleted rec = true -> value rec = [])).
  { intros k rec Hr.
    destruct (applyLocked_effect _ _ _ _ Hap) as [[_ ->]|(rec' & Hdat & _ & Hv & Htomb & _)].
    - pose proof (ok_version _ _ Hok k rec Hr). pose proof (ok_tombstone _ _ Hok k rec Hr). split; [lia|done].
    - rewrite Hdat, lookup_insert in Hr. case_decide; simplify_eq.
      + split; [|done]. rewrite Hv.
        destruct (data s !! cmd_Key cmd) as [old|] eqn:Hold; simpl.
        * pose proof (ok_version _ _ Hok _ _ Hold). rewrite u64_small; lia.
        * rewrite u64_small; lia.
      + pose proof (ok_version _ _ Hok k rec Hr). pose proof (ok_tombstone _ _ Hok k rec Hr). split; [lia|done]. }
  assert (Hok' : store_ok s index) by (eapply store_ok_mono; [|exact Hok]; lia).
  destruct Hok' as [Hs Hb Ht _ _]. split; rewrite ?Hd, ?Ho; try done; [by eapply table_ok_ext|intros; by eapply Hver..].
Qed.

(** Remembering a new request ID keeps the queue and the table in step. *)
Lemma remember_table s index id r :
  table_ok s -> dedup s !! id = None ->
  table_ok (s <| dedup := <[id := mkDedupEntry index r]> (dedup s) |>
              <| dedupOrder := dedupOrder s ++ [mkDedupKey index id] |>).
Proof.
  intros [Hn Hy] Hnone.
  assert (Hfresh : forall i, mkDedupKey i id ∉ dedupOrder s).
  { intros i Hin. apply Hy in Hin as [x Hx]. congruence. }
  split; cbn.
  - rewrite fmap_app. apply NoDup_app. split_and!; [done| |apply NoDup_singleton].
    intros id' Hi1 Hi2. apply list_elem_of_fmap in Hi1 as ([i id''] & -> & Hi).
    simpl in Hi2. apply list_elem_of_singleton in Hi2 as ->. by apply (Hfresh i).
  - intros id' i. rewrite elem_of_app, list_elem_of_singleton, <- Hy, lookup_insert.
    case_decide as Hc; [subst id'|].
    + split; [intros [x [= <- <-]]; by right|].
      intros [Hin|[= ->]]; [|by eexists]. apply Hy in Hin. by apply Hfresh in Hin.
    + split; [by left|]. intros [?|[= -> ->]]; done.
Qed.

Lemma remember_ok s index id r :
  store_ok s index -> dedup s !! id = None -> Forall (fun k => dk_index k < index) (dedupOrder s) ->
  store_ok (s <| dedup := <[id := mkDedupEntry index r]> (dedup s) |>
              <| dedupOrder := dedupOrder s ++ [mkDedupKey index id] |>) index.
Proof.
  intros Hok Hnone Hlt. rewrite Forall_forall in Hlt. pose proof (remember_table s index id r (ok_table _ _ Hok) Hnone) as Htab.
  destruct Hok as [Hs Hb _ Hv Ht]. split; [| |exact Htab|done|done]; cbn.
  - apply StronglySorted_app_2; [|done|by repeat constructor].
    intros x1 x2 Hx1 ->%list_elem_of_singleton. by apply Hlt.
  - apply Forall_app. split; [done|]. repeat constructor. simpl. lia.
Qed.

Section Properties.
Context `{Codec Command} `{Codec Result} `{Codec StoreSnapshot}.

Lemma applyDeduped_ok s last index cmd s' out :
  store_ok s last -> last < index < u64_modulus ->
  applyDeduped s index cmd = Ok (s', out) -> store_ok s' index.
Proof.
  intros Hok Hidx. unfold applyDeduped.
  destruct (if bool_decide _ then _ else _) as [prev|] eqn:Hprev; intros Hap.
  { inv_ok. eapply store_ok_mono; [|done]. lia. }
  apply bind_Ok in Hap as ([s1 r] & Hap & Hrest). inv_ok.
  destruct (applyLocked_frame _ _ _ _ Hap) as (Hd & Ho & _).
  pose proof (applyLocked_ok _ _ _ _ _ _ Hok Hidx Hap) as Hok1.
  case_bool_decide as Hid; [done|]. cbn in Hprev. apply remember_ok; [done|congruence|].
  rewrite Ho. eapply Forall_impl; [exact (ok_bound _ _ Hok)|]. simpl. lia.
Qed.

Lemma Apply_ok s last index d s' out :
  store_ok s last -> last < index < u64_modulus ->
  Apply s index d = Ok (s', out) -> store_ok s' index.
Proof.
  unfold Apply. intros Hok Hidx Hap. case_match; [|done].
  eapply applyDeduped_ok; [by apply evictDedupLocked_ok|done|done].
Qed.

Lemma Apply_table s index d s' out : table_ok s -> Apply s index d = Ok (s', out) -> table_ok s'.
Proof.
  unfold Apply, applyDeduped. intros Hok Hap. case_match; [|done]. apply (evictDedupLocked_table _ index) in Hok.
  destruct (if bool_decide _ then _ else _) as [prev|] eqn:Hprev; [by inv_ok|].
  apply bind_Ok in Hap as ([s1 r] & Hap & Hrest). inv_ok. destruct (applyLocked_frame _ _ _ _ Hap) as (Hd & Ho & _).
  assert (Hok1 : table_ok s1) by by eapply table_ok_ext.
  case_bool_decide as Hid; [done|]. cbn in Hprev. apply remember_table; [done|congruence].
Qed.

Lemma Apply_window s index d s' out :
  Apply s index d = Ok (s', out) -> dedupWindow s' = dedupWindow s.
Proof.
  unfold Apply, applyDeduped. intros Hap. case_match; [|done].
  assert (Hw : dedupWindow (evictDedupLocked s index) = dedupWindow s).
  { unfold evictDedupLocked. by destruct (evict_loop _ _ _ _). }
  destruct (if bool_decide _ then _ else _); [by inv_ok|].
  apply bind_Ok in Hap as ([s1 r] & Hap & Hrest). inv_ok.
  destruct (applyLocked_frame _ _ _ _ Hap) as (_ & _ & Hw1). case_bool_decide; cbn; congruence.
Qed.

(** A remembered result survives every entry inside the window. *)
Lemma Apply_keeps s last index d s' out id e :
  store_ok s last -> last < index < u64_modulus ->
  dedup s !! id = Some e -> index - de_index e <= dedupWindow s ->
  Apply s index d = Ok (s', out) -> dedup s' !! id = Some e.
Proof.
  intros Hok Hidx Hid Hwin. unfold Apply, applyDeduped. intros Hap. case_match; [|done].
  assert (Hev : dedup (evictDedupLocked s index) !! id = Some e).
  { rewrite (evictDedupLocked_lookup s last) by (done || lia). rewrite Hid.
    by destruct (N.leb_spec (index - de_index e) (dedupWindow s)); [|lia]. }
  destruct (if bool_decide _ then _ else _) eqn:Hprev; [by inv_ok|].
  apply bind_Ok in Hap as ([s1 r] & Hap & Hrest). inv_ok.
  destruct (applyLocked_frame _ _ _ _ Hap) as (Hd & _ & _).
  case_bool_decide; cbn; rewrite ?lookup_insert_ne by congruence; congruence.
Qed.

(** A committed log: indexes strictly increase and fit a [uint64]. *)
Fixpoint indices_from (last : N) (log : list (N * bytes)) : Prop :=
  match log with
  | [] => True
  | (i, _) :: log => last < i /\ i < u64_modulus /\ indices_from i log
  end.

Lemma run_keeps log : forall s last s' outs id e,
  store_ok s last -> indices_from last log ->
  Forall (fun ent => ent.1 - de_index e <= dedupWindow s) log ->
  dedup s !! id = Some e -> run s log = Ok (s', outs) ->
  dedup s' !! id = Some e /\ dedupWindow s' = dedupWindow s.
Proof.
  induction log as [|[i d] log IH]; intros s last s' outs id e Hok Hidx Hwin Hid Hrun; simpl in *.
  { by inv_ok. }
  destruct Hidx as (Hlt & Hb & Hidx). apply Forall_cons in Hwin as [Hw Hwin]. simpl in Hw.
  apply bind_Ok in Hrun as ([s1 o1] & Hap & Hrest). apply bind_Ok in Hrest as ([s2 o2] & Hrun & Hrest).
  inv_ok. pose proof (Apply_window _ _ _ _ _ Hap) as Hw1. rewrite <- Hw1 in Hwin.
  destruct (IH s1 i s' o2 id e) as [? ?]; try done; [by eapply Apply_ok|by eapply Apply_keeps|split; congruence].
Qed.

(** The index of the last entry of a log that continues after [last]. *)
Definition last_index (last : N) (log : list (N * bytes)) : N := foldl (fun _ ent => ent.1) last log.

Lemma run_ok log : forall s last s' outs,
  store_ok s last -> indices_from last log -> run s log = Ok (s', outs) ->
  store_ok s' (last_index last log).
Proof.
  induction log as [|[i d] log IH]; intros s last s' outs Hok Hidx Hrun; simpl in *.
  { by inv_ok. }
  destruct Hidx as (Hlt & Hb & Hidx).
  apply bind_Ok in Hrun as ([s1 o1] & Hap & Hrest). apply bind_Ok in Hrest as ([s2 o2] & Hrun & Hrest). inv_ok.
  eapply IH; [by eapply Apply_ok|done|done].
Qed.

(** The first execution under a request ID records its result. *)
Lemma Apply_first s i d cmd s' out :
  unmarshal d = Some cmd -> cmd_RequestId cmd <> "" ->
  dedup (evictDedupLocked s i) !! cmd_RequestId cmd = None ->
  Apply s i d = Ok (s', out) ->
  exists r, dedup s' !! cmd_RequestId cmd = Some (mkDedupEntry i (Some r)) /\ marshal r = Some out.
Proof.
  intros Hd Hid Hfresh. unfold Apply, applyDeduped. rewrite Hd, bool_decide_false, Hfresh by done.
  intros Hap. apply bind_Ok in Hap as ([s1 r] & Hap & Hrest). unfold mustMarshal in *. inv_ok.
  exists r. split; [|done]. cbn. apply lookup_insert_eq.
Qed.

(** A remembered request ID inside the window is answered from the table. *)
Lemma Apply_duplicate s last j d cmd e out :
  store_ok s last -> last < j < u64_modulus -> unmarshal d = Some cmd -> cmd_RequestId cmd <> "" ->
  dedup s !! cmd_RequestId cmd = Some e -> j - de_index e <= dedupWindow s ->
  marshal (default Result0 (de_result e)) = Some out ->
  Apply s j d = Ok (evictDedupLocked s j, out).
Proof.
  intros Hok Hj Hd Hid He Hwin Hout. unfold Apply, applyDeduped.
  rewrite Hd, bool_decide_false, (evictDedupLocked_lookup s last), He by (done || lia).
  destruct (N.leb_spec (j - de_index e) (dedupWindow s)); [|lia].
  unfold mustMarshal. by rewrite Hout.
Qed.

Lemma indices_from_app last mid j d :
  indices_from last (mid ++ [(j, d)]) ->
  indices_from last mid /\ last_index last mid < j /\ last < j < u64_modulus /\
  Forall (fun ent => ent.1 < j) mid.
Proof.
  revert last. induction mid as [|[i x] mid IH]; intros last; simpl.
  - intros (? & ? & _). by split_and!.
  - intros (? & ? & Hrest). destruct (IH _ Hrest) as (? & ? & ? & ?). split_and!; try (done || lia).
    constructor; [simpl; lia|done].
Qed.

(** C22: every log of decodable commands with increasing indexes leaves the
    state machine well formed: the eviction queue is sorted and names each
    remembered request ID exactly once, the table agrees with it, a tombstone
    holds no value, and every version is positive and at most the index of
    the last entry, so it never wraps around. *)
Theorem run_preserves_invariant log s' outs :
  indices_from 0 log -> run New log = Ok (s', outs) ->
  store_ok s' (last_index 0 log).
Proof. apply run_ok, store_ok_New. Qed.

Lemma retry_is_noop s0 last i d cmd s1 out mid s2 outs j d' cmd' :
  store_ok s0 last -> unmarshal d = Some cmd -> cmd_RequestId cmd <> "" ->
  dedup (evictDedupLocked s0 i) !! cmd_RequestId cmd = None ->
  indices_from last ((i, d) :: mid ++ [(j, d')]) ->
  Apply s0 i d = Ok (s1, out) -> run s1 mid = Ok (s2, outs) ->
  unmarshal d' = Some cmd' -> cmd_RequestId cmd' = cmd_RequestId cmd ->
  j - i <= dedupWindow s0 ->
  exists s3, Apply s2 j d' = Ok (s3, out) /\ data s3 = data s2.
Proof.
  intros Hok Hd Hid Hfresh (Hlt & Hb & Hidx) Hap Hrun Hd' Hid' Hwin.
  pose proof (Apply_ok _ _ _ _ _ _ Hok (conj Hlt Hb) Hap) as Hok1.
  pose proof (Apply_window _ _ _ _ _ Hap) as Hw1.
  destruct (Apply_first _ _ _ _ _ _ Hd Hid Hfresh Hap) as (r & Hde & Hout).
  destruct (indices_from_app _ _ _ _ Hidx) as (Hmid & Hlast & Hjb & Hmidj).
  pose proof (run_ok _ _ _ _ _ Hok1 Hmid Hrun) as Hok2.
  assert (Hwmid : Forall (fun ent => ent.1 - i <= dedupWindow s1) mid).
  { eapply Forall_impl; [exact Hmidj|]. simpl. lia. }
  destruct (run_keeps _ _ _ _ _ _ (mkDedupEntry i (Some r)) Hok1 Hmid Hwmid Hde Hrun)
    as [Hde2 Hw2].
  eexists. split.
  - eapply Apply_duplicate; [exact Hok2|lia|exact Hd'|congruence|rewrite Hid'; exact Hde2| |exact Hout].
    simpl. lia.
  - unfold evictDedupLocked. by destruct (evict_loop _ _ _ _).
Qed.

(** C13: exactly-once execution. A command with a request ID that was executed
    at index [i] and is retried at index [j] within the window returns the
    bytes of the first execution and changes no key, whatever was applied in
    between, and even if the retry carries a different command. *)
Theorem retry_returns_first_result s0 last i d cmd s1 out mid s2 outs j d' cmd' :
  store_ok s0 last -> unmarshal d = Some cmd -> cmd_RequestId cmd <> "" ->
  dedup (evictDedupLocked s0 i) !! cmd_RequestId cmd = None ->
  indices_from last ((i, d) :: mid ++ [(j, d')]) ->
  Apply s0 i d = Ok (s1, out) -> run s1 mid = Ok (s2, outs) ->
  unmarshal d' = Some cmd' -> cmd_RequestId cmd' = cmd_RequestId cmd ->
  j - i <= dedupWindow s0 ->
  exists s3, Apply s2 j d' = Ok (s3, out) /\ data s3 = data s2.
Proof. apply retry_is_noop. Qed.

(** *** Versions never go back *)
Lemma Apply_effect s last index d s' out k :
  store_ok s last -> last < index < u64_modulus -> Apply s index d = Ok (s', out) ->
  data s' !! k = data s !! k \/ keyVersion s' k = keyVersion s k + 1.
Proof.
  intros Hok Hidx. unfold Apply, applyDeduped. intros Hap. case_match; [|done].
  assert (Hd : data (evictDedupLocked s index) = data s).
  { unfold evictDedupLocked. by destruct (evict_loop _ _ _ _). }
  destruct (if bool_decide _ then _ else _) eqn:Hprev; [inv_ok; left; by rewrite Hd|].
  apply bind_Ok in Hap as ([s1 r] & Hap & Hrest). inv_ok.
  assert (Hs1 : data s1 !! k = data s !! k \/ keyVersion s1 k = keyVersion s k + 1).
  { destruct (applyLocked_effect _ _ _ _ Hap) as [[_ ->]|(rec' & Hdat & _ & Hv & _)]; [left; by rewrite Hd|].
    unfold keyVersion. rewrite Hd in Hdat, Hv. rewrite Hdat, lookup_insert. destruct (decide (cmd_Key c = k)) as [Hk|Hk]; [|by left].
    subst k. right. simpl. rewrite Hv. apply u64_small. destruct (data s !! cmd_Key c) as [old|] eqn:Hold; simpl; [|lia].
    pose proof (ok_version _ _ Hok _ _ Hold). lia. }
  by case_bool_decide.
Qed.

Lemma run_effect log : forall s last s' outs k,
  store_ok s last -> indices_from last log -> run s log = Ok (s', outs) ->
  data s' !! k = data s !! k \/ keyVersion s k < keyVersion s' k.
Proof.
  induction log as [|[i d] log IH]; intros s last s' outs k Hok Hidx Hrun; simpl in *.
  { inv_ok. by left. }
  destruct Hidx as (Hlt & Hb & Hidx).
  apply bind_Ok in Hrun as ([s1 o1] & Hap & Hrest). apply bind_Ok in Hrest as ([s2 o2] & Hrun & Hrest). inv_ok.
  pose proof (Apply_ok _ _ _ _ _ _ Hok (conj Hlt Hb) Hap) as Hok1.
  destruct (IH _ _ _ _ k Hok1 Hidx Hrun) as [He|He];
    destruct (Apply_effect _ _ _ _ _ _ k Hok (conj Hlt Hb) Hap) as [He1|He1].
  - left. congruence.
  - right. unfold keyVersion in *. rewrite He. lia.
  - right. unfold keyVersion in *. by rewrite He1 in He.
  - right. lia.
Qed.

(** C12: no ABA. A conditional command that names a version read earlier is
    executed only if the key's record is still exactly the one that was read,
    whatever was applied between the read and the command, deletions and
    re-creations of the key included. *)
Theorem conditional_write_no_aba s last log s' outs key rec cmd s'' r :
  store_ok s last -> indices_from last log -> run s log = Ok (s', outs) ->
  data s !! key = Some rec -> deleted rec = false ->
  cmd_Key cmd = key -> cmd_HasExpectedVersion cmd = true -> cmd_ExpectedVersion cmd = version rec ->
  applyLocked s' cmd = Ok (s'', r) -> res_Status r = STATUS_OK ->
  data s' !! key = Some rec.
Proof.
  intros Hok Hidx Hrun Hrec Hlive <- Hhas Hexp Hap Hst.
  destruct (run_effect _ _ _ _ _ (cmd_Key cmd) Hok Hidx Hrun) as [He|He]; [congruence|]. exfalso.
  destruct (applyLocked_effect _ _ _ _ Hap) as [[Hne _]|(_ & _ & _ & _ & _ & Hvis)]; [done|].
  pose proof (ok_version _ _ Hok _ _ Hrec) as Hv. specialize (Hvis Hhas).
  unfold keyVersion in He. rewrite Hrec in He. simpl in He.
  destruct (data s' !! cmd_Key cmd) as [rec'|]; simpl in *; [|lia]. destruct (deleted rec'); lia.
Qed.

(** *** Snapshots *)
Definition restored (x : string * record) : record :=
  mkRecord (value x.2) (version x.2) (deleted x.2) (cacheable x.2) (ttlSeconds x.2) (updatedMs x.2).

Lemma restore_data s iter :
  iter ≡ₚ map_to_list (data s) -> foldl restoreRecord ∅ (snapshotRecord <$> iter) = data s.
Proof.
  intros Hperm. rewrite foldl_fmap. apply map_eq. intros k.
  assert (Hnd : NoDup (iter.*1)) by (rewrite Hperm; apply NoDup_fst_map_to_list).
  assert (Hin : forall r, (k, r) ∈ iter <-> data s !! k = Some r).
  { intros r. rewrite Hperm. apply elem_of_map_to_list. }
  change (foldl _ ∅ iter) with
    (foldl (fun (m : gmap string record) x => <[x.1 := restored x]> m) ∅ iter).
  destruct (data s !! k) as [r|] eqn:Hk.
  - rewrite (foldl_insert_elem fst restored iter ∅ (k, r)); [by destruct r|done|by apply Hin].
  - rewrite foldl_insert_lookup; [apply lookup_empty|].
    intros Hf. apply list_elem_of_fmap in Hf as ([k' r] & -> & Hr). apply Hin in Hr. by simplify_eq.
Qed.

Lemma restore_dedup s :
  table_ok s -> foldl restoreDedup ∅ (snapshotDedup s <$> dedupOrder s) = dedup s.
Proof.
  intros Hok. rewrite foldl_fmap. apply map_eq. intros id.
  change (foldl _ ∅ (dedupOrder s)) with
    (foldl (fun (m : gmap string dedupEntry) k =>
       <[dk_id k := mkDedupEntry (dk_index k) (dedup s !! dk_id k ≫= de_result)]> m)
       ∅ (dedupOrder s)).
  destruct (dedup s !! id) as [[i r]|] eqn:Hid.
  - assert (Hin : mkDedupKey i id ∈ dedupOrder s) by (apply (tb_sync _ Hok); eauto).
    rewrite (foldl_insert_elem dk_id _ _ ∅ (mkDedupKey i id)); [|apply (tb_nodup _ Hok)|done].
    simpl. by rewrite Hid.
  - rewrite foldl_insert_lookup; [apply lookup_empty|].
    intros Hf. apply list_elem_of_fmap in Hf as ([i id'] & -> & Hr).
    apply (tb_sync _ Hok) in Hr as [r Hr]. simpl in Hid. congruence.
Qed.

Lemma restore_snapshot `{!CodecLaws StoreSnapshot} s iter b s0 :
  table_ok s -> iter ≡ₚ map_to_list (data s) -> Snapshot iter s = Some b ->
  Restore s0 b = inl (s <| dedupWindow := dedupWindow s0 |>).
Proof.
  intros Hok Hperm Hsnap. unfold Restore. rewrite (unmarshal_marshal _ _ Hsnap). simpl.
  rewrite (restore_data _ _ Hperm), (restore_dedup _ Hok), <- list_fmap_compose.
  assert (Hid : forall l : list dedupKey, (fun d => mkDedupKey (sd_Index d) (sd_RequestId d)) ∘ snapshotDedup s <$> l = l).
  { induction l as [|[i id] l IH]; [done|]. rewrite fmap_cons. by f_equal. }
  by rewrite Hid.
Qed.

Lemma run_app l1 l2 s :
  run s (l1 ++ l2) = ('(s1, o1) ← run s l1; '(s2, o2) ← run s1 l2; Ok (s2, o1 ++ o2)).
Proof.
  revert s. induction l1 as [|[i d] l1 IH]; intros s; simpl.
  { by destruct (run s l2) as [[? ?]|]. }
  destruct (Apply s i d) as [[s1 o1]|]; simpl; [|done]. rewrite IH.
  destruct (run s1 l1) as [[s2 o2]|]; simpl; [|done]. by destruct (run s2 l2) as [[? ?]|].
Qed.

Lemma run_window l : forall s s' outs, run s l = Ok (s', outs) -> dedupWindow s' = dedupWindow s.
Proof.
  induction l as [|[i d] l IH]; intros s s' outs Hrun; simpl in Hrun; [by inv_ok|].
  apply bind_Ok in Hrun as ([s1 o1] & Hap & Hrest). apply bind_Ok in Hrest as ([s2 o2] & Hrun & Hrest). inv_ok.
  rewrite (IH _ _ _ Hrun). by eapply Apply_window.
Qed.

(** C21: a replica that restores a snapshot taken after a prefix of the log and
    replays the rest reaches the same state and gives the same answers as the
    replica that applied the whole log, whichever order the snapshot listed
    the keys in. *)
Theorem restore_then_replay `{!CodecLaws StoreSnapshot} l1 l2 s1 o1 iter b s outs :
  indices_from 0 l1 -> run New l1 = Ok (s1, o1) ->
  iter ≡ₚ map_to_list (data s1) -> Snapshot iter s1 = Some b ->
  run New (l1 ++ l2) = Ok (s, outs) ->
  exists s1' o2, Restore New b = inl s1' /\ run s1' l2 = Ok (s, o2) /\ outs = o1 ++ o2.
Proof.
  intros Hidx Hrun Hperm Hsnap Hall.
  pose proof (run_ok _ _ _ _ _ store_ok_New Hidx Hrun) as Hok.
  exists s1. rewrite run_app, Hrun in Hall. simpl in Hall.
  destruct (run s1 l2) as [[s2 o2]|] eqn:Hrun2; simplify_eq/=. exists o2. split_and!; try done.
  rewrite (restore_snapshot _ _ _ _ (ok_table _ _ Hok) Hperm Hsnap). f_equal.
  destruct s1 as [dt dd od w]. unfold set_field. simpl. f_equal. symmetry. by apply (run_window _ _ _ _ Hrun).
Qed.
End Properties.

(** ** Abstract specification

    What the state machine promises: each key has a version that counts its
    writes without bound, and possibly a live value. A conditional command
    compares against the version of a live value, 0 if there is none. *)
Definition abs (s : Store) (k : string) : N * option ReadEntry :=
  (keyVersion s k, match Get s k with inl e => Some e | inr _ => None end).

Definition spec_apply (f : string -> N * option ReadEntry) (cmd : Command) :
    option ((string -> N * option ReadEntry) * Result) :=
  let '(v, live) := f (cmd_Key cmd) in
  let observed := match live with Some _ => v | None => 0 end in
  let write c := Some (fun k => if decide (k = cmd_Key cmd) then (v + 1, c) else f k,
                       mkResult STATUS_OK (v + 1)) in
  if cmd_HasExpectedVersion cmd && negb (cmd_ExpectedVersion cmd =? observed) then
    Some (f, mkResult STATUS_VERSION_MISMATCH observed)
  else
    match cmd_Op cmd, live with
    | OP_PUT, _ => write (Some (mkReadEntry (cmd_Value cmd) (v + 1) (cmd_Cacheable cmd)
                                 (cmd_TtlSeconds cmd) (cmd_TimestampUnixMs cmd)))
    | OP_DELETE, Some _ => write None
    | OP_DELETE, None => Some (f, mkResult STATUS_NOT_FOUND 0)
    | OP_OTHER _, _ => None
    end.

(** The abstract view after one record has been replaced. *)
Lemma abs_insert s key rec k :
  abs (s <| data := <[key := rec]> (data s) |>) k =
  if decide (k = key)
  then (version rec, if deleted rec then None
                     else Some (mkReadEntry (value rec) (version rec) (cacheable rec) (ttlSeconds rec) (updatedMs rec)))
  else abs s k.
Proof.
  unfold abs, keyVersion, Get. cbn. rewrite lookup_insert.
  destruct (decide (key = k)) as [->|Hne]; [rewrite decide_True by done|rewrite decide_False by done; done].
  simpl. by destruct (deleted rec).
Qed.


Section Total.
Context `{Codec Command} `{Codec Result} `{!CodecTotal Result}.

(** Applying an entry never panics on a decodable put or delete: the
    tombstone logic never dereferences a missing record, and the answer can
    always be encoded. *)
Theorem Apply_total s index d cmd :
  unmarshal d = Some cmd -> cmd_Op cmd = OP_PUT \/ cmd_Op cmd = OP_DELETE ->
  is_ok (Apply s index d) = true.
Proof.
  intros Hd Hop. unfold Apply, applyDeduped, mustMarshal. rewrite Hd.
  set (s1 := evictDedupLocked s index).
  destruct (if bool_decide _ then _ else _) as [prev|].
  { by destruct (marshal_total (default Result0 (de_result prev))) as [b ->]. }
  assert (Hap : exists s' r, applyLocked s1 cmd = Ok (s', r)).
  { unfold applyLocked. destruct (_ && _); [eauto|]. destruct Hop as [-> | ->]; [eauto|].
    destruct (N.eqb_spec (visible (data s1 !! cmd_Key cmd)) 0) as [|Hv]; [eauto|].
    destruct (data s1 !! cmd_Key cmd); [eauto|done]. }
  destruct Hap as (s' & r & ->). simpl. by destruct (marshal_total r) as [b ->].
Qed.
End Total.

(** ** Concrete runs *)
Section Witnesses.
#[local] Existing Instance countable_codec.
#[local] Existing Instance countable_codec_laws.
#[local] Existing Instance countable_codec_total.

Definition demo_cmd (op : Op) (v : bytes) (expect : option N) (id : string) : Command :=
  mkCommand op "k" v (bool_decide (is_Some expect)) (default 0 expect) id false 0 7.
Definition demo_entry (i : N) (c : Command) : N * bytes := (i, default [] (marshal c)).
Definition demo_put := demo_cmd OP_PUT [Byte.x61] None "r1".
Definition demo_log : list (N * bytes) :=
  [demo_entry 1 demo_put; demo_entry 2 (demo_cmd OP_DELETE [] None "r2");
   demo_entry 4 (demo_cmd OP_PUT [Byte.x62] None "")].
Definition demo_state (l : list (N * bytes)) : Store :=
  match run New l with Ok (s, _) => s | Panic _ => New end.
Definition demo_outs (l : list (N * bytes)) : list bytes :=
  match run New l with Ok (_, o) => o | Panic _ => [] end.

Lemma demo_run : run New demo_log = Ok (demo_state demo_log, demo_outs demo_log).
Proof. vm_compute. reflexivity. Qed.

Lemma demo_ok : store_ok (demo_state demo_log) 4.
Proof. apply (run_ok demo_log New 0 _ (demo_outs demo_log)); [exact store_ok_New|done|exact demo_run]. Qed.

Lemma run_preserves_invariant_witness : store_ok (demo_state demo_log) 4.
Proof. apply (run_preserves_invariant demo_log _ (demo_outs demo_log)); [by vm_compute|exact demo_run]. Defined.

Lemma retry_returns_first_result_witness :
  exists s3, Apply (demo_state demo_log) 9 (demo_entry 9 demo_put).2 =
    Ok (s3, default [] (head (demo_outs demo_log))) /\ data s3 = data (demo_state demo_log).
Proof.
  apply (retry_returns_first_result New 0 1 (demo_entry 1 demo_put).2 demo_put
    (demo_state [demo_entry 1 demo_put]) _ (tail demo_log) _ (tail (demo_outs demo_log)) 9 _ demo_put);
    [exact store_ok_New|by vm_compute..].
Defined.

Lemma conditional_write_no_aba_witness :
  data (demo_state demo_log) !! "k" = Some (mkRecord [Byte.x62] 3 false false 0 7).
Proof.
  apply (conditional_write_no_aba (demo_state demo_log) 4 [] _ [] "k" _
    (demo_cmd OP_PUT [Byte.x63] (Some 3) "")
    (demo_state (demo_log ++ [demo_entry 5 (demo_cmd OP_PUT [Byte.x63] (Some 3) "")]))
    (mkResult STATUS_OK 4)); [exact demo_ok|by vm_compute..].
Defined.

Lemma restore_then_replay_witness :
  exists s1' o2,
    Restore New (default [] (Snapshot (map_to_list (data (demo_state (take 2 demo_log)))) (demo_state (take 2 demo_log))))
      = inl s1' /\
    run s1' (drop 2 demo_log) = Ok (demo_state demo_log, o2) /\
    demo_outs demo_log = demo_outs (take 2 demo_log) ++ o2.
Proof.
  apply (restore_then_replay (take 2 demo_log) (drop 2 demo_log) (demo_state (take 2 demo_log)) _
    (map_to_list (data (demo_state (take 2 demo_log))))); [by vm_compute|by vm_compute|reflexivity|by vm_compute|exact demo_run].
Defined.


Lemma Apply_total_witness : is_ok (Apply (demo_state demo_log) 9 (demo_entry 9 demo_put).2) = true.
Proof. apply (Apply_total (demo_state demo_log) 9 _ demo_put); [by vm_compute|by left]. Defined.
End Witnesses.
