(* ===== verification/RaftLog.v ===== *)
(** * The in-memory Raft log (internal/raft/log.go)

    Entries up to and including [snapIndex] live in a snapshot; [entries !! i]
    is log index [snapIndex + 1 + i]. The methods that panic in Go return a
    [res]. Log indexes and terms are unbounded [N]: each increment costs a
    durable write, so 2^64 of them are out of reach, and every subtraction of
    the source is guarded by a comparison that makes it exact. *)

From S2P Require Import Prelude Types.

Record raftLog := mkLog {
  snapIndex : N;
  snapTerm : N;
  entries : list Entry;
}.

#[global] Instance eta_raftLog : Eta raftLog := fun l => mkLog (snapIndex l) (snapTerm l) (entries l).
#[global] Instance raftLog_eq_dec : EqDecision raftLog.
Proof. solve_decision. Defined.

(** ** Operations *)
Definition emptyLog : raftLog := mkLog 0 0 [].

Definition lastIndex (l : raftLog) : N := snapIndex l + lenN (entries l).

Definition lastTerm (l : raftLog) : N :=
  match last (entries l) with
  | None => snapTerm l
  | Some e => ent_Term e
  end.

(** [term, ok := l.term(index)]: [None] is [(0, false)]. *)
Definition term (l : raftLog) (index : N) : option N :=
  if index =? snapIndex l then Some (snapTerm l)
  else if (index <? snapIndex l) || (lastIndex l <? index) then None
  else ent_Term <$> entries l !! N.to_nat (index - snapIndex l - 1).

(** [t, _ := l.term(index)]. *)
Definition term0 (l : raftLog) (index : N) : N := default 0 (term l index).

Definition slice (l : raftLog) (lo hi : N) : res (list Entry) :=
  if (lo <=? snapIndex l) || (lastIndex l <? hi) || (hi <? lo) then
    if hi <? lo then Ok [] else Panic "raft: slice out of range"
  else
    Ok (take (N.to_nat (hi - lo + 1)) (drop (N.to_nat (lo - snapIndex l - 1)) (entries l))).

Fixpoint append (l : raftLog) (es : list Entry) : res raftLog :=
  match es with
  | [] => Ok l
  | e :: es =>
      if ent_Index e =? lastIndex l + 1
      then append (l <| entries := entries l ++ [e] |>) es
      else Panic "raft: appending index out of order"
  end.

Definition truncateFrom (l : raftLog) (index : N) : res raftLog :=
  if index <=? snapIndex l then Panic "raft: truncating inside snapshot"
  else if lastIndex l <? index then Ok l
  else Ok (l <| entries := take (N.to_nat (index - snapIndex l - 1)) (entries l) |>).

(** The loop of [firstIndexOfTerm]; [fuel] bounds the distance to the snapshot. *)
Fixpoint firstIndexOfTerm_loop (fuel : nat) (l : raftLog) (t index : N) : N :=
  match fuel with
  | O => index
  | S fuel =>
      if snapIndex l + 1 <? index then
        if term0 l (index - 1) =? t then firstIndexOfTerm_loop fuel l t (index - 1) else index
      else index
  end.

Definition firstIndexOfTerm (l : raftLog) (t from : N) : N :=
  firstIndexOfTerm_loop (N.to_nat from) l t from.

(** The loop of [lastIndexOfTerm], on the entries from the last to the first. *)
Fixpoint lastIndexOfTerm_loop (t : N) (rev_entries : list Entry) : N :=
  match rev_entries with
  | [] => 0
  | e :: es =>
      if ent_Term e =? t then ent_Index e
      else if ent_Term e <? t then 0
      else lastIndexOfTerm_loop t es
  end.

Definition lastIndexOfTerm (l : raftLog) (t : N) : N :=
  lastIndexOfTerm_loop t (reverse (entries l)).

Definition compactTo (l : raftLog) (index t : N) : raftLog :=
  if index <=? snapIndex l then l
  else
    mkLog index t
      (if lastIndex l <=? index then [] else drop (N.to_nat (index - snapIndex l)) (entries l)).

Definition reset (index t : N) : raftLog := mkLog index t [].

(** ** Well-formedness *)

(** The entries are numbered contiguously after the snapshot. *)
Definition contiguous (after : N) (es : list Entry) : Prop :=
  forall i e, es !! i = Some e -> ent_Index e = after + 1 + N.of_nat i.

Definition log_wf (l : raftLog) : Prop := contiguous (snapIndex l) (entries l).

(** Terms never decrease along the log. *)
Definition terms_monotone (l : raftLog) : Prop :=
  forall i j ti tj, i <= j -> term l i = Some ti -> term l j = Some tj -> ti <= tj.

Lemma contiguous_nil after : contiguous after [].
Proof. intros i e Hi. done. Qed.

Lemma contiguous_cons after e es :
  contiguous after (e :: es) <-> ent_Index e = after + 1 /\ contiguous (after + 1) es.
Proof.
  split.
  - intros Hc. split; [rewrite (Hc 0%nat e eq_refl); lia|].
    intros i x Hi. rewrite (Hc (S i) x Hi). lia.
  - intros [He Hc] [|i] x Hi; simpl in Hi; simplify_eq; [lia|]. rewrite (Hc i x Hi). lia.
Qed.

Lemma contiguous_app after es1 es2 :
  contiguous after (es1 ++ es2) <-> contiguous after es1 /\ contiguous (after + lenN es1) es2.
Proof.
  revert after. induction es1 as [|e es1 IH]; intros after; simpl.
  - rewrite lenN_nil, N.add_0_r. split; [split; [apply contiguous_nil|done]|tauto].
  - rewrite !contiguous_cons, IH, lenN_cons. replace (after + 1 + lenN es1) with (after + (1 + lenN es1)) by lia. tauto.
Qed.

Lemma contiguous_take after es n : contiguous after es -> contiguous after (take n es).
Proof. intros Hc i e Hi. apply lookup_take_Some in Hi as [Hi _]. by apply Hc. Qed.

Lemma contiguous_drop after es n : contiguous after es -> contiguous (after + N.of_nat n) (drop n es).
Proof. intros Hc i e Hi. rewrite lookup_drop in Hi. rewrite (Hc _ _ Hi). lia. Qed.

(** ** Behaviour of the operations *)
Lemma lastIndex_append l es : lastIndex (l <| entries := entries l ++ es |>) = lastIndex l + lenN es.
Proof. unfold lastIndex. cbn. rewrite lenN_app. lia. Qed.

(** Appending succeeds exactly on entries that continue the log. *)
Lemma append_contiguous l es :
  contiguous (lastIndex l) es -> append l es = Ok (l <| entries := entries l ++ es |>).
Proof.
  revert l. induction es as [|e es IH]; intros l Hc; simpl.
  - rewrite app_nil_r. by destruct l.
  - apply contiguous_cons in Hc as [He Hc]. rewrite He, N.eqb_refl, IH.
    + cbn. by rewrite <- (assoc_L (++)).
    + by rewrite lastIndex_append, lenN_cons, lenN_nil.
Qed.

Lemma append_Ok l es l' :
  append l es = Ok l' -> contiguous (lastIndex l) es /\ l' = l <| entries := entries l ++ es |>.
Proof.
  revert l. induction es as [|e es IH]; intros l; simpl.
  - intros [= <-]. split; [apply contiguous_nil|]. rewrite app_nil_r. by destruct l.
  - destruct (N.eqb_spec (ent_Index e) (lastIndex l + 1)) as [He|]; [|done]. intros Hap.
    destruct (IH _ Hap) as [Hc ->]. rewrite lastIndex_append, lenN_cons, lenN_nil in Hc. split.
    + apply contiguous_cons. by rewrite N.add_0_r in Hc.
    + cbn. by rewrite <- (assoc_L (++)).
Qed.

Lemma term_snap l : term l (snapIndex l) = Some (snapTerm l).
Proof. unfold term. by rewrite N.eqb_refl. Qed.

Lemma term_range l i : is_Some (term l i) <-> snapIndex l <= i <= lastIndex l.
Proof.
  unfold term, lastIndex, lenN. destruct (N.eqb_spec i (snapIndex l)) as [->|Hne].
  - split; [lia|eauto].
  - destruct (N.ltb_spec i (snapIndex l)); simpl; [split; [by intros []|lia]|].
    destruct (N.ltb_spec (snapIndex l + N.of_nat (length (entries l))) i); [split; [by intros []|lia]|].
    rewrite fmap_is_Some, lookup_lt_is_Some. lia.
Qed.

Lemma term_entry l i t :
  snapIndex l < i ->
  term l i = Some t <->
  exists e, entries l !! N.to_nat (i - snapIndex l - 1) = Some e /\ ent_Term e = t.
Proof.
  intros Hi. unfold term. destruct (N.eqb_spec i (snapIndex l)); [lia|].
  destruct (N.ltb_spec i (snapIndex l)); [lia|]. simpl.
  destruct (N.ltb_spec (lastIndex l) i) as [Hlt|].
  - split; [done|]. intros (e & He & _). apply lookup_lt_Some in He. unfold lastIndex, lenN in *. lia.
  - rewrite fmap_Some. naive_solver.
Qed.

Lemma lastTerm_term l : term l (lastIndex l) = Some (lastTerm l).
Proof.
  unfold lastTerm. destruct (last (entries l)) as [e|] eqn:Hl.
  - rewrite last_lookup in Hl. pose proof (lookup_lt_Some _ _ _ Hl).
    apply term_entry; unfold lastIndex, lenN; [lia|]. exists e. split; [|done].
    rewrite <- Hl. f_equal. lia.
  - apply last_None in Hl. unfold lastIndex. rewrite Hl, lenN_nil, N.add_0_r. apply term_snap.
Qed.

(** ** The log before compaction

    The abstract log is the list of every entry since index 1. A [raftLog]
    represents it when the prefix it dropped is remembered by the index and the
    term of its last entry. *)
Definition lterm (L : list Entry) (i : N) : N :=
  if i =? 0 then 0 else default 0 (ent_Term <$> L !! N.to_nat (i - 1)).

Record represents (l : raftLog) (L : list Entry) : Prop := {
  rep_len : snapIndex l <= lenN L;
  rep_entries : entries l = drop (N.to_nat (snapIndex l)) L;
  rep_snapTerm : snapTerm l = lterm L (snapIndex l);
}.

Lemma represents_empty : represents emptyLog [].
Proof. by split. Qed.

Lemma rep_lastIndex l L : represents l L -> lastIndex l = lenN L.
Proof. intros [Hlen He _]. unfold lastIndex. rewrite He, lenN_drop. lia. Qed.

Lemma rep_term l L i :
  represents l L ->
  term l i = if (snapIndex l <=? i) && (i <=? lenN L) then Some (lterm L i) else None.
Proof.
  intros Hrep. pose proof (rep_lastIndex _ _ Hrep) as Hlast. destruct Hrep as [Hlen He Hst].
  destruct (N.leb_spec (snapIndex l) i) as [Hi|Hi]; destruct (N.leb_spec i (lenN L)) as [Hi2|Hi2]; cbn [andb].
  2-4: destruct (term l i) eqn:Ht; [|done];
    assert (is_Some (term l i)) as [? ?]%term_range by eauto; lia.
  destruct (decide (i = snapIndex l)) as [->|Hne]; [by rewrite term_snap, Hst|].
  assert (Hlk : (N.to_nat (i - 1) < length L)%nat) by (unfold lenN in *; lia).
  apply lookup_lt_is_Some_2 in Hlk as [e Hlk].
  apply term_entry; [lia|]. exists e. rewrite He, lookup_drop. unfold lterm.
  destruct (N.eqb_spec i 0); [lia|]. rewrite Hlk. split; [|done]. rewrite <- Hlk. f_equal. lia.
Qed.

Lemma rep_term0 l L i : represents l L -> snapIndex l <= i <= lenN L -> term0 l i = lterm L i.
Proof.
  intros Hrep Hi. unfold term0. rewrite (rep_term _ _ _ Hrep).
  destruct (N.leb_spec (snapIndex l) i); [|lia]. destruct (N.leb_spec i (lenN L)); [done|lia].
Qed.

Lemma rep_lastTerm l L : represents l L -> lastTerm l = lterm L (lenN L).
Proof.
  intros Hrep. pose proof (lastTerm_term l) as Ht. rewrite (rep_lastIndex _ _ Hrep), (rep_term _ _ _ Hrep) in Ht.
  case_match; by simplify_eq.
Qed.

Lemma lterm_app_l L es i : i <= lenN L -> lterm (L ++ es) i = lterm L i.
Proof.
  intros Hi. unfold lterm, lenN in *. destruct (N.eqb_spec i 0); [done|]. rewrite lookup_app_l by lia. done.
Qed.

Lemma lterm_app_r L es i :
  lenN L < i -> lterm (L ++ es) i = lterm es (i - lenN L).
Proof.
  intros Hi. unfold lterm, lenN in *. destruct (N.eqb_spec i 0); [lia|].
  destruct (N.eqb_spec (i - N.of_nat (length L)) 0); [lia|]. rewrite lookup_app_r by lia. do 3 f_equal. lia.
Qed.

Lemma lterm_take L n i : i <= n -> lterm (take (N.to_nat n) L) i = lterm L i.
Proof.
  intros Hi. unfold lterm. destruct (N.eqb_spec i 0); [done|]. rewrite lookup_take_lt by lia. done.
Qed.

Lemma rep_append l L es :
  represents l L -> represents (l <| entries := entries l ++ es |>) (L ++ es).
Proof.
  intros [Hlen He Hst]. split; cbn.
  - rewrite lenN_app. lia.
  - rewrite He, drop_app_le by (unfold lenN in *; lia). done.
  - by rewrite lterm_app_l.
Qed.

Lemma rep_truncate l L i :
  represents l L -> snapIndex l < i ->
  truncateFrom l i = Ok (mkLog (snapIndex l) (snapTerm l) (drop (N.to_nat (snapIndex l)) (take (N.to_nat (i - 1)) L))) /\
  represents (mkLog (snapIndex l) (snapTerm l) (drop (N.to_nat (snapIndex l)) (take (N.to_nat (i - 1)) L)))
    (take (N.to_nat (i - 1)) L).
Proof.
  intros Hrep Hi. pose proof (rep_lastIndex _ _ Hrep) as Hlast. destruct Hrep as [Hlen He Hst]. split.
  - unfold truncateFrom. destruct (N.leb_spec i (snapIndex l)); [lia|].
    destruct (N.ltb_spec (lastIndex l) i).
    + rewrite take_ge by (unfold lenN in *; lia). rewrite <- He. by destruct l.
    + unfold set_field. do 2 f_equal. rewrite He, skipn_firstn_comm. f_equal. lia.
  - split; cbn; [rewrite lenN_take; lia|done|]. rewrite lterm_take by lia. done.
Qed.

Lemma rep_compact l L i :
  represents l L -> i <= lenN L -> represents (compactTo l i (lterm L i)) L.
Proof.
  intros Hrep Hi. pose proof (rep_lastIndex _ _ Hrep) as Hlast. unfold compactTo.
  destruct (N.leb_spec i (snapIndex l)); [done|]. destruct Hrep as [Hlen He Hst]. split; cbn; [done| |done].
  destruct (N.leb_spec (lastIndex l) i).
  - rewrite drop_ge by (unfold lenN in *; lia). done.
  - rewrite He, drop_drop. f_equal. lia.
Qed.

Lemma rep_reset L i : i <= lenN L -> represents (reset i (lterm L i)) (take (N.to_nat i) L).
Proof.
  intros Hi. split; cbn; [rewrite lenN_take; lia| |by rewrite lterm_take].
  rewrite drop_ge; [done|]. rewrite length_take. lia.
Qed.

Lemma rep_slice l L lo hi :
  represents l L -> snapIndex l < lo -> lo <= hi -> hi <= lenN L ->
  slice l lo hi = Ok (take (N.to_nat (hi - lo + 1)) (drop (N.to_nat (lo - 1)) L)).
Proof.
  intros Hrep Hlo Hle Hhi. pose proof (rep_lastIndex _ _ Hrep) as Hlast. unfold slice.
  destruct (N.leb_spec lo (snapIndex l)); [lia|]. destruct (N.ltb_spec (lastIndex l) hi); [lia|].
  destruct (N.ltb_spec hi lo); [lia|]. cbn. rewrite (rep_entries _ _ Hrep), drop_drop. do 3 f_equal. lia.
Qed.

(** C26: the compacted log implements the abstract log. Whatever prefix a
    snapshot has absorbed, term lookup and slicing agree with the full list
    wherever the log still answers, appending a contiguous batch and
    truncating act on the full list, and compacting at an index the log holds
    does not change the list it stands for. *)
Theorem raftLog_refines_full_log l L :
  represents l L ->
  lastIndex l = lenN L /\ lastTerm l = lterm L (lenN L) /\
  (forall i, term l i = if (snapIndex l <=? i) && (i <=? lenN L) then Some (lterm L i) else None) /\
  (forall lo hi, snapIndex l < lo -> lo <= hi -> hi <= lenN L ->
     slice l lo hi = Ok (take (N.to_nat (hi - lo + 1)) (drop (N.to_nat (lo - 1)) L))) /\
  (forall es, contiguous (lenN L) es -> exists l', append l es = Ok l' /\ represents l' (L ++ es)) /\
  (forall i, snapIndex l < i -> exists l', truncateFrom l i = Ok l' /\ represents l' (take (N.to_nat (i - 1)) L)) /\
  (forall i, i <= lenN L -> represents (compactTo l i (lterm L i)) L).
Proof.
  intros Hrep. split_and!.
  - by apply rep_lastIndex.
  - by apply rep_lastTerm.
  - intros i. by apply rep_term.
  - intros lo hi. by apply rep_slice.
  - intros es Hes. eexists. split; [apply append_contiguous; by rewrite (rep_lastIndex _ _ Hrep)|by apply rep_append].
  - intros i Hi. eexists. by apply rep_truncate.
  - intros i. by apply rep_compact.
Qed.

(** ** Searching for a term *)
Lemma firstIndexOfTerm_loop_spec fuel l t index r :
  firstIndexOfTerm_loop fuel l t index = r -> index <= N.of_nat fuel ->
  r <= index /\ (snapIndex l < index -> snapIndex l < r) /\
  (forall j, r <= j < index -> term0 l j = t) /\
  (snapIndex l + 1 < r -> term0 l (r - 1) <> t).
Proof.
  revert index. induction fuel as [|fuel IH]; intros index; simpl.
  - intros <- Hf. split_and!; lia.
  - destruct (N.ltb_spec (snapIndex l + 1) index); [|intros <- _; split_and!; lia].
    destruct (N.eqb_spec (term0 l (index - 1)) t) as [Ht|Ht]; [|intros <- _; split_and!; done || lia].
    intros Hr Hf. destruct (IH _ Hr) as (Hle & Hs & Hall & Hstop); [lia|].
    split_and!; [lia|lia| |done].
    intros j Hj. destruct (decide (j = index - 1)) as [->|]; [done|]. apply Hall. lia.
Qed.

(** On a log whose terms never decrease, the backward scan from an entry of
    term [t] stops at the first entry of that term, which is the conflict
    index a follower reports. *)
Theorem firstIndexOfTerm_least l t from :
  terms_monotone l -> snapIndex l < from -> term l from = Some t ->
  snapIndex l < firstIndexOfTerm l t from <= from /\
  term l (firstIndexOfTerm l t from) = Some t /\
  (forall j, snapIndex l < j < firstIndexOfTerm l t from -> term l j <> Some t).
Proof.
  intros Hmono Hfrom Ht. set (r := firstIndexOfTerm l t from).
  destruct (firstIndexOfTerm_loop_spec (N.to_nat from) l t from r eq_refl) as (Hle & Hs & Hall & Hstop); [lia|].
  specialize (Hs Hfrom).
  assert (Hin : forall j, snapIndex l <= j <= from -> term l j = Some (term0 l j)).
  { intros j Hj. assert (is_Some (term l j)) as [tj Htj].
    { apply term_range. assert (is_Some (term l from)) as Hr by eauto. apply term_range in Hr. lia. }
    unfold term0. by rewrite Htj. }
  assert (Hr : term l r = Some t).
  { destruct (decide (r = from)) as [->|]; [done|]. rewrite Hin by lia. f_equal. apply Hall. lia. }
  split_and!; [lia|lia|done|]. intros j Hj Htj.
  assert (Hr1 : term l (r - 1) = Some t).
  { assert (Hlo := Hmono j (r - 1) t _ ltac:(lia) Htj (Hin (r - 1) ltac:(lia))).
    assert (Hhi := Hmono (r - 1) r _ t ltac:(lia) (Hin (r - 1) ltac:(lia)) Hr).
    rewrite Hin by lia. f_equal. lia. }
  apply Hstop; [lia|]. unfold term0. by rewrite Hr1.
Qed.

Lemma lastIndexOfTerm_loop_spec t after es :
  contiguous after es ->
  (forall i j ei ej, (i <= j)%nat -> es !! i = Some ei -> es !! j = Some ej -> ent_Term ei <= ent_Term ej) ->
  let r := lastIndexOfTerm_loop t (reverse es) in
  (r = 0 /\ forall e, e ∈ es -> ent_Term e <> t) \/
  (exists i e, es !! i = Some e /\ r = ent_Index e /\ ent_Term e = t /\
     forall j ej, (i < j)%nat -> es !! j = Some ej -> ent_Term ej <> t).
Proof.
  intros Hc Hm r. subst r. induction es as [|e es IH] using rev_ind; [left; set_solver|].
  rewrite reverse_snoc. cbn.
  apply contiguous_app in Hc as [Hc _].
  assert (Hlast : (es ++ [e]) !! length es = Some e) by (rewrite lookup_app_r by lia; by rewrite Nat.sub_diag).
  destruct (N.eqb_spec (ent_Term e) t) as [He|He].
  { right. exists (length es), e. split_and!; try done. intros j ej Hj Hej.
    apply lookup_lt_Some in Hej. rewrite length_app in Hej. simpl in Hej. lia. }
  destruct (N.ltb_spec (ent_Term e) t) as [Hlt|Hge].
  { left. split; [done|]. intros e' He' Ht. apply list_elem_of_lookup in He' as [i Hi].
    pose proof (lookup_lt_Some _ _ _ Hi) as Hil. rewrite length_app in Hil. simpl in Hil.
    pose proof (Hm i (length es) _ _ ltac:(lia) Hi Hlast). lia. }
  destruct IH as [[-> Hno]|(i & e' & Hi & -> & Ht & Hno)]; [done| | |].
  - intros i j ei ej Hij Hi Hj. eapply Hm; [exact Hij|by apply lookup_app_l_Some..].
  - left. split; [done|]. intros e' [He'|He']%elem_of_app; [by apply Hno|].
    apply list_elem_of_singleton in He' as ->. done.
  - right. exists i, e'. split_and!; [by apply lookup_app_l_Some|done|done|].
    intros j ej Hij Hj. apply lookup_app_Some in Hj as [Hj|[_ Hj]]; [by eapply Hno|].
    apply list_lookup_singleton_Some in Hj as [_ <-]. done.
Qed.

(** The leader's search, which stops at the first smaller term, finds the
    highest index holding an entry of the term, or reports 0 when the log
    holds none: on a log whose terms never decrease, stopping early loses
    nothing. *)
Theorem lastIndexOfTerm_greatest l t :
  log_wf l -> terms_monotone l ->
  (lastIndexOfTerm l t = 0 /\ (forall j, snapIndex l < j -> term l j <> Some t)) \/
  (snapIndex l < lastIndexOfTerm l t <= lastIndex l /\ term l (lastIndexOfTerm l t) = Some t /\
   (forall j, lastIndexOfTerm l t < j -> term l j <> Some t)).
Proof.
  intros Hwf Hmono. unfold lastIndexOfTerm.
  assert (Hpos : forall i e, entries l !! i = Some e -> term l (ent_Index e) = Some (ent_Term e) /\
            ent_Index e = snapIndex l + 1 + N.of_nat i).
  { intros i e Hi. split; [|by apply Hwf]. rewrite (Hwf _ _ Hi). apply term_entry; [lia|].
    exists e. split; [|done]. rewrite <- Hi. f_equal. lia. }
  destruct (lastIndexOfTerm_loop_spec t (snapIndex l) (entries l) Hwf) as [[-> Hno]|(i & e & Hi & -> & Ht & Hno)].
  - intros i j ei ej Hij Hi Hj. destruct (Hpos _ _ Hi) as [Hti Hxi], (Hpos _ _ Hj) as [Htj Hxj].
    eapply Hmono; [|exact Hti|exact Htj]. lia.
  - left. split; [done|]. intros j Hj Htj. apply term_entry in Htj as (e & He & <-); [|done].
    by apply (Hno e); [eapply list_elem_of_lookup_2|].
  - right. destruct (Hpos _ _ Hi) as [Hti Hxi]. apply lookup_lt_Some in Hi as Hil.
    split_and!; [lia|unfold lastIndex, lenN; lia|by rewrite <- Ht|].
    intros j Hj Htj. apply term_entry in Htj as (ej & Hej & Htj); [|lia].
    eapply Hno; [|exact Hej|exact Htj]. lia.
Qed.

(** ** Concrete logs *)
Lemma StronglySorted_lookup_le (ts : list N) i j ti tj :
  StronglySorted N.le ts -> (i <= j)%nat -> ts !! i = Some ti -> ts !! j = Some tj -> ti <= tj.
Proof.
  intros Hs. revert i j. induction Hs as [|t ts Hs IH Hall]; intros [|i] [|j] Hij Hi Hj; simpl in *; simplify_eq; try lia.
  - rewrite Forall_forall in Hall. apply Hall. by eapply list_elem_of_lookup_2.
  - eapply IH; [|done|done]. lia.
Qed.

Lemma terms_monotone_sorted l :
  StronglySorted N.le (snapTerm l :: (ent_Term <$> entries l)) -> terms_monotone l.
Proof.
  intros Hs. assert (Hat : forall i t, term l i = Some t ->
    snapIndex l <= i /\ (snapTerm l :: (ent_Term <$> entries l)) !! N.to_nat (i - snapIndex l) = Some t).
  { intros i t Ht. assert (is_Some (term l i)) as Hr by eauto. apply term_range in Hr as [Hr _]. split; [done|].
    destruct (decide (i = snapIndex l)) as [->|].
    - rewrite N.sub_diag. by rewrite term_snap in Ht.
    - apply term_entry in Ht as (e & He & <-); [|lia].
      replace (N.to_nat (i - snapIndex l)) with (S (N.to_nat (i - snapIndex l - 1))) by lia. simpl.
      rewrite list_lookup_fmap, He. done. }
  intros i j ti tj Hij Hi Hj. apply Hat in Hi as [? Hi], Hj as [? Hj].
  eapply StronglySorted_lookup_le; [exact Hs| |exact Hi|exact Hj]. lia.
Qed.

Definition demo_full : list Entry :=
  (fun '(i, t) => mkEntry i t ENTRY_NORMAL []) <$> [(1, 1); (2, 1); (3, 1); (4, 2); (5, 2); (6, 4)].
Definition demo_compacted : raftLog := mkLog 2 1 (drop 2 demo_full).

Lemma demo_represents : represents demo_compacted demo_full.
Proof. split; by vm_compute. Qed.

Lemma demo_monotone : terms_monotone demo_compacted.
Proof. apply terms_monotone_sorted. vm_compute. repeat constructor; done. Qed.

Lemma demo_wf : log_wf demo_compacted.
Proof. unfold log_wf, demo_compacted. cbn. by rewrite !contiguous_cons. Qed.

Lemma raftLog_refines_full_log_witness :
  term demo_compacted 1 = None /\ term demo_compacted 4 = Some 2 /\
  slice demo_compacted 4 6 = Ok (drop 3 demo_full).
Proof.
  destruct (raftLog_refines_full_log demo_compacted demo_full demo_represents) as (_ & _ & Ht & Hs & _).
  split_and!; [by rewrite Ht|by rewrite Ht|]. by rewrite Hs by (by vm_compute).
Defined.

Lemma firstIndexOfTerm_least_witness : term demo_compacted (firstIndexOfTerm demo_compacted 2 5) = Some 2.
Proof. apply (firstIndexOfTerm_least demo_compacted 2 5); [exact demo_monotone|by vm_compute..]. Defined.

Lemma lastIndexOfTerm_greatest_witness :
  (forall j, lastIndexOfTerm demo_compacted 2 < j -> term demo_compacted j <> Some 2).
Proof.
  destruct (lastIndexOfTerm_greatest demo_compacted 2 demo_wf demo_monotone) as [[Hz _]|(_ & _ & H)]; [done|exact H].
Defined.
