(* ===== verification/Storage.v ===== *)
(** * Durable storage: the interface (internal/raft/types.go) and its in-memory
    implementation (internal/raft/storage_mem.go)

    [Storage] is the Go interface. Its contract is an abstract durable state
    [Durable] (hard state, snapshot, entries after it) and the effect of each
    method on it, written in the words of the interface's comments. A storage
    is lawful ([StorageLaws]) when it implements that contract; the theorems
    about Raft are proved for every lawful storage. *)

From S2P Require Import Prelude Types RaftLog.

(** ** The interface *)
Record Loaded := mkLoaded {
  ld_HardState : option HardState;
  ld_SnapshotMeta : option SnapshotMeta;
  ld_SnapshotData : bytes;
  ld_Entries : list Entry;
}.

(** A method that can fail returns the storage as it left it and whether it
    succeeded. *)
Class Storage (S : Type) := {
  Load : S -> option Loaded * S;
  Save : S -> option HardState -> list Entry -> S * bool;
  SaveSnapshot : S -> SnapshotMeta -> bytes -> bool -> S * bool;
  LatestSnapshot : S -> option (option SnapshotMeta * bytes);
}.

(** ** The contract *)
Record Durable := mkDurable {
  d_hs : option HardState;
  d_snap : option (N * N * bytes);
  d_entries : list Entry;
}.

Definition d_snapIndex (d : Durable) : N :=
  match d_snap d with Some (i, _, _) => i | None => 0 end.
Definition d_snapTerm (d : Durable) : N :=
  match d_snap d with Some (_, t, _) => t | None => 0 end.

(** The log that survives, as Raft keeps it in memory. *)
Definition d_log (d : Durable) : raftLog := mkLog (d_snapIndex d) (d_snapTerm d) (d_entries d).

(** An entry whose index already exists replaces it and everything after it;
    an entry the snapshot covers is dropped. *)
Definition spec_append (after : N) (es : list Entry) (e : Entry) : list Entry :=
  if ent_Index e <=? after then es
  else take (N.to_nat (ent_Index e - after - 1)) es ++ [e].

Definition spec_save (d : Durable) (hs : option HardState) (es : list Entry) : Durable :=
  mkDurable (match hs with Some h => Some h | None => d_hs d end) (d_snap d)
    (foldl (spec_append (d_snapIndex d)) (d_entries d) es).

(** A snapshot that is not newer is ignored; otherwise it replaces the old one
    and the entries it covers, or the whole log, go. *)
Definition spec_snapshot (d : Durable) (index t : N) (data : bytes) (discardLog : bool) : Durable :=
  if bool_decide (is_Some (d_snap d)) && (index <=? d_snapIndex d) then d
  else
    mkDurable (d_hs d) (Some (index, t, data))
      (if discardLog then [] else drop (N.to_nat (index - d_snapIndex d)) (d_entries d)).

Definition durable_of (l : Loaded) : Durable :=
  mkDurable (ld_HardState l)
    ((fun m => (sm_LastIncludedIndex m, sm_LastIncludedTerm m, ld_SnapshotData l)) <$> ld_SnapshotMeta l)
    (ld_Entries l).

Definition d_lastIndex (d : Durable) : N := d_snapIndex d + lenN (d_entries d).

(** The entries of a [Save] are numbered contiguously and leave no gap. *)
Definition save_pre (d : Durable) (es : list Entry) : Prop :=
  match es with
  | [] => True
  | e :: _ => 1 <= ent_Index e <= d_lastIndex d + 1 /\ contiguous (ent_Index e - 1) es
  end.

Class StorageLaws (S : Type) `{Storage S} := {
  storage_ok : S -> Prop;
  durable : S -> Durable;
  load_durable s : storage_ok s ->
    exists l s', Load s = (Some l, s') /\ durable_of l = durable s /\ durable s' = durable s /\ storage_ok s';
  save_durable s hs es : storage_ok s -> save_pre (durable s) es ->
    exists s', Save s hs es = (s', true) /\ storage_ok s' /\ durable s' = spec_save (durable s) hs es;
  snapshot_durable s m data discard : storage_ok s ->
    exists s', SaveSnapshot s m data discard = (s', true) /\ storage_ok s' /\
      durable s' = spec_snapshot (durable s) (sm_LastIncludedIndex m) (sm_LastIncludedTerm m) data discard;
  latest_durable s : storage_ok s ->
    exists om data, LatestSnapshot s = Some (om, data) /\
      d_snap (durable s) = (fun m => (sm_LastIncludedIndex m, sm_LastIncludedTerm m, data)) <$> om;
}.

(** ** MemStorage *)
Record MemStorage := mkMemStorage {
  ms_hs : option HardState;
  ms_meta : option SnapshotMeta;
  ms_snapshot : bytes;
  ms_entries : list Entry;
}.

#[global] Instance eta_MemStorage : Eta MemStorage := fun m =>
  mkMemStorage (ms_hs m) (ms_meta m) (ms_snapshot m) (ms_entries m).

Definition NewMemStorage : MemStorage := mkMemStorage None None [] [].

Definition mem_Load (m : MemStorage) : option Loaded * MemStorage :=
  (Some (mkLoaded (ms_hs m) (ms_meta m) (ms_snapshot m) (ms_entries m)), m).

Definition mem_first (m : MemStorage) : N :=
  match ms_meta m with Some meta => sm_LastIncludedIndex meta + 1 | None => 1 end.

(** [None] is the panic of slicing past the end. *)
Definition mem_appendLocked (m : MemStorage) (e : Entry) : option MemStorage :=
  if ent_Index e <? mem_first m then Some m
  else if lenN (ms_entries m) <? ent_Index e - mem_first m then None
  else Some (m <| ms_entries := take (N.to_nat (ent_Index e - mem_first m)) (ms_entries m) ++ [e] |>).

Fixpoint mem_appendAll (m : MemStorage) (es : list Entry) : MemStorage * bool :=
  match es with
  | [] => (m, true)
  | e :: es =>
      match mem_appendLocked m e with
      | None => (m, false)
      | Some m => mem_appendAll m es
      end
  end.

Definition mem_Save (m : MemStorage) (hs : option HardState) (es : list Entry) : MemStorage * bool :=
  mem_appendAll (match hs with Some h => m <| ms_hs := Some h |> | None => m end) es.

Definition mem_SaveSnapshot (m : MemStorage) (meta : SnapshotMeta) (data : bytes) (discardLog : bool) :
    MemStorage * bool :=
  if match ms_meta m with
     | Some cur => sm_LastIncludedIndex meta <=? sm_LastIncludedIndex cur
     | None => false
     end
  then (m, true)
  else
    let drop_ := sm_LastIncludedIndex meta + 1 - mem_first m in
    let es := if discardLog || (lenN (ms_entries m) <=? drop_) then []
              else drop (N.to_nat drop_) (ms_entries m) in
    (mkMemStorage (ms_hs m) (Some meta) data es, true).

Definition mem_Snapshot (m : MemStorage) : option (option SnapshotMeta * bytes) :=
  Some (ms_meta m, ms_snapshot m).

#[global] Instance MemStorage_Storage : Storage MemStorage := {|
  Load := mem_Load;
  Save := mem_Save;
  SaveSnapshot := mem_SaveSnapshot;
  LatestSnapshot := mem_Snapshot;
|}.

Definition mem_durable (m : MemStorage) : Durable :=
  mkDurable (ms_hs m)
    ((fun meta => (sm_LastIncludedIndex meta, sm_LastIncludedTerm meta, ms_snapshot m)) <$> ms_meta m)
    (ms_entries m).

(** ** MemStorage is lawful *)
Lemma mem_first_durable m : mem_first m = d_snapIndex (mem_durable m) + 1.
Proof. unfold mem_first, d_snapIndex. cbn. by destruct (ms_meta m). Qed.

(** Where an append leaves the end of the durable log. *)
Lemma spec_append_length after es e :
  ent_Index e <= after + lenN es + 1 ->
  after + lenN (spec_append after es e) =
    if ent_Index e <=? after then after + lenN es else ent_Index e.
Proof.
  intros He. unfold spec_append. destruct (N.leb_spec (ent_Index e) after); [done|].
  autorewrite with edgekv. lia.
Qed.

Lemma mem_appendAll_spec es : forall m a,
  d_snapIndex (mem_durable m) = a ->
  (forall e, head es = Some e ->
     1 <= ent_Index e <= a + lenN (ms_entries m) + 1 /\ contiguous (ent_Index e - 1) es) ->
  mem_appendAll m es = (m <| ms_entries := foldl (spec_append a) (ms_entries m) es |>, true).
Proof.
  induction es as [|e es IH]; intros m a Ha Hhd; cbn; [by destruct m|].
  destruct (Hhd e eq_refl) as [Hr Hc]. apply contiguous_cons in Hc as [_ Hc].
  pose proof (spec_append_length a (ms_entries m) e ltac:(lia)) as Hlen.
  assert (Hstep : mem_appendLocked m e = Some (m <| ms_entries := spec_append a (ms_entries m) e |>)).
  { unfold mem_appendLocked, spec_append. rewrite mem_first_durable, Ha.
    destruct (N.ltb_spec (ent_Index e) (a + 1)), (N.leb_spec (ent_Index e) a); try lia; [by destruct m|].
    destruct (N.ltb_spec (lenN (ms_entries m)) (ent_Index e - (a + 1))); [lia|].
    by replace (ent_Index e - (a + 1)) with (ent_Index e - a - 1) by lia. }
  rewrite Hstep, (IH _ a); [done|done|].
  intros e' He'. destruct es as [|e'' es]; [done|]. injection He' as ->. pose proof Hc as Hc'. apply contiguous_cons in Hc' as [Hi _].
  split; [|by replace (ent_Index e' - 1) with (ent_Index e - 1 + 1) by lia].
  cbn. rewrite Hlen. destruct (N.leb_spec (ent_Index e) a); lia.
Qed.

(** Dropping at least as many entries as there are is dropping them all. *)
Lemma mem_drop (es : list Entry) k discard :
  (if discard || (lenN es <=? k) then [] else drop (N.to_nat k) es) =
  (if discard then [] else drop (N.to_nat k) es).
Proof.
  destruct discard; [done|]. cbn. destruct (N.leb_spec (lenN es) k); [|done].
  rewrite drop_ge by (unfold lenN in *; lia). done.
Qed.

#[global] Program Instance MemStorage_StorageLaws : StorageLaws MemStorage := {|
  storage_ok _ := True;
  durable := mem_durable;
|}.
Next Obligation. intros m _. eexists _, m. by split_and!. Qed.
Next Obligation.
  intros m hs es _ Hpre. cbn. unfold mem_Save.
  rewrite (mem_appendAll_spec _ _ (d_snapIndex (mem_durable m))).
  - eexists. split_and!; [reflexivity|done|]. by destruct hs.
  - by destruct hs.
  - intros e He. destruct es as [|e' es]; simplify_eq/=. by destruct hs.
Qed.
Next Obligation.
  intros m meta data discard _. unfold SaveSnapshot, MemStorage_Storage, mem_SaveSnapshot, spec_snapshot.
  rewrite mem_first_durable, mem_drop.
  replace (sm_LastIncludedIndex meta + 1 - (d_snapIndex (mem_durable m) + 1))
    with (sm_LastIncludedIndex meta - d_snapIndex (mem_durable m)) by lia.
  unfold d_snapIndex, mem_durable. simpl. destruct (ms_meta m) as [cur|] eqn:Hm; simpl.
  - destruct (sm_LastIncludedIndex meta <=? sm_LastIncludedIndex cur); eexists;
      (split_and!; [reflexivity|done|]); cbn; [|done]. by destruct m as [? ? ? ?]; simplify_eq/=.
  - by eexists.
Qed.
Next Obligation. intros m _. cbn. by eexists _, _. Qed.

(** ** Consequences of the contract *)
Lemma spec_append_foldl after es : forall es0,
  (forall e, head es = Some e -> 1 <= ent_Index e <= after + lenN es0 + 1 /\ contiguous (ent_Index e - 1) es) ->
  forall e, head es = Some e ->
  after + lenN (foldl (spec_append after) es0 es) =
    if ent_Index e - 1 + lenN es <=? after then after + lenN es0 else ent_Index e - 1 + lenN es.
Proof.
  induction es as [|e0 es IH]; intros es0 Hpre e He; [done|]. injection He as ->.
  destruct (Hpre e eq_refl) as [Hr Hc]. apply contiguous_cons in Hc as [_ Hc].
  pose proof (spec_append_length after es0 e ltac:(lia)) as Hlen.
  destruct es as [|e1 es].
  { cbn. rewrite Hlen. autorewrite with edgekv. replace (ent_Index e - 1 + (1 + 0)) with (ent_Index e) by lia. done. }
  pose proof Hc as Hc1. apply contiguous_cons in Hc1 as [Hi1 _].
  cbn [foldl]. change (foldl (spec_append after) (spec_append after (spec_append after es0 e) e1) es)
    with (foldl (spec_append after) (spec_append after es0 e) (e1 :: es)).
  rewrite (IH (spec_append after es0 e)) with (e := e1); [| |done].
  - rewrite Hlen. autorewrite with edgekv.
    destruct (N.leb_spec (ent_Index e) after), (N.leb_spec (ent_Index e1 - 1 + (1 + lenN es)) after),
      (N.leb_spec (ent_Index e - 1 + (1 + (1 + lenN es))) after); lia.
  - intros e' He'. injection He' as <-. rewrite Hlen. split.
    + destruct (N.leb_spec (ent_Index e) after); lia.
    + by replace (ent_Index e1 - 1) with (ent_Index e - 1 + 1) by lia.
Qed.

(** Saving moves the end of the durable log to the last entry, unless the
    snapshot covers it. *)
Lemma spec_save_last d hs es :
  save_pre d es ->
  d_lastIndex (spec_save d hs es) =
    match head es with
    | None => d_lastIndex d
    | Some e => if ent_Index e - 1 + lenN es <=? d_snapIndex d then d_lastIndex d else ent_Index e - 1 + lenN es
    end.
Proof.
  intros Hpre. unfold d_lastIndex, spec_save. change (d_snapIndex (mkDurable _ (d_snap d) _)) with (d_snapIndex d).
  cbn [d_entries]. destruct es as [|e es]; [done|]. cbn [head].
  apply spec_append_foldl; [|done]. intros e' He'. by injection He' as <-.
Qed.

Lemma spec_append_wf after es e :
  contiguous after es -> ent_Index e <= after + lenN es + 1 -> contiguous after (spec_append after es e).
Proof.
  intros Hc He. unfold spec_append. destruct (N.leb_spec (ent_Index e) after); [done|].
  apply contiguous_app. split; [by apply contiguous_take|].
  apply contiguous_cons. split; [|apply contiguous_nil]. rewrite lenN_take. lia.
Qed.

Lemma spec_save_wf d hs es : log_wf (d_log d) -> save_pre d es -> log_wf (d_log (spec_save d hs es)).
Proof.
  unfold log_wf. cbn. change (d_snapIndex (spec_save d hs es)) with (d_snapIndex d).
  unfold save_pre, d_lastIndex. generalize (d_snapIndex d) as a. generalize (d_entries d) as es0. clear.
  induction es as [|e es IH]; intros es0 a Hc Hpre; [done|]. destruct Hpre as [Hr He].
  apply contiguous_cons in He as [_ He]. cbn. apply IH; [apply spec_append_wf; [done|lia]|].
  destruct es as [|e' es]; [done|]. pose proof He as He'. apply contiguous_cons in He' as [Hi _].
  pose proof (spec_append_length a es0 e ltac:(lia)) as Hlen.
  split; [destruct (N.leb_spec (ent_Index e) a); lia|].
  by replace (ent_Index e' - 1) with (ent_Index e - 1 + 1) by lia.
Qed.

Lemma snapshot_newer (d : Durable) i :
  bool_decide (is_Some (d_snap d)) && (i <=? d_snapIndex d) = false -> d_snapIndex d <= i.
Proof.
  intros [Hb|Hb%N.leb_gt]%andb_false_iff; [|lia]. apply bool_decide_eq_false in Hb.
  unfold d_snapIndex. destruct (d_snap d); [|lia]. exfalso. eauto.
Qed.

Lemma spec_snapshot_wf d i t data discard :
  log_wf (d_log d) -> log_wf (d_log (spec_snapshot d i t data discard)).
Proof.
  intros Hc. unfold spec_snapshot. destruct (bool_decide (is_Some (d_snap d)) && (i <=? d_snapIndex d)) eqn:Hb; [done|].
  unfold log_wf. cbn. destruct discard; [apply contiguous_nil|].
  apply snapshot_newer in Hb.
  apply (contiguous_drop _ _ (N.to_nat (i - d_snapIndex d))) in Hc. cbn in Hc.
  by replace (d_snapIndex d + N.of_nat (N.to_nat (i - d_snapIndex d))) with i in Hc by lia.
Qed.
