(* ===== verification/Raft.v ===== *)
(** * One Raft replica (internal/raft: types.go, raft.go, election.go,
    replication.go, apply.go)

    [Raft] is the struct: all its fields are guarded by one mutex, so every
    critical section of the sources is one function from state to state, and
    a goroutine that gives the lock up and takes it again (a campaign, a
    replication round, the applier, a leadership transfer) is one function per
    critical section, with what it keeps in local variables in between passed
    explicitly. The clock and the random number generator are the argument
    [env]; a panic (of which the process dies) is [Panic].

    Condition variables, notification channels and wait groups carry no state:
    every waiter re-reads the state under the lock when it wakes. *)

From S2P Require Import Prelude Types RaftLog Storage.

(** ** Interfaces and configuration (types.go) *)
Inductive State := Follower | Candidate | Leader.

#[global] Instance State_eq_dec : EqDecision State.
Proof. solve_decision. Defined.

(** The state machine; [None] is an error result. *)
Class StateMachine (SM : Type) := {
  sm_apply : SM -> N -> bytes -> res (SM * bytes);
  sm_snapshot : SM -> option bytes;
  sm_restore : SM -> bytes -> option SM;
}.

Record Config := mkConfig {
  ID : string;
  Group : N;
  Peers : list string;
  ElectionTimeoutMin : Z;
  ElectionTimeoutMax : Z;
  HeartbeatInterval : Z;
  RPCTimeout : Z;
  SnapshotThreshold : N;
  MaxAppendEntries : N;
  MaxProposalBatch : N;
}.

Definition Millisecond : Z := 1000000.

Definition default_if_zero (z d : Z) : Z := if (z =? 0)%Z then d else z.
Definition default_if_zeroN (z d : N) : N := if z =? 0 then d else z.

Definition setDefaults (c : Config) : option Config :=
  if bool_decide (ID c = "") || bool_decide (Peers c = []) then None
  else if negb (bool_decide (ID c ∈ Peers c)) then None
  else
    let hb := default_if_zero (HeartbeatInterval c) (50 * Millisecond) in
    let emin := default_if_zero (ElectionTimeoutMin c) (300 * Millisecond) in
    let emax := if (ElectionTimeoutMax c <=? emin)%Z then (2 * emin)%Z else ElectionTimeoutMax c in
    let rpc := default_if_zero (RPCTimeout c) emin in
    Some (mkConfig (ID c) (Group c) (Peers c) emin emax hb rpc (SnapshotThreshold c)
            (default_if_zeroN (MaxAppendEntries c) 512) (default_if_zeroN (MaxProposalBatch c) 256)).

Inductive raftError :=
| NotLeaderError (leader : string)
| ErrStopped
| ErrNotReady
| ErrTransferFailed
| ErrLoad
| ErrRestore
| ErrConfig.

#[global] Instance raftError_eq_dec : EqDecision raftError.
Proof. solve_decision. Defined.

Record NodeStatus := mkNodeStatus {
  st_ID : string;
  st_Group : N;
  st_State : State;
  st_Term : N;
  st_Leader : string;
  st_CommitIndex : N;
  st_LastApplied : N;
  st_LastLogIndex : N;
  st_SnapshotIndex : N;
  st_MatchIndex : gmap string N;
}.

(** ** State (raft.go) *)

(** A proposal; its [done] channel is named by [p_id]. *)
Record proposal := mkProposal {
  p_id : nat;
  p_data : bytes;
  p_term : N;
}.

(** What is sent on a proposal's [done] channel. *)
Inductive proposalResult :=
| PResult (result : bytes)
| PError (err : raftError).

(** The clock and the random source at the moment a critical section runs. *)
Record Env := mkEnv {
  now : Z;
  rnd : Z;
}.

Section Raft.
Context {S SM : Type} `{Storage S} `{StateMachine SM}.

Record Raft := mkRaft {
  cfg : Config;
  others : list string;
  quorum : nat;
  rterm : N;
  votedFor : string;
  rlog : raftLog;
  state : State;
  leaderID : string;
  commitIndex : N;
  lastApplied : N;
  electionDeadline : Z;
  lastLeaderContact : Z;
  campaigning : bool;
  nextIndex : gmap string N;
  matchIndex : gmap string N;
  ackedSendTime : gmap string Z;
  noopIndex : N;
  transferTarget : string;
  leaderCancel : bool;             (* r.leaderCancel != nil *)
  triggers : gmap string bool;     (* a wake-up is pending on the channel *)
  waiters : gmap N proposal;
  pendingSnapshot : option InstallSnapshotRequest;
  stopped : bool;
  storage : S;                     (* cfg.Storage *)
  machine : SM;                    (* cfg.StateMachine *)
  replies : list (nat * proposalResult);  (* everything sent on done channels *)
  notifications : list NodeStatus;        (* calls of cfg.OnStateChange *)
}.

#[global] Instance eta_Raft : Eta Raft := fun r =>
  mkRaft (cfg r) (others r) (quorum r) (rterm r) (votedFor r) (rlog r) (state r) (leaderID r)
    (commitIndex r) (lastApplied r) (electionDeadline r) (lastLeaderContact r) (campaigning r)
    (nextIndex r) (matchIndex r) (ackedSendTime r) (noopIndex r) (transferTarget r)
    (leaderCancel r) (triggers r) (waiters r) (pendingSnapshot r) (stopped r)
    (storage r) (machine r) (replies r) (notifications r).

Implicit Types r : Raft.

(** A read of a Go map: the zero value when the key is absent. *)
Definition mapGet (m : gmap string N) (k : string) : N := default 0 (m !! k).
Definition mapGetTime (m : gmap string Z) (k : string) : Z := default 0%Z (m !! k).

(** *** Construction and status *)
Definition New (c : Config) (st : S) (sm : SM) : res (Raft + raftError) :=
  match setDefaults c with
  | None => Ok (inr ErrConfig)
  | Some c =>
      match Load st with
      | (None, _) => Ok (inr ErrLoad)
      | (Some loaded, st) =>
          let '(t, v) := match ld_HardState loaded with
                         | Some hs => (hs_Term hs, hs_VotedFor hs)
                         | None => (0, "")
                         end in
          let restored :=
            match ld_SnapshotMeta loaded with
            | None => Some (emptyLog, sm)
            | Some meta =>
                match sm_restore sm (ld_SnapshotData loaded) with
                | None => None
                | Some sm => Some (reset (sm_LastIncludedIndex meta) (sm_LastIncludedTerm meta), sm)
                end
            end in
          match restored with
          | None => Ok (inr ErrRestore)
          | Some (l0, sm) =>
              l ← append l0 (ld_Entries loaded);
              Ok (inl (mkRaft c (filter (fun p => p <> ID c) (Peers c)) (length (Peers c) / 2 + 1)%nat
                t v l Follower "" (snapIndex l0) (snapIndex l0) 0 0 false ∅ ∅ ∅ 0 "" false ∅ ∅ None
                false st sm [] []))
          end
      end
  end.

Definition resetElectionTimerLocked (env : Env) (r : Raft) : Raft :=
  let spread := (ElectionTimeoutMax (cfg r) - ElectionTimeoutMin (cfg r))%Z in
  let timeout := (ElectionTimeoutMin (cfg r) + rnd env mod (spread + 1))%Z in
  r <| electionDeadline := (now env + timeout)%Z |>.

Definition Start (env : Env) (r : Raft) : Raft := resetElectionTimerLocked env r.

Definition statusLocked (r : Raft) : NodeStatus :=
  mkNodeStatus (ID (cfg r)) (Group (cfg r)) (state r) (rterm r) (leaderID r)
    (commitIndex r) (lastApplied r) (lastIndex (rlog r)) (snapIndex (rlog r))
    (if bool_decide (state r = Leader) then matchIndex r else ∅).

Definition IsLeader (r : Raft) : bool := bool_decide (state r = Leader).

(** *** Helpers of the role transitions *)
Definition notifyStateChangeLocked (r : Raft) : Raft :=
  r <| notifications := notifications r ++ [statusLocked r] |>.

Definition persistLocked (hardState : bool) (es : list Entry) (r : Raft) : res Raft :=
  let hs := if hardState then Some (mkHardState (rterm r) (votedFor r)) else None in
  match Save (storage r) hs es with
  | (st, true) => Ok (r <| storage := st |>)
  | (_, false) => Panic "raft: cannot persist"
  end.

Definition failWaitersLocked (err : raftError) (r : Raft) : Raft :=
  r <| replies := replies r ++ ((fun ip : N * proposal => (p_id ip.2, PError err)) <$> map_to_list (waiters r)) |>
    <| waiters := ∅ |>.

Definition Stop (r : Raft) : Raft :=
  if stopped r then r
  else failWaitersLocked ErrStopped (r <| stopped := true |>).

(** The acknowledgements counted by [hasQuorumAckSinceLocked], this node included. *)
Definition acksSince (t : Z) (r : Raft) : nat :=
  (1 + length (filter (fun p => (t <= mapGetTime (ackedSendTime r) p)%Z) (others r)))%nat.

Definition hasQuorumAckSinceLocked (t : Z) (r : Raft) : bool :=
  (quorum r <=? acksSince t r)%nat.

(** *** Role transitions *)
Definition becomeFollowerLocked (env : Env) (t : N) (leader : string) (r : Raft) : res Raft :=
  let wasLeader := bool_decide (state r = Leader) in
  let changed := negb (bool_decide (state r = Follower)) || negb (bool_decide (leaderID r = leader))
                 || (rterm r <? t) in
  r ← (if rterm r <? t then persistLocked true [] (r <| rterm := t |> <| votedFor := "" |>) else Ok r);
  let r := r <| state := Follower |> <| leaderID := leader |> in
  r ← (if wasLeader then
         if leaderCancel r then
           let r := r <| leaderCancel := false |> <| transferTarget := "" |> in
           Ok (resetElectionTimerLocked env (failWaitersLocked (NotLeaderError leader) r))
         else Panic "nil function call"
       else Ok r);
  Ok (if changed then notifyStateChangeLocked r else r).

(** The index held by at least [quorum] nodes. *)
Definition commitCandidate (r : Raft) : res N :=
  let matches := lastIndex (rlog r) :: (mapGet (matchIndex r) <$> others r) in
  if (length matches <? quorum r)%nat then Panic "index out of range"
  else or_panic "index out of range" (merge_sort N.le matches !! (length matches - quorum r)%nat).

Definition advanceCommitLocked (r : Raft) : res Raft :=
  candidate ← commitCandidate r;
  if candidate <=? commitIndex r then Ok r
  else if negb (term0 (rlog r) candidate =? rterm r) then Ok r
  else Ok (r <| commitIndex := candidate |>).

(** The fields a new leader starts from. *)
Definition leaderState (env : Env) (next : N) (r : Raft) : Raft :=
  r <| state := Leader |> <| leaderID := ID (cfg r) |> <| transferTarget := "" |>
    <| nextIndex := list_to_map ((fun p => (p, next)) <$> others r) |>
    <| matchIndex := list_to_map ((fun p => (p, 0)) <$> others r) |>
    <| ackedSendTime := list_to_map ((fun p => (p, now env)) <$> others r) |>
    <| triggers := list_to_map ((fun p => (p, false)) <$> others r) |>.

Definition becomeLeaderLocked (env : Env) (r : Raft) : res Raft :=
  let next := lastIndex (rlog r) + 1 in
  let r := leaderState env next r in
  let noop := mkEntry next (rterm r) ENTRY_NOOP [] in
  l ← append (rlog r) [noop];
  r ← persistLocked false [noop] (r <| rlog := l |>);
  let r := r <| noopIndex := next |> <| leaderCancel := true |> in
  r ← advanceCommitLocked r;
  Ok (notifyStateChangeLocked r).

(** ** Elections (election.go) *)
Definition voteRequestLocked (t : N) (preVote : bool) (r : Raft) : RequestVoteRequest :=
  mkRequestVoteRequest (Group (cfg r)) t (ID (cfg r)) (lastIndex (rlog r)) (lastTerm (rlog r)) preVote.

(** Where a campaign goroutine is between two critical sections. *)
Inductive campaignPC :=
| PreVoting (req : RequestVoteRequest)   (* collecting pre-votes *)
| Voting (req : RequestVoteRequest)      (* collecting votes *)
| Exiting.                               (* about to clear [campaigning] *)

(** The real election: a new term and our own vote, durable before any request. *)
Definition campaign_elect (env : Env) (r : Raft) : res (Raft * campaignPC) :=
  let r := r <| rterm := rterm r + 1 |> <| votedFor := ID (cfg r) |> <| state := Candidate |> <| leaderID := "" |> in
  r ← persistLocked true [] r;
  let r := notifyStateChangeLocked (resetElectionTimerLocked env r) in
  Ok (r, Voting (voteRequestLocked (rterm r) false r)).

Definition campaign_begin (env : Env) (skipPreVote : bool) (r : Raft) : res (Raft * campaignPC) :=
  if stopped r || bool_decide (state r = Leader) then Ok (r, Exiting)
  else
    let r := resetElectionTimerLocked env r in
    if skipPreVote then campaign_elect env r
    else Ok (r, PreVoting (voteRequestLocked (rterm r + 1) true r)).

Definition campaign_prevoted (env : Env) (req : RequestVoteRequest) (won : bool) (r : Raft) : res (Raft * campaignPC) :=
  if negb won then Ok (r, Exiting)
  else if stopped r || bool_decide (state r = Leader) || negb (rterm r + 1 =? rv_Term req) then Ok (r, Exiting)
  else campaign_elect env r.

Definition campaign_voted (env : Env) (req : RequestVoteRequest) (won : bool) (r : Raft) : res (Raft * campaignPC) :=
  if negb won then Ok (r, Exiting)
  else if negb (stopped r) && bool_decide (state r = Candidate) && (rterm r =? rv_Term req) then
    r ← becomeLeaderLocked env r;
    Ok (r, Exiting)
  else Ok (r, Exiting).

Definition campaign_exit (r : Raft) : Raft := r <| campaigning := false |>.

(** The answers of the peers in the order they arrive ([false] for an error).
    [None]: still waiting for more. *)
Fixpoint collect_loop (quorum nOthers granted answered : nat) (results : list bool) : option bool :=
  if (answered <? nOthers)%nat then
    match results with
    | [] => None
    | ok :: results =>
        let answered := Datatypes.S answered in
        let granted := if ok then Datatypes.S granted else granted in
        if (quorum <=? granted)%nat then Some true
        else if (granted + (nOthers - answered) <? quorum)%nat then Some false
        else collect_loop quorum nOthers granted answered results
    end
  else Some false.

Definition collectVotes (results : list bool) (r : Raft) : option bool :=
  if (quorum r =? 1)%nat then Some true
  else collect_loop (quorum r) (length (others r)) 1 0 results.

(** A peer's answer, in the goroutine that asked it. *)
Definition vote_answer (env : Env) (resp : RequestVoteResponse) (r : Raft) : res (Raft * bool) :=
  r ← (if rterm r <? rvr_Term resp then becomeFollowerLocked env (rvr_Term resp) "" r else Ok r);
  Ok (r, rvr_VoteGranted resp).

Definition logUpToDateLocked (lastIdx lastTrm : N) (r : Raft) : bool :=
  let myTerm := lastTerm (rlog r) in
  if negb (lastTrm =? myTerm) then myTerm <? lastTrm
  else lastIndex (rlog r) <=? lastIdx.

Definition handlePreVoteLocked (env : Env) (req : RequestVoteRequest) (r : Raft) : RequestVoteResponse :=
  if rv_Term req <=? rterm r then mkRequestVoteResponse (rterm r) false
  else if bool_decide (state r = Leader) || (now env - lastLeaderContact r <? ElectionTimeoutMin (cfg r))%Z
  then mkRequestVoteResponse (rterm r) false
  else mkRequestVoteResponse (rterm r) (logUpToDateLocked (rv_LastLogIndex req) (rv_LastLogTerm req) r).

Definition HandleRequestVote (env : Env) (req : RequestVoteRequest) (r : Raft) : res (Raft * RequestVoteResponse) :=
  if rv_PreVote req then Ok (r, handlePreVoteLocked env req r)
  else if rv_Term req <? rterm r then Ok (r, mkRequestVoteResponse (rterm r) false)
  else
    r ← (if rterm r <? rv_Term req then becomeFollowerLocked env (rv_Term req) "" r else Ok r);
    let canVote := bool_decide (votedFor r = "") || bool_decide (votedFor r = rv_CandidateId req) in
    if negb canVote || negb (logUpToDateLocked (rv_LastLogIndex req) (rv_LastLogTerm req) r)
    then Ok (r, mkRequestVoteResponse (rterm r) false)
    else
      r ← persistLocked true [] (r <| votedFor := rv_CandidateId req |>);
      let r := resetElectionTimerLocked env r in
      Ok (r, mkRequestVoteResponse (rterm r) true).

(** The flag says whether a campaign goroutine (without pre-vote) was started. *)
Definition HandleTimeoutNow (req : TimeoutNowRequest) (r : Raft) : Raft * TimeoutNowResponse * bool :=
  if (tn_Term req =? rterm r) && bool_decide (state r = Follower) && negb (campaigning r) && negb (stopped r)
  then (r <| campaigning := true |>, mkTimeoutNowResponse (rterm r), true)
  else (r, mkTimeoutNowResponse (rterm r), false).

(** The flag says whether a campaign goroutine (with pre-vote) was started. *)
Definition tick (env : Env) (r : Raft) : res (Raft * bool) :=
  if stopped r then Ok (r, false)
  else if bool_decide (state r = Leader) then
    if negb (hasQuorumAckSinceLocked (now env - ElectionTimeoutMax (cfg r))%Z r) then
      r ← becomeFollowerLocked env (rterm r) "" r;
      Ok (r, false)
    else Ok (r, false)
  else if (electionDeadline r <? now env)%Z && negb (campaigning r) then
    Ok (r <| campaigning := true |>, true)
  else Ok (r, false).

(** ** Replication (replication.go) *)
Definition triggerReplicationLocked (r : Raft) : Raft :=
  r <| triggers := (fun _ => true) <$> triggers r |>.

(** What one round of [replicateOnce] sends. *)
Inductive sendAction :=
| SendNothing                              (* not the leader of [term] any more *)
| SendAppend (req : AppendEntriesRequest)
| SendSnapshot.                            (* the entries needed were compacted away *)

(** [replicateOnce] up to the RPC; [ctxErr] says that the leadership's context
    has been cancelled. *)
Definition replicateOnce_send (ctxErr : bool) (peer : string) (t : N) (r : Raft) : res sendAction :=
  if ctxErr || negb (bool_decide (state r = Leader)) || negb (rterm r =? t) then Ok SendNothing
  else
    let next := mapGet (nextIndex r) peer in
    if next <=? snapIndex (rlog r) then Ok SendSnapshot
    else
      let prevIndex := next - 1 in
      let prevTerm := term0 (rlog r) prevIndex in
      let last := N.min (lastIndex (rlog r)) (prevIndex + MaxAppendEntries (cfg r)) in
      es ← slice (rlog r) next last;
      Ok (SendAppend (mkAppendEntriesRequest (Group (cfg r)) t (ID (cfg r)) prevIndex prevTerm es (commitIndex r))).

Definition recordAckLocked (peer : string) (sentAt : Z) (r : Raft) : Raft :=
  if (mapGetTime (ackedSendTime r) peer <? sentAt)%Z
  then r <| ackedSendTime := <[peer := sentAt]> (ackedSendTime r) |>
  else r.

(** Where to continue after a rejection, from the follower's hint. *)
Definition nextFromConflict (resp : AppendEntriesResponse) (r : Raft) : N :=
  let next :=
    if negb (aer_ConflictTerm resp =? 0) then
      let idx := lastIndexOfTerm (rlog r) (aer_ConflictTerm resp) in
      if negb (idx =? 0) then idx + 1 else aer_ConflictIndex resp
    else aer_ConflictIndex resp in
  N.max 1 (N.min next (lastIndex (rlog r) + 1)).

(** [replicateOnce] after the RPC has been answered; the flag is its result. *)
Definition replicateOnce_recv (env : Env) (peer : string) (t : N) (req : AppendEntriesRequest) (sentAt : Z)
    (resp : AppendEntriesResponse) (r : Raft) : res (Raft * bool) :=
  if rterm r <? aer_Term resp then
    r ← becomeFollowerLocked env (aer_Term resp) "" r;
    Ok (r, false)
  else if negb (bool_decide (state r = Leader)) || negb (rterm r =? t) then Ok (r, false)
  else
    let r := recordAckLocked peer sentAt r in
    if aer_Success resp then
      let matched := ae_PrevLogIndex req + lenN (ae_Entries req) in
      r ← (if mapGet (matchIndex r) peer <? matched then
             advanceCommitLocked
               (r <| matchIndex := <[peer := matched]> (matchIndex r) |>
                  <| nextIndex := <[peer := matched + 1]> (nextIndex r) |>)
           else Ok r);
      Ok (r, mapGet (nextIndex r) peer <=? lastIndex (rlog r))
    else
      Ok (r <| nextIndex := <[peer := nextFromConflict resp r]> (nextIndex r) |>, true).

(** The loop that looks for the first entry the log does not hold yet, and
    truncates on a conflict: the log and the entries left to append. *)
Fixpoint findFresh (l : raftLog) (es : list Entry) : res (raftLog * list Entry) :=
  match es with
  | [] => Ok (l, [])
  | e :: es' =>
      match term l (ent_Index e) with
      | Some t =>
          if t =? ent_Term e then findFresh l es'
          else
            l ← truncateFrom l (ent_Index e);
            Ok (l, es)
      | None => Ok (l, es)
      end
  end.

(** [HandleAppendEntries] from the loop on, with the entries past the snapshot. *)
Definition appendVerified (req : AppendEntriesRequest) (es : list Entry) (r : Raft) :
    res (Raft * AppendEntriesResponse) :=
  '(l, fresh) ← findFresh (rlog r) es;
  r ← match fresh with
      | [] => Ok (r <| rlog := l |>)
      | _ =>
          l ← append l fresh;
          persistLocked false fresh (r <| rlog := l |>)
      end;
  let lastVerified := ae_PrevLogIndex req + lenN (ae_Entries req) in
  let newCommit := N.min (ae_LeaderCommit req) lastVerified in
  let r := if commitIndex r <? newCommit then r <| commitIndex := newCommit |> else r in
  Ok (r, mkAppendEntriesResponse (rterm r) true 0 0).

Definition HandleAppendEntries (env : Env) (req : AppendEntriesRequest) (r : Raft) :
    res (Raft * AppendEntriesResponse) :=
  if ae_Term req <? rterm r then Ok (r, mkAppendEntriesResponse (rterm r) false 0 0)
  else
    r ← (if (rterm r <? ae_Term req) || negb (bool_decide (state r = Follower))
            || negb (bool_decide (leaderID r = ae_LeaderId req))
         then becomeFollowerLocked env (ae_Term req) (ae_LeaderId req) r
         else Ok r);
    let r := resetElectionTimerLocked env (r <| lastLeaderContact := now env |>) in
    let snap := snapIndex (rlog r) in
    let skip := snap - ae_PrevLogIndex req in
    if (ae_PrevLogIndex req <? snap) && (lenN (ae_Entries req) <=? skip) then
      Ok (r, mkAppendEntriesResponse (rterm r) true 0 0)
    else
      let '(prevIndex, es) :=
        if ae_PrevLogIndex req <? snap then (snap, drop (N.to_nat skip) (ae_Entries req))
        else (ae_PrevLogIndex req, ae_Entries req) in
      if lastIndex (rlog r) <? prevIndex then
        Ok (r, mkAppendEntriesResponse (rterm r) false (lastIndex (rlog r) + 1) 0)
      else
        let t := term0 (rlog r) prevIndex in
        if (prevIndex =? ae_PrevLogIndex req) && negb (t =? ae_PrevLogTerm req) then
          Ok (r, mkAppendEntriesResponse (rterm r) false (firstIndexOfTerm (rlog r) t prevIndex) t)
        else appendVerified req es r.

(** [sendSnapshot] up to the RPC: the request and the metadata it was built from. *)
Definition sendSnapshot_load (t : N) (r : Raft) : option (InstallSnapshotRequest * SnapshotMeta) :=
  match LatestSnapshot (storage r) with
  | Some (Some meta, data) =>
      Some (mkInstallSnapshotRequest (Group (cfg r)) t (ID (cfg r)) (sm_LastIncludedIndex meta)
              (sm_LastIncludedTerm meta) data, meta)
  | _ => None
  end.

Definition sendSnapshot_recv (env : Env) (peer : string) (t : N) (meta : SnapshotMeta) (sentAt : Z)
    (resp : InstallSnapshotResponse) (r : Raft) : res (Raft * bool) :=
  if rterm r <? isr_Term resp then
    r ← becomeFollowerLocked env (isr_Term resp) "" r;
    Ok (r, false)
  else if negb (bool_decide (state r = Leader)) || negb (rterm r =? t) then Ok (r, false)
  else
    let r := recordAckLocked peer sentAt r in
    r ← (if mapGet (matchIndex r) peer <? sm_LastIncludedIndex meta then
           advanceCommitLocked (r <| matchIndex := <[peer := sm_LastIncludedIndex meta]> (matchIndex r) |>)
         else Ok r);
    let next := mapGet (matchIndex r) peer + 1 in
    let r := r <| nextIndex := <[peer := next]> (nextIndex r) |> in
    Ok (r, next <=? lastIndex (rlog r)).

Definition HandleInstallSnapshot (env : Env) (req : InstallSnapshotRequest) (r : Raft) :
    res (Raft * InstallSnapshotResponse) :=
  if is_Term req <? rterm r then Ok (r, mkInstallSnapshotResponse (rterm r))
  else
    r ← (if (rterm r <? is_Term req) || negb (bool_decide (state r = Follower))
            || negb (bool_decide (leaderID r = is_LeaderId req))
         then becomeFollowerLocked env (is_Term req) (is_LeaderId req) r
         else Ok r);
    let r := r <| lastLeaderContact := now env |> in
    let index := is_LastIncludedIndex req in
    if index <=? commitIndex r then
      Ok (resetElectionTimerLocked env r, mkInstallSnapshotResponse (rterm r))
    else
      let keepSuffix := bool_decide (term (rlog r) index = Some (is_LastIncludedTerm req)) in
      match SaveSnapshot (storage r) (mkSnapshotMeta index (is_LastIncludedTerm req) 0) (is_Data req) (negb keepSuffix) with
      | (_, false) => Panic "raft: cannot persist snapshot"
      | (st, true) =>
          let l := if keepSuffix then compactTo (rlog r) index (is_LastIncludedTerm req)
                   else reset index (is_LastIncludedTerm req) in
          let r := r <| storage := st |> <| rlog := l |> <| commitIndex := index |>
                     <| pendingSnapshot := Some req |> in
          Ok (resetElectionTimerLocked env r, mkInstallSnapshotResponse (rterm r))
      end.

(** ** Proposals, reads, applying, transfer (apply.go) *)
Definition leaderHintLocked (r : Raft) : string :=
  if bool_decide (state r = Leader) then "" else leaderID r.

(** One batch of [runProposer]: the first proposal and what has queued up
    behind it, [max] in all; the rest of the queue stays. *)
Definition nextBatch (max : N) (queue : list proposal) : option (list proposal * list proposal) :=
  match queue with
  | [] => None
  | p :: queue => Some (p :: take (N.to_nat max - 1) queue, drop (N.to_nat max - 1) queue)
  end.

(** The log entries of a batch of proposals. *)
Definition proposalEntries (first t : N) (batch : list proposal) : list Entry :=
  imap (fun i p => mkEntry (first + N.of_nat i) t ENTRY_NORMAL (p_data p)) batch.

Definition appendProposals (batch : list proposal) (r : Raft) : res Raft :=
  if negb (bool_decide (state r = Leader)) || negb (bool_decide (transferTarget r = "")) || stopped r then
    let err := if stopped r then ErrStopped else NotLeaderError (leaderHintLocked r) in
    Ok (r <| replies := replies r ++ ((fun p => (p_id p, PError err)) <$> batch) |>)
  else
    let first := lastIndex (rlog r) + 1 in
    let es := proposalEntries first (rterm r) batch in
    l ← append (rlog r) es;
    r ← persistLocked false es (r <| rlog := l |>);
    let waiting := imap (fun i p => (first + N.of_nat i, mkProposal (p_id p) (p_data p) (rterm r))) batch in
    let r := r <| waiters := foldl (fun m ip => <[ip.1 := ip.2]> m) (waiters r) waiting |> in
    advanceCommitLocked (triggerReplicationLocked r).

(** The first critical section of [confirmLeadership]: the term, the read index
    and the time the round must start after. *)
Definition confirmLeadership_begin (env : Env) (r : Raft) : Raft * ((N * N * Z) + raftError) :=
  if negb (bool_decide (state r = Leader)) then (r, inr (NotLeaderError (leaderID r)))
  else if commitIndex r <? noopIndex r then (r, inr ErrNotReady)
  else (triggerReplicationLocked r, inl (rterm r, commitIndex r, now env)).

(** One iteration of its loop: the answer, or [None] to wait for more acknowledgements. *)
Definition confirmLeadership_check (t readIndex : N) (start : Z) (r : Raft) : option (N + raftError) :=
  if negb (bool_decide (state r = Leader)) || negb (rterm r =? t) then Some (inr (NotLeaderError (leaderID r)))
  else if hasQuorumAckSinceLocked start r then Some (inl readIndex)
  else None.

(** One iteration of [waitApplied]: is it safe to read now? *)
Definition waitApplied_check (index : N) (r : Raft) : bool := index <=? lastApplied r.

(** Where the applier goroutine is between two critical sections. *)
Inductive applierPC :=
| ApplierIdle
| ApplierRestoring (snap : InstallSnapshotRequest)
| ApplierRestored (snap : InstallSnapshotRequest)
| ApplierApplying (es : list Entry)
| ApplierApplied (es : list Entry) (results : list bytes)
| ApplierSnapshotting (index : N)
| ApplierSaving (index : N) (data : bytes)
| ApplierSaved (index t : N) (data : bytes)
| ApplierCompacting (index t : N).

(** Waking up with work to do: an installed snapshot first, else the committed
    entries not yet applied. *)
Definition applier_wake (r : Raft) : res (Raft * applierPC) :=
  if stopped r then Ok (r, ApplierIdle)
  else
    match pendingSnapshot r with
    | Some snap => Ok (r <| pendingSnapshot := None |>, ApplierRestoring snap)
    | None =>
        if commitIndex r <=? lastApplied r then Ok (r, ApplierIdle)
        else
          es ← slice (rlog r) (lastApplied r + 1) (commitIndex r);
          Ok (r, ApplierApplying es)
    end.

Definition applier_restore (snap : InstallSnapshotRequest) (r : Raft) : res (Raft * applierPC) :=
  sm ← or_panic "raft: cannot restore snapshot" (sm_restore (machine r) (is_Data snap));
  Ok (r <| machine := sm |>, ApplierRestored snap).

Definition applier_restored (snap : InstallSnapshotRequest) (r : Raft) : Raft :=
  r <| lastApplied := N.max (lastApplied r) (is_LastIncludedIndex snap) |>.

(** Applying the entries to the state machine, without the lock. *)
Fixpoint applyEntries (sm : SM) (es : list Entry) : res (SM * list bytes) :=
  match es with
  | [] => Ok (sm, [])
  | e :: es =>
      '(sm, out) ← match ent_Type e with
                   | ENTRY_NORMAL => sm_apply sm (ent_Index e) (ent_Data e)
                   | _ => Ok (sm, [])
                   end;
      '(sm, outs) ← applyEntries sm es;
      Ok (sm, out :: outs)
  end.

Definition applier_apply (es : list Entry) (r : Raft) : res (Raft * applierPC) :=
  '(sm, results) ← applyEntries (machine r) es;
  Ok (r <| machine := sm |>, ApplierApplied es results).

(** Answering the proposal that waits for an applied entry. *)
Definition answerWaiter (r : Raft) (er : Entry * bytes) : Raft :=
  match waiters r !! ent_Index er.1 with
  | None => r
  | Some p =>
      let answer := if p_term p =? ent_Term er.1 then PResult er.2 else PError (NotLeaderError (leaderID r)) in
      r <| waiters := delete (ent_Index er.1) (waiters r) |>
        <| replies := replies r ++ [(p_id p, answer)] |>
  end.

Definition applier_finish (es : list Entry) (results : list bytes) (r : Raft) : res (Raft * applierPC) :=
  let r := foldl answerWaiter r (zip es results) in
  match last es with
  | None => Panic "index out of range"
  | Some e =>
      let r := r <| lastApplied := N.max (lastApplied r) (ent_Index e) |> in
      let needSnapshot :=
        (0 <? SnapshotThreshold (cfg r)) && (snapIndex (rlog r) <? lastApplied r)
        && (SnapshotThreshold (cfg r) <=? lastApplied r - snapIndex (rlog r)) in
      Ok (r, if needSnapshot then ApplierSnapshotting (ent_Index e) else ApplierIdle)
  end.

(** [takeSnapshot], one function per step between lock operations. *)
Definition takeSnapshot_serialise (index : N) (r : Raft) : applierPC :=
  match sm_snapshot (machine r) with
  | None => ApplierIdle
  | Some data => ApplierSaving index data
  end.

Definition takeSnapshot_term (index : N) (data : bytes) (r : Raft) : applierPC :=
  match term (rlog r) index with
  | None => ApplierIdle
  | Some t => ApplierSaved index t data
  end.

Definition takeSnapshot_save (index t : N) (data : bytes) (r : Raft) : Raft * applierPC :=
  match SaveSnapshot (storage r) (mkSnapshotMeta index t 0) data false with
  | (st, true) => (r <| storage := st |>, ApplierCompacting index t)
  | (st, false) => (r <| storage := st |>, ApplierIdle)
  end.

Definition takeSnapshot_compact (index t : N) (r : Raft) : Raft :=
  r <| rlog := compactTo (rlog r) index t |>.

(** *** Leadership transfer *)
Definition transfer_begin (env : Env) (target : string) (r : Raft) : Raft * (N + raftError) :=
  if negb (bool_decide (state r = Leader)) then (r, inr (NotLeaderError (leaderID r)))
  else if negb (bool_decide (is_Some (matchIndex r !! target))) || negb (bool_decide (transferTarget r = ""))
  then (r, inr ErrTransferFailed)
  else if (ElectionTimeoutMin (cfg r) <? now env - mapGetTime (ackedSendTime r) target)%Z
  then (r, inr ErrTransferFailed)
  else (triggerReplicationLocked (r <| transferTarget := target |>), inl (rterm r)).

(** One iteration of the wait for the target to hold every entry: [None] to keep
    waiting, [Some None] when leadership is already gone, or the TimeoutNow
    request to send. *)
Definition transfer_poll (t : N) (target : string) (r : Raft) : option (option TimeoutNowRequest) :=
  if negb (bool_decide (state r = Leader)) || negb (rterm r =? t) then Some None
  else if mapGet (matchIndex r) target =? lastIndex (rlog r)
  then Some (Some (mkTimeoutNowRequest (Group (cfg r)) t (ID (cfg r))))
  else None.

(** The final wait: leadership lost is success. *)
Definition transfer_done (t : N) (r : Raft) : bool :=
  negb (bool_decide (state r = Leader)) || negb (rterm r =? t).

(** The deferred cleanup, on every exit. *)
Definition transfer_cleanup (t : N) (r : Raft) : Raft :=
  if bool_decide (state r = Leader) && (rterm r =? t) then r <| transferTarget := "" |> else r.

End Raft.

Arguments Raft S SM : clear implicits.
