(* ===== verification/RaftFacts.v ===== *)
(** * What each critical section of a replica does to its term, vote and role

    Proved for every lawful storage. [node_ok] is the local invariant: the
    term and the vote in memory are the durable ones, both logs are numbered
    contiguously, and the durable log is at least as long as the log in
    memory. [role_step] lists the only ways a
    critical section may change term, vote and role. *)

From S2P Require Import Prelude Types RaftLog Storage Raft.

Section Facts.
Context {S SM : Type} `{StorageLaws S} `{StateMachine SM}.
#[local] Abbreviation Raft := (Raft S SM).
Implicit Types r : Raft.

Definition hardState (d : Durable) : HardState := default (mkHardState 0 "") (d_hs d).

Record node_ok (r : Raft) : Prop := {
  nk_storage : storage_ok (storage r);
  nk_hs : hardState (durable (storage r)) = mkHardState (rterm r) (votedFor r);
  nk_last : lastIndex (rlog r) <= d_lastIndex (durable (storage r));
  nk_wf : log_wf (rlog r);
  nk_durable : log_wf (d_log (durable (storage r)));
  nk_snap : snapIndex (rlog r) <= d_snapIndex (durable (storage r));
}.

(** What no critical section changes; and the durable snapshot only moves forward. *)
Definition same_cfg (r r' : Raft) : Prop :=
  cfg r' = cfg r /\ others r' = others r /\ quorum r' = quorum r /\
  d_snapIndex (durable (storage r)) <= d_snapIndex (durable (storage r')).

Lemma same_cfg_snap r r' :
  cfg r' = cfg r -> others r' = others r -> quorum r' = quorum r ->
  d_snap (durable (storage r')) = d_snap (durable (storage r)) -> same_cfg r r'.
Proof. unfold same_cfg, d_snapIndex. intros -> -> -> ->. by split_and!. Qed.

Lemma same_cfg_refl r : same_cfg r r.
Proof. done. Qed.
Lemma same_cfg_trans r1 r2 r3 : same_cfg r1 r2 -> same_cfg r2 r3 -> same_cfg r1 r3.
Proof. unfold same_cfg. intros (-> & -> & -> & ?) (-> & -> & -> & ?). split_and!; [done..|lia]. Qed.

(** The ways a critical section may change term, vote and role. *)
Inductive role_step (r r' : Raft) : Prop :=
| role_stay : rterm r' = rterm r -> votedFor r' = votedFor r ->
    state r' = state r \/ state r' = Follower -> role_step r r'
| role_newterm : rterm r < rterm r' -> votedFor r' = "" -> state r' = Follower -> role_step r r'
| role_campaign : rterm r' = rterm r + 1 -> votedFor r' = ID (cfg r) -> state r' = Candidate -> role_step r r'
| role_grant : rterm r <= rterm r' -> votedFor r' <> "" ->
    (rterm r' = rterm r -> votedFor r = "" \/ votedFor r = votedFor r') ->
    (rterm r' = rterm r /\ state r' = state r) \/ state r' = Follower -> role_step r r'.

(** ... and becoming leader, which only a won campaign does. *)
Record lead_step (r r' : Raft) : Prop := {
  lead_cand : state r = Candidate;
  lead_leader : state r' = Leader;
  lead_term : rterm r' = rterm r;
  lead_vote : votedFor r' = votedFor r;
}.

(** ** Durable state *)
Lemma persistLocked_spec hs es r r' :
  storage_ok (storage r) -> save_pre (durable (storage r)) es ->
  persistLocked hs es r = Ok r' ->
  exists st, r' = r <| storage := st |> /\ storage_ok st /\
    durable st = spec_save (durable (storage r)) (if hs then Some (mkHardState (rterm r) (votedFor r)) else None) es.
Proof.
  intros Hok Hpre. unfold persistLocked.
  destruct (save_durable (storage r) (if hs then Some (mkHardState (rterm r) (votedFor r)) else None) es Hok Hpre)
    as (st & -> & Hok' & Hd).
  intros [= <-]. by exists st.
Qed.

(** Saving the hard state makes the term and the vote in memory durable. *)
Lemma persist_hs_ok r0 r r' :
  node_ok r0 -> storage r = storage r0 -> rlog r = rlog r0 ->
  persistLocked true [] r = Ok r' ->
  exists st, r' = r <| storage := st |> /\ node_ok r' /\
    d_snap (durable st) = d_snap (durable (storage r)) /\ d_entries (durable st) = d_entries (durable (storage r)).
Proof.
  intros [Hok _ Hlast Hwf Hdwf Hsn] Hs Hl Hp. rewrite <- Hs in *. rewrite <- Hl in *.
  destruct (persistLocked_spec true [] r r' Hok I Hp) as (st & -> & Hok' & Hd).
  exists st. split_and!; [done| |by rewrite Hd..]. split; cbn; rewrite ?Hd; done.
Qed.

(** Appending entries to the log and saving them keeps the invariant. *)
Lemma persist_entries_ok l es r r' :
  node_ok r -> log_wf l -> contiguous (lastIndex l) es -> lastIndex l <= lastIndex (rlog r) -> snapIndex l = snapIndex (rlog r) ->
  persistLocked false es (r <| rlog := l <| entries := entries l ++ es |> |>) = Ok r' ->
  exists st, r' = r <| rlog := l <| entries := entries l ++ es |> |> <| storage := st |> /\ node_ok r' /\
    durable st = spec_save (durable (storage r)) None es.
Proof.
  intros [Hok Hhs Hlast _ Hdwf Hsn] Hwf Hc Hle Hls Hp.
  assert (Hpre : save_pre (durable (storage r)) es).
  { destruct es as [|e es]; [done|]. pose proof Hc as Hc'. apply contiguous_cons in Hc' as [He _].
    split; [lia|]. by replace (ent_Index e - 1) with (lastIndex l) by lia. }
  apply persistLocked_spec in Hp as (st & -> & Hok' & Hd); [|done|done]. cbn in Hd.
  exists st. split_and!; [done| |done].
  split; cbn [storage rlog rterm votedFor set_field]; [done|cbn; by rewrite Hd| |by apply contiguous_app|rewrite Hd; by apply spec_save_wf|cbn; by rewrite Hd, Hls].
  cbn. rewrite Hd, spec_save_last by done. rewrite lastIndex_append. destruct es as [|e es]; cbn [head].
  - rewrite lenN_nil. lia.
  - apply contiguous_cons in Hc as [He _]. unfold d_lastIndex in *.
    destruct (N.leb_spec (ent_Index e - 1 + lenN (e :: es)) (d_snapIndex (durable (storage r)))); lia.
Qed.

(** A change of fields that the invariant does not read. *)
Lemma node_ok_ext r r' :
  node_ok r -> storage r' = storage r -> rterm r' = rterm r -> votedFor r' = votedFor r -> rlog r' = rlog r ->
  node_ok r'.
Proof. intros [] Hs Ht Hv Hl. split; rewrite ?Hs, ?Ht, ?Hv, ?Hl; done. Qed.

(** What a change of term, vote or role must not touch. *)
Definition rest (r : Raft) :=
  (cfg r, others r, quorum r, rlog r, commitIndex r, lastApplied r, nextIndex r, matchIndex r, noopIndex r,
   pendingSnapshot r, stopped r, machine r, campaigning r,
   d_snap (durable (storage r)), d_entries (durable (storage r))).

Lemma rest_same_cfg r r' : rest r' = rest r -> same_cfg r r'.
Proof.
  unfold rest, same_cfg, d_snapIndex. intros [= -> -> -> ? ? ? ? ? ? ? ? ? ? -> _]. by split_and!.
Qed.

(** ** Stepping down *)
Lemma becomeFollower_facts env t leader r r' :
  node_ok r -> becomeFollowerLocked env t leader r = Ok r' ->
  node_ok r' /\ rest r' = rest r /\ rterm r' = N.max (rterm r) t /\
  votedFor r' = (if rterm r <? t then "" else votedFor r) /\ state r' = Follower /\ leaderID r' = leader.
Proof.
  intros Hok. unfold becomeFollowerLocked. intros Hb. apply bind_Ok in Hb as (r1 & Hr1 & Hb).
  assert (H1' : node_ok r1 /\ rest r1 = rest r /\ rterm r1 = N.max (rterm r) t /\
            votedFor r1 = (if rterm r <? t then "" else votedFor r)).
  { destruct (N.ltb_spec (rterm r) t) as [Hlt|Hge].
    - apply (persist_hs_ok r) in Hr1 as (st & -> & Hok1 & Hd1 & Hd2); [|done..].
      unfold rest. cbn. rewrite Hd1, Hd2. split_and!; try done. cbn. lia.
    - inv_ok. split_and!; try done. lia. }
  clear Hr1. destruct H1' as (Hok1 & Hrest & Ht & Hv). apply bind_Ok in Hb as (r2 & Hr2 & Hb). inv_ok.
  assert (H2' : node_ok r2 /\ rest r2 = rest r /\ rterm r2 = rterm r1 /\ votedFor r2 = votedFor r1 /\
            state r2 = Follower /\ leaderID r2 = leader).
  { repeat case_match; inv_ok; (split_and!; [by eapply node_ok_ext|by rewrite <- Hrest|done..]). }
  destruct H2' as (Hok2 & Hrest2 & Ht2 & Hv2 & Hst & Hl). rewrite <- Ht, <- Hv, <- Ht2, <- Hv2, <- Hrest2.
  match goal with |- context [if ?b then notifyStateChangeLocked _ else _] => generalize b end.
  intros []; split_and!; try done; by eapply node_ok_ext.
Qed.

(** Adopting the higher term of a message, as every handler does first. *)
Lemma stepDown_role env t leader r r' :
  node_ok r -> becomeFollowerLocked env t leader r = Ok r' ->
  node_ok r' /\ same_cfg r r' /\ role_step r r'.
Proof.
  intros Hok Hb. destruct (becomeFollower_facts _ _ _ _ _ Hok Hb) as (Hok' & Hrest & Ht & Hv & Hst & _).
  split_and!; [done|by apply rest_same_cfg|].
  destruct (N.ltb_spec (rterm r) t).
  - apply role_newterm; [lia|done|done].
  - apply role_stay; [lia|done|by right].
Qed.

(** ** Every critical section keeps the invariant and changes the role lawfully *)
Definition safe_step (r r' : Raft) : Prop := node_ok r' /\ same_cfg r r' /\ role_step r r'.

(** Steps that leave term, vote and role alone. *)
Definition same_role (r r' : Raft) : Prop :=
  rterm r' = rterm r /\ votedFor r' = votedFor r /\ state r' = state r.

Lemma safe_step_then r r1 r2 :
  safe_step r r1 -> node_ok r2 -> same_cfg r1 r2 -> same_role r1 r2 -> safe_step r r2.
Proof.
  intros (_ & Hc & Hr) Hok Hc2 (Ht & Hv & Hs). split_and!; [done|by eapply same_cfg_trans|].
  destruct Hr; [apply role_stay|apply role_newterm|apply role_campaign|apply role_grant];
    rewrite ?Ht, ?Hv, ?Hs; done.
Qed.

Lemma safe_step_same r r' : node_ok r' -> same_cfg r r' -> same_role r r' -> safe_step r r'.
Proof. intros ? ? (Ht & Hv & Hs). split_and!; [done..|]. apply role_stay; auto. Qed.

Lemma safe_step_refl r : node_ok r -> safe_step r r.
Proof. intros. by apply safe_step_same. Qed.

(** A step that only touches fields outside the invariant. *)
Ltac frame_step Hok := apply safe_step_same; [by eapply node_ok_ext; [exact Hok|..]|done|done].
Ltac frame_then Hsafe := eapply safe_step_then; [exact Hsafe|by eapply node_ok_ext; [exact (proj1 Hsafe)|..]|done|done].

Lemma becomeFollower_safe env t leader r r' :
  node_ok r -> becomeFollowerLocked env t leader r = Ok r' -> safe_step r r'.
Proof. intros. by eapply stepDown_role. Qed.

(** The guard [if cond { becomeFollowerLocked(...) }] of the handlers. *)
Lemma stepDown_if_safe env (b : bool) t leader r r' :
  node_ok r -> (if b then becomeFollowerLocked env t leader r else Ok r) = Ok r' -> safe_step r r'.
Proof. intros Hok. destruct b; [by apply becomeFollower_safe|]. intros [= <-]. by apply safe_step_refl. Qed.

(** *** Commit index *)
Lemma advanceCommit_spec r r' :
  advanceCommitLocked r = Ok r' ->
  r' = r \/
  exists c, r' = r <| commitIndex := c |> /\ commitCandidate r = Ok c /\ commitIndex r < c /\
    term0 (rlog r) c = rterm r.
Proof.
  unfold advanceCommitLocked. intros Ha. apply bind_Ok in Ha as (c & Hc & Ha).
  destruct (N.leb_spec c (commitIndex r)); [inv_ok; by left|].
  destruct (N.eqb_spec (term0 (rlog r) c) (rterm r)); cbn in Ha; inv_ok; [right; by exists c|by left].
Qed.

Lemma advanceCommit_safe r r1 r' : safe_step r r1 -> advanceCommitLocked r1 = Ok r' -> safe_step r r'.
Proof. intros Hs Ha. apply advanceCommit_spec in Ha as [->|(c & -> & _)]; [done|]. frame_then Hs. Qed.

(** *** Elections *)
Lemma campaign_elect_spec env r r' pc :
  node_ok r -> campaign_elect env r = Ok (r', pc) ->
  safe_step r r' /\ rterm r' = rterm r + 1 /\ votedFor r' = ID (cfg r) /\ state r' = Candidate /\
  rlog r' = rlog r /\ pc = Voting (voteRequestLocked (rterm r') false r').
Proof.
  intros Hok. unfold campaign_elect. intros He. apply bind_Ok in He as (r1 & Hp & He). inv_ok.
  apply (persist_hs_ok r) in Hp as (st & -> & Hok1 & Hsn & _); [|done..].
  split_and!; try done. split_and!; [by eapply node_ok_ext|by apply same_cfg_snap|].
  by apply role_campaign.
Qed.

Lemma leaderState_spec env next r :
  node_ok r ->
  node_ok (leaderState env next r) /\ same_cfg r (leaderState env next r) /\
  rterm (leaderState env next r) = rterm r /\ votedFor (leaderState env next r) = votedFor r /\
  state (leaderState env next r) = Leader /\ rlog (leaderState env next r) = rlog r /\
  storage (leaderState env next r) = storage r.
Proof. intros Hok. split_and!; try done. by apply (node_ok_ext r). Qed.

Lemma becomeLeader_spec env r r' :
  node_ok r -> state r = Candidate -> becomeLeaderLocked env r = Ok r' ->
  node_ok r' /\ same_cfg r r' /\ lead_step r r' /\
  rlog r' = (rlog r) <| entries := entries (rlog r) ++ [mkEntry (lastIndex (rlog r) + 1) (rterm r) ENTRY_NOOP []] |> /\
  durable (storage r') = spec_save (durable (storage r)) None [mkEntry (lastIndex (rlog r) + 1) (rterm r) ENTRY_NOOP []].
Proof.
  intros Hok Hcand. unfold becomeLeaderLocked.
  destruct (leaderState_spec env (lastIndex (rlog r) + 1) r Hok) as (Hok0 & Hcfg0 & Ht0 & Hv0 & Hs0 & Hl0 & Hst0).
  revert Hok0 Hcfg0 Ht0 Hv0 Hs0 Hl0 Hst0. generalize (leaderState env (lastIndex (rlog r) + 1) r) as r0.
  intros r0 Hok0 Hcfg0 Ht0 Hv0 Hs0 Hl0 Hst0. cbn zeta. rewrite Hl0, Ht0. intros Hb.
  apply bind_Ok in Hb as (l & Hl & Hb). apply append_Ok in Hl as [Hc ->].
  apply bind_Ok in Hb as (r1 & Hp & Hb). apply bind_Ok in Hb as (r2 & Ha & Hb). inv_ok.
  apply (persist_entries_ok (rlog r) _ r0) in Hp as (st & -> & Hok1 & Hd); [|done|apply Hok|done|by rewrite Hl0|by rewrite Hl0].
  rewrite Hst0 in Hd.
  match type of Ha with advanceCommitLocked ?rr = _ => assert (H1' : node_ok rr /\ same_cfg r rr) end.
  { split; [by apply (node_ok_ext _ _ Hok1)|]. eapply same_cfg_trans; [exact Hcfg0|].
    apply same_cfg_snap; [done..|]. cbn. by rewrite Hd, Hst0. }
  destruct H1' as [Hok2 Hc2].
  apply advanceCommit_spec in Ha as [->|(c & -> & _)]; (split_and!; [by apply (node_ok_ext _ _ Hok2)|done|done|done|done]).
Qed.

Lemma campaign_begin_safe env skip r r' pc :
  node_ok r -> campaign_begin env skip r = Ok (r', pc) ->
  safe_step r r' /\
  match pc with
  | PreVoting req => rv_PreVote req = true /\ rv_CandidateId req = ID (cfg r')
  | Voting req => rv_PreVote req = false /\ rv_Term req = rterm r' /\ rv_CandidateId req = ID (cfg r') /\
      votedFor r' = ID (cfg r')
  | Exiting => True
  end.
Proof.
  intros Hok. unfold campaign_begin. case_match; intros Hb; [inv_ok; by split; [apply safe_step_refl|]|].
  assert (Hs : safe_step r (resetElectionTimerLocked env r)) by frame_step Hok.
  destruct skip; [|inv_ok; by split].
  apply campaign_elect_spec in Hb as ((Hok' & Hc & Hr) & Ht & Hv & Hst & _ & ->); [|apply Hs].
  split; [split_and!; [done|done|by apply role_campaign]|]. cbn. by destruct Hc as (-> & _).
Qed.

Lemma campaign_prevoted_safe env req won r r' pc :
  node_ok r -> campaign_prevoted env req won r = Ok (r', pc) ->
  safe_step r r' /\
  match pc with
  | PreVoting _ => False
  | Voting req => rv_PreVote req = false /\ rv_Term req = rterm r' /\ rv_CandidateId req = ID (cfg r') /\
      votedFor r' = ID (cfg r')
  | Exiting => True
  end.
Proof.
  intros Hok. unfold campaign_prevoted. case_match; [intros Hb; inv_ok; by split; [apply safe_step_refl|]|].
  case_match; intros Hb; [inv_ok; by split; [apply safe_step_refl|]|].
  apply campaign_elect_spec in Hb as ((Hok' & Hc & Hr) & Ht & Hv & Hst & _ & ->); [|done].
  split; [done|]. cbn. by destruct Hc as (-> & _).
Qed.

(** A campaign ends in leadership only if it won, as the candidate of its term. *)
Lemma campaign_voted_safe env req won r r' pc :
  node_ok r -> campaign_voted env req won r = Ok (r', pc) ->
  pc = Exiting /\ node_ok r' /\ same_cfg r r' /\
  (r' = r \/ won = true /\ rterm r = rv_Term req /\ lead_step r r').
Proof.
  intros Hok. unfold campaign_voted. destruct won; cbn [negb].
  2: { intros Hb; inv_ok. split_and!; [done|done|done|by left]. }
  destruct (negb (stopped r) && bool_decide (state r = Candidate) && (rterm r =? rv_Term req)) eqn:Hg.
  - apply andb_prop in Hg as [[_ Hg]%andb_prop Ht%N.eqb_eq]. apply bool_decide_eq_true in Hg.
    intros Hb. apply bind_Ok in Hb as (r1 & Hl & Hb). inv_ok.
    apply becomeLeader_spec in Hl as (Hok' & Hc & Hl & _); [|done..]. split_and!; [done..|by right].
  - intros Hb; inv_ok. split_and!; [done..|by left].
Qed.

Lemma vote_answer_safe env resp r r' b :
  node_ok r -> vote_answer env resp r = Ok (r', b) -> safe_step r r' /\ b = rvr_VoteGranted resp.
Proof.
  intros Hok Hb. apply bind_Ok in Hb as (r1 & Hd & Hb). inv_ok. split; [|done]. by eapply stepDown_if_safe.
Qed.

(** Answering a vote request: a pre-vote changes nothing; a granted vote is in
    memory and on disk, for the term of the request, before the answer leaves. *)
Lemma HandleRequestVote_safe env req r r' resp :
  node_ok r -> rv_CandidateId req <> "" -> HandleRequestVote env req r = Ok (r', resp) ->
  safe_step r r' /\ (rv_PreVote req = true -> r' = r) /\ rvr_Term resp = rterm r' /\
  (rvr_VoteGranted resp = true -> rv_PreVote req = false ->
   rterm r' = rv_Term req /\ votedFor r' = rv_CandidateId req /\
   logUpToDateLocked (rv_LastLogIndex req) (rv_LastLogTerm req) r = true /\ rlog r' = rlog r).
Proof.
  intros Hok Hne. unfold HandleRequestVote. destruct (rv_PreVote req) eqn:Hpre.
  { intros Hb; inv_ok. split_and!; try done; [by apply safe_step_refl|].
    unfold handlePreVoteLocked. by repeat case_match. }
  destruct (N.ltb_spec (rv_Term req) (rterm r)) as [Hlt|Hge].
  { intros Hb; inv_ok. split_and!; try done. by apply safe_step_refl. }
  intros Hb. apply bind_Ok in Hb as (r1 & Hd & Hb).
  assert (H1' : safe_step r r1 /\ rterm r1 = rv_Term req /\ rlog r1 = rlog r /\
            (rterm r < rv_Term req -> state r1 = Follower) /\ (rterm r = rv_Term req -> r1 = r)).
  { destruct (N.ltb_spec (rterm r) (rv_Term req)); [|inv_ok; split_and!; [by apply safe_step_refl|lia|done|lia|done]].
    pose proof (becomeFollower_safe _ _ _ _ _ Hok Hd) as Hs.
    apply becomeFollower_facts in Hd as (_ & Hrest & Ht & _ & Hst & _); [|done].
    split_and!; [done|lia|unfold rest in Hrest; naive_solver|done|lia]. }
  destruct H1' as (Hs1 & Ht1 & Hl1 & Hst1 & Heq1).
  destruct (negb _ || negb _) eqn:Hg.
  { inv_ok. by split_and!. }
  apply orb_false_iff in Hg as [Hcan%negb_false_iff Hup%negb_false_iff].
  apply bind_Ok in Hb as (r2 & Hp & Hb). inv_ok.
  apply (persist_hs_ok r1) in Hp as (st & -> & Hok2 & Hsn & _); [|apply Hs1|done..].
  split_and!; try done.
  2: { intros _ _. split_and!; try done. revert Hup. unfold logUpToDateLocked. by rewrite Hl1. }
  destruct Hs1 as (_ & Hc & _).
  split_and!; [by eapply node_ok_ext|eapply same_cfg_trans; [exact Hc|by apply same_cfg_snap]|].
  apply role_grant; cbn; [lia|done| |].
  - intros He. assert (r1 = r) as -> by (apply Heq1; congruence).
    by apply orb_true_iff in Hcan as [?%bool_decide_eq_true|?%bool_decide_eq_true]; [left|right].
  - destruct (decide (rterm r = rv_Term req)) as [He|]; [left|right; apply Hst1; lia]. by rewrite (Heq1 He).
Qed.

Lemma HandleTimeoutNow_safe req r r' resp b :
  node_ok r -> HandleTimeoutNow req r = (r', resp, b) -> safe_step r r'.
Proof.
  intros Hok. unfold HandleTimeoutNow. case_match; intros [= <- _ _]; [frame_step Hok|by apply safe_step_refl].
Qed.

Lemma tick_safe env r r' b : node_ok r -> tick env r = Ok (r', b) -> safe_step r r'.
Proof.
  intros Hok. unfold tick. case_match; [intros Hb; inv_ok; by apply safe_step_refl|].
  case_match; case_match; intros Hb.
  - apply bind_Ok in Hb as (r1 & Hd & Hb). inv_ok. by eapply becomeFollower_safe.
  - inv_ok. by apply safe_step_refl.
  - inv_ok. frame_step Hok.
  - inv_ok. by apply safe_step_refl.
Qed.

(** *** Replication *)
Lemma recordAck_safe peer sentAt r : node_ok r -> safe_step r (recordAckLocked peer sentAt r).
Proof. intros Hok. unfold recordAckLocked. case_match; [frame_step Hok|by apply safe_step_refl]. Qed.

Lemma replicateOnce_recv_safe env peer t req sentAt resp r r' b :
  node_ok r -> replicateOnce_recv env peer t req sentAt resp r = Ok (r', b) -> safe_step r r'.
Proof.
  intros Hok. unfold replicateOnce_recv. case_match; intros Hb.
  { apply bind_Ok in Hb as (r1 & Hd & Hb). inv_ok. by eapply becomeFollower_safe. }
  case_match; [inv_ok; by apply safe_step_refl|].
  pose proof (recordAck_safe peer sentAt r Hok) as Hs. revert Hs Hb.
  generalize (recordAckLocked peer sentAt r) as r1. intros r1 Hs Hb. destruct (aer_Success resp).
  - apply bind_Ok in Hb as (r2 & Ha & Hb). inv_ok. case_match; [|by inv_ok].
    eapply advanceCommit_safe; [|exact Ha]. frame_then Hs.
  - inv_ok. frame_then Hs.
Qed.

(** What the search for new entries leaves of the log: a prefix, and the whole
    of it when nothing is left to append. *)
Lemma findFresh_spec es : forall l l' fresh,
  findFresh l es = Ok (l', fresh) ->
  exists k, l' = l <| entries := take k (entries l) |> /\ fresh `suffix_of` es /\ (fresh = [] -> l' = l).
Proof.
  induction es as [|e es IH]; intros l l' fresh; cbn.
  - intros [= <- <-]. exists (length (entries l)). rewrite take_ge by lia. by destruct l.
  - destruct (term l (ent_Index e)) as [t|].
    + destruct (t =? ent_Term e).
      * intros Hf. destruct (IH _ _ _ Hf) as (k & -> & Hsuf & Heq). exists k. split_and!; [done|by apply suffix_cons_r|done].
      * intros Hf. apply bind_Ok in Hf as (l1 & Ht & Hf). inv_ok. revert Ht. unfold truncateFrom.
        case_match; [done|]. case_match; intros Ht; inv_ok.
        -- exists (length (entries l')). rewrite take_ge by lia. by destruct l'.
        -- by eexists.
    + intros [= <- <-]. exists (length (entries l)). rewrite take_ge by lia. by destruct l.
Qed.

Lemma appendVerified_safe req es r r' resp :
  node_ok r -> appendVerified req es r = Ok (r', resp) ->
  node_ok r' /\ same_cfg r r' /\ same_role r r'.
Proof.
  intros Hok. unfold appendVerified. intros Hb. apply bind_Ok in Hb as ([l fresh] & Hf & Hb).
  apply findFresh_spec in Hf as (k & -> & _ & Heq). apply bind_Ok in Hb as (r1 & Hp & Hb).
  assert (H1' : node_ok r1 /\ same_cfg r r1 /\ same_role r r1).
  { destruct fresh as [|e fresh].
    - inv_ok. rewrite (Heq eq_refl). split_and!; try done. by apply (node_ok_ext r).
    - apply bind_Ok in Hp as (l1 & Ha & Hp). apply append_Ok in Ha as [Hc ->].
      apply persist_entries_ok in Hp as (st & -> & Hok1 & Hd).
      + split_and!; [done| |done]. apply same_cfg_snap; [done..|]. cbn. by rewrite Hd.
      + done.
      + apply contiguous_take, Hok.
      + done.
      + unfold lastIndex. cbn. rewrite lenN_take. lia.
      + done. }
  clear Hp. destruct H1' as (Hok1 & Hc1 & Hr1). inv_ok. case_match; [|done].
  split_and!; [by apply (node_ok_ext r1)|done..].
Qed.

Lemma HandleAppendEntries_safe env req r r' resp :
  node_ok r -> HandleAppendEntries env req r = Ok (r', resp) -> safe_step r r'.
Proof.
  intros Hok. unfold HandleAppendEntries. case_match; [intros Hb; inv_ok; by apply safe_step_refl|].
  intros Hb. apply bind_Ok in Hb as (r1 & Hd & Hb). apply stepDown_if_safe in Hd as Hs; [|done]. clear Hd.
  revert Hb. set (r2 := resetElectionTimerLocked _ _). assert (Hs2 : safe_step r r2) by frame_then Hs.
  clearbody r2. clear Hs r1. case_match; [intros Hb; inv_ok; done|].
  destruct (if ae_PrevLogIndex req <? _ then _ else _) as [prevIndex es].
  case_match; [intros Hb; inv_ok; done|]. case_match; intros Hb; [by inv_ok|].
  apply appendVerified_safe in Hb as (Hok' & Hc' & Hr); [|apply Hs2]. by apply (safe_step_then r r2).
Qed.

Lemma sendSnapshot_recv_safe env peer t meta sentAt resp r r' b :
  node_ok r -> sendSnapshot_recv env peer t meta sentAt resp r = Ok (r', b) -> safe_step r r'.
Proof.
  intros Hok. unfold sendSnapshot_recv. case_match; intros Hb.
  { apply bind_Ok in Hb as (r1 & Hd & Hb). inv_ok. by eapply becomeFollower_safe. }
  case_match; [inv_ok; by apply safe_step_refl|].
  pose proof (recordAck_safe peer sentAt r Hok) as Hs. revert Hs Hb.
  generalize (recordAckLocked peer sentAt r) as r1. intros r1 Hs Hb.
  apply bind_Ok in Hb as (r2 & Ha & Hb). inv_ok.
  assert (Hs2 : safe_step r r2).
  { case_match; [|by inv_ok]. eapply advanceCommit_safe; [|exact Ha]. frame_then Hs. }
  frame_then Hs2.
Qed.

(** *** Snapshots *)
Lemma spec_snapshot_index (d : Durable) i t data discard :
  d_snapIndex (spec_snapshot d i t data discard) = N.max (d_snapIndex d) i.
Proof.
  unfold spec_snapshot. destruct (d_snap d) as [[[j t0] data0]|] eqn:Hd; unfold d_snapIndex; rewrite Hd; cbn; [|lia].
  destruct (N.leb_spec i j); cbn; rewrite ?Hd; lia.
Qed.

Lemma spec_snapshot_last (d : Durable) i t data (discard : bool) :
  (if discard then i else d_lastIndex d) <= d_lastIndex (spec_snapshot d i t data discard) /\
  i <= d_lastIndex (spec_snapshot d i t data discard).
Proof.
  unfold spec_snapshot. destruct (bool_decide _ && _) eqn:Hb.
  - apply andb_prop in Hb as [_ Hb%N.leb_le]. unfold d_lastIndex. destruct discard; lia.
  - apply snapshot_newer in Hb. unfold d_lastIndex. cbn. destruct discard; autorewrite with edgekv; lia.
Qed.

Lemma compactTo_wf l i t : log_wf l -> log_wf (compactTo l i t).
Proof.
  unfold log_wf, compactTo. intros Hc. destruct (N.leb_spec i (snapIndex l)); [done|]. cbn.
  case_match; [apply contiguous_nil|]. apply (contiguous_drop _ _ (N.to_nat (i - snapIndex l))) in Hc.
  by replace (snapIndex l + N.of_nat (N.to_nat (i - snapIndex l))) with i in Hc by lia.
Qed.

Lemma compactTo_last l i t : lastIndex (compactTo l i t) <= N.max (lastIndex l) i.
Proof.
  unfold compactTo. destruct (N.leb_spec i (snapIndex l)); [lia|]. unfold lastIndex. cbn.
  destruct (N.leb_spec (snapIndex l + lenN (entries l)) i); autorewrite with edgekv; lia.
Qed.

(** Saving a snapshot, whoever does it. *)
Lemma SaveSnapshot_ok r i t data discard st b :
  node_ok r -> SaveSnapshot (storage r) (mkSnapshotMeta i t 0) data discard = (st, b) ->
  b = true /\ storage_ok st /\ durable st = spec_snapshot (durable (storage r)) i t data discard.
Proof.
  intros Hok Hsv. destruct (snapshot_durable (storage r) (mkSnapshotMeta i t 0) data discard) as (st' & He & Hok' & Hd);
    [apply Hok|]. rewrite He in Hsv. by simplify_eq.
Qed.

Lemma compactTo_snap l i t : snapIndex (compactTo l i t) = N.max (snapIndex l) i.
Proof. unfold compactTo. destruct (N.leb_spec i (snapIndex l)); cbn; lia. Qed.

(** A log that ends no later than the durable one may follow a saved snapshot. *)
Lemma node_ok_snapshot r i t data discard st l :
  node_ok r -> storage_ok st -> durable st = spec_snapshot (durable (storage r)) i t data discard ->
  log_wf l -> lastIndex l <= N.max (if discard then 0 else lastIndex (rlog r)) i -> snapIndex l <= N.max (snapIndex (rlog r)) i ->
  forall r', storage r' = st -> rlog r' = l -> rterm r' = rterm r -> votedFor r' = votedFor r ->
    cfg r' = cfg r -> others r' = others r -> quorum r' = quorum r ->
  node_ok r' /\ same_cfg r r'.
Proof.
  intros [Hst Hhs Hlast Hwf Hdwf Hsn] Hst' Hd Hl Hle Hsl r' Es El Et Ev Ec Eo Eq.
  destruct (spec_snapshot_last (durable (storage r)) i t data discard) as [Hs1 Hs2]. split.
  - split; rewrite ?Es, ?El, ?Et, ?Ev; [done| | |done|rewrite Hd; by apply spec_snapshot_wf|rewrite Hd, spec_snapshot_index; lia].
    + rewrite Hd, <- Hhs. unfold spec_snapshot. by destruct (bool_decide _ && _).
    + rewrite Hd. destruct discard; lia.
  - unfold same_cfg. rewrite Es, Hd, spec_snapshot_index. split_and!; [done..|lia].
Qed.

Lemma HandleInstallSnapshot_safe env req r r' resp :
  node_ok r -> HandleInstallSnapshot env req r = Ok (r', resp) -> safe_step r r'.
Proof.
  intros Hok. unfold HandleInstallSnapshot. case_match; [intros Hb; inv_ok; by apply safe_step_refl|].
  intros Hb. apply bind_Ok in Hb as (r1 & Hd & Hb). apply stepDown_if_safe in Hd as Hs; [|done]. clear Hd.
  revert Hb. set (r2 := r1 <| lastLeaderContact := _ |>). assert (Hs2 : safe_step r r2) by frame_then Hs.
  clearbody r2. clear Hs r1. case_match; [intros Hb; inv_ok; frame_then Hs2|].
  destruct (SaveSnapshot _ _ _ _) as [st b] eqn:Hsv. pose proof (proj1 Hs2) as Hok2.
  apply SaveSnapshot_ok in Hsv as (-> & Hst & Hd); [|done]. intros Hb. inv_ok.
  set (keep := bool_decide _) in *. clearbody keep.
  match goal with |- safe_step r ?rr => enough (node_ok rr /\ same_cfg r2 rr) as [Hok' Hc'] by by apply (safe_step_then r r2) end.
  eapply (node_ok_snapshot r2 _ _ _ _ st); [exact Hok2|exact Hst|exact Hd| | | |done..].
  - destruct keep; [apply compactTo_wf, Hok2|apply contiguous_nil].
  - destruct keep; cbn; [etrans; [apply compactTo_last|done]|]. unfold lastIndex. cbn. rewrite lenN_nil. lia.
  - destruct keep; cbn; [rewrite compactTo_snap|]; lia.
Qed.

(** *** Proposals *)
Lemma appendProposals_safe batch r r' : node_ok r -> appendProposals batch r = Ok r' -> safe_step r r'.
Proof.
  intros Hok. unfold appendProposals. case_match; [intros Hb; inv_ok; frame_step Hok|].
  intros Hb. apply bind_Ok in Hb as (l & Ha & Hb). apply append_Ok in Ha as [Hc ->].
  apply bind_Ok in Hb as (r1 & Hp & Hb).
  apply persist_entries_ok in Hp as (st & -> & Hok1 & Hd); [|done|apply Hok|done|done|done].
  eapply advanceCommit_safe; [|exact Hb]. apply safe_step_same; [by apply (node_ok_ext _ _ Hok1)| |done].
  apply same_cfg_snap; [done..|]. cbn. by rewrite Hd.
Qed.

(** *** The applier *)
Lemma applier_wake_safe r r' pc : node_ok r -> applier_wake r = Ok (r', pc) -> safe_step r r'.
Proof.
  intros Hok. unfold applier_wake. repeat case_match; intros Hb.
  - inv_ok. by apply safe_step_refl.
  - inv_ok. frame_step Hok.
  - inv_ok. by apply safe_step_refl.
  - apply bind_Ok in Hb as (es & _ & Hb). inv_ok. by apply safe_step_refl.
Qed.

Lemma applier_restore_safe snap r r' pc : node_ok r -> applier_restore snap r = Ok (r', pc) -> safe_step r r'.
Proof. intros Hok Hb. apply bind_Ok in Hb as (sm & _ & Hb). inv_ok. frame_step Hok. Qed.

Lemma applier_apply_safe es r r' pc : node_ok r -> applier_apply es r = Ok (r', pc) -> safe_step r r'.
Proof. intros Hok Hb. apply bind_Ok in Hb as ([sm outs] & _ & Hb). inv_ok. frame_step Hok. Qed.

Lemma answerWaiters_safe ers : forall r, node_ok r -> safe_step r (foldl answerWaiter r ers).
Proof.
  induction ers as [|er ers IH]; intros r Hok; [by apply safe_step_refl|]. cbn.
  assert (Hs : node_ok (answerWaiter r er) /\ same_cfg r (answerWaiter r er) /\ same_role r (answerWaiter r er)).
  { unfold answerWaiter. case_match; [|done]. split_and!; [by apply (node_ok_ext r)|done..]. }
  destruct Hs as (Hok1 & Hc1 & Ht1 & Hv1 & Hs1). destruct (IH _ Hok1) as (Hok2 & Hc2 & Hr2).
  split_and!; [done|by eapply same_cfg_trans|]. destruct Hc1 as (Hcfg & _).
  destruct Hr2; [apply role_stay|apply role_newterm|apply role_campaign|apply role_grant];
    rewrite <- ?Ht1, <- ?Hv1, <- ?Hs1, <- ?Hcfg; done.
Qed.

Lemma applier_finish_safe es results r r' pc :
  node_ok r -> applier_finish es results r = Ok (r', pc) -> safe_step r r'.
Proof.
  intros Hok. unfold applier_finish. pose proof (answerWaiters_safe (zip es results) r Hok) as Hs. revert Hs.
  generalize (foldl answerWaiter r (zip es results)) as r1. intros r1 Hs. case_match; [|done].
  intros Hb. inv_ok. frame_then Hs.
Qed.

Lemma takeSnapshot_save_safe i t data r r' pc :
  node_ok r -> takeSnapshot_save i t data r = (r', pc) ->
  safe_step r r' /\ pc = ApplierCompacting i t /\ i <= d_snapIndex (durable (storage r')).
Proof.
  intros Hok. unfold takeSnapshot_save. destruct (SaveSnapshot _ _ _ _) as [st b] eqn:Hsv.
  apply SaveSnapshot_ok in Hsv as (-> & Hst & Hd); [|done]. intros [= <- <-].
  destruct (node_ok_snapshot r i t data false st (rlog r) Hok Hst Hd (nk_wf _ Hok) ltac:(lia) ltac:(lia)
    (r <| storage := st |>)) as [Hok' Hc']; try done.
  split_and!; [by apply safe_step_same|done|]. cbn. rewrite Hd, spec_snapshot_index. lia.
Qed.

Lemma takeSnapshot_compact_safe i t r :
  node_ok r -> i <= d_snapIndex (durable (storage r)) -> safe_step r (takeSnapshot_compact i t r).
Proof.
  intros [] Hi. apply safe_step_same; [|done|done]. split; cbn; try done; [|by apply compactTo_wf|rewrite compactTo_snap; lia].
  etrans; [apply compactTo_last|]. unfold d_lastIndex in *. lia.
Qed.

(** *** Reads, transfer, shutdown *)
Lemma confirmLeadership_begin_safe env r r' out :
  node_ok r -> confirmLeadership_begin env r = (r', out) -> safe_step r r'.
Proof.
  intros Hok. unfold confirmLeadership_begin. repeat case_match; intros [= <- _]; [by apply safe_step_refl..|].
  frame_step Hok.
Qed.

Lemma transfer_begin_safe env target r r' out :
  node_ok r -> transfer_begin env target r = (r', out) -> safe_step r r'.
Proof.
  intros Hok. unfold transfer_begin. repeat case_match; intros [= <- _]; [by apply safe_step_refl..|].
  frame_step Hok.
Qed.

Lemma transfer_cleanup_safe t r : node_ok r -> safe_step r (transfer_cleanup t r).
Proof. intros Hok. unfold transfer_cleanup. case_match; [frame_step Hok|by apply safe_step_refl]. Qed.

Lemma Stop_safe r : node_ok r -> safe_step r (Stop r).
Proof. intros Hok. unfold Stop. case_match; [by apply safe_step_refl|frame_step Hok]. Qed.

(** *** Recovery: a replica starts from exactly what is durable *)
Lemma New_spec c st sm r :
  storage_ok st -> New c st sm = Ok (inl r) ->
  exists c', setDefaults c = Some c' /\ cfg r = c' /\
  rlog r = d_log (durable st) /\ mkHardState (rterm r) (votedFor r) = hardState (durable st) /\
  state r = Follower /\ leaderID r = "" /\ commitIndex r = d_snapIndex (durable st) /\ lastApplied r = commitIndex r /\
  others r = filter (fun p => p <> ID c') (Peers c') /\ quorum r = (length (Peers c') / 2 + 1)%nat /\
  waiters r = ∅ /\ pendingSnapshot r = None /\ campaigning r = false /\ stopped r = false /\
  storage_ok (storage r) /\ durable (storage r) = durable st.
Proof.
  intros Hst. unfold New. destruct (setDefaults c) as [c'|] eqn:Hc; [|done].
  destruct (load_durable st Hst) as (l & st' & -> & Hl & Hd & Hok).
  destruct (match ld_HardState l with Some hs => _ | None => _ end) as [t v] eqn:Ehs.
  assert (Hhs : mkHardState t v = hardState (durable st)).
  { rewrite <- Hl. unfold hardState, durable_of. cbn. destruct (ld_HardState l) as [[]|]; by simplify_eq/=. }
  destruct (match ld_SnapshotMeta l with Some _ => _ | None => _ end) as [[l0 sm']|] eqn:Esn; [|done].
  intros Hb. apply bind_Ok in Hb as (l1 & Ha & Hb). apply append_Ok in Ha as [_ ->]. inv_ok.
  assert (Hl0 : l0 = mkLog (d_snapIndex (durable st)) (d_snapTerm (durable st)) []).
  { rewrite <- Hl. unfold durable_of, d_snapIndex, d_snapTerm. cbn.
    destruct (ld_SnapshotMeta l) as [m|]; [|by simplify_eq/=]. cbn in Esn. destruct (sm_restore _ _); by simplify_eq/=. }
  subst l0. exists c'. split_and!; try done. cbn. unfold d_log. by rewrite <- Hl.
Qed.

Lemma New_ok c st sm r :
  storage_ok st -> log_wf (d_log (durable st)) -> New c st sm = Ok (inl r) -> node_ok r.
Proof.
  intros Hst Hwf Hn. apply New_spec in Hn as (c' & _ & _ & Hl & Hhs & _ & _ & _ & _ & _ & _ & _ & _ & _ & _ & Hok & Hd); [|done].
  split; rewrite ?Hd, ?Hl; done.
Qed.

End Facts.
