(* ===== verification/Cluster.v ===== *)
(** * A group of replicas and the network between them

    Each node is a replica ([Raft]) with the goroutines that are between two of
    its critical sections: the campaign, the applier, replication rounds, snapshot
    transfers, leadership transfers. A step of the group is one critical section
    of one node, the progress of its clock, or a crash and restart from what
    its storage holds. The network is the list of every message ever sent, and a
    step may deliver any of them to its addressee, so messages can be lost,
    delayed, duplicated and reordered; an RPC answer carries the request it
    answers, as the goroutine that waits for it knows it.

    The campaign goroutine is matched with answers by the value of its
    request, which is at least as permissive as the code, where the answer comes
    back on the call that sent it.

    One behaviour of the transport is relied on: a call whose context is already
    cancelled sends nothing. [sendSnapshot] reads the snapshot without the
    lock, and stepping down cancels the context of its term, so a snapshot is
    sent only if the node still led that term when it was read. *)

From S2P Require Import Prelude Types RaftLog Storage Raft.

(** ** Messages *)
Inductive payload :=
| MVote (req : RequestVoteRequest)
| MVoteResp (req : RequestVoteRequest) (resp : RequestVoteResponse)
| MAppend (sentAt : Z) (req : AppendEntriesRequest)
| MAppendResp (sentAt : Z) (req : AppendEntriesRequest) (resp : AppendEntriesResponse)
| MSnap (sentAt : Z) (meta : SnapshotMeta) (req : InstallSnapshotRequest)
| MSnapResp (sentAt : Z) (meta : SnapshotMeta) (req : InstallSnapshotRequest) (resp : InstallSnapshotResponse)
| MTimeoutNow (req : TimeoutNowRequest).

Record Msg := mkMsg {
  m_src : string;
  m_dst : string;
  m_body : payload;
}.

(** ** The campaign goroutine *)
Inductive campThread :=
| CStart (skipPreVote : bool)                               (* started, lock not taken yet *)
| CCollect (pc : campaignPC) (answers : list (string * bool)).  (* collecting the answers of [pc]'s request *)

Section Cluster.
Context {S SM : Type} `{Storage S} `{StateMachine SM}.

(** ** Nodes *)
Record NodeSt := mkNode {
  nd_raft : Raft S SM;
  nd_camp : option campThread;
  nd_applier : applierPC;
  nd_sending : list (string * AppendEntriesRequest);  (* built, not sent yet *)
  nd_snapping : list (string * N);                    (* a snapshot is to be sent, for the leader of that term *)
  nd_transfers : list (N * string);
  nd_clock : Z;
}.

#[global] Instance eta_NodeSt : Eta NodeSt := fun n =>
  mkNode (nd_raft n) (nd_camp n) (nd_applier n) (nd_sending n) (nd_snapping n) (nd_transfers n) (nd_clock n).

Definition env_of (n : NodeSt) (rnd : Z) : Env := mkEnv (nd_clock n) rnd.

(** A fresh process around a replica. *)
Definition boot (env : Env) (r : Raft S SM) : NodeSt :=
  mkNode (Start env r) None ApplierIdle [] [] [] (now env).

(** The request a campaign is collecting answers for, if any. *)
Definition camp_request (pc : campaignPC) : option RequestVoteRequest :=
  match pc with PreVoting req => Some req | Voting req => Some req | Exiting => None end.

(** The requests sent to the peers when a campaign enters a round. A group of
    one asks nobody. *)
Definition camp_messages (r : Raft S SM) (pc : campaignPC) : list Msg :=
  match camp_request pc with
  | None => []
  | Some req => if (quorum r =? 1)%nat then [] else (fun p => mkMsg (ID (cfg r)) p (MVote req)) <$> others r
  end.

(** The applier's critical sections, one per program point. *)
Definition applier_step (pc : applierPC) (r : Raft S SM) : res (Raft S SM * applierPC) :=
  match pc with
  | ApplierIdle => applier_wake r
  | ApplierRestoring snap => applier_restore snap r
  | ApplierRestored snap => Ok (applier_restored snap r, ApplierIdle)
  | ApplierApplying es => applier_apply es r
  | ApplierApplied es results => applier_finish es results r
  | ApplierSnapshotting index => Ok (r, takeSnapshot_serialise index r)
  | ApplierSaving index data => Ok (r, takeSnapshot_term index data r)
  | ApplierSaved index t data => Ok (takeSnapshot_save index t data r)
  | ApplierCompacting index t => Ok (takeSnapshot_compact index t r, ApplierIdle)
  end.

(** ** Steps of one node

    [node_step net n n' out]: with the messages [net] under way, the node goes
    from [n] to [n'] and sends [out]. *)
Inductive node_step (net : list Msg) (n : NodeSt) : NodeSt -> list Msg -> Prop :=
(* time *)
| step_clock t :
    (nd_clock n <= t)%Z -> node_step net n (n <| nd_clock := t |>) []
| step_tick rnd r' started :
    tick (env_of n rnd) (nd_raft n) = Ok (r', started) ->
    node_step net n (n <| nd_raft := r' |> <| nd_camp := if started then Some (CStart false) else nd_camp n |>) []
(* elections *)
| step_campaign_begin rnd skip r' pc :
    nd_camp n = Some (CStart skip) ->
    campaign_begin (env_of n rnd) skip (nd_raft n) = Ok (r', pc) ->
    node_step net n (n <| nd_raft := r' |> <| nd_camp := Some (CCollect pc []) |>) (camp_messages r' pc)
| step_campaign_failed pc req peer answers :
    nd_camp n = Some (CCollect pc answers) -> camp_request pc = Some req ->
    peer ∈ others (nd_raft n) -> peer ∉ answers.*1 ->
    node_step net n (n <| nd_camp := Some (CCollect pc (answers ++ [(peer, false)])) |>) []
| step_vote_answer rnd peer req resp r' granted :
    mkMsg peer (ID (cfg (nd_raft n))) (MVoteResp req resp) ∈ net ->
    vote_answer (env_of n rnd) resp (nd_raft n) = Ok (r', granted) ->
    node_step net n (n <| nd_raft := r' |>) []
| step_vote_counted rnd peer req resp r' granted pc answers :
    mkMsg peer (ID (cfg (nd_raft n))) (MVoteResp req resp) ∈ net ->
    vote_answer (env_of n rnd) resp (nd_raft n) = Ok (r', granted) ->
    nd_camp n = Some (CCollect pc answers) -> camp_request pc = Some req ->
    peer ∈ others (nd_raft n) -> peer ∉ answers.*1 ->
    node_step net n (n <| nd_raft := r' |> <| nd_camp := Some (CCollect pc (answers ++ [(peer, granted)])) |>) []
| step_campaign_prevoted rnd req answers won r' pc :
    nd_camp n = Some (CCollect (PreVoting req) answers) ->
    collectVotes answers.*2 (nd_raft n) = Some won \/ stopped (nd_raft n) = true /\ won = false ->
    campaign_prevoted (env_of n rnd) req won (nd_raft n) = Ok (r', pc) ->
    node_step net n (n <| nd_raft := r' |> <| nd_camp := Some (CCollect pc []) |>) (camp_messages r' pc)
| step_campaign_voted rnd req answers won r' pc :
    nd_camp n = Some (CCollect (Voting req) answers) ->
    collectVotes answers.*2 (nd_raft n) = Some won \/ stopped (nd_raft n) = true /\ won = false ->
    campaign_voted (env_of n rnd) req won (nd_raft n) = Ok (r', pc) ->
    node_step net n (n <| nd_raft := r' |> <| nd_camp := Some (CCollect pc []) |>) []
| step_campaign_exit answers :
    nd_camp n = Some (CCollect Exiting answers) ->
    node_step net n (n <| nd_raft := campaign_exit (nd_raft n) |> <| nd_camp := None |>) []
| step_request_vote rnd src req r' resp :
    mkMsg src (ID (cfg (nd_raft n))) (MVote req) ∈ net ->
    HandleRequestVote (env_of n rnd) req (nd_raft n) = Ok (r', resp) ->
    node_step net n (n <| nd_raft := r' |>) [mkMsg (ID (cfg (nd_raft n))) src (MVoteResp req resp)]
| step_timeout_now src req r' resp started :
    mkMsg src (ID (cfg (nd_raft n))) (MTimeoutNow req) ∈ net ->
    HandleTimeoutNow req (nd_raft n) = (r', resp, started) ->
    node_step net n (n <| nd_raft := r' |> <| nd_camp := if started then Some (CStart true) else nd_camp n |>) []
(* replication *)
| step_replicate ctxErr peer t act :
    peer ∈ others (nd_raft n) ->
    replicateOnce_send ctxErr peer t (nd_raft n) = Ok act ->
    node_step net n
      (match act with
       | SendNothing => n
       | SendAppend req => n <| nd_sending := (peer, req) :: nd_sending n |>
       | SendSnapshot => n <| nd_snapping := (peer, t) :: nd_snapping n |>
       end) []
| step_send_append peer req :
    (peer, req) ∈ nd_sending n ->
    node_step net n n [mkMsg (ID (cfg (nd_raft n))) peer (MAppend (nd_clock n) req)]
| step_send_snapshot peer t req meta :
    (peer, t) ∈ nd_snapping n -> state (nd_raft n) = Leader -> rterm (nd_raft n) = t ->
    sendSnapshot_load t (nd_raft n) = Some (req, meta) ->
    node_step net n n [mkMsg (ID (cfg (nd_raft n))) peer (MSnap (nd_clock n) meta req)]
| step_append_entries rnd src sentAt req r' resp :
    mkMsg src (ID (cfg (nd_raft n))) (MAppend sentAt req) ∈ net ->
    HandleAppendEntries (env_of n rnd) req (nd_raft n) = Ok (r', resp) ->
    node_step net n (n <| nd_raft := r' |>) [mkMsg (ID (cfg (nd_raft n))) src (MAppendResp sentAt req resp)]
| step_append_answer rnd peer sentAt req resp r' again :
    mkMsg peer (ID (cfg (nd_raft n))) (MAppendResp sentAt req resp) ∈ net ->
    replicateOnce_recv (env_of n rnd) peer (ae_Term req) req sentAt resp (nd_raft n) = Ok (r', again) ->
    node_step net n (n <| nd_raft := r' |>) []
| step_install_snapshot rnd src sentAt meta req r' resp :
    mkMsg src (ID (cfg (nd_raft n))) (MSnap sentAt meta req) ∈ net ->
    HandleInstallSnapshot (env_of n rnd) req (nd_raft n) = Ok (r', resp) ->
    node_step net n (n <| nd_raft := r' |>) [mkMsg (ID (cfg (nd_raft n))) src (MSnapResp sentAt meta req resp)]
| step_snapshot_answer rnd peer sentAt meta req resp r' again :
    mkMsg peer (ID (cfg (nd_raft n))) (MSnapResp sentAt meta req resp) ∈ net ->
    sendSnapshot_recv (env_of n rnd) peer (is_Term req) meta sentAt resp (nd_raft n) = Ok (r', again) ->
    node_step net n (n <| nd_raft := r' |>) []
(* proposals, reads, applying, transfer, shutdown *)
| step_propose batch r' :
    batch <> [] -> appendProposals batch (nd_raft n) = Ok r' ->
    node_step net n (n <| nd_raft := r' |>) []
| step_read r' out :
    confirmLeadership_begin (env_of n 0) (nd_raft n) = (r', out) ->
    node_step net n (n <| nd_raft := r' |>) []
| step_applier r' pc :
    applier_step (nd_applier n) (nd_raft n) = Ok (r', pc) ->
    node_step net n (n <| nd_raft := r' |> <| nd_applier := pc |>) []
| step_transfer target r' t :
    transfer_begin (env_of n 0) target (nd_raft n) = (r', inl t) ->
    node_step net n (n <| nd_raft := r' |> <| nd_transfers := (t, target) :: nd_transfers n |>) []
| step_transfer_send t target req :
    (t, target) ∈ nd_transfers n -> transfer_poll t target (nd_raft n) = Some (Some req) ->
    node_step net n n [mkMsg (ID (cfg (nd_raft n))) target (MTimeoutNow req)]
| step_transfer_cleanup t target :
    (t, target) ∈ nd_transfers n ->
    node_step net n (n <| nd_raft := transfer_cleanup t (nd_raft n) |>
                       <| nd_transfers := filter (fun x => x <> (t, target)) (nd_transfers n) |>) []
| step_stop :
    node_step net n (n <| nd_raft := Stop (nd_raft n) |>) [].

(** What a crash can leave on disk: the storage between two critical sections,
    after a handler has recorded a higher term but done nothing else, or with
    only a prefix of the entries a handler was appending. *)
Inductive crash_point (net : list Msg) (n : NodeSt) : S -> Prop :=
| crash_idle : crash_point net n (storage (nd_raft n))
| crash_stepdown env t leader r' :
    becomeFollowerLocked env t leader (nd_raft n) = Ok r' ->
    crash_point net n (storage r')
| crash_append env src sentAt req k r' resp :
    mkMsg src (ID (cfg (nd_raft n))) (MAppend sentAt req) ∈ net ->
    HandleAppendEntries env (req <| ae_Entries := take k (ae_Entries req) |>) (nd_raft n) = Ok (r', resp) ->
    crash_point net n (storage r').

(** ** The group *)
Record Cluster := mkCluster {
  nodes : gmap string NodeSt;
  net : list Msg;
}.

Context (config : string -> Config) (sm0 : SM).

Inductive step (c : Cluster) : Cluster -> Prop :=
| step_node i n n' out :
    nodes c !! i = Some n -> node_step (net c) n n' out ->
    step c (mkCluster (<[i := n']> (nodes c)) (net c ++ out))
| step_restart i n env st r :
    nodes c !! i = Some n -> crash_point (net c) n st ->
    New (config i) st sm0 = Ok (inl r) ->
    step c (mkCluster (<[i := boot env r]> (nodes c)) (net c)).

End Cluster.

Arguments NodeSt S SM : clear implicits.
Arguments Cluster S SM : clear implicits.
