(* ===== verification/Run.v ===== *)
(** * Executable runs of a group

    A scheduler that takes one step of one node, and the lemma that what it
    does is a step of the group. Concrete runs (an election, replication of a
    command, a snapshot sent to a slow follower) are evaluated with it. *)

From S2P Require Import Prelude Types RaftLog Storage Raft Cluster.

(** A choice of the next critical section; [k] picks a message of the network. *)
Inductive action :=
| AClock (t : Z)
| ATick (rnd : Z)
| ABegin (rnd : Z)
| AVote (rnd : Z) (k : nat)
| ACount (rnd : Z) (k : nat)
| APrevoted (rnd : Z)
| AVoted (rnd : Z)
| AExit
| AReplicate (peer : string)
| ASend (k : nat)
| ASendSnapshot (k : nat)
| AAppend (rnd : Z) (k : nat)
| AAppendAnswer (rnd : Z) (k : nat)
| AInstall (rnd : Z) (k : nat)
| ASnapshotAnswer (rnd : Z) (k : nat)
| APropose (batch : list proposal)
| AApplier
| AStop.

Section Run.
Context {S SM : Type} `{Storage S} `{StateMachine SM}.

#[local] Abbreviation NodeSt := (NodeSt S SM).
Implicit Types n : NodeSt.

Definition ok {A} (m : res A) : option A := match m with Ok a => Some a | Panic _ => None end.

(** The [k]-th message, if it is for this node. *)
Definition inbox (net : list Msg) (n : NodeSt) (k : nat) : option (string * payload) :=
  m ← net !! k;
  if decide (m_dst m = ID (cfg (nd_raft n))) then Some (m_src m, m_body m) else None.

Definition exec (net : list Msg) (n : NodeSt) (a : action) : option (NodeSt * list Msg) :=
  let self := ID (cfg (nd_raft n)) in
  match a with
  | AClock t => if decide (nd_clock n <= t)%Z then Some (n <| nd_clock := t |>, []) else None
  | ATick rnd =>
      '(r', started) ← ok (tick (env_of n rnd) (nd_raft n));
      Some (n <| nd_raft := r' |> <| nd_camp := if started : bool then Some (CStart false) else nd_camp n |>, [])
  | ABegin rnd =>
      match nd_camp n with
      | Some (CStart skip) =>
          '(r', pc) ← ok (campaign_begin (env_of n rnd) skip (nd_raft n));
          Some (n <| nd_raft := r' |> <| nd_camp := Some (CCollect pc []) |>, camp_messages r' pc)
      | _ => None
      end
  | AVote rnd k =>
      match inbox net n k with
      | Some (src, MVote req) =>
          '(r', resp) ← ok (HandleRequestVote (env_of n rnd) req (nd_raft n));
          Some (n <| nd_raft := r' |>, [mkMsg self src (MVoteResp req resp)])
      | _ => None
      end
  | ACount rnd k =>
      match inbox net n k, nd_camp n with
      | Some (peer, MVoteResp req resp), Some (CCollect pc answers) =>
          if decide (camp_request pc = Some req /\ peer ∈ others (nd_raft n) /\ peer ∉ answers.*1) then
            '(r', granted) ← ok (vote_answer (env_of n rnd) resp (nd_raft n));
            Some (n <| nd_raft := r' |> <| nd_camp := Some (CCollect pc (answers ++ [(peer, granted)])) |>, [])
          else None
      | _, _ => None
      end
  | APrevoted rnd =>
      match nd_camp n with
      | Some (CCollect (PreVoting req) answers) =>
          won ← collectVotes answers.*2 (nd_raft n);
          '(r', pc) ← ok (campaign_prevoted (env_of n rnd) req won (nd_raft n));
          Some (n <| nd_raft := r' |> <| nd_camp := Some (CCollect pc []) |>, camp_messages r' pc)
      | _ => None
      end
  | AVoted rnd =>
      match nd_camp n with
      | Some (CCollect (Voting req) answers) =>
          won ← collectVotes answers.*2 (nd_raft n);
          '(r', pc) ← ok (campaign_voted (env_of n rnd) req won (nd_raft n));
          Some (n <| nd_raft := r' |> <| nd_camp := Some (CCollect pc []) |>, [])
      | _ => None
      end
  | AExit =>
      match nd_camp n with
      | Some (CCollect Exiting _) => Some (n <| nd_raft := campaign_exit (nd_raft n) |> <| nd_camp := None |>, [])
      | _ => None
      end
  | AReplicate peer =>
      if decide (peer ∈ others (nd_raft n)) then
        act ← ok (replicateOnce_send false peer (rterm (nd_raft n)) (nd_raft n));
        Some (match act with
              | SendNothing => n
              | SendAppend req => n <| nd_sending := (peer, req) :: nd_sending n |>
              | SendSnapshot => n <| nd_snapping := (peer, rterm (nd_raft n)) :: nd_snapping n |>
              end, [])
      else None
  | ASend k =>
      '(peer, req) ← nd_sending n !! k;
      Some (n, [mkMsg self peer (MAppend (nd_clock n) req)])
  | ASendSnapshot k =>
      '(peer, t) ← nd_snapping n !! k;
      if decide (state (nd_raft n) = Leader /\ rterm (nd_raft n) = t) then
        '(req, meta) ← sendSnapshot_load t (nd_raft n);
        Some (n, [mkMsg self peer (MSnap (nd_clock n) meta req)])
      else None
  | AAppend rnd k =>
      match inbox net n k with
      | Some (src, MAppend sentAt req) =>
          '(r', resp) ← ok (HandleAppendEntries (env_of n rnd) req (nd_raft n));
          Some (n <| nd_raft := r' |>, [mkMsg self src (MAppendResp sentAt req resp)])
      | _ => None
      end
  | AAppendAnswer rnd k =>
      match inbox net n k with
      | Some (peer, MAppendResp sentAt req resp) =>
          '(r', _) ← ok (replicateOnce_recv (env_of n rnd) peer (ae_Term req) req sentAt resp (nd_raft n));
          Some (n <| nd_raft := r' |>, [])
      | _ => None
      end
  | AInstall rnd k =>
      match inbox net n k with
      | Some (src, MSnap sentAt meta req) =>
          '(r', resp) ← ok (HandleInstallSnapshot (env_of n rnd) req (nd_raft n));
          Some (n <| nd_raft := r' |>, [mkMsg self src (MSnapResp sentAt meta req resp)])
      | _ => None
      end
  | ASnapshotAnswer rnd k =>
      match inbox net n k with
      | Some (peer, MSnapResp sentAt meta req resp) =>
          '(r', _) ← ok (sendSnapshot_recv (env_of n rnd) peer (is_Term req) meta sentAt resp (nd_raft n));
          Some (n <| nd_raft := r' |>, [])
      | _ => None
      end
  | APropose batch =>
      if decide (batch = []) then None
      else
        r' ← ok (appendProposals batch (nd_raft n));
        Some (n <| nd_raft := r' |>, [])
  | AApplier =>
      '(r', pc) ← ok (applier_step (nd_applier n) (nd_raft n));
      Some (n <| nd_raft := r' |> <| nd_applier := pc |>, [])
  | AStop => Some (n <| nd_raft := Stop (nd_raft n) |>, [])
  end.

Lemma ok_Some {A} (m : res A) a : ok m = Some a -> m = Ok a.
Proof. destruct m; cbn; congruence. Qed.

Lemma inbox_Some net n k src body :
  inbox net n k = Some (src, body) -> mkMsg src (ID (cfg (nd_raft n))) body ∈ net.
Proof.
  unfold inbox. destruct (net !! k) as [[s d b]|] eqn:Hk; cbn; [|done]. destruct (decide _) as [Hd|]; [|done].
  intros [= <- <-]. rewrite <- Hd. by eapply list_elem_of_lookup_2.
Qed.

Ltac exec_inv :=
  repeat match goal with
  | H : Some _ = Some _ |- _ => injection H; clear H; intros; subst
  | H : None = Some _ |- _ => discriminate H
  | H : ok _ = Some _ |- _ => apply ok_Some in H
  | H : inbox _ _ _ = Some _ |- _ => apply inbox_Some in H
  | H : mbind _ _ = Some _ |- _ => apply bind_Some in H as (? & ? & ?)
  | H : (let '(_, _) := ?p in _) = Some _ |- _ => destruct p
  | H : match ?x with _ => _ end = Some _ |- _ => destruct x eqn:?
  | H : _ /\ _ |- _ => destruct H
  end.

Lemma exec_sound net n a n' out : exec net n a = Some (n', out) -> node_step net n n' out.
Proof.
  destruct a; cbn; intros He; exec_inv; try (by econstructor; eauto).
  - eapply step_send_append. by eapply list_elem_of_lookup_2.
  - eapply step_send_snapshot; [|done..]. by eapply list_elem_of_lookup_2.
Qed.

(** A schedule: which node does what. *)
Definition exec_at (c : Cluster S SM) (ia : string * action) : option (Cluster S SM) :=
  n ← nodes c !! ia.1;
  '(n', out) ← exec (net c) n ia.2;
  Some (mkCluster (<[ia.1 := n']> (nodes c)) (net c ++ out)).

Fixpoint run_schedule (c : Cluster S SM) (sched : list (string * action)) : option (Cluster S SM) :=
  match sched with
  | [] => Some c
  | ia :: sched => c ← exec_at c ia; run_schedule c sched
  end.

Lemma exec_at_step c i a c' :
  exec_at c (i, a) = Some c' -> exists n n' out, nodes c !! i = Some n /\ node_step (net c) n n' out /\ c' = mkCluster (<[i := n']> (nodes c)) (net c ++ out).
Proof.
  unfold exec_at. cbn. intros He. apply bind_Some in He as (n & Hn & He). apply bind_Some in He as ([n' out] & He & Hc). simplify_eq.
  exists n, n', out. split_and!; [done|by eapply exec_sound|done].
Qed.

Lemma run_schedule_steps config sm0 sched : forall c c',
  run_schedule c sched = Some c' -> rtc (step config sm0) c c'.
Proof.
  induction sched as [|[i a] sched IH]; intros c c' Hr; cbn in Hr; [by simplify_eq|].
  apply bind_Some in Hr as (c1 & He & Hr). apply exec_at_step in He as (n & n' & out & Hn & Hst & ->).
  eapply rtc_l; [|by apply IH]. by eapply step_node.
Qed.

(** The group that starts for the first time. *)
Definition boot_all (env : Env) (config : string -> Config) (sm0 : SM) (st0 : S) (peers : list string) :
    option (Cluster S SM) :=
  ns ← mapM (fun i => match New (config i) st0 sm0 with
                      | Ok (inl r) => Some (i, boot env r)
                      | _ => None
                      end) peers;
  Some (mkCluster (list_to_map ns) []).

End Run.

(** ** A concrete group of three *)

(** A state machine that concatenates its commands. *)
#[global] Instance concat_StateMachine : StateMachine bytes := {|
  sm_apply sm _ d := Ok (sm ++ d, d);
  sm_snapshot sm := Some sm;
  sm_restore _ d := Some d;
|}.

Definition demo_peers : list string := ["a"; "b"; "c"].
Definition demo_config (i : string) : Config :=
  mkConfig i 0 demo_peers 300000000 600000000 50000000 300000000 0 512 256.

Definition demo_start : Cluster MemStorage bytes :=
  default (mkCluster ∅ []) (boot_all (mkEnv 0 0) demo_config [] NewMemStorage demo_peers).

(** [a] times out, wins the pre-vote and the vote of [b], and leads term 1. *)
Definition demo_election : list (string * action) :=
  [("a", AClock 400000000); ("b", AClock 400000000);
   ("a", ATick 0); ("a", ABegin 0); ("b", AVote 0 0); ("a", ACount 0 2); ("a", APrevoted 0);
   ("b", AVote 0 3); ("a", ACount 0 5); ("a", AVoted 0); ("a", AExit)].

(** A command is proposed, replicated to [b], committed and applied by [a]; a second
    round tells [b], which applies it too. *)
Definition demo_write : list (string * action) :=
  [("a", APropose [mkProposal 7 [Byte.x41] 0]);
   ("a", AReplicate "b"); ("a", ASend 0); ("b", AAppend 0 6); ("a", AAppendAnswer 0 7);
   ("a", AApplier); ("a", AApplier); ("a", AApplier);
   ("a", AReplicate "b"); ("a", ASend 0); ("b", AAppend 0 8);
   ("b", AApplier); ("b", AApplier); ("b", AApplier)].

Definition demo_elected : Cluster MemStorage bytes :=
  default demo_start (run_schedule demo_start demo_election).
Definition demo_written : Cluster MemStorage bytes :=
  default demo_start (run_schedule demo_elected demo_write).

Definition node_of (c : Cluster MemStorage bytes) (i : string) : option (NodeSt MemStorage bytes) := nodes c !! i.

Lemma demo_election_runs :
  run_schedule demo_start demo_election = Some demo_elected /\
  (state ∘ nd_raft <$> node_of demo_elected "a") = Some Leader /\
  (rterm ∘ nd_raft <$> node_of demo_elected "a") = Some 1.
Proof. vm_compute. split_and!; reflexivity. Qed.

Lemma demo_write_runs :
  run_schedule demo_elected demo_write = Some demo_written /\
  (commitIndex ∘ nd_raft <$> node_of demo_written "a") = Some 2 /\
  (machine ∘ nd_raft <$> node_of demo_written "a") = Some [Byte.x41] /\
  (machine ∘ nd_raft <$> node_of demo_written "b") = Some [Byte.x41] /\
  (replies ∘ nd_raft <$> node_of demo_written "a") = Some [(7%nat, PResult [Byte.x41])].
Proof. vm_compute. split_and!; reflexivity. Qed.

(** The states of the run are evaluated by [vm_compute] only. *)
#[global] Opaque demo_start demo_elected demo_written.
