(* ===== verification/Election.v ===== *)
(** * Election safety: at most one leader per term

    For every reachable state of a group, with lawful storages, any loss, delay,
    duplication and reordering of messages, and any crashes and restarts.
    The proof keeps, as ghost state, the set of votes ever cast and the set of
    leaders ever elected: a vote is durable before it is answered, a leader has
    the votes of a majority, and two majorities share a voter. *)

From S2P Require Import Prelude Types RaftLog Storage Raft RaftFacts Cluster Run.

(** ** Majorities *)

(** What [collectVotes] concluding "won" means: enough yes answers. *)
Lemma collect_loop_true q nOthers granted answered results :
  collect_loop q nOthers granted answered results = Some true ->
  (q <= granted + length (filter (fun b => b = true) results))%nat.
Proof.
  revert granted answered. induction results as [|b results IH]; intros granted answered; cbn [collect_loop].
  - by case_match.
  - case_match; [|done]. rewrite filter_cons.
    destruct b; destruct (decide _) as [Hd|Hd]; try done; cbn [length].
    + destruct (Nat.leb_spec q (Datatypes.S granted)); [lia|]. case_match; [done|]. intros Hc%IH. lia.
    + destruct (Nat.leb_spec q granted); [lia|]. case_match; [done|]. intros Hc%IH. lia.
Qed.

Lemma collectVotes_won {S SM} results (r : Raft S SM) :
  collectVotes results r = Some true -> (quorum r <= 1 + length (filter (fun b => b = true) results))%nat.
Proof.
  unfold collectVotes. destruct (Nat.eqb_spec (quorum r) 1); [lia|]. intros Hc%collect_loop_true. lia.
Qed.

Lemma setDefaults_keeps c c' : setDefaults c = Some c' -> ID c' = ID c /\ Peers c' = Peers c.
Proof. unfold setDefaults. repeat case_match; naive_solver. Qed.

Section Safety.
Context {S SM : Type} `{StorageLaws S} `{StateMachine SM}.
Context (peers : list string) (config : string -> Config) (sm0 : SM).
Context (peers_nodup : NoDup peers) (peers_named : "" ∉ peers).
Context (config_id : forall i, ID (config i) = i) (config_peers : forall i, Peers (config i) = peers).

#[local] Abbreviation Raft := (Raft S SM).
#[local] Abbreviation NodeSt := (NodeSt S SM).
#[local] Abbreviation Cluster := (Cluster S SM).
Implicit Types r : Raft.

(** ** The local invariant of a node *)
Definition applier_ok (pc : applierPC) (r : Raft) : Prop :=
  match pc with
  | ApplierCompacting i _ => i <= d_snapIndex (durable (storage r))
  | _ => True
  end.

Definition fits (i : string) (r : Raft) : Prop :=
  ID (cfg r) = i /\ others r = filter (fun p => p <> i) peers /\ quorum r = (length peers / 2 + 1)%nat.

Record local_ok (i : string) (n : NodeSt) : Prop := {
  lo_node : node_ok (nd_raft n);
  lo_fits : fits i (nd_raft n);
  lo_applier : applier_ok (nd_applier n) (nd_raft n);
}.

Lemma fits_same_cfg i r r' : fits i r -> same_cfg r r' -> fits i r'.
Proof. unfold fits, same_cfg. intros (Hi & Ho & Hq) (-> & -> & -> & _). done. Qed.

Lemma applier_ok_mono pc r r' : applier_ok pc r -> same_cfg r r' -> applier_ok pc r'.
Proof. unfold applier_ok, same_cfg. intros Ha (_ & _ & _ & Hle). destruct pc; try done. lia. Qed.

Lemma local_ok_step i n n' :
  local_ok i n -> node_ok (nd_raft n') -> same_cfg (nd_raft n) (nd_raft n') -> nd_applier n' = nd_applier n ->
  local_ok i n'.
Proof.
  intros [Hn Hf Ha] Hok Hc Hp. split; [done|by eapply fits_same_cfg|]. rewrite Hp. by eapply applier_ok_mono.
Qed.

Lemma applier_step_safe pc r r' pc' :
  node_ok r -> applier_ok pc r -> applier_step pc r = Ok (r', pc') -> safe_step r r' /\ applier_ok pc' r'.
Proof.
  intros Hok Ha. destruct pc; cbn; intros Hb.
  - split; [by eapply applier_wake_safe|]. revert Hb. unfold applier_wake. repeat case_match; intros Hb; by inv_ok.
  - split; [by eapply applier_restore_safe|]. apply bind_Ok in Hb as (? & _ & Hb). by inv_ok.
  - inv_ok. split; [|done]. apply safe_step_same; [by apply (node_ok_ext r)|done..].
  - split; [by eapply applier_apply_safe|]. apply bind_Ok in Hb as ([? ?] & _ & Hb). by inv_ok.
  - split; [by eapply applier_finish_safe|]. revert Hb. unfold applier_finish. case_match; [|done]. intros Hb. inv_ok.
    by case_match.
  - inv_ok. split; [by apply safe_step_refl|]. unfold takeSnapshot_serialise. by case_match.
  - inv_ok. split; [by apply safe_step_refl|]. unfold takeSnapshot_term. by case_match.
  - injection Hb as Hb. apply takeSnapshot_save_safe in Hb as (Hs & -> & Hi); [|done]. by split.
  - inv_ok. split; [|done]. by apply takeSnapshot_compact_safe.
Qed.

(** ** Messages *)

(** [V v t c]: [v] has voted for [c] in term [t]. *)
Implicit Types V : string -> N -> string -> Prop.

Definition msg_ok V (m : Msg) : Prop :=
  match m_body m with
  | MVote req => rv_CandidateId req ∈ peers
  | MVoteResp req resp =>
      rvr_VoteGranted resp = true -> rv_PreVote req = false -> V (m_src m) (rv_Term req) (rv_CandidateId req)
  | _ => True
  end.

Definition answers_ok V (i : string) (t : N) (answers : list (string * bool)) : Prop :=
  NoDup answers.*1 /\ forall p b, (p, b) ∈ answers -> p ∈ peers /\ p <> i /\ (b = true -> V p t i).

Definition camp_ok V (i : string) (camp : option campThread) : Prop :=
  match camp with
  | Some (CCollect (Voting req) answers) =>
      rv_PreVote req = false /\ rv_CandidateId req = i /\ V i (rv_Term req) i /\ answers_ok V i (rv_Term req) answers
  | Some (CCollect (PreVoting req) _) => rv_PreVote req = true
  | _ => True
  end.

Lemma msg_ok_mono V V' m : (forall v t c, V v t c -> V' v t c) -> msg_ok V m -> msg_ok V' m.
Proof. intros HV. unfold msg_ok. destruct (m_body m); auto. Qed.

Lemma answers_ok_mono V V' i t answers :
  (forall v t c, V v t c -> V' v t c) -> answers_ok V i t answers -> answers_ok V' i t answers.
Proof. unfold answers_ok. naive_solver. Qed.

Lemma camp_ok_mono V V' i camp : (forall v t c, V v t c -> V' v t c) -> camp_ok V i camp -> camp_ok V' i camp.
Proof.
  intros HV. unfold camp_ok. destruct camp as [[|[] ?]|]; try done.
  intros (? & ? & ? & ?). split_and!; auto. by eapply answers_ok_mono.
Qed.

Lemma answers_ok_snoc V i t answers p b :
  answers_ok V i t answers -> p ∈ peers -> p <> i -> p ∉ answers.*1 -> (b = true -> V p t i) ->
  answers_ok V i t (answers ++ [(p, b)]).
Proof.
  intros [Hnd Ha] Hp Hne Hnew Hb. split.
  - rewrite fmap_app. apply NoDup_app. split_and!; [done| |apply NoDup_singleton].
    intros x Hx ->%list_elem_of_singleton. done.
  - intros q c [Hq|Hq%list_elem_of_singleton]%elem_of_app; [by apply Ha|]. by simplify_eq.
Qed.

(** ** One step of a node *)

(** The vote a replica holds. *)
Definition holds_vote (r : Raft) (t : N) (c : string) : Prop :=
  rterm r = t /\ votedFor r = c /\ c <> "".

(** How a step may lead to leadership: a campaign that has collected a majority. *)
Definition wins (n n' : NodeSt) : Prop :=
  lead_step (nd_raft n) (nd_raft n') /\
  exists req answers, nd_camp n = Some (CCollect (Voting req) answers) /\
    collectVotes answers.*2 (nd_raft n) = Some true /\ rterm (nd_raft n) = rv_Term req.

Lemma local_ok_safe i n n' :
  local_ok i n -> safe_step (nd_raft n) (nd_raft n') -> nd_applier n' = nd_applier n ->
  local_ok i n' /\ (role_step (nd_raft n) (nd_raft n') \/ wins n n').
Proof. intros Hn (Hok & Hc & Hr) Ha. split; [by eapply local_ok_step|by left]. Qed.

Lemma node_step_local V i net n n' out :
  local_ok i n -> Forall (msg_ok V) net -> node_step net n n' out ->
  local_ok i n' /\ (role_step (nd_raft n) (nd_raft n') \/ wins n n').
Proof.
  intros Hn Hnet Hstep. pose proof (lo_node _ _ Hn) as Hok.
  destruct Hstep as [t ?|rnd r' started Ht|rnd skip r' pc Hc Ht|pc req peer answers Hc|rnd peer req resp r' g Hm Ht
    |rnd peer req resp r' g pc answers Hm Ht|rnd req answers won r' pc Hc Hw Ht|rnd req answers won r' pc Hc Hw Ht
    |answers Hc|rnd src req r' resp Hm Ht|src req r' resp started Hm Ht|ctxErr peer t act Hp Ht|peer req Hp
    |peer t req meta Hp Hld Htm Ht|rnd src sentAt req r' resp Hm Ht|rnd peer sentAt req resp r' again Hm Ht
    |rnd src sentAt meta req r' resp Hm Ht|rnd peer sentAt meta req resp r' again Hm Ht|batch r' Hb Ht|r' o Ht
    |r' pc Ht|target r' t Ht|t target req Hp Ht|t target Hp|];
  try (apply local_ok_safe; [done| |done]; cbn; by apply safe_step_refl).
  - apply local_ok_safe; [done| |done]. by eapply tick_safe.
  - apply local_ok_safe; [done| |done]. by eapply campaign_begin_safe.
  - apply local_ok_safe; [done| |done]. by eapply vote_answer_safe.
  - apply local_ok_safe; [done| |done]. by eapply vote_answer_safe.
  - apply local_ok_safe; [done| |done]. by eapply campaign_prevoted_safe.
  - apply campaign_voted_safe in Ht as (-> & Hok' & Hcf & Hl); [|done]. split; [by eapply local_ok_step|].
    destruct Hl as [->|(-> & Hterm & Hlead)]; [left; by apply role_stay; auto|right].
    split; [done|]. exists req, answers. split_and!; try done. by destruct Hw as [|[_ ?]].
  - apply local_ok_safe; [done| |done]. apply safe_step_same; [by apply (node_ok_ext (nd_raft n))|done..].
  - apply local_ok_safe; [done| |done]. rewrite Forall_forall in Hnet. apply Hnet in Hm. cbn in Hm.
    eapply HandleRequestVote_safe; [done| |exact Ht]. intros Hce. apply peers_named. by rewrite <- Hce.
  - apply local_ok_safe; [done| |done]. by eapply HandleTimeoutNow_safe.
  - apply local_ok_safe; [done| |by destruct act]. destruct act; by apply safe_step_refl.
  - apply local_ok_safe; [done| |done]. by eapply HandleAppendEntries_safe.
  - apply local_ok_safe; [done| |done]. by eapply replicateOnce_recv_safe.
  - apply local_ok_safe; [done| |done]. by eapply HandleInstallSnapshot_safe.
  - apply local_ok_safe; [done| |done]. by eapply sendSnapshot_recv_safe.
  - apply local_ok_safe; [done| |done]. by eapply appendProposals_safe.
  - apply local_ok_safe; [done| |done]. by eapply confirmLeadership_begin_safe.
  - destruct (applier_step_safe _ _ _ _ Hok (lo_applier _ _ Hn) Ht) as [(Hok' & Hc & Hr) Ha].
    split; [split; [done|by eapply fits_same_cfg; [apply Hn|]|done]|by left].
  - apply local_ok_safe; [done| |done]. by eapply transfer_begin_safe.
  - apply local_ok_safe; [done| |done]. by apply transfer_cleanup_safe.
  - apply local_ok_safe; [done| |done]. by apply Stop_safe.
Qed.

(** A round entered by a campaign: its requests name this node, and a real
    round is backed by this node's own vote. *)
Lemma camp_enter V i r pc :
  fits i r -> i ∈ peers ->
  (forall t c, holds_vote r t c -> V i t c) ->
  match pc with
  | PreVoting req => rv_PreVote req = true /\ rv_CandidateId req = ID (cfg r)
  | Voting req => rv_PreVote req = false /\ rv_Term req = rterm r /\ rv_CandidateId req = ID (cfg r) /\
      votedFor r = ID (cfg r)
  | Exiting => True
  end ->
  camp_ok V i (Some (CCollect pc [])) /\ Forall (msg_ok V) (camp_messages r pc).
Proof.
  intros (Hid & _) Hi HV Hpc. rewrite Hid in Hpc. split.
  - destruct pc; [by destruct Hpc| |done]. destruct Hpc as (? & Ht & ? & ?). cbn. rewrite Ht.
    split_and!; try done; [|by split; [apply NoDup_nil|intros ? ? ?%elem_of_nil]].
    apply HV. split_and!; [done..|]. by intros ->.
  - unfold camp_messages. destruct (camp_request pc) as [req|] eqn:Hr; [|constructor].
    destruct (quorum r =? 1)%nat; [constructor|].
    apply Forall_fmap, Forall_true. intros p. unfold msg_ok. cbn.
    destruct pc; simplify_eq/=; [destruct Hpc as [_ ->]|destruct Hpc as (_ & _ & -> & _)]; done.
Qed.

Lemma vote_counted V i n net peer req resp pc answers g :
  local_ok i n -> Forall (msg_ok V) net -> camp_ok V i (Some (CCollect pc answers)) ->
  mkMsg peer i (MVoteResp req resp) ∈ net -> g = rvr_VoteGranted resp -> camp_request pc = Some req ->
  peer ∈ others (nd_raft n) -> peer ∉ answers.*1 ->
  camp_ok V i (Some (CCollect pc (answers ++ [(peer, g)]))).
Proof.
  intros Hn Hnet Hc Hm -> Hreq Hp Hnew. destruct pc; simplify_eq/=; try done.
  destruct Hc as (Hpre & Hcand & HV & Ha). split_and!; try done.
  destruct (lo_fits _ _ Hn) as (_ & Ho & _). rewrite Ho in Hp. apply list_elem_of_filter in Hp as [Hne Hp].
  apply answers_ok_snoc; try done. intros Hg. rewrite Forall_forall in Hnet. apply Hnet in Hm.
  rewrite <- Hcand. by apply Hm.
Qed.

Lemma node_step_votes V i net n n' out :
  local_ok i n -> i ∈ peers -> Forall (msg_ok V) net -> camp_ok V i (nd_camp n) -> node_step net n n' out ->
  (forall t c, holds_vote (nd_raft n') t c -> V i t c) ->
  camp_ok V i (nd_camp n') /\ Forall (msg_ok V) out.
Proof.
  intros Hn Hi Hnet Hcamp Hstep. pose proof (lo_node _ _ Hn) as Hok. pose proof (proj1 (lo_fits _ _ Hn)) as Hid.
  pose proof (node_step_local V i net n n' out Hn Hnet Hstep) as [Hn' _]. pose proof (lo_fits _ _ Hn') as Hf'.
  destruct Hstep as [t ?|rnd r' started Ht|rnd skip r' pc Hc Ht|pc req peer answers Hc Hreq Hp Hnew|rnd peer req resp r' g Hm Ht
    |rnd peer req resp r' g pc answers Hm Ht Hc Hreq Hp Hnew|rnd req answers won r' pc Hc Hw Ht|rnd req answers won r' pc Hc Hw Ht
    |answers Hc|rnd src req r' resp Hm Ht|src req r' resp started Hm Ht|ctxErr peer t act Hp Ht|peer req Hp
    |peer t req meta Hp Hld Htm Ht|rnd src sentAt req r' resp Hm Ht|rnd peer sentAt req resp r' again Hm Ht
    |rnd src sentAt meta req r' resp Hm Ht|rnd peer sentAt meta req resp r' again Hm Ht|batch r' Hb Ht|r' o Ht
    |r' pc Ht|target r' t Ht|t target req Hp Ht|t target Hp|]; intros HV; cbn in *; rewrite ?Hid in *;
  try (split; [done|by repeat constructor]).
  - split; [by destruct started|constructor].
  - apply camp_enter; [done..|]. by eapply campaign_begin_safe.
  - split; [|constructor]. rewrite Hc in Hcamp. destruct pc; simplify_eq/=; [done|].
    destruct Hcamp as (? & ? & ? & ?). split_and!; try done.
    destruct (lo_fits _ _ Hn) as (_ & Ho & _). rewrite Ho in Hp. apply list_elem_of_filter in Hp as [Hne Hp].
    by apply answers_ok_snoc.
  - split; [|constructor]. rewrite Hc in Hcamp. apply vote_answer_safe in Ht as [_ Hg]; [|done].
    by eapply (vote_counted V i n).
  - apply camp_enter; [done..|]. apply campaign_prevoted_safe in Ht as [_ Ht]; [|done]. by destruct pc.
  - apply campaign_voted_safe in Ht as (-> & _); [|done]. by split; [|constructor].
  - split; [done|]. apply Forall_singleton. rewrite Forall_forall in Hnet. apply Hnet in Hm. cbn in Hm. cbn.
    apply HandleRequestVote_safe in Ht as (_ & _ & _ & Hg); [|done|intros Hce; apply peers_named; by rewrite <- Hce].
    intros Hgr Hpre. destruct (Hg Hgr Hpre) as (Htm & Hv & _). apply HV. split_and!; [done..|].
    intros Hce. apply peers_named. by rewrite <- Hce.
  - split; [by destruct started|constructor].
  - split; [by destruct act|constructor].
Qed.

(** ** The invariant of the group *)

(** [L t i]: [i] has been leader in term [t]. *)
Implicit Types L : N -> string -> Prop.

Definition elected V (t : N) (i : string) : Prop :=
  exists voters, NoDup voters /\ voters ⊆ peers /\ (length peers / 2 + 1 <= length voters)%nat /\
    forall v, v ∈ voters -> V v t i.

Record Inv (c : Cluster) V L : Prop := {
  inv_local : forall i n, nodes c !! i = Some n -> i ∈ peers /\ local_ok i n /\ camp_ok V i (nd_camp n);
  inv_net : Forall (msg_ok V) (net c);
  inv_vote : forall v t x, V v t x ->
    exists n, nodes c !! v = Some n /\
      (t < rterm (nd_raft n) \/ t = rterm (nd_raft n) /\ votedFor (nd_raft n) = x /\ x <> "");
  inv_unique : forall v t x y, V v t x -> V v t y -> x = y;
  inv_held : forall i n t x, nodes c !! i = Some n -> holds_vote (nd_raft n) t x -> V i t x;
  inv_quorum : forall t i, L t i -> elected V t i;
  inv_leader : forall i n, nodes c !! i = Some n -> state (nd_raft n) = Leader -> L (rterm (nd_raft n)) i;
}.

Definition add_vote V (i : string) (n : NodeSt) : string -> N -> string -> Prop :=
  fun v t x => V v t x \/ v = i /\ holds_vote (nd_raft n) t x.
Definition add_leader L (i : string) (n : NodeSt) : N -> string -> Prop :=
  fun t j => L t j \/ j = i /\ t = rterm (nd_raft n) /\ state (nd_raft n) = Leader.

Lemma elected_mono V V' t i : (forall v t c, V v t c -> V' v t c) -> elected V t i -> elected V' t i.
Proof. intros HV (vs & ? & ? & ? & ?). exists vs. split_and!; auto. Qed.

(** A replica's recorded vote only ever moves forward. *)
Lemma role_step_vote (r r' : Raft) t x :
  role_step r r' \/ lead_step r r' ->
  t < rterm r \/ t = rterm r /\ votedFor r = x /\ x <> "" ->
  t < rterm r' \/ t = rterm r' /\ votedFor r' = x /\ x <> "".
Proof.
  intros [[Ht Hv _|Hlt _ _|Ht _ _|Hle Hv He _]|[_ _ Ht Hv]] Hold; rewrite ?Ht, ?Hv; [done|lia|lia| |done].
  destruct Hold as [?|(-> & <- & Hx)]; [lia|]. destruct (decide (rterm r' = rterm r)) as [E|]; [|lia].
  right. destruct (He E) as [|Heq]; [done|]. by rewrite <- Heq.
Qed.

Lemma role_step_leader (r r' : Raft) : role_step r r' -> state r' = Leader -> state r = Leader /\ rterm r' = rterm r.
Proof. intros [? ? [?|?]|? ? ?|? ? ?|? ? ? [[? ?]|?]]; intros; split; congruence. Qed.

(** A node's new vote does not contradict an earlier one. *)
Lemma vote_consistent (r r' : Raft) t x y :
  role_step r r' \/ lead_step r r' ->
  t < rterm r \/ t = rterm r /\ votedFor r = x /\ x <> "" -> holds_vote r' t y -> x = y.
Proof.
  intros Hr Hold (Ht & Hv & Hy). destruct (role_step_vote r r' t x Hr Hold) as [?|(_ & Hx & _)]; [lia|congruence].
Qed.

(** The winner of a campaign has the votes of a majority. *)
Lemma wins_elected V i n req answers :
  local_ok i n -> i ∈ peers -> camp_ok V i (nd_camp n) -> nd_camp n = Some (CCollect (Voting req) answers) ->
  collectVotes answers.*2 (nd_raft n) = Some true -> rterm (nd_raft n) = rv_Term req -> elected V (rterm (nd_raft n)) i.
Proof.
  intros Hn Hi Hc Hcamp Hcv Ht. rewrite Hcamp in Hc.
  destruct Hc as (_ & _ & HV & Hnd & Ha). rewrite <- Ht in HV, Ha.
  apply collectVotes_won in Hcv. destruct (lo_fits _ _ Hn) as (_ & _ & Hq). rewrite Hq in Hcv.
  set (yes := filter (fun pb : string * bool => pb.2 = true) answers).
  assert (Hlen : length (filter (fun b => b = true) answers.*2) = length yes).
  { unfold yes. clear. induction answers as [|[p b] l IH]; [done|]. rewrite fmap_cons, !filter_cons. cbn.
    destruct (decide (b = true)); cbn; [f_equal|]; exact IH. }
  assert (Hyes : forall p, p ∈ yes.*1 -> p ∈ peers /\ p <> i /\ V p (rterm (nd_raft n)) i).
  { intros p Hp. apply list_elem_of_fmap in Hp as ([p' b] & -> & Hp). apply list_elem_of_filter in Hp as [Hb Hp].
    destruct (Ha _ _ Hp) as (? & ? & HVp). by split_and!; [..|apply HVp]. }
  exists (i :: yes.*1). split_and!.
  - apply NoDup_cons. split; [intros Hin; by apply Hyes in Hin as (_ & ? & _)|].
    unfold yes. eapply sublist_NoDup; [exact Hnd|]. apply fmap_sublist, sublist_filter.
  - intros p [->|Hp]%elem_of_cons; [done|by apply Hyes].
  - rewrite length_cons, length_fmap. lia.
  - intros p [->|Hp]%elem_of_cons; [done|by apply Hyes].
Qed.

(** One node moves: the invariant survives with its new vote and leadership recorded. *)
Lemma Inv_update c V L i n n' out :
  Inv c V L -> nodes c !! i = Some n -> local_ok i n' ->
  role_step (nd_raft n) (nd_raft n') \/ wins n n' ->
  camp_ok (add_vote V i n') i (nd_camp n') -> Forall (msg_ok (add_vote V i n')) out ->
  Inv (mkCluster (<[i := n']> (nodes c)) (net c ++ out)) (add_vote V i n') (add_leader L i n').
Proof.
  intros HI Hi Hn' Hrole Hcamp Hout.
  assert (HV : forall v t x, V v t x -> add_vote V i n' v t x) by (intros; by left).
  destruct (inv_local _ _ _ HI _ _ Hi) as (Hip & Hn & Hc).
  assert (Hrl : role_step (nd_raft n) (nd_raft n') \/ lead_step (nd_raft n) (nd_raft n')).
  { destruct Hrole as [|[? _]]; auto. }
  split; cbn.
  - intros j m [[<- <-]|[Hne Hj]]%lookup_insert_Some; [done|].
    destruct (inv_local _ _ _ HI _ _ Hj) as (? & ? & ?). split_and!; [done..|by eapply camp_ok_mono].
  - apply Forall_app. split; [|done]. eapply Forall_impl; [apply HI|]. intros m. by apply msg_ok_mono.
  - intros v t x [Hv|[-> (Ht & Hx & Hne)]].
    + destruct (inv_vote _ _ _ HI _ _ _ Hv) as (m & Hm & Hold). destruct (decide (v = i)) as [->|Hne].
      * exists n'. rewrite lookup_insert_eq. simplify_eq. split; [done|]. by eapply role_step_vote.
      * exists m. by rewrite lookup_insert_ne.
    + exists n'. rewrite lookup_insert_eq. split; [done|]. right. by split_and!.
  - intros v t x y [Hx|[-> Hx]] [Hy|[He Hy]].
    + by eapply inv_unique.
    + subst. destruct (inv_vote _ _ _ HI _ _ _ Hx) as (m & Hm & Hold). simplify_eq. by eapply vote_consistent.
    + destruct (inv_vote _ _ _ HI _ _ _ Hy) as (m & Hm & Hold). simplify_eq. symmetry. by eapply vote_consistent.
    + destruct Hx as (_ & <- & _), Hy as (_ & <- & _). done.
  - intros j m t x [[<- <-]|[Hne Hj]]%lookup_insert_Some Hh; [by right|left]. by eapply inv_held.
  - intros t j [Hj|(-> & -> & Hs)]; [by eapply elected_mono, inv_quorum|].
    destruct Hrole as [Hr|Hw].
    + destruct (role_step_leader _ _ Hr Hs) as [Hs0 ->]. eapply elected_mono; [done|]. by eapply inv_quorum, inv_leader.
    + rewrite (lead_term _ _ (proj1 Hw)). eapply elected_mono; [done|].
      destruct Hw as (_ & req & answers & Hw1 & Hw2 & Hw3). by eapply wins_elected.
  - intros j m [[<- <-]|[Hne Hj]]%lookup_insert_Some Hs; [by right|left]. by eapply inv_leader.
Qed.

(** A restart only forgets the role: term and vote come back from the storage. *)
Lemma restart_role i net n st env r :
  local_ok i n -> i ∈ peers -> crash_point net n st -> New (config i) st sm0 = Ok (inl r) ->
  local_ok i (boot env r) /\ role_step (nd_raft n) (nd_raft (boot env r)).
Proof.
  intros Hn Hi Hcp Hnew. destruct Hn as [Hok Hf Ha].
  assert (Hs : exists r1, storage r1 = st /\ safe_step (nd_raft n) r1).
  { destruct Hcp as [|env' t l r1 Hb|env' src sentAt req k r1 resp _ Hb].
    - eexists. split; [done|by apply safe_step_refl].
    - exists r1. split; [done|by eapply becomeFollower_safe].
    - exists r1. split; [done|by eapply HandleAppendEntries_safe]. }
  destruct Hs as (r1 & <- & (Hok1 & Hc1 & Hr1)). pose proof Hnew as Hnew'.
  apply New_spec in Hnew as (c' & Hd & Hcfg & _ & Hhs & Hst & _ & _ & _ & Ho & Hq & _ & _ & _ & _ & Hsok & Hdur); [|apply Hok1].
  apply setDefaults_keeps in Hd as [Hid Hps]. rewrite config_id in Hid. rewrite config_peers in Hps.
  rewrite (nk_hs _ Hok1) in Hhs. injection Hhs as Ht Hv. split.
  - rewrite Hid, Hps in Ho. rewrite Hps in Hq. split; [|split_and!; [cbn; congruence|done|done]|done].
    eapply node_ok_ext; [eapply (New_ok (config i) (storage r1) sm0 r); [apply Hok1|apply Hok1|done]|done..].
  - destruct Hf as (Hidn & _). assert (i <> "") by (by intros ->).
    destruct Hr1 as [Ht1 Hv1 _|Hlt Hv1 _|Ht1 Hv1 _|Hle Hv1 He _]; cbn.
    + apply role_stay; cbn; [congruence|congruence|by right].
    + apply role_newterm; cbn; [lia|congruence|done].
    + apply role_grant; cbn; [lia|congruence|lia|by right].
    + apply role_grant; cbn; [lia|congruence|rewrite Ht, Hv; done|by right].
Qed.

Lemma Inv_step c c' V L :
  Inv c V L -> step config sm0 c c' ->
  exists V' L', Inv c' V' L' /\ (forall t i, L t i -> L' t i).
Proof.
  intros HI [i n n' out Hi Hstep|i n env st r Hi Hcp Hnew].
  - destruct (inv_local _ _ _ HI _ _ Hi) as (Hip & Hn & Hc). exists (add_vote V i n'), (add_leader L i n').
    split; [|intros; by left]. pose proof (inv_net _ _ _ HI) as Hnet.
    destruct (node_step_local _ _ _ _ _ _ Hn Hnet Hstep) as [Hn' Hr].
    assert (HV : forall v t x, V v t x -> add_vote V i n' v t x) by (intros; by left).
    destruct (node_step_votes (add_vote V i n') i (net c) n n' out) as [Hc' Ho]; try done.
    + eapply Forall_impl; [exact Hnet|]. intros m. by apply msg_ok_mono.
    + by eapply camp_ok_mono.
    + intros t x Hh. by right.
    + by eapply Inv_update.
  - destruct (inv_local _ _ _ HI _ _ Hi) as (Hip & Hn & Hc).
    exists (add_vote V i (boot env r)), (add_leader L i (boot env r)). split; [|intros; by left].
    destruct (restart_role _ _ _ _ env _ Hn Hip Hcp Hnew) as [Hn' Hr]. rewrite <- (app_nil_r (net c)).
    eapply Inv_update; [done..|by left|done|constructor].
Qed.

(** ** Reachable states *)

(** A group that starts for the first time: every member on an empty storage. *)
Definition initial (c : Cluster) : Prop :=
  net c = [] /\
  (forall i, i ∈ peers -> is_Some (nodes c !! i)) /\
  forall i n, nodes c !! i = Some n ->
    i ∈ peers /\ exists env st r, storage_ok st /\ durable st = mkDurable None None [] /\
      New (config i) st sm0 = Ok (inl r) /\ n = boot env r.

Lemma initial_Inv c : initial c -> Inv c (fun _ _ _ => False) (fun _ _ => False).
Proof.
  intros (Hnet & _ & Hnodes). split; try done.
  - intros i n Hi. destruct (Hnodes _ _ Hi) as (Hp & env & st & r & Hst & Hd & Hnew & ->). split_and!; [done| |done].
    pose proof Hnew as Hnew'.
    apply New_spec in Hnew as (c' & Hsd & Hcfg & _ & _ & _ & _ & _ & _ & Ho & Hq & _); [|done].
    apply setDefaults_keeps in Hsd as [Hid Hps]. rewrite config_id in Hid. rewrite config_peers in Hps.
    rewrite Hid, Hps in Ho. rewrite Hps in Hq. split; [|split_and!; [cbn; congruence|done|done]|done].
    eapply node_ok_ext; [eapply (New_ok (config i) st sm0 r); [done|rewrite Hd; apply contiguous_nil|done]|done..].
  - rewrite Hnet. constructor.
  - intros i n t x Hi (_ & Hx & Hne). destruct (Hnodes _ _ Hi) as (Hp & env & st & r & Hst & Hd & Hnew & ->).
    apply New_spec in Hnew as (c' & _ & _ & _ & Hhs & _); [|done]. rewrite Hd in Hhs. cbn in Hhs, Hx.
    injection Hhs as _ Hv. congruence.
  - intros i n Hi Hs. destruct (Hnodes _ _ Hi) as (Hp & env & st & r & Hst & Hd & Hnew & ->).
    apply New_spec in Hnew as (c' & _ & _ & _ & _ & Hf & _); [|done]. cbn in Hs. congruence.
Qed.

Lemma Inv_steps c c' V L :
  Inv c V L -> rtc (step config sm0) c c' -> exists V' L', Inv c' V' L' /\ (forall t i, L t i -> L' t i).
Proof.
  intros HI Hst. revert V L HI. induction Hst as [c|c c1 c' Hs _ IH]; intros V L HI; [by eauto|].
  destruct (Inv_step _ _ _ _ HI Hs) as (V1 & L1 & HI1 & HL1).
  destruct (IH _ _ HI1) as (V2 & L2 & HI2 & HL2). eauto 10.
Qed.

Lemma elected_unique c V L t i j : Inv c V L -> elected V t i -> elected V t j -> i = j.
Proof.
  intros HI (l1 & Hn1 & Hs1 & Hl1 & Hv1) (l2 & Hn2 & Hs2 & Hl2 & Hv2).
  destruct (quorum_intersect peers l1 l2) as (x & Hx1 & Hx2); try done. eapply inv_unique; eauto.
Qed.

(** C5: election safety. In any run of a group over lawful storages, with messages
    lost, delayed, duplicated and reordered and nodes crashing and restarting at any
    point, two nodes that are leader of the same term, at any two moments of the run,
    are the same node. *)
Theorem at_most_one_leader_per_term c0 c1 c2 i j n1 n2 :
  initial c0 -> rtc (step config sm0) c0 c1 -> rtc (step config sm0) c1 c2 ->
  nodes c1 !! i = Some n1 -> nodes c2 !! j = Some n2 ->
  state (nd_raft n1) = Leader -> state (nd_raft n2) = Leader -> rterm (nd_raft n1) = rterm (nd_raft n2) ->
  i = j.
Proof.
  intros H0' H1' H2' Hi Hj Hs1 Hs2 Ht. destruct (Inv_steps _ _ _ _ (initial_Inv _ H0') H1') as (V1 & L1 & HI1 & _).
  destruct (Inv_steps _ _ _ _ HI1 H2') as (V2 & L2 & HI2 & HL).
  eapply (elected_unique _ _ _ (rterm (nd_raft n2)) i j HI2).
  - eapply inv_quorum; [done|]. rewrite <- Ht. by eapply HL, inv_leader.
  - by eapply inv_quorum, inv_leader.
Qed.

(** Starting every member on an empty storage gives an initial state. *)
Lemma boot_all_initial env st0 c :
  storage_ok st0 -> durable st0 = mkDurable None None [] ->
  boot_all env config sm0 st0 peers = Some c -> initial c.
Proof.
  intros Hok Hd Hb. unfold boot_all in Hb. apply bind_Some in Hb as (ns & Hm & Hc). injection Hc as <-.
  apply mapM_Some in Hm.
  assert (Hkeys : ns.*1 = peers).
  { clear -Hm. induction Hm as [|i [j n] ps ns Hi _ IH]; [done|]. cbn. rewrite IH. f_equal. by repeat case_match; simplify_eq. }
  split_and!; [done| |]; cbn.
  - intros i Hi. rewrite <- Hkeys in Hi. apply list_elem_of_fmap in Hi as ([j n] & -> & Hn). exists n.
    apply elem_of_list_to_map; [by rewrite Hkeys|done].
  - intros i n Hi%elem_of_list_to_map_2. split; [rewrite <- Hkeys; by apply (list_elem_of_fmap_2 fst) in Hi|].
    apply list_elem_of_lookup in Hi as [k Hk]. destruct (Forall2_lookup_r _ _ _ _ _ Hm Hk) as (i' & _ & Hn).
    destruct (New (config i') st0 sm0) as [[r|]|] eqn:Hnew; simplify_eq. by exists env, st0, r.
Qed.

End Safety.

(** ** A concrete run *)
Lemma demo_peers_nodup : NoDup demo_peers.
Proof. apply (bool_decide_unpack _). by vm_compute. Qed.

Lemma demo_peers_named : "" ∉ demo_peers.
Proof. apply (bool_decide_unpack _). by vm_compute. Qed.

Lemma demo_initial : initial demo_peers demo_config [] demo_start.
Proof.
  apply (boot_all_initial demo_peers demo_config [] demo_peers_nodup demo_peers_named (fun _ => eq_refl) (mkEnv 0 0) NewMemStorage); [done..|].
  by vm_compute.
Qed.

Lemma demo_leader_before : exists n, node_of demo_elected "a" = Some n /\ state (nd_raft n) = Leader /\ rterm (nd_raft n) = 1.
Proof.
  assert (Hs : (fun n => (state (nd_raft n), rterm (nd_raft n))) <$> node_of demo_elected "a" = Some (Leader, 1)) by by vm_compute.
  apply fmap_Some in Hs as (n & Hn & He). exists n.
  exact (conj Hn (conj (eq_sym (f_equal fst He)) (eq_sym (f_equal snd He)))).
Qed.

Lemma demo_leader_after : exists n, node_of demo_written "a" = Some n /\ state (nd_raft n) = Leader /\ rterm (nd_raft n) = 1.
Proof.
  assert (Hs : (fun n => (state (nd_raft n), rterm (nd_raft n))) <$> node_of demo_written "a" = Some (Leader, 1)) by by vm_compute.
  apply fmap_Some in Hs as (n & Hn & He). exists n.
  exact (conj Hn (conj (eq_sym (f_equal fst He)) (eq_sym (f_equal snd He)))).
Qed.

Lemma at_most_one_leader_per_term_witness :
  (exists n, node_of demo_elected "a" = Some n /\ state (nd_raft n) = Leader /\ rterm (nd_raft n) = 1) /\
  (exists n, node_of demo_written "a" = Some n /\ state (nd_raft n) = Leader /\ rterm (nd_raft n) = 1) /\ "a" = "a".
Proof.
  split; [exact demo_leader_before|]. split; [exact demo_leader_after|].
  destruct demo_leader_before as (n1 & H1 & Hs1 & Ht1). destruct demo_leader_after as (n2 & H2 & Hs2 & Ht2).
  exact (at_most_one_leader_per_term demo_peers demo_config [] demo_peers_named (fun _ => eq_refl) (fun _ => eq_refl)
    demo_start demo_elected demo_written "a" "a" n1 n2 demo_initial
    (run_schedule_steps _ _ _ _ _ (proj1 demo_election_runs)) (run_schedule_steps _ _ _ _ _ (proj1 demo_write_runs))
    H1 H2 Hs1 Hs2 (eq_trans Ht1 (eq_sym Ht2))).
Defined.
