(* ===== verification/LogCore.v ===== *)
(** * Replication, abstractly: why committed entries are never lost

    The history of a group, as far as its logs are concerned: every node's whole
    log and term, every vote with the log the voter had, every campaign with the log
    the candidate had, the log of the leader of every term, and which
    prefixes of it were acknowledged by whom. Six transitions change it. The theorem is
    leader completeness: a prefix acknowledged by a majority, ending in an entry of
    the leader's own term, is a prefix of the log of every later leader; so
    any two decided prefixes agree. *)

From stdpp Require Import functions.
From S2P Require Import Prelude Types RaftLog.

(** ** Logs *)
Definition ends_in (t : N) (L : list Entry) : Prop := exists P e, L = P ++ [e] /\ ent_Term e = t.

Definition last_term (L : list Entry) : N := default 0 (ent_Term <$> last L).

(** The candidate's log [lc] is at least as up-to-date as [l]. *)
Definition up_to_date (lc l : list Entry) : Prop :=
  last_term l < last_term lc \/ last_term l = last_term lc /\ (length l <= length lc)%nat.

Lemma take_prefix_of {A} n (l : list A) : take n l `prefix_of` l.
Proof. exists (drop n l). by rewrite take_drop. Qed.

Lemma prefix_take {A} n (l k : list A) : l `prefix_of` k -> (n <= length l)%nat -> take n l = take n k.
Proof. intros [j ->] Hn. by rewrite take_app_le. Qed.

Lemma prefix_take_eq {A} (l k : list A) : l `prefix_of` k -> l = take (length l) k.
Proof. intros [j ->]. by rewrite take_app_length. Qed.

Lemma take_prefix_mono {A} n (l k : list A) : l `prefix_of` k -> take n l `prefix_of` take n k.
Proof.
  intros Hp. destruct (decide (n <= length l)%nat) as [Hn|Hn]; [by rewrite (prefix_take n l k)|].
  rewrite (take_ge l) by lia. destruct Hp as [j ->]. rewrite take_app_ge by lia. by eexists.
Qed.

Lemma take_length_eq {A} n (l k : list A) : take n l = take n k -> (n <= length k)%nat -> (n <= length l)%nat.
Proof. intros He Hn. apply (f_equal length) in He. rewrite !length_take in He. lia. Qed.

Lemma take_eq_le {A} m n (l k : list A) : take n l = take n k -> (m <= n)%nat -> take m l = take m k.
Proof. intros He Hm. apply (f_equal (take m)) in He. by rewrite !take_take, Nat.min_l in He by done. Qed.

(** ** History *)
Record Election := mkElection {
  el_leader : string;
  el_voters : list string;
  el_base : list Entry;      (* the leader's log when it won *)
}.

Record History := mkHistory {
  h_term : string -> N;
  h_log : string -> list Entry;
  h_vote : string -> N -> option (string * list Entry);
  h_cand : string -> N -> option (list Entry);
  h_elect : N -> option Election;
  h_llog : N -> list Entry;
  h_ack : string -> N -> nat -> Prop;
}.

#[global] Instance eta_History : Eta History := fun h =>
  mkHistory (h_term h) (h_log h) (h_vote h) (h_cand h) (h_elect h) (h_llog h) (h_ack h).

Implicit Types h : History.

Definition elected_in h (t : N) : Prop := is_Some (h_elect h t).
Definition base h (t : N) : list Entry := match h_elect h t with Some el => el_base el | None => [] end.

(** Every prefix that ends in an entry of term [t] comes from the leader of [t]. *)
Definition log_valid h (L : list Entry) : Prop :=
  forall P e, P ++ [e] `prefix_of` L -> elected_in h (ent_Term e) /\ P ++ [e] `prefix_of` h_llog h (ent_Term e).

Definition terms_below (t : N) (L : list Entry) : Prop := Forall (fun e => ent_Term e < t) L.

Definition acked h (v : string) (T : N) (c : nat) : Prop :=
  c = 0%nat \/ exists m, (c <= m)%nat /\ h_ack h v T m.

(** A leader up to term [b] did not have the prefix. *)
Definition lost h (T : N) (c : nat) (b : N) : Prop :=
  exists W, T < W /\ W <= b /\ elected_in h W /\ take c (base h W) <> take c (h_llog h T).

Definition kept h (T : N) (c : nat) (L : list Entry) (b : N) : Prop :=
  take c L = take c (h_llog h T) \/ lost h T c b.

Section Core.
Context (peers : list string).

Definition majority (Q : list string) : Prop :=
  NoDup Q /\ Q ⊆ peers /\ (length peers / 2 + 1 <= length Q)%nat.

(** Decided by the leader of [T]: on a majority, and ending in its own term. *)
Definition committed h (T : N) (c : nat) : Prop :=
  ends_in T (take c (h_llog h T)) /\ elected_in h T /\ (c <= length (h_llog h T))%nat /\
  exists Q, majority Q /\ forall v, v ∈ Q -> acked h v T c.

Definition decided h (t : N) (P : list Entry) : Prop :=
  P = [] \/ exists T c, T <= t /\ committed h T c /\ P `prefix_of` take c (h_llog h T).

Record Hist_ok h : Prop := {
  ho_log : forall i, log_valid h (h_log h i) /\ terms_below (h_term h i + 1) (h_log h i);
  ho_llog : forall t, elected_in h t -> log_valid h (h_llog h t) /\
    terms_below t (base h t) /\ exists own, h_llog h t = base h t ++ own /\ own <> [] /\ Forall (fun e => ent_Term e = t) own;
  ho_none : forall t, h_elect h t = None -> h_llog h t = [];
  ho_vote : forall v t x l, h_vote h v t = Some (x, l) ->
    t <= h_term h v /\ log_valid h l /\ exists lc, h_cand h x t = Some lc /\ up_to_date lc l;
  ho_cand : forall x t l, h_cand h x t = Some l -> 0 < t <= h_term h x /\ log_valid h l /\ terms_below t l;
  ho_elect : forall t el, h_elect h t = Some el ->
    majority (el_voters el) /\ h_cand h (el_leader el) t = Some (el_base el) /\
    forall v, v ∈ el_voters el -> exists l, h_vote h v t = Some (el_leader el, l);
  ho_ack : forall v T m, h_ack h v T m -> T <= h_term h v /\ (m <= length (h_llog h T))%nat /\ elected_in h T;
  ho_kept : forall v T c, acked h v T c -> kept h T c (h_log h v) (h_term h v);
  ho_vote_kept : forall v U x l T c, h_vote h v U = Some (x, l) -> acked h v T c -> T < U -> kept h T c l U;
  ho_base_kept : forall U el v T c, h_elect h U = Some el -> v ∈ el_voters el -> acked h v T c -> T < U ->
    ends_in T (take c (h_llog h T)) -> kept h T c (el_base el) (U - 1);
}.

Lemma log_valid_prefix h L L' : log_valid h L -> L' `prefix_of` L -> log_valid h L'.
Proof. intros Hv Hp P e HP. apply Hv. by etrans. Qed.

Lemma log_valid_nil h : log_valid h [].
Proof. intros P e Hp. apply prefix_length in Hp. rewrite length_app in Hp. cbn in Hp. lia. Qed.

Lemma acked_le h v T c c' : acked h v T c -> (c' <= c)%nat -> acked h v T c'.
Proof. intros [->|(m & ? & ?)] ?; [left; lia|right]. exists m. split; [lia|done]. Qed.

(** Terms in the leader's log. *)
Lemma llog_terms h t e : Hist_ok h -> elected_in h t -> e ∈ h_llog h t -> ent_Term e <= t.
Proof.
  intros Hh Ht He. destruct (ho_llog _ Hh _ Ht) as (_ & Hb & own & Hl & _ & Ho). rewrite Hl in He.
  unfold terms_below in Hb. rewrite !Forall_forall in *.
  apply elem_of_app in He as [He|He]; [pose proof (Hb _ He); lia|]. by rewrite (Ho _ He).
Qed.

Lemma last_term_snoc P e : last_term (P ++ [e]) = ent_Term e.
Proof. unfold last_term. by rewrite last_snoc. Qed.

Lemma log_cases (L : list Entry) : L = [] \/ exists P e, L = P ++ [e].
Proof. destruct L as [|e L] using rev_ind; eauto. Qed.

(** No entry of a valid log has a greater term than the last one. *)
Lemma valid_last_term h L e : Hist_ok h -> log_valid h L -> e ∈ L -> ent_Term e <= last_term L.
Proof.
  intros Hh Hv He. destruct (log_cases L) as [->|(P & e' & ->)]; [by apply elem_of_nil in He|].
  rewrite last_term_snoc. destruct (Hv P e' ltac:(done)) as [Hel Hp]. apply (llog_terms h); [done..|].
  destruct Hp as [j Hj]. rewrite Hj. apply elem_of_app. by left.
Qed.

(** A winning candidate's log and the log of one of its voters. *)
Lemma up_to_date_kept h U lc l T c :
  Hist_ok h -> log_valid h lc -> terms_below U lc -> log_valid h l -> up_to_date lc l ->
  take c l = take c (h_llog h T) -> (c <= length (h_llog h T))%nat -> ends_in T (take c (h_llog h T)) ->
  kept h T c lc (U - 1).
Proof.
  unfold up_to_date. intros Hh Hlc Hb Hl Hup Hc Hlen (P & e & HP & He).
  assert (Hcl : (c <= length l)%nat) by by eapply take_length_eq.
  assert (Hin : e ∈ l).
  { rewrite <- Hc in HP. rewrite <- (take_drop c l), HP. set_solver. }
  pose proof (valid_last_term h l e Hh Hl Hin) as Hlt.
  assert (HTe : T <= last_term lc) by (destruct Hup; lia).
  destruct (log_cases lc) as [->|(Pc & ec & ->)].
  { destruct Hup as [Hup|[_ Hup]]; [by apply N.nlt_0_r in Hup|]. cbn in Hup. destruct l; [by apply elem_of_nil in Hin|cbn in Hup; lia]. }
  rewrite last_term_snoc in Hup, HTe. destruct (Hlc Pc ec ltac:(done)) as [Hel Hpre].
  set (u := ent_Term ec) in *. destruct (decide (u = T)) as [HuT|HuT].
  - left. assert (length l <= length (Pc ++ [ec]))%nat by lia. rewrite <- HuT. apply prefix_take; [done|lia].
  - destruct (decide (take c (base h u) = take c (h_llog h T))) as [Hk|Hk].
    + left. rewrite <- Hk. destruct (ho_llog _ Hh _ Hel) as (_ & Hbt & own & Hll & _ & _).
      assert (Hcb : (c <= length (base h u))%nat) by by eapply take_length_eq.
      assert (Hlong : (length (base h u) <= length (Pc ++ [ec]))%nat).
      { destruct (Nat.le_gt_cases (length (base h u)) (length (Pc ++ [ec]))) as [|Hgt]; [done|]. exfalso.
        assert (Hpb : Pc ++ [ec] `prefix_of` base h u).
        { rewrite (prefix_take_eq _ _ Hpre), Hll, take_app_le by lia. apply take_prefix_of. }
        unfold terms_below in Hbt. rewrite Forall_forall in Hbt. assert (ec ∈ base h u).
        { destruct Hpb as [j ->]. set_solver. }
        assert (ent_Term ec < u) by by apply Hbt. unfold u in *. lia. }
      rewrite (prefix_take c _ _ Hpre) by lia. rewrite Hll. by rewrite take_app_le.
    + right. exists u. split_and!; [lia| |done|done].
      unfold terms_below in Hb. rewrite Forall_app, Forall_singleton in Hb. destruct Hb as [_ Hb]. fold u in Hb. lia.
Qed.

(** ** Histories only grow *)
Record evolves h h' : Prop := {
  ev_term : forall i, h_term h i <= h_term h' i;
  ev_vote : forall v t y, h_vote h v t = Some y -> h_vote h' v t = Some y;
  ev_cand : forall x t l, h_cand h x t = Some l -> h_cand h' x t = Some l;
  ev_elect : forall t el, h_elect h t = Some el -> h_elect h' t = Some el;
  ev_llog : forall t, h_llog h t `prefix_of` h_llog h' t;
  ev_ack : forall v T m, h_ack h v T m -> h_ack h' v T m;
}.

#[global] Instance evolves_preorder : PreOrder evolves.
Proof.
  split; [intros h; by split|]. intros h1 h2 h3 H12 H23. split; intros.
  - etrans; [apply H12|apply H23].
  - by apply H23, H12.
  - by apply H23, H12.
  - by apply H23, H12.
  - etrans; [apply H12|apply H23].
  - by apply H23, H12.
Qed.

Lemma elected_evolves h h' t : evolves h h' -> elected_in h t -> elected_in h' t.
Proof. intros Hev [el He]. exists el. by apply Hev. Qed.

Lemma base_evolves h h' t : evolves h h' -> elected_in h t -> base h' t = base h t.
Proof. intros Hev [el He]. unfold base. by rewrite He, (ev_elect _ _ Hev _ _ He). Qed.

Lemma log_valid_evolves h h' L : evolves h h' -> log_valid h L -> log_valid h' L.
Proof.
  intros Hev Hv P e HP. destruct (Hv P e HP) as [He Hp]. split; [by eapply elected_evolves|]. etrans; [exact Hp|apply Hev].
Qed.

Lemma llog_take h h' t c : evolves h h' -> (c <= length (h_llog h t))%nat -> take c (h_llog h' t) = take c (h_llog h t).
Proof. intros Hev Hc. symmetry. apply prefix_take; [apply Hev|done]. Qed.

Lemma acked_evolves h h' v T c : evolves h h' -> acked h v T c -> acked h' v T c.
Proof. intros Hev [->|(m & ? & ?)]; [by left|right]. exists m. split; [done|by apply Hev]. Qed.

Lemma acked_length h v T c : Hist_ok h -> acked h v T c -> (c <= length (h_llog h T))%nat.
Proof. intros Hh [->|(m & ? & Ha)]; [lia|]. apply (ho_ack _ Hh) in Ha as (_ & ? & _). lia. Qed.

Lemma lost_evolves h h' T c b b' :
  evolves h h' -> (c <= length (h_llog h T))%nat -> b <= b' -> lost h T c b -> lost h' T c b'.
Proof.
  intros Hev Hc Hb (W & ? & ? & He & Hne). exists W. split_and!; [done|lia|by eapply elected_evolves|].
  by rewrite (base_evolves h h'), (llog_take h h').
Qed.

Lemma kept_evolves h h' T c L b b' :
  evolves h h' -> (c <= length (h_llog h T))%nat -> b <= b' -> kept h T c L b -> kept h' T c L b'.
Proof. intros Hev Hc Hb [Hk|Hl]; [left; by rewrite (llog_take h h')|right; by eapply lost_evolves]. Qed.

Lemma committed_evolves h h' T c : evolves h h' -> committed h T c -> committed h' T c.
Proof.
  intros Hev (He & Hel & Hc & Q & HQ & Ha). split_and!.
  - by rewrite (llog_take h h').
  - by eapply elected_evolves.
  - etrans; [exact Hc|]. apply prefix_length, Hev.
  - exists Q. split; [done|]. intros v Hv. eapply acked_evolves; eauto.
Qed.

Lemma decided_evolves h h' t t' P : evolves h h' -> t <= t' -> decided h t P -> decided h' t' P.
Proof.
  intros Hev Ht [->|(T & c & HT & Hc & HP)]; [by left|right]. exists T, c. split_and!; [lia|by eapply committed_evolves|].
  destruct Hc as (_ & _ & Hc & _). by rewrite (llog_take h h').
Qed.

Lemma decided_prefix h t P P' : decided h t P -> P' `prefix_of` P -> decided h t P'.
Proof.
  intros [->|(T & c & ? & ? & ?)] Hp; [left; by apply prefix_nil_inv|right]. exists T, c. split_and!; [done..|]. by etrans.
Qed.

(** ** Leader completeness *)
Lemma majorities_meet Q Q' : majority Q -> majority Q' -> exists v, v ∈ Q /\ v ∈ Q'.
Proof. intros (? & ? & ?) (? & ? & ?). by apply (quorum_intersect peers). Qed.

Lemma leader_completeness h T c U :
  Hist_ok h -> committed h T c -> T < U -> elected_in h U -> take c (base h U) = take c (h_llog h T).
Proof.
  intros Hh (Hends & _ & _ & Q & HQ & Hack). induction U as [U IH] using (well_founded_induction N.lt_wf_0). intros HTU [el Hel].
  destruct (ho_elect _ Hh _ _ Hel) as (Hmaj & _). destruct (majorities_meet _ _ HQ Hmaj) as (v & Hv1 & Hv2).
  destruct (ho_base_kept _ Hh U el v T c Hel Hv2 (Hack _ Hv1) HTU Hends) as [Hk|(W & ? & ? & HW & Hne)].
  - unfold base. by rewrite Hel.
  - destruct Hne. apply IH; [lia..|done].
Qed.

Lemma decided_in_llog h t P : Hist_ok h -> decided h t P -> elected_in h t -> P `prefix_of` h_llog h t.
Proof.
  intros Hh [->|(T & c & HT & Hc & HP)] Ht; [apply prefix_nil|]. etrans; [exact HP|].
  destruct (decide (T = t)) as [->|Hne]; [apply take_prefix_of|].
  rewrite <- (leader_completeness h T c t) by (done || lia). etrans; [apply take_prefix_of|].
  destruct (ho_llog _ Hh _ Ht) as (_ & _ & own & -> & _). by eexists.
Qed.

(** Two decided prefixes agree. *)
Lemma decided_agree h t t' P P' :
  Hist_ok h -> decided h t P -> decided h t' P' -> P `prefix_of` P' \/ P' `prefix_of` P.
Proof.
  intros Hh [->|(T & c & HT & Hc & HP)] [->|(T' & c' & HT' & Hc' & HP')];
    [left; apply prefix_nil|left; apply prefix_nil|right; apply prefix_nil|].
  assert (Hmax : exists U, P `prefix_of` h_llog h U /\ P' `prefix_of` h_llog h U).
  { destruct (N.le_ge_cases T T') as [Hle|Hle]; [exists T'|exists T]; split;
      try (etrans; [eassumption|apply take_prefix_of]);
      (eapply decided_in_llog; [done| |by apply Hc || by apply Hc']); right; eauto. }
  destruct Hmax as (U & H1 & H2). by eapply prefix_weak_total.
Qed.

(** ** Transitions *)

(** A node adopts a term. *)
Definition adopt (i : string) (t : N) h : History := h <| h_term := <[i := t]> (h_term h) |>.

(** A node starts a campaign in its term. *)
Definition campaigns (i : string) h : History :=
  h <| h_cand := fun x t => if decide (x = i /\ t = h_term h i) then Some (h_log h i) else h_cand h x t |>.

(** A node votes in its term. *)
Definition votes (v x : string) h : History :=
  h <| h_vote := fun w t => if decide (w = v /\ t = h_term h v) then Some (x, h_log h v) else h_vote h w t |>.

(** A candidate wins its term and puts an entry in its log. *)
Definition wins_term (x : string) (voters : list string) (e : Entry) h : History :=
  h <| h_elect := <[h_term h x := Some (mkElection x voters (h_log h x))]> (h_elect h) |>
    <| h_llog := <[h_term h x := h_log h x ++ [e]]> (h_llog h) |>.

(** The leader of a term appends entries. *)
Definition extends (t : N) (es : list Entry) h : History :=
  h <| h_llog := <[t := h_llog h t ++ es]> (h_llog h) |>.

(** A node makes sure it has the first [m] entries of the leader of its term. *)
Definition accepted_log (m : nat) (ll l : list Entry) : list Entry :=
  if decide (take m l = take m ll) then l else take m ll.

Definition accepts (i : string) (m : nat) h : History :=
  h <| h_log := <[i := accepted_log m (h_llog h (h_term h i)) (h_log h i)]> (h_log h) |>
    <| h_ack := fun v T n => h_ack h v T n \/ (v = i /\ T = h_term h i /\ n = m) |>.

Lemma adopt_evolves i t h : h_term h i <= t -> evolves h (adopt i t h).
Proof.
  intros Ht. split; try done. intros j. cbn. destruct (decide (i = j)) as [->|Hne].
  - by rewrite fn_lookup_insert.
  - by rewrite fn_lookup_insert_ne.
Qed.

Lemma campaigns_evolves i h : h_cand h i (h_term h i) = None -> evolves h (campaigns i h).
Proof. intros Hc. split; try done. intros x t l Hx. cbn. case_decide as Hd; [|done]. destruct Hd as [-> ->]. congruence. Qed.

Lemma votes_evolves v x h : h_vote h v (h_term h v) = None -> evolves h (votes v x h).
Proof. intros Hc. split; try done. intros w t l Hx. cbn. case_decide as Hd; [|done]. destruct Hd as [-> ->]. congruence. Qed.

Lemma wins_evolves x voters e h : Hist_ok h -> h_elect h (h_term h x) = None -> evolves h (wins_term x voters e h).
Proof.
  intros Hh Hn. split; try done; cbn.
  - intros t el He. rewrite fn_lookup_insert_ne; [done|]. intros <-. congruence.
  - intros t. destruct (decide (h_term h x = t)) as [<-|Hne].
    + rewrite (ho_none _ Hh _ Hn). apply prefix_nil.
    + by rewrite fn_lookup_insert_ne.
Qed.

Lemma extends_evolves t es h : evolves h (extends t es h).
Proof.
  split; try done; cbn. intros t'. destruct (decide (t = t')) as [<-|Hne].
  - rewrite fn_lookup_insert. by eexists.
  - by rewrite fn_lookup_insert_ne.
Qed.

Lemma accepts_evolves i m h : evolves h (accepts i m h).
Proof. split; try done. intros. by left. Qed.

(** What the transitions that only add facts leave to prove. *)
Lemma Hist_ok_grow h h' :
  Hist_ok h -> evolves h h' ->
  (forall v T m, h_ack h' v T m -> h_ack h v T m) -> (forall i, h_log h' i = h_log h i) ->
  (forall t, h_elect h' t = None -> h_llog h' t = []) ->
  (forall t, elected_in h' t -> log_valid h' (h_llog h' t) /\
    terms_below t (base h' t) /\ exists own, h_llog h' t = base h' t ++ own /\ own <> [] /\ Forall (fun e => ent_Term e = t) own) ->
  (forall v t x l, h_vote h' v t = Some (x, l) -> h_vote h v t = Some (x, l) \/
    t = h_term h' v /\ l = h_log h v /\ exists lc, h_cand h' x t = Some lc /\ up_to_date lc l) ->
  (forall x t l, h_cand h' x t = Some l -> h_cand h x t = Some l \/ t = h_term h' x /\ l = h_log h x /\ terms_below t l /\ 0 < t) ->
  (forall t el, h_elect h' t = Some el -> h_elect h t = Some el \/
    h_elect h t = None /\ majority (el_voters el) /\ h_cand h (el_leader el) t = Some (el_base el) /\
    forall v, v ∈ el_voters el -> exists l, h_vote h v t = Some (el_leader el, l)) ->
  Hist_ok h'.
Proof.
  intros Hh Hev Hack Hlog Hnone Hll Hvote Hcand Helect.
  assert (Hacked : forall v T c, acked h' v T c -> acked h v T c).
  { intros v T c [->|(m & ? & ?)]; [by left|right]. eauto. }
  split.
  - intros i. rewrite Hlog. destruct (ho_log _ Hh i) as [Hv Hb]. split; [by eapply log_valid_evolves|].
    eapply Forall_impl; [exact Hb|]. cbn. intros e. pose proof (ev_term _ _ Hev i). lia.
  - done.
  - done.
  - intros v t x l [Hv|(-> & -> & Hup)]%Hvote.
    + destruct (ho_vote _ Hh _ _ _ _ Hv) as (Ht & Hl & lc & Hc & Hup). split_and!.
      * etrans; [exact Ht|apply Hev].
      * by eapply log_valid_evolves.
      * exists lc. split; [by apply Hev|done].
    + split_and!; [done| |done]. eapply log_valid_evolves; [done|]. apply (ho_log _ Hh).
  - intros x t l [Hc|(-> & -> & Hb & Hp)]%Hcand.
    + destruct (ho_cand _ Hh _ _ _ Hc) as (Ht & Hl & Hb). pose proof (ev_term _ _ Hev x). split_and!; [lia|lia|by eapply log_valid_evolves|done].
    + split_and!; [done|done| |done]. eapply log_valid_evolves; [done|]. apply (ho_log _ Hh).
  - intros t el [He|(_ & Hm & Hc & Hv)]%Helect.
    + destruct (ho_elect _ Hh _ _ He) as (Hm & Hc & Hv). split_and!; [done|by apply Hev|].
      intros v Hin. destruct (Hv v Hin) as [l Hl]. exists l. by apply Hev.
    + split_and!; [done|by apply Hev|]. intros v Hin. destruct (Hv v Hin) as [l Hl]. exists l. by apply Hev.
  - intros v T m Ha%Hack. destruct (ho_ack _ Hh _ _ _ Ha) as (Ht & Hm & He). split_and!.
    + etrans; [exact Ht|apply Hev].
    + etrans; [exact Hm|]. apply prefix_length, Hev.
    + by eapply elected_evolves.
  - intros v T c Ha%Hacked. rewrite Hlog. eapply kept_evolves; [done|by eapply acked_length|apply Hev|by apply Hh].
  - intros v U x l T c Hv Ha%Hacked HT. pose proof (acked_length _ _ _ _ Hh Ha) as Hlen.
    apply Hvote in Hv as [Hv|(-> & -> & _)].
    + eapply kept_evolves; [done..| |by eapply ho_vote_kept]. done.
    + eapply kept_evolves; [done..| |by apply Hh]. apply Hev.
  - intros U el v T c He Hin Ha%Hacked HT Hends. pose proof (acked_length _ _ _ _ Hh Ha) as Hlen.
    rewrite (llog_take h h') in Hends by done. apply Helect in He as [He|(Hn & Hm & Hc & Hv)].
    + eapply kept_evolves; [done..| |by eapply ho_base_kept]. done.
    + destruct (Hv v Hin) as [l Hl]. destruct (ho_vote _ Hh _ _ _ _ Hl) as (_ & Hvl & lc & Hc' & Hup). rewrite Hc in Hc'. simplify_eq.
      destruct (ho_cand _ Hh _ _ _ Hc) as (_ & Hcv & Hcb). eapply (kept_evolves h); [done..|].
      destruct (ho_vote_kept _ Hh _ _ _ _ _ _ Hl Ha HT) as [Hk|(W & ? & ? & HW & Hne)].
      * by apply (up_to_date_kept h U _ l).
      * right. exists W. split_and!; [done| |done|done]. destruct (decide (W = U)) as [->|]; [|lia].
        destruct HW as [? ?]. congruence.
Qed.

(** *** Each transition keeps the history well-formed *)

(** The leaders' logs are untouched. *)
Lemma llog_same h h' :
  Hist_ok h -> evolves h h' -> (forall t, h_elect h' t = h_elect h t) -> (forall t, h_llog h' t = h_llog h t) ->
  forall t, elected_in h' t -> log_valid h' (h_llog h' t) /\
    terms_below t (base h' t) /\ exists own, h_llog h' t = base h' t ++ own /\ own <> [] /\ Forall (fun e => ent_Term e = t) own.
Proof.
  intros Hh Hev He Hl t Ht. unfold elected_in in Ht. rewrite He in Ht. rewrite Hl, (base_evolves h h') by done.
  destruct (ho_llog _ Hh _ Ht) as (Hv & ? & ?). split_and!; [by eapply log_valid_evolves|done..].
Qed.

Lemma adopt_ok i t h : Hist_ok h -> h_term h i <= t -> Hist_ok (adopt i t h).
Proof.
  intros Hh Ht. pose proof (adopt_evolves i t h Ht) as Hev. apply (Hist_ok_grow h); try done.
  - apply Hh.
  - by apply (llog_same h).
  - intros. by left.
  - intros. by left.
  - intros. by left.
Qed.

Lemma campaigns_ok i h :
  Hist_ok h -> h_cand h i (h_term h i) = None -> terms_below (h_term h i) (h_log h i) -> 0 < h_term h i -> Hist_ok (campaigns i h).
Proof.
  intros Hh Hn Hb Hp. pose proof (campaigns_evolves i h Hn) as Hev. apply (Hist_ok_grow h); try done.
  - apply Hh.
  - by apply (llog_same h).
  - intros. by left.
  - intros x t l. cbn. case_decide as Hd; [|by left]. destruct Hd as [-> ->]. intros [= <-]. by right.
  - intros. by left.
Qed.

Lemma votes_ok v x lc h :
  Hist_ok h -> h_vote h v (h_term h v) = None -> h_cand h x (h_term h v) = Some lc -> up_to_date lc (h_log h v) ->
  Hist_ok (votes v x h).
Proof.
  intros Hh Hn Hc Hup. pose proof (votes_evolves v x h Hn) as Hev. apply (Hist_ok_grow h); try done.
  - apply Hh.
  - by apply (llog_same h).
  - intros w t y l. cbn. case_decide as Hd; [|by left]. destruct Hd as [-> ->]. intros [= <- <-]. right. eauto.
  - intros. by left.
  - intros. by left.
Qed.

Lemma snoc_prefix {A} (P : list A) e (L es : list A) :
  P ++ [e] `prefix_of` L ++ es -> P ++ [e] `prefix_of` L \/ e ∈ es.
Proof.
  intros Hp. destruct (Nat.le_gt_cases (length (P ++ [e])) (length L)) as [Hl|Hl].
  - left. rewrite (prefix_take_eq _ _ Hp), take_app_le by done. apply take_prefix_of.
  - right. destruct Hp as [j Hj]. rewrite length_app in Hl. cbn in Hl.
    assert (Hlk : (L ++ es) !! length P = Some e).
    { rewrite Hj, <- app_assoc. by apply list_lookup_middle. }
    rewrite lookup_app_r in Hlk by lia. by apply list_elem_of_lookup_2 in Hlk.
Qed.

(** A leader's log with more entries of its own term. *)
Lemma llog_valid_snoc h t L es :
  elected_in h t -> log_valid h L -> Forall (fun e => ent_Term e = t) es -> h_llog h t = L ++ es -> log_valid h (L ++ es).
Proof.
  intros Ht Hv Hes Hl P e Hp. destruct (snoc_prefix _ _ _ _ Hp) as [HL|He]; [by apply Hv|].
  rewrite Forall_forall in Hes. rewrite (Hes _ He), Hl. done.
Qed.

Lemma wins_ok x voters e h :
  Hist_ok h -> h_elect h (h_term h x) = None -> h_cand h x (h_term h x) = Some (h_log h x) ->
  majority voters -> (forall v, v ∈ voters -> exists l, h_vote h v (h_term h x) = Some (x, l)) ->
  ent_Term e = h_term h x -> Hist_ok (wins_term x voters e h).
Proof.
  intros Hh Hn Hc Hm Hv He. pose proof (wins_evolves x voters e h Hh Hn) as Hev. apply (Hist_ok_grow h); try done.
  - intros t. cbn. destruct (decide (h_term h x = t)) as [<-|Hne]; [by rewrite fn_lookup_insert|].
    rewrite !fn_lookup_insert_ne by done. apply Hh.
  - intros t Ht. destruct (decide (h_term h x = t)) as [<-|Hne].
    + assert (Hl : h_llog (wins_term x voters e h) (h_term h x) = h_log h x ++ [e]) by (cbn; by rewrite fn_lookup_insert).
      assert (Hb : base (wins_term x voters e h) (h_term h x) = h_log h x) by (unfold base; cbn; by rewrite fn_lookup_insert).
      rewrite Hl, Hb. destruct (ho_cand _ Hh _ _ _ Hc) as (_ & Hcv & Hcb). split_and!.
      * eapply (llog_valid_snoc _ (h_term h x)); [done|by eapply log_valid_evolves|by apply Forall_singleton|done].
      * done.
      * exists [e]. split_and!; [done..|by apply Forall_singleton].
    + assert (Ht0 : elected_in h t).
      { destruct Ht as [el Hel]. exists el. cbn in Hel. by rewrite fn_lookup_insert_ne in Hel. }
      rewrite (base_evolves h) by done. destruct (ho_llog _ Hh _ Ht0) as (Hval & ? & ?). cbn.
      rewrite fn_lookup_insert_ne by done. split_and!; [by eapply log_valid_evolves|done..].
  - intros. by left.
  - intros. by left.
  - intros t el. cbn. destruct (decide (h_term h x = t)) as [<-|Hne].
    + rewrite fn_lookup_insert. intros [= <-]. right. by split_and!.
    + rewrite fn_lookup_insert_ne by done. by left.
Qed.

Lemma extends_ok t es h :
  Hist_ok h -> elected_in h t -> Forall (fun e => ent_Term e = t) es -> Hist_ok (extends t es h).
Proof.
  intros Hh Ht Hes. pose proof (extends_evolves t es h) as Hev. apply (Hist_ok_grow h); try done.
  - intros t'. cbn. destruct (decide (t = t')) as [<-|Hne]; [destruct Ht as [? Ht]; intros; congruence|].
    rewrite !fn_lookup_insert_ne by done. apply Hh.
  - intros t' Ht'. assert (Ht0 : elected_in h t') by done. rewrite (base_evolves h) by done.
    destruct (ho_llog _ Hh _ Ht0) as (Hval & Hb & own & Hown & Hne & Hot). destruct (decide (t = t')) as [<-|Hd].
    + assert (Hl : h_llog (extends t es h) t = h_llog h t ++ es) by (cbn; by rewrite fn_lookup_insert). rewrite Hl. split_and!.
      * eapply (llog_valid_snoc _ t); [done|by eapply log_valid_evolves|done|done].
      * done.
      * exists (own ++ es). rewrite Hown, <- app_assoc. split_and!; [done| |by apply Forall_app]. by destruct own.
    + cbn. rewrite fn_lookup_insert_ne by done. split_and!; [by eapply log_valid_evolves|done|by exists own].
  - intros. by left.
  - intros. by left.
  - intros. by left.
Qed.

Lemma accepted_log_take m ll l : (m <= length ll)%nat -> take m (accepted_log m ll l) = take m ll.
Proof. intros Hm. unfold accepted_log. case_decide; [done|]. by rewrite take_take, Nat.min_id. Qed.

(** What a node had acknowledged before survives, or a leader without it exists. *)
Lemma accepted_kept h T m l T0 c :
  Hist_ok h -> elected_in h T -> T0 <= T -> (c <= length (h_llog h T0))%nat ->
  kept h T0 c l T -> kept h T0 c (accepted_log m (h_llog h T) l) T.
Proof.
  intros Hh HT Hle Hc [Hk|Hl]; [|by right]. unfold accepted_log. case_decide as Hd; [by left|].
  assert (Hag : take c (h_llog h T) = take c (h_llog h T0) \/ lost h T0 c T).
  { destruct (decide (T0 = T)) as [->|Hne]; [by left|].
    destruct (decide (take c (base h T) = take c (h_llog h T0))) as [He|He].
    - left. rewrite <- He. destruct (ho_llog _ Hh _ HT) as (_ & _ & own & -> & _). apply take_app_le. by eapply take_length_eq.
    - right. exists T. split_and!; [lia|done|done|done]. }
  destruct Hag as [Hag|?]; [left|by right]. destruct (Nat.le_gt_cases c m) as [Hcm|Hcm].
  - by rewrite take_take, Nat.min_l.
  - destruct Hd. rewrite <- Hag in Hk. eapply take_eq_le; [exact Hk|lia].
Qed.

Lemma accepts_ok i m h :
  Hist_ok h -> elected_in h (h_term h i) -> (m <= length (h_llog h (h_term h i)))%nat -> Hist_ok (accepts i m h).
Proof.
  intros Hh Ht Hm. pose proof (accepts_evolves i m h) as Hev.
  assert (Hll : forall T, h_llog (accepts i m h) T = h_llog h T) by done.
  assert (Hkept : forall T c L b, kept h T c L b <-> kept (accepts i m h) T c L b) by done.
  assert (Hacked : forall v T c, acked (accepts i m h) v T c ->
    acked h v T c \/ v = i /\ T = h_term h i /\ (c <= m)%nat).
  { intros v T c [->|(n & Hn & [Ha|(-> & -> & ->)])]; [by left; left|by left; right; eauto|by right]. }
  split; try apply Hh.
  - intros j. cbn. destruct (decide (i = j)) as [<-|Hne]; [|rewrite fn_lookup_insert_ne by done; apply Hh].
    rewrite fn_lookup_insert. destruct (ho_log _ Hh i) as [Hv Hb]. unfold accepted_log. case_decide; [done|].
    destruct (ho_llog _ Hh _ Ht) as (Hval & _). split; [eapply log_valid_prefix; [exact Hval|apply take_prefix_of]|].
    apply Forall_forall. intros e He. assert (ent_Term e <= h_term h i); [|lia].
    apply (llog_terms h); [done..|]. apply list_elem_of_lookup in He as [k Hk].
    apply lookup_take_Some in Hk as [Hk _]. by eapply list_elem_of_lookup_2.
  - intros v T n [Ha|(-> & -> & ->)]; [by apply Hh|]. by split_and!.
  - intros v T c Ha. apply (proj1 (Hkept _ _ _ _)). cbn. destruct (decide (i = v)) as [<-|Hne].
    + rewrite fn_lookup_insert. apply Hacked in Ha as [Ha|(_ & -> & Hcm)].
      * destruct Ha as [->|(n & Hn & Ha)]; [by left; rewrite !take_0|].
        pose proof (ho_ack _ Hh _ _ _ Ha) as (HT & Hlen & _). apply accepted_kept; [done|done|done|lia|].
        apply Hh. right. eauto.
      * left. eapply take_eq_le; [by apply accepted_log_take|done].
    + rewrite fn_lookup_insert_ne by done. apply Hacked in Ha as [Ha|(-> & _)]; [by apply Hh|done].
  - intros v U x l T c Hv Ha HT. apply (proj1 (Hkept _ _ _ _)). apply Hacked in Ha as [Ha|(-> & -> & _)]; [by eapply ho_vote_kept|].
    apply (ho_vote _ Hh) in Hv as (? & _). lia.
  - intros U el v T c He Hin Ha HT Hends. apply (proj1 (Hkept _ _ _ _)). apply Hacked in Ha as [Ha|(-> & -> & _)]; [by eapply ho_base_kept|].
    destruct (ho_elect _ Hh _ _ He) as (_ & _ & Hv). destruct (Hv _ Hin) as [l Hl]. apply (ho_vote _ Hh) in Hl as (? & _). lia.
Qed.

End Core.
