(* ===== verification/LogFacts.v ===== *)
(** * What the handlers do to the log

    The log in memory and the durable log both stand for the list of every entry
    since index 1. These lemmas say which list they stand for after
    each critical section that changes them: the entries of a request replace a
    conflicting tail and nothing else, a snapshot replaces a prefix, and the
    durable log follows the one in memory. *)

From S2P Require Import Prelude Types RaftLog Storage Raft RaftFacts LogCore.

(** ** Lists *)
Lemma drop_take_app {A} (a q : nat) (F es : list A) :
  (a <= q)%nat -> (q <= length F)%nat -> take (q - a) (drop a F) ++ es = drop a (take q F ++ es).
Proof. intros Ha Hq. rewrite drop_app_le by (rewrite length_take; lia). by rewrite skipn_firstn_comm. Qed.

Lemma take_add_drop {A} (p k : nat) (L : list A) : take p L ++ take k (drop p L) = take (p + k) L.
Proof. by rewrite <- take_take_drop. Qed.

Lemma lterm_lookup F p e : F !! p = Some e -> lterm F (N.of_nat p + 1) = ent_Term e.
Proof.
  intros Hp. unfold lterm. destruct (N.eqb_spec (N.of_nat p + 1) 0); [lia|].
  replace (N.to_nat (N.of_nat p + 1 - 1)) with p by lia. by rewrite Hp.
Qed.

(** The same index and term mean the same prefix. *)
Definition matching (F L : list Entry) : Prop :=
  forall k e e', F !! k = Some e -> L !! k = Some e' -> ent_Term e = ent_Term e' -> take (S k) F = take (S k) L.

Lemma take_eq_lookup {A} (c k : nat) (F L : list A) : take c F = take c L -> (k < c)%nat -> F !! k = L !! k.
Proof. intros He Hk. by rewrite <- (lookup_take_lt F c), <- (lookup_take_lt L c), He. Qed.

(** ** The durable log *)
Lemma foldl_spec_append after (es : list Entry) : forall q F,
  (after <= q)%nat -> (q <= length F)%nat -> contiguous (N.of_nat q) es -> es <> [] ->
  foldl (spec_append (N.of_nat after)) (drop after F) es = drop after (take q F ++ es).
Proof.
  induction es as [|e es IH]; intros q F Ha Hq Hc Hne; [done|]. clear Hne. apply contiguous_cons in Hc as [He Hc]. cbn [foldl].
  assert (Hs : spec_append (N.of_nat after) (drop after F) e = drop after (take q F ++ [e])).
  { unfold spec_append. destruct (N.leb_spec (ent_Index e) (N.of_nat after)); [lia|].
    rewrite He. replace (N.to_nat (N.of_nat q + 1 - N.of_nat after - 1)) with (q - after)%nat by lia.
    by apply drop_take_app. }
  rewrite Hs. destruct es as [|e' es]; [done|].
  assert (Hl : length (take q F ++ [e]) = S q) by (rewrite length_app, length_take; cbn; lia).
  rewrite (IH (S q)) by (done || lia || by replace (N.of_nat (S q)) with (N.of_nat q + 1) by lia).
  rewrite (take_ge (take q F ++ [e])) by lia. by rewrite <- app_assoc.
Qed.

Lemma dur_append d hs (q : nat) F es :
  represents (d_log d) F -> d_snapIndex d <= N.of_nat q -> (q <= length F)%nat -> contiguous (N.of_nat q) es -> es <> [] ->
  represents (d_log (spec_save d hs es)) (take q F ++ es).
Proof.
  intros [Hlen He Hst] Ha Hq Hc Hne. cbn in Hlen, He, Hst. split; cbn;
    change (d_snapIndex (spec_save d hs es)) with (d_snapIndex d);
    change (d_snapTerm (spec_save d hs es)) with (d_snapTerm d).
  - autorewrite with edgekv. unfold lenN in *. lia.
  - rewrite He. rewrite <- (N2Nat.id (d_snapIndex d)) at 1. apply foldl_spec_append; [lia|done..].
  - rewrite lterm_app_l by (autorewrite with edgekv; unfold lenN; lia).
    rewrite Hst. replace q with (N.to_nat (N.of_nat q)) by lia. by rewrite lterm_take by lia.
Qed.

(** ** The entries of an AppendEntries request *)

(** Where [findFresh] stops, and what the log becomes. *)
Record stops_at (l : raftLog) (F LL : list Entry) (q m : nat) (fresh : list Entry) (l' : raftLog) : Prop := {
  sa_le : (q <= length F)%nat;
  sa_rep : represents l' (take q F);
  sa_wf : lastIndex l' <= lastIndex l;
  sa_fresh : contiguous (N.of_nat q) fresh;
  sa_log : take q F ++ fresh = accepted_log m LL F;
  sa_max : forall c, (c <= length F)%nat -> take c F = take c LL -> (c <= q)%nat;
}.

Lemma accepted_mismatch (m p : nat) (F LL : list Entry) :
  (p < m)%nat -> F !! p <> LL !! p -> accepted_log m LL F = take m LL.
Proof. intros Hp Hne. unfold accepted_log. case_decide as He; [|done]. destruct Hne. by apply (take_eq_lookup m). Qed.

Lemma findFresh_full es : forall p l F LL l' fresh,
  represents l F -> snapIndex l <= N.of_nat p -> (p <= length F)%nat -> take p F = take p LL ->
  es = take (length es) (drop p LL) -> contiguous (N.of_nat p) es -> matching F LL ->
  findFresh l es = Ok (l', fresh) ->
  fresh = [] /\ l' = l /\ take (p + length es) F = take (p + length es) LL \/
  fresh <> [] /\ exists q, stops_at l F LL q (p + length es) fresh l'.
Proof.
  induction es as [|e es IH]; intros p l F LL l' fresh Hrep Hsnap Hp Htake Hes Hc Hm Hf; cbn [findFresh] in Hf.
  { injection Hf as <- <-. left. cbn. by rewrite Nat.add_0_r. }
  pose proof Hc as Hc0. apply contiguous_cons in Hc as [He Hc].
  assert (HLp : LL !! p = Some e).
  { pose proof (f_equal (.!! 0%nat) Hes) as Hl. rewrite lookup_take_lt, lookup_drop, Nat.add_0_r in Hl by (cbn; lia). by cbn in Hl. }
  assert (Hes' : es = take (length es) (drop (S p) LL)).
  { apply (f_equal (drop 1)) in Hes. cbn [drop length] in Hes. rewrite drop_0 in Hes. rewrite Hes at 1.
    rewrite skipn_firstn_comm, drop_drop. cbn. by rewrite Nat.sub_0_r, Nat.add_1_r. }
  assert (Hall : take p F ++ e :: es = take (p + length (e :: es)) LL) by (rewrite Htake, Hes; rewrite length_take, length_drop;
    rewrite <- (take_add_drop p); do 2 f_equal; apply lookup_lt_Some in HLp; apply (f_equal length) in Hes;
    rewrite length_take, length_drop in Hes; lia).
  rewrite He, (rep_term _ _ _ Hrep) in Hf. destruct (N.leb_spec (snapIndex l) (N.of_nat p + 1)); [|lia].
  destruct (N.leb_spec (N.of_nat p + 1) (lenN F)) as [Hin|Hout]; cbn [andb] in Hf.
  - destruct (lookup_lt_is_Some_2 F p) as [eF HF]; [unfold lenN in *; lia|]. rewrite (lterm_lookup _ _ _ HF) in Hf.
    destruct (N.eqb_spec (ent_Term eF) (ent_Term e)) as [Heq|Hneq].
    + replace (p + length (e :: es))%nat with (S p + length es)%nat by (cbn; lia).
      apply (IH (S p) l); try done; [lia|unfold lenN in *; lia|by eapply Hm|].
      by replace (N.of_nat (S p)) with (N.of_nat p + 1) by lia.
    + right. destruct (rep_truncate l F (N.of_nat p + 1) Hrep ltac:(lia)) as [Ht Hr]. rewrite Ht in Hf. cbn in Hf.
      injection Hf as <- <-. split; [done|]. exists p. replace (N.to_nat (N.of_nat p + 1 - 1)) with p in Hr by lia.
      replace (N.to_nat (N.of_nat p + 1 - 1)) with p by lia.
      split; [done|exact Hr| |done| |].
      * rewrite (rep_lastIndex _ _ Hr), (rep_lastIndex _ _ Hrep). autorewrite with edgekv. lia.
      * rewrite Hall. symmetry. apply (accepted_mismatch _ p); [cbn; lia|]. rewrite HF, HLp. intros [= ->]. done.
      * intros c Hcl Hcc. destruct (Nat.le_gt_cases c p) as [|Hgt]; [done|]. exfalso.
        rewrite (take_eq_lookup c p F LL) in HF by done. rewrite HLp in HF. by injection HF as ->.
  - right. injection Hf as <- <-. split; [done|]. exists p. assert (p = length F) by (unfold lenN in *; lia).
    split; [done| |done|done| |lia].
    + by rewrite take_ge by lia.
    + rewrite Hall. symmetry. apply (accepted_mismatch _ p); [cbn; lia|]. rewrite HLp, lookup_ge_None_2 by lia. done.
Qed.

Section Handlers.
Context {S SM : Type} `{StorageLaws S} `{StateMachine SM}.
#[local] Abbreviation Raft := (Raft S SM).
Implicit Types r : Raft.

(** The log a replica stands for, in memory and on disk. *)
Definition holds_log r (F : list Entry) : Prop :=
  represents (rlog r) F /\ represents (d_log (durable (storage r))) F.

Lemma appendVerified_log req es p F LL r r' resp :
  node_ok r -> holds_log r F -> snapIndex (rlog r) <= N.of_nat p -> (p <= length F)%nat -> take p F = take p LL ->
  es = take (length es) (drop p LL) -> contiguous (N.of_nat p) es -> matching F LL ->
  d_snapIndex (durable (storage r)) <= lenN F ->
  take (N.to_nat (d_snapIndex (durable (storage r)))) F = take (N.to_nat (d_snapIndex (durable (storage r)))) LL ->
  appendVerified req es r = Ok (r', resp) ->
  exists l st, holds_log r' (accepted_log (p + length es) LL F) /\ d_snap (durable st) = d_snap (durable (storage r)) /\
    r' = r <| rlog := l |> <| storage := st |>
           <| commitIndex := N.max (commitIndex r) (N.min (ae_LeaderCommit req) (ae_PrevLogIndex req + lenN (ae_Entries req))) |> /\
    snapIndex l = snapIndex (rlog r) /\ resp = mkAppendEntriesResponse (rterm r) true 0 0.
Proof.
  intros Hok [Hmem Hdur] Hsnap Hp Htake Hes Hc Hm Hdl Hds Hb. unfold appendVerified in Hb.
  apply bind_Ok in Hb as ([l fresh] & Hf & Hb). apply bind_Ok in Hb as (r1 & Hs & Hb). inv_ok.
  assert (H1' : exists l1 st, r1 = r <| rlog := l1 |> <| storage := st |> /\ snapIndex l1 = snapIndex (rlog r) /\
            d_snap (durable st) = d_snap (durable (storage r)) /\
            represents l1 (accepted_log (p + length es) LL F) /\
            represents (d_log (durable st)) (accepted_log (p + length es) LL F)).
  { destruct (findFresh_full es p (rlog r) F LL l fresh) as [(-> & -> & Hmt)|(Hne & q & Hq)]; try done.
    - injection Hs as <-. exists (rlog r), (storage r). unfold accepted_log. rewrite decide_True by done.
      split_and!; try done; by destruct r.
    - pose proof (findFresh_spec _ _ _ _ Hf) as (k & Hl & _). destruct fresh as [|e0 fresh0]; [done|].
      apply bind_Ok in Hs as (l1 & Ha & Hs). apply append_Ok in Ha as [Hca ->].
      apply (persist_entries_ok l _ r) in Hs as (st & -> & _ & Hd).
      + exists (l <| entries := entries l ++ e0 :: fresh0 |>), st. split_and!; [done|by rewrite Hl|by rewrite Hd| |].
        * rewrite <- (sa_log _ _ _ _ _ _ _ Hq). apply rep_append, Hq.
        * rewrite Hd, <- (sa_log _ _ _ _ _ _ _ Hq). apply dur_append; [done| |apply Hq|apply Hq|done].
          assert (Hdn : (N.to_nat (d_snapIndex (durable (storage r))) <= length F)%nat) by (unfold lenN in *; lia).
          pose proof (sa_max _ _ _ _ _ _ _ Hq _ Hdn Hds). lia.
      + done.
      + rewrite Hl. apply contiguous_take, Hok.
      + done.
      + apply Hq.
      + by rewrite Hl. }
  destruct H1' as (l1 & st & -> & Hsn & Hdsn & Hr1 & Hr2). exists l1, st.
  match goal with |- context [commitIndex _ <? ?x] => set (nc := x) end.
  assert (Hcm : (if commitIndex r <? nc then nc else commitIndex r) = N.max (commitIndex r) nc) by (destruct (N.ltb_spec (commitIndex r) nc); lia).
  cbn [commitIndex rterm set_field]. unfold set_field at 1 2 3 4 5. cbn. rewrite <- Hcm.
  destruct (commitIndex r <? nc); split_and!; try done; by destruct r.
Qed.

(** The branches of [HandleAppendEntries]. *)
(** Why an append is refused, and with which hint: the log ends before the previous entry, or holds another term there. *)
Definition refuses (req : AppendEntriesRequest) r (resp : AppendEntriesResponse) : Prop :=
  aer_Success resp = false /\ snapIndex (rlog r) <= ae_PrevLogIndex req /\
  ((lastIndex (rlog r) < ae_PrevLogIndex req /\ aer_ConflictIndex resp = lastIndex (rlog r) + 1 /\ aer_ConflictTerm resp = 0) \/
   (ae_PrevLogIndex req <= lastIndex (rlog r) /\ term0 (rlog r) (ae_PrevLogIndex req) <> ae_PrevLogTerm req /\
    aer_ConflictTerm resp = term0 (rlog r) (ae_PrevLogIndex req) /\
    aer_ConflictIndex resp = firstIndexOfTerm (rlog r) (term0 (rlog r) (ae_PrevLogIndex req)) (ae_PrevLogIndex req))).

Lemma HandleAppendEntries_cases env req r r' resp :
  node_ok r -> HandleAppendEntries env req r = Ok (r', resp) ->
  (ae_Term req < rterm r /\ r' = r /\ aer_Success resp = false) \/
  exists r1, node_ok r1 /\ rest r1 = rest r /\ rterm r <= ae_Term req /\ rterm r1 = ae_Term req /\
    votedFor r1 = (if rterm r <? ae_Term req then "" else votedFor r) /\ state r1 = Follower /\
    let snap := snapIndex (rlog r1) in
    let skip := snap - ae_PrevLogIndex req in
    let p := N.max snap (ae_PrevLogIndex req) in
    (r' = r1 /\ refuses req r1 resp) \/
    (r' = r1 /\ aer_Success resp = true /\ ae_PrevLogIndex req + lenN (ae_Entries req) <= snap) \/
    (p <= lastIndex (rlog r1) /\ (ae_PrevLogIndex req < snap -> skip < lenN (ae_Entries req)) /\
     (snap <= ae_PrevLogIndex req -> term0 (rlog r1) p = ae_PrevLogTerm req) /\
     appendVerified req (drop (N.to_nat skip) (ae_Entries req)) r1 = Ok (r', resp)).
Proof.
  intros Hok. unfold HandleAppendEntries. destruct (N.ltb_spec (ae_Term req) (rterm r)) as [Hlt|Hge].
  { intros Hb. inv_ok. by left. }
  intros Hb. apply bind_Ok in Hb as (r0 & Hd & Hb). right.
  assert (H0' : node_ok r0 /\ rest r0 = rest r /\ rterm r0 = ae_Term req /\
            votedFor r0 = (if rterm r <? ae_Term req then "" else votedFor r) /\ state r0 = Follower).
  { destruct ((rterm r <? ae_Term req) || _ || _) eqn:Hg.
    - apply becomeFollower_facts in Hd as (? & ? & Ht & ? & ? & _); [|done]. split_and!; try done. lia.
    - inv_ok. apply orb_false_iff in Hg as [[Hg1 Hg2]%orb_false_iff Hg3]. apply N.ltb_ge in Hg1 as Hg1'.
      apply negb_false_iff, bool_decide_eq_true in Hg2. rewrite Hg1. split_and!; try done. lia. }
  destruct H0' as (Hok0 & Hrest & Ht & Hv & Hst).
  exists (resetElectionTimerLocked env (r0 <| lastLeaderContact := now env |>)).
  revert Hb. set (r1 := resetElectionTimerLocked _ _).
  assert (H1' : node_ok r1 /\ rest r1 = rest r0 /\ rterm r1 = rterm r0 /\ votedFor r1 = votedFor r0 /\ state r1 = state r0).
  { split_and!; try done. by apply (node_ok_ext r0). }
  clearbody r1. destruct H1' as (Hok1 & Hrest1 & Ht1 & Hv1 & Hst1). intros Hb.
  split_and!; [done|congruence|done|congruence|congruence|congruence|]. cbn zeta.
  destruct (N.ltb_spec (ae_PrevLogIndex req) (snapIndex (rlog r1))) as [Hps|Hps]; cbn [andb] in Hb.
  - destruct (N.leb_spec (lenN (ae_Entries req)) (snapIndex (rlog r1) - ae_PrevLogIndex req)) as [Hle|Hgt].
    { inv_ok. right. left. split_and!; [done|done|lia]. }
    rewrite N.max_l by lia. destruct (N.ltb_spec (lastIndex (rlog r1)) (snapIndex (rlog r1))) as [Hl|Hl]; [unfold lastIndex in Hl; lia|].
    destruct (N.eqb_spec (snapIndex (rlog r1)) (ae_PrevLogIndex req)); [lia|]. cbn [andb] in Hb. do 2 right. split_and!; [done|done|lia|done].
  - rewrite N.max_r by lia. destruct (N.ltb_spec (lastIndex (rlog r1)) (ae_PrevLogIndex req)) as [Hl|Hl]; [inv_ok; left; unfold refuses; split_and!; [done..|by left]|].
    rewrite N.eqb_refl in Hb. cbn [andb] in Hb.
    destruct (N.eqb_spec (term0 (rlog r1) (ae_PrevLogIndex req)) (ae_PrevLogTerm req)) as [Het|Het]; cbn [negb] in Hb;
      [|inv_ok; left; unfold refuses; split_and!; [done..|by right]].
    do 2 right. split_and!; [done|lia|done|]. by replace (snapIndex (rlog r1) - ae_PrevLogIndex req) with 0 by lia.
Qed.

(** ** Snapshots *)
Lemma dur_snapshot d F i t data :
  represents (d_log d) F -> i <= lenN F -> t = lterm F i -> represents (d_log (spec_snapshot d i t data false)) F.
Proof.
  intros Hrep Hi ->. unfold spec_snapshot. destruct (bool_decide _ && _) eqn:Hb; [done|]. apply snapshot_newer in Hb.
  destruct Hrep as [Hlen He Hst]. cbn in *. split; cbn; [done| |done]. rewrite He, drop_drop. f_equal. lia.
Qed.

Lemma dur_snapshot_discard d F i data :
  d_snapIndex d < i -> i <= lenN F -> represents (d_log (spec_snapshot d i (lterm F i) data true)) (take (N.to_nat i) F).
Proof.
  intros Hi Hl. unfold spec_snapshot. destruct (bool_decide _ && _) eqn:Hb.
  - apply andb_prop in Hb as [_ Hb%N.leb_le]. lia.
  - by apply rep_reset.
Qed.

(** The branches of [HandleInstallSnapshot]. *)
Lemma HandleInstallSnapshot_cases env req r r' resp :
  node_ok r -> HandleInstallSnapshot env req r = Ok (r', resp) ->
  (is_Term req < rterm r /\ r' = r /\ isr_Term resp = rterm r) \/
  exists r1, node_ok r1 /\ rest r1 = rest r /\ rterm r <= is_Term req /\ rterm r1 = is_Term req /\
    votedFor r1 = (if rterm r <? is_Term req then "" else votedFor r) /\ state r1 = Follower /\
    isr_Term resp = is_Term req /\
    ((is_LastIncludedIndex req <= commitIndex r1 /\ r' = r1) \/
     exists st deadline, let keep := bool_decide (term (rlog r1) (is_LastIncludedIndex req) = Some (is_LastIncludedTerm req)) in
       commitIndex r1 < is_LastIncludedIndex req /\
       storage_ok st /\
       durable st = spec_snapshot (durable (storage r1)) (is_LastIncludedIndex req) (is_LastIncludedTerm req) (is_Data req) (negb keep) /\
       r' = r1 <| storage := st |>
               <| rlog := if keep then compactTo (rlog r1) (is_LastIncludedIndex req) (is_LastIncludedTerm req)
                          else reset (is_LastIncludedIndex req) (is_LastIncludedTerm req) |>
               <| commitIndex := is_LastIncludedIndex req |> <| pendingSnapshot := Some req |>
               <| electionDeadline := deadline |>).
Proof.
  intros Hok. unfold HandleInstallSnapshot. destruct (N.ltb_spec (is_Term req) (rterm r)) as [Hlt|Hge].
  { intros Hb. inv_ok. by left. }
  intros Hb. apply bind_Ok in Hb as (r0 & Hd & Hb). right.
  assert (H0' : node_ok r0 /\ rest r0 = rest r /\ rterm r0 = is_Term req /\
            votedFor r0 = (if rterm r <? is_Term req then "" else votedFor r) /\ state r0 = Follower).
  { destruct ((rterm r <? is_Term req) || _ || _) eqn:Hg.
    - apply becomeFollower_facts in Hd as (? & ? & Ht & ? & ? & _); [|done]. split_and!; try done. lia.
    - inv_ok. apply orb_false_iff in Hg as [[Hg1 Hg2]%orb_false_iff Hg3]. apply N.ltb_ge in Hg1 as Hg1'.
      apply negb_false_iff, bool_decide_eq_true in Hg2. rewrite Hg1. split_and!; try done. lia. }
  destruct H0' as (Hok0 & Hrest & Ht & Hv & Hst). clear Hd.
  revert Hb. set (r1 := r0 <| lastLeaderContact := now env |>).
  assert (H1' : node_ok r1 /\ rest r1 = rest r0 /\ rterm r1 = rterm r0 /\ votedFor r1 = votedFor r0 /\ state r1 = state r0).
  { split_and!; try done. by apply (node_ok_ext r0). }
  clearbody r1. destruct H1' as (Hok1 & Hrest1 & Ht1 & Hv1 & Hst1).
  destruct (N.leb_spec (is_LastIncludedIndex req) (commitIndex r1)) as [Hle|Hgt]; intros Hb.
  - inv_ok. exists (resetElectionTimerLocked env r1).
    split_and!; try done; [by apply (node_ok_ext r1)|transitivity (rest r1); [done|congruence]|cbn; congruence|cbn; congruence|cbn; congruence|cbn; congruence|].
    by left.
  - destruct (SaveSnapshot _ _ _ _) as [st b] eqn:Hsv. apply SaveSnapshot_ok in Hsv as (-> & Hst' & Hd); [|done]. inv_ok.
    exists r1. split_and!; try congruence; try done; [cbn; congruence|]. right.
    exists st, (electionDeadline (resetElectionTimerLocked env r1)). split_and!; done.
Qed.

End Handlers.
