(* ===== verification/Agree.v ===== *)
(** * The replicas follow the abstract history

    Relates every replica, goroutine and message of a group to a history
    ([LogCore.v]), and shows that each critical section of a replica is a sequence
    of the history's transitions: adopting a term, campaigning, voting, winning,
    appending as leader, accepting the leader's entries. *)

From stdpp Require Import functions.
From S2P Require Import Prelude Types RaftLog Storage Raft RaftFacts Cluster Election LogCore LogFacts.

(** The first [c] entries. *)
Definition pre (c : N) (L : list Entry) : list Entry := take (N.to_nat c) L.

Lemma pre_le c c' L L' : pre c L = pre c L' -> c' <= c -> pre c' L = pre c' L'.
Proof. unfold pre. intros He Hc. eapply take_eq_le; [exact He|lia]. Qed.

Lemma pre_prefix c L : pre c L `prefix_of` L.
Proof. apply take_prefix_of. Qed.

Lemma pre_mono c c' L : c <= c' -> pre c L `prefix_of` pre c' L.
Proof.
  intros Hc. unfold pre. replace (take (N.to_nat c) L) with (take (N.to_nat c) (take (N.to_nat c') L)); [apply take_prefix_of|].
  rewrite take_take. f_equal. lia.
Qed.

Lemma lterm_pre c L L' i : pre c L = pre c L' -> i <= c -> lterm L i = lterm L' i.
Proof. unfold pre. intros He Hi. rewrite <- (lterm_take L c), <- (lterm_take L' c) by done. by rewrite He. Qed.

Lemma lterm_last L : lterm L (lenN L) = last_term L.
Proof.
  unfold lterm, last_term, lenN. destruct (log_cases L) as [->|(P & e & ->)]; [done|]. rewrite length_app, last_snoc. cbn.
  destruct (N.eqb_spec (N.of_nat (length P + 1)) 0); [lia|].
  replace (N.to_nat (N.of_nat (length P + 1) - 1)) with (length P) by lia. by rewrite list_lookup_middle.
Qed.

(** Valid logs match. *)
Lemma valid_matching h F L : log_valid h F -> log_valid h L -> matching F L.
Proof.
  intros HF HL k e e' Hk Hk' Ht.
  assert (Hsplit : forall (G : list Entry) x, G !! k = Some x -> take (S k) G = take k G ++ [x]).
  { intros G x Hx. by apply take_S_r. }
  destruct (HF (take k F) e) as [_ HpF]; [rewrite <- Hsplit by done; apply take_prefix_of|].
  destruct (HL (take k L) e') as [_ HpL]; [rewrite <- Hsplit by done; apply take_prefix_of|].
  rewrite <- (Hsplit F e), Ht in HpF by done. rewrite <- (Hsplit L e') in HpL by done.
  apply lookup_lt_Some in Hk, Hk'.
  rewrite (prefix_take_eq _ _ HpF), (prefix_take_eq _ _ HpL). by rewrite !length_take_le by lia.
Qed.

Section Agreement.
Context {S SM : Type} `{StorageLaws S} `{StateMachine SM}.
Context (peers : list string).

#[local] Abbreviation Raft := (Raft S SM).
#[local] Abbreviation NodeSt := (NodeSt S SM).
Implicit Types r : Raft.

(** ** Replicas *)
Definition leads h (i : string) r : Prop :=
  (exists el, h_elect h (rterm r) = Some el /\ el_leader el = i) /\ h_log h i = h_llog h (rterm r) /\
  acked h i (rterm r) (length (h_log h i)) /\
  forall p, acked h p (rterm r) (N.to_nat (mapGet (matchIndex r) p)) /\ mapGet (nextIndex r) p <= lenN (h_log h i) + 1.

Record raft_rel h (i : string) r : Prop := {
  rr_term : h_term h i = rterm r;
  rr_log : holds_log r (h_log h i);
  rr_commit : commitIndex r <= lenN (h_log h i);
  rr_decided : decided peers h (rterm r) (pre (commitIndex r) (h_log h i));
  rr_snap : snapIndex (rlog r) <= commitIndex r;
  rr_dsnap : d_snapIndex (durable (storage r)) <= commitIndex r;
  rr_novote : votedFor r = "" -> h_vote h i (rterm r) = None;
  rr_vote : votedFor r <> "" -> exists l, h_vote h i (rterm r) = Some (votedFor r, l);
  rr_leader : state r = Leader -> leads h i r;
  rr_cand : state r = Candidate ->
    h_cand h i (rterm r) = Some (h_log h i) /\ forall el, h_elect h (rterm r) = Some el -> el_leader el <> i;
}.

(** ** Messages *)
Definition vote_rel h (req : RequestVoteRequest) : Prop :=
  rv_PreVote req = false ->
  exists lc, h_cand h (rv_CandidateId req) (rv_Term req) = Some lc /\
    rv_LastLogIndex req = lenN lc /\ rv_LastLogTerm req = last_term lc.

(** A request of the leader of its term carries a slice of that leader's log. *)
Record append_rel h (req : AppendEntriesRequest) : Prop := {
  ar_elected : elected_in h (ae_Term req);
  ar_len : ae_PrevLogIndex req + lenN (ae_Entries req) <= lenN (h_llog h (ae_Term req));
  ar_entries : ae_Entries req = take (length (ae_Entries req)) (drop (N.to_nat (ae_PrevLogIndex req)) (h_llog h (ae_Term req)));
  ar_prev : ae_PrevLogTerm req = lterm (h_llog h (ae_Term req)) (ae_PrevLogIndex req);
  ar_commit : ae_LeaderCommit req <= lenN (h_llog h (ae_Term req));
  ar_decided : decided peers h (ae_Term req) (pre (ae_LeaderCommit req) (h_llog h (ae_Term req)));
}.

Record snap_rel h (req : InstallSnapshotRequest) : Prop := {
  sr_elected : elected_in h (is_Term req);
  sr_len : is_LastIncludedIndex req <= lenN (h_llog h (is_Term req));
  sr_term : is_LastIncludedTerm req = lterm (h_llog h (is_Term req)) (is_LastIncludedIndex req);
  sr_decided : decided peers h (is_Term req) (pre (is_LastIncludedIndex req) (h_llog h (is_Term req)));
}.

Definition msg_rel h (m : Msg) : Prop :=
  match m_body m with
  | MVote req => vote_rel h req
  | MVoteResp _ _ => True
  | MAppend _ req => append_rel h req
  | MAppendResp _ req resp =>
      aer_Success resp = true ->
      acked h (m_src m) (ae_Term req) (N.to_nat (ae_PrevLogIndex req + lenN (ae_Entries req)))
  | MSnap _ meta req => sm_LastIncludedIndex meta = is_LastIncludedIndex req /\ snap_rel h req
  | MSnapResp _ meta req resp =>
      isr_Term resp <= is_Term req -> acked h (m_src m) (is_Term req) (N.to_nat (sm_LastIncludedIndex meta))
  | MTimeoutNow _ => True
  end.

(** ** Histories change by the moves of one node *)
Definition indexed h : Prop := (forall i, contiguous 0 (h_log h i)) /\ forall t, contiguous 0 (h_llog h t).

Definition good h : Prop := Hist_ok peers h /\ indexed h.

Record moves (i : string) h h' : Prop := {
  mv_evolves : evolves h h';
  mv_term : forall j, j <> i -> h_term h' j = h_term h j;
  mv_log : forall j, j <> i -> h_log h' j = h_log h j;
  mv_vote : forall j t, j <> i -> h_vote h' j t = h_vote h j t;
  mv_llog : forall t el, h_elect h t = Some el -> el_leader el <> i -> h_llog h' t = h_llog h t;
  mv_elect : forall t el, h_elect h' t = Some el -> h_elect h t = Some el \/ el_leader el = i;
}.

#[global] Instance moves_preorder i : PreOrder (moves i).
Proof.
  split; [intros h; by split; auto|]. intros h1 h2 h3 H12 H23. split; intros.
  - etrans; [apply H12|apply H23].
  - by rewrite (mv_term _ _ _ H23), (mv_term _ _ _ H12).
  - by rewrite (mv_log _ _ _ H23), (mv_log _ _ _ H12).
  - by rewrite (mv_vote _ _ _ H23), (mv_vote _ _ _ H12).
  - rewrite (mv_llog _ _ _ H23 t el); [by eapply mv_llog|by apply (ev_elect _ _ (mv_evolves _ _ _ H12))|done].
  - match goal with He : h_elect h3 _ = Some _ |- _ => destruct (mv_elect _ _ _ H23 _ _ He) as [He2|]; [|by right] end.
    by eapply mv_elect.
Qed.

Lemma vote_rel_mono h h' req : evolves h h' -> vote_rel h req -> vote_rel h' req.
Proof. intros Hev Hv Hp. destruct (Hv Hp) as (lc & Hc & ?). exists lc. split; [by apply Hev|done]. Qed.

Lemma pre_llog h h' t c : evolves h h' -> c <= lenN (h_llog h t) -> pre c (h_llog h' t) = pre c (h_llog h t).
Proof. intros Hev Hc. unfold pre. apply llog_take; [done|]. unfold lenN in *. lia. Qed.

Lemma llog_lenN h h' t : evolves h h' -> lenN (h_llog h t) <= lenN (h_llog h' t).
Proof. intros Hev. pose proof (prefix_length _ _ (ev_llog _ _ Hev t)). unfold lenN. lia. Qed.

Lemma slice_prefix {A} (l k : list A) n p : l `prefix_of` k -> (p + n <= length l)%nat -> take n (drop p l) = take n (drop p k).
Proof. intros [j ->] Hn. rewrite drop_app_le by lia. rewrite take_app_le; [done|]. rewrite length_drop. lia. Qed.

Lemma append_rel_mono h h' req : evolves h h' -> append_rel h req -> append_rel h' req.
Proof.
  intros Hev [He Hl Hes Hp Hc Hd]. pose proof (llog_lenN h h' (ae_Term req) Hev). split.
  - by eapply elected_evolves.
  - lia.
  - rewrite Hes at 1. apply slice_prefix; [apply Hev|unfold lenN in *; lia].
  - rewrite Hp. eapply lterm_pre; [symmetry; by apply (pre_llog h h' _ (ae_PrevLogIndex req)); [|lia]|lia].
  - lia.
  - rewrite (pre_llog h h') by done. by eapply decided_evolves.
Qed.

Lemma snap_rel_mono h h' req : evolves h h' -> snap_rel h req -> snap_rel h' req.
Proof.
  intros Hev [He Hl Ht Hd]. pose proof (llog_lenN h h' (is_Term req) Hev). split.
  - by eapply elected_evolves.
  - lia.
  - rewrite Ht. eapply lterm_pre; [symmetry; by apply (pre_llog h h')|lia].
  - rewrite (pre_llog h h') by done. by eapply decided_evolves.
Qed.

Lemma msg_rel_mono h h' m : evolves h h' -> msg_rel h m -> msg_rel h' m.
Proof.
  intros Hev. unfold msg_rel. destruct (m_body m).
  - by apply vote_rel_mono.
  - done.
  - by apply append_rel_mono.
  - intros Hm Hs. eapply acked_evolves; [done|by apply Hm].
  - intros [? ?]. split; [done|by eapply snap_rel_mono].
  - intros Hm Hs. eapply acked_evolves; [done|by apply Hm].
  - done.
Qed.

(** The other nodes do not notice. *)
Lemma raft_rel_other i j h h' r : moves i h h' -> j <> i -> raft_rel h j r -> raft_rel h' j r.
Proof.
  intros Hmv Hne [Ht Hl Hc Hd Hs Hds Hnv Hv Hld Hcd]. pose proof (mv_evolves _ _ _ Hmv) as Hev.
  split; rewrite ?(mv_term _ _ _ Hmv), ?(mv_log _ _ _ Hmv), ?(mv_vote _ _ _ Hmv) by done; try done.
  - by eapply decided_evolves.
  - intros Hst. destruct (Hld Hst) as ((el & Hel & Hi) & Hll & Ha & Hm). unfold leads.
    rewrite (mv_log _ _ _ Hmv) by done. split_and!.
    + exists el. split; [by apply Hev|done].
    + rewrite (mv_llog _ _ _ Hmv _ _ Hel) by congruence. done.
    + by eapply acked_evolves.
    + intros p. destruct (Hm p). split; [by eapply acked_evolves|done].
  - intros Hst. destruct (Hcd Hst) as [Hcand Hno]. split; [by apply Hev|].
    intros el Hel. destruct (mv_elect _ _ _ Hmv _ _ Hel) as [?|]; [by apply Hno|congruence].
Qed.

(** ** What a step of one node must establish *)
Record follows (i : string) h r h' r' : Prop := {
  fo_moves : moves i h h';
  fo_good : good h';
  fo_rel : raft_rel h' i r';
  fo_commit : commitIndex r <= commitIndex r';
  fo_stable : pre (commitIndex r) (h_log h' i) = pre (commitIndex r) (h_log h i);
}.

Lemma follows_refl i h r : good h -> raft_rel h i r -> follows i h r h r.
Proof. by split. Qed.

Lemma follows_trans i h r h1 r1 h2 r2 : follows i h r h1 r1 -> follows i h1 r1 h2 r2 -> follows i h r h2 r2.
Proof.
  intros [Hm1 _ _ Hc1 Hs1] [Hm2 Hg2 Hr2 Hc2 Hs2]. split; [by etrans|done|done|lia|].
  rewrite <- Hs1. by eapply pre_le.
Qed.

(** Fields the relation does not look at. *)
Definition view r :=
  (rterm r, votedFor r, rlog r, d_snap (durable (storage r)), d_entries (durable (storage r)), commitIndex r, state r, matchIndex r,
   nextIndex r).

Lemma d_log_ext d d' : d_snap d' = d_snap d -> d_entries d' = d_entries d -> d_log d' = d_log d /\ d_snapIndex d' = d_snapIndex d.
Proof. unfold d_log, d_snapIndex, d_snapTerm. intros -> ->. done. Qed.

Lemma raft_rel_view h i r r' : view r' = view r -> raft_rel h i r -> raft_rel h i r'.
Proof.
  unfold view. intros [= Et Ev El Es Ee Ec Est Em En]. destruct (d_log_ext _ _ Es Ee) as [Hdl Hdi].
  intros [Ht Hl Hc Hd Hs Hds Hnv Hv Hld Hcd]. unfold holds_log in *.
  split; unfold holds_log, leads in *; rewrite ?Et, ?Ev, ?El, ?Hdl, ?Hdi, ?Ec, ?Est, ?Em, ?En; done.
Qed.

Lemma follows_view i h r h1 r1 r2 : follows i h r h1 r1 -> view r2 = view r1 -> follows i h r h1 r2.
Proof.
  intros [Hm Hg Hr Hc Hs] Hv. split; [done|done|by eapply raft_rel_view| |done]. unfold view in Hv. congruence.
Qed.

Lemma follows_frame i h r r' : good h -> raft_rel h i r -> view r' = view r -> follows i h r h r'.
Proof. intros Hg Hr Hv. eapply follows_view; [by apply follows_refl|done]. Qed.

End Agreement.
