(* ===== verification/AgreeSteps.v ===== *)
(** * Each critical section of a replica moves the history lawfully *)

From stdpp Require Import functions.
From S2P Require Import Prelude Types RaftLog Storage Raft RaftFacts Cluster Election LogCore LogFacts Agree.

Section Steps.
Context {S SM : Type} `{StorageLaws S} `{StateMachine SM}.
Context (peers : list string).

#[local] Abbreviation Raft := (Raft S SM).
#[local] Abbreviation good := (good peers).
#[local] Abbreviation raft_rel := (raft_rel peers).
#[local] Abbreviation follows := (follows peers).
Implicit Types r : Raft.

(** ** The transitions are moves of one node *)
Lemma adopt_moves i t h : h_term h i <= t -> moves i h (adopt i t h).
Proof.
  intros Ht. split; try done; [by apply adopt_evolves| |by left].
  intros j Hj. cbn. by rewrite fn_lookup_insert_ne.
Qed.

Lemma campaigns_moves i h : h_cand h i (h_term h i) = None -> moves i h (campaigns i h).
Proof. intros Hc. split; try done; [by apply campaigns_evolves|by left]. Qed.

Lemma votes_moves i x h : h_vote h i (h_term h i) = None -> moves i h (votes i x h).
Proof.
  intros Hc. split; try done; [by apply votes_evolves| |by left].
  intros j t Hj. cbn. rewrite decide_False by naive_solver. done.
Qed.

Lemma wins_moves i voters e h :
  Hist_ok peers h -> h_elect h (h_term h i) = None -> moves i h (wins_term i voters e h).
Proof.
  intros Hh Hn. split; try done; [by eapply wins_evolves| |].
  - intros t el Hel _. cbn. rewrite fn_lookup_insert_ne; [done|]. intros <-. congruence.
  - intros t el. cbn. destruct (decide (h_term h i = t)) as [<-|Hne].
    + rewrite fn_lookup_insert. intros [= <-]. by right.
    + rewrite fn_lookup_insert_ne by done. by left.
Qed.

Lemma extends_moves i t es h el : h_elect h t = Some el -> el_leader el = i -> moves i h (extends t es h).
Proof.
  intros Hel Hi. split; try done; [by apply extends_evolves| |by left].
  intros t' el' Hel' Hne. cbn. rewrite fn_lookup_insert_ne; [done|]. intros <-. congruence.
Qed.

Lemma accepts_moves i m h : moves i h (accepts i m h).
Proof.
  split; try done; [apply accepts_evolves| |by left]. intros j Hj. cbn. by rewrite fn_lookup_insert_ne.
Qed.

Lemma accepted_stable (c m : nat) (F ll : list Entry) :
  (c <= length F)%nat -> take c F = take c ll -> take c (accepted_log m ll F) = take c F.
Proof.
  intros Hc He. unfold accepted_log. case_decide as Hd; [done|]. destruct (Nat.le_gt_cases c m) as [Hcm|Hcm].
  - by rewrite take_take, Nat.min_l.
  - destruct Hd. eapply take_eq_le; [exact He|lia].
Qed.

Lemma accepted_contiguous m ll F : contiguous 0 F -> contiguous 0 ll -> contiguous 0 (accepted_log m ll F).
Proof. intros HF Hl. unfold accepted_log. case_decide; [done|]. by apply contiguous_take. Qed.

Lemma good_accepts i m h :
  good h -> elected_in h (h_term h i) -> (m <= length (h_llog h (h_term h i)))%nat -> good (accepts i m h).
Proof.
  intros [Hh [Hi Hl]] He Hm. split; [by apply accepts_ok|]. split; [|done].
  intros j. cbn. destruct (decide (i = j)) as [<-|Hne]; [|by rewrite fn_lookup_insert_ne].
  rewrite fn_lookup_insert. by apply accepted_contiguous.
Qed.

(** ** Stepping down *)
Lemma stepdown_follows i h r r1 :
  good h -> raft_rel h i r -> rest r1 = rest r -> rterm r <= rterm r1 ->
  votedFor r1 = (if rterm r <? rterm r1 then "" else votedFor r) -> state r1 = Follower ->
  follows i h r (adopt i (rterm r1) h) r1.
Proof.
  intros Hg Hr Hrest Ht Hv Hst. pose proof Hr as [Et El Ec Ed Es Eds Env Ev _ _]. destruct Hg as [Hh Hix].
  unfold rest in Hrest. injection Hrest as Hcfg Ho Hq Hl Hci _ _ Hmi _ _ _ _ _ Hsn Hen.
  destruct (d_log_ext _ _ Hsn Hen) as [Hdl Hdi]. assert (Hle : h_term h i <= rterm r1) by (rewrite Et; lia).
  split; [by apply adopt_moves|split; [by apply adopt_ok|done]| |by rewrite Hci|done].
  split; cbn; try (by rewrite Hst); rewrite ?Hci, ?Hl, ?Hdi; try done.
  - by rewrite fn_lookup_insert.
  - unfold holds_log. by rewrite Hl, Hdl.
  - eapply decided_evolves; [by apply adopt_evolves|exact Ht|done].
  - intros Hn. rewrite Hv in Hn. destruct (N.ltb_spec (rterm r) (rterm r1)) as [Hlt|Hge].
    + destruct (h_vote h i (rterm r1)) as [[x l]|] eqn:Hx; [|done]. apply (ho_vote _ _ Hh) in Hx as (Hx & _). lia.
    + replace (rterm r1) with (rterm r) by lia. by apply Env.
  - intros Hn. rewrite Hv in Hn |- *. destruct (N.ltb_spec (rterm r) (rterm r1)) as [Hlt|Hge]; [done|].
    replace (rterm r1) with (rterm r) by lia. by apply Ev.
Qed.

(** ** Accepting a prefix of the leader's log *)
Lemma decided_pre h i r :
  good h -> raft_rel h i r -> elected_in h (rterm r) ->
  pre (commitIndex r) (h_log h i) = pre (commitIndex r) (h_llog h (rterm r)).
Proof.
  intros [Hh _] Hr He. pose proof (decided_in_llog peers h _ _ Hh (rr_decided _ _ _ _ Hr) He) as Hp.
  pose proof (rr_commit _ _ _ _ Hr) as Hc. rewrite (prefix_take_eq _ _ Hp). unfold pre. rewrite length_take_le; [done|].
  unfold lenN in *. lia.
Qed.

Lemma accept_follows i h r r' m :
  good h -> raft_rel h i r -> elected_in h (rterm r) -> m <= lenN (h_llog h (rterm r)) ->
  rterm r' = rterm r -> votedFor r' = votedFor r -> state r' = Follower ->
  holds_log r' (accepted_log (N.to_nat m) (h_llog h (rterm r)) (h_log h i)) ->
  commitIndex r' = commitIndex r \/
    commitIndex r <= commitIndex r' /\ commitIndex r' <= m /\ decided peers h (rterm r) (pre (commitIndex r') (h_llog h (rterm r))) ->
  snapIndex (rlog r') <= commitIndex r' -> d_snapIndex (durable (storage r')) <= commitIndex r' ->
  follows i h r (accepts i (N.to_nat m) h) r'.
Proof.
  intros Hg Hr He Hm Et Ev Est Hl Hc Hs Hds. pose proof (rr_term _ _ _ _ Hr) as Ht.
  assert (Hmn : (N.to_nat m <= length (h_llog h (rterm r)))%nat) by (unfold lenN in *; lia).
  set (F := h_log h i) in *. set (ll := h_llog h (rterm r)) in *. set (F' := accepted_log (N.to_nat m) ll F) in *.
  assert (HF' : h_log (accepts i (N.to_nat m) h) i = F') by (cbn; rewrite fn_lookup_insert; by rewrite Ht).
  pose proof (rr_commit _ _ _ _ Hr) as Hcl. pose proof (decided_pre h i r Hg Hr He) as Hdp. fold F ll in Hcl, Hdp.
  assert (Hst : pre (commitIndex r) F' = pre (commitIndex r) F).
  { apply accepted_stable; [unfold lenN in *; lia|done]. }
  assert (Hpm : pre m F' = pre m ll) by by apply accepted_log_take.
  assert (Hnew : pre (commitIndex r') F' = pre (commitIndex r) F \/ pre (commitIndex r') F' = pre (commitIndex r') ll /\
            decided peers h (rterm r) (pre (commitIndex r') ll)).
  { destruct Hc as [->|(_ & Hcm & Hd)]; [by left|right]. split; [by eapply pre_le|done]. }
  split.
  - apply accepts_moves.
  - apply good_accepts; [done|by rewrite Ht..].
  - split; rewrite ?HF', ?Et, ?Ev, ?Est; try done.
    + destruct Hc as [->|(_ & Hcm & _)].
      * pose proof (take_length_eq (N.to_nat (commitIndex r)) F' F Hst ltac:(unfold lenN in *; lia)). unfold lenN in *. lia.
      * pose proof (take_length_eq (N.to_nat m) F' ll Hpm Hmn). unfold lenN. lia.
    + eapply decided_evolves; [apply accepts_evolves|done|].
      destruct Hnew as [->|[-> ?]]; [by apply Hr|done].
    + apply Hr.
    + apply Hr.
  - destruct Hc as [->|(? & _)]; done.
  - by rewrite HF'.
Qed.

Lemma accept_acked i m h : acked (accepts i m h) i (h_term h i) m.
Proof. right. exists m. split; [done|]. by right. Qed.

(** ** AppendEntries *)
Lemma append_rel_take h req k : append_rel peers h req -> append_rel peers h (req <| ae_Entries := take k (ae_Entries req) |>).
Proof.
  intros [He Hl Hes Hp Hc Hd]. split; cbn; try done.
  - autorewrite with edgekv. lia.
  - rewrite length_take, Hes at 1. by rewrite take_take.
Qed.

Lemma valid_pair h i t : good h -> elected_in h t -> matching (h_log h i) (h_llog h t).
Proof.
  intros [Hh _] Ht. apply (valid_matching h); [apply (ho_log _ _ Hh)|]. by apply (ho_llog _ _ Hh).
Qed.

(** The same term at an index the leader also has. *)
Lemma matching_pre F ll p :
  matching F ll -> p <= lenN F -> p <= lenN ll -> lterm F p = lterm ll p -> pre p F = pre p ll.
Proof.
  intros Hm HF Hl Ht. unfold pre, lenN in *. destruct (N.to_nat p) as [|k] eqn:Hk; [done|].
  destruct (lookup_lt_is_Some_2 F k) as [e He]; [lia|]. destruct (lookup_lt_is_Some_2 ll k) as [e' He']; [lia|].
  eapply Hm; [done..|]. rewrite <- (lterm_lookup _ _ _ He), <- (lterm_lookup _ _ _ He').
  by replace (N.of_nat k + 1) with p by lia.
Qed.

Lemma append_follows env req i h r r' resp :
  good h -> node_ok r -> raft_rel h i r -> append_rel peers h req -> HandleAppendEntries env req r = Ok (r', resp) ->
  exists h', follows i h r h' r' /\
    (aer_Success resp = true -> acked h' i (ae_Term req) (N.to_nat (ae_PrevLogIndex req + lenN (ae_Entries req)))).
Proof.
  intros Hg Hok Hr Har Hb. apply HandleAppendEntries_cases in Hb as [(_ & -> & Hf)|Hb]; [..|done].
  { exists h. split; [by apply follows_refl|]. by rewrite Hf. }
  destruct Hb as (r1 & Hok1 & Hrest & Hle & Ht1 & Hv1 & Hst1 & Hb). rewrite <- Ht1 in Hle, Hv1.
  pose proof (stepdown_follows i h r r1 Hg Hr Hrest Hle Hv1 Hst1) as Hfo.
  set (h1 := adopt i (rterm r1) h) in *. pose proof Hfo as [Hmv Hg1 Hr1 _ _].
  pose proof (append_rel_mono peers h h1 req (mv_evolves _ _ _ Hmv) Har) as [He Hlen Hes Hp Hlc Hd]. rewrite <- Ht1 in *.
  pose proof (rr_term _ _ _ _ Hr1) as Et1. clearbody h1. clear Hr Har Hrest Hv1 Hle Hok Hg.
  set (m := ae_PrevLogIndex req + lenN (ae_Entries req)) in *.
  assert (Hack : acked (accepts i (N.to_nat m) h1) i (rterm r1) (N.to_nat m)) by (rewrite <- Et1; apply accept_acked).
  pose proof (rr_commit _ _ _ _ Hr1) as Hcl. pose proof (decided_pre h1 i r1 Hg1 Hr1 He) as Hdp.
  pose proof (rr_snap _ _ _ _ Hr1) as Hsn. pose proof (rr_dsnap _ _ _ _ Hr1) as Hdsn.
  destruct Hb as [(-> & Hf & _)|[(-> & _ & Hcov)|(Hpl & Hskip & Hterm & Hb)]].
  - exists h1. split; [done|]. by rewrite Hf.
  - exists (accepts i (N.to_nat m) h1). split; [|done]. eapply follows_trans; [exact Hfo|].
    apply accept_follows; try done; [|by left]. unfold accepted_log. rewrite decide_True; [apply Hr1|].
    eapply take_eq_le; [exact Hdp|lia].
  - exists (accepts i (N.to_nat m) h1). split; [|done]. eapply follows_trans; [exact Hfo|].
    set (snap := snapIndex (rlog r1)) in *. set (p := N.max snap (ae_PrevLogIndex req)) in *.
    set (F := h_log h1 i) in *. set (ll := h_llog h1 (rterm r1)) in *. destruct (rr_log _ _ _ _ Hr1) as [Hmem Hdur].
    rewrite (rep_lastIndex _ _ Hmem) in Hpl. fold F in Hmem, Hdur, Hpl.
    pose proof (valid_pair h1 i (rterm r1) Hg1 He) as Hm. fold F ll in Hm.
    assert (Hpre : pre p F = pre p ll).
    { destruct (N.le_gt_cases snap (ae_PrevLogIndex req)) as [Hsp|Hsp].
      - apply matching_pre; [done|done|lia|]. rewrite <- (rep_term0 _ _ _ Hmem) by lia.
        rewrite Hterm by done. rewrite Hp. f_equal. lia.
      - eapply pre_le; [exact Hdp|]. lia. }
    assert (Hpm : (N.to_nat p + length (drop (N.to_nat (snap - ae_PrevLogIndex req)) (ae_Entries req)))%nat = N.to_nat m).
    { rewrite length_drop. unfold lenN in *. unfold m, lenN. lia. }
    assert (Hes' : drop (N.to_nat (snap - ae_PrevLogIndex req)) (ae_Entries req) =
      take (length (drop (N.to_nat (snap - ae_PrevLogIndex req)) (ae_Entries req))) (drop (N.to_nat p) ll)).
    { rewrite length_drop. rewrite Hes at 1. rewrite skipn_firstn_comm, drop_drop. do 2 f_equal. lia. }
    apply (appendVerified_log req _ (N.to_nat p) F ll) in Hb; try done.
    + destruct Hb as (l & st & Hhl & Hds & -> & Hsnl & ->). rewrite Hpm in Hhl.
      assert (Hdi : d_snapIndex (durable st) = d_snapIndex (durable (storage r1))) by (unfold d_snapIndex; by rewrite Hds).
      apply accept_follows; try done; cbn.
      * destruct (N.le_gt_cases (N.min (ae_LeaderCommit req) m) (commitIndex r1)) as [Hmax|Hmax]; [left; lia|right].
        rewrite N.max_r by lia. split_and!; [lia|lia|]. eapply decided_prefix; [exact Hd|]. apply pre_mono. lia.
      * rewrite Hsnl. fold snap. lia.
      * rewrite Hdi. lia.
    + lia.
    + unfold lenN in *. lia.
    + rewrite Hes', N2Nat.id. apply contiguous_take. destruct Hg1 as [_ [_ Hix]].
      pose proof (contiguous_drop 0 ll (N.to_nat p) (Hix _)) as Hc. by rewrite N2Nat.id in Hc.
    + unfold F in *. lia.
    + eapply take_eq_le; [exact Hdp|lia].
Qed.

(** ** InstallSnapshot *)
Lemma install_log F ll r1 (idx t : N) data st (keep := bool_decide (term (rlog r1) idx = Some t)) r' :
  holds_log r1 F -> matching F ll -> idx <= lenN ll -> t = lterm ll idx ->
  snapIndex (rlog r1) <= idx -> d_snapIndex (durable (storage r1)) < idx ->
  durable st = spec_snapshot (durable (storage r1)) idx t data (negb keep) ->
  rlog r' = (if keep then compactTo (rlog r1) idx t else reset idx t) -> storage r' = st ->
  holds_log r' (accepted_log (N.to_nat idx) ll F).
Proof.
  intros [Hmem Hdur] Hm Hil -> Hs Hds Hd Hl Hst. unfold holds_log. rewrite Hl, Hst, Hd. subst keep.
  rewrite (rep_term _ _ _ Hmem). destruct (N.leb_spec (snapIndex (rlog r1)) idx); [|lia]. cbn [andb].
  destruct (N.leb_spec idx (lenN F)) as [HiF|HiF].
  - destruct (decide (lterm F idx = lterm ll idx)) as [Hk|Hk].
    + rewrite bool_decide_true by (by rewrite Hk). unfold accepted_log. rewrite decide_True by by apply matching_pre.
      split; [|by apply dur_snapshot]. rewrite <- Hk. by apply rep_compact.
    + rewrite bool_decide_false by congruence. unfold accepted_log. rewrite decide_False.
      * split; [by apply rep_reset|by apply dur_snapshot_discard].
      * intros Hp. apply Hk. by apply (lterm_pre idx).
  - rewrite bool_decide_false by done. unfold accepted_log. rewrite decide_False.
    + split; [by apply rep_reset|by apply dur_snapshot_discard].
    + intros Hp. apply take_length_eq in Hp; unfold lenN in *; lia.
Qed.

Lemma install_follows env req i h r r' resp :
  good h -> node_ok r -> raft_rel h i r -> snap_rel peers h req -> HandleInstallSnapshot env req r = Ok (r', resp) ->
  exists h', follows i h r h' r' /\
    (isr_Term resp <= is_Term req -> acked h' i (is_Term req) (N.to_nat (is_LastIncludedIndex req))).
Proof.
  intros Hg Hok Hr Hsr Hb. apply HandleInstallSnapshot_cases in Hb as [(Hlt & -> & Ht)|Hb]; [..|done].
  { exists h. split; [by apply follows_refl|]. rewrite Ht. lia. }
  destruct Hb as (r1 & Hok1 & Hrest & Hle & Ht1 & Hv1 & Hst1 & _ & Hb). rewrite <- Ht1 in Hle, Hv1.
  pose proof (stepdown_follows i h r r1 Hg Hr Hrest Hle Hv1 Hst1) as Hfo.
  set (h1 := adopt i (rterm r1) h) in *. pose proof Hfo as [Hmv Hg1 Hr1 _ _].
  pose proof (snap_rel_mono peers h h1 req (mv_evolves _ _ _ Hmv) Hsr) as [He Hlen Htm Hd]. rewrite <- Ht1 in *.
  pose proof (rr_term _ _ _ _ Hr1) as Et1. clearbody h1. clear Hr Hsr Hrest Hv1 Hle Hok Hg.
  set (m := is_LastIncludedIndex req) in *. exists (accepts i (N.to_nat m) h1).
  split; [|intros _; rewrite <- Et1; apply accept_acked]. eapply follows_trans; [exact Hfo|].
  pose proof (rr_snap _ _ _ _ Hr1) as Hsn. pose proof (rr_dsnap _ _ _ _ Hr1) as Hdsn.
  destruct Hb as [(Hcov & ->)|(st & dl & Hgt & Hst & Hdu & ->)].
  - apply accept_follows; try done; [|by left]. unfold accepted_log. rewrite decide_True; [apply Hr1|].
    pose proof (decided_pre h1 i r1 Hg1 Hr1 He) as Hdp. eapply take_eq_le; [exact Hdp|lia].
  - apply accept_follows; try done; cbn.
    + eapply (install_log _ _ r1 m); try done; [apply Hr1|by apply valid_pair|lia|lia].
    + right. split_and!; [lia|done|done].
    + case_match; [rewrite compactTo_snap; lia|done].
    + rewrite Hdu, spec_snapshot_index. lia.
Qed.

(** ** Votes *)
Lemma up_to_date_spec h i r req lc :
  raft_rel h i r -> rv_LastLogIndex req = lenN lc -> rv_LastLogTerm req = last_term lc ->
  logUpToDateLocked (rv_LastLogIndex req) (rv_LastLogTerm req) r = true -> up_to_date lc (h_log h i).
Proof.
  intros Hr -> ->. unfold logUpToDateLocked, up_to_date. destruct (rr_log _ _ _ _ Hr) as [Hmem _].
  rewrite (rep_lastTerm _ _ Hmem), (rep_lastIndex _ _ Hmem), lterm_last.
  destruct (N.eqb_spec (last_term lc) (last_term (h_log h i))) as [->|Hne]; cbn.
  - intros Hl%N.leb_le. right. unfold lenN in Hl. split; [done|lia].
  - intros Hl%N.ltb_lt. by left.
Qed.

(** The branches of [HandleRequestVote] that matter. *)
Lemma HandleRequestVote_cases env req r r' resp :
  node_ok r -> HandleRequestVote env req r = Ok (r', resp) ->
  r' = r \/
  rv_PreVote req = false /\ exists r1, node_ok r1 /\ rest r1 = rest r /\ rterm r <= rterm r1 /\ rterm r1 = rv_Term req /\
    votedFor r1 = (if rterm r <? rterm r1 then "" else votedFor r) /\
    (state r1 = Follower \/ r1 = r) /\
    (r' = r1 \/ (votedFor r1 = "" \/ votedFor r1 = rv_CandidateId req) /\
       logUpToDateLocked (rv_LastLogIndex req) (rv_LastLogTerm req) r1 = true /\
       view r' = view (r1 <| votedFor := rv_CandidateId req |>)).
Proof.
  intros Hok. unfold HandleRequestVote. destruct (rv_PreVote req); [intros Hb; inv_ok; by left|].
  destruct (N.ltb_spec (rv_Term req) (rterm r)) as [|Hge]; [intros Hb; inv_ok; by left|].
  intros Hb. right. split; [done|]. apply bind_Ok in Hb as (r1 & Hd & Hb). exists r1.
  assert (H1' : node_ok r1 /\ rest r1 = rest r /\ rterm r <= rterm r1 /\ rterm r1 = rv_Term req /\
    votedFor r1 = (if rterm r <? rterm r1 then "" else votedFor r) /\ (state r1 = Follower \/ r1 = r)).
  { destruct (N.ltb_spec (rterm r) (rv_Term req)) as [Hlt|Heq].
    - apply becomeFollower_facts in Hd as (? & ? & Ht & Hv & ? & _); [|done]. rewrite N.max_r in Ht by lia.
      split_and!; [done|done|lia|done|by rewrite Ht|by left].
    - inv_ok. rewrite N.ltb_irrefl. split_and!; [done|done|lia|lia|done|by right]. }
  destruct H1' as (Hok1 & H2' & H3' & H4' & H5' & H6'). split_and!; [done..|].
  destruct (negb _ || negb _) eqn:Hg; [inv_ok; by left|right].
  apply orb_false_iff in Hg as [Hcan%negb_false_iff Hup%negb_false_iff]. apply bind_Ok in Hb as (r2 & Hp & Hb). inv_ok.
  apply (persist_hs_ok r1) in Hp as (st & -> & _ & Hsn & Hen); [|done..]. split_and!; [|done|].
  - by apply orb_true_iff in Hcan as [?%bool_decide_eq_true|?%bool_decide_eq_true]; [left|right].
  - unfold view. cbn. cbn in Hsn, Hen. by rewrite Hsn, Hen.
Qed.

Lemma vote_set_follows i h r x lc :
  good h -> raft_rel h i r -> votedFor r = "" -> x <> "" -> h_cand h x (rterm r) = Some lc -> up_to_date lc (h_log h i) ->
  follows i h r (votes i x h) (r <| votedFor := x |>).
Proof.
  intros [Hh Hix] Hr Hv Hx Hc Hup. pose proof Hr as [Et El Ec Ed Es Eds Env Ev Eld Ecd]. specialize (Env Hv).
  assert (Hev : evolves h (votes i x h)) by (apply votes_evolves; by rewrite Et).
  split; [apply votes_moves; by rewrite Et|split; [|done]| |done|done].
  - apply (votes_ok peers i x lc); [done|by rewrite Et|by rewrite Et|done].
  - split; try done.
    + intros _. cbn. rewrite Et, decide_True by done. by eexists.
Qed.

Lemma vote_follows env req i h r r' resp :
  good h -> node_ok r -> raft_rel h i r -> vote_rel h req -> rv_CandidateId req <> "" ->
  HandleRequestVote env req r = Ok (r', resp) -> exists h', follows i h r h' r'.
Proof.
  intros Hg Hok Hr Hvr Hne Hb. apply HandleRequestVote_cases in Hb as [->|(Hpre & r1 & Hok1 & Hrest & Hle & Ht & Hv & Hst & Hb)]; [..|done].
  { exists h. by apply follows_refl. }
  assert (H1' : exists h1, follows i h r h1 r1).
  { destruct Hst as [Hst| ->]; [|exists h; by apply follows_refl]. eexists. by apply stepdown_follows. }
  destruct H1' as [h1 Hfo]. destruct Hb as [->|(Hcan & Hup & Hview)]; [by exists h1|].
  pose proof Hfo as [Hmv Hg1 Hr1 _ _]. apply (vote_rel_mono h h1) in Hvr; [|apply Hmv].
  destruct (Hvr Hpre) as (lc & Hc & Hi & Htm). apply (up_to_date_spec h1 i r1 req lc) in Hup; [|done..].
  destruct Hcan as [Hnone|Hsame].
  - exists (votes i (rv_CandidateId req) h1). eapply follows_trans; [exact Hfo|].
    eapply follows_view; [|exact Hview]. eapply vote_set_follows; try done. by rewrite Ht.
  - exists h1. eapply follows_view; [exact Hfo|]. rewrite Hview. unfold view. cbn. by rewrite Hsame.
Qed.

(** ** The commit index of a leader *)
Lemma filter_all_length (P : N -> Prop) `{forall x, Decision (P x)} (l : list N) : Forall P l -> length (filter P l) = length l.
Proof. induction 1 as [|x l Hx _ IH]; [done|]. rewrite filter_cons_True by done. cbn. by rewrite IH. Qed.

(** At least [q] of the sorted values are no less than the [q]-th from the end. *)
Lemma sorted_count (l : list N) (q : nat) (c : N) :
  (q <= length l)%nat -> (1 <= q)%nat -> merge_sort N.le l !! (length l - q)%nat = Some c ->
  (q <= length (filter (fun x => (c <= x)%N) l))%nat.
Proof.
  intros Hq Hq1 Hc. set (ms := merge_sort N.le l) in *. assert (Hp : ms ≡ₚ l) by apply merge_sort_Permutation.
  assert (Hs : StronglySorted N.le ms).
  { apply StronglySorted_merge_sort; [intros a b d; apply N.le_trans|intros a b; lia]. }
  rewrite <- Hp in *. assert (Hlen : length ms = length l) by by rewrite Hp.
  assert (Hall : Forall (fun x => c <= x) (drop (length ms - q) ms)).
  { apply Forall_forall. intros x Hx. apply list_elem_of_lookup in Hx as [k Hk]. rewrite lookup_drop in Hk.
    destruct k as [|k]; [rewrite Nat.add_0_r, Hc in Hk; by simplify_eq|].
    eapply (StronglySorted_lookup_le ms); [done| |exact Hc|exact Hk]. lia. }
  rewrite <- (take_drop (length ms - q) ms) at 1. rewrite filter_app, length_app.
  rewrite (filter_all_length _ (drop _ _)) by done. rewrite length_drop. lia.
Qed.

Lemma filter_fmap_length {A} (f : A -> N) c (l : list A) :
  length (filter (fun x => c <= x) (f <$> l)) = length (filter (fun a => c <= f a) l).
Proof. induction l as [|a l IH]; [done|]. rewrite fmap_cons, !filter_cons. repeat case_decide; cbn; congruence. Qed.

Lemma filter_ne_all (i : string) (l : list string) : i ∉ l -> filter (fun p => p <> i) l = l.
Proof.
  induction l as [|x l IH]; intros Hi; [done|]. apply not_elem_of_cons in Hi as [Hne Hi].
  rewrite filter_cons_True by done. by rewrite IH.
Qed.

(** The members: this node and the others. *)
Lemma members_ok i r : NoDup peers -> i ∈ peers -> fits peers i r ->
  NoDup (i :: others r) /\ i :: others r ⊆ peers.
Proof.
  intros Hnd Hi (_ & -> & _). split.
  - apply NoDup_cons. split; [|by apply NoDup_filter]. intros [? _]%list_elem_of_filter. done.
  - intros x [->|[_ ?]%list_elem_of_filter]%elem_of_cons; done.
Qed.

Lemma commitCandidate_acked i h r c :
  NoDup peers -> i ∈ peers -> fits peers i r -> raft_rel h i r -> leads h i r -> commitCandidate r = Ok c ->
  exists Q, majority peers Q /\ forall v, v ∈ Q -> acked h v (rterm r) (N.to_nat c).
Proof.
  intros Hnd Hi Hf Hr (_ & Hll & Hself & Hmatch) Hc. destruct (members_ok i r Hnd Hi Hf) as [Hnd' Hsub].
  destruct Hf as (_ & _ & Hq). unfold commitCandidate in Hc. cbn zeta in Hc. case_match eqn:Hlen; [done|].
  apply Nat.ltb_ge in Hlen. apply or_panic_Ok in Hc. apply sorted_count in Hc; [|done|rewrite Hq; lia].
  destruct (rr_log _ _ _ _ Hr) as [Hmem _]. rewrite (rep_lastIndex _ _ Hmem) in Hc.
  set (f := fun p => if decide (p = i) then lenN (h_log h i) else mapGet (matchIndex r) p).
  assert (Hmap : lenN (h_log h i) :: (mapGet (matchIndex r) <$> others r) = f <$> (i :: others r)).
  { cbn. unfold f at 1. rewrite decide_True by done. f_equal. apply NoDup_cons in Hnd' as [Hni _].
    apply list_fmap_ext. intros k x Hx. unfold f. rewrite decide_False; [done|]. intros ->.
    by apply list_elem_of_lookup_2 in Hx. }
  rewrite Hmap, filter_fmap_length in Hc. exists (filter (fun p => c <= f p) (i :: others r)). split.
  - split_and!; [by apply NoDup_filter| |by rewrite <- Hq]. intros x [_ Hx]%list_elem_of_filter. by apply Hsub.
  - intros v [Hv _]%list_elem_of_filter. unfold f in Hv. case_decide as Hd.
    + subst v. eapply acked_le; [exact Hself|]. unfold lenN in Hv. lia.
    + eapply acked_le; [apply (Hmatch v)|]. lia.
Qed.

Lemma ends_in_take (T c : N) (L : list Entry) : 0 < c -> c <= lenN L -> lterm L c = T -> ends_in T (take (N.to_nat c) L).
Proof.
  intros Hc Hl Ht. unfold lenN in Hl. destruct (N.to_nat c) as [|k] eqn:Hk; [lia|].
  destruct (lookup_lt_is_Some_2 L k) as [e He]; [lia|]. exists (take k L), e. split; [by apply take_S_r|].
  rewrite <- (lterm_lookup _ _ _ He), <- Ht. f_equal. lia.
Qed.

Lemma commit_follows i h r r' :
  NoDup peers -> i ∈ peers -> fits peers i r -> good h -> raft_rel h i r -> state r = Leader ->
  advanceCommitLocked r = Ok r' -> follows i h r h r'.
Proof.
  intros Hnd Hi Hf Hg Hr Hst Ha. apply advanceCommit_spec in Ha as [->|(c & -> & Hc & Hgt & Ht)]; [by apply follows_refl|].
  pose proof (rr_leader _ _ _ _ Hr Hst) as Hld.
  destruct (commitCandidate_acked i h r c Hnd Hi Hf Hr Hld Hc) as (Q & HQ & Hack).
  destruct Hld as ((el & Hel & _) & Hll & _). destruct Hg as [Hh Hix]. pose proof Hr as [Et El Ec Ed Es Eds Env Ev Eld Ecd].
  assert (Hcl : c <= lenN (h_llog h (rterm r))).
  { destruct HQ as (_ & _ & HQ). destruct Q as [|v Q]; [cbn in HQ; lia|].
    pose proof (acked_length peers h v _ _ Hh (Hack v ltac:(by left))). unfold lenN. lia. }
  assert (Hcom : committed peers h (rterm r) (N.to_nat c)).
  { split_and!; [|by exists el|unfold lenN in Hcl; lia|by exists Q]. apply ends_in_take; [lia|done|].
    rewrite <- Hll in Hcl |- *. rewrite <- Ht. symmetry. apply rep_term0; [apply El|]. lia. }
  split; [done|by split| |cbn; lia|done]. split; cbn; try done.
  - by rewrite Hll.
  - right. exists (rterm r), (N.to_nat c). split_and!; [lia|done|]. by rewrite Hll.
  - lia.
  - lia.
Qed.

(** ** Campaigning *)
Lemma campaign_set_follows i h r :
  good h -> raft_rel h i r -> state r = Follower -> h_cand h i (rterm r) = None -> terms_below (rterm r) (h_log h i) ->
  0 < rterm r -> follows i h r (campaigns i h) (r <| state := Candidate |>).
Proof.
  intros [Hh Hix] Hr Hst Hc Hb Hpos. pose proof Hr as [Et El Ec Ed Es Eds Env Ev Eld Ecd].
  assert (Hev : evolves h (campaigns i h)) by (apply campaigns_evolves; by rewrite Et).
  split; [apply campaigns_moves; by rewrite Et|split; [apply campaigns_ok; by rewrite ?Et|done]| |done|done].
  split; try done. intros _. cbn. rewrite Et, decide_True by done. split; [done|].
  intros el Hel Hi. destruct (ho_elect _ _ Hh _ _ Hel) as (_ & Hcand & _). congruence.
Qed.

Lemma campaign_elect_view env r r' pc :
  node_ok r -> campaign_elect env r = Ok (r', pc) ->
  view r' = view (r <| rterm := rterm r + 1 |> <| votedFor := ID (cfg r) |> <| state := Candidate |>).
Proof.
  intros Hok. unfold campaign_elect. intros He. apply bind_Ok in He as (r1 & Hp & He). inv_ok.
  apply (persist_hs_ok r) in Hp as (st & -> & _ & Hsn & Hen); [|done..]. unfold view. cbn in *. by rewrite Hsn, Hen.
Qed.

Lemma elect_follows env i h r r' pc :
  good h -> node_ok r -> raft_rel h i r -> ID (cfg r) = i -> i <> "" -> campaign_elect env r = Ok (r', pc) ->
  exists h', follows i h r h' r'.
Proof.
  intros Hg Hok Hr Hid Hne He. apply campaign_elect_view in He; [|done]. rewrite Hid in He.
  set (r1 := r <| rterm := rterm r + 1 |> <| votedFor := "" |> <| state := Follower |>).
  assert (Hlt : (rterm r <? rterm r1) = true) by (apply N.ltb_lt; cbn; lia).
  pose proof (stepdown_follows i h r r1 Hg Hr eq_refl ltac:(cbn; lia) ltac:(by rewrite Hlt) eq_refl) as H1'.
  set (h1 := adopt i (rterm r1) h) in *. pose proof (fo_good _ _ _ _ _ _ H1') as Hg1. pose proof (fo_rel _ _ _ _ _ _ H1') as Hr1.
  destruct Hg as [Hh _]. pose proof (rr_term _ _ _ _ Hr) as Et.
  assert (H2' : follows i h1 r1 (campaigns i h1) (r1 <| state := Candidate |>)).
  { apply campaign_set_follows; try done.
    - destruct (h_cand h1 i (rterm r1)) as [l|] eqn:Hc; [|done]. apply (ho_cand _ _ Hh) in Hc as (Hc & _). cbn in Hc. lia.
    - destruct (ho_log _ _ Hh i) as [_ Hb]. rewrite Et in Hb. exact Hb.
    - cbn. lia. }
  pose proof (fo_rel _ _ _ _ _ _ H2') as Hr2.
  assert (H3' : follows i (campaigns i h1) (r1 <| state := Candidate |>) (votes i i (campaigns i h1))
                  (r1 <| state := Candidate |> <| votedFor := i |>)).
  { apply (vote_set_follows i _ _ _ (h_log h1 i)); try done; [apply H2'|by apply (rr_cand _ _ _ _ Hr2)|]. right. done. }
  eexists. eapply follows_trans; [exact H1'|]. eapply follows_trans; [exact H2'|]. eapply follows_view; [exact H3'|].
  rewrite He. done.
Qed.

(** ** Appending as leader *)
Lemma accepted_extend (F es : list Entry) : accepted_log (length (F ++ es)) (F ++ es) F = F ++ es.
Proof.
  unfold accepted_log. case_decide as Hd; [|by rewrite take_ge by done]. rewrite (take_ge (F ++ es)) in Hd by done.
  rewrite take_ge in Hd; [done|]. rewrite length_app. lia.
Qed.

Lemma lead_append i h h1 r r2 es el :
  good h -> raft_rel h i r -> moves i h h1 -> good h1 ->
  h_term h1 i = rterm r -> h_log h1 i = h_log h i -> h_vote h1 i (rterm r) = h_vote h i (rterm r) ->
  h_llog h1 (rterm r) = h_log h i ++ es -> es <> [] -> contiguous (lenN (h_log h i)) es ->
  h_elect h1 (rterm r) = Some el -> el_leader el = i ->
  rterm r2 = rterm r -> votedFor r2 = votedFor r -> state r2 = Leader -> commitIndex r2 = commitIndex r ->
  rlog r2 = (rlog r) <| entries := entries (rlog r) ++ es |> ->
  durable (storage r2) = spec_save (durable (storage r)) None es ->
  (forall p, acked h1 p (rterm r) (N.to_nat (mapGet (matchIndex r2) p)) /\ mapGet (nextIndex r2) p <= lenN (h_log h i) + 1) ->
  follows i h r (accepts i (length (h_log h i ++ es)) h1) r2.
Proof.
  intros Hg Hr Hmv Hg1 Et El Ev Ell Hne Hc Hel Hi Rt Rv Rs Rc Rl Rd Hm. pose proof Hr as [Ht Hl Hcl Hd Hs Hds Hnv Hv _ _].
  set (h2 := accepts i (length (h_log h i ++ es)) h1).
  assert (Hlog : h_log h2 i = h_log h i ++ es) by (cbn; rewrite fn_lookup_insert, Et, Ell, El; apply accepted_extend).
  assert (Hmv2 : moves i h h2) by (etrans; [exact Hmv|apply accepts_moves]).
  assert (Hpre : pre (commitIndex r) (h_log h i ++ es) = pre (commitIndex r) (h_log h i)).
  { unfold pre, lenN in *. apply take_app_le. lia. }
  split; [done| | |by rewrite Rc|by rewrite Hlog].
  - apply good_accepts; [done|rewrite Et; by exists el|by rewrite Et, Ell].
  - split; rewrite ?Hlog, ?Rt, ?Rv, ?Rs, ?Rc; try done.
    + unfold holds_log. rewrite Rl, Rd. split; [apply rep_append, Hl|]. destruct Hl as [Hmem Hdur].
      rewrite <- (take_ge (h_log h i) (length (h_log h i))) by done.
      apply dur_append; [done| |done|done|done]. unfold lenN in Hcl. lia.
    + autorewrite with edgekv. lia.
    + rewrite Hpre. eapply decided_evolves; [apply Hmv2|done|done].
    + by rewrite Rl.
    + rewrite Rd. done.
    + intros Hn. cbn. rewrite Ev. auto.
    + intros Hn. cbn. rewrite Ev. auto.
    + intros _. unfold leads. rewrite Hlog, Rt. split_and!.
      * by exists el.
      * cbn. by rewrite Ell.
      * right. exists (length (h_log h i ++ es)). split; [done|]. right. by rewrite Et.
      * intros p. destruct (Hm p). split; [by eapply acked_evolves; [apply accepts_evolves|]|]. autorewrite with edgekv. lia.
Qed.

Lemma mapGet_const (l : list string) x p : mapGet (list_to_map ((fun q => (q, x)) <$> l)) p <= x.
Proof.
  unfold mapGet. destruct (list_to_map _ !! p) as [y|] eqn:Hy; cbn; [|lia]. apply elem_of_list_to_map_2 in Hy.
  apply list_elem_of_fmap in Hy as (q & [= -> ->] & _). done.
Qed.

(** What a new leader is, before it looks at the commit index. *)
Lemma becomeLeader_cases env r r' :
  node_ok r -> becomeLeaderLocked env r = Ok r' ->
  let noop := mkEntry (lastIndex (rlog r) + 1) (rterm r) ENTRY_NOOP [] in
  exists r2 r3, same_cfg r r2 /\ rterm r2 = rterm r /\ votedFor r2 = votedFor r /\ state r2 = Leader /\
    commitIndex r2 = commitIndex r /\ rlog r2 = (rlog r) <| entries := entries (rlog r) ++ [noop] |> /\
    durable (storage r2) = spec_save (durable (storage r)) None [noop] /\
    (forall p, mapGet (matchIndex r2) p = 0 /\ mapGet (nextIndex r2) p <= lastIndex (rlog r) + 1) /\ advanceCommitLocked r2 = Ok r3 /\ view r' = view r3.
Proof.
  intros Hok. unfold becomeLeaderLocked.
  destruct (leaderState_spec env (lastIndex (rlog r) + 1) r Hok) as (Hok0 & Hcfg0 & Ht0 & Hv0 & Hs0 & Hl0 & Hst0).
  assert (Hm0 : forall p, mapGet (matchIndex (leaderState env (lastIndex (rlog r) + 1) r)) p = 0 /\
            mapGet (nextIndex (leaderState env (lastIndex (rlog r) + 1) r)) p <= lastIndex (rlog r) + 1).
  { intros p. split; [apply N.le_0_r|]; apply mapGet_const. }
  assert (Hc0 : commitIndex (leaderState env (lastIndex (rlog r) + 1) r) = commitIndex r) by done.
  revert Hok0 Hcfg0 Ht0 Hv0 Hs0 Hl0 Hst0 Hm0 Hc0. generalize (leaderState env (lastIndex (rlog r) + 1) r) as r0.
  intros r0 Hok0 Hcfg0 Ht0 Hv0 Hs0 Hl0 Hst0 Hm0 Hc0. cbn zeta. rewrite Hl0, Ht0. intros Hb.
  apply bind_Ok in Hb as (l & Hl & Hb). apply append_Ok in Hl as [Hc ->].
  apply bind_Ok in Hb as (r1 & Hp & Hb). apply bind_Ok in Hb as (r2 & Ha & Hb). inv_ok.
  apply (persist_entries_ok (rlog r) _ r0) in Hp as (st & -> & Hok1 & Hd); [|done|apply Hok|done|by rewrite Hl0|by rewrite Hl0].
  rewrite Hst0 in Hd. eexists _, r2. split_and!; [|..|exact Ha|done]; cbn; try done.
  eapply same_cfg_trans; [exact Hcfg0|]. apply same_cfg_snap; [done..|]. cbn. by rewrite Hd, Hst0.
Qed.

Lemma win_follows env i h r r' voters :
  NoDup peers -> i ∈ peers -> fits peers i r -> good h -> node_ok r -> raft_rel h i r -> state r = Candidate ->
  majority peers voters -> (forall v, v ∈ voters -> exists l, h_vote h v (rterm r) = Some (i, l)) ->
  becomeLeaderLocked env r = Ok r' -> exists h', follows i h r h' r'.
Proof.
  intros Hnd Hi Hf Hg Hok Hr Hst Hmaj Hv Hb. apply becomeLeader_cases in Hb; [|done].
  destruct Hb as (r2 & r3 & Hcfg & Rt & Rv & Rs & Rc & Rl & Rd & Rm & Ha & Hview). set (noop := mkEntry _ _ _ _) in *.
  destruct (rr_cand _ _ _ _ Hr Hst) as [Hcand Hno]. pose proof (rr_term _ _ _ _ Hr) as Et. destruct Hg as [Hh Hix] eqn:Eg. clear Eg.
  assert (Hnone : h_elect h (rterm r) = None).
  { destruct (h_elect h (rterm r)) as [el|] eqn:Hel; [|done]. exfalso. apply (Hno el eq_refl).
    destruct (ho_elect _ _ Hh _ _ Hel) as (Hmaj' & _ & Hv'). destruct (majorities_meet _ _ _ Hmaj Hmaj') as (v & Hv1 & Hv2).
    destruct (Hv _ Hv1) as [l Hl], (Hv' _ Hv2) as [l' Hl']. congruence. }
  destruct (rr_log _ _ _ _ Hr) as [Hmem _]. pose proof (rep_lastIndex _ _ Hmem) as Hlast.
  assert (Hcont : contiguous (lenN (h_log h i)) [noop]).
  { apply contiguous_cons. split; [cbn; by rewrite Hlast|apply contiguous_nil]. }
  set (h1 := wins_term i voters noop h).
  assert (Hg1 : good h1).
  { split; [apply wins_ok; rewrite ?Et; done|]. destruct Hix as [Hix1 Hix2]. split; [done|]. intros t. cbn. rewrite Et.
    destruct (decide (rterm r = t)) as [<-|Hne]; [|by rewrite fn_lookup_insert_ne]. rewrite fn_lookup_insert.
    apply contiguous_app. rewrite N.add_0_l. done. }
  assert (H2' : follows i h r (accepts i (length (h_log h i ++ [noop])) h1) r2).
  { apply (lead_append i h h1 r r2 [noop] (mkElection i voters (h_log h i))); try done.
    - apply wins_moves; [done|by rewrite Et].
    - cbn. rewrite Et. apply fn_lookup_insert.
    - cbn. rewrite Et. apply fn_lookup_insert.
    - intros p. destruct (Rm p) as [-> ?]. rewrite <- Hlast. split; [by left|done]. }
  eexists. eapply follows_trans; [exact H2'|]. eapply follows_view; [|exact Hview].
  apply commit_follows; try done; [|apply H2'|apply H2']. by eapply fits_same_cfg.
Qed.

Lemma proposalEntries_term first t batch : Forall (fun e => ent_Term e = t) (proposalEntries first t batch).
Proof.
  apply Forall_forall. intros e He. unfold proposalEntries in He. apply list_elem_of_lookup in He as [k Hk].
  rewrite list_lookup_imap in Hk. apply fmap_Some in Hk as (p & _ & ->). done.
Qed.

Lemma propose_follows batch i h r r' :
  NoDup peers -> i ∈ peers -> fits peers i r -> good h -> node_ok r -> raft_rel h i r -> batch <> [] ->
  appendProposals batch r = Ok r' -> exists h', follows i h r h' r'.
Proof.
  intros Hnd Hi Hf Hg Hok Hr Hne. unfold appendProposals.
  destruct (negb _ || negb _ || stopped r) eqn:Hgd; [intros Hb; inv_ok; exists h; by apply follows_frame|].
  apply orb_false_iff in Hgd as [[Hst%negb_false_iff _]%orb_false_iff _]. apply bool_decide_eq_true in Hst.
  intros Hb. apply bind_Ok in Hb as (l & Ha & Hb). apply append_Ok in Ha as [Hc ->]. apply bind_Ok in Hb as (r1 & Hp & Hb).
  apply persist_entries_ok in Hp as (st & -> & Hok1 & Hd); [|done|apply Hok|done|done|done].
  set (es := proposalEntries _ _ _) in *.
  match type of Hb with advanceCommitLocked ?x = _ => set (r2 := x) in * end.
  destruct (rr_leader _ _ _ _ Hr Hst) as ((el & Hel & Hli) & Hll & _ & Hm).
  destruct (rr_log _ _ _ _ Hr) as [Hmem _]. pose proof (rep_lastIndex _ _ Hmem) as Hlast. rewrite Hlast in Hc.
  assert (Hg1 : good (extends (rterm r) es h)).
  { destruct Hg as [Hh [Hi1 Hi2]]. split; [apply extends_ok; [done|by exists el|apply proposalEntries_term]|]. split; [done|].
    intros t. cbn. destruct (decide (rterm r = t)) as [<-|Hnt]; [|by rewrite fn_lookup_insert_ne].
    rewrite fn_lookup_insert, <- Hll. apply contiguous_app. by rewrite N.add_0_l. }
  assert (H2' : follows i h r (accepts i (length (h_log h i ++ es)) (extends (rterm r) es h)) r2).
  { apply (lead_append i h _ r r2 es el); try done.
    - by eapply extends_moves.
    - apply Hr.
    - cbn. by rewrite fn_lookup_insert, Hll.
    - unfold es, proposalEntries. by destruct batch. }
  eexists. eapply follows_trans; [exact H2'|]. eapply commit_follows; try done; apply H2'.
Qed.

(** ** Answers *)
Lemma becomeFollower_follows env t l i h r r' :
  good h -> node_ok r -> raft_rel h i r -> becomeFollowerLocked env t l r = Ok r' -> exists h', follows i h r h' r'.
Proof.
  intros Hg Hok Hr Hb. apply becomeFollower_facts in Hb as (_ & Hrest & Ht & Hv & Hst & _); [|done].
  eexists. apply stepdown_follows; try done; [lia|]. rewrite Hv, Ht.
  destruct (N.ltb_spec (rterm r) t), (N.ltb_spec (rterm r) (N.max (rterm r) t)); done || lia.
Qed.

Lemma recordAck_view peer sentAt r : view (recordAckLocked peer sentAt r) = view r.
Proof. unfold recordAckLocked. by case_match. Qed.

Lemma mapGet_insert (m : gmap string N) p q x : mapGet (<[p := x]> m) q = if decide (p = q) then x else mapGet m q.
Proof.
  unfold mapGet. case_decide as Hd; [subst; by rewrite lookup_insert_eq|by rewrite lookup_insert_ne].
Qed.

(** A follower's acknowledgement is recorded, and the commit index looked at again. *)
Lemma match_follows i h r r1 r' peer m nx :
  NoDup peers -> i ∈ peers -> fits peers i r -> good h -> raft_rel h i r -> state r = Leader ->
  advanceCommitLocked r1 = Ok r' -> acked h peer (rterm r) (N.to_nat m) ->
  view r1 = view (r <| matchIndex := <[peer := m]> (matchIndex r) |> <| nextIndex := nx |>) ->
  (forall p, mapGet nx p <= lenN (h_log h i) + 1) -> cfg r1 = cfg r -> others r1 = others r -> quorum r1 = quorum r ->
  follows i h r h r'.
Proof.
  intros Hnd Hi Hf Hg Hr Hst Hadv Ha Hv Hnx Ec Eo Eq.
  assert (H1' : raft_rel h i (r <| matchIndex := <[peer := m]> (matchIndex r) |> <| nextIndex := nx |>)).
  { destruct Hr as [Et El Ecm Ed Es Eds Env Ev Eld Ecd]. split; try done. intros Hs.
    destruct (Eld Hs) as (He & Hll & Hself & Hm). split_and!; try done. intros p. cbn. rewrite mapGet_insert.
    split; [|apply Hnx]. case_decide as Hd; [by subst|apply (Hm p)]. }
  apply (follows_trans peers i h r h r1).
  - split; [done|done|by eapply raft_rel_view| |done]. unfold view in Hv. cbn in Hv. by injection Hv as _ _ _ _ _ -> _ _ _.
  - apply commit_follows; try done.
    + destruct Hf as (? & ? & ?). split_and!; congruence.
    + by eapply raft_rel_view.
    + unfold view in Hv. cbn in Hv. congruence.
Qed.

Lemma acked_bound h i r p m :
  good h -> leads h i r -> acked h p (rterm r) (N.to_nat m) -> m <= lenN (h_log h i).
Proof.
  intros [Hh _] (_ & Hll & _) Ha. apply (acked_length peers) in Ha; [|done]. rewrite Hll. unfold lenN. lia.
Qed.

Lemma next_follows i h r r1 nx :
  good h -> raft_rel h i r -> view r1 = view (r <| nextIndex := nx |>) ->
  (state r = Leader -> forall p, mapGet nx p <= lenN (h_log h i) + 1) -> follows i h r h r1.
Proof.
  intros Hg Hr Hv Hnx. eapply follows_view; [|exact Hv]. split; try done. destruct Hr as [Et El Ecm Ed Es Eds Env Ev Eld Ecd].
  split; try done. intros Hs. destruct (Eld Hs) as (He & Hll & Hself & Hm). split_and!; try done. intros p.
  split; [apply (Hm p)|by apply Hnx].
Qed.

Lemma insert_bound (m : gmap string N) q x b : (forall p, mapGet m p <= b) -> x <= b -> forall p, mapGet (<[q := x]> m) p <= b.
Proof. intros Hm Hx p. rewrite mapGet_insert. case_decide; [done|apply Hm]. Qed.

Lemma nextFromConflict_bound resp r : nextFromConflict resp r <= lastIndex (rlog r) + 1.
Proof. unfold nextFromConflict. lia. Qed.

Lemma append_answer_follows env peer req sentAt resp i h r r' again :
  NoDup peers -> i ∈ peers -> fits peers i r -> good h -> node_ok r -> raft_rel h i r ->
  (aer_Success resp = true -> acked h peer (ae_Term req) (N.to_nat (ae_PrevLogIndex req + lenN (ae_Entries req)))) ->
  replicateOnce_recv env peer (ae_Term req) req sentAt resp r = Ok (r', again) -> exists h', follows i h r h' r'.
Proof.
  intros Hnd Hi Hf Hg Hok Hr Ha. unfold replicateOnce_recv. case_match.
  { intros Hb. apply bind_Ok in Hb as (r1 & Hd & Hb). inv_ok. by eapply becomeFollower_follows. }
  destruct (negb _ || negb _) eqn:Hgd; [intros Hb; inv_ok; exists h; by apply follows_refl|].
  apply orb_false_iff in Hgd as [Hst%negb_false_iff Ht%negb_false_iff]. apply bool_decide_eq_true in Hst. apply N.eqb_eq in Ht.
  pose proof (recordAck_view peer sentAt r) as Hv.
  assert (Hcf : cfg (recordAckLocked peer sentAt r) = cfg r /\ others (recordAckLocked peer sentAt r) = others r /\
            quorum (recordAckLocked peer sentAt r) = quorum r) by (unfold recordAckLocked; by case_match).
  revert Hv Hcf. generalize (recordAckLocked peer sentAt r) as r1. intros r1 Hv (Ec & Eo & Eq).
  pose proof (rr_leader _ _ _ _ Hr Hst) as Hld. pose proof Hld as (_ & _ & _ & Hm).
  pose proof Hv as Hvf. unfold view in Hvf. injection Hvf as Et Ev El Es Ee Ecm Est Em En.
  destruct (aer_Success resp); intros Hb.
  - apply bind_Ok in Hb as (r2 & Hadv & Hb). inv_ok. exists h. case_match; [|inv_ok; by apply follows_frame].
    rewrite <- Ht in Ha. specialize (Ha eq_refl). pose proof (acked_bound _ _ _ _ _ Hg Hld Ha) as Hb2.
    eapply (match_follows i h r _ _ peer _ (<[peer := ae_PrevLogIndex req + lenN (ae_Entries req) + 1]> (nextIndex r1))
      Hnd Hi Hf Hg Hr Hst Hadv Ha); [unfold view; cbn; congruence| |done..].
    apply insert_bound; [rewrite En; apply Hm|]. lia.
  - inv_ok. exists h. eapply (next_follows i h r _ (<[peer := nextFromConflict resp r1]> (nextIndex r1)));
      [done|done|unfold view; cbn; congruence|]. intros _.
    apply insert_bound; [rewrite En; apply Hm|]. pose proof (nextFromConflict_bound resp r1) as Hn. rewrite El in Hn.
    destruct (rr_log _ _ _ _ Hr) as [Hmem _]. by rewrite (rep_lastIndex _ _ Hmem) in Hn.
Qed.

Lemma snapshot_answer_follows env peer meta req sentAt resp i h r r' again :
  NoDup peers -> i ∈ peers -> fits peers i r -> good h -> node_ok r -> raft_rel h i r ->
  (isr_Term resp <= is_Term req -> acked h peer (is_Term req) (N.to_nat (sm_LastIncludedIndex meta))) ->
  sendSnapshot_recv env peer (is_Term req) meta sentAt resp r = Ok (r', again) -> exists h', follows i h r h' r'.
Proof.
  intros Hnd Hi Hf Hg Hok Hr Ha. unfold sendSnapshot_recv. destruct (N.ltb_spec (rterm r) (isr_Term resp)) as [Hlt|Hge].
  { intros Hb. apply bind_Ok in Hb as (r1 & Hd & Hb). inv_ok. by eapply becomeFollower_follows. }
  destruct (negb _ || negb _) eqn:Hgd; [intros Hb; inv_ok; exists h; by apply follows_refl|].
  apply orb_false_iff in Hgd as [Hst%negb_false_iff Ht%negb_false_iff]. apply bool_decide_eq_true in Hst. apply N.eqb_eq in Ht.
  pose proof (recordAck_view peer sentAt r) as Hv.
  assert (Hcf : cfg (recordAckLocked peer sentAt r) = cfg r /\ others (recordAckLocked peer sentAt r) = others r /\
            quorum (recordAckLocked peer sentAt r) = quorum r) by (unfold recordAckLocked; by case_match).
  revert Hv Hcf. generalize (recordAckLocked peer sentAt r) as r1. intros r1 Hv (Ec & Eo & Eq).
  pose proof (rr_leader _ _ _ _ Hr Hst) as Hld. pose proof Hld as (_ & _ & _ & Hm).
  pose proof Hv as Hvf. unfold view in Hvf. injection Hvf as Et Ev El Es Ee Ecm Est Em En.
  intros Hb. apply bind_Ok in Hb as (r2 & Hadv & Hb). inv_ok. exists h.
  assert (H2' : follows i h r h r2).
  { case_match; [|inv_ok; by apply follows_frame]. rewrite <- Ht in Ha.
    eapply (match_follows i h r _ _ peer _ (nextIndex r1) Hnd Hi Hf Hg Hr Hst Hadv (Ha Hge)); [unfold view; cbn; congruence| |done..].
    intros p. rewrite En. apply Hm. }
  eapply follows_trans; [exact H2'|]. pose proof (fo_rel _ _ _ _ _ _ H2') as Hr2.
  eapply (next_follows i h r2); [done|done|done|]. intros Hs2. pose proof (rr_leader _ _ _ _ Hr2 Hs2) as Hld2.
  destruct Hld2 as (? & ? & ? & Hm2) eqn:E2. clear E2. apply insert_bound; [apply Hm2|].
  pose proof (acked_bound h i r2 peer _ Hg (rr_leader _ _ _ _ Hr2 Hs2) (proj1 (Hm2 peer))). lia.
Qed.

(** ** Snapshots taken by the applier *)
Lemma snapshot_save_follows index t data i h r r' pc :
  good h -> node_ok r -> raft_rel h i r -> index <= commitIndex r -> t = lterm (h_log h i) index ->
  takeSnapshot_save index t data r = (r', pc) -> follows i h r h r'.
Proof.
  intros Hg Hok Hr Hi Ht. unfold takeSnapshot_save. destruct (SaveSnapshot _ _ _ _) as [st b] eqn:Hsv.
  apply SaveSnapshot_ok in Hsv as (-> & Hst & Hd); [|done]. intros [= <- <-].
  destruct Hr as [Et [Hmem Hdur] Ecm Ed Es Eds Env Ev Eld Ecd]. split; try done. split; try done; cbn.
  - split; [done|]. cbn. rewrite Hd. apply dur_snapshot; [done|lia|done].
  - rewrite Hd, spec_snapshot_index. lia.
Qed.

Lemma snapshot_compact_follows index t i h r :
  good h -> raft_rel h i r -> index <= commitIndex r -> t = lterm (h_log h i) index ->
  follows i h r h (takeSnapshot_compact index t r).
Proof.
  intros Hg Hr Hi ->. destruct Hr as [Et [Hmem Hdur] Ecm Ed Es Eds Env Ev Eld Ecd]. split; try done. split; try done; cbn.
  - split; [|done]. cbn. apply rep_compact; [done|lia].
  - rewrite compactTo_snap. lia.
Qed.

(** ** Restart *)
Lemma restart_rel h i r c st sm r' :
  good h -> node_ok r -> raft_rel h i r -> st = storage r -> New c st sm = Ok (inl r') -> raft_rel h i r'.
Proof.
  intros Hg Hok Hr -> Hn. apply New_spec in Hn as (c' & _ & _ & Hl & Hhs & Hst & _ & Hc & _ & _ & _ & _ & _ & _ & _ & _ & Hd); [|apply Hok].
  rewrite (nk_hs _ Hok) in Hhs. injection Hhs as Ht Hv.
  destruct Hr as [Et [Hmem Hdur] Ecm Ed Es Eds Env Ev _ _]. split; rewrite ?Ht, ?Hv, ?Hst, ?Hc, ?Hl, ?Hd; try done.
  - unfold holds_log. by rewrite Hl, Hd.
  - lia.
  - eapply decided_prefix; [exact Ed|]. by apply pre_mono.
Qed.

(** ** What only the applier and snapshots change *)
Definition fixed r := (lastApplied r, machine r, pendingSnapshot r, d_snap (durable (storage r)), snapIndex (rlog r)).

Lemma rest_fixed r r' : rest r' = rest r -> fixed r' = fixed r.
Proof. unfold rest, fixed. intros Hr. injection Hr; intros. congruence. Qed.

Lemma becomeFollower_fixed env t l r r' : node_ok r -> becomeFollowerLocked env t l r = Ok r' -> fixed r' = fixed r.
Proof. intros Hok Hb. apply becomeFollower_facts in Hb as (_ & Hr & _); [|done]. by apply rest_fixed. Qed.

Lemma stepDown_fixed env (b : bool) t l r r' :
  node_ok r -> (if b then becomeFollowerLocked env t l r else Ok r) = Ok r' -> fixed r' = fixed r.
Proof. intros Hok. destruct b; [by apply becomeFollower_fixed|]. by intros [= <-]. Qed.

Lemma advanceCommit_fixed r r' : advanceCommitLocked r = Ok r' -> fixed r' = fixed r.
Proof. intros Ha. by apply advanceCommit_spec in Ha as [->|(c & -> & _)]. Qed.

Lemma tick_fixed env r r' b : node_ok r -> tick env r = Ok (r', b) -> fixed r' = fixed r.
Proof.
  intros Hok. unfold tick. repeat case_match; intros Hb; try by inv_ok.
  apply bind_Ok in Hb as (r1 & Hd & Hb). inv_ok. by eapply becomeFollower_fixed.
Qed.

Lemma campaign_elect_fixed env r r' pc : node_ok r -> campaign_elect env r = Ok (r', pc) -> fixed r' = fixed r.
Proof.
  intros Hok. unfold campaign_elect. intros He. apply bind_Ok in He as (r1 & Hp & He). inv_ok.
  apply (persist_hs_ok r) in Hp as (st & -> & _ & Hsn & _); [|done..]. unfold fixed. cbn in *. by rewrite Hsn.
Qed.

Lemma campaign_begin_fixed env skip r r' pc : node_ok r -> campaign_begin env skip r = Ok (r', pc) -> fixed r' = fixed r.
Proof.
  intros Hok. unfold campaign_begin. case_match; [intros; by inv_ok|]. case_match; [|intros; by inv_ok].
  intros He. apply campaign_elect_fixed in He; [done|]. by apply (node_ok_ext r).
Qed.

Lemma campaign_prevoted_fixed env req won r r' pc :
  node_ok r -> campaign_prevoted env req won r = Ok (r', pc) -> fixed r' = fixed r.
Proof.
  intros Hok. unfold campaign_prevoted. case_match; [intros; by inv_ok|]. case_match; [intros; by inv_ok|]. by apply campaign_elect_fixed.
Qed.

Lemma becomeLeader_fixed env r r' : node_ok r -> becomeLeaderLocked env r = Ok r' -> fixed r' = fixed r.
Proof.
  intros Hok. unfold becomeLeaderLocked.
  destruct (leaderState_spec env (lastIndex (rlog r) + 1) r Hok) as (Hok0 & _ & Ht0 & _ & _ & Hl0 & _).
  assert (Hf0 : fixed (leaderState env (lastIndex (rlog r) + 1) r) = fixed r) by done.
  revert Hok0 Ht0 Hl0 Hf0. generalize (leaderState env (lastIndex (rlog r) + 1) r) as r0.
  intros r0 Hok0 Ht0 Hl0 Hf0. cbn zeta. rewrite Hl0, Ht0. intros Hb.
  apply bind_Ok in Hb as (l & Hl & Hb). apply append_Ok in Hl as [Hc ->].
  apply bind_Ok in Hb as (r1 & Hp & Hb). apply bind_Ok in Hb as (r2 & Ha & Hb). inv_ok.
  apply (persist_entries_ok (rlog r) _ r0) in Hp as (st & -> & _ & Hd); [|done|apply Hok|done|by rewrite Hl0|by rewrite Hl0].
  apply advanceCommit_fixed in Ha. transitivity (fixed r2); [done|]. rewrite Ha, <- Hf0. unfold fixed. cbn. by rewrite Hd, Hl0.
Qed.

Lemma campaign_voted_fixed env req won r r' pc : node_ok r -> campaign_voted env req won r = Ok (r', pc) -> fixed r' = fixed r.
Proof.
  intros Hok. unfold campaign_voted. repeat case_match; intros Hb; try by inv_ok.
  apply bind_Ok in Hb as (r1 & Hd & Hb). inv_ok. by eapply becomeLeader_fixed.
Qed.

Lemma vote_answer_fixed env resp r r' b : node_ok r -> vote_answer env resp r = Ok (r', b) -> fixed r' = fixed r.
Proof. intros Hok Hb. apply bind_Ok in Hb as (r1 & Hd & Hb). inv_ok. by eapply stepDown_fixed. Qed.

Lemma HandleRequestVote_fixed env req r r' resp : node_ok r -> HandleRequestVote env req r = Ok (r', resp) -> fixed r' = fixed r.
Proof.
  intros Hok. unfold HandleRequestVote. case_match; [intros; by inv_ok|]. case_match; [intros; by inv_ok|].
  intros Hb. apply bind_Ok in Hb as (r1 & Hd & Hb). pose proof (stepDown_if_safe _ _ _ _ _ _ Hok Hd) as (Hok1 & _).
  apply stepDown_fixed in Hd; [|done]. case_match; [by inv_ok|]. apply bind_Ok in Hb as (r2 & Hp & Hb). inv_ok.
  apply (persist_hs_ok r1) in Hp as (st & -> & _ & Hsn & _); [|done..]. rewrite <- Hd. unfold fixed. cbn in *. by rewrite Hsn.
Qed.

Lemma appendVerified_fixed req es r r' resp : node_ok r -> appendVerified req es r = Ok (r', resp) -> fixed r' = fixed r.
Proof.
  intros Hok. unfold appendVerified. intros Hb. apply bind_Ok in Hb as ([l fresh] & Hf & Hb).
  apply findFresh_spec in Hf as (k & -> & _ & _). apply bind_Ok in Hb as (r1 & Hp & Hb).
  assert (H1' : fixed r1 = fixed r).
  { destruct fresh as [|e fresh]; [by inv_ok|]. apply bind_Ok in Hp as (l1 & Ha & Hp). apply append_Ok in Ha as [Hc ->].
    apply persist_entries_ok in Hp as (st & -> & _ & Hd); [|done|apply contiguous_take, Hok|done|unfold lastIndex; cbn; rewrite lenN_take; lia|done].
    unfold fixed. cbn. by rewrite Hd. }
  inv_ok. destruct (commitIndex r1 <? _); exact H1'.
Qed.

Lemma HandleAppendEntries_fixed env req r r' resp :
  node_ok r -> HandleAppendEntries env req r = Ok (r', resp) -> fixed r' = fixed r.
Proof.
  intros Hok Hb. apply HandleAppendEntries_cases in Hb as [(_ & -> & _)|(r1 & Hok1 & Hrest & _ & _ & _ & _ & Hb)]; [done| |done].
  rewrite <- (rest_fixed _ _ Hrest). destruct Hb as [(-> & _)|[(-> & _)|(_ & _ & _ & Hb)]]; [done..|]. by eapply appendVerified_fixed.
Qed.

Lemma recordAck_fixed peer sentAt r : fixed (recordAckLocked peer sentAt r) = fixed r.
Proof. unfold recordAckLocked. by case_match. Qed.

Lemma replicateOnce_recv_fixed env peer t req sentAt resp r r' b :
  node_ok r -> replicateOnce_recv env peer t req sentAt resp r = Ok (r', b) -> fixed r' = fixed r.
Proof.
  intros Hok. unfold replicateOnce_recv. case_match; intros Hb.
  { apply bind_Ok in Hb as (r1 & Hd & Hb). inv_ok. by eapply becomeFollower_fixed. }
  case_match; [by inv_ok|].
  pose proof (recordAck_fixed peer sentAt r) as Hv.
  revert Hv Hb. generalize (recordAckLocked peer sentAt r) as r1. intros r1 <- Hb. case_match; [|by inv_ok].
  apply bind_Ok in Hb as (r2 & Ha & Hb). inv_ok. case_match; [|by inv_ok]. by apply advanceCommit_fixed in Ha.
Qed.

Lemma sendSnapshot_recv_fixed env peer t meta sentAt resp r r' b :
  node_ok r -> sendSnapshot_recv env peer t meta sentAt resp r = Ok (r', b) -> fixed r' = fixed r.
Proof.
  intros Hok. unfold sendSnapshot_recv. case_match; intros Hb.
  { apply bind_Ok in Hb as (r1 & Hd & Hb). inv_ok. by eapply becomeFollower_fixed. }
  case_match; [by inv_ok|].
  pose proof (recordAck_fixed peer sentAt r) as Hv.
  revert Hv Hb. generalize (recordAckLocked peer sentAt r) as r1. intros r1 <- Hb.
  apply bind_Ok in Hb as (r2 & Ha & Hb). inv_ok. transitivity (fixed r2); [done|]. case_match; [|by inv_ok]. by apply advanceCommit_fixed in Ha.
Qed.

Lemma appendProposals_fixed batch r r' : node_ok r -> appendProposals batch r = Ok r' -> fixed r' = fixed r.
Proof.
  intros Hok. unfold appendProposals. case_match; [intros; by inv_ok|]. intros Hb. apply bind_Ok in Hb as (l & Ha & Hb).
  apply append_Ok in Ha as [Hc ->]. apply bind_Ok in Hb as (r1 & Hp & Hb).
  apply persist_entries_ok in Hp as (st & -> & _ & Hd); [|done|apply Hok|done|done|done].
  apply advanceCommit_fixed in Hb. rewrite Hb. unfold fixed. cbn. by rewrite Hd.
Qed.

End Steps.
