(* ===== verification/Agreement.v ===== *)
(** * State machine safety

    Every replica applies the entries of one log, in order and without a gap:
    whatever messages are lost, repeated or reordered and whichever nodes crash,
    the committed parts of any two logs agree at all times, nothing committed is ever
    replaced, and a replica's state machine is what applying that log yields,
    also when it was restored from a snapshot. *)

From stdpp Require Import functions.
From S2P Require Import Prelude Types RaftLog Storage Raft RaftFacts Cluster Run Election LogCore LogFacts Agree AgreeSteps.

(** ** Applying a log *)
Section Machine.
Context {SM : Type} `{StateMachine SM}.

Lemma applyEntries_app (sm : SM) es1 es2 :
  applyEntries sm (es1 ++ es2) =
    ('(sm1, o1) ← applyEntries sm es1; '(sm2, o2) ← applyEntries sm1 es2; Ok (sm2, o1 ++ o2)).
Proof.
  revert sm. induction es1 as [|e es1 IH]; intros sm; cbn [app applyEntries].
  - cbn. by destruct (applyEntries sm es2) as [[? ?]|].
  - destruct (match ent_Type e with ENTRY_NORMAL => _ | _ => _ end) as [[sm' o]|]; cbn; [|done]. rewrite IH.
    destruct (applyEntries sm' es1) as [[sm1 o1]|]; cbn; [|done]. destruct (applyEntries sm1 es2) as [[? ?]|]; done.
Qed.

Lemma applyEntries_length (sm : SM) es sm' outs : applyEntries sm es = Ok (sm', outs) -> length outs = length es.
Proof.
  revert sm outs. induction es as [|e es IH]; intros sm outs; cbn; [by intros [= <- <-]|].
  intros Hb. apply bind_Ok in Hb as ([sm1 o] & _ & Hb). apply bind_Ok in Hb as ([sm2 os] & Ha & Hb). inv_ok. cbn. f_equal. by eapply IH.
Qed.

(** [sm] is the state after exactly the entries [L]. *)
Definition applied (sm0 : SM) (L : list Entry) (sm : SM) : Prop := exists outs, applyEntries sm0 L = Ok (sm, outs).

Lemma applied_nil sm0 : applied sm0 [] sm0.
Proof. by exists []. Qed.

Lemma applied_app sm0 L es sm sm' outs : applied sm0 L sm -> applyEntries sm es = Ok (sm', outs) -> applied sm0 (L ++ es) sm'.
Proof. intros [o Ho] He. exists (o ++ outs). by rewrite applyEntries_app, Ho; cbn; rewrite He. Qed.

(** A snapshot of the state after [L]. *)
Definition snapshot_of (sm0 : SM) (L : list Entry) (b : bytes) : Prop := exists sm, applied sm0 L sm /\ sm_snapshot sm = Some b.

(** Restoring a snapshot gives the state it was taken of. *)
Class SnapshotLaw (sm0 : SM) : Prop :=
  snapshot_restores L L' sm sm' b :
    contiguous 0 L -> contiguous 0 L' -> applied sm0 L sm -> applied sm0 L' sm' -> sm_snapshot sm = Some b -> sm_restore sm' b = Some sm.

Lemma snapshot_of_restore `{!SnapshotLaw sm0} L L' sm sm' b :
  contiguous 0 L -> contiguous 0 L' -> snapshot_of sm0 L b -> applied sm0 L' sm' -> sm_restore sm' b = Some sm -> applied sm0 L sm.
Proof. intros Hc Hc' (sm1 & Ha & Hb) Ha' Hr. rewrite (snapshot_restores L L' sm1 sm' b) in Hr by done. by injection Hr as <-. Qed.
End Machine.

Lemma pre_snoc c n (F : list Entry) : pre c F ++ take n (drop (N.to_nat c) F) = pre (c + N.of_nat n) F.
Proof. unfold pre. rewrite take_add_drop. f_equal. lia. Qed.

Lemma pre_contiguous k F : contiguous 0 F -> contiguous 0 (pre k F).
Proof. apply contiguous_take. Qed.

Section Safety.
Context {S SM : Type} `{StorageLaws S} `{StateMachine SM}.
Context (peers : list string) (config : string -> Config) (sm0 : SM) `{!SnapshotLaw sm0}.
Context (peers_nodup : NoDup peers) (peers_named : "" ∉ peers).
Context (config_id : forall i, ID (config i) = i) (config_peers : forall i, Peers (config i) = peers).

#[local] Abbreviation Raft := (Raft S SM).
#[local] Abbreviation NodeSt := (NodeSt S SM).
#[local] Abbreviation Cluster := (Cluster S SM).
#[local] Abbreviation good := (good peers).
#[local] Abbreviation raft_rel := (raft_rel peers).
#[local] Abbreviation follows := (follows peers).
Implicit Types r : Raft.

(** ** The applier *)

(** The index the state machine has reached when the current batch is done. *)
Definition reach (pc : applierPC) r : N :=
  match pc with
  | ApplierRestoring snap | ApplierRestored snap => is_LastIncludedIndex snap
  | ApplierApplying es | ApplierApplied es _ => lastApplied r + lenN es
  | _ => lastApplied r
  end.

Record applier_rel (F : list Entry) (pc : applierPC) r : Prop := {
  al_reach : lastApplied r <= reach pc r /\ reach pc r <= commitIndex r;
  al_pending : forall snap, pendingSnapshot r = Some snap ->
    reach pc r < is_LastIncludedIndex snap /\ is_LastIncludedIndex snap <= commitIndex r /\
    snapshot_of sm0 (pre (is_LastIncludedIndex snap) F) (is_Data snap);
  al_durable : forall i t data, d_snap (durable (storage r)) = Some (i, t, data) -> snapshot_of sm0 (pre i F) data;
  al_machine :
    match pc with
    | ApplierApplied _ _ | ApplierRestored _ => applied sm0 (pre (reach pc r) F) (machine r)
    | _ => applied sm0 (pre (lastApplied r) F) (machine r)
    end;
  al_pc :
    match pc with
    | ApplierRestoring snap => snapshot_of sm0 (pre (is_LastIncludedIndex snap) F) (is_Data snap)
    | ApplierApplying es | ApplierApplied es _ =>
        es = take (length es) (drop (N.to_nat (lastApplied r)) F) /\ contiguous (lastApplied r) es
    | ApplierSnapshotting index => index = lastApplied r
    | ApplierSaving index data => index = lastApplied r /\ snapshot_of sm0 (pre index F) data
    | ApplierSaved index t data => index = lastApplied r /\ snapshot_of sm0 (pre index F) data /\ t = lterm F index
    | ApplierCompacting index t => index <= commitIndex r /\ t = lterm F index
    | _ => True
    end;
}.

(** The log may change after the commit index. *)
Lemma applier_rel_log F F' pc r r' :
  applier_rel F pc r -> commitIndex r <= lenN F -> pre (commitIndex r) F' = pre (commitIndex r) F -> commitIndex r <= commitIndex r' ->
  lastApplied r' = lastApplied r -> machine r' = machine r -> pendingSnapshot r' = pendingSnapshot r ->
  d_snap (durable (storage r')) = d_snap (durable (storage r)) -> d_snapIndex (durable (storage r)) <= commitIndex r ->
  applier_rel F' pc r'.
Proof.
  intros [[Hr1 Hr2] Hp Hd Hm Hpc] Hlen Hpre Hc El Em Ep Es Hds.
  assert (Er : reach pc r' = reach pc r) by (destruct pc; cbn; by rewrite ?El).
  assert (Hsub : forall k, k <= commitIndex r -> pre k F' = pre k F) by (intros; by eapply pre_le).
  assert (Hsl : forall es : list Entry, lastApplied r + lenN es <= commitIndex r ->
    es = take (length es) (drop (N.to_nat (lastApplied r)) F) -> es = take (length es) (drop (N.to_nat (lastApplied r)) F')).
  { intros es Hle He. rewrite He at 1. pose proof (Hsub _ Hle) as Hk. unfold pre in Hk.
    apply (f_equal (drop (N.to_nat (lastApplied r)))) in Hk. rewrite !skipn_firstn_comm in Hk.
    replace (N.to_nat (lastApplied r + lenN es) - N.to_nat (lastApplied r))%nat with (length es) in Hk by (unfold lenN; lia). done. }
  split; rewrite ?Er, ?El, ?Em.
  - lia.
  - intros snap Hsnap. rewrite Ep in Hsnap. destruct (Hp _ Hsnap) as (? & ? & ?). rewrite Hsub by done. split_and!; [done|lia|done].
  - intros i t data Hsn. rewrite Es in Hsn. rewrite Hsub; [by eapply Hd|]. unfold d_snapIndex in Hds. by rewrite Hsn in Hds.
  - destruct pc; rewrite Hsub; try done; lia.
  - destruct pc; cbn in *; try done.
    + rewrite Hsub; [done|lia].
    + destruct Hpc. split; [by apply Hsl|done].
    + destruct Hpc. split; [by apply Hsl|done].
    + destruct Hpc as [-> ?]. rewrite Hsub by lia. done.
    + destruct Hpc as (-> & ? & ->). rewrite Hsub by lia. split_and!; try done. apply (lterm_pre (commitIndex r)); [done|lia].
    + destruct Hpc as (? & ->). split; [lia|]. apply (lterm_pre (commitIndex r)); [done|lia].
Qed.

Lemma applier_rel_fixed i h h' pc r r' :
  raft_rel h i r -> applier_rel (h_log h i) pc r -> follows i h r h' r' -> fixed r' = fixed r -> applier_rel (h_log h' i) pc r'.
Proof.
  intros Hr Ha Hfo Hf. unfold fixed in Hf. injection Hf as E1 E2 E3 E4.
  apply (applier_rel_log (h_log h i) _ _ r); try done; [apply Hr|apply Hfo|apply Hfo|apply Hr].
Qed.

Lemma slice_Ok l F lo hi es :
  represents l F -> lo <= hi -> hi <= lenN F -> slice l lo hi = Ok es ->
  es = take (N.to_nat (hi - lo + 1)) (drop (N.to_nat (lo - 1)) F).
Proof.
  intros Hrep Hle Hhi Hs. destruct (N.le_gt_cases lo (snapIndex l)) as [Hlo|Hlo].
  - unfold slice in Hs. rewrite (proj2 (N.leb_le _ _) Hlo), (proj2 (N.ltb_ge hi lo)) in Hs by done. done.
  - rewrite (rep_slice l F) in Hs by done. by injection Hs as <-.
Qed.

Lemma contiguous_last after es e : contiguous after es -> last es = Some e -> ent_Index e = after + lenN es.
Proof.
  intros Hc Hl. rewrite last_lookup in Hl. rewrite (Hc _ _ Hl). apply lookup_lt_Some in Hl. unfold lenN. lia.
Qed.

Lemma answerWaiters_frame ers r :
  view (foldl answerWaiter r ers) = view r /\ fixed (foldl answerWaiter r ers) = fixed r.
Proof.
  revert r. induction ers as [|er ers IH]; intros r; [done|]. cbn. destruct (IH (answerWaiter r er)) as [-> ->].
  unfold answerWaiter. by case_match.
Qed.

(** The applier's critical sections. *)
Lemma applier_step_rel i h r pc r' pc' :
  good h -> node_ok r -> raft_rel h i r -> applier_rel (h_log h i) pc r -> applier_step pc r = Ok (r', pc') ->
  follows i h r h r' /\ applier_rel (h_log h i) pc' r'.
Proof.
  intros Hg Hok Hr Ha Hs. pose proof Ha as [[Hre1 Hre2] Hp Hd Hm Hpc]. set (F := h_log h i) in *.
  destruct (rr_log _ _ _ _ Hr) as [Hmem _]. fold F in Hmem. pose proof (rr_commit _ _ _ _ Hr) as Hcl. fold F in Hcl.
  destruct pc as [|snap|snap|es|es results|index|index data|index t data|index t]; cbn in Hs, Hre1, Hre2, Hm, Hpc.
  - unfold applier_wake in Hs. case_match; [inv_ok; by split; [apply follows_refl|]|].
    destruct (pendingSnapshot r) as [snap|] eqn:Hsn.
    + inv_ok. split; [by apply follows_frame|]. destruct (Hp _ eq_refl) as (Hlt & Hle & Hof). cbn in Hlt. by split; cbn; [lia|..].
    + destruct (N.leb_spec (commitIndex r) (lastApplied r)); [inv_ok; by split; [apply follows_refl|]|].
      apply bind_Ok in Hs as (es & Hes & Hs). inv_ok. split; [by apply follows_refl|].
      apply (slice_Ok _ F) in Hes; [|done|lia|done]. replace (lastApplied r' + 1 - 1) with (lastApplied r') in Hes by lia.
      assert (Hlen : lastApplied r' + lenN es = commitIndex r').
      { rewrite Hes. autorewrite with edgekv. lia. }
      split; cbn; [lia| |done|done|].
      * rewrite Hsn. done.
      * split.
        -- rewrite Hes at 1. f_equal. unfold lenN in Hlen. lia.
        -- rewrite Hes. apply contiguous_take. destruct Hg as [_ [Hix _]].
           pose proof (contiguous_drop 0 F (N.to_nat (lastApplied r')) (Hix i)) as Hc. by rewrite N2Nat.id in Hc.
  - apply bind_Ok in Hs as (sm & Hrs & Hs). inv_ok. split; [by apply follows_frame|].
    split; cbn; try done. eapply snapshot_of_restore; [| |done..]; apply pre_contiguous, Hg.
  - inv_ok. split; [by apply follows_frame|]. cbn in *. unfold applier_restored. rewrite N.max_r by lia. split; cbn; try done.
  - apply bind_Ok in Hs as ([sm outs] & Hap & Hs). inv_ok. split; [by apply follows_frame|]. split; cbn; try done.
    destruct Hpc as [Hes Hc]. eapply applied_app in Hm; [|exact Hap]. rewrite Hes, pre_snoc in Hm. done.
  - unfold applier_finish in Hs. destruct (answerWaiters_frame (zip es results) r) as [Hv Hf]. revert Hv Hf Hs.
    generalize (foldl answerWaiter r (zip es results)) as r1. intros r1 Hv Hf Hs. destruct Hpc as [Hes Hc].
    destruct (last es) as [e|] eqn:Hl; [|done]. pose proof (contiguous_last _ _ _ Hc Hl) as Hi.
    unfold fixed in Hf. injection Hf as E1 E2 E3 E4. assert (Ec : commitIndex r1 = commitIndex r) by (unfold view in Hv; by injection Hv).
    inv_ok. split; [by apply follows_frame|]. rewrite E1, N.max_r by lia.
    assert (Hrel : forall pc', (forall r2, reach pc' r2 = lastApplied r2) ->
      match pc' with ApplierIdle => True | ApplierSnapshotting k => k = ent_Index e | _ => False end ->
      applier_rel F pc' (r1 <| lastApplied := ent_Index e |>)).
    { intros pc' Hrp Hpc'. split; rewrite ?Hrp; cbn; rewrite ?Ec, ?E3, ?E4, ?E2, ?Hi; try done.
      - destruct pc'; try done. - destruct pc'; try done. cbn. by rewrite Hpc'. }
    case_match; by apply Hrel.
  - inv_ok. split; [by apply follows_refl|]. unfold takeSnapshot_serialise. destruct (sm_snapshot _) as [data|] eqn:Hsn;
      split; cbn; try done. split; [done|]. by exists (machine r').
  - inv_ok. split; [by apply follows_refl|]. unfold takeSnapshot_term. destruct (term _ _) as [t|] eqn:Ht; split; cbn; try done.
    destruct Hpc as [-> Hof]. split_and!; try done. rewrite (rep_term _ _ _ Hmem) in Ht. case_match; by simplify_eq.
  - injection Hs as Hs. destruct Hpc as (-> & Hof & ->).
    pose proof (snapshot_save_follows _ _ _ _ _ _ _ _ _ Hg Hok Hr Hre2 eq_refl Hs) as Hfo. split; [done|].
    unfold takeSnapshot_save in Hs. destruct (SaveSnapshot _ _ _ _) as [st b] eqn:Hsv.
    apply SaveSnapshot_ok in Hsv as (-> & Hst & Hdu); [|done]. injection Hs as <- <-. split; cbn; try done.
    rewrite Hdu. unfold spec_snapshot. case_match; [done|]. cbn. by intros i' t' data' [= <- <- <-].
  - inv_ok. destruct Hpc as [Hi ->]. split; [by apply snapshot_compact_follows|]. by split.
Qed.

(** *** Snapshots from the leader *)

(** The data of a snapshot message is the state after the entries it stands for. *)
Definition snap_data h (req : InstallSnapshotRequest) : Prop :=
  snapshot_of sm0 (pre (is_LastIncludedIndex req) (h_llog h (is_Term req))) (is_Data req).

Lemma install_applier env req i h h' pc r r' resp :
  good h -> node_ok r -> raft_rel h i r -> snap_rel peers h req -> snap_data h req -> applier_rel (h_log h i) pc r ->
  HandleInstallSnapshot env req r = Ok (r', resp) -> follows i h r h' r' -> applier_rel (h_log h' i) pc r'.
Proof.
  intros Hg Hok Hr Hsr Hdata Ha Hb Hfo. apply (HandleInstallSnapshot_cases _ _ _ _ _ Hok) in Hb as [(_ & -> & _)|Hb].
  { by eapply applier_rel_fixed. }
  destruct Hb as (r1 & Hok1 & Hrest & _ & Ht1 & _ & _ & _ & Hb). pose proof (rest_fixed _ _ Hrest) as Hfx.
  destruct Hb as [(_ & ->)|(st & dl & Hlt & _ & Hst & Er')]; [by eapply applier_rel_fixed|].
  unfold fixed in Hfx. injection Hfx as E1 E2 E3 E4.
  assert (Hcm : commitIndex r1 = commitIndex r) by (unfold rest in Hrest; by injection Hrest).
  assert (Hd1 : d_snapIndex (durable (storage r1)) <= commitIndex r).
  { unfold d_snapIndex. rewrite E4. apply Hr. }
  set (keep := bool_decide _) in *. clearbody keep. set (idx := is_LastIncludedIndex req) in *.
  set (r2 := r' <| pendingSnapshot := pendingSnapshot r |> <| storage := storage r |>).
  assert (Ha2 : applier_rel (h_log h' i) pc r2).
  { apply (applier_rel_log (h_log h i) _ _ r); try done; try apply Hfo; try apply Hr; subst r' r2; cbn; done. }
  assert (Hpre : snapshot_of sm0 (pre idx (h_log h' i)) (is_Data req)).
  { assert (Ec' : commitIndex r' = idx) by by subst r'. assert (Et' : rterm r' = is_Term req) by by subst r'.
    pose proof (mv_evolves _ _ _ (fo_moves _ _ _ _ _ _ Hfo)) as Hev.
    pose proof (decided_pre peers h' i r' (fo_good _ _ _ _ _ _ Hfo) (fo_rel _ _ _ _ _ _ Hfo)) as Hp. rewrite Ec', Et' in Hp.
    rewrite Hp by (eapply elected_evolves; [exact Hev|apply Hsr]). rewrite (pre_llog h h') by (done || apply Hsr). done. }
  destruct Ha2 as [[Hre1 Hre2] Hp2 Hd2 Hm2 Hpc2]. destruct Ha as [[_ Hre] _ _ _ _].
  assert (Er : reach pc r' = reach pc r2) by (by destruct pc).
  assert (Er0 : reach pc r2 = reach pc r) by (subst r2 r'; destruct pc; cbn; by rewrite ?E1).
  split; rewrite ?Er; [done| | |by destruct pc|by destruct pc].
  - intros snap Hs. assert (snap = req) as -> by (subst r'; cbn in Hs; by injection Hs). fold idx.
    split_and!; [lia|subst r'; cbn; lia|done].
  - intros k t data Hs. subst r'. cbn in Hs. rewrite Hst in Hs. unfold spec_snapshot in Hs.
    destruct (N.leb_spec idx (d_snapIndex (durable (storage r1)))); [lia|]. rewrite andb_false_r in Hs. by injection Hs as <- <- <-.
Qed.

(** *** What a leader sends *)
Lemma replicate_rel ctxErr peer t i h r req :
  good h -> raft_rel h i r -> replicateOnce_send ctxErr peer t r = Ok (SendAppend req) -> append_rel peers h req.
Proof.
  intros Hg Hr Hb. unfold replicateOnce_send in Hb. case_match eqn:Hgd; [done|].
  apply orb_false_iff in Hgd as [[_ Hst%negb_false_iff]%orb_false_iff Ht%negb_false_iff]. apply bool_decide_eq_true in Hst. apply N.eqb_eq in Ht.
  destruct (N.leb_spec (mapGet (nextIndex r) peer) (snapIndex (rlog r))) as [|Hnx]; [done|].
  apply bind_Ok in Hb as (es & Hs & Hb). injection Hb as <-.
  destruct (rr_leader _ _ _ _ Hr Hst) as ((el & Hel & _) & Hll & _ & Hm). destruct (Hm peer) as [_ Hnb].
  destruct (rr_log _ _ _ _ Hr) as [Hmem _]. rewrite (rep_lastIndex _ _ Hmem) in Hs. pose proof (rr_commit _ _ _ _ Hr) as Hc.
  set (next := mapGet (nextIndex r) peer) in *. set (F := h_log h i) in *. subst t.
  assert (Hes : es = take (length es) (drop (N.to_nat (next - 1)) F) /\ next - 1 + lenN es <= lenN F).
  { set (hi := N.min (lenN F) _) in *. assert (Hhi : hi <= lenN F) by lia. clearbody hi.
    destruct (N.le_gt_cases next hi) as [Hle|Hgt].
    - apply (slice_Ok _ F) in Hs; [|done..].
      assert (Hlen : length es = N.to_nat (hi - next + 1)).
      { rewrite Hs, length_take, length_drop. unfold lenN in *. lia. }
      rewrite Hlen. split; [done|]. unfold lenN in *. lia.
    - unfold slice in Hs. rewrite (proj2 (N.ltb_lt hi next)) in Hs by done. rewrite orb_true_r in Hs. injection Hs as <-.
      split; [done|]. rewrite lenN_nil. lia. }
  destruct Hes as [Hes Hlen]. split; cbn; rewrite <- ?Hll; try done.
  - by exists el.
  - rewrite (rep_term0 _ F); [done|done|lia].
  - apply Hr.
Qed.

Lemma load_snapshot_rel t i h r req meta :
  node_ok r -> raft_rel h i r -> state r = Leader -> rterm r = t -> sendSnapshot_load t r = Some (req, meta) ->
  is_Term req = t /\ sm_LastIncludedIndex meta = is_LastIncludedIndex req /\ snap_rel peers h req /\
  d_snap (durable (storage r)) = Some (is_LastIncludedIndex req, is_LastIncludedTerm req, is_Data req).
Proof.
  intros Hok Hr Hst Ht Hs. unfold sendSnapshot_load in Hs.
  destruct (latest_durable (storage r) (nk_storage _ Hok)) as (om & data & Hls & Hd). rewrite Hls in Hs.
  destruct om as [m|]; [|done]. injection Hs as <- <-. cbn in Hd. subst t.
  destruct (rr_leader _ _ _ _ Hr Hst) as ((el & Hel & _) & Hll & _). pose proof (rr_commit _ _ _ _ Hr) as Hc.
  pose proof (rr_dsnap _ _ _ _ Hr) as Hds. destruct (rr_log _ _ _ _ Hr) as [_ [_ _ Hdt]]. cbn in Hdt.
  unfold d_snapIndex, d_snapTerm in *. rewrite Hd in Hds, Hdt. cbn in Hdt.
  split_and!; [done|done| |done]. split; cbn; rewrite <- ?Hll; try done.
  - by exists el.
  - lia.
  - eapply decided_prefix; [apply Hr|]. by apply pre_mono.
Qed.

Lemma send_snapshot_rel t i h pc r req meta :
  node_ok r -> raft_rel h i r -> applier_rel (h_log h i) pc r -> state r = Leader -> rterm r = t ->
  sendSnapshot_load t r = Some (req, meta) ->
  sm_LastIncludedIndex meta = is_LastIncludedIndex req /\ snap_rel peers h req /\ snap_data h req.
Proof.
  intros Hok Hr Ha Hst Ht Hs. destruct (load_snapshot_rel t i h r req meta Hok Hr Hst Ht Hs) as (Et & Em & Hsr & Hd).
  split_and!; [done|done|]. unfold snap_data. destruct (rr_leader _ _ _ _ Hr Hst) as (_ & Hll & _). rewrite Et, <- Ht, <- Hll.
  by apply (al_durable _ _ _ Ha) in Hd.
Qed.

(** *** Starting from what storage holds *)
Lemma New_machine c st sm r :
  storage_ok st -> New c st sm = Ok (inl r) ->
  match d_snap (durable st) with
  | None => machine r = sm
  | Some (_, _, data) => sm_restore sm data = Some (machine r)
  end.
Proof.
  intros Hst. unfold New. destruct (setDefaults c) as [c'|] eqn:Hc; [|done].
  destruct (load_durable st Hst) as (l & st' & -> & <- & _). cbn.
  destruct (match ld_HardState l with Some hs => _ | None => _ end) as [t v].
  destruct (ld_SnapshotMeta l) as [m|]; cbn.
  - destruct (sm_restore sm (ld_SnapshotData l)) as [sm'|]; [|done]. intros Hb. apply bind_Ok in Hb as (? & _ & Hb). by inv_ok.
  - intros Hb. apply bind_Ok in Hb as (? & _ & Hb). by inv_ok.
Qed.

Lemma restart_applier F c st r env :
  contiguous 0 F -> storage_ok st -> (forall i t data, d_snap (durable st) = Some (i, t, data) -> snapshot_of sm0 (pre i F) data) ->
  New c st sm0 = Ok (inl r) -> applier_rel F ApplierIdle (nd_raft (boot env r)).
Proof.
  intros HF Hst Hd Hn. pose proof (New_machine _ _ _ _ Hst Hn) as Hm.
  apply New_spec in Hn as (c' & _ & _ & _ & _ & _ & _ & Hc & Hla & _ & _ & _ & Hp & _ & _ & _ & Hdu); [|done].
  split; cbn; rewrite ?Hp, ?Hdu; try done; [by rewrite Hla|]. rewrite Hla, Hc. unfold d_snapIndex.
  destruct (d_snap (durable st)) as [[[k t] data]|] eqn:Hs.
  - eapply (snapshot_of_restore _ [] (machine r) sm0); [by apply pre_contiguous|apply contiguous_nil|by eapply Hd|apply applied_nil|done].
  - rewrite Hm. apply applied_nil.
Qed.

(** ** The invariant of a group *)
Definition voted h (v : string) (t : N) (x : string) : Prop := exists l, h_vote h v t = Some (x, l).

Definition out_rel h (m : Msg) : Prop :=
  msg_rel peers h m /\ match m_body m with MSnap _ _ req => snap_data h req | _ => True end.

Record node_inv h (i : string) (n : NodeSt) : Prop := {
  ni_peer : i ∈ peers;
  ni_local : local_ok peers i n;
  ni_camp : camp_ok peers (voted h) i (nd_camp n);
  ni_rel : raft_rel h i (nd_raft n);
  ni_applier : applier_rel (h_log h i) (nd_applier n) (nd_raft n);
  ni_sending : Forall (fun pr => append_rel peers h pr.2) (nd_sending n);
}.

Record Safe (c : Cluster) h : Prop := {
  sf_good : good h;
  sf_nodes : forall i n, nodes c !! i = Some n -> node_inv h i n;
  sf_net : Forall (fun m => msg_ok peers (voted h) m /\ out_rel h m) (net c);
}.

Lemma snap_data_mono h h' req : evolves h h' -> snap_rel peers h req -> snap_data h req -> snap_data h' req.
Proof. intros Hev Hs. unfold snap_data. by rewrite (pre_llog h h') by (done || apply Hs). Qed.

Lemma out_rel_mono h h' m : evolves h h' -> out_rel h m -> out_rel h' m.
Proof.
  intros Hev [Hm Hd]. split; [by eapply msg_rel_mono|]. unfold msg_rel in Hm. destruct (m_body m); try done.
  destruct Hm. by eapply snap_data_mono.
Qed.

Lemma voted_mono h h' v t x : evolves h h' -> voted h v t x -> voted h' v t x.
Proof. intros Hev [l Hl]. exists l. by apply Hev. Qed.

(** What one step of one node establishes, besides what [Election.v] says of votes. *)
Definition progress h (i : string) (n n' : NodeSt) (out : list Msg) : Prop :=
  exists h', follows i h (nd_raft n) h' (nd_raft n') /\
    applier_rel (h_log h' i) (nd_applier n') (nd_raft n') /\
    Forall (fun pr => append_rel peers h' pr.2) (nd_sending n') /\ Forall (out_rel h') out.

Section Steps.
Context (h : History) (i : string) (n : NodeSt) (Hg : good h) (Hn : node_inv h i n).
#[local] Abbreviation r := (nd_raft n).

Lemma sending_mono h' : evolves h h' -> Forall (fun pr => append_rel peers h' pr.2) (nd_sending n).
Proof. intros Hev. eapply Forall_impl; [apply Hn|]. intros pr Hpr. by eapply append_rel_mono. Qed.

(** Critical sections that leave the applier and the snapshots alone. *)
Lemma quiet n' out h' :
  follows i h r h' (nd_raft n') -> fixed (nd_raft n') = fixed r -> nd_applier n' = nd_applier n -> nd_sending n' = nd_sending n ->
  Forall (out_rel h') out -> progress h i n n' out.
Proof.
  intros Hfo Hfx Ea Es Ho. exists h'. rewrite Ea, Es. split_and!; [done| | |done].
  - eapply applier_rel_fixed; [apply Hn|apply Hn|done|done].
  - apply sending_mono, Hfo.
Qed.

Lemma quiet_frame n' : view (nd_raft n') = view r -> fixed (nd_raft n') = fixed r -> nd_applier n' = nd_applier n ->
  nd_sending n' = nd_sending n -> progress h i n n' [].
Proof. intros Hv Hf Ha Hs. apply (quiet _ _ h); [|done..|constructor]. apply follows_frame; [done|apply Hn|done]. Qed.

Lemma quiet_ex n' : (exists h', follows i h r h' (nd_raft n')) -> fixed (nd_raft n') = fixed r -> nd_applier n' = nd_applier n ->
  nd_sending n' = nd_sending n -> progress h i n n' [].
Proof. intros [h' Hfo] Hf Ha Hs. by apply (quiet _ _ h'). Qed.
End Steps.

Lemma camp_messages_rel h i r pc :
  raft_rel h i r -> ID (cfg r) = i ->
  match pc with
  | PreVoting req => rv_PreVote req = true
  | Voting req => state r = Candidate /\ req = voteRequestLocked (rterm r) false r
  | Exiting => True
  end -> Forall (out_rel h) (camp_messages r pc).
Proof.
  intros Hr Hid Hpc. unfold camp_messages. destruct (camp_request pc) as [req|] eqn:Hq; [|constructor].
  destruct (_ =? 1)%nat; [constructor|]. apply Forall_fmap, Forall_true. intros p. split; [|done]. cbn. intros Hpre.
  destruct pc; simplify_eq/=; [congruence|]. destruct Hpc as [Hst ->]. cbn in *.
  destruct (rr_cand _ _ _ _ Hr Hst) as [Hc _]. exists (h_log h (ID (cfg r))). split; [done|].
  destruct (rr_log _ _ _ _ Hr) as [Hmem _]. rewrite (rep_lastIndex _ _ Hmem), (rep_lastTerm _ _ Hmem), lterm_last. done.
Qed.

Lemma elect_step env i h r r' pc :
  good h -> node_ok r -> raft_rel h i r -> ID (cfg r) = i -> i <> "" -> campaign_elect env r = Ok (r', pc) ->
  exists h', follows i h r h' r' /\ Forall (out_rel h') (camp_messages r' pc).
Proof.
  intros Hg Hok Hr Hid Hi Hb. destruct (elect_follows peers _ i h r r' pc Hg Hok Hr Hid Hi Hb) as [h' Hfo].
  exists h'. split; [done|]. apply campaign_elect_spec in Hb as ((_ & (Hc & _) & _) & _ & _ & Hst & _ & ->); [|done].
  apply (camp_messages_rel _ i); [apply Hfo|by rewrite Hc|done].
Qed.

(** *** Every step of a node *)
Section NodeStep.
Context (h : History) (i : string) (n : NodeSt) (net : list Msg).
Context (Hg : good h) (Hn : node_inv h i n).
Context (Hnet : forall m, m ∈ net -> msg_ok peers (voted h) m /\ out_rel h m).
#[local] Abbreviation r := (nd_raft n).

Lemma ni_ok : node_ok r.
Proof. apply Hn. Qed.

Lemma ni_fits : fits peers i r.
Proof. apply Hn. Qed.

Lemma ni_id : ID (cfg r) = i.
Proof. apply ni_fits. Qed.

Lemma ni_named : i <> "".
Proof. intros ->. apply peers_named, Hn. Qed.

Lemma tick_follows env r' b : tick env r = Ok (r', b) -> exists h', follows i h r h' r'.
Proof.
  unfold tick. case_match; [intros Hb; inv_ok; exists h; by apply follows_refl, Hn|]. case_match.
  - case_match; intros Hb; [|inv_ok; exists h; by apply follows_refl, Hn].
    apply bind_Ok in Hb as (r1 & Hd & Hb). inv_ok. eapply becomeFollower_follows; [done|apply ni_ok|apply Hn|done].
  - case_match; intros Hb; inv_ok; exists h; apply follows_frame; done || apply Hn.
Qed.

Lemma vote_answer_follows env resp r' b : vote_answer env resp r = Ok (r', b) -> exists h', follows i h r h' r'.
Proof.
  unfold vote_answer. intros Hb. apply bind_Ok in Hb as (r1 & Hd & Hb). inv_ok. case_match.
  - eapply becomeFollower_follows; [done|apply ni_ok|apply Hn|done].
  - injection Hd as <-. exists h. by apply follows_refl, Hn.
Qed.

Lemma begin_step env skip r' pc :
  campaign_begin env skip r = Ok (r', pc) -> exists h', follows i h r h' r' /\ Forall (out_rel h') (camp_messages r' pc).
Proof.
  unfold campaign_begin. case_match; [intros Hb; inv_ok; exists h; split; [by apply follows_refl, Hn|constructor]|]. intros Hb.
  assert (Hfr : follows i h r h (resetElectionTimerLocked env r)) by (apply follows_frame; [done|apply Hn|done]).
  destruct skip.
  - apply (elect_step _ i h) in Hb as (h' & Hfo & Ho);
      [|done|apply (node_ok_ext r); [apply ni_ok|done..]|apply Hfr|apply ni_id|apply ni_named].
    exists h'. split; [by eapply follows_trans|done].
  - inv_ok. exists h. split; [done|]. by apply (camp_messages_rel _ i); [apply Hfr|apply ni_id|].
Qed.

Lemma prevoted_step env req won r' pc :
  campaign_prevoted env req won r = Ok (r', pc) -> exists h', follows i h r h' r' /\ Forall (out_rel h') (camp_messages r' pc).
Proof.
  unfold campaign_prevoted. case_match; [intros Hb; inv_ok; exists h; split; [by apply follows_refl, Hn|constructor]|].
  case_match; [intros Hb; inv_ok; exists h; split; [by apply follows_refl, Hn|constructor]|].
  apply elect_step; [done|apply ni_ok|apply Hn|apply ni_id|apply ni_named].
Qed.

Lemma voted_step env req answers won r' pc :
  nd_camp n = Some (CCollect (Voting req) answers) ->
  collectVotes answers.*2 r = Some won \/ stopped r = true /\ won = false ->
  campaign_voted env req won r = Ok (r', pc) -> exists h', follows i h r h' r'.
Proof.
  intros Hc Hw. unfold campaign_voted. destruct won; cbn [negb]; [|intros Hb; inv_ok; exists h; by apply follows_refl, Hn].
  case_match eqn:Hgd; intros Hb; [|inv_ok; exists h; by apply follows_refl, Hn].
  apply bind_Ok in Hb as (r1 & Hd & Hb). injection Hb as <- <-.
  apply andb_true_iff in Hgd as [[_ Hst]%andb_true_iff Ht]. apply bool_decide_eq_true in Hst. apply N.eqb_eq in Ht.
  destruct Hw as [Hw|[_ ?]]; [|done].
  destruct (wins_elected peers (voted h) i n req answers (ni_local _ _ _ Hn) (ni_peer _ _ _ Hn) (ni_camp _ _ _ Hn) Hc Hw Ht)
    as (voters & Hnd & Hsub & Hlen & Hv).
  exact (win_follows peers env i h r r1 voters peers_nodup (ni_peer _ _ _ Hn) ni_fits Hg ni_ok (ni_rel _ _ _ Hn) Hst
    (conj Hnd (conj Hsub Hlen)) Hv Hd).
Qed.

Lemma append_step env sentAt src req r' resp :
  mkMsg src (ID (cfg r)) (MAppend sentAt req) ∈ net -> HandleAppendEntries env req r = Ok (r', resp) ->
  exists h', follows i h r h' r' /\ Forall (out_rel h') [mkMsg (ID (cfg r)) src (MAppendResp sentAt req resp)].
Proof.
  intros Hm Hb. apply Hnet in Hm as [_ [Hm _]]. cbn in Hm.
  destruct (append_follows peers env req i h r r' resp Hg ni_ok ltac:(apply Hn) Hm Hb) as (h' & Hfo & Hack).
  exists h'. split; [done|]. apply Forall_singleton. split; [|done]. cbn. by rewrite ni_id.
Qed.

Lemma install_step env sentAt src meta req r' resp :
  mkMsg src (ID (cfg r)) (MSnap sentAt meta req) ∈ net -> HandleInstallSnapshot env req r = Ok (r', resp) ->
  progress h i n (n <| nd_raft := r' |>) [mkMsg (ID (cfg r)) src (MSnapResp sentAt meta req resp)].
Proof.
  intros Hm Hb. apply Hnet in Hm as [_ [[Hmeta Hm] Hd]]. cbn in Hmeta, Hm, Hd.
  destruct (install_follows peers env req i h r r' resp Hg ni_ok ltac:(apply Hn) Hm Hb) as (h' & Hfo & Hack).
  exists h'. split_and!; [done| | |].
  - eapply install_applier; [done|apply ni_ok|apply Hn|exact Hm|done|apply Hn|done|done].
  - apply (sending_mono h i n Hn), Hfo.
  - apply Forall_singleton. split; [|done]. cbn. by rewrite ni_id, Hmeta.
Qed.

Lemma applier_progress r' pc :
  applier_step (nd_applier n) r = Ok (r', pc) -> progress h i n (n <| nd_raft := r' |> <| nd_applier := pc |>) [].
Proof.
  intros Hb. destruct (applier_step_rel i h r (nd_applier n) r' pc) as [Hfo Ha]; [done|apply ni_ok|apply Hn|apply Hn|done|].
  exists h. split_and!; [done|done|apply Hn|constructor].
Qed.

Lemma node_step_progress n' out : node_step net n n' out -> progress h i n n' out.
Proof.
  intros Hstep. pose proof ni_ok as Hok. pose proof (ni_rel _ _ _ Hn) as Hr. pose proof ni_fits as Hf. pose proof (ni_peer _ _ _ Hn) as Hip.
  destruct Hstep as [t ?|rnd r' started Ht|rnd skip r' pc Hc Ht|pc req peer answers Hc|rnd peer req resp r' g Hm Ht
    |rnd peer req resp r' g pc answers Hm Ht|rnd req answers won r' pc Hc Hw Ht|rnd req answers won r' pc Hc Hw Ht
    |answers Hc|rnd src req r' resp Hm Ht|src req r' resp started Hm Ht|ctxErr peer t act Hp Ht|peer req Hp
    |peer t req meta Hp Hld Htm Ht|rnd src sentAt req r' resp Hm Ht|rnd peer sentAt req resp r' again Hm Ht
    |rnd src sentAt meta req r' resp Hm Ht|rnd peer sentAt meta req resp r' again Hm Ht|batch r' Hb Ht|r' o Ht
    |r' pc Ht|target r' t Ht|t target req Hp Ht|t target Hp|].
  - by apply quiet_frame.
  - apply quiet_ex; try done; [by eapply tick_follows|by eapply tick_fixed].
  - apply begin_step in Ht as Ht'. destruct Ht' as (h' & Hfo & Ho). apply (quiet h i n Hn _ _ h'); try done. by eapply campaign_begin_fixed.
  - by apply quiet_frame.
  - apply quiet_ex; try done; [by eapply vote_answer_follows|by eapply vote_answer_fixed].
  - apply quiet_ex; try done; [by eapply vote_answer_follows|by eapply vote_answer_fixed].
  - apply prevoted_step in Ht as Ht'. destruct Ht' as (h' & Hfo & Ho). apply (quiet h i n Hn _ _ h'); try done. by eapply campaign_prevoted_fixed.
  - apply quiet_ex; try done; [by eapply voted_step|by eapply campaign_voted_fixed].
  - by apply quiet_frame.
  - apply Hnet in Hm as [Hmo [Hm _]]. cbn in Hm, Hmo.
    destruct (vote_follows peers _ req i h r r' resp Hg Hok Hr Hm ltac:(intros E; apply peers_named; by rewrite <- E) Ht) as [h' Hfo].
    apply (quiet h i n Hn _ _ h'); try done; [by eapply HandleRequestVote_fixed|]. by apply Forall_singleton.
  - revert Ht. unfold HandleTimeoutNow. case_match; intros [= <- _ <-]; by apply quiet_frame.
  - destruct act; [by apply quiet_frame| |by apply quiet_frame]. exists h. split_and!; [by apply follows_refl|apply Hn| |constructor].
    constructor; [by eapply replicate_rel|apply Hn].
  - exists h. split_and!; [by apply follows_refl|apply Hn|apply Hn|]. apply Forall_singleton. split; [|done].
    pose proof (ni_sending _ _ _ Hn) as Hs. rewrite Forall_forall in Hs. by apply (Hs (peer, req)).
  - exists h. split_and!; [by apply follows_refl|apply Hn|apply Hn|]. apply Forall_singleton.
    destruct (send_snapshot_rel t i h (nd_applier n) r req meta) as (Hme & Hsr & Hd); try done. apply Hn.
  - destruct (append_step _ _ _ _ _ _ Hm Ht) as (h' & Hfo & Ho). apply (quiet h i n Hn _ _ h'); try done. by eapply HandleAppendEntries_fixed.
  - apply Hnet in Hm as [_ [Hm _]]. cbn in Hm. apply quiet_ex; try done; [by eapply append_answer_follows|by eapply replicateOnce_recv_fixed].
  - by eapply install_step.
  - apply Hnet in Hm as [_ [Hm _]]. cbn in Hm. apply quiet_ex; try done; [by eapply snapshot_answer_follows|by eapply sendSnapshot_recv_fixed].
  - apply quiet_ex; try done; [by eapply propose_follows|by eapply appendProposals_fixed].
  - revert Ht. unfold confirmLeadership_begin. repeat case_match; intros [= <- _]; by apply quiet_frame.
  - by apply applier_progress.
  - revert Ht. unfold transfer_begin. repeat case_match; intros Ht; simplify_eq; by apply quiet_frame.
  - by exists h; split_and!; [apply follows_refl|apply Hn|apply Hn|apply Forall_singleton].
  - apply quiet_frame; try done; cbn; unfold transfer_cleanup; by case_match.
  - apply quiet_frame; try done; cbn; unfold Stop; by case_match.
Qed.

End NodeStep.

(** *** Every step of the group *)
Lemma node_inv_other i j h h' n : moves i h h' -> j <> i -> node_inv h j n -> node_inv h' j n.
Proof.
  intros Hmv Hne [Hp Hl Hc Hr Ha Hs]. pose proof (mv_evolves _ _ _ Hmv) as Hev. split; try done.
  - eapply camp_ok_mono; [|exact Hc]. intros. by eapply voted_mono.
  - by eapply raft_rel_other.
  - by rewrite (mv_log _ _ _ Hmv).
  - eapply Forall_impl; [exact Hs|]. intros pr Hpr. by eapply append_rel_mono.
Qed.

Lemma net_mono h h' (ms : list Msg) :
  evolves h h' -> Forall (fun m => msg_ok peers (voted h) m /\ out_rel h m) ms ->
  Forall (fun m => msg_ok peers (voted h') m /\ out_rel h' m) ms.
Proof.
  intros Hev Hms. eapply Forall_impl; [exact Hms|]. intros m [Hm1 Hm2]. split; [|by eapply out_rel_mono].
  eapply msg_ok_mono; [|exact Hm1]. intros. by eapply voted_mono.
Qed.

(** One node moves, and the history with it. *)
Lemma Safe_update c h i n' h' out :
  Safe c h -> moves i h h' -> good h' -> node_inv h' i n' ->
  Forall (fun m => msg_ok peers (voted h') m /\ out_rel h' m) out ->
  Safe (mkCluster (<[i := n']> (nodes c)) (net c ++ out)) h'.
Proof.
  intros [_ Hns Hnet] Hmv Hg' Hn' Hout. split; [done| |]; cbn.
  - intros j m Hj. destruct (decide (j = i)) as [->|Hne].
    + rewrite lookup_insert_eq in Hj. by injection Hj as <-.
    + rewrite lookup_insert_ne in Hj by done. eapply node_inv_other; [done..|by apply Hns].
  - apply Forall_app. split; [|done]. eapply net_mono; [apply Hmv|done].
Qed.

Lemma held_voted h i r t x : raft_rel h i r -> holds_vote r t x -> voted h i t x.
Proof. intros Hr (<- & <- & Hx). by apply Hr. Qed.

(** What a crash leaves is what an earlier or shorter critical section would leave. *)
Lemma crash_follows c h i n st :
  Safe c h -> nodes c !! i = Some n -> crash_point (net c) n st ->
  exists h' r', follows i h (nd_raft n) h' r' /\ node_ok r' /\ storage r' = st /\ fixed r' = fixed (nd_raft n).
Proof.
  intros [Hg Hns Hnet] Hi Hcp. pose proof (Hns _ _ Hi) as Hn. pose proof (ni_ok _ _ _ Hn) as Hok. pose proof (ni_rel _ _ _ Hn) as Hr.
  destruct Hcp as [|env t l r1 Hb|env src sentAt req k r1 resp Hm Hb].
  - exists h, (nd_raft n). by split_and!; [apply follows_refl|..].
  - destruct (becomeFollower_follows peers env t l i h _ _ Hg Hok Hr Hb) as [h' Hfo]. exists h', r1.
    split_and!; [done| |done|by eapply becomeFollower_fixed]. by apply becomeFollower_safe in Hb as (? & _).
  - rewrite Forall_forall in Hnet. apply Hnet in Hm as [_ [Hm _]]. cbn in Hm. apply (append_rel_take peers h req k) in Hm.
    destruct (append_follows peers env _ i h _ _ _ Hg Hok Hr Hm Hb) as (h' & Hfo & _). exists h', r1.
    split_and!; [done| |done|by eapply HandleAppendEntries_fixed]. by apply HandleAppendEntries_safe in Hb as (? & _).
Qed.

Lemma Safe_node_step c h i n n' out :
  Safe c h -> nodes c !! i = Some n -> node_step (net c) n n' out ->
  exists h', Safe (mkCluster (<[i := n']> (nodes c)) (net c ++ out)) h' /\ follows i h (nd_raft n) h' (nd_raft n').
Proof.
  intros HS Hi Hstep. pose proof HS as [Hg Hns Hnet]. pose proof (Hns _ _ Hi) as Hn.
  destruct (node_step_progress h i n (net c) Hg Hn (proj1 (Forall_forall _ _) Hnet) n' out Hstep) as (h' & Hfo & Ha & Hs & Ho).
  pose proof (fo_moves _ _ _ _ _ _ Hfo) as Hmv. pose proof (mv_evolves _ _ _ Hmv) as Hev. exists h'. split; [|done].
  assert (Hnet' : forall h1, evolves h h1 -> Forall (msg_ok peers (voted h1)) (net c)).
  { intros h1 Hev1. eapply Forall_impl; [exact Hnet|]. intros m [Hm _]. eapply msg_ok_mono; [|exact Hm].
    intros. by eapply voted_mono. }
  destruct (node_step_local peers peers_named (voted h) i (net c) n n' out) as [Hl _]; [apply Hn|by apply Hnet'|done|].
  destruct (node_step_votes peers peers_named (voted h') i (net c) n n' out) as [Hc Hv];
    [apply Hn|apply Hn|by apply Hnet'|eapply camp_ok_mono; [|apply Hn]; intros; by eapply voted_mono|done|intros; eapply held_voted; [apply Hfo|done]|].
  apply (Safe_update c h); [done|done|apply Hfo| |by apply Forall_and]. split; [apply Hn|done|done|apply Hfo|done|done].
Qed.

Lemma Safe_restart c h i n env st r :
  Safe c h -> nodes c !! i = Some n -> crash_point (net c) n st -> New (config i) st sm0 = Ok (inl r) ->
  exists h', Safe (mkCluster (<[i := boot env r]> (nodes c)) (net c)) h' /\ moves i h h'.
Proof.
  intros HS Hi Hcp Hnew. pose proof HS as [Hg Hns Hnet]. pose proof (Hns _ _ Hi) as Hn.
  destruct (crash_follows c h i n st HS Hi Hcp) as (h' & r1 & Hfo & Hok & <- & Hfx).
  pose proof (fo_moves _ _ _ _ _ _ Hfo) as Hmv. exists h'. split; [|done].
  destruct (restart_role peers config sm0 peers_named config_id config_peers i (net c) n (storage r1) env r) as [Hl _]; [apply Hn|apply Hn|done..|].
  pose proof (restart_rel peers h' i r1 _ _ _ r (fo_good _ _ _ _ _ _ Hfo) Hok (fo_rel _ _ _ _ _ _ Hfo) eq_refl Hnew) as Hr.
  rewrite <- (app_nil_r (net c)). apply (Safe_update c h); [done|done|apply Hfo| |constructor].
  split; [apply Hn|done|done|by apply (raft_rel_view peers h' i r)| |constructor].
  eapply restart_applier; [apply Hfo|apply Hok| |exact Hnew]. eapply al_durable, (applier_rel_fixed i h h'); [apply Hn|apply Hn|done|done].
Qed.

Lemma Safe_step c c' h : Safe c h -> step config sm0 c c' -> exists h', Safe c' h' /\ evolves h h'.
Proof.
  intros HS [i n n' out Hi Hstep|i n env st r Hi Hcp Hnew].
  - destruct (Safe_node_step c h i n n' out HS Hi Hstep) as (h' & HS' & Hfo). exists h'. split; [done|apply Hfo].
  - destruct (Safe_restart c h i n env st r HS Hi Hcp Hnew) as (h' & HS' & Hmv). exists h'. split; [done|apply Hmv].
Qed.

Lemma Safe_steps c c' h : Safe c h -> rtc (step config sm0) c c' -> exists h', Safe c' h' /\ evolves h h'.
Proof.
  intros HS Hst. revert h HS. induction Hst as [c|c c1 c' Hs _ IH]; intros h HS; [by exists h|].
  destruct (Safe_step _ _ _ HS Hs) as (h1 & HS1 & He1). destruct (IH _ HS1) as (h2 & HS2 & He2). exists h2. split; [done|by etrans].
Qed.

(** *** The start *)
Definition genesis : History :=
  mkHistory (fun _ => 0) (fun _ => []) (fun _ _ => None) (fun _ _ => None) (fun _ => None) (fun _ => []) (fun _ _ _ => False).

Lemma genesis_good : good genesis.
Proof.
  split; [split; cbn|split; intros; apply contiguous_nil]; try done.
  - intros i. split; [apply log_valid_nil|constructor].
  - intros t [el Hel]. done.
  - intros v T c [->|(m & _ & [])]. by left.
Qed.

Lemma initial_Safe c : initial peers config sm0 c -> Safe c genesis.
Proof.
  intros Hini. pose proof (initial_Inv peers config sm0 config_id config_peers c Hini) as HI.
  destruct Hini as (Hnet & _ & Hnodes). split; [apply genesis_good| |by rewrite Hnet].
  intros i n Hi. destruct (inv_local _ _ _ _ HI _ _ Hi) as (Hp & Hl & _).
  destruct (Hnodes _ _ Hi) as (_ & env & st & r & Hst & Hd & Hnew & ->). split; [done|done|done| | |constructor].
  - pose proof Hnew as Hnew'. apply New_spec in Hnew as (c' & _ & _ & Hlog & Hhs & Hfo & _ & Hc & _ & _ & _ & _ & _ & _ & _ & _ & Hdu); [|done].
    rewrite Hd in Hlog, Hhs, Hc, Hdu. injection Hhs as Ht Hv. apply (raft_rel_view _ _ _ r); [done|].
    split; rewrite ?Ht, ?Hv, ?Hfo, ?Hc, ?Hdu, ?Hlog; try done; [|by left].
    assert (Hrep : represents (d_log (mkDurable None None [])) []) by by split.
    unfold holds_log. by rewrite Hlog, Hdu.
  - eapply restart_applier; [apply contiguous_nil|done| |done]. by rewrite Hd.
Qed.

(** *** One log *)

(** A replica's committed entries are those of [L] at their indices, its
    state machine is what some prefix of [L] it has committed yields, and so is
    the snapshot it keeps. *)
Record agrees (L : list Entry) (n : NodeSt) : Prop := {
  ag_bound : commitIndex (nd_raft n) <= lenN L;
  ag_log : snapIndex (rlog (nd_raft n)) <= commitIndex (nd_raft n) /\
    pre (snapIndex (rlog (nd_raft n))) L ++
      pre (commitIndex (nd_raft n) - snapIndex (rlog (nd_raft n))) (entries (rlog (nd_raft n)))
    = pre (commitIndex (nd_raft n)) L;
  ag_machine : exists k, lastApplied (nd_raft n) <= k /\ k <= commitIndex (nd_raft n) /\
    (nd_applier n = ApplierIdle -> k = lastApplied (nd_raft n)) /\ applied sm0 (pre k L) (machine (nd_raft n));
  ag_snapshot : forall i t data, d_snap (durable (storage (nd_raft n))) = Some (i, t, data) ->
    i <= commitIndex (nd_raft n) /\ t = lterm L i /\ snapshot_of sm0 (pre i L) data;
}.

(** What a node has committed. *)
Definition chosen h (i : string) (n : NodeSt) : list Entry := pre (commitIndex (nd_raft n)) (h_log h i).

Lemma chosen_agrees h i n L : node_inv h i n -> chosen h i n `prefix_of` L -> agrees L n.
Proof.
  intros [_ _ _ Hr Ha _] HP. unfold chosen in HP. pose proof (rr_commit _ _ _ _ Hr) as Hc. set (F := h_log h i) in *.
  destruct (rr_log _ _ _ _ Hr) as [[_ He _] [_ _ Hdt]]. pose proof (rr_snap _ _ _ _ Hr) as Hs. pose proof (rr_dsnap _ _ _ _ Hr) as Hds.
  assert (Hlen : commitIndex (nd_raft n) <= lenN L).
  { apply prefix_length in HP. unfold pre in HP. rewrite length_take in HP. unfold lenN in *. lia. }
  assert (Hpre : forall k, k <= commitIndex (nd_raft n) -> pre k L = pre k F).
  { intros k Hk. unfold pre in *. rewrite <- (prefix_take (N.to_nat k) _ _ HP).
    - rewrite take_take. f_equal. lia.
    - rewrite length_take. unfold lenN in *. lia. }
  destruct Ha as [[Hre1 Hre2] _ Hd Hm _]. split; [done| | |].
  - split; [done|]. rewrite He, !Hpre by done. unfold pre at 2. rewrite pre_snoc. f_equal. lia.
  - exists (match nd_applier n with ApplierApplied _ _ | ApplierRestored _ => reach (nd_applier n) (nd_raft n) | _ => lastApplied (nd_raft n) end).
    destruct (nd_applier n); cbn in *; rewrite Hpre by lia; split_and!; done || lia.
  - intros k t data Hsn. unfold d_snapIndex in Hds. cbn in Hdt. unfold d_snapTerm, d_snapIndex in Hdt. rewrite Hsn in Hds, Hdt. cbn in Hdt.
    split_and!; [done| |rewrite Hpre by done; by eapply Hd]. rewrite Hdt. eapply lterm_pre; [symmetry; by apply Hpre|done].
Qed.

(** Finitely many decided prefixes are prefixes of one of them. *)
Lemma decided_bound h (Ps : list (list Entry)) :
  good h -> Forall (fun P => exists t, decided peers h t P) Ps -> exists L, (exists t, decided peers h t L) /\ Forall (fun P => P `prefix_of` L) Ps.
Proof.
  intros [Hh _] Hps. induction Hps as [|P Ps [t HP] _ (L & [u HL] & IH)]; [exists []; split; [exists 0; by left|constructor]|].
  destruct (decided_agree peers h t u P L Hh HP HL) as [Hp|Hp].
  - exists L. split; [by exists u|by constructor].
  - exists P. split; [by exists t|]. constructor; [done|]. eapply Forall_impl; [exact IH|]. intros Q HQ. cbn in HQ. etrans; [exact HQ|exact Hp].
Qed.

Lemma decided_contiguous h t P : good h -> decided peers h t P -> contiguous 0 P.
Proof.
  intros [_ [_ Hix]] [->|(T & c & _ & _ & HP)]; [apply contiguous_nil|].
  rewrite (prefix_take_eq _ _ HP). apply contiguous_take, contiguous_take, Hix.
Qed.

Lemma chosen_decided c h h' : Safe c h -> evolves h h' ->
  Forall (fun P => exists t, decided peers h' t P) ((fun x => chosen h x.1 x.2) <$> map_to_list (nodes c)).
Proof.
  intros HS Hev. apply Forall_fmap, Forall_forall. intros [i n] Hin. apply elem_of_map_to_list in Hin.
  apply (sf_nodes _ _ HS) in Hin as Hn. exists (rterm (nd_raft n)). eapply decided_evolves; [exact Hev|done|apply Hn].
Qed.

Lemma chosen_all_agree c h L : Safe c h ->
  Forall (fun P => P `prefix_of` L) ((fun x => chosen h x.1 x.2) <$> map_to_list (nodes c)) ->
  forall i n, nodes c !! i = Some n -> agrees L n.
Proof.
  intros HS HL i n Hi. rewrite Forall_fmap, Forall_forall in HL. apply (chosen_agrees h i); [by apply (sf_nodes _ _ HS)|].
  apply (HL (i, n)). by apply elem_of_map_to_list.
Qed.

(** For any two moments there is one log with which every replica agrees at both. *)
Lemma chosen_log c1 c2 h1 h2 :
  Safe c1 h1 -> Safe c2 h2 -> evolves h1 h2 ->
  exists L, contiguous 0 L /\ (forall i n, nodes c1 !! i = Some n -> chosen h1 i n `prefix_of` L /\ agrees L n) /\
    (forall i n, nodes c2 !! i = Some n -> agrees L n).
Proof.
  intros HS1 HS2 Hev.
  destruct (decided_bound h2 (((fun x => chosen h1 x.1 x.2) <$> map_to_list (nodes c1)) ++
    ((fun x => chosen h2 x.1 x.2) <$> map_to_list (nodes c2)))) as (L & [t Hdec] & HL); [apply HS2| |].
  { apply Forall_app. split; [by eapply chosen_decided|]. eapply chosen_decided; [done|reflexivity]. }
  apply Forall_app in HL as [HL1 HL2]. exists L. split; [eapply decided_contiguous; [apply HS2|exact Hdec]|].
  split; [|exact (chosen_all_agree c2 h2 L HS2 HL2)]. intros i n Hi.
  split; [|exact (chosen_all_agree c1 h1 L HS1 HL1 i n Hi)]. rewrite Forall_fmap, Forall_forall in HL1. apply (HL1 (i, n)). by apply elem_of_map_to_list.
Qed.

Lemma one_log c0 c1 c2 :
  initial peers config sm0 c0 -> rtc (step config sm0) c0 c1 -> rtc (step config sm0) c1 c2 ->
  exists L, (forall i n, nodes c1 !! i = Some n -> agrees L n) /\ (forall i n, nodes c2 !! i = Some n -> agrees L n).
Proof.
  intros H0' H1' H2'. destruct (Safe_steps _ _ _ (initial_Safe _ H0') H1') as (h1 & HS1 & _).
  destruct (Safe_steps _ _ _ HS1 H2') as (h2 & HS2 & Hev). destruct (chosen_log _ _ _ _ HS1 HS2 Hev) as (L & _ & HL1 & HL2).
  exists L. split; [|done]. intros i n Hi. by apply HL1 in Hi as [_ ?].
Qed.

(** C1: state machine safety. In any run of a group over lawful storages, with
    messages lost, delayed, duplicated and reordered and nodes crashing and
    restarting, there is for any two moments one log with which every replica agrees at
    both: the committed entries of each replica are that log's at their indices, its
    state machine is the result of applying a committed prefix of that log to
    the initial state, in order and without gaps, and the snapshot it has stored is
    a snapshot of such a state. In particular nothing committed is ever replaced. *)
Theorem state_machine_safety c0 c1 c2 :
  initial peers config sm0 c0 -> rtc (step config sm0) c0 c1 -> rtc (step config sm0) c1 c2 ->
  exists L, (forall i n, nodes c1 !! i = Some n -> agrees L n) /\ (forall i n, nodes c2 !! i = Some n -> agrees L n).
Proof. apply one_log. Qed.

(** C4: leader completeness. Whatever a replica has committed in some term is in the log
    of every leader of that or a later term, at any later moment: the leader's log
    reaches at least as far, and wherever neither has compacted its log the two
    return the same entries. *)
Theorem leader_has_committed_entries c0 c1 c2 i j n1 n2 lo hi :
  initial peers config sm0 c0 -> rtc (step config sm0) c0 c1 -> rtc (step config sm0) c1 c2 ->
  nodes c1 !! i = Some n1 -> nodes c2 !! j = Some n2 ->
  state (nd_raft n2) = Leader -> rterm (nd_raft n1) <= rterm (nd_raft n2) ->
  commitIndex (nd_raft n1) <= lastIndex (rlog (nd_raft n2)) /\
  (snapIndex (rlog (nd_raft n1)) < lo -> snapIndex (rlog (nd_raft n2)) < lo -> lo <= hi -> hi <= commitIndex (nd_raft n1) ->
   exists es, lenN es = hi - lo + 1 /\ slice (rlog (nd_raft n1)) lo hi = Ok es /\ slice (rlog (nd_raft n2)) lo hi = Ok es).
Proof.
  intros H0' H1' H2' Hi Hj Hst Hle. destruct (Safe_steps _ _ _ (initial_Safe _ H0') H1') as (h1 & HS1 & _).
  destruct (Safe_steps _ _ _ HS1 H2') as (h2 & HS2 & Hev).
  pose proof (ni_rel _ _ _ (sf_nodes _ _ HS1 _ _ Hi)) as Hr1. pose proof (ni_rel _ _ _ (sf_nodes _ _ HS2 _ _ Hj)) as Hr2.
  destruct (rr_leader _ _ _ _ Hr2 Hst) as ((el & Hel & _) & Hll & _).
  destruct (rr_log _ _ _ _ Hr1) as [Hm1 _]. destruct (rr_log _ _ _ _ Hr2) as [Hm2 _]. pose proof (rr_commit _ _ _ _ Hr1) as Hc.
  assert (HP : pre (commitIndex (nd_raft n1)) (h_log h1 i) `prefix_of` h_log h2 j).
  { rewrite Hll. eapply decided_in_llog; [apply HS2| |by exists el]. eapply decided_evolves; [exact Hev|exact Hle|apply Hr1]. }
  pose proof (prefix_take_eq _ _ HP) as Heq. pose proof (prefix_length _ _ HP) as Hlen. unfold pre in Heq, Hlen.
  rewrite length_take in Heq, Hlen. assert (Hc2 : commitIndex (nd_raft n1) <= lenN (h_log h2 j)) by (unfold lenN in *; lia).
  rewrite (rep_lastIndex _ _ Hm2). split; [done|]. intros Hl1 Hl2 Hlh Hhi.
  rewrite (rep_slice _ _ _ _ Hm1), (rep_slice _ _ _ _ Hm2) by (done || lia). eexists. split_and!; [|done|].
  - autorewrite with edgekv. lia.
  - f_equal. rewrite Nat.min_l in Heq by (unfold lenN in *; lia). apply (f_equal (drop (N.to_nat (lo - 1)))) in Heq. rewrite !skipn_firstn_comm in Heq.
    symmetry. eapply take_eq_le; [exact Heq|lia].
Qed.

End Safety.

(** *** A run of three replicas *)
#[global] Instance concat_SnapshotLaw : SnapshotLaw (SM := bytes) [].
Proof. intros L L' sm sm' b _ _ _ _ Hs. cbn in *. congruence. Qed.

Lemma state_machine_safety_witness :
  (commitIndex ∘ nd_raft <$> node_of demo_written "a") = Some 2 /\
  exists L, (forall i n, nodes demo_elected !! i = Some n -> agrees [] L n) /\
    (forall i n, nodes demo_written !! i = Some n -> agrees [] L n).
Proof.
  split; [exact (proj1 (proj2 demo_write_runs))|].
  exact (state_machine_safety demo_peers demo_config [] demo_peers_nodup demo_peers_named (fun _ => eq_refl) (fun _ => eq_refl)
    demo_start demo_elected demo_written demo_initial
    (run_schedule_steps _ _ _ _ _ (proj1 demo_election_runs)) (run_schedule_steps _ _ _ _ _ (proj1 demo_write_runs))).
Defined.

Lemma leader_has_committed_entries_witness :
  exists n, node_of demo_written "a" = Some n /\ state (nd_raft n) = Leader /\ commitIndex (nd_raft n) <= lastIndex (rlog (nd_raft n)) /\
  (snapIndex (rlog (nd_raft n)) < 1 -> snapIndex (rlog (nd_raft n)) < 1 -> 1 <= 2 -> 2 <= commitIndex (nd_raft n) ->
   exists es, lenN es = 2 - 1 + 1 /\ slice (rlog (nd_raft n)) 1 2 = Ok es /\ slice (rlog (nd_raft n)) 1 2 = Ok es).
Proof.
  destruct demo_leader_after as (n & Hn & Hs & Ht). exists n. split; [exact Hn|]. split; [exact Hs|].
  exact (leader_has_committed_entries demo_peers demo_config [] demo_peers_nodup demo_peers_named (fun _ => eq_refl) (fun _ => eq_refl)
    demo_start demo_written demo_written "a" "a" n n 1 2 demo_initial
    (rtc_trans _ _ _ (run_schedule_steps _ _ _ _ _ (proj1 demo_election_runs)) (run_schedule_steps _ _ _ _ _ (proj1 demo_write_runs)))
    (rtc_refl _ _)
    Hn Hn Hs (N.le_refl _)).
Defined.
