(* ===== verification/Acknowledge.v ===== *)
(** * Acknowledged proposals

    What a client learns from the answer to a proposal: a success is sent only
    for a proposal that was handed to that node, whose command stands at one
    index of the log all replicas agree on, for good, and it carries what the
    state machine returned when it applied the command after exactly the entries
    before that index. *)

From S2P Require Import Prelude Types RaftLog Storage Raft RaftFacts Cluster Run Election LogCore LogFacts Agree AgreeSteps Agreement.

(** ** Critical sections that answer nobody *)
Section Calm.
Context {S SM : Type} `{Storage S} `{StateMachine SM}.

#[local] Abbreviation Raft := (Raft S SM).
Implicit Types r : Raft.

(** Nobody new waits, nothing is applied, no success is sent. *)
Record mute r r' : Prop := {
  ca_waiters : waiters r' ⊆ waiters r;
  ca_applied : lastApplied r' = lastApplied r;
  ca_machine : machine r' = machine r;
  ca_replies : forall id out, (id, PResult out) ∈ replies r' -> (id, PResult out) ∈ replies r;
}.

(** The proposals that were answered, and those that wait. *)
Definition pending r : list nat := (replies r).*1 ++ (p_id <$> (map_to_list (waiters r)).*2).

(** And whoever waited waits still or was answered once, nobody waits for a leadership that is lost, and no handover of
    leadership begins. *)
Record calm r r' : Prop := {
  ca_mute : mute r r';
  ca_pending : pending r' ≡ₚ pending r;
  ca_drops : state r = Leader -> state r' = Leader \/ waiters r' = ∅;
  ca_target : transferTarget r' = transferTarget r \/ transferTarget r' = "";
}.

#[global] Instance calm_preorder : PreOrder calm.
Proof.
  split; [split; [by split|done|by left|by left]|]. intros r1 r2 r3 [[Hw1 Ha1 Hm1 Hr1] Hp1 Hd1 Ht1] [[Hw2 Ha2 Hm2 Hr2] Hp2 Hd2 Ht2]. split.
  - split; [by etrans|congruence|congruence|auto].
  - by rewrite Hp2.
  - intros [Hl|He]%Hd1; [by apply Hd2|]. right. rewrite He in Hw2. apply (anti_symm (⊆)); [done|apply map_empty_subseteq].
  - destruct Ht2 as [->|]; [done|by right].
Qed.

(** The fields [calm] looks at. *)
Definition accounts r := (waiters r, lastApplied r, machine r, replies r).
Definition books r := (accounts r, transferTarget r, state r).

Lemma calm_books r r1 r2 : calm r r1 -> books r2 = books r1 -> calm r r2.
Proof.
  unfold books, accounts. intros [[] Hp Hd Ht] [= E1 E2 E3 E4 E5 E6]. unfold pending in *.
  split; [split|..]; unfold pending; by rewrite ?E1, ?E2, ?E3, ?E4, ?E5, ?E6.
Qed.

Lemma calm_same r r' : books r' = books r -> calm r r'.
Proof. by apply calm_books. Qed.

Lemma persist_books hs es r r' : persistLocked hs es r = Ok r' -> books r' = books r.
Proof. unfold persistLocked. destruct (Save _ _ _) as [st []]; by intros [= <-]. Qed.

Lemma advanceCommit_books r r' : advanceCommitLocked r = Ok r' -> books r' = books r.
Proof. intros Ha. by apply advanceCommit_spec in Ha as [->|(c & -> & _)]. Qed.

Lemma recordAck_books peer sentAt r : books (recordAckLocked peer sentAt r) = books r.
Proof. unfold recordAckLocked. by case_match. Qed.

Lemma failWaiters_calm err r : calm r (failWaitersLocked err r).
Proof.
  split; [|unfold pending; cbn|by left|by left].
  - split; [apply map_empty_subseteq|done|done|]. intros id out. cbn. rewrite elem_of_app, list_elem_of_fmap. by intros [?|(? & [=] & _)].
  - rewrite map_to_list_empty, fmap_app, <- app_assoc, app_nil_r, <- !list_fmap_compose. done.
Qed.

Lemma Stop_calm r : calm r (Stop r).
Proof. unfold Stop. case_match; [done|]. etrans; [|apply failWaiters_calm]. by apply calm_same. Qed.

(** Losing leadership: whoever waits is told, and a handover is forgotten. *)
Lemma failing_calm err r r1 : accounts r1 = accounts r -> calm r (failWaitersLocked err (r1 <| leaderCancel := false |> <| transferTarget := "" |>)).
Proof.
  unfold accounts. intros [= E1 E2 E3 E4]. destruct (failWaiters_calm err r) as [[] Hp _ _]. unfold pending in *. cbn in *.
  split; [split|..|by right]; unfold pending; cbn; rewrite ?E1, ?E2, ?E3, ?E4; done || by right.
Qed.

Lemma resetTimer_books env r : books (resetElectionTimerLocked env r) = books r.
Proof. done. Qed.

Lemma calm_off r r' : state r <> Leader -> accounts r' = accounts r -> transferTarget r' = transferTarget r -> calm r r'.
Proof.
  unfold accounts. intros Hl [= E1 E2 E3 E4] Ht. split; [split|..]; unfold pending; rewrite ?E1, ?E2, ?E3, ?E4; try done. by left.
Qed.

Lemma becomeFollower_calm env t l r r' : becomeFollowerLocked env t l r = Ok r' -> calm r r'.
Proof.
  unfold becomeFollowerLocked. intros Hb. apply bind_Ok in Hb as (r1 & H1' & Hb). apply bind_Ok in Hb as (r2 & H2' & Hb). injection Hb as <-.
  assert (E1 : books r1 = books r) by (destruct (rterm r <? t); [by apply persist_books in H1'|by inv_ok]). clear H1'. injection E1 as E1 E2 E3 E4 E5 E6.
  assert (Ea : accounts r1 = accounts r) by (unfold accounts; congruence).
  assert (C2 : calm r r2).
  { destruct (bool_decide (state r = Leader)) eqn:Hl.
    - destruct (leaderCancel _); [|done]. injection H2' as <-. eapply calm_books; [|apply resetTimer_books]. apply failing_calm. exact Ea.
    - apply bool_decide_eq_false in Hl. injection H2' as <-. apply calm_off; [done|exact Ea|exact E5]. }
  destruct (_ || _); [by apply (calm_books r r2)|done].
Qed.

Lemma stepDown_calm env (b : bool) t l r r' : (if b then becomeFollowerLocked env t l r else Ok r) = Ok r' -> calm r r'.
Proof. destruct b; [apply becomeFollower_calm|]. by intros [= <-]. Qed.

Lemma tick_calm env r r' b : tick env r = Ok (r', b) -> calm r r'.
Proof.
  unfold tick. repeat case_match; intros Hb; try by inv_ok; apply calm_same.
  apply bind_Ok in Hb as (r1 & Hd & Hb). inv_ok. by eapply becomeFollower_calm.
Qed.

Lemma campaign_elect_calm env r r' pc : state r <> Leader -> campaign_elect env r = Ok (r', pc) -> calm r r'.
Proof.
  unfold campaign_elect. intros Hl He. apply bind_Ok in He as (r1 & Hp & He). inv_ok. apply persist_books in Hp.
  eapply calm_books; [|by etrans; [|exact Hp]]. by apply calm_off.
Qed.

Lemma campaign_begin_calm env skip r r' pc : campaign_begin env skip r = Ok (r', pc) -> calm r r'.
Proof.
  unfold campaign_begin. destruct (stopped r || _) eqn:Hg; [intros; by inv_ok|].
  apply orb_false_iff in Hg as [_ Hl%bool_decide_eq_false]. case_match; [|intros; inv_ok; by apply calm_same].
  intros He. apply campaign_elect_calm in He; [|done]. etrans; [|exact He]. by apply calm_same.
Qed.

Lemma campaign_prevoted_calm env req won r r' pc : campaign_prevoted env req won r = Ok (r', pc) -> calm r r'.
Proof.
  unfold campaign_prevoted. destruct won; cbn [negb]; [|intros; by inv_ok]. destruct (stopped r || _ || _) eqn:Hg; [intros; by inv_ok|].
  apply orb_false_iff in Hg as [[_ Hl%bool_decide_eq_false]%orb_false_iff _]. by apply campaign_elect_calm.
Qed.

Lemma becomeLeader_calm env r r' : becomeLeaderLocked env r = Ok r' -> calm r r'.
Proof.
  unfold becomeLeaderLocked. intros Hb. apply bind_Ok in Hb as (l & _ & Hb). apply bind_Ok in Hb as (r1 & Hp & Hb).
  apply bind_Ok in Hb as (r2 & Ha & Hb). inv_ok. apply persist_books in Hp. apply advanceCommit_books in Ha.
  apply (calm_books r r2); [|done]. apply (calm_books r r1); [|by rewrite Ha].
  eapply calm_books; [|exact Hp]. split; [by split|done|by left|by right].
Qed.

Lemma campaign_voted_calm env req won r r' pc : campaign_voted env req won r = Ok (r', pc) -> calm r r'.
Proof.
  unfold campaign_voted. repeat case_match; intros Hb; try by inv_ok.
  apply bind_Ok in Hb as (r1 & Hd & Hb). inv_ok. by eapply becomeLeader_calm.
Qed.

Lemma vote_answer_calm env resp r r' b : vote_answer env resp r = Ok (r', b) -> calm r r'.
Proof. intros Hb. apply bind_Ok in Hb as (r1 & Hd & Hb). inv_ok. by eapply stepDown_calm. Qed.

Lemma HandleRequestVote_calm env req r r' resp : HandleRequestVote env req r = Ok (r', resp) -> calm r r'.
Proof.
  unfold HandleRequestVote. case_match; [intros; by inv_ok|]. case_match; [intros; by inv_ok|].
  intros Hb. apply bind_Ok in Hb as (r1 & Hd & Hb). apply stepDown_calm in Hd. case_match; [by inv_ok|].
  apply bind_Ok in Hb as (r2 & Hp & Hb). inv_ok. apply persist_books in Hp. by apply (calm_books r r1).
Qed.

Lemma appendVerified_calm req es r r' resp : appendVerified req es r = Ok (r', resp) -> calm r r'.
Proof.
  unfold appendVerified. intros Hb. apply bind_Ok in Hb as ([l fresh] & _ & Hb). apply bind_Ok in Hb as (r1 & Hp & Hb).
  assert (E1 : books r1 = books r).
  { destruct fresh; [by inv_ok|]. apply bind_Ok in Hp as (l1 & _ & Hp). by apply persist_books in Hp. }
  inv_ok. apply calm_same. destruct (commitIndex r1 <? _); exact E1.
Qed.

Lemma HandleAppendEntries_calm env req r r' resp : HandleAppendEntries env req r = Ok (r', resp) -> calm r r'.
Proof.
  unfold HandleAppendEntries. case_match; [intros; by inv_ok|]. intros Hb. apply bind_Ok in Hb as (r1 & Hd & Hb).
  apply stepDown_calm in Hd. revert Hb. match goal with |- context [resetElectionTimerLocked env ?x] => set (r2 := resetElectionTimerLocked env x) end.
  assert (C2 : calm r r2) by by apply (calm_books r r1). clearbody r2. clear Hd. cbn zeta. intros Hb.
  case_match; [by inv_ok|]. match type of Hb with (let '(_, _) := ?x in _) = _ => destruct x as [prev es] end. case_match; [by inv_ok|]. case_match; [by inv_ok|].
  apply appendVerified_calm in Hb. by etrans.
Qed.

Lemma replicateOnce_recv_calm env peer t req sentAt resp r r' b : replicateOnce_recv env peer t req sentAt resp r = Ok (r', b) -> calm r r'.
Proof.
  unfold replicateOnce_recv. case_match; intros Hb.
  { apply bind_Ok in Hb as (r1 & Hd & Hb). inv_ok. by eapply becomeFollower_calm. }
  case_match; [by inv_ok|]. apply calm_same. pose proof (recordAck_books peer sentAt r) as Hv.
  revert Hv Hb. generalize (recordAckLocked peer sentAt r) as r1. intros r1 <- Hb. case_match; [|by inv_ok].
  apply bind_Ok in Hb as (r2 & Ha & Hb). inv_ok. case_match; [|by inv_ok]. by apply advanceCommit_books in Ha.
Qed.

Lemma sendSnapshot_recv_calm env peer t meta sentAt resp r r' b : sendSnapshot_recv env peer t meta sentAt resp r = Ok (r', b) -> calm r r'.
Proof.
  unfold sendSnapshot_recv. case_match; intros Hb.
  { apply bind_Ok in Hb as (r1 & Hd & Hb). inv_ok. by eapply becomeFollower_calm. }
  case_match; [by inv_ok|]. apply calm_same. pose proof (recordAck_books peer sentAt r) as Hv.
  revert Hv Hb. generalize (recordAckLocked peer sentAt r) as r1. intros r1 <- Hb.
  apply bind_Ok in Hb as (r2 & Ha & Hb). inv_ok. transitivity (books r2); [done|]. case_match; [|by inv_ok]. by apply advanceCommit_books in Ha.
Qed.

Lemma HandleInstallSnapshot_calm env req r r' resp : HandleInstallSnapshot env req r = Ok (r', resp) -> calm r r'.
Proof.
  unfold HandleInstallSnapshot. case_match; [intros; by inv_ok|]. intros Hb. apply bind_Ok in Hb as (r1 & Hd & Hb).
  apply stepDown_calm in Hd. case_match; [inv_ok; by apply (calm_books r r1)|]. destruct (SaveSnapshot _ _ _ _) as [st []]; [|done].
  inv_ok. by apply (calm_books r r1).
Qed.

End Calm.

(** ** Outputs of the state machine *)
Section Outputs.
Context {SM : Type} `{StateMachine SM}.

(** The output of one entry of a batch is what the state machine returns after
    the entries before it. *)
Lemma applyEntries_output (sm : SM) es sm' outs k e out :
  applyEntries sm es = Ok (sm', outs) -> es !! k = Some e -> outs !! k = Some out -> ent_Type e = ENTRY_NORMAL ->
  exists sm1 o1 sm2, applyEntries sm (take k es) = Ok (sm1, o1) /\ sm_apply sm1 (ent_Index e) (ent_Data e) = Ok (sm2, out).
Proof.
  revert sm outs k. induction es as [|e' es IH]; intros sm outs k; [done|]. cbn [applyEntries].
  intros Hb He Ho Ht. apply bind_Ok in Hb as ([sm1 o1] & H1' & Hb). apply bind_Ok in Hb as ([sm2 os] & H2' & Hb). inv_ok.
  destruct k as [|k]; cbn in *.
  - injection He as ->. injection Ho as ->. rewrite Ht in H1'. by exists sm, [], sm1.
  - destruct (IH _ _ _ H2' He Ho Ht) as (sm3 & o3 & sm4 & H3' & H4'). rewrite H1'. cbn. rewrite H3'. cbn. by eexists _, _, _.
Qed.

Context {S : Type} `{Storage S}.

Lemma answerWaiters_waiters ers (r : Raft S SM) : waiters (foldl answerWaiter r ers) ⊆ waiters r.
Proof.
  revert r. induction ers as [|er ers IH]; intros r; [done|]. cbn. etrans; [apply IH|]. unfold answerWaiter.
  case_match; [|done]. apply delete_subseteq.
Qed.

(** A success goes to the proposal that waits at the index of an applied entry of
    its own term. *)
Lemma answerWaiters_replies ers (r : Raft S SM) id out :
  (id, PResult out) ∈ replies (foldl answerWaiter r ers) ->
  (id, PResult out) ∈ replies r \/
  exists e p, (e, out) ∈ ers /\ waiters r !! ent_Index e = Some p /\ p_term p = ent_Term e /\ p_id p = id.
Proof.
  revert r. induction ers as [|[e o] ers IH]; intros r; [by left|]. cbn [foldl]. intros Hin.
  apply IH in Hin as [Hin|(e' & p & He & Hw & Ht & Hid)].
  - unfold answerWaiter in Hin. cbn in Hin. destruct (waiters r !! ent_Index e) as [p|] eqn:Hw; [|by left]. cbn in Hin.
    apply elem_of_app in Hin as [Hin|Hin%list_elem_of_singleton]; [by left|]. injection Hin as -> Hin.
    destruct (N.eqb_spec (p_term p) (ent_Term e)) as [Ht|]; [|done]. injection Hin as ->. right. exists e, p. split_and!; try done. constructor.
  - right. exists e', p. split_and!; try done; [by constructor|].
    eapply lookup_weaken; [exact Hw|]. exact (answerWaiters_waiters [(e, o)] r).
Qed.
End Outputs.

(** ** Answers in a run of the group *)
Section Answers.
Context {S SM : Type} `{StorageLaws S} `{StateMachine SM}.
Context (peers : list string) (config : string -> Config) (sm0 : SM) `{!SnapshotLaw sm0}.
Context (peers_nodup : NoDup peers) (peers_named : "" ∉ peers).
Context (config_id : forall i, ID (config i) = i) (config_peers : forall i, Peers (config i) = peers).

#[local] Abbreviation Raft := (Raft S SM).
#[local] Abbreviation NodeSt := (NodeSt S SM).
#[local] Abbreviation Cluster := (Cluster S SM).
#[local] Abbreviation follows := (follows peers).
#[local] Abbreviation runs := (rtc (step config sm0)).
Implicit Types (r : Raft) (n : NodeSt).

(** The proposal [p] was in a batch handed to node [i] in the run from [c0] to [c]. *)
Definition submitted (c0 c : Cluster) (i : string) (p : proposal) : Prop :=
  exists ca n batch r', runs c0 ca /\ nodes ca !! i = Some n /\ batch <> [] /\ p ∈ batch /\
    appendProposals batch (nd_raft n) = Ok r' /\
    runs (mkCluster (<[i := n <| nd_raft := r' |>]> (nodes ca)) (net ca ++ [])) c.

Lemma submitted_later c0 c c' i p : submitted c0 c i p -> runs c c' -> submitted c0 c' i p.
Proof.
  intros (ca & n & batch & r' & H1' & H2' & H3' & H4' & H5' & H6') Hr. exists ca, n, batch, r'. split_and!; try done. by etrans.
Qed.

(** [P] holds, after exactly the commands before it, the command of a proposal
    among [Q] answered by [id], and [out] is its output. *)
Definition answers (Q : proposal -> Prop) (P : list Entry) (id : nat) (out : bytes) : Prop :=
  exists k e p sm sm', P !! k = Some e /\ ent_Index e = N.of_nat k + 1 /\ ent_Type e = ENTRY_NORMAL /\
    Q p /\ p_id p = id /\ ent_Data e = p_data p /\
    applied sm0 (take k P) sm /\ sm_apply sm (ent_Index e) (ent_Data e) = Ok (sm', out).

(** One handed to node [i]. *)
Definition answered (c0 c : Cluster) (i : string) (P : list Entry) (id : nat) (out : bytes) : Prop := answers (submitted c0 c i) P id out.

Lemma answers_mono (Q Q' : proposal -> Prop) P P' id out : answers Q P id out -> (forall p, Q p -> Q' p) -> P `prefix_of` P' -> answers Q' P' id out.
Proof.
  intros (k & e & p & sm & sm' & Hk & Hi & Ht & Hs & Hid & Hd & Ha & Ho) HQ HP. exists k, e, p, sm, sm'.
  split_and!; try done; [by eapply prefix_lookup_Some|by apply HQ|].
  apply lookup_lt_Some in Hk. rewrite <- (prefix_take k P P'); [done..|lia].
Qed.

Lemma answered_later c0 c c' i P P' id out :
  answered c0 c i P id out -> runs c c' -> P `prefix_of` P' -> answered c0 c' i P' id out.
Proof. intros Ha Hr HP. eapply answers_mono; [exact Ha| |done]. intros p Hp. by eapply submitted_later. Qed.

(** The leader of the proposal's term has its command at that index. *)
Definition promised h (idx : N) (p : proposal) : Prop :=
  elected_in h (p_term p) /\ 0 < idx /\
  h_llog h (p_term p) !! N.to_nat (idx - 1) = Some (mkEntry idx (p_term p) ENTRY_NORMAL (p_data p)).

Lemma promised_mono h h' idx p : evolves h h' -> promised h idx p -> promised h' idx p.
Proof.
  intros Hev (He & Hi & Hl). split_and!; [by eapply elected_evolves|done|]. eapply prefix_lookup_Some; [exact Hl|apply Hev].
Qed.

(** The outputs the applier holds are those of its batch. *)
Definition outputs_of (F : list Entry) (pc : applierPC) r : Prop :=
  match pc with
  | ApplierApplied es results =>
      exists sm, applied sm0 (pre (lastApplied r) F) sm /\ applyEntries sm es = Ok (machine r, results)
  | _ => True
  end.

(** Whoever waits or was answered with a result is one of [Q], and is promised or was given its own. *)
Record told (Q : proposal -> Prop) h (i : string) (n : NodeSt) : Prop := {
  to_waiters : forall idx p, waiters (nd_raft n) !! idx = Some p ->
    promised h idx p /\ exists p0, Q p0 /\ p_id p0 = p_id p /\ p_data p0 = p_data p;
  to_outputs : outputs_of (h_log h i) (nd_applier n) (nd_raft n);
  to_replies : forall id out, (id, PResult out) ∈ replies (nd_raft n) -> answers Q (chosen h i n) id out;
}.

Lemma told_weaken (Q Q' : proposal -> Prop) h i n : told Q h i n -> (forall p, Q p -> Q' p) -> told Q' h i n.
Proof.
  intros Ht HQ. split; [|apply Ht|].
  - intros idx p Hp. destruct (to_waiters _ _ _ _ Ht _ _ Hp) as [? (p0 & ? & ?)]. split; [done|]. exists p0. split; [by apply HQ|done].
  - intros id out Hin. eapply answers_mono; [by apply Ht|done|done].
Qed.

Lemma chosen_grows i h h' n n' : raft_rel peers h i (nd_raft n) -> follows i h (nd_raft n) h' (nd_raft n') -> chosen h i n `prefix_of` chosen h' i n'.
Proof.
  intros Hr Hfo. unfold chosen. rewrite <- (fo_stable _ _ _ _ _ _ Hfo). apply pre_mono, Hfo.
Qed.

Lemma outputs_of_log F F' pc r r' :
  outputs_of F pc r -> lastApplied r <= commitIndex r -> pre (commitIndex r) F' = pre (commitIndex r) F ->
  lastApplied r' = lastApplied r -> machine r' = machine r -> outputs_of F' pc r'.
Proof.
  intros Ho Hle Hpre El Em. destruct pc; cbn in *; try done. rewrite El, Em. by rewrite (pre_le _ _ _ _ Hpre Hle).
Qed.

(** Each step of a node answers nobody, accepts proposals, is the applier's, or begins or ends a handover. *)
Lemma node_step_kinds net n n' out :
  node_step net n n' out ->
  (calm (nd_raft n) (nd_raft n') /\ nd_applier n' = nd_applier n /\ nd_transfers n' = nd_transfers n) \/
  (exists batch r', batch <> [] /\ appendProposals batch (nd_raft n) = Ok r' /\ n' = n <| nd_raft := r' |> /\ out = []) \/
  (exists r' pc, applier_step (nd_applier n) (nd_raft n) = Ok (r', pc) /\ n' = n <| nd_raft := r' |> <| nd_applier := pc |>) \/
  (exists target r' t, transfer_begin (env_of n 0) target (nd_raft n) = (r', inl t) /\
    n' = n <| nd_raft := r' |> <| nd_transfers := (t, target) :: nd_transfers n |>) \/
  (exists t target, (t, target) ∈ nd_transfers n /\
    n' = n <| nd_raft := transfer_cleanup t (nd_raft n) |> <| nd_transfers := filter (fun x => x <> (t, target)) (nd_transfers n) |>).
Proof.
  intros Hstep. destruct Hstep as [t ?|rnd r' started Ht|rnd skip r' pc Hc Ht|pc req peer answers Hc|rnd peer req resp r' g Hm Ht
    |rnd peer req resp r' g pc answers Hm Ht|rnd req answers won r' pc Hc Hw Ht|rnd req answers won r' pc Hc Hw Ht
    |answers Hc|rnd src req r' resp Hm Ht|src req r' resp started Hm Ht|ctxErr peer t act Hp Ht|peer req Hp
    |peer t req meta Hp Hld Htm Ht|rnd src sentAt req r' resp Hm Ht|rnd peer sentAt req resp r' again Hm Ht
    |rnd src sentAt meta req r' resp Hm Ht|rnd peer sentAt meta req resp r' again Hm Ht|batch r' Hb Ht|r' o Ht
    |r' pc Ht|target r' t Ht|t target req Hp Ht|t target Hp|];
    try (left; split_and!; [|done|done]; by first [done | apply calm_same]).
  - left. split_and!; [by eapply tick_calm|done|done].
  - left. split_and!; [by eapply campaign_begin_calm|done|done].
  - left. split_and!; [by eapply vote_answer_calm|done|done].
  - left. split_and!; [by eapply vote_answer_calm|done|done].
  - left. split_and!; [by eapply campaign_prevoted_calm|done|done].
  - left. split_and!; [by eapply campaign_voted_calm|done|done].
  - left. split_and!; [by eapply HandleRequestVote_calm|done|done].
  - left. split_and!; [|done|done]. revert Ht. unfold HandleTimeoutNow. case_match; intros [= <- _ <-]; by apply calm_same.
  - left. by destruct act.
  - left. split_and!; [by eapply HandleAppendEntries_calm|done|done].
  - left. split_and!; [by eapply replicateOnce_recv_calm|done|done].
  - left. split_and!; [by eapply HandleInstallSnapshot_calm|done|done].
  - left. split_and!; [by eapply sendSnapshot_recv_calm|done|done].
  - right. left. by exists batch, r'.
  - left. split_and!; [|done|done]. revert Ht. unfold confirmLeadership_begin. repeat case_match; intros [= <- _]; by apply calm_same.
  - right. right. left. by exists r', pc.
  - do 3 right. left. by exists target, r', t.
  - do 4 right. by exists t, target.
  - left. split_and!; [|done|done]. apply Stop_calm.
Qed.

(** What every step keeps of the answers given so far. *)
Lemma replies_kept Q i h h' n n' id out :
  node_inv peers sm0 h i n -> follows i h (nd_raft n) h' (nd_raft n') -> answers Q (chosen h i n) id out -> answers Q (chosen h' i n') id out.
Proof. intros Hn Hfo Ha. eapply answers_mono; [exact Ha|done|]. eapply chosen_grows; [apply Hn|done]. Qed.

Lemma waiters_kept Q i h h' n idx p :
  told Q h i n -> evolves h h' -> waiters (nd_raft n) !! idx = Some p ->
  promised h' idx p /\ exists p0, Q p0 /\ p_id p0 = p_id p /\ p_data p0 = p_data p.
Proof.
  intros Ht Hev Hw. destruct (to_waiters _ _ _ _ Ht _ _ Hw) as [Hp Hq]. split; [by eapply promised_mono|done].
Qed.

Lemma told_mute Q i h h' n n' :
  node_inv peers sm0 h i n -> told Q h i n -> follows i h (nd_raft n) h' (nd_raft n') ->
  mute (nd_raft n) (nd_raft n') -> nd_applier n' = nd_applier n -> told Q h' i n'.
Proof.
  intros Hn Ht Hfo [Hw Ha Hm Hr] Hpc. split.
  - intros idx p Hp. eapply waiters_kept; [done|apply Hfo|by eapply lookup_weaken].
  - rewrite Hpc. eapply outputs_of_log; [apply Ht| |apply Hfo|done|done]. pose proof (al_reach _ _ _ _ (ni_applier _ _ _ _ _ Hn)). lia.
  - intros id out Hin. eapply replies_kept; [done..|]. by apply Ht, Hr.
Qed.

(** *** Accepting proposals *)
Definition waiting (first t : N) (batch : list proposal) : list (N * proposal) :=
  imap (fun i p => (first + N.of_nat i, mkProposal (p_id p) (p_data p) t)) batch.

(** A leader that is neither stopped nor handing over takes the whole batch. *)
Definition accepted batch r r' : Prop :=
  rlog r' = (rlog r) <| entries := entries (rlog r) ++ proposalEntries (lastIndex (rlog r) + 1) (rterm r) batch |> /\
  state r' = Leader /\ rterm r' = rterm r /\ lastApplied r' = lastApplied r /\ machine r' = machine r /\ replies r' = replies r /\
  transferTarget r' = transferTarget r /\
  waiters r' = foldl (fun m ip => <[ip.1 := ip.2]> m) (waiters r) (waiting (lastIndex (rlog r) + 1) (rterm r) batch).

Lemma appendProposals_accepted batch r r' :
  state r = Leader -> transferTarget r = "" -> stopped r = false -> appendProposals batch r = Ok r' -> accepted batch r r'.
Proof.
  intros Hst Htt Hsp. unfold appendProposals. rewrite !bool_decide_true, Hsp by done. cbn [negb orb].
  intros Hb. apply bind_Ok in Hb as (l & Ha & Hb). apply append_Ok in Ha as [_ ->]. apply bind_Ok in Hb as (r1 & Hp & Hb).
  unfold persistLocked in Hp. destruct (Save _ _ _) as [st []]; [|done]. injection Hp as <-.
  by apply advanceCommit_spec in Hb as [->|(c & -> & _)].
Qed.

(** Any other replica answers the whole batch with an error. *)
Definition refused batch r r' : Prop := exists err, r' = r <| replies := replies r ++ ((fun p => (p_id p, PError err)) <$> batch) |>.

Lemma refused_mute batch r r' : refused batch r r' -> mute r r'.
Proof. intros [err ->]. split; try done. intros id out. cbn. rewrite elem_of_app, list_elem_of_fmap. by intros [?|(? & [=] & _)]. Qed.

Lemma appendProposals_cases batch r r' : appendProposals batch r = Ok r' -> refused batch r r' \/ accepted batch r r'.
Proof.
  intros Hap. destruct (negb (bool_decide (state r = Leader)) || negb (bool_decide (transferTarget r = "")) || stopped r) eqn:Hgd.
  - left. revert Hap. unfold appendProposals. rewrite Hgd. intros [= <-]. by eexists.
  - right. apply orb_false_iff in Hgd as [[Hst%negb_false_iff Htt%negb_false_iff]%orb_false_iff Hsp].
    apply bool_decide_eq_true in Hst, Htt. by apply appendProposals_accepted.
Qed.

(** The entry of a proposal that now waits is in the leader's log. *)
Lemma waiting_promised h i r r' batch idx p :
  raft_rel peers h i r' -> state r' = Leader ->
  rlog r' = (rlog r) <| entries := entries (rlog r) ++ proposalEntries (lastIndex (rlog r) + 1) (rterm r) batch |> ->
  rterm r' = rterm r -> (idx, p) ∈ waiting (lastIndex (rlog r) + 1) (rterm r) batch ->
  promised h idx p /\ exists p0, p0 ∈ batch /\ p_id p0 = p_id p /\ p_data p0 = p_data p.
Proof.
  intros Hr Hst Hlog Ht Hin. destruct (rr_leader _ _ _ _ Hr Hst) as ((el & Hel & _) & Hll & _).
  destruct (rr_log _ _ _ _ Hr) as [[Hlen Hent _] _]. unfold waiting in Hin. apply list_elem_of_lookup in Hin as [k Hk].
  rewrite list_lookup_imap in Hk. apply fmap_Some in Hk as (p0 & Hp0 & [= -> ->]). split; [|exists p0; split_and!; [by eapply list_elem_of_lookup_2|done..]].
  split_and!; cbn [p_term p_data]; [by exists el; rewrite <- Ht|lia|]. rewrite <- Ht, <- Hll. rewrite Hlog in Hent. cbn in Hent.
  assert (Hx : (entries (rlog r) ++ proposalEntries (lastIndex (rlog r) + 1) (rterm r) batch) !! (length (entries (rlog r)) + k)%nat
    = Some (mkEntry (lastIndex (rlog r) + 1 + N.of_nat k) (rterm r) ENTRY_NORMAL (p_data p0))).
  { rewrite lookup_app_r by lia. replace (_ + k - _)%nat with k by lia. unfold proposalEntries. by rewrite list_lookup_imap, Hp0. }
  rewrite Hent, lookup_drop in Hx. rewrite Ht, <- Hx. f_equal. unfold lastIndex, lenN. lia.
Qed.

Lemma foldl_insert_origin {A} (l : list (N * A)) (m : gmap N A) k x :
  foldl (fun m ip => <[ip.1 := ip.2]> m) m l !! k = Some x -> (k, x) ∈ l \/ m !! k = Some x.
Proof.
  revert m. induction l as [|[k' y] l IH]; intros m; cbn; [by right|]. intros [Hin|Hm]%IH; [left; by constructor|].
  destruct (decide (k' = k)) as [->|Hne]; [rewrite lookup_insert_eq in Hm; simplify_eq; left; constructor|].
  rewrite lookup_insert_ne in Hm by done. by right.
Qed.

Lemma told_propose (Q : proposal -> Prop) i h h' n batch r' :
  node_inv peers sm0 h i n -> told Q h i n -> appendProposals batch (nd_raft n) = Ok r' -> follows i h (nd_raft n) h' r' ->
  told (fun p => Q p \/ p ∈ batch) h' i (n <| nd_raft := r' |>).
Proof.
  intros Hn Ht Hap Hfo. assert (Ht' : told (fun p => Q p \/ p ∈ batch) h i n) by (eapply told_weaken; [done|by left]).
  destruct (appendProposals_cases _ _ _ Hap) as [Hc|(Hlog & Hld & Htm & Hla & Hma & Hre & _ & Hw)].
  { apply (told_mute _ i h h' n); [done..|by eapply refused_mute|done]. }
  split; cbn.
  - intros idx p. rewrite Hw. intros [Hin|Hold]%foldl_insert_origin; [|eapply waiters_kept; [done|apply Hfo|done..]].
    destruct (waiting_promised h' i (nd_raft n) r' batch idx p) as [Hp (p0 & Hin0 & E1 & E2)]; try done; [apply Hfo|].
    split; [done|]. exists p0. split_and!; try done. by right.
  - eapply outputs_of_log; [apply Ht| |apply Hfo|done|done]. pose proof (al_reach _ _ _ _ (ni_applier _ _ _ _ _ Hn)). lia.
  - intros id out. rewrite Hre. intros Hin. eapply (replies_kept _ i h h' n); [done..|]. by apply Ht'.
Qed.

(** *** The applier *)
Lemma applier_step_waits pc r r' pc' : applier_step pc r = Ok (r', pc') ->
  waiters r' ⊆ waiters r /\ commitIndex r' = commitIndex r /\
  ((exists es results, pc = ApplierApplied es results /\ replies r' = replies (foldl answerWaiter r (zip es results))) \/ replies r' = replies r).
Proof.
  destruct pc as [|snap|snap|es|es results|index|index data|index t data|index t]; cbn; intros Hb.
  - split_and!; [| |right]; revert Hb; unfold applier_wake; repeat case_match; intros Hb; try by inv_ok.
    all: apply bind_Ok in Hb as (es & _ & Hb); by inv_ok.
  - apply bind_Ok in Hb as (sm & _ & Hb). inv_ok. split_and!; [done|done|by right].
  - inv_ok. split_and!; [done|done|by right].
  - apply bind_Ok in Hb as ([sm outs] & _ & Hb). inv_ok. split_and!; [done|done|by right].
  - unfold applier_finish in Hb. destruct (last es); [|done]. inv_ok. cbn. destruct (answerWaiters_frame (zip es results) r) as [Hv _]. split_and!; [apply answerWaiters_waiters|unfold view in Hv; congruence|]. left. by exists es, results.
  - inv_ok. split_and!; [done|done|by right].
  - inv_ok. split_and!; [done|done|by right].
  - injection Hb as Hb. unfold takeSnapshot_save in Hb. destruct (SaveSnapshot _ _ _ _) as [st []]; injection Hb as <- <-; (split_and!; [done|done|by right]).
  - inv_ok. split_and!; [done|done|by right].
Qed.

(** An entry the applier has applied is the one promised at its index if the terms agree. *)
Lemma promised_entry h i j e p :
  good peers h -> promised h (ent_Index e) p -> h_log h i !! j = Some e -> ent_Index e = N.of_nat j + 1 -> p_term p = ent_Term e ->
  e = mkEntry (ent_Index e) (p_term p) ENTRY_NORMAL (p_data p).
Proof.
  intros Hg (Hel & _ & Hl) Hj Hi Ht. replace (N.to_nat (ent_Index e - 1)) with j in Hl by lia.
  pose proof (valid_pair peers h i (p_term p) Hg Hel j _ _ Hj Hl (eq_sym Ht)) as Heq.
  apply (take_eq_lookup _ j) in Heq; [|lia]. rewrite Hj, Hl in Heq. by injection Heq.
Qed.

(** The position and the output of an entry of the batch just applied. *)
Lemma batch_output h i n es results e out :
  node_inv peers sm0 h i n -> nd_applier n = ApplierApplied es results -> outputs_of (h_log h i) (nd_applier n) (nd_raft n) ->
  (e, out) ∈ zip es results -> ent_Type e = ENTRY_NORMAL ->
  exists k sm sm', h_log h i !! k = Some e /\ (N.of_nat k < commitIndex (nd_raft n)) /\ ent_Index e = N.of_nat k + 1 /\
    applied sm0 (take k (h_log h i)) sm /\ sm_apply sm (ent_Index e) (ent_Data e) = Ok (sm', out).
Proof.
  intros Hn Hpc Ho Hin Hty. pose proof (ni_applier _ _ _ _ _ Hn) as [[_ Hre] _ _ _ Hal]. rewrite Hpc in Ho, Hre, Hal. cbn in Ho, Hre, Hal.
  destruct Ho as (sm & Hsm & Hap), Hal as [Hes Hc]. apply list_elem_of_lookup in Hin as [k Hk].
  apply lookup_zip_with_Some in Hk as (e' & o' & [= -> ->] & Hke & Hko). set (F := h_log h i) in *. set (la := lastApplied (nd_raft n)) in *.
  destruct (applyEntries_output _ _ _ _ _ _ _ Hap Hke Hko Hty) as (sm1 & o1 & sm2 & Hpre & Hout).
  assert (Hlt : (k < length es)%nat) by by eapply lookup_lt_Some.
  exists (N.to_nat la + k)%nat, sm1, sm2. split_and!; [|unfold lenN in Hre; lia| |  |done].
  - rewrite Hes in Hke. rewrite lookup_take_lt, lookup_drop in Hke by done. done.
  - rewrite (Hc _ _ Hke). lia.
  - assert (Hta : take (N.to_nat la + k) F = pre la F ++ take k es).
    { rewrite Hes, take_take, Nat.min_l by lia. unfold pre. by rewrite take_add_drop. }
    rewrite Hta. by eapply applied_app.
Qed.

Lemma chosen_lookup h i n k e :
  h_log h i !! k = Some e -> N.of_nat k < commitIndex (nd_raft n) -> chosen h i n !! k = Some e /\ take k (chosen h i n) = take k (h_log h i).
Proof.
  intros Hk Hlt. unfold chosen, pre. rewrite lookup_take_lt by lia. split; [done|]. rewrite take_take. f_equal. lia.
Qed.

Lemma fresh_answer Q h i n es results e out p :
  good peers h -> node_inv peers sm0 h i n -> told Q h i n -> nd_applier n = ApplierApplied es results ->
  (e, out) ∈ zip es results -> waiters (nd_raft n) !! ent_Index e = Some p -> p_term p = ent_Term e ->
  answers Q (chosen h i n) (p_id p) out.
Proof.
  intros Hg Hn Ht Hpc Hin Hw Htm.
  destruct (waiters_kept Q i h h n _ _ Ht (reflexivity _) Hw) as [Hp (p0 & Hs & E1 & E2)].
  assert (He : e = mkEntry (ent_Index e) (p_term p) ENTRY_NORMAL (p_data p)).
  { pose proof (ni_applier _ _ _ _ _ Hn) as [_ _ _ _ Hal]. rewrite Hpc in Hal. destruct Hal as [Hes Hc].
    apply list_elem_of_lookup in Hin as [k Hk]. apply lookup_zip_with_Some in Hk as (e' & o' & [= <- <-] & Hke & _).
    apply (promised_entry h i (N.to_nat (lastApplied (nd_raft n)) + k)); try done.
    - pose proof (lookup_lt_Some _ _ _ Hke). rewrite Hes in Hke. by rewrite lookup_take_lt, lookup_drop in Hke.
    - rewrite (Hc _ _ Hke). lia. }
  destruct (batch_output h i n es results e out) as (k & sm & sm' & Hk & Hlt & Hi & Ha & Hout); try done; [apply Ht|by rewrite He|].
  destruct (chosen_lookup h i n k e Hk Hlt) as [Hck Hct].
  exists k, e, p0, sm, sm'. rewrite Hct. split_and!; try done; rewrite He; [done|]. by rewrite E2.
Qed.

Lemma applier_outputs h i n r' pc :
  node_inv peers sm0 h i n -> applier_step (nd_applier n) (nd_raft n) = Ok (r', pc) -> outputs_of (h_log h i) pc r'.
Proof.
  intros Hn Hb. pose proof (ni_applier _ _ _ _ _ Hn) as [_ _ _ Hm _]. destruct pc; try done. cbn.
  destruct (nd_applier n); cbn in Hb, Hm; unfold applier_wake, applier_finish, takeSnapshot_serialise, takeSnapshot_term, takeSnapshot_save in Hb;
    repeat (case_match || inv_ok); try done; apply bind_Ok in Hb as (x & Hx & Hb); try destruct x; inv_ok; simplify_eq.
  by exists (machine (nd_raft n)).
Qed.

Lemma told_applier Q i h h' n r' pc :
  good peers h -> node_inv peers sm0 h i n -> told Q h i n ->
  applier_step (nd_applier n) (nd_raft n) = Ok (r', pc) -> follows i h (nd_raft n) h' r' ->
  told Q h' i (n <| nd_raft := r' |> <| nd_applier := pc |>).
Proof.
  intros Hg Hn Ht Hb Hfo. set (n' := n <| nd_raft := r' |> <| nd_applier := pc |>).
  destruct (applier_step_waits _ _ _ _ Hb) as (Hw & Hcm & Hre).
  destruct (applier_step_rel peers sm0 i h (nd_raft n) (nd_applier n) r' pc) as [Hf0 Ha0]; try done; [by apply (ni_ok peers sm0 h i)|apply Hn..|].
  split.
  - intros idx p Hp. eapply waiters_kept; [done|apply Hfo|by eapply lookup_weaken].
  - pose proof (applier_outputs h i n r' pc Hn Hb) as Ho. apply (outputs_of_log (h_log h i) _ _ r'); try done.
    + pose proof (al_reach _ _ _ _ Ha0). lia.
    + rewrite Hcm. apply Hfo.
  - intros id out Hin. cbn in Hin. apply (answers_mono Q Q (chosen h i n)); [|done|by apply (chosen_grows i h h' n n'); [apply Hn|]].
    destruct Hre as [(es & results & Hpc & Hre)|Hre]; rewrite Hre in Hin.
    + apply answerWaiters_replies in Hin as [Hin|(e & p & He & Hwp & Htm & <-)]; [by apply Ht|by eapply fresh_answer].
    + by apply Ht.
Qed.

(** *** Every step of the group *)
Lemma told_other Q i j h h' n : moves i h h' -> j <> i -> told Q h j n -> told Q h' j n.
Proof.
  intros Hmv Hne Ht. pose proof (mv_log _ _ _ Hmv j Hne) as El. split.
  - intros idx p Hp. eapply waiters_kept; [done|apply Hmv|done].
  - rewrite El. apply Ht.
  - intros id out Hin. unfold chosen. rewrite El. by apply Ht.
Qed.

Lemma New_quiet c st sm r : New c st sm = Ok (inl r) -> waiters r = ∅ /\ replies r = [].
Proof.
  unfold New. destruct (setDefaults c); [|done]. destruct (Load st) as [[l|] st']; [|done].
  destruct (match ld_HardState l with Some _ => _ | None => _ end) as [t v].
  destruct (match ld_SnapshotMeta l with Some _ => _ | None => _ end) as [[l0 sm']|]; [|done].
  intros Hb. apply bind_Ok in Hb as (l1 & _ & Hb). by inv_ok.
Qed.

Lemma told_boot Q h i env cf st sm r : New cf st sm = Ok (inl r) -> told Q h i (boot env r).
Proof.
  intros [Hw Hr]%New_quiet. split; cbn; [|done|].
  - intros idx p. rewrite Hw. by rewrite lookup_empty.
  - intros id out. rewrite Hr. by intros ?%not_elem_of_nil.
Qed.

Definition Told (c0 c : Cluster) h : Prop := forall i n, nodes c !! i = Some n -> told (submitted c0 c i) h i n.

(** The step hands a batch of proposals to the replica. *)
Definition proposing n n' (batch : list proposal) : Prop :=
  batch <> [] /\ exists r', appendProposals batch (nd_raft n) = Ok r' /\ n' = n <| nd_raft := r' |>.

Lemma told_node_step (Q Q' : proposal -> Prop) ms i h h' n n' out :
  good peers h -> node_inv peers sm0 h i n -> told Q h i n -> node_step ms n n' out ->
  follows i h (nd_raft n) h' (nd_raft n') -> (forall p, Q p -> Q' p) ->
  (forall batch p, proposing n n' batch -> out = [] -> p ∈ batch -> Q' p) -> told Q' h' i n'.
Proof.
  intros Hg Hn Ht Hns Hfo HQ HQ'. assert (Ht' : told Q' h i n) by by eapply told_weaken.
  destruct (node_step_kinds _ _ _ _ Hns) as [(Hc & Hpc & _)|[(batch & r' & Hne & Hap & -> & ->)|[(r' & pc & Hap & ->)|
    [(target & r' & t & Hb & ->)|(t & target & _ & ->)]]]].
  - apply (told_mute _ i h h' n); [done..|apply Hc|done].
  - eapply told_weaken; [by eapply (told_propose Q')|]. intros p [Hp|Hp]; [done|]. apply (HQ' batch); [|done..]. split; [done|by exists r'].
  - by apply (told_applier _ i h h').
  - apply (told_mute _ i h h' n); try done. revert Hb. unfold transfer_begin. repeat case_match; intros [= <- _]; by split.
  - apply (told_mute _ i h h' n); try done. cbn. unfold transfer_cleanup. case_match; by split.
Qed.

Lemma Told_node_step c0 c i h h' n n' out :
  Safe peers sm0 c h -> Told c0 c h -> runs c0 c -> nodes c !! i = Some n -> node_step (net c) n n' out ->
  follows i h (nd_raft n) h' (nd_raft n') -> Told c0 (mkCluster (<[i := n']> (nodes c)) (net c ++ out)) h'.
Proof.
  intros HS HT H0' Hi Hns Hfo j nj Hj. cbn in Hj. assert (Hst : step config sm0 c (mkCluster (<[i := n']> (nodes c)) (net c ++ out))) by by eapply step_node.
  apply lookup_insert_Some in Hj as [[<- <-]|[Hne Hj]].
  - eapply (told_node_step (submitted c0 c i)); [apply HS|by apply (sf_nodes _ _ _ _ HS)|by apply HT|done|done|intros p Hp; by eapply submitted_later, rtc_once|].
    intros batch p (Hb & r' & Hap & ->) -> Hp. by exists c, n, batch, r'.
  - eapply told_weaken; [by apply (told_other _ i j h h'); [apply Hfo|done|apply HT]|]. intros p Hp. by eapply submitted_later, rtc_once.
Qed.

Lemma Told_restart c0 c i h h' n env st r :
  Told c0 c h -> nodes c !! i = Some n -> crash_point (net c) n st -> New (config i) st sm0 = Ok (inl r) -> moves i h h' ->
  Told c0 (mkCluster (<[i := boot env r]> (nodes c)) (net c)) h'.
Proof.
  intros HT Hi Hcp Hnew Hmv j nj Hj. cbn in Hj. apply lookup_insert_Some in Hj as [[<- <-]|[Hne Hj]]; [by eapply told_boot|].
  eapply told_weaken; [by apply (told_other _ i j h h'); [done..|apply HT]|]. intros p Hp. eapply submitted_later, rtc_once; [done|]. by eapply step_restart.
Qed.

Lemma initial_Told c0 : initial peers config sm0 c0 -> Told c0 c0 genesis.
Proof.
  intros (_ & _ & Hnodes) i n Hi. destruct (Hnodes _ _ Hi) as (_ & env & st & r & _ & _ & Hnew & ->). by eapply told_boot.
Qed.

Lemma Told_runs c0 c : initial peers config sm0 c0 -> runs c0 c -> exists h, Safe peers sm0 c h /\ Told c0 c h.
Proof.
  intros Hini. revert c. apply (rtc_ind_r (fun c => exists h, Safe peers sm0 c h /\ Told c0 c h)).
  - exists genesis. split; [by eapply initial_Safe|by apply initial_Told].
  - intros c c' Hr [i n n' out Hi Hns|i n env st r Hi Hcp Hnew] (h & HS & HT).
    + destruct (Safe_node_step peers sm0 peers_nodup peers_named c h i n n' out HS Hi Hns) as (h' & HS' & Hfo).
      exists h'. split; [done|]. by eapply Told_node_step.
    + destruct (Safe_restart peers config sm0 peers_named config_id config_peers c h i n env st r HS Hi Hcp Hnew) as (h' & HS' & Hmv).
      exists h'. split; [done|]. by eapply Told_restart.
Qed.

(** What was answered is in a log all replicas agree with, then and later. *)
Lemma answers_in_log Q c1 c2 h1 i n id out :
  Safe peers sm0 c1 h1 -> runs c1 c2 -> nodes c1 !! i = Some n -> answers Q (chosen h1 i n) id out ->
  exists L k e p sm sm', contiguous 0 L /\
    (forall j nj, nodes c1 !! j = Some nj -> agrees sm0 L nj) /\ (forall j nj, nodes c2 !! j = Some nj -> agrees sm0 L nj) /\
    Q p /\ p_id p = id /\
    L !! k = Some e /\ ent_Index e = N.of_nat k + 1 /\ ent_Type e = ENTRY_NORMAL /\ ent_Data e = p_data p /\
    ent_Index e <= commitIndex (nd_raft n) /\
    applied sm0 (take k L) sm /\ sm_apply sm (ent_Index e) (ent_Data e) = Ok (sm', out).
Proof.
  intros HS1 H2' Hi (k & e & p & sm & sm' & Hk & Hx & Hty & Hs & Hid & Hd & Ha & Ho).
  destruct (Safe_steps peers config sm0 peers_nodup peers_named config_id config_peers _ _ _ HS1 H2') as (h2 & HS2 & Hev).
  destruct (chosen_log peers sm0 c1 c2 h1 h2 HS1 HS2 Hev) as (L & HcL & HL1 & HL2).
  pose proof (lookup_lt_Some _ _ _ Hk) as Hlt. destruct (HL1 _ _ Hi) as [HP _].
  exists L, k, e, p, sm, sm'. split_and!; try done.
  - intros j nj Hj. by apply (HL1 j nj).
  - by eapply prefix_lookup_Some.
  - unfold chosen, pre in Hlt. rewrite length_take in Hlt. lia.
  - rewrite <- (prefix_take k _ _ HP); [done|lia].
Qed.

(** An acknowledged write is for good. Once a node has answered a proposal with a
    success, that proposal was handed to that node, and there is one log with which
    every replica agrees then and at any later moment, crashes included, that has
    its command at an index the node has committed; the answer is what the state machine
    returned for the command after exactly the entries before that index. *)
Theorem acknowledged_proposals_are_applied c0 c1 c2 i n id out :
  initial peers config sm0 c0 -> runs c0 c1 -> runs c1 c2 -> nodes c1 !! i = Some n -> (id, PResult out) ∈ replies (nd_raft n) ->
  exists L k e p sm sm',
    (forall j nj, nodes c1 !! j = Some nj -> agrees sm0 L nj) /\ (forall j nj, nodes c2 !! j = Some nj -> agrees sm0 L nj) /\
    submitted c0 c1 i p /\ p_id p = id /\
    L !! k = Some e /\ ent_Index e = N.of_nat k + 1 /\ ent_Type e = ENTRY_NORMAL /\ ent_Data e = p_data p /\
    ent_Index e <= commitIndex (nd_raft n) /\
    applied sm0 (take k L) sm /\ sm_apply sm (ent_Index e) (ent_Data e) = Ok (sm', out).
Proof.
  intros Hini H1' H2' Hi Hin. destruct (Told_runs c0 c1 Hini H1') as (h1 & HS1 & HT1).
  destruct (answers_in_log _ _ _ _ _ _ _ _ HS1 H2' Hi (to_replies _ _ _ _ (HT1 _ _ Hi) _ _ Hin)) as (L & k & e & p & sm & sm' & _ & HL).
  by exists L, k, e, p, sm, sm'.
Qed.

End Answers.

(** *** The write of the example run *)
Lemma acknowledged_proposals_are_applied_witness :
  (replies ∘ nd_raft <$> node_of demo_written "a") = Some [(7%nat, PResult [Byte.x41])] /\
  forall n, nodes demo_written !! "a" = Some n ->
  exists L k e p sm sm',
    (forall j nj, nodes demo_written !! j = Some nj -> agrees [] L nj) /\ (forall j nj, nodes demo_written !! j = Some nj -> agrees [] L nj) /\
    submitted demo_config [] demo_start demo_written "a" p /\ p_id p = 7%nat /\
    L !! k = Some e /\ ent_Index e = N.of_nat k + 1 /\ ent_Type e = ENTRY_NORMAL /\ ent_Data e = p_data p /\
    ent_Index e <= commitIndex (nd_raft n) /\
    applied [] (take k L) sm /\ sm_apply sm (ent_Index e) (ent_Data e) = Ok (sm', [Byte.x41]).
Proof.
  split; [exact (proj2 (proj2 (proj2 (proj2 demo_write_runs))))|]. intros n Hn.
  assert (Hr : (7%nat, PResult [Byte.x41]) ∈ replies (nd_raft n)).
  { pose proof (proj2 (proj2 (proj2 (proj2 demo_write_runs)))) as Hd. unfold node_of in Hd. rewrite Hn in Hd. cbn in Hd.
    injection Hd as ->. apply list_elem_of_here. }
  exact (acknowledged_proposals_are_applied demo_peers demo_config [] demo_peers_nodup demo_peers_named (fun _ => eq_refl) (fun _ => eq_refl)
    demo_start demo_written demo_written "a" n 7 [Byte.x41] demo_initial
    (rtc_trans _ _ _ (run_schedule_steps _ _ _ _ _ (proj1 demo_election_runs)) (run_schedule_steps _ _ _ _ _ (proj1 demo_write_runs)))
    (rtc_refl _ _) Hn Hr).
Defined.
