(* ===== verification/ReadIndex.v ===== *)
(** * Linearizable reads

    A read is served by a leader that has confirmed its leadership with a
    majority after the read began, at the commit index it had then
    ([confirmLeadership], [waitApplied]). No newer leader had been elected when such
    a read began, and so nothing had been committed anywhere beyond that
    index: the state the read sees contains every write acknowledged before. *)

From S2P Require Import Prelude Types RaftLog Storage Raft RaftFacts Cluster Run Election LogCore LogFacts Agree AgreeSteps Agreement Acknowledge.

(** ** What a critical section means for leadership and the commit index *)
Section Steady.
Context {S SM : Type} `{StorageLaws S} `{StateMachine SM}.

#[local] Abbreviation Raft := (Raft S SM).
#[local] Abbreviation NodeSt := (NodeSt S SM).
Implicit Types (r : Raft) (n : NodeSt).

(** Leadership is not gained, and nothing is committed or acknowledged. *)
Record steady r r' : Prop := {
  sy_commit : commitIndex r' = commitIndex r;
  sy_leader : state r' = Leader -> state r = Leader /\ rterm r' = rterm r /\ noopIndex r' = noopIndex r /\ ackedSendTime r' = ackedSendTime r /\
    leaderCancel r' = leaderCancel r;
}.

#[global] Instance steady_preorder : PreOrder steady.
Proof.
  split; [by split|]. intros r1 r2 r3 [Hc1 Hl1] [Hc2 Hl2]. split; [congruence|]. intros (Hs & E1 & E2 & E3 & E4)%Hl2.
  apply Hl1 in Hs as (? & ? & ? & ? & ?). split_and!; congruence.
Qed.

(** The fields [steady] looks at. *)
Definition seat r := (commitIndex r, state r, rterm r, noopIndex r, ackedSendTime r, leaderCancel r).

Lemma steady_seat r r' : seat r' = seat r -> steady r r'.
Proof. unfold seat. intros [= E1 E2 E3 E4 E5 E6]. split; [done|]. intros Hs. split_and!; congruence. Qed.

Lemma steady_off r r' : commitIndex r' = commitIndex r -> state r' <> Leader -> steady r r'.
Proof. by split. Qed.

Lemma becomeFollower_steady env t l r r' : node_ok r -> becomeFollowerLocked env t l r = Ok r' -> steady r r'.
Proof.
  intros Hok Hb. apply becomeFollower_facts in Hb as (_ & Hr & _ & _ & Hs & _); [|done].
  apply steady_off; [unfold rest in Hr; congruence|by rewrite Hs].
Qed.

Lemma stepDown_steady env (b : bool) t l r r' : node_ok r -> (if b then becomeFollowerLocked env t l r else Ok r) = Ok r' -> steady r r'.
Proof. intros Hok. destruct b; [by apply becomeFollower_steady|]. by intros [= <-]. Qed.

Lemma tick_steady env r r' b : node_ok r -> tick env r = Ok (r', b) -> steady r r'.
Proof.
  intros Hok. unfold tick. repeat case_match; intros Hb; try (inv_ok; by apply steady_seat).
  apply bind_Ok in Hb as (r1 & Hd & Hb). inv_ok. by eapply becomeFollower_steady.
Qed.

Lemma persist_seat hs es r r' : persistLocked hs es r = Ok r' -> seat r' = seat r.
Proof. unfold persistLocked. destruct (Save _ _ _) as [st []]; by intros [= <-]. Qed.

Lemma campaign_elect_steady env r r' pc : campaign_elect env r = Ok (r', pc) -> steady r r'.
Proof.
  unfold campaign_elect. intros He. apply bind_Ok in He as (r1 & Hp & He). inv_ok. apply persist_seat in Hp.
  unfold seat in Hp. injection Hp as E1 E2 _ _ _ _. apply steady_off; cbn; [done|]. by rewrite E2.
Qed.

Lemma campaign_begin_steady env skip r r' pc : campaign_begin env skip r = Ok (r', pc) -> steady r r'.
Proof.
  unfold campaign_begin. case_match; [intros; by inv_ok|]. case_match; [|intros; inv_ok; by apply steady_seat].
  intros He. apply campaign_elect_steady in He. etrans; [|exact He]. by apply steady_seat.
Qed.

Lemma campaign_prevoted_steady env req won r r' pc : campaign_prevoted env req won r = Ok (r', pc) -> steady r r'.
Proof. unfold campaign_prevoted. repeat case_match; try (intros; by inv_ok). apply campaign_elect_steady. Qed.

Lemma vote_answer_steady env resp r r' b : node_ok r -> vote_answer env resp r = Ok (r', b) -> steady r r'.
Proof. intros Hok Hb. apply bind_Ok in Hb as (r1 & Hd & Hb). inv_ok. by eapply stepDown_steady. Qed.

Lemma HandleRequestVote_steady env req r r' resp : node_ok r -> HandleRequestVote env req r = Ok (r', resp) -> steady r r'.
Proof.
  intros Hok. unfold HandleRequestVote. case_match; [intros; by inv_ok|]. case_match; [intros; by inv_ok|].
  intros Hb. apply bind_Ok in Hb as (r1 & Hd & Hb). apply stepDown_steady in Hd; [|done]. case_match; [by inv_ok|].
  apply bind_Ok in Hb as (r2 & Hp & Hb). inv_ok. apply persist_seat in Hp. etrans; [exact Hd|]. by apply steady_seat.
Qed.

Lemma Stop_steady r : steady r (Stop r).
Proof. unfold Stop. case_match; by apply steady_seat. Qed.

(** What the applier leaves alone: the seat, and a handover in flight. *)
Definition post r := (seat r, transferTarget r).

Lemma answerWaiters_post ers r : post (foldl answerWaiter r ers) = post r.
Proof. revert r. induction ers as [|er ers IH]; intros r; [done|]. cbn. rewrite IH. unfold answerWaiter. by case_match. Qed.

Lemma applier_step_post pc r r' pc' : applier_step pc r = Ok (r', pc') -> post r' = post r.
Proof.
  intros Hb. destruct pc as [|snap|snap|es|es results|index|index data|index t data|index t]; cbn in Hb.
  - unfold applier_wake in Hb. repeat case_match; try by inv_ok.
  - apply bind_Ok in Hb as (sm & _ & Hb). by inv_ok.
  - by inv_ok.
  - apply bind_Ok in Hb as ([sm outs] & _ & Hb). by inv_ok.
  - unfold applier_finish in Hb. destruct (last es); [|done]. inv_ok. rewrite <- (answerWaiters_post (zip es results) r). done.
  - by inv_ok.
  - by inv_ok.
  - injection Hb as Hb. unfold takeSnapshot_save in Hb. destruct (SaveSnapshot _ _ _ _) as [st []]; by injection Hb as <- <-.
  - by inv_ok.
Qed.

Lemma applier_step_steady pc r r' pc' : applier_step pc r = Ok (r', pc') -> steady r r'.
Proof. intros E%applier_step_post. apply steady_seat. by apply (f_equal fst) in E. Qed.

(** *** Winning *)
Record wins r r' : Prop := {
  wi_state : state r = Candidate;
  wi_leads : state r' = Leader;
  wi_term : rterm r' = rterm r;
  wi_noop : noopIndex r' = lastIndex (rlog r) + 1;
  wi_log : rlog r' = (rlog r) <| entries := entries (rlog r) ++ [mkEntry (lastIndex (rlog r) + 1) (rterm r) ENTRY_NOOP []] |>;
  wi_target : transferTarget r' = "";
  wi_cancel : leaderCancel r' = true;
}.

Lemma campaign_voted_wins env req won r r' pc : campaign_voted env req won r = Ok (r', pc) -> r' = r \/ wins r r'.
Proof.
  unfold campaign_voted. destruct won; cbn [negb]; [|intros; inv_ok; by left].
  destruct (negb (stopped r) && bool_decide (state r = Candidate) && _) eqn:Hg; [|intros; inv_ok; by left].
  apply andb_prop in Hg as [[_ Hg]%andb_prop _]. apply bool_decide_eq_true in Hg. intros Hb. apply bind_Ok in Hb as (r1 & Hl & Hb). inv_ok.
  right. unfold becomeLeaderLocked in Hl. apply bind_Ok in Hl as (l & Ha & Hl). apply append_Ok in Ha as [_ ->].
  apply bind_Ok in Hl as (r2 & Hp & Hl). apply bind_Ok in Hl as (r3 & Hc & Hl). inv_ok.
  unfold persistLocked in Hp. destruct (Save _ _ _) as [st []]; [|done]. injection Hp as <-.
  apply advanceCommit_spec in Hc as [->|(c & -> & _)]; by split.
Qed.

(** *** Acknowledgements and commits *)

(** Still the same leadership, maybe with more committed. *)
Record leading r r' : Prop := {
  le_state : state r' = state r;
  le_term : rterm r' = rterm r;
  le_noop : noopIndex r' = noopIndex r;
  le_cancel : leaderCancel r' = leaderCancel r;
}.

Lemma advanceCommit_leading r r' : advanceCommitLocked r = Ok r' -> leading r r' /\ ackedSendTime r' = ackedSendTime r.
Proof. intros Ha. by apply advanceCommit_spec in Ha as [->|(c & -> & _)]. Qed.

Lemma recordAck_leading peer sentAt r :
  leading r (recordAckLocked peer sentAt r) /\ commitIndex (recordAckLocked peer sentAt r) = commitIndex r /\
  forall p, mapGetTime (ackedSendTime (recordAckLocked peer sentAt r)) p = mapGetTime (ackedSendTime r) p \/
    p = peer /\ mapGetTime (ackedSendTime (recordAckLocked peer sentAt r)) p = sentAt.
Proof.
  unfold recordAckLocked. case_match; [|split_and!; try done; intros; by left]. split_and!; try done. intros p. cbn. unfold mapGetTime.
  destruct (decide (peer = p)) as [->|Hne]; [rewrite lookup_insert_eq; by right|]. rewrite lookup_insert_ne by done. by left.
Qed.

(** An answer steps the leader down, says nothing, or is an acknowledgement in this term. *)
Definition hears (peer : string) (sentAt : Z) (t respTerm : N) r r' : Prop :=
  steady r r' \/
  (state r = Leader /\ leading r r' /\ rterm r = t /\ respTerm <= rterm r /\
   forall p, mapGetTime (ackedSendTime r') p = mapGetTime (ackedSendTime r) p \/ p = peer /\ mapGetTime (ackedSendTime r') p = sentAt).

Lemma leading_guard r (t : N) :
  negb (bool_decide (state r = Leader)) || negb (rterm r =? t) = false -> state r = Leader /\ rterm r = t.
Proof. intros [H1'%negb_false_iff H2'%negb_false_iff]%orb_false_iff. split; [by apply bool_decide_eq_true in H1'|by apply N.eqb_eq]. Qed.

Lemma replicateOnce_recv_hears env peer t req sentAt resp r r' b :
  node_ok r -> replicateOnce_recv env peer t req sentAt resp r = Ok (r', b) -> hears peer sentAt t (aer_Term resp) r r'.
Proof.
  intros Hok. unfold replicateOnce_recv. destruct (N.ltb_spec (rterm r) (aer_Term resp)) as [|Hle]; intros Hb.
  { apply bind_Ok in Hb as (r1 & Hd & Hb). inv_ok. left. by eapply becomeFollower_steady. }
  destruct (negb _ || negb _) eqn:Hg; [inv_ok; by left|]. apply leading_guard in Hg as [Hst Ht].
  destruct (recordAck_leading peer sentAt r) as ([L1 L2 L3 L4] & _ & Hack). right. split_and!; try done.
  all: revert L1 L2 L3 L4 Hack Hb; generalize (recordAckLocked peer sentAt r) as r1; intros r1 L1 L2 L3 L4 Hack Hb.
  all: destruct (aer_Success resp); [|by inv_ok]; apply bind_Ok in Hb as (r2 & Ha & Hb); inv_ok.
  all: destruct (mapGet (matchIndex r1) peer <? _); [|by inv_ok].
  all: apply advanceCommit_leading in Ha as [[A1 A2 A3 A5] A4]; cbn in *.
  - split; congruence.
  - by rewrite A4.
Qed.

Lemma sendSnapshot_recv_hears env peer t meta sentAt resp r r' b :
  node_ok r -> sendSnapshot_recv env peer t meta sentAt resp r = Ok (r', b) -> hears peer sentAt t (isr_Term resp) r r'.
Proof.
  intros Hok. unfold sendSnapshot_recv. destruct (N.ltb_spec (rterm r) (isr_Term resp)) as [|Hle]; intros Hb.
  { apply bind_Ok in Hb as (r1 & Hd & Hb). inv_ok. left. by eapply becomeFollower_steady. }
  destruct (negb _ || negb _) eqn:Hg; [inv_ok; by left|]. apply leading_guard in Hg as [Hst Ht].
  destruct (recordAck_leading peer sentAt r) as ([L1 L2 L3 L4] & _ & Hack). right. split_and!; try done.
  all: revert L1 L2 L3 L4 Hack Hb; generalize (recordAckLocked peer sentAt r) as r1; intros r1 L1 L2 L3 L4 Hack Hb.
  all: apply bind_Ok in Hb as (r2 & Ha & Hb); inv_ok; cbn.
  all: destruct (mapGet (matchIndex r1) peer <? _); [|by inv_ok].
  all: apply advanceCommit_leading in Ha as [[A1 A2 A3 A5] A4]; cbn in *.
  - split; cbn; congruence.
  - by rewrite A4.
Qed.

(** *** Commits that follow the leader *)
Lemma appendVerified_commit req es r r' resp :
  appendVerified req es r = Ok (r', resp) ->
  aer_Term resp = rterm r' /\ state r' = state r /\ (commitIndex r' = commitIndex r \/ commitIndex r' <= ae_LeaderCommit req).
Proof.
  unfold appendVerified. intros Hb. apply bind_Ok in Hb as ([l fresh] & _ & Hb). apply bind_Ok in Hb as (r1 & Hp & Hb).
  assert (E1 : seat r1 = seat r).
  { destruct fresh; [by inv_ok|]. apply bind_Ok in Hp as (l1 & _ & Hp). by apply persist_seat in Hp. }
  unfold seat in E1. injection E1 as E1 E2 _ _ _ _. inv_ok. destruct (commitIndex r1 <? _); cbn; split_and!; try done; [right; lia|by left].
Qed.

Lemma HandleAppendEntries_commit env req r r' resp :
  node_ok r -> HandleAppendEntries env req r = Ok (r', resp) ->
  aer_Term resp = rterm r' /\ (steady r r' \/ state r' = Follower /\ commitIndex r' <= ae_LeaderCommit req).
Proof.
  intros Hok. unfold HandleAppendEntries. case_match; [intros; by inv_ok; split; [|left]|]. intros Hb. apply bind_Ok in Hb as (r1 & Hd & Hb).
  assert (Hf : state r1 = Follower).
  { destruct (_ || _) eqn:Hg in Hd; [by apply becomeFollower_facts in Hd as (_ & _ & _ & _ & ? & _)|]. inv_ok.
    apply orb_false_iff in Hg as [[_ Hg%negb_false_iff]%orb_false_iff _]. by apply bool_decide_eq_true in Hg. }
  apply stepDown_steady in Hd; [|done]. revert Hb.
  match goal with |- context [resetElectionTimerLocked env ?x] => set (r2 := resetElectionTimerLocked env x) end.
  assert (C2 : steady r r2) by (etrans; [exact Hd|by apply steady_seat]). assert (F2 : state r2 = Follower) by done.
  clearbody r2. cbn zeta. intros Hb. case_match; [inv_ok; by split; [|left]|].
  match type of Hb with (let '(_, _) := ?x in _) = _ => destruct x as [prev es] end.
  case_match; [inv_ok; by split; [|left]|]. case_match; [inv_ok; by split; [|left]|].
  apply appendVerified_commit in Hb as (Ht & Hs & Hc). split; [done|]. rewrite F2 in Hs. destruct Hc as [Hc|Hc]; [left|by right].
  apply steady_off; [by rewrite Hc, (sy_commit _ _ C2)|by rewrite Hs].
Qed.

Lemma HandleInstallSnapshot_commit env req r r' resp :
  node_ok r -> HandleInstallSnapshot env req r = Ok (r', resp) ->
  isr_Term resp = rterm r' /\ (steady r r' \/ state r' = Follower /\ commitIndex r' = is_LastIncludedIndex req).
Proof.
  intros Hok Hb. apply HandleInstallSnapshot_cases in Hb as [(_ & -> & ?)|(r1 & _ & Hr & _ & Ht & _ & Hs & Hi & Hb)]; [by split; [|left]| |done].
  destruct Hb as [(_ & ->)|(st & dl & _ & _ & _ & ->)]; cbn; (split; [congruence|]); [left|by right].
  apply steady_off; [unfold rest in Hr; congruence|by rewrite Hs].
Qed.

Lemma appendProposals_leading batch r r' :
  appendProposals batch r = Ok r' -> steady r r' \/ state r = Leader /\ leading r r' /\ ackedSendTime r' = ackedSendTime r.
Proof.
  unfold appendProposals. destruct (negb _ || negb _ || stopped r) eqn:Hgd; [intros Hb; inv_ok; left; by apply steady_seat|].
  apply orb_false_iff in Hgd as [[Hst%negb_false_iff _]%orb_false_iff _]. apply bool_decide_eq_true in Hst.
  intros Hb. apply bind_Ok in Hb as (l & Ha & Hb). apply bind_Ok in Hb as (r1 & Hp & Hb). apply persist_seat in Hp.
  unfold seat in Hp. injection Hp as E1 E2 E3 E4 E5 E6. apply advanceCommit_leading in Hb as [[A1 A2 A3 A5] A4]. cbn in *.
  right. split_and!; [done|split; congruence|congruence].
Qed.

(** *** Summary of a step *)
Record reading (ms : list Msg) n n' (out : list Msg) : Prop := {
  rd_leader : state (nd_raft n') = Leader -> (state (nd_raft n) = Leader /\ leading (nd_raft n) (nd_raft n')) \/ wins (nd_raft n) (nd_raft n');
  rd_commit : commitIndex (nd_raft n') = commitIndex (nd_raft n) \/ state (nd_raft n') = Leader \/
    (exists m, m ∈ ms /\ match m_body m with
      | MAppend _ req => commitIndex (nd_raft n') <= ae_LeaderCommit req
      | MSnap _ _ req => commitIndex (nd_raft n') <= is_LastIncludedIndex req
      | _ => False
      end);
  rd_acks : state (nd_raft n) = Leader -> state (nd_raft n') = Leader -> forall p,
    mapGetTime (ackedSendTime (nd_raft n')) p = mapGetTime (ackedSendTime (nd_raft n)) p \/
    exists m, m ∈ ms /\ m_src m = p /\ match m_body m with
      | MAppendResp s req resp => ae_Term req = rterm (nd_raft n') /\ aer_Term resp <= rterm (nd_raft n') /\ mapGetTime (ackedSendTime (nd_raft n')) p = s
      | MSnapResp s _ req resp => is_Term req = rterm (nd_raft n') /\ isr_Term resp <= rterm (nd_raft n') /\ mapGetTime (ackedSendTime (nd_raft n')) p = s
      | _ => False
      end;
  rd_sending : forall pr, pr ∈ nd_sending n' -> pr ∈ nd_sending n \/ ae_LeaderCommit pr.2 = commitIndex (nd_raft n);
  rd_out : forall m, m ∈ out -> match m_body m with
    | MAppend _ req => exists pr, pr ∈ nd_sending n /\ pr.2 = req
    | MSnap _ _ req => is_LastIncludedIndex req <= commitIndex (nd_raft n)
    | MAppendResp _ _ resp => m_src m = ID (cfg (nd_raft n)) /\ aer_Term resp = rterm (nd_raft n')
    | MSnapResp _ _ _ resp => m_src m = ID (cfg (nd_raft n)) /\ isr_Term resp = rterm (nd_raft n')
    | _ => True
    end;
}.

Definition no_rpc (m : Msg) : Prop := match m_body m with MVote _ | MVoteResp _ _ | MTimeoutNow _ => True | _ => False end.

Lemma steady_reading ms n n' out :
  steady (nd_raft n) (nd_raft n') -> nd_sending n' = nd_sending n -> Forall no_rpc out -> reading ms n n' out.
Proof.
  intros [Hc Hl] Hs Ho. split.
  - intros Hld. left. destruct (Hl Hld) as (? & ? & ? & ? & ?). split; [done|]. split; congruence.
  - by left.
  - intros _ H0' p. left. apply Hl in H0' as (_ & _ & _ & -> & _). done.
  - rewrite Hs. by left.
  - intros m Hm. rewrite Forall_forall in Ho. apply Ho in Hm. unfold no_rpc in Hm. by destruct (m_body m).
Qed.

Lemma camp_messages_no_rpc r pc : Forall no_rpc (camp_messages r pc).
Proof. unfold camp_messages. repeat case_match; try constructor. apply Forall_fmap, Forall_true. done. Qed.
End Steady.

(** ** Every step of a node *)
Section Reads.
Context {S SM : Type} `{StorageLaws S} `{StateMachine SM}.
Context (peers : list string) (config : string -> Config) (sm0 : SM) `{!SnapshotLaw sm0}.
Context (peers_nodup : NoDup peers) (peers_named : "" ∉ peers).
Context (config_id : forall i, ID (config i) = i) (config_peers : forall i, Peers (config i) = peers).

#[local] Abbreviation Raft := (Raft S SM).
#[local] Abbreviation NodeSt := (NodeSt S SM).
#[local] Abbreviation Cluster := (Cluster S SM).
#[local] Abbreviation follows := (follows peers).
#[local] Abbreviation runs := (rtc (step config sm0)).
Implicit Types (r : Raft) (n : NodeSt).

Lemma hears_reading ms n r' peer sentAt t respTerm m :
  hears peer sentAt t respTerm (nd_raft n) r' -> m ∈ ms -> m_src m = peer ->
  (forall x, rterm (nd_raft n) = t -> respTerm <= rterm (nd_raft n) -> x = sentAt ->
    match m_body m with
    | MAppendResp s req resp => ae_Term req = rterm (nd_raft n) /\ aer_Term resp <= rterm (nd_raft n) /\ x = s
    | MSnapResp s _ req resp => is_Term req = rterm (nd_raft n) /\ isr_Term resp <= rterm (nd_raft n) /\ x = s
    | _ => False
    end) ->
  reading ms n (n <| nd_raft := r' |>) [].
Proof.
  intros [Hs|(Hl & Hle & Ht & Hr & Ha)] Hm Hsrc Hbody; [by apply steady_reading|].
  pose proof Hle as [E1 E2 E3]. split; cbn; try done.
  - intros _. by left.
  - right. left. by rewrite E1.
  - intros _ _ p. destruct (Ha p) as [Hp|[-> Hp]]; [by left|]. right. exists m. split_and!; try done. rewrite E2. by apply Hbody.
  - intros pr Hpr. by left.
  - intros m' Hm'. by apply not_elem_of_nil in Hm'.
Qed.

(** A critical section that leaves the queue of requests alone and sends one answer. *)
Lemma answer_reading ms n r' m0 body :
  steady (nd_raft n) r' \/ (state r' = Follower /\ exists m, m ∈ ms /\ match m_body m with
      | MAppend _ req => commitIndex r' <= ae_LeaderCommit req
      | MSnap _ _ req => commitIndex r' <= is_LastIncludedIndex req
      | _ => False
      end) ->
  match body with
  | MAppendResp _ _ resp => aer_Term resp = rterm r'
  | MSnapResp _ _ _ resp => isr_Term resp = rterm r'
  | _ => False
  end ->
  reading ms n (n <| nd_raft := r' |>) [mkMsg (ID (cfg (nd_raft n))) m0 body].
Proof.
  intros Hs Hb.
  assert (Ho : forall m, m ∈ [mkMsg (ID (cfg (nd_raft n))) m0 body] -> match m_body m with
    | MAppend _ req => exists pr, pr ∈ nd_sending n /\ pr.2 = req
    | MSnap _ _ req => is_LastIncludedIndex req <= commitIndex (nd_raft n)
    | MAppendResp _ _ resp => m_src m = ID (cfg (nd_raft n)) /\ aer_Term resp = rterm r'
    | MSnapResp _ _ _ resp => m_src m = ID (cfg (nd_raft n)) /\ isr_Term resp = rterm r'
    | _ => True
    end).
  { intros m ->%list_elem_of_singleton. cbn. by destruct body. }
  destruct Hs as [Hs|[Hf Hm]].
  - destruct (steady_reading ms n (n <| nd_raft := r' |>) []) as [R1 R2 R3 R4 _]; [done|done|constructor|]. by split.
  - split; cbn; try done; [by rewrite Hf|by right; right|by rewrite Hf|by left].
Qed.

(** A leader that sends nothing and hears nothing. *)
Lemma leader_reading ms n n' :
  (state (nd_raft n) = Leader /\ leading (nd_raft n) (nd_raft n')) \/ wins (nd_raft n) (nd_raft n') ->
  (state (nd_raft n) = Leader -> ackedSendTime (nd_raft n') = ackedSendTime (nd_raft n)) -> nd_sending n' = nd_sending n ->
  reading ms n n' [].
Proof.
  intros Hl Ha Hs. split; [done| | | |].
  - right. left. destruct Hl as [[Hl [E1 _ _]]|Hl]; [by rewrite E1|apply Hl].
  - intros Hld _ p. left. by rewrite Ha.
  - rewrite Hs. by left.
  - intros m Hm. by apply not_elem_of_nil in Hm.
Qed.

Lemma replicateOnce_send_commit ctxErr peer t r req :
  replicateOnce_send ctxErr peer t r = Ok (SendAppend req) -> ae_LeaderCommit req = commitIndex r.
Proof.
  unfold replicateOnce_send. case_match; [done|]. cbn zeta. case_match; [done|]. intros Hb. apply bind_Ok in Hb as (es & _ & Hb). by injection Hb as <-.
Qed.

Lemma sendSnapshot_load_commit h i r t req meta :
  node_ok r -> raft_rel peers h i r -> sendSnapshot_load t r = Some (req, meta) -> is_LastIncludedIndex req <= commitIndex r.
Proof.
  intros Hok Hr Hs. unfold sendSnapshot_load in Hs. destruct (latest_durable (storage r) (nk_storage _ Hok)) as (om & data & Hls & Hd).
  rewrite Hls in Hs. destruct om as [m|]; [|done]. injection Hs as <- <-. cbn in Hd |- *.
  pose proof (rr_dsnap _ _ _ _ Hr) as Hds. unfold d_snapIndex in Hds. by rewrite Hd in Hds.
Qed.

Lemma node_step_reading h i ms n n' out :
  node_inv peers sm0 h i n -> node_step ms n n' out -> reading ms n n' out.
Proof.
  intros Hn Hstep. pose proof (lo_node _ _ _ (ni_local _ _ _ _ _ Hn)) as Hok.
  destruct Hstep as [t ?|rnd r' started Ht|rnd skip r' pc Hc Ht|pc req peer answers Hc|rnd peer req resp r' g Hm Ht
    |rnd peer req resp r' g pc answers Hm Ht|rnd req answers won r' pc Hc Hw Ht|rnd req answers won r' pc Hc Hw Ht
    |answers Hc|rnd src req r' resp Hm Ht|src req r' resp started Hm Ht|ctxErr peer t act Hp Ht|peer req Hp
    |peer t req meta Hp Hld Htm Ht|rnd src sentAt req r' resp Hm Ht|rnd peer sentAt req resp r' again Hm Ht
    |rnd src sentAt meta req r' resp Hm Ht|rnd peer sentAt meta req resp r' again Hm Ht|batch r' Hb Ht|r' o Ht
    |r' pc Ht|target r' t Ht|t target req Hp Ht|t target Hp|].
  - by apply steady_reading.
  - apply steady_reading; [by eapply tick_steady|done|constructor].
  - apply steady_reading; [by eapply campaign_begin_steady|done|apply camp_messages_no_rpc].
  - by apply steady_reading.
  - apply steady_reading; [by eapply vote_answer_steady|done|constructor].
  - apply steady_reading; [by eapply vote_answer_steady|done|constructor].
  - apply steady_reading; [by eapply campaign_prevoted_steady|done|apply camp_messages_no_rpc].
  - apply campaign_voted_wins in Ht as [->|Hwin]; [by apply steady_reading|].
    apply leader_reading; [by right|by rewrite (wi_state _ _ Hwin)|done].
  - apply steady_reading; [by apply steady_seat|done|constructor].
  - apply steady_reading; [by eapply HandleRequestVote_steady|done|by repeat constructor].
  - apply steady_reading; [|done|constructor]. revert Ht. unfold HandleTimeoutNow. case_match; intros [= <- _ <-]; by apply steady_seat.
  - destruct act as [|req|]; [by apply steady_reading| |by apply steady_reading].
    destruct (steady_reading ms n n []) as [R1 R2 R3 R4 R5]; [done|done|constructor|]. split; try done.
    intros pr [->|Hpr]%elem_of_cons; [right|by left]. by apply replicateOnce_send_commit in Ht.
  - destruct (steady_reading ms n n []) as [R1 R2 R3 R4 R5]; [done|done|constructor|]. split; try done.
    intros m ->%list_elem_of_singleton. cbn. by exists (peer, req).
  - destruct (steady_reading ms n n []) as [R1 R2 R3 R4 R5]; [done|done|constructor|]. split; try done.
    intros m ->%list_elem_of_singleton. cbn. by eapply sendSnapshot_load_commit; [|apply Hn|].
  - apply HandleAppendEntries_commit in Ht as [Hrt Hs]; [|done]. apply answer_reading; [|done]. destruct Hs as [Hs|[Hf Hs]]; [by left|].
    right. split; [done|]. by eexists.
  - apply replicateOnce_recv_hears in Ht; [|done]. eapply hears_reading; [exact Ht|exact Hm|done|]. cbn. by intros x <- Hle ->.
  - apply HandleInstallSnapshot_commit in Ht as [Hrt Hs]; [|done]. apply answer_reading; [|done]. destruct Hs as [Hs|[Hf Hs]]; [by left|].
    right. split; [done|]. eexists. split; [exact Hm|]. cbn. lia.
  - apply sendSnapshot_recv_hears in Ht; [|done]. eapply hears_reading; [exact Ht|exact Hm|done|]. cbn. by intros x <- Hle ->.
  - apply appendProposals_leading in Ht as [Hs|(Hld & Hle & Ha)]; [by apply steady_reading|]. 
    apply leader_reading; [by left|done|done].
  - apply steady_reading; [|done|constructor]. revert Ht. unfold confirmLeadership_begin. repeat case_match; intros [= <- _]; by apply steady_seat.
  - apply steady_reading; [by eapply applier_step_steady|done|constructor].
  - apply steady_reading; [|done|constructor]. revert Ht. unfold transfer_begin. repeat case_match; intros Ht; simplify_eq; by apply steady_seat.
  - apply steady_reading; [done|done|by repeat constructor].
  - apply steady_reading; [|done|constructor]. cbn. unfold transfer_cleanup. case_match; by apply steady_seat.
  - apply steady_reading; [apply Stop_steady|done|constructor].
Qed.

(** ** Nothing is committed beyond what the latest leader knows *)

(** The commit indices in the group: of nodes, and in requests. *)
Definition announced (c : Cluster) (x : N) : Prop :=
  (exists j nj, nodes c !! j = Some nj /\ (x = commitIndex (nd_raft nj) \/ exists pr, pr ∈ nd_sending nj /\ x = ae_LeaderCommit pr.2)) \/
  exists m, m ∈ net c /\ match m_body m with
    | MAppend _ req => x = ae_LeaderCommit req
    | MSnap _ _ req => x = is_LastIncludedIndex req
    | _ => False
    end.

(** The entry that opened the leadership is in the log, at [noopIndex]. *)
Definition opened h (i : string) r : Prop :=
  0 < noopIndex r /\ noopIndex r <= lenN (h_log h i) /\ lterm (h_log h i) (noopIndex r) = rterm r.

(** No term later than [t] has a leader. *)
Definition latest h (t : N) : Prop := forall T, elected_in h T -> T <= t.

Definition bound r : N := N.max (commitIndex r) (noopIndex r - 1).

Record Reads (c : Cluster) h : Prop := {
  re_opened : forall i n, nodes c !! i = Some n -> state (nd_raft n) = Leader -> opened h i (nd_raft n);
  re_bound : forall i n, nodes c !! i = Some n -> state (nd_raft n) = Leader -> latest h (rterm (nd_raft n)) ->
    forall x, announced c x -> x <= bound (nd_raft n);
}.

Lemma lenN_pre c (L : list Entry) : c <= lenN L -> lenN (pre c L) = c.
Proof. intros Hc. unfold pre. rewrite lenN_take. lia. Qed.

Lemma lterm_at L k : 0 < k -> k <= lenN L -> exists e, L !! N.to_nat (k - 1) = Some e /\ ent_Term e = lterm L k.
Proof.
  intros Hk Hl. unfold lterm. destruct (N.eqb_spec k 0); [lia|]. destruct (lookup_lt_is_Some_2 L (N.to_nat (k - 1))) as [e He]; [unfold lenN in Hl; lia|].
  exists e. by rewrite He.
Qed.

(** What an earlier leader decided was in the log the leader of [t] started with. *)
Lemma decided_before h i r t P :
  good peers h -> raft_rel peers h i r -> state r = Leader -> opened h i r -> decided peers h t P -> t < rterm r -> lenN P <= noopIndex r - 1.
Proof.
  intros [Hh _] Hr Hst (Hpos & Hle & Hlt) [->|(T & c & HT & Hc & HP)] Htr; [rewrite lenN_nil; lia|].
  destruct (rr_leader _ _ _ _ Hr Hst) as ((el & Hel & _) & Hll & _). rewrite Hll in Hle, Hlt.
  assert (Hela : elected_in h (rterm r)) by by exists el.
  destruct (ho_llog _ _ Hh _ Hela) as (_ & Hbt & own & Hown & _ & _).
  destruct (lterm_at _ _ Hpos Hle) as (e & He & Het). rewrite Hlt in Het.
  assert (Hbase : (length (base h (rterm r)) <= N.to_nat (noopIndex r - 1))%nat).
  { destruct (decide (length (base h (rterm r)) <= N.to_nat (noopIndex r - 1))%nat) as [|Hn]; [done|].
    rewrite Hown, lookup_app_l in He by lia. unfold terms_below in Hbt. rewrite Forall_forall in Hbt.
    pose proof (Hbt e (list_elem_of_lookup_2 _ _ _ He)). lia. }
  assert (Hcb : (c <= length (base h (rterm r)))%nat).
  { apply (take_length_eq _ _ (h_llog h T)); [|apply Hc]. apply (leader_completeness peers); [done|done|lia|done]. }
  apply prefix_length in HP. rewrite length_take in HP. unfold lenN. lia.
Qed.

(** Every commit index announced is that of a decided prefix. *)
Lemma announced_decided c h x : Safe peers sm0 c h -> announced c x -> exists t P, decided peers h t P /\ lenN P = x.
Proof.
  intros HS [(j & nj & Hj & Hx)|(m & Hm & Hx)].
  - apply (sf_nodes _ _ _ _ HS) in Hj. destruct Hx as [->|(pr & Hpr & ->)].
    + exists (rterm (nd_raft nj)), (pre (commitIndex (nd_raft nj)) (h_log h j)). split; [apply Hj|]. apply lenN_pre, Hj.
    + pose proof (ni_sending _ _ _ _ _ Hj) as Hs. rewrite Forall_forall in Hs. apply Hs in Hpr.
      eexists _, _. split; [apply Hpr|]. apply lenN_pre, Hpr.
  - pose proof (sf_net _ _ _ _ HS) as Hn. rewrite Forall_forall in Hn. apply Hn in Hm as [_ [Hm _]]. unfold msg_rel in Hm.
    destruct (m_body m); try done; subst x.
    + eexists _, _. split; [apply Hm|]. apply lenN_pre, Hm.
    + destruct Hm as [_ Hm]. eexists _, _. split; [apply Hm|]. apply lenN_pre, Hm.
Qed.

(** A decided prefix was decided by an elected leader. *)
Lemma decided_elected h t P : decided peers h t P -> P = [] \/ exists T, T <= t /\ elected_in h T /\ decided peers h T P.
Proof.
  intros [->|(T & c & HT & Hc & HP)]; [by left|]. right. exists T. split_and!; [done|apply Hc|]. right. by exists T, c.
Qed.

(** *** Steps *)
Lemma lterm_prefix L L' k : L `prefix_of` L' -> k <= lenN L -> lterm L' k = lterm L k.
Proof.
  intros HP Hk. apply (lterm_pre k); [|done]. unfold pre. symmetry. apply prefix_take; [done|]. unfold lenN in Hk. lia.
Qed.

Lemma opened_step h h' i r r' :
  raft_rel peers h i r -> follows i h r h' r' -> (state r = Leader -> opened h i r) -> state r' = Leader ->
  (state r = Leader /\ leading r r') \/ wins r r' -> opened h' i r'.
Proof.
  intros Hr Hfo Ho Hst [[Hl [E1 E2 E3]]|[Hc _ E2 E3 El _]]; pose proof (fo_rel _ _ _ _ _ _ Hfo) as Hr'.
  - destruct (rr_leader _ _ _ _ Hr Hl) as (_ & Hll & _), (rr_leader _ _ _ _ Hr' Hst) as (_ & Hll' & _).
    destruct (Ho Hl) as (Hp & Hle & Ht). rewrite E2 in Hll'.
    assert (HP : h_log h i `prefix_of` h_log h' i) by (rewrite Hll, Hll'; apply (ev_llog _ _ (mv_evolves _ _ _ (fo_moves _ _ _ _ _ _ Hfo)))).
    unfold opened. rewrite E2, E3. split_and!; [done| |by rewrite (lterm_prefix _ _ _ HP)]. apply prefix_length in HP. unfold lenN in *. lia.
  - destruct (rr_log _ _ _ _ Hr') as [Hm _]. pose proof (rep_lastIndex _ _ Hm) as Hli. pose proof (rep_lastTerm _ _ Hm) as Hlt.
    assert (El' : lenN (h_log h' i) = noopIndex r').
    { rewrite <- Hli, E3, El. unfold lastIndex. cbn. rewrite lenN_app. change (lenN [_]) with 1. lia. }
    unfold opened. rewrite <- El', <- Hlt, El', E3. split_and!; [lia|lia|]. unfold lastTerm. rewrite El. cbn. by rewrite last_snoc, E2.
Qed.

Lemma announced_step h c k n n' out x :
  Safe peers sm0 c h -> nodes c !! k = Some n -> reading (net c) n n' out ->
  announced (mkCluster (<[k := n']> (nodes c)) (net c ++ out)) x ->
  (exists y, announced c y /\ x <= y) \/ (state (nd_raft n') = Leader /\ x = commitIndex (nd_raft n')).
Proof.
  intros HS Hk [_ Rc _ Rs Ro] Hx.
  assert (Hc : announced c (commitIndex (nd_raft n))) by (left; exists k, n; split; [done|by left]).
  destruct Hx as [(j & nj & Hj & Hx)|(m & Hm & Hx)]; cbn in *.
  - apply lookup_insert_Some in Hj as [[<- <-]|[Hne Hj]]; [|left; exists x; split; [left; by exists j, nj|done]].
    destruct Hx as [->|(pr & Hpr & ->)].
    + destruct Rc as [->|[Hl|(m & Hm & Hb)]]; [left; by eexists|by right|]. left.
      destruct (m_body m) eqn:Eb; try done; eexists; (split; [|exact Hb]); right; exists m; by rewrite Eb.
    + left. apply Rs in Hpr as [Hpr| ->]; [|by eexists]. eexists. split; [|done]. left. exists k, n. split; [done|]. right. by exists pr.
  - apply elem_of_app in Hm as [Hm|Hm]; [left; exists x; split; [right; by exists m|done]|]. left. pose proof (Ro _ Hm) as Hb.
    destruct (m_body m) eqn:Eb; try done; subst x.
    + destruct Hb as (pr & Hpr & <-). eexists. split; [|done]. left. exists k, n. split; [done|]. right. by exists pr.
    + by eexists.
Qed.

(** A new leader: everything decided so far was decided before its term. *)
Lemma bound_wins c h h' i n r' x :
  Safe peers sm0 c h -> nodes c !! i = Some n -> follows i h (nd_raft n) h' r' -> wins (nd_raft n) r' -> opened h' i r' ->
  latest h' (rterm r') -> (exists t P, decided peers h t P /\ lenN P = x) -> x <= bound r'.
Proof.
  intros HS Hi Hfo Hw Ho Hla (t & P & Hd & <-). pose proof (sf_nodes _ _ _ _ HS _ _ Hi) as Hn. pose proof (mv_evolves _ _ _ (fo_moves _ _ _ _ _ _ Hfo)) as Hev.
  destruct (rr_cand _ _ _ _ (ni_rel _ _ _ _ _ Hn) (wi_state _ _ Hw)) as [_ Hno].
  destruct (rr_leader _ _ _ _ (fo_rel _ _ _ _ _ _ Hfo) (wi_leads _ _ Hw)) as ((el' & Hel' & Hli) & _). rewrite (wi_term _ _ Hw) in Hel'.
  unfold bound. destruct (decided_elected _ _ _ Hd) as [->|(T & _ & [el Hel] & HdT)]; [rewrite lenN_nil; lia|].
  assert (HTle : T <= rterm r') by (apply Hla; exists el; by apply Hev).
  assert (HTne : T <> rterm r').
  { intros ->. rewrite (wi_term _ _ Hw) in Hel. apply (Hno el Hel). apply (ev_elect _ _ Hev) in Hel. congruence. }
  pose proof (decided_before h' i r' T P) as Hb. enough (lenN P <= noopIndex r' - 1) by lia.
  apply Hb; [apply Hfo|apply Hfo|apply Hw|done|by eapply decided_evolves|lia].
Qed.

(** The other leaders there may be are of earlier terms. *)
Lemma bound_leader h i r j r2 :
  good peers h -> raft_rel peers h i r -> state r = Leader -> opened h i r -> latest h (rterm r) ->
  raft_rel peers h j r2 -> state r2 = Leader -> j <> i -> commitIndex r2 <= bound r.
Proof.
  intros Hg Hr Hs Ho Hla Hr2 Hs2 Hne. destruct (rr_leader _ _ _ _ Hr Hs) as ((el & Hel & Hli) & _), (rr_leader _ _ _ _ Hr2 Hs2) as ((el2 & Hel2 & Hlj) & _).
  assert (Hle : rterm r2 <= rterm r) by (apply Hla; by exists el2).
  destruct (decide (rterm r2 = rterm r)) as [E|Hnt]; [rewrite E in Hel2; congruence|].
  pose proof (decided_before h i r (rterm r2) _ Hg Hr Hs Ho (rr_decided _ _ _ _ Hr2)) as Hb. rewrite lenN_pre in Hb by apply Hr2.
  unfold bound. lia.
Qed.

Lemma Reads_node_step c h h' k n n' out (c' := mkCluster (<[k := n']> (nodes c)) (net c ++ out)) :
  Safe peers sm0 c h -> Reads c h -> nodes c !! k = Some n -> node_step (net c) n n' out -> Safe peers sm0 c' h' ->
  follows k h (nd_raft n) h' (nd_raft n') -> Reads c' h'.
Proof.
  intros HS [Ro Rb] Hk Hst HS' Hfo. pose proof (sf_nodes _ _ _ _ HS _ _ Hk) as Hn. pose proof (node_step_reading h k _ n n' out Hn Hst) as Hrd.
  pose proof (fo_moves _ _ _ _ _ _ Hfo) as Hmv. pose proof (mv_evolves _ _ _ Hmv) as Hev.
  assert (Hop : forall i ni, nodes c' !! i = Some ni -> state (nd_raft ni) = Leader -> opened h' i (nd_raft ni)).
  { intros i ni Hi Hl. cbn in Hi. apply lookup_insert_Some in Hi as [[<- <-]|[Hne Hi]].
    - apply (opened_step h h' k (nd_raft n)); [apply Hn|done|by apply Ro|done|by apply Hrd].
    - unfold opened. rewrite (mv_log _ _ _ Hmv) by done. by apply Ro. }
  split; [done|]. intros i ni Hi Hl Hla x Hx. pose proof (Hop i ni Hi Hl) as Hoi. pose proof (sf_nodes _ _ _ _ HS' _ _ Hi) as Hni.
  assert (Hlast : forall t, latest h' t -> latest h t) by (intros t H' T HT; apply H'; by eapply elected_evolves).
  cbn in Hi. apply lookup_insert_Some in Hi as [[<- <-]|[Hne Hi]].
  - apply (announced_step h c k n n' out) in Hx as [(y & Hy & Hxy)|[_ ->]]; [|unfold bound; lia|done..].
    destruct (rd_leader _ _ _ _ Hrd Hl) as [[Hl0 [E1 E2 E3]]|Hw].
    + rewrite E2 in Hla. pose proof (Rb _ _ Hk Hl0 (Hlast _ Hla) y Hy) as Hb. pose proof (fo_commit _ _ _ _ _ _ Hfo). unfold bound in *. rewrite E3. lia.
    + pose proof (bound_wins c h h' k n (nd_raft n') y HS Hk Hfo Hw Hoi Hla (announced_decided c h y HS Hy)). lia.
  - apply (announced_step h c k n n' out) in Hx as [(y & Hy & Hxy)|[Hl' ->]]; [| |done..].
    + pose proof (Rb _ _ Hi Hl (Hlast _ Hla) y Hy). lia.
    + apply (bound_leader h' i _ k); try done; [apply HS'|apply Hni|apply Hfo].
Qed.

Lemma crash_commit c h i n env st r :
  Safe peers sm0 c h -> nodes c !! i = Some n -> crash_point (net c) n st -> New (config i) st sm0 = Ok (inl r) ->
  commitIndex (nd_raft (boot env r)) <= commitIndex (nd_raft n).
Proof.
  intros HS Hi Hcp Hnew. destruct (crash_follows peers sm0 c h i n st HS Hi Hcp) as (h' & r1 & _ & Hok & <- & Hfx).
  apply New_spec in Hnew as (c' & _ & _ & _ & _ & _ & _ & Hc & _); [|apply Hok]. cbn. rewrite Hc.
  pose proof (rr_dsnap _ _ _ _ (ni_rel _ _ _ _ _ (sf_nodes _ _ _ _ HS _ _ Hi))) as Hds. unfold d_snapIndex in *. unfold fixed in Hfx.
  injection Hfx as _ _ _ ->. done.
Qed.

Lemma New_follower cf st sm r : New cf st sm = Ok (inl r) -> state r = Follower.
Proof.
  unfold New. destruct (setDefaults cf); [|done]. destruct (Load st) as [[l|] st']; [|done].
  destruct (match ld_HardState l with Some _ => _ | None => _ end) as [t v].
  destruct (match ld_SnapshotMeta l with Some _ => _ | None => _ end) as [[l0 sm']|]; [|done].
  intros Hb. apply bind_Ok in Hb as (l1 & _ & Hb). by inv_ok.
Qed.

Lemma Reads_restart c h h' k n env st r :
  Safe peers sm0 c h -> Reads c h -> nodes c !! k = Some n -> crash_point (net c) n st -> New (config k) st sm0 = Ok (inl r) ->
  moves k h h' -> Reads (mkCluster (<[k := boot env r]> (nodes c)) (net c)) h'.
Proof.
  intros HS [Ro Rb] Hk Hcp Hnew Hmv. pose proof (New_follower _ _ _ _ Hnew) as Hfo. pose proof (mv_evolves _ _ _ Hmv) as Hev.
  split; intros i ni Hi Hl; cbn in Hi; apply lookup_insert_Some in Hi as [[<- <-]|[Hne Hi]]; try (cbn in Hl; congruence).
  - unfold opened. rewrite (mv_log _ _ _ Hmv) by done. by apply Ro.
  - intros Hla x Hx. assert (Hla' : latest h (rterm (nd_raft ni))) by (intros T HT; apply Hla; by eapply elected_evolves).
    destruct Hx as [(j & nj & Hj & Hx)|Hx]; [|by eapply (Rb _ _ Hi Hl Hla'); right]. cbn in Hj.
    apply lookup_insert_Some in Hj as [[<- <-]|[Hnj Hj]]; [|apply (Rb _ _ Hi Hl Hla'); left; by exists j, nj].
    destruct Hx as [->|(pr & Hpr & _)]; [|by apply not_elem_of_nil in Hpr].
    etrans; [exact (crash_commit c h k n env st r HS Hk Hcp Hnew)|]. apply (Rb _ _ Hi Hl Hla'). left. exists k, n. split; [done|by left].
Qed.

Lemma initial_Reads c : initial peers config sm0 c -> Reads c genesis.
Proof.
  intros (_ & _ & Hnodes). split; intros i n Hi Hl; destruct (Hnodes _ _ Hi) as (_ & env & st & r & _ & _ & Hnew & ->);
    apply New_follower in Hnew; cbn in Hl; congruence.
Qed.

(** *** What was announced stays within that bound

    Also when the node that announced it has crashed since. *)
Record Past (x : N) (c : Cluster) h : Prop := {
  pa_decided : exists t P, decided peers h t P /\ lenN P = x;
  pa_bound : forall i n, nodes c !! i = Some n -> state (nd_raft n) = Leader -> latest h (rterm (nd_raft n)) -> x <= bound (nd_raft n);
}.

Lemma announced_Past c h x : Safe peers sm0 c h -> Reads c h -> announced c x -> Past x c h.
Proof. intros HS HR Hx. split; [by apply (announced_decided c)|]. intros i n Hi Hl Hla. by apply (re_bound _ _ HR i n). Qed.

Lemma Past_decided h h' x : evolves h h' -> (exists t P, decided peers h t P /\ lenN P = x) -> exists t P, decided peers h' t P /\ lenN P = x.
Proof. intros Hev (t & P & Hd & Hx). exists t, P. split; [by eapply decided_evolves|done]. Qed.

Lemma Past_node_step x c h h' k n n' out (c' := mkCluster (<[k := n']> (nodes c)) (net c ++ out)) :
  Safe peers sm0 c h -> nodes c !! k = Some n -> node_step (net c) n n' out -> follows k h (nd_raft n) h' (nd_raft n') ->
  Reads c' h' -> Past x c h -> Past x c' h'.
Proof.
  intros HS Hk Hst Hfo [Ro _] [Hd Hb]. pose proof (node_step_reading h k _ n n' out (sf_nodes _ _ _ _ HS _ _ Hk) Hst) as Hrd.
  pose proof (mv_evolves _ _ _ (fo_moves _ _ _ _ _ _ Hfo)) as Hev. split; [by eapply Past_decided|]. intros i ni Hi Hl Hla.
  assert (Hlast : forall t, latest h' t -> latest h t) by (intros t H' T HT; apply H'; by eapply elected_evolves).
  pose proof (Ro i ni Hi Hl) as Hoi. cbn in Hi. apply lookup_insert_Some in Hi as [[<- <-]|[Hne Hi]]; [|by apply (Hb i ni); [..|apply Hlast]].
  destruct (rd_leader _ _ _ _ Hrd Hl) as [[Hl0 [E1 E2 E3]]|Hw]; [|by apply (bound_wins c h h' k n (nd_raft n') x)].
  rewrite E2 in Hla. pose proof (Hb _ _ Hk Hl0 (Hlast _ Hla)) as Hbd. pose proof (fo_commit _ _ _ _ _ _ Hfo). unfold bound in *. rewrite E3. lia.
Qed.

Lemma Past_restart x c h h' k env st r :
  New (config k) st sm0 = Ok (inl r) -> moves k h h' -> Past x c h -> Past x (mkCluster (<[k := boot env r]> (nodes c)) (net c)) h'.
Proof.
  intros Hnew%New_follower Hmv [Hd Hb]. pose proof (mv_evolves _ _ _ Hmv) as Hev. split; [by eapply Past_decided|]. cbn [nodes].
  intros i ni [[<- <-]|[Hne Hi]]%lookup_insert_Some Hl Hla; [cbn in Hl; congruence|]. apply (Hb i ni); [done..|].
  intros T HT. apply Hla. by eapply elected_evolves.
Qed.

(** ** Acknowledgements after a moment

    [h1] is the history when a leader of [t] looked at its clock and saw [start]. *)
Record Fenced h1 (i : string) (t : N) (start : Z) (c : Cluster) : Prop := {
  fe_net : forall m, m ∈ net c -> match m_body m with
    | MAppendResp s req resp => ae_Term req = t -> (start <= s)%Z -> h_term h1 (m_src m) <= aer_Term resp
    | MSnapResp s _ req resp => is_Term req = t -> (start <= s)%Z -> h_term h1 (m_src m) <= isr_Term resp
    | _ => True
    end;
  fe_acks : forall n, nodes c !! i = Some n -> state (nd_raft n) = Leader -> rterm (nd_raft n) = t ->
    forall p, p ∈ peers -> p <> i -> (start <= mapGetTime (ackedSendTime (nd_raft n)) p)%Z -> h_term h1 p <= t;
}.

Lemma Fenced_node_step h1 i t start c h h' k n n' out el :
  Fenced h1 i t start c -> Safe peers sm0 c h -> evolves h1 h -> h_elect h t = Some el -> el_leader el = i ->
  nodes c !! k = Some n -> node_step (net c) n n' out -> follows k h (nd_raft n) h' (nd_raft n') ->
  Fenced h1 i t start (mkCluster (<[k := n']> (nodes c)) (net c ++ out)).
Proof.
  intros [Fn Fa] HS Hev Hel Hli Hk Hst Hfo. pose proof (sf_nodes _ _ _ _ HS _ _ Hk) as Hn.
  pose proof (node_step_reading h k _ n n' out Hn Hst) as [Rl _ Ra _ Ro].
  assert (Hid : ID (cfg (nd_raft n)) = k) by apply Hn.
  assert (Hterm : h_term h1 k <= rterm (nd_raft n')).
  { rewrite <- (rr_term _ _ _ _ (fo_rel _ _ _ _ _ _ Hfo)). etrans; [apply Hev|apply Hfo]. }
  split; cbn.
  - intros m [Hm|Hm]%elem_of_app; [by apply Fn|]. apply Ro in Hm. destruct (m_body m); try done.
    all: intros _ _; destruct Hm as [-> ->]; by rewrite Hid.
  - intros n0 [[-> <-]|[Hne Hi]]%lookup_insert_Some Hl Ht p Hp Hpi Hs; [|by eapply Fa].
    destruct (Rl Hl) as [[Hl0 [_ E2 _]]|Hw].
    + destruct (Ra Hl0 Hl p) as [E|(m & Hm & <- & Hb)]; [rewrite E in Hs; eapply Fa; [done|done|congruence|done..]|].
      apply Fn in Hm. destruct (m_body m); try done; destruct Hb as (Hb1 & Hb2 & Hb3); rewrite Ht in Hb1, Hb2; rewrite Hb3 in Hs.
      all: etrans; [by apply Hm|done].
    + destruct (rr_cand _ _ _ _ (ni_rel _ _ _ _ _ Hn) (wi_state _ _ Hw)) as [_ Hno]. rewrite <- (wi_term _ _ Hw), Ht in Hno. by destruct (Hno el Hel).
Qed.

Lemma Fenced_restart h1 i t start c k env st r cf :
  Fenced h1 i t start c -> New cf st sm0 = Ok (inl r) -> Fenced h1 i t start (mkCluster (<[k := boot env r]> (nodes c)) (net c)).
Proof.
  intros [Fn Fa] Hnew%New_follower. split; cbn; [done|]. intros n0 [[-> <-]|[Hne Hi]]%lookup_insert_Some Hl; [cbn in Hl; congruence|by eapply Fa].
Qed.

(** *** Runs *)
Lemma Reads_step c c' h :
  Safe peers sm0 c h -> Reads c h -> step config sm0 c c' ->
  exists h', Safe peers sm0 c' h' /\ evolves h h' /\ Reads c' h' /\
    (forall c0, runs c0 c -> Told config sm0 c0 c h -> Told config sm0 c0 c' h') /\ (forall x, Past x c h -> Past x c' h') /\
    forall h1 i t start el, Fenced h1 i t start c -> evolves h1 h -> h_elect h t = Some el -> el_leader el = i -> Fenced h1 i t start c'.
Proof.
  intros HS HR [i n n' out Hi Hns|i n env st r Hi Hcp Hnew].
  - destruct (Safe_node_step peers sm0 peers_nodup peers_named c h i n n' out HS Hi Hns) as (h' & HS' & Hfo).
    exists h'. pose proof (Reads_node_step c h h' i n n' out HS HR Hi Hns HS' Hfo) as HR'.
    split_and!; [done|apply Hfo|done|..]; intros; [by eapply Told_node_step|by eapply Past_node_step|by eapply Fenced_node_step].
  - destruct (Safe_restart peers config sm0 peers_named config_id config_peers c h i n env st r HS Hi Hcp Hnew) as (h' & HS' & Hmv).
    exists h'. split_and!; [done|apply Hmv|by eapply Reads_restart|..]; intros; [by eapply Told_restart|by eapply Past_restart|by eapply Fenced_restart].
Qed.

Lemma Reads_continue c0 c1 c2 h1 :
  Safe peers sm0 c1 h1 -> Reads c1 h1 -> Told config sm0 c0 c1 h1 -> runs c0 c1 -> runs c1 c2 ->
  exists h2, Safe peers sm0 c2 h2 /\ evolves h1 h2 /\ Reads c2 h2 /\ Told config sm0 c0 c2 h2 /\ forall x, Past x c1 h1 -> Past x c2 h2.
Proof.
  intros HS HR HT H0' Hr. revert c2 Hr.
  apply (rtc_ind_r (fun c2 => exists h2, Safe peers sm0 c2 h2 /\ evolves h1 h2 /\ Reads c2 h2 /\ Told config sm0 c0 c2 h2 /\ forall x, Past x c1 h1 -> Past x c2 h2)).
  - exists h1. by split_and!.
  - intros c c' Hr Hst (h & HS' & Hev & HR' & HT' & HP). destruct (Reads_step c c' h HS' HR' Hst) as (h' & ? & ? & ? & HT2 & HP2 & _).
    exists h'. split_and!; [done|by etrans|done|apply HT2; [by etrans|done]|]. intros x Hx. by apply HP2, HP.
Qed.

Lemma Reads_runs c0 c : initial peers config sm0 c0 -> runs c0 c -> exists h, Safe peers sm0 c h /\ Reads c h /\ Told config sm0 c0 c h.
Proof.
  intros Hini Hr. destruct (Reads_continue c0 c0 c genesis) as (h & ? & _ & ? & ? & _); [..|by exists h].
  all: first [by eapply initial_Safe|by apply initial_Reads|by eapply initial_Told|done].
Qed.

Lemma Fenced_runs c1 c2 h1 i t start el :
  Safe peers sm0 c1 h1 -> Reads c1 h1 -> Fenced h1 i t start c1 -> h_elect h1 t = Some el -> el_leader el = i -> runs c1 c2 ->
  exists h2, Safe peers sm0 c2 h2 /\ evolves h1 h2 /\ Fenced h1 i t start c2.
Proof.
  intros HS HR HF Hel Hli Hr.
  enough (exists h2, Safe peers sm0 c2 h2 /\ evolves h1 h2 /\ Reads c2 h2 /\ Fenced h1 i t start c2) as (h2 & ? & ? & _ & ?) by by exists h2.
  revert c2 Hr. apply (rtc_ind_r (fun c2 => exists h2, Safe peers sm0 c2 h2 /\ evolves h1 h2 /\ Reads c2 h2 /\ Fenced h1 i t start c2)).
  - by exists h1.
  - intros c c' _ Hst (h & HS' & Hev & HR' & HF'). destruct (Reads_step c c' h HS' HR' Hst) as (h' & HS2 & Hev2 & HR2 & _ & _ & HF2).
    exists h'. split_and!; [done|by etrans|done|]. eapply HF2; [done|done|by apply Hev|done].
Qed.

(** *** Confirmed reads *)

(** The clock has moved on: whatever this leadership has had answered so far was sent,
    and its grace period granted, before [start]. *)
Definition clock_advanced (c : Cluster) (i : string) (t : N) (start : Z) : Prop :=
  (forall m, m ∈ net c -> match m_body m with
    | MAppendResp s req _ => ae_Term req = t -> (s < start)%Z
    | MSnapResp s _ req _ => is_Term req = t -> (s < start)%Z
    | _ => True
    end) /\
  forall n p, nodes c !! i = Some n -> p ∈ others (nd_raft n) -> (mapGetTime (ackedSendTime (nd_raft n)) p < start)%Z.

Lemma clock_advanced_Fenced h1 c i n t start :
  Safe peers sm0 c h1 -> nodes c !! i = Some n -> clock_advanced c i t start -> Fenced h1 i t start c.
Proof.
  intros HS Hi [Hnet Hack]. split.
  - intros m Hm. apply Hnet in Hm. destruct (m_body m); try done; intros Ht Hs; apply Hm in Ht; lia.
  - intros n' Hi' _ _ p Hp Hpi Hs. simplify_eq. destruct (ni_local _ _ _ _ _ (sf_nodes _ _ _ _ HS _ _ Hi)) as [_ (_ & Ho & _) _].
    assert (Hin : p ∈ others (nd_raft n)) by (rewrite Ho; by apply list_elem_of_filter). specialize (Hack _ _ Hi Hin). lia.
Qed.

(** A majority that had not gone past [t] when the read began: no later leader then. *)
Lemma confirmed_latest h1 c2 h2 i n2 t start :
  good peers h1 -> Safe peers sm0 c2 h2 -> nodes c2 !! i = Some n2 -> Fenced h1 i t start c2 -> h_term h1 i <= t ->
  state (nd_raft n2) = Leader -> rterm (nd_raft n2) = t -> hasQuorumAckSinceLocked start (nd_raft n2) = true -> latest h1 t.
Proof.
  intros [Hh _] HS Hi [_ Fa] Hti Hl Ht Hq T [el Hel]. pose proof (sf_nodes _ _ _ _ HS _ _ Hi) as Hn.
  destruct (ni_local _ _ _ _ _ Hn) as [_ (_ & Ho & Hqu) _]. unfold hasQuorumAckSinceLocked, acksSince in Hq.
  apply Nat.leb_le in Hq. rewrite Hqu in Hq. set (Q := filter _ (others (nd_raft n2))) in Hq.
  assert (HQ : forall p, p ∈ Q -> p ∈ peers /\ p <> i /\ (start <= mapGetTime (ackedSendTime (nd_raft n2)) p)%Z).
  { intros p Hp. unfold Q in Hp. apply list_elem_of_filter in Hp as [Hs Hp]. rewrite Ho in Hp. apply list_elem_of_filter in Hp as [Hne Hp]. done. }
  assert (Hmaj : majority peers (i :: Q)).
  { split_and!; [|intros p [->|Hp]%elem_of_cons; [apply Hn|by apply HQ]|rewrite length_cons; lia]. constructor; [intros Hin; by apply HQ in Hin as (_ & ? & _)|].
    unfold Q. rewrite Ho. by repeat apply NoDup_filter. }
  destruct (ho_elect _ _ Hh _ _ Hel) as (Hmaj' & _ & Hv). destruct (majorities_meet _ _ _ Hmaj Hmaj') as (v & Hv1 & Hv2).
  destruct (Hv _ Hv2) as [l Hvote]. apply (ho_vote _ _ Hh) in Hvote as (HT & _). etrans; [exact HT|].
  apply elem_of_cons in Hv1 as [->|Hv1]; [done|]. apply HQ in Hv1 as (Hp & Hne & Hs). by eapply Fa.
Qed.

Lemma confirm_begin_inv env r r1 t readIndex start :
  confirmLeadership_begin env r = (r1, inl (t, readIndex, start)) ->
  state r = Leader /\ noopIndex r <= commitIndex r /\ t = rterm r /\ readIndex = commitIndex r /\ start = now env.
Proof.
  unfold confirmLeadership_begin. destruct (bool_decide (state r = Leader)) eqn:Hs; cbn [negb]; [|done].
  apply bool_decide_eq_true in Hs. destruct (N.ltb_spec (commitIndex r) (noopIndex r)); [done|]. by intros [= <- <- <- <-].
Qed.

Lemma confirm_check_inv t readIndex start r x :
  confirmLeadership_check t readIndex start r = Some (inl x) -> state r = Leader /\ rterm r = t /\ hasQuorumAckSinceLocked start r = true /\ x = readIndex.
Proof.
  unfold confirmLeadership_check. destruct (negb _ || negb _) eqn:Hg; [done|]. apply leading_guard in Hg as [??]. case_match; [|done]. by intros [= <-].
Qed.

(** Nothing is committed anywhere beyond the index of a confirmed read when it begins. *)
Lemma read_index_bound c1 c2 h1 i n1 n2 r1 t readIndex start x :
  Safe peers sm0 c1 h1 -> Reads c1 h1 -> nodes c1 !! i = Some n1 ->
  confirmLeadership_begin (env_of n1 0) (nd_raft n1) = (r1, inl (t, readIndex, start)) -> clock_advanced c1 i t start ->
  runs (mkCluster (<[i := n1 <| nd_raft := r1 |>]> (nodes c1)) (net c1 ++ [])) c2 ->
  nodes c2 !! i = Some n2 -> confirmLeadership_check t readIndex start (nd_raft n2) = Some (inl x) ->
  exists h2, Safe peers sm0 c2 h2 /\ evolves h1 h2 /\ x = readIndex /\ forall y, Past y c1 h1 -> y <= readIndex.
Proof.
  intros HS1 HR1 Hi Hb Hclk Hr Hi2 Hck. pose proof (confirm_begin_inv _ _ _ _ _ _ Hb) as (Hl & Hno & -> & -> & _).
  apply confirm_check_inv in Hck as (Hl2 & Ht2 & Hq & ->). pose proof (sf_nodes _ _ _ _ HS1 _ _ Hi) as Hn1.
  destruct (rr_leader _ _ _ _ (ni_rel _ _ _ _ _ Hn1) Hl) as ((el & Hel & Hli) & _).
  destruct (Fenced_runs c1 c2 h1 i (rterm (nd_raft n1)) start el) as (h2 & HS2 & Hev & HF); try done.
  { by eapply clock_advanced_Fenced. }
  { eapply rtc_l; [|exact Hr]. eapply step_node; [done|]. by eapply step_read. }
  exists h2. split_and!; try done. intros y Hy.
  assert (Hla : latest h1 (rterm (nd_raft n1))).
  { apply (confirmed_latest h1 c2 h2 i n2 _ start); try done; [apply HS1|]. by rewrite (rr_term _ _ _ _ (ni_rel _ _ _ _ _ Hn1)). }
  pose proof (pa_bound _ _ _ Hy i n1 Hi Hl Hla) as Hbd. unfold bound in Hbd. lia.
Qed.

(** A read that began when a leader noted its commit index, that was confirmed by a majority's answers to requests
    sent after that, and that was then served once that index was applied, on a clock that had advanced since the last
    request answered: nothing had been committed anywhere beyond that index at any moment [c] before the read
    began, and the state it sees is that of one log all replicas agree on then and now, up to an index that covers
    every write acknowledged before [c], by any node, whether or not it has crashed since. *)
Lemma confirmed_reads c0 c c1 c2 c3 i n1 n2 n3 r1 t readIndex start x :
  initial peers config sm0 c0 -> runs c0 c -> runs c c1 -> nodes c1 !! i = Some n1 ->
  confirmLeadership_begin (env_of n1 0) (nd_raft n1) = (r1, inl (t, readIndex, start)) -> clock_advanced c1 i t start ->
  runs (mkCluster (<[i := n1 <| nd_raft := r1 |>]> (nodes c1)) (net c1 ++ [])) c2 ->
  nodes c2 !! i = Some n2 -> confirmLeadership_check t readIndex start (nd_raft n2) = Some (inl x) ->
  runs c2 c3 -> nodes c3 !! i = Some n3 -> waitApplied_check x (nd_raft n3) = true ->
  (forall j nj, nodes c !! j = Some nj -> commitIndex (nd_raft nj) <= x) /\
  exists L m, contiguous 0 L /\ x <= m <= commitIndex (nd_raft n3) /\ applied sm0 (pre m L) (machine (nd_raft n3)) /\
    (forall j nj, nodes c !! j = Some nj -> agrees sm0 L nj) /\ (forall j nj, nodes c3 !! j = Some nj -> agrees sm0 L nj) /\
    forall j nj id out, nodes c !! j = Some nj -> (id, PResult out) ∈ replies (nd_raft nj) ->
      answered config sm0 c0 c j (pre m L) id out.
Proof.
  intros Hini H0' H1' Hi Hb Hclk H2' Hi2 Hck H3' Hi3 Hw. destruct (Reads_runs c0 c Hini H0') as (h & HS & HR & HT).
  destruct (Reads_continue c0 c c1 h HS HR HT H0' H1') as (h1 & HS1 & Hev1 & HR1 & _ & HP).
  destruct (read_index_bound c1 c2 h1 i n1 n2 r1 t readIndex start x) as (h2 & HS2 & Hev2 & -> & Hbd'); try done.
  assert (Hbd : forall j nj, nodes c !! j = Some nj -> commitIndex (nd_raft nj) <= readIndex).
  { intros j nj Hj. apply Hbd', HP, announced_Past; [done..|]. left. exists j, nj. split; [done|by left]. }
  split; [done|].
  destruct (Safe_steps peers config sm0 peers_nodup peers_named config_id config_peers _ _ _ HS2 H3') as (h3 & HS3 & Hev3).
  destruct (chosen_log peers sm0 c c3 h h3 HS HS3) as (L & HcL & HL1 & HL3); [by etrans; [|etrans]|].
  destruct (ag_machine _ _ _ (HL3 _ _ Hi3)) as (m & Hm1 & Hm2 & _ & Hm). unfold waitApplied_check in Hw. apply N.leb_le in Hw.
  exists L, m. split_and!; [done|lia|lia|done|intros j nj Hj; by apply (HL1 j nj)|done|]. intros j nj id out Hj Hin.
  eapply answered_later; [by apply (to_replies _ _ _ _ _ (HT _ _ Hj))|done|].
  destruct (HL1 _ _ Hj) as [HPre _]. apply Hbd in Hj as Hle. unfold chosen in *. pose proof (rr_commit _ _ _ _ (ni_rel _ _ _ _ _ (sf_nodes _ _ _ _ HS _ _ Hj))) as Hc.
  apply (take_prefix_mono (N.to_nat m)) in HPre. rewrite take_ge in HPre; [done|]. unfold pre. rewrite length_take. lia.
Qed.
End Reads.

(** ** A read in the example run *)

(** The first critical section of a read, in a group. *)
Definition begin_read {S SM} `{Storage S} (c : Cluster S SM) (i : string) : option (Cluster S SM * (N * N * Z)) :=
  n ← nodes c !! i;
  match confirmLeadership_begin (env_of n 0) (nd_raft n) with
  | (r1, inl x) => Some (mkCluster (<[i := n <| nd_raft := r1 |>]> (nodes c)) (net c ++ []), x)
  | _ => None
  end.

Definition clock_advanced_b {S SM} (c : Cluster S SM) (i : string) (t : N) (start : Z) : bool :=
  forallb (fun m => match m_body m with
    | MAppendResp s req _ => negb (ae_Term req =? t) || (s <? start)%Z
    | MSnapResp s _ req _ => negb (is_Term req =? t) || (s <? start)%Z
    | _ => true
    end) (net c) &&
  match nodes c !! i with
  | Some n => forallb (fun p => (mapGetTime (ackedSendTime (nd_raft n)) p <? start)%Z) (others (nd_raft n))
  | None => true
  end.

Lemma clock_advanced_b_sound {S SM} (c : Cluster S SM) i t start : clock_advanced_b c i t start = true -> clock_advanced c i t start.
Proof.
  intros [Hn Ha]%andb_prop. rewrite forallb_forall in Hn. split.
  - intros m Hm%list_elem_of_In%Hn. destruct (m_body m); try done; intros <-; rewrite N.eqb_refl in Hm; by apply Z.ltb_lt in Hm.
  - intros n p Hi Hp. rewrite Hi in Ha. rewrite forallb_forall in Ha. apply list_elem_of_In, Ha in Hp. by apply Z.ltb_lt.
Qed.

(** The leader's clock moves on; it begins a read, and [b] answers a heartbeat. *)
Definition demo_late : Cluster MemStorage bytes :=
  default demo_start (run_schedule demo_written [("a", AClock 500000000)]).
Definition demo_asked : Cluster MemStorage bytes := default demo_start (fst <$> begin_read demo_late "a").
Definition demo_confirmed : Cluster MemStorage bytes :=
  default demo_start (run_schedule demo_asked [("a", AReplicate "b"); ("a", ASend 0); ("b", AAppend 0 10); ("a", AAppendAnswer 0 11)]).

Lemma demo_read_runs :
  run_schedule demo_written [("a", AClock 500000000)] = Some demo_late /\
  begin_read demo_late "a" = Some (demo_asked, (1, 2, 500000000%Z)) /\
  clock_advanced_b demo_late "a" 1 500000000 = true /\
  run_schedule demo_asked [("a", AReplicate "b"); ("a", ASend 0); ("b", AAppend 0 10); ("a", AAppendAnswer 0 11)] = Some demo_confirmed /\
  (confirmLeadership_check 1 2 500000000 ∘ nd_raft <$> node_of demo_asked "a") = Some None /\
  (confirmLeadership_check 1 2 500000000 ∘ nd_raft <$> node_of demo_confirmed "a") = Some (Some (inl 2)) /\
  (waitApplied_check 2 ∘ nd_raft <$> node_of demo_confirmed "a") = Some true.
Proof. vm_compute. split_and!; reflexivity. Qed.

(** Before the clock moves on, the answers to requests sent before the read began
    already confirm it: the comparison of times is not strict. *)
Lemma same_instant_confirms :
  (snd <$> begin_read demo_written "a") = Some (1, 2, 400000000%Z) /\
  (confirmLeadership_check 1 2 400000000 ∘ nd_raft <$> node_of (default demo_start (fst <$> begin_read demo_written "a")) "a") = Some (Some (inl 2)).
Proof. vm_compute. split; reflexivity. Qed.

#[global] Opaque demo_late demo_asked demo_confirmed.

Lemma begin_read_inv {S SM} `{Storage S} (c c' : Cluster S SM) i x :
  begin_read c i = Some (c', x) ->
  exists n r1, nodes c !! i = Some n /\ confirmLeadership_begin (env_of n 0) (nd_raft n) = (r1, inl x) /\
    c' = mkCluster (<[i := n <| nd_raft := r1 |>]> (nodes c)) (net c ++ []).
Proof.
  unfold begin_read. intros (n & Hn & Hb)%bind_Some. destruct (confirmLeadership_begin _ _) as [r1 [y|]] eqn:Hc; [|done].
  injection Hb as <- <-. by exists n, r1.
Qed.

Lemma node_of_inv {A} (f : Raft MemStorage bytes -> A) c i y :
  (f ∘ nd_raft <$> node_of c i) = Some y -> exists n, nodes c !! i = Some n /\ f (nd_raft n) = y.
Proof. unfold node_of. intros (n & Hn & Hy)%fmap_Some. by exists n. Qed.
