(* ===== verification/NoPanic.v ===== *)
(** * No replica ever panics (internal/raft)

    Raft's code panics where it finds its own state impossible: a slice of the log out of range, an entry appended out of order, a
    truncation inside the snapshot, a leader without the function that cancels its replicators, a snapshot that cannot be restored,
    a quorum larger than the group. In every run of a group, whatever is lost, repeated or reordered and whoever crashes, none of
    these states occurs: every critical section of every replica returns, and what a crash leaves on disk can always be started from. *)

From S2P Require Import Prelude Types RaftLog Storage Raft RaftFacts Cluster Run Election LogCore LogFacts Agree AgreeSteps Agreement Acknowledge ReadIndex.

(** ** Computations that return *)
Definition total {A} (m : res A) : Prop := exists a, m = Ok a.

Lemma total_Ok {A} (a : A) : total (Ok a).
Proof. by exists a. Qed.

Lemma total_bind {A B} (m : res A) (f : A -> res B) : total m -> (forall a, m = Ok a -> total (f a)) -> total (m ≫= f).
Proof. intros [a Ha] Hf. destruct (Hf a Ha) as [b Hb]. exists b. apply bind_Ok. eauto. Qed.

Lemma total_fmap {A B} (f : A -> B) (m : res A) : total m -> total (f <$> m).
Proof. intros [a ->]. apply total_Ok. Qed.

#[local] Hint Extern 0 (total _) => simple apply total_Ok || (eexists; reflexivity) : core.

(** The outermost conditional. *)
Ltac cond H := match goal with |- total (if ?b then _ else _) => destruct b eqn:H end.

(** ** The critical sections *)
Section Total.
Context {S SM : Type} `{StorageLaws S} `{StateMachine SM}.
#[local] Abbreviation Raft := (Raft S SM).
Implicit Types r : Raft.

(** A leader can be cancelled. *)
Definition armed r : Prop := state r = Leader -> leaderCancel r = true.

(** The group is large enough for its quorum. *)
Definition quorate r : Prop := (1 <= quorum r <= 1 + length (others r))%nat.

Lemma quorate_same r r' : same_cfg r r' -> quorate r -> quorate r'.
Proof. unfold quorate. by intros (_ & -> & -> & _). Qed.

Lemma persist_total hs es r : storage_ok (storage r) -> save_pre (durable (storage r)) es -> total (persistLocked hs es r).
Proof. intros Hok Hpre. unfold persistLocked. edestruct (save_durable (storage r)) as (st & -> & _); done. Qed.

Lemma persist_hs_total r0 r : node_ok r0 -> storage r = storage r0 -> total (persistLocked true [] r).
Proof. intros Hok Hs. by apply persist_total; [rewrite Hs; apply Hok|]. Qed.

Lemma append_total l es : contiguous (lastIndex l) es -> total (append l es).
Proof. intros Hc. rewrite append_contiguous by done. done. Qed.

(** Entries that continue a prefix of the log can be saved. *)
Lemma persist_entries_total l es r :
  node_ok r -> contiguous (lastIndex l) es -> lastIndex l <= lastIndex (rlog r) ->
  total (persistLocked false es (r <| rlog := l <| entries := entries l ++ es |> |>)).
Proof.
  intros Hok Hc Hle. apply persist_total; [apply Hok|]. destruct es as [|e es]; [done|].
  pose proof Hc as Hc'. apply contiguous_cons in Hc' as [He _]. pose proof (nk_last _ Hok).
  split; [cbn; lia|]. by replace (ent_Index e - 1) with (lastIndex l) by lia.
Qed.

Lemma becomeFollower_total env t l r : node_ok r -> armed r -> total (becomeFollowerLocked env t l r).
Proof.
  intros Hok Ha. unfold becomeFollowerLocked. apply total_bind.
  - case_match; [|done]. by apply (persist_hs_total r).
  - intros r1 H1'. assert (Hc : leaderCancel r1 = leaderCancel r).
    { case_match; [|by inv_ok]. apply persist_seat in H1'. unfold seat in H1'. cbn in H1'. congruence. }
    apply total_bind; [|done]. destruct (bool_decide (state r = Leader)) eqn:Hl; [|done]. apply bool_decide_eq_true in Hl. cbn. by rewrite Hc, Ha.
Qed.

Lemma stepDown_total env (b : bool) t l r : node_ok r -> armed r -> total (if b then becomeFollowerLocked env t l r else Ok r).
Proof. intros Hok Ha. destruct b; [by apply becomeFollower_total|done]. Qed.

Lemma advanceCommit_total r : quorate r -> total (advanceCommitLocked r).
Proof.
  intros Hq. unfold advanceCommitLocked. apply total_bind; [|intros c _; repeat case_match; done].
  unfold commitCandidate. destruct (Nat.ltb_spec (length (lastIndex (rlog r) :: (mapGet (matchIndex r) <$> others r))) (quorum r)) as [Hlt|Hge].
  { cbn in Hlt. rewrite length_fmap in Hlt. unfold quorate in Hq. lia. }
  destruct (lookup_lt_is_Some_2 (merge_sort N.le (lastIndex (rlog r) :: (mapGet (matchIndex r) <$> others r)))
    (length (lastIndex (rlog r) :: (mapGet (matchIndex r) <$> others r)) - quorum r)) as [c Hc].
  - rewrite (Permutation_length (merge_sort_Permutation _ _)). unfold quorate in Hq. cbn. lia.
  - exists c. by apply or_panic_Ok.
Qed.

Lemma tick_total env r : node_ok r -> armed r -> total (tick env r).
Proof. intros Hok Ha. unfold tick. repeat case_match; try done. apply total_bind; [by apply becomeFollower_total|done]. Qed.

(** *** Elections *)
Lemma campaign_elect_total env r : node_ok r -> total (campaign_elect env r).
Proof. intros Hok. unfold campaign_elect. apply total_bind; [by apply (persist_hs_total r)|done]. Qed.

Lemma campaign_begin_total env skip r : node_ok r -> total (campaign_begin env skip r).
Proof. intros Hok. unfold campaign_begin. repeat case_match; try done. apply campaign_elect_total. by apply (node_ok_ext r). Qed.

Lemma campaign_prevoted_total env req won r : node_ok r -> total (campaign_prevoted env req won r).
Proof. intros Hok. unfold campaign_prevoted. repeat case_match; try done. by apply campaign_elect_total. Qed.

Lemma becomeLeader_total env r : node_ok r -> quorate r -> total (becomeLeaderLocked env r).
Proof.
  intros Hok Hq. unfold becomeLeaderLocked.
  destruct (leaderState_spec env (lastIndex (rlog r) + 1) r Hok) as (Hok0 & Hc0 & Ht0 & _ & _ & Hl0 & _).
  apply (quorate_same _ _ Hc0) in Hq. revert Hok0 Hq Ht0 Hl0. generalize (leaderState env (lastIndex (rlog r) + 1) r) as r0.
  intros r0 Hok0 Hq Ht0 Hl0. cbn zeta. rewrite Hl0, Ht0.
  assert (Hc : contiguous (lastIndex (rlog r)) [mkEntry (lastIndex (rlog r) + 1) (rterm r) ENTRY_NOOP []]).
  { apply contiguous_cons. split; [done|apply contiguous_nil]. }
  rewrite append_contiguous by done. apply total_bind; [done|]. intros l [= <-].
  apply total_bind; [apply persist_entries_total; [done|done|by rewrite Hl0]|]. intros r1 Hp.
  apply total_bind; [|done]. apply advanceCommit_total.
  unfold persistLocked in Hp. destruct (Save _ _ _) as [st []]; [|done]. by injection Hp as <-.
Qed.

Lemma campaign_voted_total env req won r : node_ok r -> quorate r -> total (campaign_voted env req won r).
Proof. intros Hok Hq. unfold campaign_voted. repeat case_match; try done. apply total_bind; [by apply becomeLeader_total|done]. Qed.

Lemma vote_answer_total env resp r : node_ok r -> armed r -> total (vote_answer env resp r).
Proof. intros Hok Ha. apply total_bind; [by apply stepDown_total|done]. Qed.

Lemma HandleRequestVote_total env req r : node_ok r -> armed r -> total (HandleRequestVote env req r).
Proof.
  intros Hok Ha. unfold HandleRequestVote. case_match; [done|]. case_match; [done|]. apply total_bind; [by apply stepDown_total|].
  intros r1 Hd. pose proof (stepDown_if_safe _ _ _ _ _ _ Hok Hd) as (Hok1 & _). cbn zeta.
  cond Hv; [done|]. apply total_bind; [by apply (persist_hs_total r1)|done].
Qed.

(** *** Replication *)
Lemma slice_total l lo hi : hi <= lastIndex l -> snapIndex l < lo \/ hi < lo -> total (slice l lo hi).
Proof.
  intros Hhi Hlo. unfold slice. destruct (N.ltb_spec hi lo); [rewrite orb_true_r; done|].
  destruct (N.leb_spec lo (snapIndex l)); [lia|]. destruct (N.ltb_spec (lastIndex l) hi); [lia|]. done.
Qed.

Lemma replicateOnce_send_total ctxErr peer t r : total (replicateOnce_send ctxErr peer t r).
Proof.
  unfold replicateOnce_send. case_match; [done|]. case_match eqn:Hn; [done|]. apply N.leb_gt in Hn.
  apply total_bind; [|done]. apply slice_total; [lia|by left].
Qed.

Lemma recordAck_quorate peer sentAt r : quorate r -> quorate (recordAckLocked peer sentAt r).
Proof. unfold recordAckLocked. by case_match. Qed.

Lemma replicateOnce_recv_total env peer t req sentAt resp r :
  node_ok r -> armed r -> quorate r -> total (replicateOnce_recv env peer t req sentAt resp r).
Proof.
  intros Hok Ha Hq. unfold replicateOnce_recv. case_match; [apply total_bind; [by apply becomeFollower_total|done]|].
  case_match; [done|]. apply (recordAck_quorate peer sentAt) in Hq. revert Hq. generalize (recordAckLocked peer sentAt r) as r1. intros r1 Hq.
  case_match; [|done]. apply total_bind; [|done]. case_match; [|done]. by apply advanceCommit_total.
Qed.

Lemma sendSnapshot_recv_total env peer t meta sentAt resp r :
  node_ok r -> armed r -> quorate r -> total (sendSnapshot_recv env peer t meta sentAt resp r).
Proof.
  intros Hok Ha Hq. unfold sendSnapshot_recv. case_match; [apply total_bind; [by apply becomeFollower_total|done]|].
  case_match; [done|]. apply (recordAck_quorate peer sentAt) in Hq. revert Hq. generalize (recordAckLocked peer sentAt r) as r1. intros r1 Hq.
  apply total_bind; [|done]. case_match; [|done]. by apply advanceCommit_total.
Qed.

(** What is left to append continues what is left of the log. *)
Lemma findFresh_total es : forall p l, contiguous p es -> snapIndex l <= p <= lastIndex l ->
  exists l' fresh, findFresh l es = Ok (l', fresh) /\ contiguous (lastIndex l') fresh /\ lastIndex l' <= lastIndex l.
Proof.
  induction es as [|e es IH]; intros p l Hc Hp; cbn.
  - exists l, []. split_and!; [done|apply contiguous_nil|lia].
  - pose proof Hc as Hc'. apply contiguous_cons in Hc' as [He Hc'].
    destruct (term l (ent_Index e)) as [t|] eqn:Ht.
    + assert (Hr : snapIndex l <= ent_Index e <= lastIndex l) by (apply term_range; eauto).
      destruct (t =? ent_Term e); [apply (IH (p + 1)); [done|lia]|].
      unfold truncateFrom. destruct (N.leb_spec (ent_Index e) (snapIndex l)); [lia|]. destruct (N.ltb_spec (lastIndex l) (ent_Index e)); [lia|].
      eexists _, _. split_and!; [done| |].
      * unfold lastIndex in *. cbn. rewrite lenN_take. replace (snapIndex l + _) with p by lia. done.
      * unfold lastIndex in *. cbn. rewrite lenN_take. lia.
    + assert (Hr : ~ (snapIndex l <= ent_Index e <= lastIndex l)) by (rewrite <- term_range, Ht; by intros [? ?]).
      exists l, (e :: es). split_and!; [done| |lia]. by replace (lastIndex l) with p by lia.
Qed.

Lemma appendVerified_total req es p r :
  node_ok r -> contiguous p es -> snapIndex (rlog r) <= p <= lastIndex (rlog r) -> total (appendVerified req es r).
Proof.
  intros Hok Hc Hp. unfold appendVerified. destruct (findFresh_total es p (rlog r) Hc Hp) as (l & fresh & -> & Hf & Hle).
  apply total_bind; [done|]. intros ? [= <-]. apply total_bind; [|done]. destruct fresh as [|e fresh]; [done|].
  rewrite append_contiguous by done. apply total_bind; [done|]. intros l' [= <-]. by apply persist_entries_total.
Qed.

Lemma HandleAppendEntries_total env req r :
  node_ok r -> armed r -> contiguous (ae_PrevLogIndex req) (ae_Entries req) -> total (HandleAppendEntries env req r).
Proof.
  intros Hok Ha Hc. unfold HandleAppendEntries. case_match; [done|]. apply total_bind; [by apply stepDown_total|]. intros r1 Hd.
  pose proof (stepDown_if_safe _ _ _ _ _ _ Hok Hd) as (Hok1 & _). set (r2 := resetElectionTimerLocked _ _).
  assert (Hok2 : node_ok r2) by by apply (node_ok_ext r1). clearbody r2. cbn zeta.
  destruct (N.ltb_spec (ae_PrevLogIndex req) (snapIndex (rlog r2))) as [Hps|Hps]; cbn [andb].
  - cond Hg; [done|]. cond Hl; [done|]. cond Ht; [done|]. apply N.ltb_ge in Hl.
    apply (appendVerified_total _ _ (snapIndex (rlog r2))); [done| |lia].
    apply (contiguous_drop _ _ (N.to_nat (snapIndex (rlog r2) - ae_PrevLogIndex req))) in Hc. rewrite N2Nat.id in Hc.
    by replace (ae_PrevLogIndex req + _) with (snapIndex (rlog r2)) in Hc by lia.
  - cond Hl; [done|]. cond Ht; [done|]. apply N.ltb_ge in Hl. by apply (appendVerified_total _ _ (ae_PrevLogIndex req)).
Qed.

Lemma HandleInstallSnapshot_total env req r : node_ok r -> armed r -> total (HandleInstallSnapshot env req r).
Proof.
  intros Hok Ha. unfold HandleInstallSnapshot. case_match; [done|]. apply total_bind; [by apply stepDown_total|]. intros r1 Hd.
  pose proof (stepDown_if_safe _ _ _ _ _ _ Hok Hd) as (Hok1 & _). cbn zeta. cond Hg; [done|].
  match goal with |- context [SaveSnapshot ?st ?m ?d ?b] => destruct (snapshot_durable st m d b (nk_storage _ Hok1)) as (st' & -> & _) end. done.
Qed.

(** *** Proposals *)
Lemma proposalEntries_contiguous first t batch : 0 < first -> contiguous (first - 1) (proposalEntries first t batch).
Proof.
  intros Hf k e. unfold proposalEntries. rewrite list_lookup_imap. destruct (batch !! k); [|done]. cbn. intros [= <-]. cbn. lia.
Qed.

Lemma appendProposals_total batch r : node_ok r -> quorate r -> total (appendProposals batch r).
Proof.
  intros Hok Hq. unfold appendProposals. case_match; [done|]. cbn zeta.
  assert (Hc : contiguous (lastIndex (rlog r)) (proposalEntries (lastIndex (rlog r) + 1) (rterm r) batch)).
  { pose proof (proposalEntries_contiguous (lastIndex (rlog r) + 1) (rterm r) batch ltac:(lia)) as Hc.
    by replace (lastIndex (rlog r) + 1 - 1) with (lastIndex (rlog r)) in Hc by lia. }
  rewrite append_contiguous by done. apply total_bind; [done|]. intros l [= <-].
  apply total_bind; [by apply persist_entries_total|]. intros r1 Hp. apply advanceCommit_total.
  unfold persistLocked in Hp. destruct (Save _ _ _) as [st []]; [|done]. by injection Hp as <-.
Qed.
Lemma filter_ne_length (i : string) (l : list string) : NoDup l -> (length l <= 1 + length (filter (fun p => p <> i) l))%nat.
Proof.
  induction 1 as [|x l Hx Hnd IH]; [cbn; lia|]. rewrite filter_cons. destruct (decide (x <> i)) as [|Hne]; cbn [length]; [lia|].
  apply dec_stable in Hne. subst x. rewrite filter_ne_all by done. cbn. lia.
Qed.

Lemma fits_quorate peers i r : NoDup peers -> i ∈ peers -> fits peers i r -> quorate r.
Proof.
  intros Hnd Hi (_ & Ho & Hq). unfold quorate. rewrite Hq, Ho.
  pose proof (filter_ne_length i peers Hnd) as Hlen.
  assert (0 < length peers)%nat by (destruct peers; [by apply not_elem_of_nil in Hi|cbn; lia]).
  pose proof (Nat.div_lt (length peers) 2). lia.
Qed.

End Total.

(** ** What holds in every run *)
Section Ready.
Context {S SM : Type} `{StorageLaws S} `{StateMachine SM}.
Context (peers : list string) (config : string -> Config) (sm0 : SM) `{!SnapshotLaw sm0}.
Context (peers_nodup : NoDup peers) (peers_named : "" ∉ peers).
Context (config_id : forall i, ID (config i) = i) (config_peers : forall i, Peers (config i) = peers).

#[local] Abbreviation Raft := (Raft S SM).
#[local] Abbreviation NodeSt := (NodeSt S SM).
#[local] Abbreviation Cluster := (Cluster S SM).
#[local] Abbreviation runs := (rtc (step config sm0)).
Implicit Types (r : Raft) (n : NodeSt).

(** The index up to which the log may be compacted: the applier's, or that of the snapshot it is about to restore. *)
Definition restores (pc : applierPC) r : N :=
  match pendingSnapshot r, pc with
  | Some snap, _ => is_LastIncludedIndex snap
  | None, (ApplierRestoring snap | ApplierRestored snap) => N.max (lastApplied r) (is_LastIncludedIndex snap)
  | None, _ => lastApplied r
  end.

(** The log is not compacted past what is or will be applied, the applier never works on an empty batch, and its snapshots are of
    what was applied. *)
Definition covered (pc : applierPC) r : Prop :=
  snapIndex (rlog r) <= restores pc r /\
  match pc with
  | ApplierApplying es | ApplierApplied es _ => es <> []
  | ApplierSnapshotting k | ApplierSaving k _ | ApplierSaved k _ _ | ApplierCompacting k _ => k <= lastApplied r
  | _ => True
  end.

Record ready (i : string) n : Prop := {
  ry_config : setDefaults (config i) = Some (cfg (nd_raft n));
  ry_armed : armed (nd_raft n);
  ry_covered : covered (nd_applier n) (nd_raft n);
}.

(** Each step leaves the applier and the snapshots alone, is the applier's, or installs a snapshot; none changes the configuration. *)
Definition phase (ms : list Msg) n n' : Prop :=
  (fixed (nd_raft n') = fixed (nd_raft n) /\ nd_applier n' = nd_applier n) \/
  (exists r' pc, applier_step (nd_applier n) (nd_raft n) = Ok (r', pc) /\ n' = n <| nd_raft := r' |> <| nd_applier := pc |>) \/
  (exists env src sentAt meta req r' resp, mkMsg src (ID (cfg (nd_raft n))) (MSnap sentAt meta req) ∈ ms /\
    HandleInstallSnapshot env req (nd_raft n) = Ok (r', resp) /\ n' = n <| nd_raft := r' |>).

Lemma node_step_phase V i ms n n' out :
  local_ok peers i n -> Forall (msg_ok peers V) ms -> node_step ms n n' out -> cfg (nd_raft n') = cfg (nd_raft n) /\ phase ms n n'.
Proof.
  intros Hl Hms Hstep. pose proof (lo_node _ _ _ Hl) as Hok.
  assert (Hquiet : forall n1, safe_step (nd_raft n) (nd_raft n1) -> fixed (nd_raft n1) = fixed (nd_raft n) -> nd_applier n1 = nd_applier n ->
    cfg (nd_raft n1) = cfg (nd_raft n) /\ phase ms n n1) by (intros n1 (_ & (Hc & _) & _) Hf Hp; split; [done|by left]).
  destruct Hstep as [t ?|rnd r' started Ht|rnd skip r' pc Hc Ht|pc req peer answers Hc|rnd peer req resp r' g Hm Ht
    |rnd peer req resp r' g pc answers Hm Ht|rnd req answers won r' pc Hc Hw Ht|rnd req answers won r' pc Hc Hw Ht
    |answers Hc|rnd src req r' resp Hm Ht|src req r' resp started Hm Ht|ctxErr peer t act Hp Ht|peer req Hp
    |peer t req meta Hp Hld Htm Ht|rnd src sentAt req r' resp Hm Ht|rnd peer sentAt req resp r' again Hm Ht
    |rnd src sentAt meta req r' resp Hm Ht|rnd peer sentAt meta req resp r' again Hm Ht|batch r' Hb Ht|r' o Ht
    |r' pc Ht|target r' t Ht|t target req Hp Ht|t target Hp|];
    try (split; [done|by left]).
  - apply Hquiet; [by eapply tick_safe|by eapply tick_fixed|done].
  - apply Hquiet; [by apply campaign_begin_safe in Ht as [? _]|by eapply campaign_begin_fixed|done].
  - apply Hquiet; [by eapply vote_answer_safe|by eapply vote_answer_fixed|done].
  - apply Hquiet; [by eapply vote_answer_safe|by eapply vote_answer_fixed|done].
  - apply Hquiet; [by apply campaign_prevoted_safe in Ht as [? _]|by eapply campaign_prevoted_fixed|done].
  - apply campaign_voted_fixed in Ht as Hf; [|done]. split; [|by left].
    by apply campaign_voted_safe in Ht as (_ & _ & (Hc' & _) & _).
  - apply Hquiet; [|by eapply HandleRequestVote_fixed|done].
    rewrite Forall_forall in Hms. apply Hms in Hm. cbn in Hm. apply HandleRequestVote_safe in Ht as [? _]; [done|done|]. intros E. apply peers_named. by rewrite <- E.
  - revert Ht. unfold HandleTimeoutNow. case_match; intros [= <- _ <-]; (split; [done|by left]).
  - destruct act; (split; [done|by left]).
  - apply Hquiet; [by eapply HandleAppendEntries_safe|by eapply HandleAppendEntries_fixed|done].
  - apply Hquiet; [by eapply replicateOnce_recv_safe|by eapply replicateOnce_recv_fixed|done].
  - pose proof (HandleInstallSnapshot_safe _ _ _ _ _ Hok Ht) as (_ & (Hc & _) & _). split; [done|]. right. right. eauto 12.
  - apply Hquiet; [by eapply sendSnapshot_recv_safe|by eapply sendSnapshot_recv_fixed|done].
  - apply Hquiet; [by eapply appendProposals_safe|by eapply appendProposals_fixed|done].
  - revert Ht. unfold confirmLeadership_begin. repeat case_match; intros [= <- _]; (split; [done|by left]).
  - split; [|right; left; by exists r', pc]. by destruct (applier_step_safe _ _ _ _ Hok (lo_applier _ _ _ Hl) Ht) as [(_ & (Hc & _) & _) _].
  - revert Ht. unfold transfer_begin. repeat case_match; intros Ht; simplify_eq; (split; [done|by left]).
  - cbn. unfold transfer_cleanup. case_match; (split; [done|by left]).
  - cbn. unfold Stop. case_match; (split; [done|by left]).
Qed.
Lemma covered_fixed pc r r' : fixed r' = fixed r -> covered pc r -> covered pc r'.
Proof. unfold fixed, covered, restores. intros [= E1 _ E3 _ E5]. rewrite E1, E3, E5. done. Qed.

Lemma covered_install env req pc r r' resp :
  node_ok r -> covered pc r -> HandleInstallSnapshot env req r = Ok (r', resp) -> snapIndex (rlog r) <= commitIndex r -> covered pc r'.
Proof.
  intros Hok Hc Hb Hsc. apply HandleInstallSnapshot_cases in Hb as [(_ & -> & _)|(r1 & _ & Hr & _ & _ & _ & _ & _ & Hb)]; [done| |done].
  pose proof (covered_fixed pc r r1 (rest_fixed _ _ Hr) Hc) as Hc1.
  destruct Hb as [(_ & ->)|(st & dl & Hlt & _ & _ & ->)]; [done|]. destruct Hc1 as [_ Hb]. split; [|done]. unfold restores. cbn.
  assert (Hs1 : snapIndex (rlog r1) <= commitIndex r1) by (unfold rest in Hr; congruence).
  destruct (bool_decide _); [rewrite compactTo_snap; lia|done].
Qed.

Lemma slice_nonempty l lo hi : lo <= hi -> slice l lo hi <> Ok [].
Proof.
  intros Hle Hs. unfold slice in Hs. rewrite (proj2 (N.ltb_ge hi lo) Hle), orb_false_r in Hs.
  destruct (N.leb_spec lo (snapIndex l)); [done|]. destruct (N.ltb_spec (lastIndex l) hi) as [|Hhi]; [done|]. injection Hs as Hs.
  apply (f_equal length) in Hs. rewrite length_take, length_drop in Hs. unfold lastIndex, lenN in Hhi. cbn in Hs. lia.
Qed.

Lemma covered_applier F pc r r' pc' :
  applier_rel sm0 F pc r -> covered pc r -> applier_step pc r = Ok (r', pc') -> covered pc' r'.
Proof.
  intros [[Hre _] Hp _ _ Hpc] [Hs Hb] Ht. unfold covered, restores in *. destruct pc as [|snap|snap|es|es results|k|k data|k t data|k t]; cbn in Ht.
  - unfold applier_wake in Ht. case_match; [by inv_ok|]. destruct (pendingSnapshot r) as [snap|] eqn:Hps; [inv_ok; cbn; split; [lia|done]|].
    destruct (N.leb_spec (commitIndex r) (lastApplied r)) as [Hle|Hlt]; [inv_ok; by rewrite Hps|]. apply bind_Ok in Ht as (es & Hsl & Ht). inv_ok.
    rewrite Hps. split; [done|]. intros ->. apply slice_nonempty in Hsl; [done|lia].
  - apply bind_Ok in Ht as (sm & _ & Ht). inv_ok. done.
  - inv_ok. unfold applier_restored. cbn. done.
  - apply bind_Ok in Ht as ([sm outs] & _ & Ht). inv_ok. done.
  - unfold applier_finish in Ht. destruct (answerWaiters_frame (zip es results) r) as [_ Hf]. revert Hf Ht.
    generalize (foldl answerWaiter r (zip es results)) as r1. intros r1 Hf Ht. unfold fixed in Hf. injection Hf as E1 _ E3 _ E5.
    destruct (last es) as [e|]; [|done]. inv_ok. cbn. rewrite E3, E5, E1.
    match goal with |- context [if ?b then ApplierSnapshotting _ else _] => destruct b end; destruct (pendingSnapshot r); (split; [try done; lia|done || lia]).
  - inv_ok. unfold takeSnapshot_serialise. by destruct (sm_snapshot _).
  - inv_ok. unfold takeSnapshot_term. by destruct (term _ _).
  - injection Ht as Ht. unfold takeSnapshot_save in Ht. destruct (SaveSnapshot _ _ _ _) as [st []]; injection Ht as <- <-; done.
  - inv_ok. cbn. split; [|done]. rewrite compactTo_snap. destruct (pendingSnapshot r) as [snap|] eqn:Hps; [|lia].
    destruct (Hp _ eq_refl) as [Hlt _]. cbn in Hlt. lia.
Qed.
Lemma ready_step h i ms n n' out :
  node_inv peers sm0 h i n -> Forall (fun m => msg_ok peers (voted h) m /\ out_rel peers sm0 h m) ms -> ready i n -> node_step ms n n' out -> ready i n'.
Proof.
  intros Hn Hms [Hcf Har Hcov] Hst. pose proof (node_step_reading peers sm0 h i ms n n' out Hn Hst) as Hrd.
  destruct (node_step_phase (voted h) i ms n n' out) as [Hc Hph]; [apply Hn|by eapply Forall_impl; [exact Hms|intros m [? _]]|done|].
  split; [by rewrite Hc| |].
  - intros Hl. destruct (rd_leader _ _ _ _ Hrd Hl) as [[Hl0 Hle]|Hw]; [rewrite (le_cancel _ _ Hle); by apply Har|apply Hw].
  - destruct Hph as [[Hf ->]|[(r' & pc & Ht & ->)|(env & src & sentAt & meta & req & r' & resp & _ & Ht & ->)]]; cbn.
    + by eapply covered_fixed.
    + eapply covered_applier; [apply Hn|done|done].
    + eapply covered_install; [apply Hn|done|done|apply (ni_rel _ _ _ _ _ Hn)].
Qed.

Lemma boot_ready i env st r : storage_ok st -> New (config i) st sm0 = Ok (inl r) -> ready i (boot env r).
Proof.
  intros Hst Hnew. apply New_spec in Hnew as (c' & Hc & Hcf & Hl & _ & Hfo & _ & Hci & Hla & _ & _ & _ & Hp & _); [|done].
  split; cbn; [by rewrite Hcf|intros Hl'; cbn in Hl'; congruence|]. split; [|done]. unfold restores. cbn. rewrite Hp, Hla, Hci, Hl. done.
Qed.

Definition Ready (c : Cluster) : Prop := forall i n, nodes c !! i = Some n -> ready i n.

Lemma Ready_runs c0 c : initial peers config sm0 c0 -> runs c0 c -> exists h, Safe peers sm0 c h /\ Ready c.
Proof.
  intros Hini Hr. revert c Hr. apply (rtc_ind_r (fun c => exists h, Safe peers sm0 c h /\ Ready c)).
  - exists genesis. split; [by eapply initial_Safe|]. destruct Hini as (_ & _ & Hnodes). intros i n Hi.
    destruct (Hnodes _ _ Hi) as (_ & env & st & r & Hst & _ & Hnew & ->). by eapply boot_ready.
  - intros c c' _ [i n n' out Hi Hns|i n env st r Hi Hcp Hnew] (h & HS & Hh).
    + destruct (Safe_node_step peers sm0 peers_nodup peers_named c h i n n' out HS Hi Hns) as (h' & HS' & _). exists h'. split; [done|].
      intros j nj Hj. cbn in Hj. apply lookup_insert_Some in Hj as [[<- <-]|[_ Hj]]; [|by eapply Hh].
      eapply ready_step; [by apply (sf_nodes _ _ _ _ HS)|apply HS|by eapply Hh|done].
    + destruct (Safe_restart peers config sm0 peers_named config_id config_peers c h i n env st r HS Hi Hcp Hnew) as (h' & HS' & _). exists h'. split; [done|].
      destruct (crash_follows peers sm0 c h i n st HS Hi Hcp) as (_ & r1 & _ & Hok & <- & _).
      intros j nj Hj. cbn in Hj. apply lookup_insert_Some in Hj as [[<- <-]|[_ Hj]]; [|by eapply Hh]. eapply boot_ready; [apply Hok|done].
Qed.

(** ** Every critical section a node can enter *)
Inductive attempts (ms : list Msg) n : res Raft -> Prop :=
| try_tick rnd : attempts ms n (fst <$> tick (env_of n rnd) (nd_raft n))
| try_campaign rnd skip : nd_camp n = Some (CStart skip) -> attempts ms n (fst <$> campaign_begin (env_of n rnd) skip (nd_raft n))
| try_vote_answer rnd peer req resp :
    mkMsg peer (ID (cfg (nd_raft n))) (MVoteResp req resp) ∈ ms -> attempts ms n (fst <$> vote_answer (env_of n rnd) resp (nd_raft n))
| try_prevoted rnd req answers won :
    nd_camp n = Some (CCollect (PreVoting req) answers) -> attempts ms n (fst <$> campaign_prevoted (env_of n rnd) req won (nd_raft n))
| try_voted rnd req answers won :
    nd_camp n = Some (CCollect (Voting req) answers) -> attempts ms n (fst <$> campaign_voted (env_of n rnd) req won (nd_raft n))
| try_request_vote rnd src req :
    mkMsg src (ID (cfg (nd_raft n))) (MVote req) ∈ ms -> attempts ms n (fst <$> HandleRequestVote (env_of n rnd) req (nd_raft n))
| try_replicate ctxErr peer t : attempts ms n ((fun _ => nd_raft n) <$> replicateOnce_send ctxErr peer t (nd_raft n))
| try_append_entries rnd src sentAt req :
    mkMsg src (ID (cfg (nd_raft n))) (MAppend sentAt req) ∈ ms -> attempts ms n (fst <$> HandleAppendEntries (env_of n rnd) req (nd_raft n))
| try_append_answer rnd peer sentAt req resp :
    mkMsg peer (ID (cfg (nd_raft n))) (MAppendResp sentAt req resp) ∈ ms ->
    attempts ms n (fst <$> replicateOnce_recv (env_of n rnd) peer (ae_Term req) req sentAt resp (nd_raft n))
| try_install rnd src sentAt meta req :
    mkMsg src (ID (cfg (nd_raft n))) (MSnap sentAt meta req) ∈ ms -> attempts ms n (fst <$> HandleInstallSnapshot (env_of n rnd) req (nd_raft n))
| try_snapshot_answer rnd peer sentAt meta req resp :
    mkMsg peer (ID (cfg (nd_raft n))) (MSnapResp sentAt meta req resp) ∈ ms ->
    attempts ms n (fst <$> sendSnapshot_recv (env_of n rnd) peer (is_Term req) meta sentAt resp (nd_raft n))
| try_propose batch : attempts ms n (appendProposals batch (nd_raft n))
| try_applier : attempts ms n (fst <$> applier_step (nd_applier n) (nd_raft n)).

Lemma append_rel_contiguous h req : good peers h -> append_rel peers h req -> contiguous (ae_PrevLogIndex req) (ae_Entries req).
Proof.
  intros [_ [_ Hix]] Hr. rewrite (ar_entries _ _ _ Hr). apply contiguous_take.
  pose proof (contiguous_drop 0 _ (N.to_nat (ae_PrevLogIndex req)) (Hix (ae_Term req))) as Hc. by rewrite N2Nat.id in Hc.
Qed.

(** The applier is stopped by nothing but the state machine itself. *)
Lemma applier_total h i pc r :
  good peers h -> raft_rel peers h i r -> applier_rel sm0 (h_log h i) pc r -> covered pc r ->
  total (applier_step pc r) \/ exists es w, pc = ApplierApplying es /\ applyEntries (machine r) es = Panic w /\ applier_step pc r = Panic w.
Proof.
  intros Hg Hr [[Hre _] _ _ Hm Hpc] [Hs Hb]. destruct pc as [|snap|snap|es|es results|k|k data|k t data|k t]; cbn in *; try by left.
  - left. unfold applier_wake. case_match; [done|]. unfold restores in Hs. destruct (pendingSnapshot r); [done|].
    cond Hle; [done|]. apply total_bind; [|done]. apply slice_total; [|left; lia].
    rewrite (rep_lastIndex _ _ (proj1 (rr_log _ _ _ _ Hr))). apply Hr.
  - left. destruct Hpc as (sm & Hap & Hsn). unfold applier_restore.
    rewrite (snapshot_restores (pre (is_LastIncludedIndex snap) (h_log h i)) (pre (lastApplied r) (h_log h i)) sm (machine r) (is_Data snap)); try done;
      apply pre_contiguous, Hg.
  - unfold applier_apply. destruct (applyEntries (machine r) es) as [[sm outs]|w] eqn:Ha; [by left|]. right. by exists es, w.
  - left. unfold applier_finish. destruct (last es) as [e|] eqn:Hl; [done|]. by apply last_None in Hl.
Qed.

(** A replica can be started from a durable log without a gap whose snapshot can be restored. *)
Lemma New_total c c' st sm :
  setDefaults c = Some c' -> storage_ok st -> log_wf (d_log (durable st)) ->
  (forall i t data, d_snap (durable st) = Some (i, t, data) -> is_Some (sm_restore sm data)) -> exists r : Raft, New c st sm = Ok (inl r).
Proof.
  intros Hc Hst Hwf Hre. unfold New. rewrite Hc. destruct (load_durable st Hst) as (l & st' & -> & Hl & _). rewrite <- Hl in Hwf, Hre.
  destruct (match ld_HardState l with Some hs => _ | None => _ end) as [t v]. unfold durable_of, d_log, d_snapIndex in Hwf, Hre. cbn in Hwf, Hre.
  destruct (ld_SnapshotMeta l) as [m|]; cbn in *.
  - destruct (Hre _ _ _ eq_refl) as [sm' ->]. rewrite append_contiguous by (unfold lastIndex; cbn; by rewrite lenN_nil, N.add_0_r). by eexists.
  - rewrite append_contiguous by done. by eexists.
Qed.

End Ready.

