(* ===== verification/Replicator.v ===== *)
(** * Catching a follower up (runReplicator in internal/raft/replication.go)

    A leader's replicator sends to its follower for as long as there is more to send ([for r.replicateOnce(...) {}]): entries
    from the next index on, or a snapshot where they were compacted away; on a rejection it goes back with the help of the
    follower's hint. The loop always ends: an acknowledgement moves the match index forward, and between two of them the hints move the next
    index strictly back without ever passing the match index. If every call is answered it ends with a follower that holds
    the leader's log, or with the leadership lost. *)

From S2P Require Import Prelude Types RaftLog Storage Raft RaftFacts Cluster Run Election LogCore LogFacts Agree AgreeSteps Agreement Acknowledge ReadIndex NoPanic.

(** ** Logs and terms *)
Section Logs.
Context (peers : list string).
#[local] Abbreviation Hist_ok := (Hist_ok peers).

Lemma lterm_elem (F : list Entry) p : 0 < p <= lenN F -> exists e, F !! N.to_nat (p - 1) = Some e /\ lterm F p = ent_Term e /\ e ∈ pre p F.
Proof.
  intros Hp. destruct (lookup_lt_is_Some_2 F (N.to_nat (p - 1))) as [e He]; [unfold lenN in Hp; lia|].
  exists e. split_and!; [done| |].
  - unfold lterm. destruct (N.eqb_spec p 0); [lia|]. by rewrite He.
  - unfold pre. apply (list_elem_of_lookup_2 _ (N.to_nat (p - 1))). rewrite lookup_take_lt by lia. done.
Qed.

(** Up to an entry of term [t] a valid log is the log of the leader of [t]. *)
Lemma valid_upto h F p : log_valid h F -> 0 < p <= lenN F -> elected_in h (lterm F p) /\ pre p F = pre p (h_llog h (lterm F p)).
Proof.
  intros Hv Hp. destruct (lterm_elem F p Hp) as (e & He & -> & _).
  assert (Hsp : pre p F = take (N.to_nat (p - 1)) F ++ [e]).
  { unfold pre. replace (N.to_nat p) with (Datatypes.S (N.to_nat (p - 1))) by lia. by apply take_S_r. }
  destruct (Hv (take (N.to_nat (p - 1)) F) e) as [Hel Hpre]; [rewrite <- Hsp; apply pre_prefix|]. split; [done|].
  rewrite <- Hsp in Hpre. rewrite (prefix_take_eq _ _ Hpre). unfold pre. f_equal. rewrite length_take_le; [done|]. unfold lenN in Hp. lia.
Qed.

(** The same term at [p] and at a later index of another log: the logs agree up to [p]. *)
Lemma valid_same_term h F L p q :
  log_valid h F -> log_valid h L -> 0 < p <= q -> p <= lenN F -> q <= lenN L -> lterm F p = lterm L q -> pre p F = pre p L.
Proof.
  intros HF HL Hpq Hp Hq Ht. destruct (valid_upto h F p HF ltac:(lia)) as [_ ->]. destruct (valid_upto h L q HL ltac:(lia)) as [_ Hl].
  rewrite Ht. symmetry. eapply pre_le; [exact Hl|lia].
Qed.

Lemma valid_mono h F p q : Hist_ok h -> log_valid h F -> p <= q <= lenN F -> lterm F p <= lterm F q.
Proof.
  intros Hh Hv Hpq. destruct (N.eq_dec p 0) as [->|Hp]; [apply N.le_0_l|].
  destruct (lterm_elem F p ltac:(lia)) as (e & He & -> & Hin).
  replace (lterm F q) with (last_term (pre q F)).
  - apply (valid_last_term peers h); [done|eapply log_valid_prefix; [exact Hv|apply pre_prefix]|].
    destruct (pre_mono p q F ltac:(lia)) as [k Hk]. rewrite Hk. apply elem_of_app. by left.
  - assert (Hlen : lenN (pre q F) = q) by (unfold pre; rewrite lenN_take; lia).
    rewrite <- lterm_last, Hlen. eapply (lterm_pre q); [|done]. unfold pre. by rewrite take_take, Nat.min_id.
Qed.

Lemma rep_monotone h l F : Hist_ok h -> log_valid h F -> represents l F -> terms_monotone l.
Proof.
  intros Hh Hv Hr i j ti tj Hij. rewrite !(rep_term _ _ _ Hr).
  destruct (_ && _) eqn:Hi; [|done]. intros [= <-]. destruct (_ && (j <=? _)) eqn:Hj; [|done]. intros [= <-].
  apply andb_prop in Hj as [_ Hj%N.leb_le]. by apply (valid_mono h).
Qed.

(** No entry has term 0. *)
Lemma valid_positive h F p : Hist_ok h -> log_valid h F -> 0 < p <= lenN F -> 0 < lterm F p.
Proof.
  intros Hh Hv Hp. destruct (valid_upto h F p Hv Hp) as [[el Hel] _]. destruct (ho_elect _ _ Hh _ _ Hel) as (_ & Hc & _).
  destruct (ho_cand _ _ Hh _ _ _ Hc) as ([? _] & _). done.
Qed.

(** ** Going back after a rejection

    [F] is the follower's log and [L] the leader's; they agree up to [m], and the leader asked about [prev]. *)
Section Conflict.
Context (h : History) (lf ll : raftLog) (F L : list Entry) (m prev : N).
Context (Hh : Hist_ok h) (HF : log_valid h F) (HL : log_valid h L).
Context (Hrf : represents lf F) (Hrl : represents ll L) (Hwl : log_wf ll).
Context (Hm : pre m F = pre m L) (Hml : m <= lenN L) (Hmp : m <= prev) (Hpl : prev <= lenN L).

Lemma agree_length : m <= lenN F.
Proof. apply (f_equal length) in Hm. unfold pre, lenN in *. rewrite !length_take in Hm. lia. Qed.

(** The hint of a follower whose log is too short. *)
Lemma short_conflict : lastIndex lf < prev -> m < lastIndex lf + 1 <= prev.
Proof. intros Hs. rewrite (rep_lastIndex _ _ Hrf) in *. pose proof agree_length. lia. Qed.

(** The hint of a follower that has another term at [prev]. *)
Context (Hsp : snapIndex lf <= prev) (Hpf : prev <= lenN F) (Hne : lterm F prev <> lterm L prev).

Lemma conflict_later : m < prev.
Proof.
  destruct (N.lt_total m prev) as [|[He|]]; [done| |lia]. destruct Hne. eapply lterm_pre; [exact Hm|lia].
Qed.

Lemma leader_conflict : lastIndexOfTerm ll (lterm F prev) <> 0 -> m <= lastIndexOfTerm ll (lterm F prev) < prev.
Proof.
  intros Hi. pose proof conflict_later as Hlt.
  destruct (lastIndexOfTerm_greatest ll (lterm F prev)) as [[? _]|([Hi1 Hi2] & Ht & Hmax)].
  { done. }
  { by apply (rep_monotone h ll L). }
  { done. }
  set (idx := lastIndexOfTerm ll (lterm F prev)) in *. rewrite (rep_lastIndex _ _ Hrl) in Hi2.
  assert (Hti : lterm L idx = lterm F prev).
  { rewrite (rep_term _ _ _ Hrl) in Ht. destruct (_ && _); by simplify_eq. }
  split.
  - destruct (N.le_gt_cases m idx) as [|Hgt]; [done|]. destruct (N.eq_dec m 0) as [->|Hm0]; [lia|]. destruct (Hmax m Hgt).
    rewrite (rep_term _ _ _ Hrl). destruct (N.leb_spec (snapIndex ll) m); [|lia]. destruct (N.leb_spec m (lenN L)); [|lia]. cbn. f_equal.
    pose proof (valid_mono h L idx m Hh HL ltac:(lia)) as H1'. pose proof (valid_mono h F m prev Hh HF ltac:(lia)) as H2'.
    rewrite (lterm_pre m F L m Hm ltac:(lia)) in H2'. lia.
  - destruct (N.lt_ge_cases idx prev) as [|Hge]; [done|]. destruct Hne.
    apply (lterm_pre prev); [|done]. eapply (valid_same_term h F L prev idx); [done|done|lia|done|done|done].
Qed.

Lemma follower_conflict (ci := firstIndexOfTerm lf (lterm F prev) prev) :
  lastIndexOfTerm ll (lterm F prev) = 0 -> 0 < ci <= prev /\ (m < ci \/ ci <= snapIndex ll).
Proof.
  intros Hi. pose proof conflict_later as Hlt. destruct (N.eq_dec prev (snapIndex lf)) as [He|Hns].
  { assert (ci = prev) as ->; [|lia]. subst ci. unfold firstIndexOfTerm. destruct (N.to_nat prev); [done|]. cbn [firstIndexOfTerm_loop].
    destruct (N.ltb_spec (snapIndex lf + 1) prev); [lia|done]. }
  destruct (firstIndexOfTerm_least lf (lterm F prev) prev) as (Hr & Ht & _).
  { by apply (rep_monotone h lf F). }
  { lia. }
  { rewrite (rep_term _ _ _ Hrf). destruct (N.leb_spec (snapIndex lf) prev); [|lia]. by destruct (N.leb_spec prev (lenN F)); [|lia]. }
  fold ci in Hr, Ht. split; [lia|]. destruct (N.lt_ge_cases m ci) as [|Hcm]; [by left|]. right.
  destruct (N.le_gt_cases ci (snapIndex ll)) as [|Hcs]; [done|]. exfalso.
  destruct (lastIndexOfTerm_greatest ll (lterm F prev)) as [[_ Hno]|([Hi1 _] & _)]; [done|by apply (rep_monotone h ll L)| |lia].
  destruct (Hno m ltac:(lia)). rewrite (rep_term _ _ _ Hrl). destruct (N.leb_spec (snapIndex ll) m); [|lia].
  destruct (N.leb_spec m (lenN L)); [|lia]. cbn. f_equal. rewrite <- (lterm_pre m F L m Hm ltac:(lia)).
  assert (Htc : lterm F ci = lterm F prev) by (rewrite (rep_term _ _ _ Hrf) in Ht; destruct (_ && _); by simplify_eq).
  pose proof (valid_mono h F ci m Hh HF ltac:(lia)). pose proof (valid_mono h F m prev Hh HF ltac:(lia)). lia.
Qed.
End Conflict.
End Logs.

(** ** The effort left: entries not acknowledged first, then how far the next index may still go back *)
Definition toil (last snap m nx : N) : N :=
  (last - m) * (last + 3) + (if nx <=? snap then 1 else if nx =? m + 1 then 0 else 1 + (nx - (m + 1))).

Lemma toil_forward last snap m nx m' : m < m' <= last -> toil last snap m' (m' + 1) < toil last snap m nx.
Proof.
  intros Hm. unfold toil. rewrite N.eqb_refl. assert ((last - m') * (last + 3) + (last + 3) <= (last - m) * (last + 3)) by nia.
  destruct (m' + 1 <=? snap); lia.
Qed.

Lemma toil_back last snap m nx nx' : snap < nx -> m + 1 < nx -> nx' < nx -> m < nx' \/ nx' <= snap -> toil last snap m nx' < toil last snap m nx.
Proof.
  intros Hs Hm Hlt Hb. unfold toil. destruct (N.leb_spec nx snap); [lia|]. destruct (N.eqb_spec nx (m + 1)); [lia|].
  destruct (N.leb_spec nx' snap); [lia|]. destruct (N.eqb_spec nx' (m + 1)); lia.
Qed.

Lemma toil_snapshot last snap m nx : nx <= snap <= m -> toil last snap m (m + 1) < toil last snap m nx.
Proof.
  intros Hs. unfold toil. rewrite N.eqb_refl. destruct (N.leb_spec nx snap); [|lia]. destruct (N.leb_spec (m + 1) snap); lia.
Qed.

Lemma toil_bound last snap m nx : nx <= last + 1 -> toil last snap m nx < (last + 1) * (last + 3).
Proof.
  intros Hn. unfold toil. assert ((last - m) * (last + 3) <= last * (last + 3)) by (apply N.mul_le_mono_r; lia).
  destruct (nx <=? snap); [lia|]. destruct (nx =? m + 1); lia.
Qed.

(** ** The code *)

(** What happens to a call: it is answered, or ends in an error whether or not the follower has handled it. *)
Inductive fate := Answered | Failed (handled : bool).

(** One round: the clocks and random numbers of both sides, when the request was sent, its fate, and whether the leadership's
    context had been cancelled before. *)
Record exchange := mkExchange {
  x_leader : Env;
  x_follower : Env;
  x_sentAt : Z;
  x_fate : fate;
  x_cancelled : bool;
}.

Section Code.
Context {S SM : Type} `{Storage S} `{StateMachine SM}.
#[local] Abbreviation Raft := (Raft S SM).

Definition call_peer {A} (x : exchange) (handle : Raft -> res (Raft * A)) (f : Raft) : res (Raft * option A) :=
  match x_fate x with
  | Failed false => Ok (f, None)
  | Failed true => '(f, _) ← handle f; Ok (f, None)
  | Answered => '(f, a) ← handle f; Ok (f, Some a)
  end.

(** [sendSnapshot] and [replicateOnce] of the leader [r], with the follower [f] on the other side of the call. *)
Definition sendSnapshot (x : exchange) (peer : string) (t : N) (r f : Raft) : res (Raft * Raft * bool) :=
  match sendSnapshot_load t r with
  | None => Ok (r, f, false)
  | Some (req, meta) =>
      '(f, answer) ← call_peer x (HandleInstallSnapshot (x_follower x) req) f;
      match answer with
      | None => Ok (r, f, false)
      | Some resp =>
          '(r, again) ← sendSnapshot_recv (x_leader x) peer t meta (x_sentAt x) resp r;
          Ok (r, f, again)
      end
  end.

Definition replicateOnce (x : exchange) (peer : string) (t : N) (r f : Raft) : res (Raft * Raft * bool) :=
  act ← replicateOnce_send (x_cancelled x) peer t r;
  match act with
  | SendNothing => Ok (r, f, false)
  | SendAppend req =>
      '(f, answer) ← call_peer x (HandleAppendEntries (x_follower x) req) f;
      match answer with
      | None => Ok (r, f, false)
      | Some resp =>
          '(r, again) ← replicateOnce_recv (x_leader x) peer t req (x_sentAt x) resp r;
          Ok (r, f, again)
      end
  | SendSnapshot => sendSnapshot x peer t r f
  end.

(** [for r.replicateOnce(ctx, peer, term) {}]; [None] when the fuel runs out. *)
Fixpoint replicate_loop (fuel : nat) (xs : nat -> exchange) (peer : string) (t : N) (r f : Raft) : res (option (Raft * Raft)) :=
  match fuel with
  | O => Ok None
  | Datatypes.S fuel =>
      match replicateOnce (xs O) peer t r f with
      | Panic w => Panic w
      | Ok (r, f, true) => replicate_loop fuel (fun k => xs (Datatypes.S k)) peer t r f
      | Ok (r, f, false) => Ok (Some (r, f))
      end
  end.

(** Between two bursts the replicator waits: for the end of the leadership, for a trigger, or for the heartbeat's timer. The result: whether
    it goes on; [None] when the event cannot happen. *)
Inductive wake := WakeCancelled | WakeTrigger | WakeTimer.

Definition await (peer : string) (ev : wake) (r : Raft) : option (Raft * bool) :=
  match ev with
  | WakeCancelled => Some (r, false)
  | WakeTrigger => if default false (triggers r !! peer) then Some (r <| triggers := <[peer := false]> (triggers r) |>, true) else None
  | WakeTimer => Some (r, true)
  end.

(** [runReplicator], with the rounds of each burst and how the wait after it ended; [None] when the events do not fit. *)
Fixpoint runReplicator (fuel : nat) (bursts : list ((nat -> exchange) * wake)) (peer : string) (t : N) (r f : Raft) : res (option (Raft * Raft * bool)) :=
  match bursts with
  | [] => Ok (Some (r, f, true))
  | (xs, ev) :: bursts =>
      match replicate_loop fuel xs peer t r f with
      | Panic w => Panic w
      | Ok None => Ok None
      | Ok (Some (r, f)) =>
          match await peer ev r with
          | None => Ok None
          | Some (r, false) => Ok (Some (r, f, false))
          | Some (r, true) => runReplicator fuel bursts peer t r f
          end
      end
  end.

(** An accepted proposal leaves a wake-up for every replicator. *)
Lemma proposals_wake batch (r r' : Raft) peer :
  appendProposals batch r = Ok r' -> state r = Leader -> transferTarget r = "" -> stopped r = false -> is_Some (triggers r !! peer) ->
  exists r2, await peer WakeTrigger r' = Some (r2, true).
Proof.
  intros Hb Hst Ht Hs [b Htr]. unfold appendProposals in Hb. rewrite !bool_decide_true, Hs in Hb by done. cbn [negb orb] in Hb.
  apply bind_Ok in Hb as (l & _ & Hb). apply bind_Ok in Hb as (r1 & Hp & Hb). unfold persistLocked in Hp.
  destruct (Save _ _ _) as [st []]; [|done]. injection Hp as <-. apply advanceCommit_spec in Hb as [->|(c & -> & _)];
    cbn; rewrite lookup_fmap, Htr; by eexists.
Qed.
End Code.

(** ** What the leader does with an answer *)
Section Answers.
Context {S SM : Type} `{StorageLaws S} `{StateMachine SM}.
#[local] Abbreviation Raft := (Raft S SM).
Implicit Types r : Raft.

(** What a round leaves alone. *)
Definition keeps r r' : Prop := state r' = state r /\ rterm r' = rterm r /\ rlog r' = rlog r.

Lemma send_append_fields ctxErr peer t r req :
  replicateOnce_send ctxErr peer t r = Ok (SendAppend req) ->
  let next := mapGet (nextIndex r) peer in
  state r = Leader /\ rterm r = t /\ snapIndex (rlog r) < next /\ ae_Term req = t /\ ae_PrevLogIndex req = next - 1 /\
  ae_PrevLogTerm req = term0 (rlog r) (next - 1) /\
  lenN (ae_Entries req) = N.min (lastIndex (rlog r)) (next - 1 + MaxAppendEntries (cfg r)) - (next - 1).
Proof.
  unfold replicateOnce_send. destruct (_ || _ || _) eqn:Hg; [done|].
  apply orb_false_iff in Hg as [[_ Hst%negb_false_iff]%orb_false_iff Ht%negb_false_iff]. apply bool_decide_eq_true in Hst. apply N.eqb_eq in Ht.
  destruct (N.leb_spec (mapGet (nextIndex r) peer) (snapIndex (rlog r))) as [|Hn]; [done|]. intros Hb.
  apply bind_Ok in Hb as (es & Hs & Hb). injection Hb as <-. cbn zeta. split_and!; try done. cbn.
  set (next := mapGet (nextIndex r) peer) in *. set (hi := N.min _ _) in *. unfold slice in Hs.
  destruct (N.leb_spec next (snapIndex (rlog r))); [lia|]. destruct (N.ltb_spec (lastIndex (rlog r)) hi); [lia|]. cbn [orb] in Hs.
  destruct (N.ltb_spec hi next); injection Hs as <-; [rewrite lenN_nil; lia|].
  rewrite lenN_take, lenN_drop. unfold lastIndex in *. lia.
Qed.

Lemma advanceCommit_keeps r r' : advanceCommitLocked r = Ok r' -> keeps r r' /\ matchIndex r' = matchIndex r /\ nextIndex r' = nextIndex r.
Proof. intros Ha. by apply advanceCommit_spec in Ha as [->|(c & -> & _)]. Qed.

Lemma recordAck_keeps peer sentAt r :
  keeps r (recordAckLocked peer sentAt r) /\ matchIndex (recordAckLocked peer sentAt r) = matchIndex r /\
  nextIndex (recordAckLocked peer sentAt r) = nextIndex r.
Proof. unfold recordAckLocked. by case_match. Qed.

Lemma recv_append env peer t req sentAt resp r r' again :
  state r = Leader -> rterm r = t -> aer_Term resp = t ->
  replicateOnce_recv env peer t req sentAt resp r = Ok (r', again) ->
  let matched := ae_PrevLogIndex req + lenN (ae_Entries req) in
  keeps r r' /\
  if aer_Success resp then
    (if mapGet (matchIndex r) peer <? matched
     then matchIndex r' = <[peer := matched]> (matchIndex r) /\ nextIndex r' = <[peer := matched + 1]> (nextIndex r)
     else matchIndex r' = matchIndex r /\ nextIndex r' = nextIndex r) /\
    again = (mapGet (nextIndex r') peer <=? lastIndex (rlog r'))
  else matchIndex r' = matchIndex r /\ nextIndex r' = <[peer := nextFromConflict resp r]> (nextIndex r) /\ again = true.
Proof.
  intros Hst Ht Hrt. unfold replicateOnce_recv. destruct (N.ltb_spec (rterm r) (aer_Term resp)); [lia|].
  rewrite bool_decide_true, Ht, N.eqb_refl by done. cbn [negb orb]. destruct (recordAck_keeps peer sentAt r) as ((K1 & K2 & K3) & K4 & K5).
  assert (Hnc : nextFromConflict resp (recordAckLocked peer sentAt r) = nextFromConflict resp r) by (unfold nextFromConflict; by rewrite K3).
  revert K1 K2 K3 K4 K5 Hnc. generalize (recordAckLocked peer sentAt r) as r1. intros r1 K1 K2 K3 K4 K5 Hnc Hb. cbn zeta.
  destruct (aer_Success resp).
  - apply bind_Ok in Hb as (r2 & Ha & Hb). inv_ok. rewrite K4 in Ha. destruct (mapGet (matchIndex r) peer <? _).
    + apply advanceCommit_keeps in Ha as ((A1 & A2 & A3) & A4 & A5). cbn in *. unfold keeps. split_and!; congruence.
    + inv_ok. by unfold keeps.
  - inv_ok. unfold keeps. cbn. rewrite Hnc, K5. done.
Qed.

Lemma recv_snapshot env peer t meta sentAt resp r r' again :
  state r = Leader -> rterm r = t -> isr_Term resp = t ->
  sendSnapshot_recv env peer t meta sentAt resp r = Ok (r', again) ->
  let m' := N.max (mapGet (matchIndex r) peer) (sm_LastIncludedIndex meta) in
  keeps r r' /\ mapGet (matchIndex r') peer = m' /\ mapGet (nextIndex r') peer = m' + 1 /\ again = (m' + 1 <=? lastIndex (rlog r')).
Proof.
  intros Hst Ht Hrt. unfold sendSnapshot_recv. destruct (N.ltb_spec (rterm r) (isr_Term resp)); [lia|].
  rewrite bool_decide_true, Ht, N.eqb_refl by done. cbn [negb orb]. destruct (recordAck_keeps peer sentAt r) as ((K1 & K2 & K3) & K4 & K5).
  revert K1 K2 K3 K4 K5. generalize (recordAckLocked peer sentAt r) as r1. intros r1 K1 K2 K3 K4 K5 Hb. cbn zeta.
  apply bind_Ok in Hb as (r2 & Ha & Hb). inv_ok. cbn. rewrite K4 in Ha. unfold keeps. cbn. rewrite mapGet_insert, decide_True by done.
  destruct (N.ltb_spec (mapGet (matchIndex r) peer) (sm_LastIncludedIndex meta)) as [Hlt|Hge].
  - apply advanceCommit_keeps in Ha as ((A1 & A2 & A3) & A4 & _). cbn in *. rewrite A4, mapGet_insert, decide_True by done.
    rewrite N.max_r by lia. split_and!; congruence.
  - inv_ok. rewrite N.max_l by lia. rewrite K4. split_and!; congruence.
Qed.

(** A higher term in an answer ends the leadership. *)
Lemma recv_append_deposed env peer t req sentAt resp r r' again :
  node_ok r -> rterm r < aer_Term resp -> replicateOnce_recv env peer t req sentAt resp r = Ok (r', again) ->
  state r' = Follower /\ again = false.
Proof.
  intros Hok Hlt. unfold replicateOnce_recv. destruct (N.ltb_spec (rterm r) (aer_Term resp)); [|lia]. intros Hb.
  apply bind_Ok in Hb as (r1 & Hd & Hb). inv_ok. by apply becomeFollower_facts in Hd as (_ & _ & _ & _ & ? & _).
Qed.

Lemma recv_snapshot_deposed env peer t meta sentAt resp r r' again :
  node_ok r -> rterm r < isr_Term resp -> sendSnapshot_recv env peer t meta sentAt resp r = Ok (r', again) ->
  state r' = Follower /\ again = false.
Proof.
  intros Hok Hlt. unfold sendSnapshot_recv. destruct (N.ltb_spec (rterm r) (isr_Term resp)); [|lia]. intros Hb.
  apply bind_Ok in Hb as (r1 & Hd & Hb). inv_ok. by apply becomeFollower_facts in Hd as (_ & _ & _ & _ & ? & _).
Qed.
End Answers.

(** ** A leader and its follower *)
Section Pair.
Context {S SM : Type} `{StorageLaws S} `{StateMachine SM}.
Context (peers : list string) (peers_nodup : NoDup peers).
Context (i j : string) (i_peer : i ∈ peers) (i_j : i <> j).
#[local] Abbreviation Raft := (Raft S SM).
#[local] Abbreviation raft_rel := (raft_rel peers).
#[local] Abbreviation follows := (follows peers).
Implicit Types r f : Raft.

#[local] Abbreviation matched r := (mapGet (matchIndex r) j).
#[local] Abbreviation next r := (mapGet (nextIndex r) j).

Record pair h r f : Prop := {
  pa_good : good peers h;
  pa_leader : raft_rel h i r;
  pa_follower : raft_rel h j f;
  pa_ok : node_ok r /\ node_ok f;
  pa_armed : armed r /\ armed f;
  pa_fits : fits peers i r;
  pa_batch : 0 < MaxAppendEntries (cfg r);
}.

(** The follower moves, or the leader does. *)
Lemma pair_follower h r f h' f' : pair h r f -> follows j h f h' f' -> node_ok f' -> armed f' -> pair h' r f'.
Proof.
  intros [Hg Hl Hf [Hok _] [Har _] Hfi Hb] Hfo Hok' Har'. split; try done; [apply Hfo| |apply Hfo].
  eapply raft_rel_other; [apply Hfo|done|done].
Qed.

Lemma pair_leads h r f h' r' : pair h r f -> follows i h r h' r' -> safe_step r r' -> armed r' -> pair h' r' f.
Proof.
  intros [Hg Hl Hf [_ Hok] [_ Har] Hfi Hb] Hfo (Hok' & Hc & _) Har'. split; try done; [apply Hfo|apply Hfo| | |].
  - eapply raft_rel_other; [apply Hfo|done|done].
  - by eapply fits_same_cfg.
  - by destruct Hc as (-> & _).
Qed.

(** While the follower has no higher term, it holds what the leader believes it to hold. *)
Lemma pair_agree h r f :
  pair h r f -> state r = Leader -> rterm f <= rterm r ->
  matched r <= lenN (h_log h i) /\ next r <= lenN (h_log h i) + 1 /\ pre (matched r) (h_log h j) = pre (matched r) (h_log h i).
Proof.
  intros [Hg Hl Hf _ _ _ _] Hst Hle. pose proof (rr_leader _ _ _ _ Hl Hst) as Hld. pose proof Hld as (_ & Hll & _ & Hm).
  destruct (Hm j) as [Ha Hn]. split_and!; [by eapply acked_bound|done|]. rewrite Hll.
  destruct Hg as [Hh _]. destruct (ho_kept _ _ Hh _ _ _ Ha) as [Hk|(W & HW1 & HW2 & _)]; [exact Hk|].
  rewrite (rr_term _ _ _ _ Hf) in HW2. lia.
Qed.

(** The leader asks about an entry after those the follower is known to hold, unless it is about to send a snapshot. *)
Definition paced r : Prop := 1 <= next r /\ (matched r < next r \/ next r <= snapIndex (rlog r)).

#[local] Abbreviation toil_of r := (toil (lastIndex (rlog r)) (snapIndex (rlog r)) (matched r) (next r)).

(** Still the leader: there is less left to do, or nothing. *)
Definition advanced r r' (again : bool) : Prop :=
  keeps r r' /\ paced r' /\ if again then toil_of r' < toil_of r else matched r' = lastIndex (rlog r').

(** Where a refusal sends the leader back to. *)
Lemma refused_next h r f req resp :
  pair h r f -> state r = Leader -> rterm f <= rterm r -> snapIndex (rlog r) < next r -> matched r < next r ->
  ae_PrevLogIndex req = next r - 1 -> ae_PrevLogTerm req = term0 (rlog r) (next r - 1) -> refuses req f resp ->
  matched r + 1 < next r /\ 1 <= nextFromConflict resp r < next r /\
  (matched r < nextFromConflict resp r \/ nextFromConflict resp r <= snapIndex (rlog r)).
Proof.
  intros Hp Hst Hle Hsn Hmn Hprev Hpt (_ & Hsf & Href). destruct (pair_agree h r f Hp Hst Hle) as (Hml & Hnl & Hag).
  destruct (rr_log _ _ _ _ (pa_leader _ _ _ Hp)) as [Hrl _]. destruct (rr_log _ _ _ _ (pa_follower _ _ _ Hp)) as [Hrf _].
  pose proof (rep_lastIndex _ _ Hrl) as Hlast. destruct (pa_good _ _ _ Hp) as [Hh _].
  destruct (ho_log _ _ Hh i) as [HL _], (ho_log _ _ Hh j) as [HF _]. pose proof (nk_wf _ (proj1 (pa_ok _ _ _ Hp))) as Hwf.
  rewrite Hprev in *. set (prev := next r - 1) in *. assert (Hpl : prev <= lenN (h_log h i)) by lia.
  assert (Hmp : matched r <= prev) by lia. unfold nextFromConflict. destruct Href as [(Hlt & -> & ->)|(Hge & Hne & -> & ->)].
  - destruct (short_conflict (rlog f) (h_log h j) (h_log h i) (matched r) prev) as [Hc1 Hc2]; [done..|]. cbn. lia.
  - rewrite (rep_lastIndex _ _ Hrf) in Hge. rewrite Hpt, (rep_term0 _ _ _ Hrf), (rep_term0 _ _ _ Hrl) in Hne by lia.
    rewrite (rep_term0 _ _ _ Hrf) by lia.
    assert (Hlater : matched r < prev) by by apply (conflict_later (rlog f) (h_log h j) (h_log h i)).
    pose proof (valid_positive peers h (h_log h j) prev Hh HF ltac:(lia)) as Hpos.
    destruct (N.eqb_spec (lterm (h_log h j) prev) 0) as [|_]; [lia|]. cbn [negb].
    destruct (N.eqb_spec (lastIndexOfTerm (rlog r) (lterm (h_log h j) prev)) 0) as [Hi|Hi]; cbn [negb].
    + pose proof (follower_conflict peers h (rlog f) (rlog r) (h_log h j) (h_log h i) (matched r) prev) as Hc. cbv zeta in Hc.
      destruct Hc as (Hc1 & Hc2); [done..|]. lia.
    + pose proof (leader_conflict peers h (rlog f) (rlog r) (h_log h j) (h_log h i) (matched r) prev) as Hc. destruct Hc as [Hc1 Hc2]; [done..|]. lia.
Qed.

(** After an answer to entries. *)
Lemma advanced_append h r f req resp r' again :
  pair h r f -> paced r -> state r = Leader -> rterm f <= rterm r -> snapIndex (rlog r) < next r ->
  ae_PrevLogIndex req = next r - 1 -> ae_PrevLogTerm req = term0 (rlog r) (next r - 1) ->
  lenN (ae_Entries req) = N.min (lastIndex (rlog r)) (next r - 1 + MaxAppendEntries (cfg r)) - (next r - 1) ->
  (aer_Success resp = false -> refuses req f resp) ->
  keeps r r' ->
  (if aer_Success resp then
    (if matched r <? ae_PrevLogIndex req + lenN (ae_Entries req)
     then matchIndex r' = <[j := ae_PrevLogIndex req + lenN (ae_Entries req)]> (matchIndex r) /\
          nextIndex r' = <[j := ae_PrevLogIndex req + lenN (ae_Entries req) + 1]> (nextIndex r)
     else matchIndex r' = matchIndex r /\ nextIndex r' = nextIndex r) /\
    again = (next r' <=? lastIndex (rlog r'))
  else matchIndex r' = matchIndex r /\ nextIndex r' = <[j := nextFromConflict resp r]> (nextIndex r) /\ again = true) ->
  advanced r r' again.
Proof.
  intros Hp [Hpc Hmn] Hst Hle Hsn Hprev Hpt Hlen Href Hk Hr. destruct (pair_agree h r f Hp Hst Hle) as (Hml & Hnl & Hag).
  destruct Hmn as [Hmn|]; [|lia]. pose proof Hk as (_ & _ & Hlog). pose proof (pa_batch _ _ _ Hp) as Hmax.
  pose proof (rr_log _ _ _ _ (pa_leader _ _ _ Hp)) as [Hrl _]. pose proof (rep_lastIndex _ _ Hrl) as Hlast.
  split; [done|]. unfold paced. rewrite Hlog. destruct (aer_Success resp) eqn:Hs.
  - destruct Hr as [Hr ->]. rewrite Hlog. destruct (N.ltb_spec (matched r) (ae_PrevLogIndex req + lenN (ae_Entries req))) as [Hlt|Hge].
    + destruct Hr as [-> ->]. rewrite !mapGet_insert, !decide_True by done. split; [lia|].
      destruct (N.leb_spec (ae_PrevLogIndex req + lenN (ae_Entries req) + 1) (lastIndex (rlog r))); [apply toil_forward; lia|lia].
    + destruct Hr as [-> ->]. split; [lia|]. destruct (N.leb_spec (next r) (lastIndex (rlog r))); lia.
  - destruct Hr as (-> & -> & ->). rewrite !mapGet_insert, !decide_True by done.
    destruct (refused_next h r f req resp) as (Hm1 & Hn1 & Hb); [by auto..|]. split; [lia|]. by apply toil_back; [..|lia|].
Qed.

Lemma refuses_log req r1 r2 resp : rlog r1 = rlog r2 -> refuses req r1 resp -> refuses req r2 resp.
Proof. unfold refuses. by intros ->. Qed.

(** After an answer to a snapshot. *)
Lemma advanced_snapshot h r f r' again snap :
  pair h r f -> state r = Leader -> rterm f <= rterm r -> next r <= snapIndex (rlog r) <= snap -> snap <= lenN (h_log h i) -> keeps r r' ->
  matched r' = N.max (matched r) snap -> next r' = N.max (matched r) snap + 1 -> again = (N.max (matched r) snap + 1 <=? lastIndex (rlog r')) ->
  advanced r r' again.
Proof.
  intros Hp Hst Hle Hns Hsl Hk Hm Hn ->. destruct (pair_agree h r f Hp Hst Hle) as (Hml & _). pose proof Hk as (_ & _ & Hlog).
  destruct (rr_log _ _ _ _ (pa_leader _ _ _ Hp)) as [Hrl _]. pose proof (rep_lastIndex _ _ Hrl) as Hlast.
  split; [done|]. unfold paced. rewrite Hm, Hn, Hlog. split; [lia|]. destruct (N.leb_spec (N.max (matched r) snap + 1) (lastIndex (rlog r))); [|lia].
  destruct (N.le_gt_cases snap (matched r)) as [Hge|Hlt].
  - rewrite N.max_l by lia. apply toil_snapshot. lia.
  - rewrite N.max_r by lia. apply toil_forward. lia.
Qed.

Lemma armed_steady r r' : armed r -> steady r r' -> armed r'.
Proof. intros Ha Hs Hl. destruct (sy_leader _ _ Hs Hl) as (Hl0 & _ & _ & _ & ->). by apply Ha. Qed.

Lemma armed_hears peer sentAt t rt r r' : armed r -> hears peer sentAt t rt r r' -> armed r'.
Proof. intros Ha [Hs|(Hl & Hle & _)]; [by eapply armed_steady|]. intros _. rewrite (le_cancel _ _ Hle). by apply Ha. Qed.

Lemma armed_follower r : state r = Follower -> armed r.
Proof. intros Hs Hl. congruence. Qed.

(** The follower's side of a round. *)
Lemma follower_append h r f env req :
  pair h r f -> append_rel peers h req ->
  exists h' f' resp, HandleAppendEntries env req f = Ok (f', resp) /\ pair h' r f' /\
    (aer_Success resp = true -> acked h' j (ae_Term req) (N.to_nat (ae_PrevLogIndex req + lenN (ae_Entries req)))) /\
    (ae_Term req < aer_Term resp \/
     rterm f <= ae_Term req /\ rterm f' = ae_Term req /\ aer_Term resp = ae_Term req /\ (aer_Success resp = false -> refuses req f resp)).
Proof.
  intros Hp Har. pose proof Hp as [Hg _ Hf [_ Hok] [_ Harm] _ _].
  destruct (HandleAppendEntries_total env req f Hok Harm) as [[f' resp] Hb]; [by eapply append_rel_contiguous|].
  destruct (append_follows peers env req j h f f' resp Hg Hok Hf Har Hb) as (h' & Hfo & Hack). exists h', f', resp.
  destruct (HandleAppendEntries_safe _ _ _ _ _ Hok Hb) as (Hok' & _). destruct (HandleAppendEntries_commit _ _ _ _ _ Hok Hb) as [Hrt Hcm].
  split_and!; [done| |done|].
  - apply (pair_follower h r f); [done..|]. destruct Hcm as [Hs|[Hs _]]; [by eapply armed_steady|by apply armed_follower].
  - apply HandleAppendEntries_cases in Hb as [(Hlt & -> & _)|(r1 & Hok1 & Hrest & Hle & Ht1 & _ & _ & Hb)]; [left; by rewrite Hrt| |done].
    right. assert (Hlog : rlog r1 = rlog f) by (unfold rest in Hrest; congruence). rewrite Hrt.
    destruct Hb as [(-> & Href)|[(-> & Hs & _)|(_ & _ & _ & Hb)]].
    + split_and!; [done..|]. intros _. by eapply refuses_log.
    + split_and!; [done..|]. congruence.
    + pose proof (appendVerified_safe _ _ _ _ _ Hok1 Hb) as (_ & _ & (Ht & _)). rewrite Ht. split_and!; [done..|].
      unfold appendVerified in Hb. apply bind_Ok in Hb as ([l fresh] & _ & Hb). apply bind_Ok in Hb as (r2 & _ & Hb). by inv_ok.
Qed.

Lemma follower_install h r f env req :
  pair h r f -> snap_rel peers h req ->
  exists h' f' resp, HandleInstallSnapshot env req f = Ok (f', resp) /\ pair h' r f' /\
    (isr_Term resp <= is_Term req -> acked h' j (is_Term req) (N.to_nat (is_LastIncludedIndex req))) /\
    (is_Term req < isr_Term resp \/ rterm f <= is_Term req /\ rterm f' = is_Term req /\ isr_Term resp = is_Term req).
Proof.
  intros Hp Hsr. pose proof Hp as [Hg _ Hf [_ Hok] [_ Harm] _ _].
  destruct (HandleInstallSnapshot_total env req f Hok Harm) as [[f' resp] Hb].
  destruct (install_follows peers env req j h f f' resp Hg Hok Hf Hsr Hb) as (h' & Hfo & Hack). exists h', f', resp.
  destruct (HandleInstallSnapshot_safe _ _ _ _ _ Hok Hb) as (Hok' & _). destruct (HandleInstallSnapshot_commit _ _ _ _ _ Hok Hb) as [Hrt Hcm].
  split_and!; [done| |done|].
  - apply (pair_follower h r f); [done..|]. destruct Hcm as [Hs|[Hs _]]; [by eapply armed_steady|by apply armed_follower].
  - apply HandleInstallSnapshot_cases in Hb as [(Hlt & -> & Ht)|(r1 & _ & _ & Hle & Ht1 & _ & _ & Hi & Hb)]; [left; by rewrite Ht| |done].
    right. rewrite Hi. split_and!; [done| |done]. rewrite <- Hrt. done.
Qed.

(** How a round ends: with an error, with the leadership lost, or with progress. *)
Definition round_ends (x : exchange) (t : N) r r' f' (again : bool) : Prop :=
  (again = false /\ (x_cancelled x = true \/ x_fate x <> Answered)) \/
  (again = false /\ state r' = Follower) \/
  (advanced r r' again /\ rterm f' = t).

Lemma failed_ends x t r r' f' b : x_fate x = Failed b -> round_ends x t r r' f' false.
Proof. intros Hx. left. split; [done|]. right. by rewrite Hx. Qed.

Lemma round_append h r f x t req :
  pair h r f -> paced r -> replicateOnce_send (x_cancelled x) j t r = Ok (SendAppend req) ->
  exists h' r' f' again, replicateOnce x j t r f = Ok (r', f', again) /\ pair h' r' f' /\ round_ends x t r r' f' again.
Proof.
  intros Hp Hpc Hs. unfold replicateOnce. rewrite Hs. cbn [mbind res_bind]. pose proof Hp as [Hg Hl _ [Hok _] [Harm _] Hfi _].
  pose proof (replicate_rel peers _ _ _ i h r req Hg Hl Hs) as Har.
  destruct (send_append_fields _ _ _ _ _ Hs) as (Hst & Ht & Hsn & Et & Ep & Ept & El).
  destruct (follower_append h r f (x_follower x) req Hp Har) as (h1 & f' & resp & Hb & Hp1 & Hack & Hres).
  unfold call_peer. destruct (x_fate x) as [|[]] eqn:Hfate; [|rewrite Hb; cbn; exists h1, r, f', false; split_and!; [done|done|by eapply failed_ends]|
    cbn; exists h, r, f, false; split_and!; [done|done|by eapply failed_ends]].
  rewrite Hb. cbn [mbind res_bind].
  destruct (replicateOnce_recv_total (x_leader x) j t req (x_sentAt x) resp r Hok Harm) as [[r' again] Hr]; [by eapply fits_quorate|].
  rewrite Hr. cbn [mbind res_bind].
  destruct (append_answer_follows peers (x_leader x) j req (x_sentAt x) resp i h1 r r' again) as [h2 Hfo2]; [done|done|done|apply Hp1|done|apply Hp1|done|by rewrite Et|].
  exists h2, r', f', again. split_and!; [done| |].
  { apply (pair_leads h1 r); [done|done|by eapply replicateOnce_recv_safe|]. eapply armed_hears; [done|by eapply replicateOnce_recv_hears]. }
  right. destruct Hres as [Hgt|(Hle & Htf & Hrt & Href)]; [left; apply recv_append_deposed in Hr as [? ?]; [done|done|lia]|]. right. split; [|congruence].
  destruct (recv_append _ _ _ _ _ _ _ _ _ Hst Ht (eq_trans Hrt Et) Hr) as [Hk Heff].
  apply (advanced_append h r f req resp); [done..|congruence|done|done|done|done|done|done|done].
Qed.

Lemma round_snapshot h r f x t :
  pair h r f -> paced r -> replicateOnce_send (x_cancelled x) j t r = Ok SendSnapshot ->
  exists h' r' f' again, replicateOnce x j t r f = Ok (r', f', again) /\ pair h' r' f' /\ round_ends x t r r' f' again.
Proof.
  intros Hp [Hpc _] Hs. unfold replicateOnce. rewrite Hs. cbn [mbind res_bind]. unfold sendSnapshot. pose proof Hp as [Hg Hl _ [Hok _] [Harm _] Hfi _].
  assert (Hsend : state r = Leader /\ rterm r = t /\ next r <= snapIndex (rlog r)).
  { unfold replicateOnce_send in Hs. destruct (_ || _ || _) eqn:Hgd; [done|].
    apply orb_false_iff in Hgd as [[_ Hst%negb_false_iff]%orb_false_iff Ht%negb_false_iff]. apply bool_decide_eq_true in Hst. apply N.eqb_eq in Ht.
    destruct (N.leb_spec (next r) (snapIndex (rlog r))); [done|]. apply bind_Ok in Hs as (? & _ & ?). done. }
  destruct Hsend as (Hst & Ht & Hns). pose proof (nk_snap _ Hok) as Hsn.
  destruct (sendSnapshot_load t r) as [[req meta]|] eqn:Hload.
  2: { unfold sendSnapshot_load in Hload. destruct (latest_durable (storage r) (nk_storage _ Hok)) as (om & data & Hls & Hd). rewrite Hls in Hload.
    destruct om; [done|]. unfold d_snapIndex in Hsn. rewrite Hd in Hsn. cbn in Hsn. lia. }
  destruct (load_snapshot_rel peers t i h r req meta Hok Hl Hst Ht Hload) as (Et & Em & Hsr & Hd).
  unfold d_snapIndex in Hsn. rewrite Hd in Hsn.
  destruct (follower_install h r f (x_follower x) req Hp Hsr) as (h1 & f' & resp & Hb & Hp1 & Hack & Hres).
  unfold call_peer. destruct (x_fate x) as [|[]] eqn:Hfate; [|rewrite Hb; cbn; exists h1, r, f', false; split_and!; [done|done|by eapply failed_ends]|
    cbn; exists h, r, f, false; split_and!; [done|done|by eapply failed_ends]].
  rewrite Hb. cbn [mbind res_bind].
  destruct (sendSnapshot_recv_total (x_leader x) j t meta (x_sentAt x) resp r Hok Harm) as [[r' again] Hr]; [by eapply fits_quorate|].
  rewrite Hr. cbn [mbind res_bind].
  destruct (snapshot_answer_follows peers (x_leader x) j meta req (x_sentAt x) resp i h1 r r' again) as [h2 Hfo2];
    [done|done|done|apply Hp1|done|apply Hp1|by rewrite Em|by rewrite Et|].
  exists h2, r', f', again. split_and!; [done| |].
  { apply (pair_leads h1 r); [done|done|by eapply sendSnapshot_recv_safe|]. eapply armed_hears; [done|by eapply sendSnapshot_recv_hears]. }
  right. destruct Hres as [Hgt|(Hle & Htf & Hrt)]; [left; apply recv_snapshot_deposed in Hr as [? ?]; [done|done|lia]|]. right. split; [|congruence].
  destruct (recv_snapshot _ _ _ _ _ _ _ _ _ Hst Ht (eq_trans Hrt Et) Hr) as (Hk & Hm' & Hn' & Hag).
  destruct (rr_leader _ _ _ _ Hl Hst) as (_ & Hll & _). pose proof (sr_len _ _ _ Hsr) as Hlen. rewrite Et, <- Ht, <- Hll in Hlen.
  rewrite Em in *. apply (advanced_snapshot h r f r' again (is_LastIncludedIndex req)); [done|done|congruence|lia|done..].
Qed.

(** A round of a leader always returns. *)
Lemma round h r f x t :
  pair h r f -> state r = Leader -> rterm r = t -> paced r ->
  exists h' r' f' again, replicateOnce x j t r f = Ok (r', f', again) /\ pair h' r' f' /\ round_ends x t r r' f' again.
Proof.
  intros Hp Hst Ht Hpc. destruct (replicateOnce_send_total (x_cancelled x) j t r) as [act Hs]. destruct act as [|req|].
  - exists h, r, f, false. unfold replicateOnce. rewrite Hs. split_and!; [done|done|]. left. split; [done|]. left. unfold replicateOnce_send in Hs.
    rewrite bool_decide_true, Ht, N.eqb_refl in Hs by done. destruct (x_cancelled x); [done|]. cbn in Hs. destruct (_ <=? _); [done|].
    apply bind_Ok in Hs as (? & _ & ?). done.
  - by eapply round_append.
  - by eapply round_snapshot.
Qed.

Definition answered_calls (xs : nat -> exchange) : Prop := forall k, x_cancelled (xs k) = false /\ x_fate (xs k) = Answered.

(** What the loop leaves behind when every call is answered. *)
Definition caught_up h r r' f' : Prop := keeps r r' /\ paced r' /\ matched r' = lastIndex (rlog r') /\ rterm f' = rterm r' /\ pair h r' f'.

Lemma loop_ends fuel : forall xs h r f t,
  pair h r f -> state r = Leader -> rterm r = t -> paced r -> (N.to_nat (toil_of r) < fuel)%nat ->
  exists h' r' f', replicate_loop fuel xs j t r f = Ok (Some (r', f')) /\
    (answered_calls xs -> state r' = Follower \/ caught_up h' r r' f').
Proof.
  induction fuel as [|fuel IH]; intros xs h r f t Hp Hst Ht Hpc Hfuel; [lia|]. cbn [replicate_loop].
  destruct (round h r f (xs O) t Hp Hst Ht Hpc) as (h1 & r1 & f1 & again & Hb & Hp1 & Hend). rewrite Hb.
  destruct Hend as [[-> Hx]|[[-> Hfo]|[(Hk & Hpc1 & Hadv) Htf]]].
  - exists h1, r1, f1. split; [done|]. intros Hall. destruct (Hall O) as [Hx1 Hx2]. destruct Hx; congruence.
  - exists h1, r1, f1. split; [done|]. by left.
  - pose proof Hk as (K1 & K2 & K3). destruct again.
    + destruct (IH (fun k => xs (Datatypes.S k)) h1 r1 f1 t) as (h2 & r2 & f2 & Hl & Hres); [done|congruence|congruence|done|lia|].
      exists h2, r2, f2. split; [done|]. intros Hall. destruct Hres as [?|((E1 & E2 & E3) & Hrest)]; [intros k; apply Hall|by left|]. right.
      split; [|done]. unfold keeps. split_and!; congruence.
    + exists h1, r1, f1. split; [done|]. intros _. right. split_and!; [done..|congruence|done].
Qed.
End Pair.

(** ** Where the pace comes from: an election sets it, and neither proposals nor compaction disturb it *)
Section Pace.
Context {S SM : Type} `{StorageLaws S} `{StateMachine SM}.
#[local] Abbreviation Raft := (Raft S SM).
Implicit Types r : Raft.

Lemma mapGet_all (l : list string) x p : p ∈ l -> mapGet (list_to_map ((fun q => (q, x)) <$> l)) p = x.
Proof.
  induction l as [|q l IH]; [by intros ?%elem_of_nil|]. cbn. unfold mapGet in *. destruct (decide (q = p)) as [->|Hne].
  - by rewrite lookup_insert_eq.
  - rewrite lookup_insert_ne by done. intros [->|?]%elem_of_cons; [done|by apply IH].
Qed.

Lemma becomeLeader_paced env r r' peer : peer ∈ others r -> becomeLeaderLocked env r = Ok r' -> paced peer r'.
Proof.
  intros Hp Hb. unfold becomeLeaderLocked in Hb. apply bind_Ok in Hb as (l & _ & Hb). apply bind_Ok in Hb as (r1 & Hs & Hb).
  apply bind_Ok in Hb as (r2 & Ha & Hb). inv_ok. unfold persistLocked in Hs. destruct (Save _ _ _) as [st []]; [|done]. injection Hs as <-.
  apply advanceCommit_keeps in Ha as (_ & Em & En). unfold paced. cbn in *. rewrite Em, En, !mapGet_all by done. lia.
Qed.

Lemma appendProposals_paced batch r r' peer : appendProposals batch r = Ok r' -> paced peer r -> paced peer r'.
Proof.
  unfold appendProposals. destruct (_ || _ || _); [intros Hb; by inv_ok|]. intros Hb. apply bind_Ok in Hb as (l & Hl & Hb). apply append_Ok in Hl as [_ ->].
  apply bind_Ok in Hb as (r1 & Hs & Hb). unfold persistLocked in Hs. destruct (Save _ _ _) as [st []]; [|done]. injection Hs as <-.
  apply advanceCommit_keeps in Hb as ((_ & _ & El) & Em & En). unfold paced. cbn in *. by rewrite Em, En, El.
Qed.

Lemma compact_paced index t r peer : paced peer r -> paced peer (takeSnapshot_compact index t r).
Proof. unfold paced. cbn. rewrite compactTo_snap. lia. Qed.
End Pace.

(** ** In a run of a group *)
Definition entry_at (l : raftLog) (k : N) : option Entry := entries l !! N.to_nat (k - snapIndex l - 1).

Lemma rep_entry l L k : represents l L -> snapIndex l < k -> entry_at l k = L !! N.to_nat (k - 1).
Proof. intros [_ He _] Hk. unfold entry_at. rewrite He, lookup_drop. f_equal. lia. Qed.

Section Run.
Context {S SM : Type} `{StorageLaws S} `{StateMachine SM}.
Context (peers : list string) (config : string -> Config) (sm0 : SM) `{!SnapshotLaw sm0}.
Context (peers_nodup : NoDup peers) (peers_named : "" ∉ peers).
Context (config_id : forall i, ID (config i) = i) (config_peers : forall i, Peers (config i) = peers).
#[local] Abbreviation Cluster := (Cluster S SM).
#[local] Abbreviation runs := (rtc (step config sm0)).

Lemma setDefaults_batch c c' : setDefaults c = Some c' -> 0 < MaxAppendEntries c'.
Proof.
  unfold setDefaults. destruct (_ || _); [done|]. destruct (negb _); [done|]. intros [= <-]. cbn. unfold default_if_zeroN. destruct (N.eqb_spec (MaxAppendEntries c) 0); lia.
Qed.

Lemma run_pair c0 c i j ni nj :
  initial peers config sm0 c0 -> runs c0 c -> nodes c !! i = Some ni -> nodes c !! j = Some nj -> i ∈ peers /\ exists h, pair peers i j h (nd_raft ni) (nd_raft nj).
Proof.
  intros Hini Hr Hi Hj. destruct (Ready_runs peers config sm0 peers_nodup peers_named config_id config_peers c0 c Hini Hr) as (h & [Hg Hns _] & HR).
  pose proof (Hns _ _ Hi) as Hni. pose proof (Hns _ _ Hj) as Hnj. destruct (HR _ _ Hi) as [Hcf Har _]. destruct (HR _ _ Hj) as [_ Har' _].
  split; [apply Hni|]. exists h. split; [done|apply Hni|apply Hnj| |done|apply Hni|by eapply setDefaults_batch].
  split; [apply (ni_ok _ _ _ _ _ Hni)|apply (ni_ok _ _ _ _ _ Hnj)].
Qed.

End Run.

(** The new leader of the example run and a follower that has nothing yet. *)
Definition demo_exchange (_ : nat) : exchange := mkExchange (mkEnv 400000000 0) (mkEnv 400000000 0) 400000000 Answered false.

Lemma demo_pair : exists na nb, nodes demo_elected !! "a" = Some na /\ nodes demo_elected !! "b" = Some nb /\
  state (nd_raft na) = Leader /\ paced "b" (nd_raft na) /\ lastIndex (rlog (nd_raft na)) = 1.
Proof.
  assert (Ha : (fun n => (state (nd_raft n), lastIndex (rlog (nd_raft n)), (mapGet (nextIndex (nd_raft n)) "b", mapGet (matchIndex (nd_raft n)) "b")))
    <$> node_of demo_elected "a" = Some (Leader, 1, (1, 0))) by by vm_compute.
  assert (Hb : (fun _ => true) <$> node_of demo_elected "b" = Some true) by by vm_compute.
  apply fmap_Some in Ha as (na & Hna & He). apply fmap_Some in Hb as (nb & Hnb & _). exists na, nb.
  assert (Hp : paced "b" (nd_raft na)).
  { clear Hna Hnb. pose proof (f_equal (fun x => x.2.1) He) as E1. pose proof (f_equal (fun x => x.2.2) He) as E2. cbn [fst snd] in E1, E2.
    unfold paced. rewrite <- E1, <- E2. lia. }
  exact (conj Hna (conj Hnb (conj (eq_sym (f_equal (fun x => x.1.1) He)) (conj Hp (eq_sym (f_equal (fun x => x.1.2) He)))))).
Qed.

