(* ===== verification/Reader.v ===== *)
(** * Callers of ReadIndex and the reader they share (internal/raft/apply.go)

    [ReadIndex] hands a request to [runReader] over a buffered channel and waits for its answer; the reader takes
    whatever has queued up, confirms leadership once for the whole batch, and answers every request of it.
    The events below are the points where one of these goroutines acts, in any order, each at a moment with its own clock and
    its own state of the replica. The theorem is the link between a caller and [ReadIndex.v]: a call that returns
    without an error was served by a confirmation that began after the call, in the order the linearizability theorem asks for. *)

From S2P Require Import Prelude Types RaftLog Storage Raft RaftFacts Cluster Run Election LogCore LogFacts Agree AgreeSteps Agreement Acknowledge ReadIndex.

#[local] Open Scope N_scope.

Section Reader.
Context {S SM : Type}.
#[local] Abbreviation Raft := (Raft S SM).

(** Where the reader is. *)
Inductive readerPC :=
| RdIdle                                             (* waits for a request, or for the stop *)
| RdDraining (batch : list nat)
| RdDrained (batch : list nat)                       (* the channel was empty; about to confirm *)
| RdConfirming (t readIndex : N) (start : Z) (batch : list nat)
| RdExited.

(** What a call returns: nil, an error of the replica, or the error of its context. *)
Inductive callResult :=
| CallNil
| CallError (err : raftError)
| CallContext.

(** Where a caller is: in the first select, in the second, in [waitApplied], or back. *)
Inductive callerPC :=
| CalQueueing
| CalQueued
| CalWaiting (index : N)
| CalReturned (res : callResult).

Record reads := mkReads {
  readCh : list nat;                                 (* the requests buffered in the channel *)
  rd_pc : readerPC;
  rd_done : gmap nat (N + raftError);                (* what was sent on each request's channel *)
  rd_callers : gmap nat callerPC;
  rd_stop : bool;                                    (* stopCh is closed *)
}.

#[global] Instance eta_reads : Eta reads := fun s => mkReads (readCh s) (rd_pc s) (rd_done s) (rd_callers s) (rd_stop s).

Definition reads_start : reads := mkReads [] RdIdle ∅ ∅ false.

Definition readChCap : nat := N.to_nat 4096.

Inductive revent :=
| EvCall (id : nat)
| EvEnqueue (id : nat)
| EvCancel (id : nat)
| EvCallerStop (id : nat)
| EvResult (id : nat)
| EvApplied (id : nat)
| EvReceive
| EvDrain
| EvDrained
| EvConfirm
| EvCheck
| EvDeadline
| EvReaderStop
| EvExit
| EvStop.

Definition returns (id : nat) (res : callResult) (s : reads) : reads := s <| rd_callers := <[id := CalReturned res]> (rd_callers s) |>.

(** A call that has not returned. *)
Definition in_call (id : nat) (s : reads) : bool :=
  match rd_callers s !! id with None | Some (CalReturned _) => false | Some _ => true end.

(** The answers to a batch. The channels hold one value: a second send on one would block. *)
Fixpoint answer_all (batch : list nat) (ans : N + raftError) (d : gmap nat (N + raftError)) : option (gmap nat (N + raftError)) :=
  match batch with
  | [] => Some d
  | id :: batch =>
      match d !! id with
      | Some _ => None
      | None => answer_all batch ans (<[id := ans]> d)
      end
  end.

Definition answer (batch : list nat) (ans : N + raftError) (s : reads) : option reads :=
  d ← answer_all batch ans (rd_done s);
  Some (s <| rd_done := d |> <| rd_pc := RdIdle |>).

(** One step of one goroutine, while the clock and the replica are [e] and [r]. *)
Definition read_step (e : Env) (r : Raft) (ev : revent) (s : reads) : option reads :=
  match ev with
  | EvCall id =>
      match rd_callers s !! id with
      | None => Some (s <| rd_callers := <[id := CalQueueing]> (rd_callers s) |>)
      | Some _ => None
      end
  | EvEnqueue id =>
      match rd_callers s !! id with
      | Some CalQueueing =>
          if (length (readCh s) <? readChCap)%nat
          then Some (s <| readCh := readCh s ++ [id] |> <| rd_callers := <[id := CalQueued]> (rd_callers s) |>)
          else None
      | _ => None
      end
  | EvCancel id => if in_call id s then Some (returns id CallContext s) else None
  | EvCallerStop id => if rd_stop s && in_call id s then Some (returns id (CallError ErrStopped) s) else None
  | EvResult id =>
      match rd_callers s !! id, rd_done s !! id with
      | Some CalQueued, Some (inr err) => Some (returns id (CallError err) s)
      | Some CalQueued, Some (inl index) => Some (s <| rd_callers := <[id := CalWaiting index]> (rd_callers s) |>)
      | _, _ => None
      end
  | EvApplied id =>
      match rd_callers s !! id with
      | Some (CalWaiting index) => if waitApplied_check index r then Some (returns id CallNil s) else None
      | _ => None
      end
  | EvReceive =>
      match rd_pc s, readCh s with
      | RdIdle, id :: queue => Some (s <| readCh := queue |> <| rd_pc := RdDraining [id] |>)
      | _, _ => None
      end
  | EvDrain =>
      match rd_pc s, readCh s with
      | RdDraining batch, id :: queue => Some (s <| readCh := queue |> <| rd_pc := RdDraining (batch ++ [id]) |>)
      | _, _ => None
      end
  | EvDrained =>
      match rd_pc s, readCh s with
      | RdDraining batch, [] => Some (s <| rd_pc := RdDrained batch |>)
      | _, _ => None
      end
  | EvConfirm =>
      match rd_pc s with
      | RdDrained batch =>
          match (confirmLeadership_begin e r).2 with
          | inr err => answer batch (inr err) s
          | inl (t, readIndex, start) => Some (s <| rd_pc := RdConfirming t readIndex start batch |>)
          end
      | _ => None
      end
  | EvCheck =>
      match rd_pc s with
      | RdConfirming t readIndex start batch =>
          match confirmLeadership_check t readIndex start r with
          | None => Some s
          | Some ans => answer batch ans s
          end
      | _ => None
      end
  | EvDeadline =>
      match rd_pc s with
      | RdConfirming _ _ _ batch => answer batch (inr (NotLeaderError "")) s
      | _ => None
      end
  | EvReaderStop =>
      match rd_pc s with
      | RdConfirming _ _ _ batch => if rd_stop s then answer batch (inr ErrStopped) s else None
      | _ => None
      end
  | EvExit =>
      match rd_pc s with
      | RdIdle => if rd_stop s then Some (s <| rd_pc := RdExited |>) else None
      | _ => None
      end
  | EvStop => Some (s <| rd_stop := true |>)
  end.

(** A moment: the clock, the replica, and what happens. *)
#[local] Abbreviation moment := (Env * Raft * revent)%type.

Fixpoint run_reads (tr : list moment) (s : reads) : option reads :=
  match tr with
  | [] => Some s
  | (e, r, ev) :: tr => s' ← read_step e r ev s; run_reads tr s'
  end.

Lemma run_reads_app tr1 tr2 s : run_reads (tr1 ++ tr2) s = run_reads tr1 s ≫= run_reads tr2.
Proof.
  revert s. induction tr1 as [|[[e r] ev] tr1 IH]; intros s; [done|]. cbn [run_reads app]. destruct (read_step e r ev s); [apply IH|done].
Qed.

Lemma run_reads_snoc tr e r ev s s' :
  run_reads (tr ++ [(e, r, ev)]) s = Some s' -> exists s1, run_reads tr s = Some s1 /\ read_step e r ev s1 = Some s'.
Proof.
  rewrite run_reads_app. intros (s1 & H1 & (s2 & H2 & [= ->])%bind_Some)%bind_Some. by exists s1.
Qed.

(** ** Every request is answered once *)

(** The requests the reader has taken and not answered. *)
Definition batch_of (pc : readerPC) : list nat :=
  match pc with RdDraining batch | RdDrained batch | RdConfirming _ _ _ batch => batch | _ => [] end.

(** A request that was put on the channel. *)
Definition issued (id : nat) (s : reads) : Prop := exists c, rd_callers s !! id = Some c /\ c <> CalQueueing.

Record orderly (s : reads) : Prop := mkOrderly {
  or_nodup : NoDup (batch_of (rd_pc s) ++ readCh s);
  or_open : forall id, id ∈ batch_of (rd_pc s) ++ readCh s -> issued id s /\ rd_done s !! id = None;
  or_done : forall id ans, rd_done s !! id = Some ans -> issued id s;
}.

Lemma answer_all_total batch ans : forall d, NoDup batch -> (forall id, id ∈ batch -> d !! id = None) ->
  exists d', answer_all batch ans d = Some d' /\ forall id, d' !! id = (if decide (id ∈ batch) then Some ans else d !! id).
Proof.
  induction batch as [|b batch IH]; intros d Hn Hd; cbn [answer_all].
  { exists d. split; [done|]. intros id. by rewrite decide_False by apply not_elem_of_nil. }
  apply NoDup_cons in Hn as [Hb Hn]. rewrite (Hd b) by left.
  destruct (IH (<[b := ans]> d) Hn) as (d' & -> & Hd').
  { intros id Hid. rewrite lookup_insert_ne by (by intros ->). apply Hd. by right. }
  exists d'. split; [done|]. intros id. rewrite Hd'. destruct (decide (id = b)) as [->|Hne].
  - rewrite decide_False by done. rewrite lookup_insert_eq, decide_True by left. done.
  - rewrite lookup_insert_ne by done. by rewrite (decide_ext (id ∈ batch) (id ∈ b :: batch)) by set_solver.
Qed.

Lemma answer_orderly batch ans s :
  orderly s -> batch_of (rd_pc s) = batch ->
  exists d, answer batch ans s = Some (s <| rd_done := d |> <| rd_pc := RdIdle |>) /\
    forall id, d !! id = (if decide (id ∈ batch) then Some ans else rd_done s !! id).
Proof.
  intros [Hn Ho Hd] <-. apply NoDup_app in Hn as (Hn & _ & _). unfold answer.
  destruct (answer_all_total (batch_of (rd_pc s)) ans (rd_done s) Hn) as (d & -> & Hd'); [|by exists d].
  intros id Hid. apply Ho. apply elem_of_app. by left.
Qed.

Lemma answered_orderly batch ans s s' :
  orderly s -> batch_of (rd_pc s) = batch -> answer batch ans s = Some s' -> orderly s'.
Proof.
  intros Hor Hb. destruct (answer_orderly batch ans s Hor Hb) as (d & -> & Hd). intros [= <-]. destruct Hor as [Hn Ho Hdn].
  rewrite Hb in *. apply NoDup_app in Hn as (_ & Hdis & Hn). split; cbn.
  - done.
  - intros id Hid. destruct (Ho id) as [Hi Hnone]; [apply elem_of_app; by right|]. split; [done|].
    rewrite Hd, decide_False; [done|]. intros Hin. by apply (Hdis id).
  - intros id a. rewrite Hd. destruct (decide (id ∈ batch)); [|by apply Hdn]. intros _. apply Ho, elem_of_app. by left.
Qed.

(** Only the callers move. *)
Lemma callers_orderly id c s :
  orderly s -> c <> CalQueueing \/ rd_callers s !! id = None -> orderly (s <| rd_callers := <[id := c]> (rd_callers s) |>).
Proof.
  intros [Hn Ho Hd] Hc.
  assert (Hi : forall j, issued j s -> issued j (s <| rd_callers := <[id := c]> (rd_callers s) |>)).
  { intros j (c' & Hj & Hc'). destruct (decide (j = id)) as [->|Hne].
    - exists c. cbn. rewrite lookup_insert_eq. split; [done|]. destruct Hc as [|Hnone]; [done|]. by rewrite Hnone in Hj.
    - exists c'. cbn. by rewrite lookup_insert_ne by done. }
  split; cbn; [done| |].
  - intros j Hj. destruct (Ho j Hj). split; [by apply Hi|done].
  - intros j a Hj. by eapply Hi, Hd.
Qed.

(** Only requests move, between the channel and the batch. *)
Lemma taken_orderly s queue pc :
  orderly s -> batch_of pc ++ queue = batch_of (rd_pc s) ++ readCh s -> orderly (s <| readCh := queue |> <| rd_pc := pc |>).
Proof. intros [Hn Ho Hd] He. split; cbn; [by rewrite He|by rewrite He|done]. Qed.

Lemma enqueue_orderly id s :
  orderly s -> rd_callers s !! id = Some CalQueueing ->
  orderly (s <| readCh := readCh s ++ [id] |> <| rd_callers := <[id := CalQueued]> (rd_callers s) |>).
Proof.
  intros Hor Hc. destruct (callers_orderly id CalQueued s Hor ltac:(by left)) as [Hn Ho Hd]. cbn in *.
  assert (Hni : ~ issued id s) by (intros (c & Hc' & Hne); by rewrite Hc in Hc'; injection Hc' as <-).
  assert (Hnew : rd_done s !! id = None).
  { destruct (rd_done s !! id) eqn:Hdn; [|done]. by apply (or_done _ Hor) in Hdn. }
  split; cbn.
  - rewrite app_assoc. apply NoDup_app. split_and!; [done| |by apply NoDup_singleton].
    intros j Hj ->%list_elem_of_singleton. by apply Hni, (or_open _ Hor).
  - intros j. rewrite app_assoc, elem_of_app, list_elem_of_singleton. intros [Hj| ->]; [by apply Ho|].
    split; [|done]. exists CalQueued. cbn. by rewrite lookup_insert_eq.
  - done.
Qed.

Lemma read_step_orderly e r ev s s' : orderly s -> read_step e r ev s = Some s' -> orderly s'.
Proof.
  intros Hor Hs. destruct ev; cbn in Hs.
  - destruct (rd_callers s !! id) eqn:Hc; [done|]. injection Hs as <-. apply callers_orderly; [done|by right].
  - destruct (rd_callers s !! id) as [[]|] eqn:Hc; try done. case_match; [|done]. injection Hs as <-. by apply enqueue_orderly.
  - case_match; [|done]. injection Hs as <-. apply callers_orderly; [done|by left].
  - case_match; [|done]. injection Hs as <-. apply callers_orderly; [done|by left].
  - destruct (rd_callers s !! id) as [[]|]; try done. destruct (rd_done s !! id) as [[]|]; try done;
      injection Hs as <-; apply callers_orderly; by (done || left).
  - destruct (rd_callers s !! id) as [[]|]; try done. case_match; [|done]. injection Hs as <-. apply callers_orderly; [done|by left].
  - destruct (rd_pc s) eqn:Hpc; try done. destruct (readCh s) eqn:Hq; [done|]. injection Hs as <-.
    apply taken_orderly; [done|]. by rewrite Hpc, Hq.
  - destruct (rd_pc s) eqn:Hpc; try done. destruct (readCh s) eqn:Hq; [done|]. injection Hs as <-.
    apply taken_orderly; [done|]. rewrite Hpc, Hq. cbn. by rewrite <- app_assoc.
  - destruct (rd_pc s) eqn:Hpc; try done. destruct (readCh s) eqn:Hq; [|done]. injection Hs as <-.
    destruct Hor as [Hn Ho Hd]. rewrite Hpc in *. by split.
  - destruct (rd_pc s) eqn:Hpc; try done. destruct (_.2) as [[[t x] st]|err].
    + injection Hs as <-. destruct Hor as [Hn Ho Hd]. rewrite Hpc in *. by split.
    + eapply answered_orderly; [exact Hor| |exact Hs]. by rewrite Hpc.
  - destruct (rd_pc s) eqn:Hpc; try done. destruct (confirmLeadership_check _ _ _ _); [|by injection Hs as <-].
    eapply answered_orderly; [exact Hor| |exact Hs]. by rewrite Hpc.
  - destruct (rd_pc s) eqn:Hpc; try done. eapply answered_orderly; [exact Hor| |exact Hs]. by rewrite Hpc.
  - destruct (rd_pc s) eqn:Hpc; try done. destruct (rd_stop s); [|done]. eapply answered_orderly; [exact Hor| |exact Hs]. by rewrite Hpc.
  - destruct (rd_pc s) eqn:Hpc; try done. destruct (rd_stop s); [|done]. injection Hs as <-.
    destruct Hor as [Hn Ho Hd]. rewrite Hpc in *. by split.
  - injection Hs as <-. destruct Hor. by split.
Qed.

Lemma run_reads_orderly tr : forall s s', orderly s -> run_reads tr s = Some s' -> orderly s'.
Proof.
  induction tr as [|[[e r] ev] tr IH]; intros s s' Hor; cbn; [by intros [= <-]|].
  intros (s1 & Hs & Hr)%bind_Some. eapply IH; [|exact Hr]. by eapply read_step_orderly.
Qed.

(** ** A call is served by a confirmation that began after it *)
Implicit Types tr : list moment.

Definition called tr (k id : nat) : Prop := exists e r, tr !! k = Some (e, r, EvCall id).

(** At moment [k] the reader noted the term, the commit index and the time. *)
Definition began tr (k : nat) (t x : N) (start : Z) : Prop :=
  exists e r, tr !! k = Some (e, r, EvConfirm) /\ (confirmLeadership_begin e r).2 = inl (t, x, start).

(** A confirmation of index [x] that began after moment [ka] and succeeded at [kc]. *)
Definition confirmed tr (ka kc : nat) (x : N) : Prop :=
  exists kb t start e r, (ka < kb < kc)%nat /\ began tr kb t x start /\
    tr !! kc = Some (e, r, EvCheck) /\ confirmLeadership_check t x start r = Some (inl x).

Definition served_by tr (id : nat) (x : N) : Prop := exists ka kc, called tr ka id /\ confirmed tr ka kc x.

(** The whole life of a call that returned nil. *)
Definition protocol tr (id : nat) : Prop :=
  exists ka kc kd x e r, called tr ka id /\ confirmed tr ka kc x /\ (kc < kd)%nat /\
    tr !! kd = Some (e, r, EvApplied id) /\ waitApplied_check x r = true.

Record timed tr (s : reads) : Prop := mkTimed {
  ti_callers : forall id c, rd_callers s !! id = Some c -> exists k, called tr k id;
  ti_confirming : forall t x start batch, rd_pc s = RdConfirming t x start batch ->
    exists kb, began tr kb t x start /\ forall id, id ∈ batch -> exists ka, (ka < kb)%nat /\ called tr ka id;
  ti_done : forall id x, rd_done s !! id = Some (inl x) -> served_by tr id x;
  ti_waiting : forall id x, rd_callers s !! id = Some (CalWaiting x) -> served_by tr id x;
  ti_returned : forall id, rd_callers s !! id = Some (CalReturned CallNil) -> protocol tr id;
}.

Section Later.
Context (tr : list moment) (m : moment).

Lemma called_later k id : called tr k id -> called (tr ++ [m]) k id.
Proof. intros (e & r & Hk). exists e, r. by apply lookup_app_l_Some. Qed.

Lemma began_later k t x start : began tr k t x start -> began (tr ++ [m]) k t x start.
Proof. intros (e & r & Hk & Hb). exists e, r. split; [by apply lookup_app_l_Some|done]. Qed.

Lemma confirmed_later ka kc x : confirmed tr ka kc x -> confirmed (tr ++ [m]) ka kc x.
Proof.
  intros (kb & t & start & e & r & Hk & Hb & Hc & Hck). exists kb, t, start, e, r.
  split_and!; [lia..|by apply began_later|by apply lookup_app_l_Some|done].
Qed.

Lemma served_by_later id x : served_by tr id x -> served_by (tr ++ [m]) id x.
Proof. intros (ka & kc & Hc & Hf). exists ka, kc. split; [by apply called_later|by apply confirmed_later]. Qed.

Lemma timed_later s : timed tr s -> timed (tr ++ [m]) s.
Proof.
  intros [Hc Hf Hd Hw Hr]. split.
  - intros id c Hi. destruct (Hc id c Hi) as [k Hk]. exists k. by apply called_later.
  - intros t x start batch Hp. destruct (Hf _ _ _ _ Hp) as (kb & Hb & Hbatch). exists kb. split; [by apply began_later|].
    intros id Hi. destruct (Hbatch id Hi) as (ka & Hlt & Hka). exists ka. split; [done|by apply called_later].
  - intros id x Hi. by apply served_by_later, Hd.
  - intros id x Hi. by apply served_by_later, Hw.
  - intros id Hi. destruct (Hr id Hi) as (ka & kc & kd & x & e & r & H1 & H2 & H3 & H4 & H5). exists ka, kc, kd, x, e, r.
    split_and!; [by apply called_later|by apply confirmed_later|done|by apply lookup_app_l_Some|done].
Qed.
End Later.

Lemma timed_caller tr s id c :
  timed tr s -> (exists k, called tr k id) -> (forall x, c = CalWaiting x -> served_by tr id x) ->
  (c = CalReturned CallNil -> protocol tr id) -> timed tr (s <| rd_callers := <[id := c]> (rd_callers s) |>).
Proof.
  intros [Hc Hf Hd Hw Hr] Hk Hx Hp. split; cbn; try done.
  - intros j c'. rewrite lookup_insert_Some. intros [[<- _]|[_ Hj]]; [done|by eapply Hc].
  - intros j x. rewrite lookup_insert_Some. intros [[<- ?]|[_ Hj]]; [by apply Hx|by apply Hw].
  - intros j. rewrite lookup_insert_Some. intros [[<- ?]|[_ Hj]]; [by apply Hp|by apply Hr].
Qed.

Lemma timed_pc tr s queue pc :
  timed tr s -> (forall t x start batch, pc <> RdConfirming t x start batch) -> timed tr (s <| readCh := queue |> <| rd_pc := pc |>).
Proof. intros [Hc Hf Hd Hw Hr] Hp. split; cbn; try done. intros t x start batch He. by destruct (Hp t x start batch). Qed.

Lemma timed_answer tr s s' batch ans :
  timed tr s -> orderly s -> batch_of (rd_pc s) = batch -> (forall x, ans = inl x -> forall id, id ∈ batch -> served_by tr id x) ->
  answer batch ans s = Some s' -> timed tr s'.
Proof.
  intros [Hc Hf Hd Hw Hr] Hor Hb Hans. destruct (answer_orderly batch ans s Hor Hb) as (d & -> & Hd'). intros [= <-].
  split; cbn; try done. intros id x. rewrite Hd'. destruct (decide (id ∈ batch)); [|by apply Hd]. intros [= Heq]. by apply Hans.
Qed.

(** What a confirmed batch is answered with. *)
Lemma check_served tr e r t x start y batch s :
  timed tr s -> rd_pc s = RdConfirming t x start batch -> confirmLeadership_check t x start r = Some (inl y) ->
  forall id, id ∈ batch -> served_by (tr ++ [(e, r, EvCheck)]) id y.
Proof.
  intros Ht Hpc Hck id Hid. destruct (ti_confirming _ _ Ht _ _ _ _ Hpc) as (kb & Hb & Hbatch). destruct (Hbatch id Hid) as (ka & Hlt & Hka).
  assert (y = x) as -> by (unfold confirmLeadership_check in Hck; repeat case_match; by simplify_eq).
  exists ka, (length tr). split; [by apply called_later|]. exists kb, t, start, e, r.
  assert (kb < length tr)%nat by (destruct Hb as (e' & r' & Hk & _); by eapply lookup_lt_Some).
  split_and!; [lia..|by apply began_later|by rewrite list_lookup_middle|done].
Qed.

(** The requests of a batch arrived before its confirmation begins. *)
Lemma confirm_timed tr e r t x start batch s :
  timed tr s -> orderly s -> batch_of (rd_pc s) = batch -> (confirmLeadership_begin e r).2 = inl (t, x, start) ->
  timed (tr ++ [(e, r, EvConfirm)]) (s <| rd_pc := RdConfirming t x start batch |>).
Proof.
  intros Ht Hor Hb Hbeg. destruct (timed_later tr (e, r, EvConfirm) s Ht) as [Hc Hf Hd Hw Hr]. split; cbn; try done.
  intros ? ? ? ? [= <- <- <- <-]. exists (length tr). split; [exists e, r; by rewrite list_lookup_middle|].
  intros id Hid. destruct (or_open _ Hor id) as [(c & Hi & _) _]; [apply elem_of_app; left; by rewrite Hb|].
  destruct (ti_callers _ _ Ht id c Hi) as [k Hk]. exists k. split; [|by apply called_later].
  destruct Hk as (e' & r' & Hk). by eapply lookup_lt_Some.
Qed.

Lemma read_step_timed tr e r ev s s' :
  orderly s -> timed tr s -> read_step e r ev s = Some s' -> timed (tr ++ [(e, r, ev)]) s'.
Proof.
  intros Hor Ht Hs. pose proof (timed_later tr (e, r, ev) s Ht) as Hl.
  assert (Hcall : forall id c, rd_callers s !! id = Some c -> exists k, called (tr ++ [(e, r, ev)]) k id) by apply Hl.
  destruct ev; cbn in Hs.
  - destruct (rd_callers s !! id) eqn:Hc; [done|]. injection Hs as <-. apply timed_caller; [done| |done..].
    exists (length tr), e, r. by rewrite list_lookup_middle.
  - destruct (rd_callers s !! id) as [[]|] eqn:Hc; try done. case_match; [|done]. injection Hs as <-.
    destruct (timed_caller _ s id CalQueued Hl) as [H1 H2 H3 H4 H5]; [by eapply Hcall|done..|]. by split.
  - unfold in_call in Hs. destruct (rd_callers s !! id) as [c|] eqn:Hc; [|done]. destruct c; try done; injection Hs as <-;
      (apply timed_caller; [done|by eapply Hcall|done..]).
  - unfold in_call in Hs. destruct (rd_stop s); [|done]. destruct (rd_callers s !! id) as [c|] eqn:Hc; [|done]. destruct c; try done; injection Hs as <-;
      (apply timed_caller; [done|by eapply Hcall|done..]).
  - destruct (rd_callers s !! id) as [[]|] eqn:Hc; try done. destruct (rd_done s !! id) as [[x|err]|] eqn:Hdn; try done; injection Hs as <-;
      (apply timed_caller; [done|by eapply Hcall| |done]); [|done]. intros ? [= <-]. by apply Hl.
  - destruct (rd_callers s !! id) as [[]|] eqn:Hc; try done. destruct (waitApplied_check _ _) eqn:Hw; [|done]. injection Hs as <-.
    apply timed_caller; [done|by eapply Hcall|done|]. intros _. destruct (ti_waiting _ _ Ht _ _ Hc) as (ka & kc & Hka & Hkc).
    exists ka, kc, (length tr), index, e, r. split_and!; [by apply called_later|by apply confirmed_later| |by rewrite list_lookup_middle|done].
    destruct Hkc as (? & ? & ? & ? & ? & _ & _ & Hk & _). by eapply lookup_lt_Some.
  - destruct (rd_pc s) eqn:Hpc; try done. destruct (readCh s) eqn:Hq; [done|]. injection Hs as <-. by apply timed_pc.
  - destruct (rd_pc s) eqn:Hpc; try done. destruct (readCh s) eqn:Hq; [done|]. injection Hs as <-. by apply timed_pc.
  - destruct (rd_pc s) eqn:Hpc; try done. destruct (readCh s) eqn:Hq; [|done]. injection Hs as <-.
    destruct Hl as [Hc Hf Hd Hw Hr]. by split.
  - destruct (rd_pc s) eqn:Hpc; try done. destruct (_.2) as [[[t x] st]|err] eqn:Hb.
    + injection Hs as <-. apply confirm_timed; try done. by rewrite Hpc.
    + eapply timed_answer; [exact Hl|exact Hor| | |exact Hs]; [by rewrite Hpc|done].
  - destruct (rd_pc s) eqn:Hpc; try done. destruct (confirmLeadership_check _ _ _ _) as [ans|] eqn:Hck; [|by injection Hs as <-].
    eapply timed_answer; [exact Hl|exact Hor| | |exact Hs]; [by rewrite Hpc|]. intros x ->. by eapply check_served.
  - destruct (rd_pc s) eqn:Hpc; try done. eapply timed_answer; [exact Hl|exact Hor| | |exact Hs]; [by rewrite Hpc|done].
  - destruct (rd_pc s) eqn:Hpc; try done. destruct (rd_stop s); [|done].
    eapply timed_answer; [exact Hl|exact Hor| | |exact Hs]; [by rewrite Hpc|done].
  - destruct (rd_pc s) eqn:Hpc; try done. destruct (rd_stop s); [|done]. injection Hs as <-. destruct Hl. by split.
  - injection Hs as <-. destruct Hl. by split.
Qed.

Lemma reads_start_orderly : orderly reads_start.
Proof. split; cbn; [constructor|by intros id ?%not_elem_of_nil|done]. Qed.

Lemma run_reads_timed tr : forall s, run_reads tr reads_start = Some s -> orderly s /\ timed tr s.
Proof.
  induction tr as [|[[e r] ev] tr IH] using rev_ind; intros s Hr.
  - injection Hr as <-. split; [apply reads_start_orderly|]. by split.
  - apply run_reads_snoc in Hr as (s1 & H1 & H2). destruct (IH s1 H1) as [Hor Ht].
    split; [by eapply read_step_orderly|by eapply read_step_timed].
Qed.

(** C31: the reader never blocks on an answer: whatever the interleaving of callers, cancellations and stops, no request of
    a batch was answered before, so that every send on a request's channel of capacity one finds it empty, also when
    its caller has left; and a call that returns without an error went through the protocol of a read: after
    the call a confirmation began, it was confirmed later with the index it noted, and the caller then found that index applied. *)
Theorem readers_follow_the_protocol tr s :
  run_reads tr reads_start = Some s ->
  (forall ans, is_Some (answer (batch_of (rd_pc s)) ans s)) /\
  forall id, rd_callers s !! id = Some (CalReturned CallNil) -> protocol tr id.
Proof.
  intros Hr. destruct (run_reads_timed tr s Hr) as [Hor Ht]. split; [|apply Ht].
  intros ans. destruct (answer_orderly _ ans s Hor eq_refl) as (d & -> & _). by eexists.
Qed.
End Reader.

(** ** Calls of ReadIndex are linearizable *)
Section Linearizable.
Context {S SM : Type} `{StorageLaws S} `{StateMachine SM}.
Context (peers : list string) (config : string -> Config) (sm0 : SM) `{!SnapshotLaw sm0}.
Context (peers_nodup : NoDup peers) (peers_named : "" ∉ peers).
Context (config_id : forall i, ID (config i) = i) (config_peers : forall i, Peers (config i) = peers).

#[local] Abbreviation Cluster := (Cluster S SM).
#[local] Abbreviation NodeSt := (NodeSt S SM).
#[local] Abbreviation runs := (rtc (step config sm0)).

(** What an event does to the group: the first critical section of a confirmation triggers replication. *)
Definition acted (i : string) (ev : revent) (n : NodeSt) (c : Cluster) : Cluster :=
  match ev with
  | EvConfirm => mkCluster (<[i := n <| nd_raft := (confirmLeadership_begin (env_of n 0) (nd_raft n)).1 |>]> (nodes c)) (net c ++ [])
  | _ => c
  end.

(** The moments of a trace are those of node [i] while the group goes through [cs]. *)
Definition observed (i : string) (cs : nat -> Cluster) (tr : list (Env * Raft S SM * revent)) : Prop :=
  forall k e r ev, tr !! k = Some (e, r, ev) ->
    exists n, nodes (cs k) !! i = Some n /\ nd_raft n = r /\ env_of n 0 = e /\ runs (acted i ev n (cs k)) (cs (Datatypes.S k)).

Lemma acted_runs i ev n (c : Cluster) : nodes c !! i = Some n -> runs c (acted i ev n c).
Proof.
  intros Hi. destruct ev; try done. apply rtc_once. destruct (confirmLeadership_begin (env_of n 0) (nd_raft n)) as [r' out] eqn:Hb.
  unfold acted. rewrite Hb. eapply step_node; [done|]. by eapply step_read.
Qed.

Lemma observed_runs i cs tr k k' : observed i cs tr -> (k <= k')%nat -> (k' <= length tr)%nat -> runs (cs k) (cs k').
Proof.
  intros Ho Hle. induction Hle as [|k' Hle IH]; intros Hlen; [done|]. etrans; [apply IH; lia|].
  destruct (lookup_lt_is_Some_2 tr k' ltac:(lia)) as [[[e r] ev] Hk]. destruct (Ho _ _ _ _ Hk) as (n & Hn & _ & _ & Hr).
  etrans; [by apply acted_runs|done].
Qed.

(** Reads are linearizable. A call of [ReadIndex] at a node that returned without an error, whatever the callers it shared
    a batch with, and whatever the group did meanwhile, elections and crashes included: when the call was made
    nothing had been committed anywhere beyond an index [x], and when it returned the node's state machine was that of
    a log all replicas agree on then and now, up to [x] at least. That log contains every write acknowledged before
    the call, by any node, whether or not it has crashed since. The clock must have advanced between the last request answered and the
    beginning of a confirmation. *)
Theorem reads_are_linearizable c0 cs tr s i id :
  initial peers config sm0 c0 -> runs c0 (cs 0%nat) -> observed i cs tr -> run_reads tr reads_start = Some s ->
  (forall k t x start, began tr k t x start -> clock_advanced (cs k) i t start) ->
  rd_callers s !! id = Some (CalReturned CallNil) ->
  exists ka kd x L m n, (ka < kd)%nat /\ called tr ka id /\ (exists e r, tr !! kd = Some (e, r, EvApplied id)) /\ nodes (cs kd) !! i = Some n /\
    (forall j nj, nodes (cs ka) !! j = Some nj -> commitIndex (nd_raft nj) <= x) /\
    contiguous 0 L /\ x <= m <= commitIndex (nd_raft n) /\ applied sm0 (pre m L) (machine (nd_raft n)) /\
    (forall j nj, nodes (cs ka) !! j = Some nj -> agrees sm0 L nj) /\ (forall j nj, nodes (cs kd) !! j = Some nj -> agrees sm0 L nj) /\
    forall j nj wid out, nodes (cs ka) !! j = Some nj -> (wid, PResult out) ∈ replies (nd_raft nj) ->
      answered config sm0 c0 (cs ka) j (pre m L) wid out.
Proof.
  intros Hini H0' Ho Hr Hclk Hret. destruct (run_reads_timed tr s Hr) as [_ Ht].
  destruct (ti_returned _ _ Ht id Hret) as (ka & kc & kd & x & e & r & Hka & (kb & t & start & ec & rc & Hk & Hb & Hc & Hck) & Hkd & Hd & Hw).
  pose proof (Hclk _ _ _ _ Hb) as Hadv. destruct Hb as (eb & rb & Hb & Hbeg).
  assert (Hlen : (kd < length tr)%nat) by exact (lookup_lt_Some _ _ _ Hd).
  destruct (Ho _ _ _ _ Hb) as (n1 & Hn1 & <- & <- & Hr1). destruct (Ho _ _ _ _ Hc) as (n2 & Hn2 & <- & <- & _).
  destruct (Ho _ _ _ _ Hd) as (n3 & Hn3 & <- & <- & _). cbn [acted] in Hr1.
  destruct (confirmLeadership_begin (env_of n1 0) (nd_raft n1)) as [r1 res] eqn:Hbegin. cbn [fst snd] in *. subst res.
  destruct (confirmed_reads peers config sm0 peers_nodup peers_named config_id config_peers c0 (cs ka) (cs kb) (cs kc) (cs kd) i n1 n2 n3 r1
    t x start x Hini) as (Hx & L & m & HcL & [Hm Hmc] & Ha & Hag & Hag' & Hans); try done.
  - etrans; [exact H0'|]. apply (observed_runs i cs tr); [done|lia..].
  - apply (observed_runs i cs tr); [done|lia..].
  - etrans; [exact Hr1|]. apply (observed_runs i cs tr); [done|lia..].
  - apply (observed_runs i cs tr); [done|lia..].
  - exists ka, kd, x, L, m, n3. split_and!; try done; [lia|]. by eexists _, _.
Qed.
End Linearizable.

(** ** A call in the example run *)
Section Script.
Context {S SM : Type} `{StorageLaws S} `{StateMachine SM}.
Context (config : string -> Config) (sm0 : SM) (c1 c2 : Cluster S SM).
Implicit Types n : NodeSt S SM.

(** The leader's first call: alone in its batch, it begins in the group [c1] and is confirmed in [c2]. *)
Definition demo_calls n1 n2 : list (Env * Raft S SM * revent) :=
  (pair (env_of n1 0, nd_raft n1) <$> [EvCall 1; EvEnqueue 1; EvReceive; EvDrained; EvConfirm]) ++
  (pair (env_of n2 0, nd_raft n2) <$> [EvCheck; EvResult 1; EvApplied 1]).

Definition demo_group (k : nat) : Cluster S SM := if (k <=? 4)%nat then c1 else c2.

Definition demo_served : reads := mkReads [] RdIdle {[1%nat := inl 2]} {[1%nat := CalReturned CallNil]} false.

Lemma demo_calls_run n1 n2 r1 start :
  confirmLeadership_begin (env_of n1 0) (nd_raft n1) = (r1, inl (1, 2, start)) ->
  confirmLeadership_check 1 2 start (nd_raft n2) = Some (inl 2) -> waitApplied_check 2 (nd_raft n2) = true ->
  run_reads (demo_calls n1 n2) reads_start = Some demo_served.
Proof.
  intros Hb Hc Hw. change (demo_calls n1 n2) with
    ((pair (env_of n1 0, nd_raft n1) <$> [EvCall 1; EvEnqueue 1; EvReceive; EvDrained]) ++ [(env_of n1 0, nd_raft n1, EvConfirm)] ++
     [(env_of n2 0, nd_raft n2, EvCheck)] ++ [(env_of n2 0, nd_raft n2, EvResult 1)] ++ [(env_of n2 0, nd_raft n2, EvApplied 1)] ).
  rewrite run_reads_app.
  replace (run_reads _ reads_start) with (Some (mkReads [] (RdDrained [1%nat]) ∅ {[1%nat := CalQueued]} false)) by by vm_compute.
  cbn [app mbind option_bind run_reads read_step rd_pc]. rewrite Hb. cbn [snd mbind option_bind].
  change (_ <| rd_pc := _ |>) with (mkReads [] (RdConfirming 1 2 start [1%nat]) ∅ {[1%nat := CalQueued]} false). cbn [rd_pc]. rewrite Hc.
  replace (answer _ _ _) with (Some (mkReads [] RdIdle {[1%nat := inl 2]} {[1%nat := CalQueued]} false)) by by vm_compute.
  cbn [mbind option_bind rd_callers rd_done]. rewrite !lookup_singleton_eq. cbn [mbind option_bind].
  change (_ <| rd_callers := _ |>) with (mkReads [] RdIdle {[1%nat := inl 2]} (<[1%nat := CalWaiting 2]> {[1%nat := CalQueued]}) false).
  cbn [rd_callers]. rewrite lookup_insert_eq, Hw. by vm_compute.
Qed.

Lemma demo_observed n1 n2 r1 x :
  nodes c1 !! "a" = Some n1 -> nodes c2 !! "a" = Some n2 ->
  confirmLeadership_begin (env_of n1 0) (nd_raft n1) = (r1, x) ->
  rtc (step config sm0) (mkCluster (<["a" := n1 <| nd_raft := r1 |>]> (nodes c1)) (net c1 ++ [])) c2 ->
  observed config sm0 "a" demo_group (demo_calls n1 n2).
Proof.
  intros Hn1 Hn2 Hb Hr k e r ev Hk.
  do 5 (destruct k as [|k]; [injection Hk as <- <- <-; exists n1; split_and!; [exact Hn1|done|done|]; cbn [acted]; rewrite ?Hb;
    first [exact Hr|exact (rtc_refl _ _)]|]).
  do 3 (destruct k as [|k]; [injection Hk as <- <- <-; exists n2; split_and!; [exact Hn2|done|done|exact (rtc_refl _ _)]|]).
  by destruct k.
Qed.

(** The only confirmation of the trace. *)
Lemma demo_began n1 n2 r1 y k t x start :
  confirmLeadership_begin (env_of n1 0) (nd_raft n1) = (r1, inl y) -> began (demo_calls n1 n2) k t x start -> k = 4%nat /\ y = (t, x, start).
Proof.
  intros Hb (e & r & Hk & Hr). do 4 (destruct k as [|k]; [done|]). destruct k as [|k].
  - injection Hk as <- <-. rewrite Hb in Hr. cbn in Hr. split; [done|congruence].
  - do 3 (destruct k as [|k]; [done|]). by destruct k.
Qed.
End Script.

Lemma reads_are_linearizable_witness :
  exists (n1 n2 : NodeSt MemStorage bytes) ka kd x L m n, (ka < kd)%nat /\ called (demo_calls n1 n2) ka 1 /\
    (exists e r, demo_calls n1 n2 !! kd = Some (e, r, EvApplied 1)) /\ nodes (demo_group demo_late demo_confirmed kd) !! "a" = Some n /\
    (forall j nj, nodes (demo_group demo_late demo_confirmed ka) !! j = Some nj -> commitIndex (nd_raft nj) <= x) /\
    contiguous 0 L /\ x <= m <= commitIndex (nd_raft n) /\ applied [] (pre m L) (machine (nd_raft n)) /\
    (forall j nj, nodes (demo_group demo_late demo_confirmed ka) !! j = Some nj -> agrees [] L nj) /\ (forall j nj, nodes (demo_group demo_late demo_confirmed kd) !! j = Some nj -> agrees [] L nj) /\
    forall j nj wid out, nodes (demo_group demo_late demo_confirmed ka) !! j = Some nj -> (wid, PResult out) ∈ replies (nd_raft nj) ->
      answered demo_config [] demo_start (demo_group demo_late demo_confirmed ka) j (pre m L) wid out.
Proof.
  destruct demo_read_runs as (H1 & H2 & H3 & H4 & _ & H5 & H6).
  destruct (begin_read_inv _ _ _ _ H2) as (n1 & r1 & Hn1 & Hb & Hc). destruct (node_of_inv _ _ _ _ H5) as (n2 & Hn2 & Hck).
  destruct (node_of_inv _ _ _ _ H6) as (n3 & Hn3 & Hw). assert (n3 = n2) as -> by congruence. rewrite Hc in H4. exists n1, n2.
  refine (reads_are_linearizable demo_peers demo_config [] demo_peers_nodup demo_peers_named (fun _ => eq_refl) (fun _ => eq_refl)
    demo_start (demo_group demo_late demo_confirmed) (demo_calls n1 n2) demo_served "a" 1%nat demo_initial
    (rtc_trans _ _ _ (run_schedule_steps _ _ _ _ _ (proj1 demo_election_runs))
      (rtc_trans _ _ _ (run_schedule_steps _ _ _ _ _ (proj1 demo_write_runs)) (run_schedule_steps _ _ _ _ _ H1)))
    (demo_observed demo_config [] demo_late demo_confirmed n1 n2 r1 _ Hn1 Hn2 Hb (run_schedule_steps _ _ _ _ _ H4)) (demo_calls_run n1 n2 r1 _ Hb Hck Hw) _ eq_refl).
  intros k t x start Hbg. destruct (demo_began _ _ _ _ _ _ _ _ Hb Hbg) as [-> [= <- <- <-]]. exact (clock_advanced_b_sound _ _ _ _ H3).
Defined.

Lemma readers_follow_the_protocol_witness :
  exists n1 n2 : NodeSt MemStorage bytes, protocol (demo_calls n1 n2) 1.
Proof.
  destruct demo_read_runs as (_ & H2 & _ & _ & _ & H5 & H6).
  destruct (begin_read_inv _ _ _ _ H2) as (n1 & r1 & Hn1 & Hb & _). destruct (node_of_inv _ _ _ _ H5) as (n2 & Hn2 & Hck).
  destruct (node_of_inv _ _ _ _ H6) as (n3 & Hn3 & Hw). assert (n3 = n2) as -> by congruence. exists n1, n2.
  exact (proj2 (readers_follow_the_protocol (demo_calls n1 n2) demo_served (demo_calls_run n1 n2 r1 _ Hb Hck Hw)) 1%nat eq_refl).
Defined.
