(* ===== verification/Transfer.v ===== *)
(** * Leadership transfers and refused writes (internal/raft/apply.go)

    While a transfer is in flight a leader refuses proposals ([transferTarget]). [TransferLeadership] clears it on every
    exit, but only if the leadership it began under is still the current one: a later leadership may have begun a transfer of its own.
    In every run of a group a leader that refuses writes for this reason has a call of TransferLeadership that
    has not returned. *)

From S2P Require Import Prelude Types RaftLog Storage Raft RaftFacts Cluster Run Election LogCore LogFacts Agree AgreeSteps Agreement Acknowledge ReadIndex.

Section Transfer.
Context {S SM : Type} `{StorageLaws S} `{StateMachine SM}.
Context (peers : list string) (config : string -> Config) (sm0 : SM) `{!SnapshotLaw sm0}.
Context (peers_nodup : NoDup peers) (peers_named : "" ∉ peers).
Context (config_id : forall i, ID (config i) = i) (config_peers : forall i, Peers (config i) = peers).

#[local] Abbreviation NodeSt := (NodeSt S SM).
#[local] Abbreviation Cluster := (Cluster S SM).
#[local] Abbreviation runs := (rtc (step config sm0)).
Implicit Types n : NodeSt.

(** A leader's handover is that of a call in flight. *)
Definition handing n : Prop :=
  state (nd_raft n) = Leader -> transferTarget (nd_raft n) <> "" -> (rterm (nd_raft n), transferTarget (nd_raft n)) ∈ nd_transfers n.

(** A step that begins no handover and ends none. *)
Lemma handing_kept ms n n' out :
  handing n -> reading ms n n' out -> transferTarget (nd_raft n') = transferTarget (nd_raft n) \/ transferTarget (nd_raft n') = "" ->
  nd_transfers n' = nd_transfers n -> handing n'.
Proof.
  intros Hh Hr [Ht|Ht] Htr Hl Hne; [|done]. destruct (rd_leader _ _ _ _ Hr Hl) as [[Hl0 [_ E _]]|Hw]; [|by rewrite (wi_target _ _ Hw) in Hne].
  rewrite Ht in *. rewrite E, Htr. by apply Hh.
Qed.

Lemma handing_step h i ms n n' out :
  node_inv peers sm0 h i n -> handing n -> node_step ms n n' out -> handing n'.
Proof.
  intros Hn Hh Hst. pose proof (node_step_reading peers sm0 h i ms n n' out Hn Hst) as Hr.
  destruct (node_step_kinds _ _ _ _ Hst) as [(Hc & _ & Htr)|[(batch & r' & _ & Hap & -> & ->)|[(r' & pc & Hap & ->)|
    [(target & r' & t & Hb & ->)|(t & target & Hin & ->)]]]].
  - by apply (handing_kept ms n n' out); [..|apply Hc|].
  - apply (handing_kept ms n _ [] Hh Hr); [|done]. apply appendProposals_cases in Hap as [[err ->]|(_ & _ & _ & _ & _ & _ & Ht & _)]; by left.
  - apply (handing_kept ms n _ out Hh Hr); [|done]. apply applier_step_post in Hap. injection Hap as _ Ht. by left.
  - intros _ _. cbn. revert Hb. unfold transfer_begin. repeat case_match; intros [= <- <-]. by left.
  - intros Hl Hne. cbn in Hl, Hne |- *. unfold transfer_cleanup in *. destruct (bool_decide (state (nd_raft n) = Leader) && (rterm (nd_raft n) =? t)) eqn:Hg; [done|].
    apply list_elem_of_filter. split; [|by apply Hh]. intros [= E _]. rewrite bool_decide_true, E, N.eqb_refl in Hg by done. done.
Qed.

Definition Handing (c : Cluster) : Prop := forall i n, nodes c !! i = Some n -> handing n.

Lemma boot_handing env cf st sm r : New cf st sm = Ok (inl r) -> handing (boot env r).
Proof. intros Hnew%New_follower Hl. cbn in Hl. congruence. Qed.

Lemma Handing_runs c0 c : initial peers config sm0 c0 -> runs c0 c -> Handing c.
Proof.
  intros Hini Hr. enough (exists h, Safe peers sm0 c h /\ Handing c) as (_ & _ & ?) by done. revert c Hr.
  apply (rtc_ind_r (fun c => exists h, Safe peers sm0 c h /\ Handing c)).
  - exists genesis. split; [by eapply initial_Safe|]. destruct Hini as (_ & _ & Hnodes). intros i n Hi.
    destruct (Hnodes _ _ Hi) as (_ & env & st & r & _ & _ & Hnew & ->). by eapply boot_handing.
  - intros c c' _ [i n n' out Hi Hns|i n env st r Hi Hcp Hnew] (h & HS & Hh).
    + destruct (Safe_node_step peers sm0 peers_nodup peers_named c h i n n' out HS Hi Hns) as (h' & HS' & _). exists h'. split; [done|].
      intros j nj Hj. cbn in Hj. apply lookup_insert_Some in Hj as [[<- <-]|[_ Hj]]; [|by eapply Hh].
      eapply handing_step; [by apply (sf_nodes _ _ _ _ HS)|by eapply Hh|done].
    + destruct (Safe_restart peers config sm0 peers_named config_id config_peers c h i n env st r HS Hi Hcp Hnew) as (h' & HS' & _). exists h'. split; [done|].
      intros j nj Hj. cbn in Hj. apply lookup_insert_Some in Hj as [[<- <-]|[_ Hj]]; [by eapply boot_handing|by eapply Hh].
Qed.

(** Every accepted proposal waits at the index of its entry. *)
Lemma accepted_waits batch (r r' : Raft S SM) k p :
  accepted batch r r' -> batch !! k = Some p ->
  waiters r' !! (lastIndex (rlog r) + 1 + N.of_nat k) = Some (mkProposal (p_id p) (p_data p) (rterm r)).
Proof.
  intros (_ & _ & _ & _ & _ & _ & _ & ->) Hk. set (x := mkProposal _ _ _).
  apply (foldl_insert_elem fst snd (waiting (lastIndex (rlog r) + 1) (rterm r) batch) (waiters r) (lastIndex (rlog r) + 1 + N.of_nat k, x)).
  - apply NoDup_alt. intros a b y. rewrite !list_lookup_fmap. unfold waiting. rewrite !list_lookup_imap.
    destruct (batch !! a), (batch !! b); cbn; try done. intros [= <-] [= E]. lia.
  - apply (list_elem_of_lookup_2 _ k). unfold waiting. by rewrite list_lookup_imap, Hk.
Qed.

(** C20: a leader refuses writes only while it is handing leadership over: whatever elections, crashes and transfers a run
    contains, a batch proposed to a running leader is either appended to its log, every proposal of it waiting for its entry and none
    refused, or a call of TransferLeadership that began under this very leadership has not returned yet. So a transfer that
    fails never leaves the shard without writes. *)
Theorem leaders_refuse_only_during_transfers c0 c i n batch r' :
  initial peers config sm0 c0 -> runs c0 c -> nodes c !! i = Some n ->
  state (nd_raft n) = Leader -> stopped (nd_raft n) = false -> appendProposals batch (nd_raft n) = Ok r' ->
  (replies r' = replies (nd_raft n) /\
   rlog r' = (rlog (nd_raft n)) <| entries := entries (rlog (nd_raft n)) ++
     proposalEntries (lastIndex (rlog (nd_raft n)) + 1) (rterm (nd_raft n)) batch |> /\
   forall k p, batch !! k = Some p ->
     waiters r' !! (lastIndex (rlog (nd_raft n)) + 1 + N.of_nat k) = Some (mkProposal (p_id p) (p_data p) (rterm (nd_raft n)))) \/
  (rterm (nd_raft n), transferTarget (nd_raft n)) ∈ nd_transfers n.
Proof.
  intros Hini Hr Hi Hl Hs Hap. destruct (decide (transferTarget (nd_raft n) = "")) as [Ht|Ht].
  - left. apply appendProposals_accepted in Hap as Hac; [|done..]. pose proof Hac as (Hlog & _ & _ & _ & _ & Hre & _).
    split_and!; [done..|]. intros k p Hk. by apply accepted_waits with batch.
  - right. by apply (Handing_runs c0 c Hini Hr i n Hi).
Qed.
End Transfer.

(** ** A proposal in the example run *)
Definition demo_more : list proposal := [mkProposal 8 [Byte.x42] 0].

Lemma demo_more_runs : exists n r', nodes demo_written !! "a" = Some n /\ state (nd_raft n) = Leader /\ stopped (nd_raft n) = false /\
  appendProposals demo_more (nd_raft n) = Ok r'.
Proof.
  assert (Hs : (fun n => (state (nd_raft n), stopped (nd_raft n), match appendProposals demo_more (nd_raft n) with Ok _ => true | _ => false end))
    <$> node_of demo_written "a" = Some (Leader, false, true)) by by vm_compute.
  apply fmap_Some in Hs as (n & Hn & He). exists n. apply (f_equal snd) in He as E3. apply (f_equal fst) in He. cbn [fst snd] in He, E3.
  destruct (appendProposals demo_more (nd_raft n)) as [r'|]; [|discriminate E3]. exists r'.
  exact (conj Hn (conj (eq_sym (f_equal fst He)) (conj (eq_sym (f_equal snd He)) eq_refl))).
Qed.

Lemma leaders_refuse_only_during_transfers_witness :
  exists n (r' : Raft MemStorage bytes), nodes demo_written !! "a" = Some n /\
  ((replies r' = replies (nd_raft n) /\
    rlog r' = (rlog (nd_raft n)) <| entries := entries (rlog (nd_raft n)) ++
      proposalEntries (lastIndex (rlog (nd_raft n)) + 1) (rterm (nd_raft n)) demo_more |> /\
    forall k p, demo_more !! k = Some p ->
      waiters r' !! (lastIndex (rlog (nd_raft n)) + 1 + N.of_nat k) = Some (mkProposal (p_id p) (p_data p) (rterm (nd_raft n)))) \/
   (rterm (nd_raft n), transferTarget (nd_raft n)) ∈ nd_transfers n).
Proof.
  destruct demo_more_runs as (n & r' & Hn & Hl & Hs & Ha). exists n, r'. split; [exact Hn|].
  exact (leaders_refuse_only_during_transfers demo_peers demo_config [] demo_peers_nodup demo_peers_named (fun _ => eq_refl) (fun _ => eq_refl)
    demo_start demo_written "a" n demo_more r' demo_initial
    (rtc_trans _ _ _ (run_schedule_steps _ _ _ _ _ (proj1 demo_election_runs)) (run_schedule_steps _ _ _ _ _ (proj1 demo_write_runs)))
    Hn Hl Hs Ha).
Defined.
