(* ===== verification/Proposals.v ===== *)
(** * Every proposal is answered once (internal/raft/apply.go, raft.go)

    A proposal's answer is sent on a channel that holds one value, most of the time by a goroutine that holds the
    replica's lock: a second answer would block the replica for good, and a proposal that is dropped leaves its caller waiting
    until its context ends. Proposals are answered where they are refused, where their entry is applied, and where
    leadership is lost or the replica stops. Over every run of a group, the answers given and the proposals
    that wait are exactly the proposals handed over since the process started, each once. *)

From S2P Require Import Prelude Types RaftLog Storage Raft RaftFacts Cluster Run Election LogCore LogFacts Agree AgreeSteps Agreement Acknowledge ReadIndex Transfer.

(** ** Counting *)
Section Counting.
Context {S SM : Type} `{Storage S} `{StateMachine SM}.
#[local] Abbreviation Raft := (Raft S SM).
Implicit Types r : Raft.

Lemma foldl_insert_values {A} (l : list (N * A)) : forall m : gmap N A,
  NoDup l.*1 -> (forall k, k ∈ l.*1 -> m !! k = None) ->
  (map_to_list (foldl (fun m ip => <[ip.1 := ip.2]> m) m l)).*2 ≡ₚ (map_to_list m).*2 ++ l.*2.
Proof.
  induction l as [|[k x] l IH]; intros m Hn Hf; cbn [foldl]; [by rewrite app_nil_r|]. rewrite fmap_cons in Hn, Hf. apply NoDup_cons in Hn as [Hk Hn].
  rewrite IH; [|done|].
  - cbn. rewrite map_to_list_insert by (apply Hf; by left). cbn. by rewrite Permutation_middle.
  - intros k' Hk'. cbn. rewrite lookup_insert_ne by (by intros ->). apply Hf. by right.
Qed.

Lemma waiting_keys first t batch : NoDup (waiting first t batch).*1 /\ forall k, k ∈ (waiting first t batch).*1 -> first <= k < first + lenN batch.
Proof.
  assert (Hl : forall a y, (waiting first t batch).*1 !! a = Some y -> y = first + N.of_nat a /\ (a < length batch)%nat).
  { intros a y. rewrite list_lookup_fmap. unfold waiting. rewrite list_lookup_imap. destruct (batch !! a) eqn:Ha; cbn; [|done].
    intros [= <-]. split; [done|by eapply lookup_lt_Some]. }
  split.
  - apply NoDup_alt. intros a b y [-> _]%Hl [E _]%Hl. lia.
  - intros k [a [-> Hlt]%Hl]%list_elem_of_lookup. unfold lenN. lia.
Qed.

Lemma waiting_ids first t batch : p_id <$> (waiting first t batch).*2 = p_id <$> batch.
Proof.
  apply list_eq. intros k. unfold waiting. rewrite !list_lookup_fmap, list_lookup_imap. by destruct (batch !! k).
Qed.

(** Nobody waits beyond the end of the log. *)
Definition within r : Prop := forall k, is_Some (waiters r !! k) -> k <= lastIndex (rlog r).

Lemma accepted_pending batch r r' : within r -> accepted batch r r' -> pending r' ≡ₚ pending r ++ (p_id <$> batch).
Proof.
  intros Hw (_ & _ & _ & _ & _ & Hre & _ & Hwa). unfold pending. rewrite Hre, Hwa.
  destruct (waiting_keys (lastIndex (rlog r) + 1) (rterm r) batch) as [Hn Hk].
  rewrite foldl_insert_values; [|done|].
  - rewrite fmap_app, waiting_ids. by rewrite app_assoc.
  - intros k Hin%Hk. destruct (waiters r !! k) eqn:E; [|done]. pose proof (Hw k ltac:(by rewrite E)). lia.
Qed.

Lemma accepted_within batch r r' : within r -> accepted batch r r' -> within r'.
Proof.
  intros Hw (Hlog & _ & _ & _ & _ & _ & _ & Hwa) k [p Hp]. rewrite Hwa in Hp.
  assert (Hli : lastIndex (rlog r') = lastIndex (rlog r) + lenN batch).
  { rewrite Hlog. unfold lastIndex. cbn. rewrite lenN_app. unfold proposalEntries, lenN. rewrite length_imap. lia. }
  apply foldl_insert_origin in Hp as [Hin|Hold].
  - apply (list_elem_of_fmap_2 fst), waiting_keys in Hin. cbn in Hin. lia.
  - pose proof (Hw k ltac:(by exists p)). lia.
Qed.

Lemma refused_pending batch r r' : refused batch r r' -> pending r' ≡ₚ pending r ++ (p_id <$> batch).
Proof.
  intros [err ->]. unfold pending. cbn. rewrite fmap_app, <- list_fmap_compose, <- !app_assoc. f_equiv. by rewrite Permutation_app_comm.
Qed.

Lemma appendProposals_pending batch r r' : within r -> appendProposals batch r = Ok r' -> pending r' ≡ₚ pending r ++ (p_id <$> batch).
Proof. intros Hw [Hr|Ha]%appendProposals_cases; [by apply refused_pending|by apply accepted_pending]. Qed.

(** *** The applier *)
Lemma answerWaiters_pending ers : forall r, pending (foldl answerWaiter r ers) ≡ₚ pending r.
Proof.
  induction ers as [|er ers IH]; intros r; [done|]. cbn [foldl]. rewrite IH. unfold answerWaiter, pending.
  destruct (waiters r !! ent_Index er.1) as [p|] eqn:Hw; [|done]. cbn. rewrite fmap_app, <- app_assoc. f_equiv.
  rewrite <- (map_to_list_delete _ _ _ Hw). done.
Qed.

Lemma applier_step_pending pc r r' pc' : applier_step pc r = Ok (r', pc') -> pending r' ≡ₚ pending r /\ waiters r' ⊆ waiters r.
Proof.
  intros Hb. destruct pc as [|snap|snap|es|es results|index|index data|index t data|index t]; cbn in Hb.
  - unfold applier_wake in Hb. repeat case_match; by inv_ok.
  - apply bind_Ok in Hb as (sm & _ & Hb). by inv_ok.
  - by inv_ok.
  - apply bind_Ok in Hb as ([sm outs] & _ & Hb). by inv_ok.
  - unfold applier_finish in Hb. destruct (last es); [|done]. inv_ok.
    split; [exact (answerWaiters_pending (zip es results) r)|exact (answerWaiters_waiters (zip es results) r)].
  - by inv_ok.
  - by inv_ok.
  - injection Hb as Hb. unfold takeSnapshot_save in Hb. destruct (SaveSnapshot _ _ _ _) as [st []]; by injection Hb as <- <-.
  - by inv_ok.
Qed.
End Counting.

(** ** Runs *)
Section Runs.
Context {S SM : Type} `{StorageLaws S} `{StateMachine SM}.
Context (peers : list string) (config : string -> Config) (sm0 : SM) `{!SnapshotLaw sm0}.
Context (peers_nodup : NoDup peers) (peers_named : "" ∉ peers).
Context (config_id : forall i, ID (config i) = i) (config_peers : forall i, Peers (config i) = peers).

#[local] Abbreviation NodeSt := (NodeSt S SM).
#[local] Abbreviation Cluster := (Cluster S SM).
Implicit Types n : NodeSt.

(** Only a leader has anybody waiting, and nobody beyond the end of its log. *)
Definition waits n : Prop := (waiters (nd_raft n) <> ∅ -> state (nd_raft n) = Leader) /\ within (nd_raft n).

(** A leader's log does not shrink. *)
Lemma leading_grows h h' i n n' :
  node_inv peers sm0 h i n -> follows peers i h (nd_raft n) h' (nd_raft n') -> state (nd_raft n) = Leader -> state (nd_raft n') = Leader ->
  leading (nd_raft n) (nd_raft n') -> lastIndex (rlog (nd_raft n)) <= lastIndex (rlog (nd_raft n')).
Proof.
  intros Hn Hfo Hl Hl' [_ E _]. pose proof (ni_rel _ _ _ _ _ Hn) as Hr. pose proof (fo_rel _ _ _ _ _ _ Hfo) as Hr'.
  destruct (rr_leader _ _ _ _ Hr Hl) as (_ & Hll & _), (rr_leader _ _ _ _ Hr' Hl') as (_ & Hll' & _).
  destruct (rr_log _ _ _ _ Hr) as [Hm _], (rr_log _ _ _ _ Hr') as [Hm' _]. rewrite (rep_lastIndex _ _ Hm), (rep_lastIndex _ _ Hm'), Hll, Hll', E.
  pose proof (prefix_length _ _ (ev_llog _ _ (mv_evolves _ _ _ (fo_moves _ _ _ _ _ _ Hfo)) (rterm (nd_raft n)))) as Hlen. unfold lenN. lia.
Qed.

Lemma waits_fewer h h' i ms n n' out :
  node_inv peers sm0 h i n -> follows peers i h (nd_raft n) h' (nd_raft n') -> reading ms n n' out -> waits n ->
  waiters (nd_raft n') ⊆ waiters (nd_raft n) -> (state (nd_raft n) = Leader -> state (nd_raft n') = Leader \/ waiters (nd_raft n') = ∅) -> waits n'.
Proof.
  intros Hn Hfo Hrd [Hst Hw] Hsub Hdr.
  assert (Hlead : waiters (nd_raft n') <> ∅ -> state (nd_raft n) = Leader /\ state (nd_raft n') = Leader).
  { intros Hne. assert (Hl : state (nd_raft n) = Leader).
    { apply Hst. intros E. rewrite E in Hsub. apply Hne. apply (anti_symm (⊆)); [done|apply map_empty_subseteq]. }
    split; [done|]. by destruct (Hdr Hl). }
  split; [by intros [_ ?]%Hlead|]. intros k [p Hp]. destruct Hlead as [Hl Hl']; [intros E; by rewrite E, lookup_empty in Hp|].
  etrans; [apply (Hw k); exists p; by eapply lookup_weaken|]. destruct (rd_leader _ _ _ _ Hrd Hl') as [[_ Hle]|Hwin]; [by eapply leading_grows|].
  rewrite (wi_state _ _ Hwin) in Hl. done.
Qed.

Lemma waits_step h h' i ms n n' out :
  node_inv peers sm0 h i n -> follows peers i h (nd_raft n) h' (nd_raft n') -> node_step ms n n' out -> waits n ->
  waits n' /\ ((exists batch, proposing n n' batch /\ out = []) \/ pending (nd_raft n') ≡ₚ pending (nd_raft n)).
Proof.
  intros Hn Hfo Hst Hw. pose proof (node_step_reading peers sm0 h i ms n n' out Hn Hst) as Hrd.
  destruct (node_step_kinds _ _ _ _ Hst) as [(Hc & _ & _)|[(batch & r' & Hne & Hap & -> & ->)|[(r' & pc & Hap & ->)|
    [(target & r' & t & Hb & ->)|(t & target & Hin & ->)]]]].
  - split; [|right; apply Hc]. eapply waits_fewer; [done..|apply Hc|apply Hc].
  - split; [|left; exists batch; split_and!; [split; [done|by exists r']|done]]. destruct (appendProposals_cases _ _ _ Hap) as [[err ->]|Hac]; [done|].
    split; cbn; [intros _; apply Hac|]. eapply accepted_within; [apply Hw|done].
  - pose proof (applier_step_pending _ _ _ _ Hap) as [Hp Hsub]. split; [|by right]. apply applier_step_post, (f_equal (fst)) in Hap.
    eapply waits_fewer; [done..|]. intros Hl. left. cbn. unfold seat in Hap. injection Hap as E1 E2 E3 E4 E5. congruence.
  - revert Hb. unfold transfer_begin. repeat case_match; intros [= <- _]. split; [done|by right].
  - cbn. unfold transfer_cleanup. case_match; (split; [done|by right]).
Qed.

(** A run, with the proposals handed to node [i] since its process started. *)
Inductive trail (i : string) : Cluster -> list proposal -> Prop :=
| trail_start c : initial peers config sm0 c -> trail i c []
| trail_propose c ps n n' batch :
    trail i c ps -> nodes c !! i = Some n -> proposing n n' batch ->
    trail i (mkCluster (<[i := n']> (nodes c)) (net c ++ [])) (ps ++ batch)
| trail_node c ps j n n' out :
    trail i c ps -> nodes c !! j = Some n -> node_step (net c) n n' out -> (j = i -> forall batch, ~ proposing n n' batch) ->
    trail i (mkCluster (<[j := n']> (nodes c)) (net c ++ out)) ps
| trail_restart c ps j n env st r :
    trail i c ps -> nodes c !! j = Some n -> crash_point (net c) n st -> New (config j) st sm0 = Ok (inl r) ->
    trail i (mkCluster (<[j := boot env r]> (nodes c)) (net c)) (if decide (j = i) then [] else ps).

(** What is known along a trail. *)
Definition followed (i : string) (c : Cluster) (ps : list proposal) : Prop :=
  exists h, Safe peers sm0 c h /\ (forall j n, nodes c !! j = Some n -> waits n) /\
    forall n, nodes c !! i = Some n -> pending (nd_raft n) ≡ₚ p_id <$> ps /\ told sm0 (.∈ ps) h i n.

Lemma boot_waits env cf st sm r : New cf st sm = Ok (inl r) -> waits (boot env r) /\ pending (nd_raft (boot env r)) = [].
Proof.
  intros [Hw Hr]%New_quiet. unfold waits, within, pending. cbn. rewrite Hw, Hr, map_to_list_empty. split_and!; [done| |done].
  intros k [p Hp]. by rewrite lookup_empty in Hp.
Qed.

Lemma proposing_step ms n n' batch : proposing n n' batch -> node_step ms n n' [].
Proof. intros (Hne & r' & Hap & ->). by apply step_propose with batch. Qed.

Lemma followed_propose i c ps n n' batch :
  followed i c ps -> nodes c !! i = Some n -> proposing n n' batch -> followed i (mkCluster (<[i := n']> (nodes c)) (net c ++ [])) (ps ++ batch).
Proof.
  intros (h & HS & Hw & Hp) Hi Hpr. pose proof (proposing_step (net c) _ _ _ Hpr) as Hst. pose proof (sf_nodes _ _ _ _ HS _ _ Hi) as Hn.
  destruct (Safe_node_step peers sm0 peers_nodup peers_named c h i n n' [] HS Hi Hst) as (h' & HS' & Hfo). exists h'. split_and!; [done|..]; cbn [nodes].
  - intros k m [[<- <-]|[_ Hk]]%lookup_insert_Some; [|by eapply Hw]. eapply waits_step; [done..|by eapply Hw].
  - intros m [[_ <-]|[? _]]%lookup_insert_Some; [|done]. destruct (Hp _ Hi) as [Hpe Hto], Hpr as (_ & r' & Hap & ->). split.
    + cbn. rewrite fmap_app, <- Hpe. apply appendProposals_pending; [|done]. by eapply Hw.
    + eapply told_weaken; [by eapply told_propose|]. intros p. cbn. rewrite elem_of_app. tauto.
Qed.

Lemma followed_node i c ps j n n' out :
  followed i c ps -> nodes c !! j = Some n -> node_step (net c) n n' out -> (j = i -> forall batch, ~ proposing n n' batch) ->
  followed i (mkCluster (<[j := n']> (nodes c)) (net c ++ out)) ps.
Proof.
  intros (h & HS & Hw & Hp) Hj Hst Hnp. pose proof (sf_nodes _ _ _ _ HS _ _ Hj) as Hn.
  destruct (Safe_node_step peers sm0 peers_nodup peers_named c h j n n' out HS Hj Hst) as (h' & HS' & Hfo).
  destruct (waits_step h h' j _ n n' out Hn Hfo Hst (Hw _ _ Hj)) as [Hw' Hk].
  exists h'. split_and!; [done|..]; cbn [nodes]; intros k.
  - intros m [[<- <-]|[_ ?]]%lookup_insert_Some; [done|by eapply Hw].
  - intros [[-> <-]|[Hne Hk']]%lookup_insert_Some.
    + destruct (Hp _ Hj) as [Hpe Hto]. split; [destruct Hk as [(batch & Hpr & _)|Hk]; [by destruct (Hnp eq_refl batch)|by rewrite Hk]|].
      eapply (told_node_step peers sm0 (.∈ ps)); [apply HS|done..|]. intros batch p Hpr. by destruct (Hnp eq_refl batch).
    + destruct (Hp _ Hk'). split; [done|]. by eapply (told_other sm0 _ j); [apply Hfo|..].
Qed.

Lemma followed_restart i c ps j n env st r :
  followed i c ps -> nodes c !! j = Some n -> crash_point (net c) n st -> New (config j) st sm0 = Ok (inl r) ->
  followed i (mkCluster (<[j := boot env r]> (nodes c)) (net c)) (if decide (j = i) then [] else ps).
Proof.
  intros (h & HS & Hw & Hp) Hj Hcp Hnew. pose proof (boot_waits env _ _ _ _ Hnew) as [Hbw Hbp].
  destruct (Safe_restart peers config sm0 peers_named config_id config_peers c h j n env st r HS Hj Hcp Hnew) as (h' & HS' & Hmv).
  exists h'. split_and!; [done|..]; cbn [nodes].
  - intros k m [[<- <-]|[_ Hk]]%lookup_insert_Some; [done|by eapply Hw].
  - intros m [[-> <-]|[Hne Hk]]%lookup_insert_Some.
    + rewrite decide_True, Hbp by done. split; [done|by eapply told_boot].
    + rewrite decide_False by done. destruct (Hp _ Hk). split; [done|]. by eapply (told_other sm0 _ j).
Qed.

Lemma trail_followed i c ps : trail i c ps -> followed i c ps.
Proof.
  induction 1 as [c Hini| | |]; [|by eapply followed_propose|by eapply followed_node|by eapply followed_restart].
  exists genesis. destruct Hini as (Hnet & Hall & Hnodes). split_and!; [by eapply initial_Safe|..].
  - intros j n Hj. destruct (Hnodes _ _ Hj) as (_ & env & st & r & _ & _ & Hnew & ->). by apply (boot_waits env) in Hnew as [? _].
  - intros n Hj. destruct (Hnodes _ _ Hj) as (_ & env & st & r & _ & _ & Hnew & ->). split; [|by eapply told_boot].
    by apply (boot_waits env) in Hnew as [_ ->].
Qed.

Lemma trail_runs i c ps : trail i c ps -> exists c0, initial peers config sm0 c0 /\ rtc (step config sm0) c0 c.
Proof.
  induction 1 as [c Hini|c ps n n' batch _ (c0 & ? & Hr) Hi Hpr|c ps j n n' out _ (c0 & ? & Hr) Hj Hst _|c ps j n env st r _ (c0 & ? & Hr) Hj Hcp Hnew].
  - by exists c.
  - exists c0. split; [done|]. eapply rtc_r; [done|]. eapply step_node; [done|by eapply proposing_step].
  - exists c0. split; [done|]. eapply rtc_r; [done|by eapply step_node].
  - exists c0. split; [done|]. eapply rtc_r; [done|by eapply step_restart].
Qed.

(** A step hands over proposals or it does not: only one that does has more of them pending. *)
Lemma trail_step i c ps j n n' out :
  trail i c ps -> nodes c !! j = Some n -> node_step (net c) n n' out ->
  (exists batch, proposing n n' batch /\ out = []) \/ (forall batch, ~ proposing n n' batch).
Proof.
  intros Ht Hj Hst. pose proof (trail_followed _ _ _ Ht) as (h & HS & Hw & _).
  destruct (Safe_node_step peers sm0 peers_nodup peers_named c h j n n' out HS Hj Hst) as (h' & _ & Hfo).
  destruct (waits_step h h' j _ n n' out (sf_nodes _ _ _ _ HS _ _ Hj) Hfo Hst (Hw _ _ Hj)) as [_ [?|Hk]]; [by left|right].
  intros batch (Hne & r' & Hap & ->). cbn in Hk. rewrite (appendProposals_pending _ _ _ (proj2 (Hw _ _ Hj)) Hap) in Hk.
  apply Permutation_length in Hk. rewrite length_app, length_fmap in Hk. destruct batch; [done|cbn in Hk; lia].
Qed.

(** So every run has a trail. *)
Lemma trail_extends i c ps j n n' out :
  trail i c ps -> nodes c !! j = Some n -> node_step (net c) n n' out ->
  exists ps', trail i (mkCluster (<[j := n']> (nodes c)) (net c ++ out)) ps' /\ ps `prefix_of` ps'.
Proof.
  intros Ht Hj Hst. destruct (decide (j = i)) as [->|Hne]; [|exists ps; split; [by eapply trail_node|done]].
  destruct (trail_step _ _ _ _ _ _ _ Ht Hj Hst) as [(batch & Hpr & ->)|Hnp].
  - exists (ps ++ batch). split; [by eapply trail_propose|by apply prefix_app_r].
  - exists ps. split; [by eapply trail_node|done].
Qed.

Lemma every_run_is_a_trail i c0 c : initial peers config sm0 c0 -> rtc (step config sm0) c0 c -> exists ps, trail i c ps.
Proof.
  intros Hini. revert c. apply (rtc_ind_r (fun c => exists ps, trail i c ps)); [exists []; by constructor|].
  intros c c' _ [j n n' out Hj Hst|j n env st r Hj Hcp Hnew] [ps Ht]; [|eexists; by eapply trail_restart].
  destruct (trail_extends _ _ _ _ _ _ _ Ht Hj Hst) as (ps' & ? & _). by exists ps'.
Qed.

Lemma trail_schedule i sched : forall c c' ps, trail i c ps -> run_schedule c sched = Some c' -> exists ps', trail i c' ps' /\ ps `prefix_of` ps'.
Proof.
  induction sched as [|[j a] sched IH]; intros c c' ps Ht Hr; cbn in Hr; [simplify_eq; by exists ps|].
  apply bind_Some in Hr as (c1 & He & Hr). apply exec_at_step in He as (n & n' & out & Hj & Hst & ->).
  destruct (trail_extends _ _ _ _ _ _ _ Ht Hj Hst) as (ps1 & Ht1 & Hp1). destruct (IH _ _ _ Ht1 Hr) as (ps' & ? & ?). exists ps'. split; [done|by etrans].
Qed.

(** The result a proposal was answered with: its command is in a log all replicas agree with, then and later. *)
Lemma trail_result i c c2 ps n id out :
  trail i c ps -> rtc (step config sm0) c c2 -> nodes c !! i = Some n -> (id, PResult out) ∈ replies (nd_raft n) ->
  exists L k e p sm sm', contiguous 0 L /\
    (forall j nj, nodes c !! j = Some nj -> agrees sm0 L nj) /\ (forall j nj, nodes c2 !! j = Some nj -> agrees sm0 L nj) /\
    p ∈ ps /\ p_id p = id /\
    L !! k = Some e /\ ent_Index e = N.of_nat k + 1 /\ ent_Type e = ENTRY_NORMAL /\ ent_Data e = p_data p /\
    ent_Index e <= commitIndex (nd_raft n) /\
    applied sm0 (take k L) sm /\ sm_apply sm (ent_Index e) (ent_Data e) = Ok (sm', out).
Proof.
  intros Ht Hr Hi Hin. destruct (trail_followed _ _ _ Ht) as (h & HS & _ & Hp). destruct (Hp _ Hi) as [_ Hto].
  by eapply (answers_in_log peers config sm0 peers_nodup peers_named config_id config_peers (.∈ ps)); [..|by apply (to_replies _ _ _ _ _ Hto)].
Qed.

(** Two waiters with different keys stand for two places of the list of waiting identifiers. *)
Lemma waiters_apart (r : Raft S SM) k k' p p' :
  NoDup (p_id <$> (map_to_list (waiters r)).*2) -> waiters r !! k = Some p -> waiters r !! k' = Some p' -> p_id p' = p_id p -> k' = k.
Proof.
  intros Hnd Hk Hk' E. rewrite <- list_fmap_compose in Hnd.
  apply elem_of_map_to_list, list_elem_of_lookup in Hk as [a Ha]. apply elem_of_map_to_list, list_elem_of_lookup in Hk' as [b Hb].
  assert (a = b) as <-; [|congruence]. eapply NoDup_lookup; [exact Hnd|..]; rewrite list_lookup_fmap; [rewrite Ha|rewrite Hb; cbn]; cbn; by rewrite ?E.
Qed.

Lemma waiting_id (r : Raft S SM) id : id ∈ p_id <$> (map_to_list (waiters r)).*2 <-> exists k p, waiters r !! k = Some p /\ p_id p = id.
Proof.
  rewrite <- list_fmap_compose, list_elem_of_fmap. setoid_rewrite <- (elem_of_map_to_list (waiters r)). split.
  - intros ([k p] & -> & Hin). by exists k, p.
  - intros (k & p & Hin & <-). by exists (k, p).
Qed.

(** Nothing handed to a replica since its process started is answered twice or lost: the proposals answered and those that still
    wait are those handed over, no identifier in both and none twice, and only a leader keeps anyone waiting, with the command it was handed. *)
Lemma answered_once i c ps n (ids := p_id <$> ps) :
  trail i c ps -> NoDup ids -> nodes c !! i = Some n ->
  NoDup (replies (nd_raft n)).*1 /\
  (forall id ans, (id, ans) ∈ replies (nd_raft n) -> id ∈ ids /\ forall k p, waiters (nd_raft n) !! k = Some p -> p_id p <> id) /\
  (forall k p, waiters (nd_raft n) !! k = Some p -> (exists p0, p0 ∈ ps /\ p_id p0 = p_id p /\ p_data p0 = p_data p) /\ state (nd_raft n) = Leader /\
    forall k' p', waiters (nd_raft n) !! k' = Some p' -> p_id p' = p_id p -> k' = k) /\
  forall id, id ∈ ids -> (exists ans, (id, ans) ∈ replies (nd_raft n)) \/ exists k p, waiters (nd_raft n) !! k = Some p /\ p_id p = id.
Proof.
  intros Ht Hnd Hi. pose proof (trail_followed _ _ _ Ht) as (h & _ & Hw & Hp). destruct (Hp _ Hi) as [Hpe Hto], (Hw _ _ Hi) as [Hl _].
  fold ids in Hpe. clear Hp. rewrite <- Hpe in Hnd. unfold pending in *. apply NoDup_app in Hnd as (Hr & Hd & Hwt).
  assert (Hin : forall id, id ∈ ids <-> id ∈ (replies (nd_raft n)).*1 \/ id ∈ p_id <$> (map_to_list (waiters (nd_raft n))).*2).
  { intros id. by rewrite <- Hpe, elem_of_app. }
  split_and!; [done|..].
  - intros id ans Ha%(list_elem_of_fmap_2 fst). split; [apply Hin; by left|]. intros k p Hk E. apply (Hd _ Ha), waiting_id. by exists k, p.
  - intros k p Hk. split_and!; [apply (to_waiters _ _ _ _ _ Hto _ _ Hk)| |intros k' p' Hk' E; by eapply waiters_apart].
    apply Hl. intros E. by rewrite E, lookup_empty in Hk.
  - intros id [Hid|Hid]%Hin; [left|right; by apply waiting_id]. apply list_elem_of_fmap in Hid as ([id' ans] & -> & Ha). by exists ans.
Qed.
End Runs.
