(* ===== verification/Proposer.v ===== *)
(** * Callers of Propose and the proposer they share (internal/raft/apply.go)

    [Propose] hands a command to [runProposer] over a buffered channel and waits for its answer, its context or the stop; the
    proposer takes one proposal, adds what has queued up behind it, up to a limit, and appends the batch.
    The events below are the points where one of these goroutines acts, in any order, between the steps of the group.
    The theorems follow a command from the call to its answer: through the channel and the batch
    ([drain_is_nextBatch]), into the replica, where [Proposals.v] accounts for it, and back to the caller that submitted it. *)

From S2P Require Import Prelude Types RaftLog Storage Raft RaftFacts Cluster Run Election LogCore LogFacts Agree AgreeSteps Agreement Acknowledge ReadIndex Transfer Proposals.

#[local] Open Scope N_scope.

(** Where the proposer is. *)
Inductive proposerPC :=
| PrIdle                                             (* waits for a proposal, or for the stop *)
| PrDraining (batch : list proposal)
| PrReady (batch : list proposal)                    (* full, or the channel was empty; about to append *)
| PrExited.

(** What a call returns: a result, an error of the replica, or the error of its context. *)
Inductive proposeResult :=
| ProposeResult (result : bytes)
| ProposeError (err : raftError)
| ProposeContext.

(** Where a caller is: in the first select, in the second, or back. *)
Inductive proposePC :=
| PcSending
| PcWaiting
| PcReturned (res : proposeResult).

Record proposes := mkProposes {
  proposeCh : list proposal;                         (* the proposals buffered in the channel *)
  pr_pc : proposerPC;
  pr_calls : gmap nat (bytes * proposePC);           (* the calls and their commands *)
}.

#[global] Instance eta_proposes : Eta proposes := fun s => mkProposes (proposeCh s) (pr_pc s) (pr_calls s).

Definition proposes_start : proposes := mkProposes [] PrIdle ∅.

Definition proposeChCap : nat := N.to_nat 4096.

Inductive pevent :=
| EvPropose (id : nat) (data : bytes)
| EvSend (id : nat)
| EvContext (id : nat)
| EvStopped (id : nat)
| EvDone (id : nat)
| EvTake
| EvMore
| EvEnough
| EvAppend
| EvLeave.

Section Machine.
Context {S SM : Type} `{Storage S} `{StateMachine SM}.
#[local] Abbreviation Raft := (Raft S SM).
Implicit Types r : Raft.

(** What was sent on the channel of a proposal, which holds one value. *)
Definition done_of (id : nat) r : option proposalResult := (list_to_map (replies r) : gmap nat proposalResult) !! id.

Definition result_of (ans : proposalResult) : proposeResult :=
  match ans with PResult out => ProposeResult out | PError err => ProposeError err end.

Definition propose_returns (id : nat) (data : bytes) (res : proposeResult) (s : proposes) : proposes :=
  s <| pr_calls := <[id := (data, PcReturned res)]> (pr_calls s) |>.

(** One step of one goroutine, the limit of a batch being [max] and the replica [r], whose [stopCh] is closed once it is [stopped].
    Only the append changes the replica. *)
Definition propose_step (max : nat) r (ev : pevent) (s : proposes) : option (res Raft * proposes) :=
  match ev with
  | EvPropose id data =>
      match pr_calls s !! id with
      | None => Some (Ok r, s <| pr_calls := <[id := (data, PcSending)]> (pr_calls s) |>)
      | Some _ => None
      end
  | EvSend id =>
      match pr_calls s !! id with
      | Some (data, PcSending) =>
          if (length (proposeCh s) <? proposeChCap)%nat
          then Some (Ok r, s <| proposeCh := proposeCh s ++ [mkProposal id data 0] |> <| pr_calls := <[id := (data, PcWaiting)]> (pr_calls s) |>)
          else None
      | _ => None
      end
  | EvContext id =>
      match pr_calls s !! id with
      | None | Some (_, PcReturned _) => None
      | Some (data, _) => Some (Ok r, propose_returns id data ProposeContext s)
      end
  | EvStopped id =>
      match pr_calls s !! id with
      | None | Some (_, PcReturned _) => None
      | Some (data, _) => if stopped r then Some (Ok r, propose_returns id data (ProposeError ErrStopped) s) else None
      end
  | EvDone id =>
      match pr_calls s !! id, done_of id r with
      | Some (data, PcWaiting), Some ans => Some (Ok r, propose_returns id data (result_of ans) s)
      | _, _ => None
      end
  | EvTake =>
      match pr_pc s, proposeCh s with
      | PrIdle, p :: queue => Some (Ok r, s <| proposeCh := queue |> <| pr_pc := PrDraining [p] |>)
      | _, _ => None
      end
  | EvMore =>
      match pr_pc s, proposeCh s with
      | PrDraining batch, p :: queue =>
          if (length batch <? max)%nat then Some (Ok r, s <| proposeCh := queue |> <| pr_pc := PrDraining (batch ++ [p]) |>) else None
      | _, _ => None
      end
  | EvEnough =>
      match pr_pc s with
      | PrDraining batch =>
          if (length batch <? max)%nat && negb (bool_decide (proposeCh s = [])) then None
          else Some (Ok r, s <| pr_pc := PrReady batch |>)
      | _ => None
      end
  | EvAppend =>
      match pr_pc s with
      | PrReady batch => Some (appendProposals batch r, s <| pr_pc := PrIdle |>)
      | _ => None
      end
  | EvLeave =>
      match pr_pc s with
      | PrIdle => if stopped r then Some (Ok r, s <| pr_pc := PrExited |>) else None
      | _ => None
      end
  end.

(** The batch an event hands to the replica. *)
Definition handed (ev : pevent) (s : proposes) : list proposal :=
  match ev, pr_pc s with EvAppend, PrReady batch => batch | _, _ => [] end.

(** ** The line of proposals: those handed over, those in the proposer's hands, those in the channel *)
Definition held (s : proposes) : list proposal :=
  match pr_pc s with PrDraining batch | PrReady batch => batch | _ => [] end.

Definition line (s : proposes) (ps : list proposal) : list proposal := ps ++ held s ++ proposeCh s.

Record orderly (max : nat) (s : proposes) (ps : list proposal) : Prop := {
  or_nodup : NoDup (p_id <$> line s ps);
  or_calls : forall p, p ∈ line s ps -> exists pc, pr_calls s !! p_id p = Some (p_data p, pc) /\ pc <> PcSending;
  or_waiting : forall id data, pr_calls s !! id = Some (data, PcWaiting) -> id ∈ p_id <$> line s ps;
  or_cap : (length (proposeCh s) <= proposeChCap)%nat;
  or_batch : (length (held s) <= max `max` 1)%nat;
  or_some : match pr_pc s with PrDraining batch | PrReady batch => batch <> [] | _ => True end;
}.

(** The branches of one step. *)
Ltac step_cases Hs :=
  cbn -[Nat.ltb proposeChCap] in Hs; repeat match type of Hs with context [match ?x with _ => _ end] => destruct x eqn:? end; simplify_eq.

(** The line only grows at its end, by what a call sends: proposals reach the replica in the order they were sent. *)
Lemma propose_step_line max r ev s m s' ps :
  propose_step max r ev s = Some (m, s') ->
  line s' (ps ++ handed ev s) = line s ps ++ match ev with EvSend id => [mkProposal id (default [] (fst <$> pr_calls s !! id)) 0] | _ => [] end.
Proof.
  destruct s as [ch pc calls]. destruct ev; intros Hs; step_cases Hs; unfold line, held, handed; cbn; by simplify_option_eq; rewrite ?app_nil_r, <- ?app_assoc.
Qed.

(** A call's command is its own for as long as the process runs, and a call in the line has left the first select. *)
Lemma propose_step_calls max r ev s m s' id data pc :
  propose_step max r ev s = Some (m, s') -> pr_calls s !! id = Some (data, pc) ->
  exists pc', pr_calls s' !! id = Some (data, pc') /\ (pc <> PcSending -> pc' <> PcSending) /\
    (pc' = PcWaiting -> pc = PcWaiting \/ ev = EvSend id).
Proof.
  destruct s as [ch spc calls]. unfold propose_returns. destruct ev as [j d|j|j|j|j| | | | |]; intros Hs Hid; step_cases Hs; cbn in *;
    try (eexists; split_and!; [exact Hid|done|by left]).
  all: destruct (decide (j = id)) as [->|]; simplify_eq; rewrite ?lookup_insert_eq, ?lookup_insert_ne by done.
  all: eexists; split_and!; [done| |]; try done; auto.
Qed.

(** Where the calls of a step come from. *)
Lemma propose_step_waiting max r ev s m s' id data :
  propose_step max r ev s = Some (m, s') -> pr_calls s' !! id = Some (data, PcWaiting) ->
  pr_calls s !! id = Some (data, PcWaiting) \/ (ev = EvSend id /\ pr_calls s !! id = Some (data, PcSending)).
Proof.
  destruct s as [ch spc calls]. unfold propose_returns. destruct ev as [j d|j|j|j|j| | | | |]; intros Hs Hid; step_cases Hs; cbn in Hid; auto.
  all: apply lookup_insert_Some in Hid as [[-> [=]]|[_ ?]]; subst; auto.
Qed.

Lemma orderly_start max : orderly max proposes_start [].
Proof. split; cbn; try done; [constructor|by intros p ?%not_elem_of_nil|unfold proposeChCap; lia|lia]. Qed.

(** What a call sends is new in the line. *)
Lemma send_fresh max r id s m s' ps :
  orderly max s ps -> propose_step max r (EvSend id) s = Some (m, s') ->
  (id ∉ p_id <$> line s ps) /\ exists data, pr_calls s !! id = Some (data, PcSending) /\ pr_calls s' !! id = Some (data, PcWaiting).
Proof.
  intros Ho Hs. cbn in Hs. destruct (pr_calls s !! id) as [[data []]|] eqn:Hid; try done. case_match; [|done]. simplify_eq. split.
  - intros (p & -> & Hp)%list_elem_of_fmap. destruct (or_calls _ _ _ Ho _ Hp) as (pc & Hc & Hne). rewrite Hc in Hid. by simplify_eq.
  - exists data. split; [done|]. cbn. apply lookup_insert_eq.
Qed.

Lemma orderly_step max r ev s m s' ps :
  orderly max s ps -> propose_step max r ev s = Some (m, s') -> orderly max s' (ps ++ handed ev s).
Proof.
  intros Ho Hs. pose proof (propose_step_line _ _ _ _ _ _ ps Hs) as Hl.
  assert (Hev : (exists id, ev = EvSend id) \/ line s' (ps ++ handed ev s) = line s ps).
  { destruct ev; eauto; right; rewrite Hl; apply app_nil_r. }
  split.
  - destruct Hev as [[id ->]|E]; [|rewrite E; apply Ho]. destruct (send_fresh _ _ _ _ _ _ _ Ho Hs) as [Hf _].
    rewrite Hl, fmap_app. apply NoDup_app. split_and!; [apply Ho| |apply NoDup_singleton]. intros x Hx ->%list_elem_of_singleton. done.
  - intros p Hp. rewrite Hl in Hp. apply elem_of_app in Hp as [Hp|Hp].
    + destruct (or_calls _ _ _ Ho _ Hp) as (pc & Hc & Hne). destruct (propose_step_calls _ _ _ _ _ _ _ _ _ Hs Hc) as (pc' & ? & Hpc & _). exists pc'. auto.
    + destruct ev as [|id| | | | | | | |]; try by apply not_elem_of_nil in Hp. apply list_elem_of_singleton in Hp as ->.
      destruct (send_fresh _ _ _ _ _ _ _ Ho Hs) as [_ (data & E & E')]. cbn [p_id p_data]. rewrite E. by exists PcWaiting.
  - intros id data Hid. rewrite Hl, fmap_app, elem_of_app. apply (propose_step_waiting _ _ _ _ _ _ _ _ Hs) in Hid as [Hid|[-> _]].
    + left. by eapply Ho.
    + right. cbn. by left.
  - pose proof (or_cap _ _ _ Ho) as Hc. revert Hc. destruct s as [ch spc calls]. destruct ev; step_cases Hs; cbn; rewrite ?length_app; cbn.
    all: try lia. match goal with E : (_ <? _)%nat = true |- _ => apply Nat.ltb_lt in E end. lia.
  - pose proof (or_batch _ _ _ Ho) as Hb. revert Hb. destruct s as [ch spc calls]. unfold held. destruct ev; step_cases Hs; cbn; rewrite ?length_app; cbn.
    all: try lia. match goal with E : (_ <? _)%nat = true |- _ => apply Nat.ltb_lt in E end. lia.
  - pose proof (or_some _ _ _ Ho) as Hb. revert Hb. destruct s as [ch spc calls]. destruct ev; step_cases Hs; cbn; try done.
    all: by intros _ [_ ?]%app_eq_nil.
Qed.

(** What a step does to the replica. *)
Lemma propose_step_raft max r ev s m s' :
  propose_step max r ev s = Some (m, s') -> (m = Ok r /\ handed ev s = []) \/ (exists batch, pr_pc s = PrReady batch /\ m = appendProposals batch r /\ handed ev s = batch).
Proof. unfold handed. destruct ev; intros Hs; step_cases Hs; eauto. Qed.

(** A result comes from the answer on the call's own channel. *)
Lemma propose_step_result max r ev s m s' id data out :
  propose_step max r ev s = Some (m, s') -> pr_calls s !! id = Some (data, PcWaiting) ->
  pr_calls s' !! id = Some (data, PcReturned (ProposeResult out)) -> done_of id r = Some (PResult out).
Proof.
  destruct s as [ch spc calls]. destruct ev as [j d|j|j|j|j| | | | |]; intros Hs Hid Hid'; step_cases Hs; cbn in *; simplify_eq.
  all: apply lookup_insert_Some in Hid' as [[-> [=]]|[_ ?]]; simplify_eq; try done.
  all: match goal with E : result_of ?a = _ |- _ => destruct a; cbn in E; by simplify_eq end.
Qed.

(** ** The batch as the code builds it, and as one function *)
Fixpoint run_proposer (max : nat) r (evs : list pevent) (s : proposes) : option proposes :=
  match evs with
  | [] => Some s
  | ev :: evs => '(_, s) ← propose_step max r ev s; run_proposer max r evs s
  end.

Lemma step_more max r p q batch calls :
  (length batch < max)%nat -> propose_step max r EvMore (mkProposes (p :: q) (PrDraining batch) calls) = Some (Ok r, mkProposes q (PrDraining (batch ++ [p])) calls).
Proof. intros Hlt%Nat.ltb_lt. unfold propose_step. cbn -[Nat.ltb]. by rewrite Hlt. Qed.

Lemma step_enough max r q batch calls :
  q = [] \/ (max <= length batch)%nat -> propose_step max r EvEnough (mkProposes q (PrDraining batch) calls) = Some (Ok r, mkProposes q (PrReady batch) calls).
Proof.
  intros Hc. unfold propose_step. cbn -[Nat.ltb bool_decide]. destruct Hc as [->|Hle%Nat.ltb_ge]; [|by rewrite Hle].
  by rewrite bool_decide_true, andb_false_r.
Qed.

Lemma drain_more max r calls : forall q batch, exists k,
  run_proposer max r (replicate k EvMore ++ [EvEnough]) (mkProposes q (PrDraining batch) calls)
    = Some (mkProposes (drop (max - length batch) q) (PrReady (batch ++ take (max - length batch) q)) calls).
Proof.
  induction q as [|p q IH]; intros batch.
  - exists 0%nat. cbn [replicate app run_proposer]. rewrite step_enough by by left. cbn. by rewrite drop_nil, take_nil, app_nil_r.
  - destruct (Nat.lt_ge_cases (length batch) max) as [Hlt|Hge].
    + destruct (IH (batch ++ [p])) as [k Hk]. exists (Datatypes.S k). cbn [replicate app run_proposer]. rewrite step_more by done. cbn [mbind option_bind].
      rewrite Hk, length_app, <- app_assoc. replace (max - length batch)%nat with (Datatypes.S (max - (length batch + length [p]))) by (cbn; lia). done.
    + exists 0%nat. cbn [replicate app run_proposer]. rewrite step_enough by by right. cbn [mbind option_bind].
      replace (max - length batch)%nat with 0%nat by lia. by rewrite app_nil_r.
Qed.

Lemma drain_is_nextBatch max r q calls batch rest :
  nextBatch (N.of_nat max) q = Some (batch, rest) ->
  exists k, run_proposer max r (EvTake :: replicate k EvMore ++ [EvEnough]) (mkProposes q PrIdle calls) = Some (mkProposes rest (PrReady batch) calls).
Proof.
  destruct q as [|p q]; cbn; [done|]. intros [= <- <-]. rewrite Nnat.Nat2N.id. exact (drain_more max r calls q [p]).
Qed.
End Machine.

(** ** The callers of one node, while the group runs *)
Section Serving.
Context {S SM : Type} `{StorageLaws S} `{StateMachine SM}.
Context (peers : list string) (config : string -> Config) (sm0 : SM) `{!SnapshotLaw sm0}.
Context (peers_nodup : NoDup peers) (peers_named : "" ∉ peers).
Context (config_id : forall i, ID (config i) = i) (config_peers : forall i, Peers (config i) = peers).

#[local] Abbreviation Raft := (Raft S SM).
#[local] Abbreviation NodeSt := (NodeSt S SM).
#[local] Abbreviation Cluster := (Cluster S SM).
Implicit Types (n : NodeSt) (c : Cluster).

(** The limit [New] gives the proposer. *)
Definition batchLimit (i : string) : nat :=
  match setDefaults (config i) with Some cf => N.to_nat (MaxProposalBatch cf) | None => 0%nat end.

(** A run of the group with the callers and the proposer of [i], and the proposals handed over since its process
    started. No other step of [i] hands over proposals; a restart forgets the callers with the process. *)
Inductive serving (i : string) : Cluster -> proposes -> list proposal -> Prop :=
| sv_start c : initial peers config sm0 c -> serving i c proposes_start []
| sv_event c s ps n ev r' s' :
    serving i c s ps -> nodes c !! i = Some n -> propose_step (batchLimit i) (nd_raft n) ev s = Some (Ok r', s') ->
    serving i (mkCluster (<[i := n <| nd_raft := r' |>]> (nodes c)) (net c ++ [])) s' (ps ++ handed ev s)
| sv_node c s ps j n n' out :
    serving i c s ps -> nodes c !! j = Some n -> node_step (net c) n n' out -> (j = i -> forall batch, ~ proposing n n' batch) ->
    serving i (mkCluster (<[j := n']> (nodes c)) (net c ++ out)) s ps
| sv_restart c s ps j n env st r :
    serving i c s ps -> nodes c !! j = Some n -> crash_point (net c) n st -> New (config j) st sm0 = Ok (inl r) ->
    serving i (mkCluster (<[j := boot env r]> (nodes c)) (net c))
      (if decide (j = i) then proposes_start else s) (if decide (j = i) then [] else ps).

Lemma same_cluster c i n : nodes c !! i = Some n -> mkCluster (<[i := n <| nd_raft := nd_raft n |>]> (nodes c)) (net c ++ []) = c.
Proof. intros Hi. destruct c as [ns ms]. cbn in *. rewrite app_nil_r. destruct n. by rewrite insert_id. Qed.

Lemma serving_trail i c s ps : serving i c s ps -> trail peers config sm0 i c ps /\ orderly (batchLimit i) s ps.
Proof.
  induction 1 as [c Hini|c s ps n ev r' s' _ [Ht Ho] Hi Hs|c s ps j n n' out _ [Ht Ho] Hj Hst Hnp|c s ps j n env st r _ [Ht Ho] Hj Hcp Hnew].
  - split; [by constructor|apply orderly_start].
  - split; [|by eapply orderly_step]. destruct (propose_step_raft _ _ _ _ _ _ Hs) as [[[= ->] ->]|(batch & Hpc & Hap & ->)].
    + rewrite same_cluster, app_nil_r by done. done.
    + eapply trail_propose; [done..|]. pose proof (or_some _ _ _ Ho) as Hne. rewrite Hpc in Hne. split; [done|by exists r'].
  - split; [by eapply trail_node|done].
  - split; [by eapply trail_restart|]. case_decide; [apply orderly_start|done].
Qed.

(** The command of a proposal is the one its call was made with. *)
Lemma orderly_data max s ps p data pc : orderly max s ps -> p ∈ ps -> pr_calls s !! p_id p = Some (data, pc) -> p_data p = data.
Proof.
  intros Ho Hp Hid. destruct (or_calls _ _ _ Ho p) as (pc' & Hc & _); [unfold line; rewrite elem_of_app; by left|]. rewrite Hid in Hc. by simplify_eq.
Qed.

Lemma done_of_In id (r : Raft) ans : done_of id r = Some ans -> (id, ans) ∈ replies r.
Proof. apply elem_of_list_to_map_2. Qed.

(** Propose returns the result of its own command. When a call of Propose returns a result, in any run of the group with crashes
    and restarts and any interleaving of callers and the proposer, there is one log with which every replica agrees then and at any later
    moment, that has the command of this very call at an index the node has committed; the result is what the state machine returned for it
    after exactly the entries before that index. *)
Theorem propose_returns_its_result i c c2 s ps n ev m s' id data out :
  serving i c s ps -> nodes c !! i = Some n -> propose_step (batchLimit i) (nd_raft n) ev s = Some (m, s') ->
  pr_calls s !! id = Some (data, PcWaiting) -> pr_calls s' !! id = Some (data, PcReturned (ProposeResult out)) -> rtc (step config sm0) c c2 ->
  exists L k e sm sm', contiguous 0 L /\
    (forall j nj, nodes c !! j = Some nj -> agrees sm0 L nj) /\ (forall j nj, nodes c2 !! j = Some nj -> agrees sm0 L nj) /\
    L !! k = Some e /\ ent_Index e = N.of_nat k + 1 /\ ent_Type e = ENTRY_NORMAL /\ ent_Data e = data /\
    ent_Index e <= commitIndex (nd_raft n) /\
    applied sm0 (take k L) sm /\ sm_apply sm (ent_Index e) (ent_Data e) = Ok (sm', out).
Proof.
  intros Hsv Hi Hs Hid Hid' Hr. destruct (serving_trail _ _ _ _ Hsv) as [Ht Ho].
  pose proof (propose_step_result _ _ _ _ _ _ _ _ _ Hs Hid Hid') as Hd.
  destruct (trail_result peers config sm0 peers_nodup peers_named config_id config_peers _ _ _ _ _ _ _ Ht Hr Hi (done_of_In _ _ _ Hd))
    as (L & k & e & p & sm & sm' & H1' & H2' & H3' & Hp & Hpid & HL).
  exists L, k, e, sm, sm'. rewrite <- (orderly_data _ _ _ _ _ _ Ho Hp ltac:(by rewrite Hpid)). done.
Qed.

Lemma done_of_sent id (r : Raft) : NoDup (replies r).*1 -> (exists ans, done_of id r = Some ans) <-> id ∈ (replies r).*1.
Proof.
  intros Hnd. split.
  - intros [ans Hd%done_of_In]. by apply (list_elem_of_fmap_2 fst) in Hd.
  - intros ([id' ans] & -> & Hin)%list_elem_of_fmap. exists ans. by apply elem_of_list_to_map_1.
Qed.

(** C18: every call of Propose is answered at most once and none is lost. In any run, the answers a replica has sent since its process
    started are to distinct calls; and a call that waits is in exactly one place: in the channel or the batch of the proposer with
    its command, among the waiters of a leader, or it has its answer and can return it. No batch exceeds the limit. *)
Theorem propose_calls_are_answered_once i c s ps n :
  serving i c s ps -> nodes c !! i = Some n ->
  NoDup (replies (nd_raft n)).*1 /\ (length (held s) <= batchLimit i `max` 1)%nat /\
  (forall id ans, (id, ans) ∈ replies (nd_raft n) -> exists data pc, pr_calls s !! id = Some (data, pc) /\ pc <> PcSending) /\
  (forall id data, pr_calls s !! id = Some (data, PcWaiting) ->
    let queued := exists p, p ∈ held s ++ proposeCh s /\ p_id p = id /\ p_data p = data in
    let waiting := exists k p, waiters (nd_raft n) !! k = Some p /\ p_id p = id /\ p_data p = data in
    let sent := exists ans, done_of id (nd_raft n) = Some ans /\
      propose_step (batchLimit i) (nd_raft n) (EvDone id) s = Some (Ok (nd_raft n), propose_returns id data (result_of ans) s) in
    (queued /\ ~ waiting /\ ~ sent) \/ (~ queued /\ (waiting /\ state (nd_raft n) = Leader) /\ ~ sent) \/ (~ queued /\ ~ waiting /\ sent)).
Proof.
  intros Hsv Hi. destruct (serving_trail _ _ _ _ Hsv) as [Ht Ho]. pose proof (or_nodup _ _ _ Ho) as Hnd. unfold line in Hnd.
  rewrite fmap_app in Hnd. apply NoDup_app in Hnd as (Hps & Hdj & _).
  destruct (answered_once peers config sm0 peers_nodup peers_named config_id config_peers _ _ _ _ Ht Hps Hi) as (A1 & A2 & A3 & A4).
  split_and!; [done|apply Ho|..].
  - intros id ans Hin. destruct (A2 _ _ Hin) as [(p & -> & Hp)%list_elem_of_fmap _].
    destruct (or_calls _ _ _ Ho p) as (pc & ? & ?); [unfold line; rewrite elem_of_app; by left|]. by exists (p_data p), pc.
  - intros id data Hid. cbv zeta. assert (Hs : (exists ans, done_of id (nd_raft n) = Some ans /\ propose_step (batchLimit i) (nd_raft n) (EvDone id) s
        = Some (Ok (nd_raft n), propose_returns id data (result_of ans) s)) <-> id ∈ (replies (nd_raft n)).*1).
    { rewrite <- done_of_sent by done. split; [intros (ans & ? & _); by exists ans|]. intros [ans Ha]. exists ans. split; [done|]. cbn. by rewrite Hid, Ha. }
    rewrite Hs. clear Hs. pose proof (or_waiting _ _ _ Ho _ _ Hid) as Hin. unfold line in Hin. rewrite fmap_app, elem_of_app in Hin. destruct Hin as [Hin|Hin].
    + right. assert (Hq : ~ exists p, p ∈ held s ++ proposeCh s /\ p_id p = id /\ p_data p = data).
      { intros (p & Hp & <- & _). apply (Hdj _ Hin). by apply list_elem_of_fmap_2. }
      destruct (A4 _ Hin) as [[ans Ha]|(k & p & Hk & <-)].
      * right. split_and!; [done| |by apply (list_elem_of_fmap_2 fst) in Ha]. intros (k & p & Hk & E & _). by eapply (proj2 (A2 _ _ Ha)).
      * left. destruct (A3 _ _ Hk) as [(p0 & Hp0 & E1 & E2) [Hl _]]. split_and!; [done| |done|].
        -- exists k, p. split_and!; [done..|]. rewrite <- E2. eapply orderly_data; [done..|]. by rewrite E1.
        -- intros ([id' ans] & E & Ha)%list_elem_of_fmap. cbn in E. subst id'. by eapply (proj2 (A2 _ _ Ha)).
    + left. apply list_elem_of_fmap in Hin as (p & -> & Hp). assert (Hni : p_id p ∉ p_id <$> ps) by (intros Hx; by apply (Hdj _ Hx), list_elem_of_fmap_2).
      split_and!.
      * exists p. split_and!; [done..|]. destruct (or_calls _ _ _ Ho p) as (pc' & Hc & _); [unfold line; rewrite elem_of_app; by right|]. rewrite Hid in Hc. by simplify_eq.
      * intros (k & p' & Hk & E & _). destruct (A3 _ _ Hk) as [(p0 & Hp0 & E1 & _) _]. apply Hni. rewrite <- E, <- E1. by apply list_elem_of_fmap_2.
      * intros ([id' ans] & E & Ha)%list_elem_of_fmap. cbn in E. apply Hni. rewrite E. apply (A2 _ _ Ha).
Qed.

(** *** Building a run *)
Lemma sv_call i c s ps n ev s' :
  serving i c s ps -> nodes c !! i = Some n -> propose_step (batchLimit i) (nd_raft n) ev s = Some (Ok (nd_raft n), s') -> handed ev s = [] -> serving i c s' ps.
Proof. intros Hsv Hi Hs Hh. pose proof (sv_event _ _ _ _ _ _ _ _ Hsv Hi Hs) as Hx. by rewrite same_cluster, Hh, app_nil_r in Hx. Qed.

(** A schedule in the course of which no more proposals become pending. *)
Lemma serving_schedule i sched : forall c c' s ps n',
  serving i c s ps -> run_schedule c sched = Some c' -> nodes c' !! i = Some n' -> length (pending (nd_raft n')) = length ps -> serving i c' s ps.
Proof.
  induction sched as [|[j a] sched IH]; intros c c' s ps n' Hsv Hr Hn' Hlen; cbn in Hr; [by simplify_eq|].
  apply bind_Some in Hr as (c1 & He & Hr). apply exec_at_step in He as (n & n1 & out & Hj & Hst & ->).
  destruct (serving_trail _ _ _ _ Hsv) as [Ht _]. eapply IH; [|done..]. eapply sv_node; [done..|]. intros ->.
  destruct (trail_step peers config sm0 peers_nodup peers_named config_id config_peers _ _ _ _ _ _ _ Ht Hj Hst) as [(batch & Hpr & ->)|]; [|done].
  pose proof (trail_propose _ _ _ _ _ _ _ _ _ Ht Hj Hpr) as Ht1.
  destruct (trail_schedule peers config sm0 peers_nodup peers_named config_id config_peers _ _ _ _ _ Ht1 Hr) as (ps' & Ht' & Hpre).
  destruct (trail_followed peers config sm0 peers_nodup peers_named config_id config_peers _ _ _ Ht') as (h & _ & _ & Hp).
  destruct (Hp _ Hn') as [Hpe _]. apply Permutation_length in Hpe. apply prefix_length in Hpre. rewrite length_fmap in Hpe. rewrite length_app in Hpre.
  destruct Hpr as [Hne _]. destruct batch; [done|cbn in Hpre; lia].
Qed.

(** One call, from the start to the moment its proposal has been answered. *)
Lemma serving_script i c0 c1 c2 sched1 sched2 id d n1 n2 (p := mkProposal id d 0) :
  initial peers config sm0 c0 -> run_schedule c0 sched1 = Some c1 -> nodes c1 !! i = Some n1 -> length (pending (nd_raft n1)) = 0%nat ->
  run_schedule c1 ((i, APropose [p]) :: sched2) = Some c2 -> nodes c2 !! i = Some n2 -> length (pending (nd_raft n2)) = 1%nat ->
  serving i c2 (mkProposes [] PrIdle {[id := (d, PcWaiting)]}) [p].
Proof.
  intros Hini Hr1 Hn1 Hp1 Hr2 Hn2 Hp2. pose proof (serving_schedule _ _ _ _ _ _ _ (sv_start i c0 Hini) Hr1 Hn1 Hp1) as H1'.
  pose proof (sv_call _ _ _ _ _ (EvPropose id d) _ H1' Hn1 eq_refl eq_refl) as H2'.
  assert (H3' : serving i c1 (mkProposes [p] PrIdle {[id := (d, PcWaiting)]}) []).
  { eapply (sv_call _ _ _ _ _ (EvSend id)); [exact H2'|done| |done]. unfold propose_step. cbn -[Nat.ltb proposeChCap insert]. rewrite lookup_insert_eq.
    rewrite insert_insert_eq. done. }
  pose proof (sv_call _ _ _ _ _ EvTake _ H3' Hn1 eq_refl eq_refl) as H4'.
  assert (H5' : serving i c1 (mkProposes [] (PrReady [p]) {[id := (d, PcWaiting)]}) []).
  { eapply (sv_call _ _ _ _ _ EvEnough); [exact H4'|done| |done]. apply step_enough. by left. }
  cbn [run_schedule] in Hr2. apply bind_Some in Hr2 as (c1' & He & Hr2). unfold exec_at in He. cbn [fst snd] in He. rewrite Hn1 in He. cbn [mbind option_bind exec] in He.
  rewrite decide_False in He by done. apply bind_Some in He as ([n' out] & He & [= <-]). apply bind_Some in He as (r' & Hap%ok_Some & [= <- <-]).
  refine (serving_schedule _ _ _ _ _ [p] n2 _ Hr2 Hn2 Hp2).
  apply (sv_event i c1 _ [] n1 EvAppend r' _ H5' Hn1). unfold propose_step. cbn [pr_pc]. by rewrite Hap.
Qed.
End Serving.

(** ** A call in the example run *)
Definition demo_asked : proposes := mkProposes [] PrIdle {[7%nat := ([Byte.x41], PcWaiting)]}.

Lemma demo_serving : serving demo_peers demo_config [] "a" demo_written demo_asked [mkProposal 7 [Byte.x41] 0].
Proof.
  assert (Hp : (fun n => length (pending (nd_raft n))) <$> node_of demo_elected "a" = Some 0%nat) by by vm_compute.
  assert (Hp2 : (fun n => length (pending (nd_raft n))) <$> node_of demo_written "a" = Some 1%nat) by by vm_compute.
  unfold node_of in Hp, Hp2. apply fmap_Some in Hp as (n & Hn & Hp). apply fmap_Some in Hp2 as (n2 & Hn2 & Hp2).
  exact (serving_script demo_peers demo_config [] demo_peers_nodup demo_peers_named (fun _ => eq_refl) (fun _ => eq_refl) "a" demo_start demo_elected demo_written
    demo_election (tail demo_write) 7 [Byte.x41] n n2 demo_initial (proj1 demo_election_runs) Hn (eq_sym Hp) (proj1 demo_write_runs) Hn2 (eq_sym Hp2)).
Qed.

Lemma propose_calls_are_answered_once_witness :
  exists n, nodes demo_written !! "a" = Some n /\
  let s := demo_asked in
  NoDup (replies (nd_raft n)).*1 /\ (length (held s) <= batchLimit demo_config "a" `max` 1)%nat /\
  (forall id ans, (id, ans) ∈ replies (nd_raft n) -> exists data pc, pr_calls s !! id = Some (data, pc) /\ pc <> PcSending) /\
  (forall id data, pr_calls s !! id = Some (data, PcWaiting) ->
    let queued := exists p, p ∈ held s ++ proposeCh s /\ p_id p = id /\ p_data p = data in
    let waiting := exists k p, waiters (nd_raft n) !! k = Some p /\ p_id p = id /\ p_data p = data in
    let sent := exists ans, done_of id (nd_raft n) = Some ans /\
      propose_step (batchLimit demo_config "a") (nd_raft n) (EvDone id) s = Some (Ok (nd_raft n), propose_returns id data (result_of ans) s) in
    (queued /\ ~ waiting /\ ~ sent) \/ (~ queued /\ (waiting /\ state (nd_raft n) = Leader) /\ ~ sent) \/ (~ queued /\ ~ waiting /\ sent)).
Proof.
  destruct demo_more_runs as (n & r' & Hn & _). exists n. split; [exact Hn|].
  exact (propose_calls_are_answered_once demo_peers demo_config [] demo_peers_nodup demo_peers_named (fun _ => eq_refl) (fun _ => eq_refl)
    "a" demo_written demo_asked _ n demo_serving Hn).
Defined.
