(* ===== verification/Replica.v ===== *)
(** * The key-value store as the replicated state machine

    The store ([Store.v]) implements the interface the replicas apply entries to,
    and restoring one of its snapshots gives back the state it was taken of, which is
    what agreement among replicas ([Agreement.v]) asks of a state machine. *)

From S2P Require Import Prelude Types Store RaftLog Storage Raft RaftFacts Cluster Run Election LogCore Agree Agreement.

Section Replica.
Context `{Codec Command} `{Codec Result} `{Codec StoreSnapshot} `{!CodecLaws StoreSnapshot}.

(** The order in which [range s.data] visits the map. *)
Context (iter : Store -> list (string * record)).
Context (iter_perm : forall s, iter s ≡ₚ map_to_list (data s)).

Definition store_StateMachine : StateMachine Store := {|
  sm_apply := Apply;
  sm_snapshot s := Snapshot (iter s) s;
  sm_restore s d := match Restore s d with inl s' => Some s' | inr _ => None end;
|}.
#[local] Existing Instance store_StateMachine.

(** The commands of a log. *)
Definition commands (L : list Entry) : list (N * bytes) :=
  omap (fun e => match ent_Type e with ENTRY_NORMAL => Some (ent_Index e, ent_Data e) | _ => None end) L.

Lemma applyEntries_run L : forall s s' outs, applyEntries s L = Ok (s', outs) -> exists outs', run s (commands L) = Ok (s', outs').
Proof.
  induction L as [|e L IH]; intros s s' outs Ha; cbn [applyEntries] in Ha; [inv_ok; by exists []|].
  apply bind_Ok in Ha as ([s1 o1] & Ha1 & Ha). apply bind_Ok in Ha as ([s2 o2] & Ha2 & Ha). injection Ha as <- _.
  apply IH in Ha2 as (o3 & Hr). unfold commands. cbn [omap list_omap]. destruct (ent_Type e); [|injection Ha1 as <- _; by exists o3..].
  exists (o1 :: o3). cbn [run]. cbn [sm_apply store_StateMachine] in Ha1. rewrite Ha1. cbn. fold (commands L). by rewrite Hr.
Qed.

Lemma run_table log : forall s s' outs, table_ok s -> run s log = Ok (s', outs) -> table_ok s'.
Proof.
  induction log as [|[i d] log IH]; intros s s' outs Hok Hr; cbn in Hr; [by inv_ok|].
  apply bind_Ok in Hr as ([s1 o1] & Ha & Hr). apply bind_Ok in Hr as ([s2 o2] & Hr2 & Hr). inv_ok.
  eapply IH; [by eapply Apply_table|done].
Qed.

Lemma applied_table L s : applied Store.New L s -> table_ok s /\ dedupWindow s = DefaultDedupWindow.
Proof.
  intros [outs Ha]. apply applyEntries_run in Ha as [outs' Hr]. split; [by eapply run_table; [apply table_ok_New|]|].
  by apply run_window in Hr.
Qed.

#[global] Instance store_SnapshotLaw : SnapshotLaw Store.New.
Proof.
  intros L L' s s' b _ _ Ha Ha' Hs. destruct (applied_table _ _ Ha) as [Hok Hw]. destruct (applied_table _ _ Ha') as [_ Hw'].
  cbn in *. rewrite (restore_snapshot s (iter s) b s' Hok (iter_perm s) Hs). rewrite Hw'. destruct s; cbn in *. by subst.
Qed.

Context {S : Type} `{StorageLaws S}.
Context (peers : list string) (config : string -> Config).
Context (peers_nodup : NoDup peers) (peers_named : "" ∉ peers).
Context (config_id : forall i, ID (config i) = i) (config_peers : forall i, Peers (config i) = peers).

End Replica.

(** *** A shard of three replicas *)
Section Demo.
#[local] Instance kv_command : Codec Command := countable_codec Command.
#[local] Instance kv_result : Codec Result := countable_codec Result.
#[local] Instance kv_snapshot : Codec StoreSnapshot := countable_codec StoreSnapshot.
#[local] Instance kv_snapshot_laws : CodecLaws StoreSnapshot := countable_codec_laws StoreSnapshot.

Definition kv_iter (s : Store) : list (string * record) := map_to_list (data s).
#[local] Instance kv_machine : StateMachine Store := store_StateMachine kv_iter.

Definition kv_start : Cluster MemStorage Store :=
  default (mkCluster ∅ []) (boot_all (mkEnv 0 0) demo_config Store.New NewMemStorage demo_peers).

(** [a] is elected; a put is proposed to it, replicated to [b] and applied by both. *)
Definition kv_put : bytes := default [] (marshal (mkCommand OP_PUT "k" [Byte.x41] false 0 "r1" false 0 0)).
Definition kv_write : list (string * action) :=
  [("a", APropose [mkProposal 7 kv_put 0]);
   ("a", AReplicate "b"); ("a", ASend 0); ("b", AAppend 0 6); ("a", AAppendAnswer 0 7);
   ("a", AApplier); ("a", AApplier); ("a", AApplier);
   ("a", AReplicate "b"); ("a", ASend 0); ("b", AAppend 0 8);
   ("b", AApplier); ("b", AApplier); ("b", AApplier)].
Definition kv_written : Cluster MemStorage Store := default kv_start (run_schedule kv_start (demo_election ++ kv_write)).

Definition kv_summary (n : NodeSt MemStorage Store) : N * bool * bool :=
  (lastApplied (nd_raft n), match nd_applier n with ApplierIdle => true | _ => false end,
   bool_decide (data (machine (nd_raft n)) !! "k" = Some (mkRecord [Byte.x41] 1 false false 0 0))).

Lemma kv_runs :
  run_schedule kv_start (demo_election ++ kv_write) = Some kv_written /\
  kv_summary <$> nodes kv_written !! "a" = Some (2, true, true) /\ kv_summary <$> nodes kv_written !! "b" = Some (2, true, true).
Proof. vm_compute. split_and!; reflexivity. Qed.

#[local] Opaque kv_start kv_written.

Lemma kv_initial : initial demo_peers demo_config Store.New kv_start.
Proof.
  apply (boot_all_initial demo_peers demo_config Store.New demo_peers_nodup demo_peers_named (fun _ => eq_refl) (mkEnv 0 0) NewMemStorage); [done..|].
  by vm_compute.
Qed.

Lemma kv_node i : kv_summary <$> nodes kv_written !! i = Some (2, true, true) ->
  exists n, nodes kv_written !! i = Some n /\ nd_applier n = ApplierIdle /\ lastApplied (nd_raft n) = 2.
Proof.
  intros Hs. apply fmap_Some in Hs as (n & Hn & He). exists n. unfold kv_summary in He. injection He as H1 H2 _.
  split_and!; [done| |done]. by destruct (nd_applier n).
Qed.

End Demo.
