(* ===== verification/Crc.v ===== *)
(** * CRC-32C and little-endian integers

    The parts of Go's hash/crc32 and encoding/binary that the write-ahead log,
    the snapshot files and nothing else of the sources use: the Castagnoli
    polynomial, [crc32.Update], [PutUint32]/[Uint32], [AppendUint64]/[Uint64].

    The update function is the table-driven one; it is proved equal to eight
    single-bit steps, each of which is a bijection of 32-bit words, so the
    checksum of two inputs that differ in exactly one byte differs. *)

From S2P Require Import Prelude.

(** ** Little-endian integers *)
Definition byteN (n : N) : byte := default Byte.x00 (Byte.of_N (n mod 256)).

Fixpoint le_bytes (k : nat) (n : N) : bytes :=
  match k with
  | O => []
  | S k => byteN n :: le_bytes k (n / 256)
  end.

Fixpoint le_value (b : bytes) : N :=
  match b with
  | [] => 0
  | x :: b => Byte.to_N x + 256 * le_value b
  end.

(** ** The checksum *)
Definition Castagnoli : N := 0x82f63b78.

Definition crc_bit (c : N) : N :=
  if N.odd c then N.lxor (N.shiftr c 1) Castagnoli else N.shiftr c 1.

Fixpoint crc_bits (k : nat) (c : N) : N :=
  match k with
  | O => c
  | S k => crc_bit (crc_bits k c)
  end.

(** One entry of [crc32.MakeTable(Castagnoli)]. *)
Definition crc_table (i : N) : N := crc_bits 8 i.

Definition crc_byte (c : N) (b : byte) : N :=
  N.lxor (crc_table (N.land (N.lxor c (Byte.to_N b)) 255)) (N.shiftr c 8).

Definition not32 (c : N) : N := N.lxor c (N.ones 32).

Definition crc_update (crc : N) (p : bytes) : N := not32 (foldl crc_byte (not32 crc) p).

Definition crc_checksum (p : bytes) : N := crc_update 0 p.

(** The check value of the CRC-32C standard: the checksum of "123456789". *)
Lemma crc_check_value :
  crc_checksum (byteN <$> [49; 50; 51; 52; 53; 54; 55; 56; 57]) = 0xe3069283.
Proof. by vm_compute. Qed.

(** ** Integers round trip *)
Lemma byte_to_N_lt b : Byte.to_N b < 256.
Proof. destruct b; by vm_compute. Qed.

Lemma byteN_to_N n : Byte.to_N (byteN n) = n mod 256.
Proof.
  unfold byteN. destruct (Byte.of_N (n mod 256)) as [b|] eqn:Hb; cbn [default].
  - by apply Byte.to_of_N in Hb.
  - apply Byte.of_N_None_iff in Hb. pose proof (N.mod_lt n 256). lia.
Qed.

Lemma byteN_of b : byteN (Byte.to_N b) = b.
Proof.
  unfold byteN. rewrite N.mod_small by apply byte_to_N_lt. by rewrite Byte.of_to_N.
Qed.

Lemma le_bytes_length k n : length (le_bytes k n) = k.
Proof. revert n. induction k; intros n; cbn; auto. Qed.

Lemma le_value_bytes k n : le_value (le_bytes k n) = n mod 256 ^ N.of_nat k.
Proof.
  revert n. induction k as [|k IH]; intros n; [by rewrite N.mod_1_r|].
  cbn [le_bytes le_value]. rewrite byteN_to_N, IH. rewrite Nat2N.inj_succ, N.pow_succ_r'.
  rewrite N.Div0.mod_mul_r by (try apply N.pow_nonzero; lia). lia.
Qed.

Lemma le_value_small k n : n < 256 ^ N.of_nat k -> le_value (le_bytes k n) = n.
Proof. intros. rewrite le_value_bytes. by apply N.mod_small. Qed.

(** ** Single-bit steps are injective on 32-bit words *)
Definition word32 (c : N) : Prop := c < 2 ^ 32.

Lemma word32_bits c : word32 c <-> forall i, 32 <= i -> N.testbit c i = false.
Proof.
  unfold word32. split.
  - intros Hc i Hi. destruct (N.eq_dec c 0) as [->|Hz]; [apply N.bits_0|]. apply N.bits_above_log2.
    assert (N.log2 c < 32) by (apply N.log2_lt_pow2; lia). lia.
  - intros Hb. destruct (N.eq_dec c 0) as [->|Hz]; [lia|]. apply N.log2_lt_pow2; [lia|].
    destruct (N.lt_ge_cases (N.log2 c) 32) as [|Hge]; [done|]. apply Hb in Hge. by rewrite N.bit_log2 in Hge.
Qed.

Lemma crc_bit_word c : word32 c -> word32 (crc_bit c).
Proof.
  rewrite !word32_bits. intros Hc i Hi. unfold crc_bit. destruct (N.odd c).
  - rewrite N.lxor_spec, N.shiftr_spec', Hc by lia.
    assert (HC : word32 Castagnoli) by done. rewrite word32_bits in HC. by rewrite HC.
  - rewrite N.shiftr_spec'. apply Hc. lia.
Qed.

(** The top bit of the result tells which branch was taken. *)
Lemma crc_bit_top c : word32 c -> N.testbit (crc_bit c) 31 = N.odd c.
Proof.
  intros Hc. rewrite word32_bits in Hc. unfold crc_bit. destruct (N.odd c) eqn:Ho.
  - rewrite N.lxor_spec, N.shiftr_spec', (Hc (31 + 1)) by lia. done.
  - rewrite N.shiftr_spec'. apply Hc. lia.
Qed.

Lemma half_inj a b : N.odd a = N.odd b -> N.shiftr a 1 = N.shiftr b 1 -> a = b.
Proof.
  rewrite <- !N.div2_spec. intros Ho Hs. rewrite (N.div2_odd a), (N.div2_odd b), Ho, Hs. done.
Qed.

Lemma crc_bit_inj a b : word32 a -> word32 b -> crc_bit a = crc_bit b -> a = b.
Proof.
  intros Ha Hb He. pose proof (crc_bit_top a Ha) as Hta. pose proof (crc_bit_top b Hb) as Htb.
  assert (Ho : N.odd a = N.odd b) by congruence. apply half_inj; [done|].
  unfold crc_bit in He. rewrite Ho in He. destruct (N.odd b); [|done].
  apply (f_equal (N.lxor Castagnoli)) in He. rewrite (N.lxor_comm (N.shiftr a 1)), (N.lxor_comm (N.shiftr b 1)) in He.
  by rewrite <- !N.lxor_assoc, N.lxor_nilpotent, !N.lxor_0_l in He.
Qed.

Lemma crc_bits_word k c : word32 c -> word32 (crc_bits k c).
Proof. intros Hc. induction k; cbn; [done|]. by apply crc_bit_word. Qed.

Lemma crc_bits_inj k a b : word32 a -> word32 b -> crc_bits k a = crc_bits k b -> a = b.
Proof.
  intros Ha Hb. induction k as [|k IH]; cbn; [done|]. intros He. apply IH.
  apply crc_bit_inj; [by apply crc_bits_word..|done].
Qed.

(** ** The table computes eight steps at once *)
Lemma crc_bit_lxor a b : crc_bit (N.lxor a b) = N.lxor (crc_bit a) (crc_bit b).
Proof.
  unfold crc_bit. rewrite N.shiftr_lxor.
  assert (Ho : N.odd (N.lxor a b) = xorb (N.odd a) (N.odd b)) by (rewrite <- !N.bit0_odd; apply N.lxor_spec).
  rewrite Ho. apply N.bits_inj. intros i.
  destruct (N.odd a), (N.odd b); cbn [xorb]; rewrite !N.lxor_spec;
    repeat match goal with |- context [N.testbit ?x i] => destruct (N.testbit x i) end; done.
Qed.

Lemma crc_bits_lxor k a b : crc_bits k (N.lxor a b) = N.lxor (crc_bits k a) (crc_bits k b).
Proof. induction k as [|k IH]; cbn; [done|]. by rewrite IH, crc_bit_lxor. Qed.

(** A word with its low [k] bits clear is shifted out by [k] steps. *)
Lemma crc_bits_high k c :
  (forall i, i < N.of_nat k -> N.testbit c i = false) -> crc_bits k c = N.shiftr c (N.of_nat k).
Proof.
  induction k as [|k IH]; intros Hlow; cbn [crc_bits]; [by rewrite N.shiftr_0_r|].
  rewrite IH by (intros; apply Hlow; lia). unfold crc_bit.
  rewrite <- N.bit0_odd, N.shiftr_spec', N.add_0_l, Hlow by lia. rewrite N.shiftr_shiftr. f_equal. lia.
Qed.

Lemma split_low8 c : c = N.lxor (N.land c 255) (N.ldiff c 255).
Proof.
  apply N.bits_inj. intros i. rewrite N.lxor_spec, N.land_spec, N.ldiff_spec.
  by destruct (N.testbit c i), (N.testbit 255 i).
Qed.

Lemma byte_high b i : 8 <= i -> N.testbit (Byte.to_N b) i = false.
Proof.
  intros Hi. pose proof (byte_to_N_lt b). destruct (N.eq_dec (Byte.to_N b) 0) as [->|Hz]; [apply N.bits_0|].
  apply N.bits_above_log2. assert (N.log2 (Byte.to_N b) < 8) by (apply N.log2_lt_pow2; lia). lia.
Qed.

Lemma ones8_bit i : N.testbit 255 i = (i <? 8).
Proof.
  change 255 with (N.ones 8). destruct (N.ltb_spec i 8); [by apply N.ones_spec_low|by apply N.ones_spec_high].
Qed.

Lemma crc_byte_bits c b : crc_byte c b = crc_bits 8 (N.lxor c (Byte.to_N b)).
Proof.
  unfold crc_byte, crc_table. set (x := N.lxor c (Byte.to_N b)).
  rewrite (split_low8 x) at 2. rewrite crc_bits_lxor. f_equal.
  rewrite crc_bits_high.
  - change (N.of_nat 8) with 8. apply N.bits_inj. intros i. rewrite !N.shiftr_spec', N.ldiff_spec, ones8_bit.
    destruct (N.ltb_spec (i + 8) 8); [lia|]. unfold x. rewrite N.lxor_spec, (byte_high b) by lia.
    by destruct (N.testbit c (i + 8)).
  - intros i Hi. rewrite N.ldiff_spec, ones8_bit. destruct (N.ltb_spec i 8); [|lia]. by destruct (N.testbit x i).
Qed.

Lemma word32_lxor a b : word32 a -> word32 b -> word32 (N.lxor a b).
Proof. rewrite !word32_bits. intros Ha Hb i Hi. by rewrite N.lxor_spec, Ha, Hb. Qed.

Lemma word32_byte b : word32 (Byte.to_N b).
Proof. unfold word32. pose proof (byte_to_N_lt b). lia. Qed.

Lemma word32_not c : word32 c -> word32 (not32 c).
Proof. intros. apply word32_lxor; [done|by vm_compute]. Qed.

Lemma crc_byte_word c b : word32 c -> word32 (crc_byte c b).
Proof. intros. rewrite crc_byte_bits. apply crc_bits_word, word32_lxor; [done|apply word32_byte]. Qed.

Lemma crc_fold_word p : forall c, word32 c -> word32 (foldl crc_byte c p).
Proof. induction p as [|b p IH]; intros c Hc; [done|]. cbn. by apply IH, crc_byte_word. Qed.

Lemma crc_update_word c p : word32 c -> word32 (crc_update c p).
Proof. intros. by apply word32_not, crc_fold_word, word32_not. Qed.

Lemma lxor_cancel_r a b x : N.lxor a x = N.lxor b x -> a = b.
Proof.
  intros He. apply (f_equal (fun y => N.lxor y x)) in He.
  by rewrite !N.lxor_assoc, N.lxor_nilpotent, !N.lxor_0_r in He.
Qed.

(** Different states stay different under the same input ... *)
Lemma crc_byte_inj_state a b x : word32 a -> word32 b -> crc_byte a x = crc_byte b x -> a = b.
Proof.
  intros Ha Hb. rewrite !crc_byte_bits. intros He%crc_bits_inj; [by apply lxor_cancel_r in He| |];
    apply word32_lxor; (done || apply word32_byte).
Qed.

(** ... and different inputs take the same state to different states. *)
Lemma crc_byte_inj_input c x y : word32 c -> crc_byte c x = crc_byte c y -> x = y.
Proof.
  intros Hc. rewrite !crc_byte_bits. intros He%crc_bits_inj; try (apply word32_lxor; (done || apply word32_byte)).
  rewrite !(N.lxor_comm c) in He. apply lxor_cancel_r in He.
  by rewrite <- (byteN_of x), <- (byteN_of y), He.
Qed.

Lemma crc_fold_inj p : forall a b, word32 a -> word32 b -> foldl crc_byte a p = foldl crc_byte b p -> a = b.
Proof.
  induction p as [|x p IH]; intros a b Ha Hb He; [done|]. cbn in He.
  apply IH in He; [|by apply crc_byte_word..]. by apply crc_byte_inj_state in He.
Qed.

Lemma crc_update_inj a b p : word32 a -> word32 b -> crc_update a p = crc_update b p -> a = b.
Proof.
  intros Ha Hb He%lxor_cancel_r. apply crc_fold_inj in He; [|by apply word32_not..]. by apply lxor_cancel_r in He.
Qed.

(** Replacing one byte changes the checksum. *)
Lemma crc_one_byte c p x y q :
  word32 c -> crc_update c (p ++ x :: q) = crc_update c (p ++ y :: q) -> x = y.
Proof.
  intros Hc He%lxor_cancel_r. rewrite !foldl_app in He. cbn in He.
  assert (Hw : word32 (foldl crc_byte (not32 c) p)) by by apply crc_fold_word, word32_not.
  apply crc_fold_inj in He; [|by apply crc_byte_word..]. by apply crc_byte_inj_input in He.
Qed.
