(* ===== verification/Wal.v ===== *)
(** * The segmented write-ahead log (internal/wal/wal.go)

    A segment file is the list of its bytes; the directory is the list of
    segments with their contents, sorted by sequence number, the last one active.
    A write that fails, or that the process does not survive, leaves a prefix of
    what was to be written: the argument [fault] of the writing operations says
    after how many bytes. Opening, reading, removing and syncing files is taken to
    succeed (an error of these is returned to the caller, which stops the node). *)

From S2P Require Import Prelude Crc.

(** ** Data *)
Definition headerSize : N := 9.
Definition DefaultSegmentSize : Z := 16777216.
Definition maxRecordSize : N := 268435456.

Record WalRecord := mkRec {
  rec_Type : byte;
  rec_Data : bytes;
}.

#[global] Instance WalRecord_eq_dec : EqDecision WalRecord.
Proof. solve_decision. Defined.

Record Segment := mkSegment {
  seg_Seq : N;
  seg_Tag : N;
  seg_file : bytes;    (* the contents of the file at Path *)
}.

#[global] Instance eta_Segment : Eta Segment := fun s => mkSegment (seg_Seq s) (seg_Tag s) (seg_file s).

Record WAL := mkWAL {
  SegmentSize : Z;
  segments : list Segment;   (* sorted by Seq; the last one is active *)
  wal_size : Z;
}.

#[global] Instance eta_WAL : Eta WAL := fun w => mkWAL (SegmentSize w) (segments w) (wal_size w).

(** ** Opening *)
Definition segment_le (a b : Segment) : Prop := seg_Seq a <= seg_Seq b.
#[global] Instance segment_le_dec : RelDecision segment_le.
Proof. intros a b. unfold segment_le. apply _. Defined.

Definition listSegments (dir : list Segment) : list Segment := merge_sort segment_le dir.

Definition createSegment (seq tag : N) (w : WAL) : WAL :=
  w <| segments := segments w ++ [mkSegment seq tag []] |> <| wal_size := 0%Z |>.

Definition Open (segmentSize : Z) (dir : list Segment) : WAL :=
  let size := if (segmentSize <=? 0)%Z then DefaultSegmentSize else segmentSize in
  let segs := listSegments dir in
  match last segs with
  | None => createSegment 1 0 (mkWAL size [] 0)
  | Some s => mkWAL size segs (Z.of_nat (length (seg_file s)))
  end.

(** ** Records *)
Definition checksum (typ : byte) (data : bytes) : N := crc_update (crc_update 0 [typ]) data.

Definition encodeRecord (r : WalRecord) : bytes :=
  le_bytes 4 (u32 (lenN (rec_Data r))) ++ le_bytes 4 (checksum (rec_Type r) (rec_Data r)) ++
  rec_Type r :: rec_Data r.

Definition encodeRecords (rs : list WalRecord) : bytes := rs ≫= encodeRecord.

(** Writing to the active file. *)
Definition write_active (b : bytes) (w : WAL) : WAL :=
  match last (segments w) with
  | None => w
  | Some s =>
      w <| segments := removelast (segments w) ++ [s <| seg_file := seg_file s ++ b |>] |>
        <| wal_size := (wal_size w + Z.of_nat (length b))%Z |>
  end.

Definition appendLocked (fault : option nat) (recs : list WalRecord) (w : WAL) : WAL * bool :=
  match recs with
  | [] => (w, true)
  | _ =>
      let buf := encodeRecords recs in
      match fault with
      | None => (write_active buf w, true)
      | Some n => (write_active (take n buf) w, false)
      end
  end.

Definition Append := appendLocked.

Definition ShouldRotate (w : WAL) : bool := (SegmentSize w <=? wal_size w)%Z.

(** ** Reading *)
Section Read.
Context {A E : Type}.

Inductive readErr :=
| errTorn              (* an incomplete or checksum-failing record *)
| errFn (e : E).       (* the callback failed *)

Inductive walErr :=
| ErrCorrupt (seq offset : N)
| ErrCallback (e : E).

Context (fn : A -> WalRecord -> A * option E).

(** [io.ReadFull] of [n] bytes: what was read and the rest, or how it failed. *)
Inductive readFull := RFull (got rest : bytes) | REOF | RUnexpectedEOF.

Definition ReadFull (n : nat) (b : bytes) : readFull :=
  if (n =? 0)%nat then RFull [] b
  else match b with
       | [] => REOF
       | _ => if (length b <? n)%nat then RUnexpectedEOF else RFull (take n b) (drop n b)
       end.

(** The loop of [readSegment]: the callback's state, the offset just past the
    last valid record, and the error. Every iteration consumes a header, so as
    much fuel as there are bytes is enough. *)
Fixpoint readSegment_loop (fuel : nat) (a : A) (offset : N) (b : bytes) : A * N * option readErr :=
  match fuel with
  | O => (a, offset, None)
  | S fuel =>
      match ReadFull 9 b with
      | REOF => (a, offset, None)
      | RUnexpectedEOF => (a, offset, Some errTorn)
      | RFull header b =>
          let length := le_value (take 4 header) in
          let sum := le_value (take 4 (drop 4 header)) in
          let typ := default Byte.x00 (header !! 8%nat) in
          if maxRecordSize <? length then (a, offset, Some errTorn)
          else
            match ReadFull (N.to_nat length) b with
            | REOF | RUnexpectedEOF => (a, offset, Some errTorn)
            | RFull data b =>
                if negb (checksum typ data =? sum) then (a, offset, Some errTorn)
                else
                  match fn a (mkRec typ data) with
                  | (a, Some e) => (a, offset, Some (errFn e))
                  | (a, None) => readSegment_loop fuel a (offset + headerSize + length) b
                  end
            end
      end
  end.

Definition readSegment (a : A) (file : bytes) : A * N * option readErr :=
  readSegment_loop (S (length file)) a 0 file.

(** [ReadAll] on the segments from a position on; those before it are kept. *)
Fixpoint readAll_loop (minSeq : N) (a : A) (before : list Segment) (segs : list Segment) (w : WAL) :
    A * WAL * option walErr :=
  match segs with
  | [] => (a, w, None)
  | s :: segs =>
      if seg_Seq s <? minSeq then readAll_loop minSeq a (before ++ [s]) segs w
      else
        match readSegment a (seg_file s) with
        | (a, _, None) => readAll_loop minSeq a (before ++ [s]) segs w
        | (a, _, Some (errFn e)) => (a, w, Some (ErrCallback e))
        | (a, good, Some errTorn) =>
            match segs with
            | _ :: _ => (a, w, Some (ErrCorrupt (seg_Seq s) good))
            | [] =>
                (a, w <| segments := before ++ [s <| seg_file := take (N.to_nat good) (seg_file s) |>] |>
                      <| wal_size := Z.of_N good |>, None)
            end
        end
  end.

Definition ReadAll (minSeq : N) (a : A) (w : WAL) : A * WAL * option walErr :=
  readAll_loop minSeq a [] (segments w) w.

End Read.

Arguments readErr E : clear implicits.
Arguments walErr E : clear implicits.

(** ** Segments *)
Definition lastSeq (w : WAL) : N := match last (segments w) with Some s => seg_Seq s | None => 0 end.

Definition Rotate (fault : option nat) (tag : N) (head : list WalRecord) (w : WAL) : WAL * N * bool :=
  let seq := lastSeq w + 1 in
  let '(w, ok) := appendLocked fault head (createSegment seq tag w) in
  (w, seq, ok).

(** The segments with [Seq < seq] go, except the active one. *)
Fixpoint removeBefore (seq : N) (segs : list Segment) : list Segment :=
  match segs with
  | [] => []
  | s :: segs =>
      if (seg_Seq s <? seq) && negb (bool_decide (segs = [])) then removeBefore seq segs
      else s :: removeBefore seq segs
  end.

Definition RemoveBefore (seq : N) (w : WAL) : WAL := w <| segments := removeBefore seq (segments w) |>.

Definition Segments (w : WAL) : list Segment := segments w.

Definition SizeOnDisk (w : WAL) : Z :=
  foldl (fun total s => (total + Z.of_nat (length (seg_file s)))%Z) 0%Z (Segments w).

(** ** The open file: [active] is nil once the log has been closed *)
Record handle := mkHandle {
  h_wal : WAL;
  h_active : bool;
}.

(** A write to a nil file is an error and writes nothing; an empty batch is not written. *)
Definition Append_open (fault : option nat) (recs : list WalRecord) (h : handle) : handle * bool :=
  if negb (h_active h) then (h, bool_decide (recs = []))
  else let '(w, ok) := appendLocked fault recs (h_wal h) in (mkHandle w true, ok).

(** The arguments say whether the sync and the close of the file succeed. *)
Definition wal_Close (syncOk closeOk : bool) (h : handle) : handle * bool :=
  if negb (h_active h) then (h, true) else (mkHandle (h_wal h) false, syncOk && closeOk).

(** Whatever it returns, closing keeps every byte and ends all writing; closing again is harmless. *)
Lemma wal_Close_ends syncOk closeOk syncOk' closeOk' fault recs h :
  recs <> [] ->
  let '(h', _) := wal_Close syncOk closeOk h in
  h_wal h' = h_wal h /\ Append_open fault recs h' = (h', false) /\ wal_Close syncOk' closeOk' h' = (h', true).
Proof.
  intros Hne. unfold wal_Close, Append_open. destruct (h_active h) eqn:Ha; cbn; rewrite ?Ha; cbn; rewrite bool_decide_false by done; done.
Qed.

(** ** Reading back what was written *)

(** A record that [readSegment] accepts. *)
Definition rec_ok (r : WalRecord) : Prop := lenN (rec_Data r) <= maxRecordSize.

Lemma encodeRecord_length r : length (encodeRecord r) = (9 + length (rec_Data r))%nat.
Proof. unfold encodeRecord. rewrite !length_app, !le_bytes_length. cbn. lia. Qed.

Lemma encodeRecords_cons r rs : encodeRecords (r :: rs) = encodeRecord r ++ encodeRecords rs.
Proof. done. Qed.

Lemma encodeRecords_app rs1 rs2 : encodeRecords (rs1 ++ rs2) = encodeRecords rs1 ++ encodeRecords rs2.
Proof. unfold encodeRecords. apply bind_app. Qed.

Lemma checksum_word typ data : word32 (checksum typ data).
Proof. by apply crc_update_word, crc_update_word. Qed.

Lemma ReadFull_app n got rest : length got = n -> (0 < n)%nat -> ReadFull n (got ++ rest) = RFull got rest.
Proof.
  intros <- Hn. unfold ReadFull. destruct (Nat.eqb_spec (length got) 0); [lia|].
  destruct got as [|x got]; [done|]. rewrite <- app_comm_cons.
  destruct (Nat.ltb_spec (length (x :: got ++ rest)) (length (x :: got))) as [Hlt|_].
  { cbn in Hlt. rewrite length_app in Hlt. lia. }
  rewrite app_comm_cons, take_app_length, drop_app_length. done.
Qed.

Lemma ReadFull_data (data rest : bytes) : ReadFull (length data) (data ++ rest) = RFull data rest.
Proof. destruct data as [|x d]; [done|]. apply ReadFull_app; [done|cbn; lia]. Qed.

(** The header of a record and the fields read from it. *)
Definition header (r : WalRecord) : bytes :=
  le_bytes 4 (u32 (lenN (rec_Data r))) ++ le_bytes 4 (checksum (rec_Type r) (rec_Data r)) ++ [rec_Type r].

Lemma encode_header r : encodeRecord r = header r ++ rec_Data r.
Proof. unfold encodeRecord, header. by rewrite <- !app_assoc. Qed.

Lemma header_length r : length (header r) = 9%nat.
Proof. done. Qed.

Lemma header_len r : le_value (take 4 (header r)) = u32 (lenN (rec_Data r)).
Proof.
  unfold header. rewrite take_app_le by (rewrite le_bytes_length; lia). rewrite take_ge by (rewrite le_bytes_length; lia).
  apply le_value_small. apply N.mod_lt. done.
Qed.

Lemma header_sum r : le_value (take 4 (drop 4 (header r))) = checksum (rec_Type r) (rec_Data r).
Proof.
  unfold header. rewrite drop_app_ge by (rewrite le_bytes_length; lia). rewrite le_bytes_length, Nat.sub_diag, drop_0.
  rewrite take_app_le by (rewrite le_bytes_length; lia). rewrite take_ge by (rewrite le_bytes_length; lia).
  apply le_value_small. apply checksum_word.
Qed.

Lemma header_typ r : header r !! 8%nat = Some (rec_Type r).
Proof. done. Qed.

Lemma rec_ok_u32 r : rec_ok r -> u32 (lenN (rec_Data r)) = lenN (rec_Data r).
Proof. unfold rec_ok, maxRecordSize, u32, u32_modulus. intros. apply N.mod_small. lia. Qed.

Section ReadFacts.
Context {A E : Type} (fn : A -> WalRecord -> A * option E).

(** Handing records to the callback until it fails. *)
Fixpoint deliver (a : A) (rs : list WalRecord) : A * option E :=
  match rs with
  | [] => (a, None)
  | r :: rs =>
      match fn a r with
      | (a, Some e) => (a, Some e)
      | (a, None) => deliver a rs
      end
  end.

Lemma deliver_app a rs1 rs2 :
  deliver a (rs1 ++ rs2) =
    match deliver a rs1 with (a, Some e) => (a, Some e) | (a, None) => deliver a rs2 end.
Proof.
  revert a. induction rs1 as [|r rs1 IH]; intros a; cbn; [done|]. destruct (fn a r) as [a' [e|]]; [done|]. apply IH.
Qed.

Lemma readSegment_record fuel a off r rest :
  rec_ok r ->
  readSegment_loop fn (S fuel) a off (encodeRecord r ++ rest) =
    match fn a r with
    | (a, Some e) => (a, off, Some (errFn e))
    | (a, None) => readSegment_loop fn fuel a (off + lenN (encodeRecord r)) rest
    end.
Proof.
  intros Hr. cbn [readSegment_loop]. rewrite encode_header, <- app_assoc, ReadFull_app; [|done|lia].
  rewrite header_len, header_sum, header_typ, (rec_ok_u32 _ Hr). cbn [default].
  destruct (N.ltb_spec maxRecordSize (lenN (rec_Data r))); [by unfold rec_ok in Hr; lia|].
  unfold lenN at 1. rewrite Nat2N.id, ReadFull_data, N.eqb_refl. cbn [negb].
  replace (mkRec (id (rec_Type r)) (rec_Data r)) with r by by destruct r.
  destruct (fn a r) as [a' [e|]]; [done|]. f_equal. rewrite lenN_app. unfold lenN. rewrite header_length.
  unfold headerSize. lia.
Qed.

(** A record that was cut off. *)
Definition torn (b : bytes) : Prop :=
  exists r m, rec_ok r /\ (0 < m < length (encodeRecord r))%nat /\ b = take m (encodeRecord r).

(** Bytes at which reading stops. *)
Definition unreadable (b : bytes) : Prop :=
  forall fuel a off, readSegment_loop fn (S fuel) a off b = (a, off, Some errTorn).

Lemma torn_unreadable b : torn b -> unreadable b.
Proof.
  intros (r & m & Hr & [Hm0 Hm] & ->) fuel a off. rewrite encodeRecord_length in Hm. cbn [readSegment_loop].
  rewrite encode_header. destruct (Nat.lt_ge_cases m 9) as [Hlt|Hge].
  - rewrite take_app_le by (rewrite header_length; lia). unfold ReadFull. cbn [Nat.eqb].
    destruct (take m (header r)) as [|x l] eqn:Ht.
    { apply (f_equal length) in Ht. rewrite length_take, header_length in Ht. cbn in Ht. lia. }
    rewrite <- Ht. destruct (Nat.ltb_spec (length (take m (header r))) 9) as [_|Hc]; [done|].
    rewrite length_take, header_length in Hc. lia.
  - rewrite take_app_ge by (rewrite header_length; lia). rewrite ReadFull_app; [|done|lia].
    rewrite header_len, header_sum, header_typ, (rec_ok_u32 _ Hr), header_length.
    destruct (N.ltb_spec maxRecordSize (lenN (rec_Data r))); [done|].
    unfold lenN at 1. rewrite Nat2N.id. unfold ReadFull at 1. destruct (Nat.eqb_spec (length (rec_Data r)) 0); [lia|].
    destruct (take (m - 9) (rec_Data r)) as [|x l] eqn:Ht; [done|]. rewrite <- Ht.
    destruct (Nat.ltb_spec (length (take (m - 9) (rec_Data r))) (length (rec_Data r))) as [_|Hc]; [done|].
    rewrite length_take in Hc. lia.
Qed.

(** The records of a segment, up to its end or to the first bytes that are not a record. *)
Lemma readSegment_loop_spec rs tail bad : forall fuel a off,
  Forall rec_ok rs -> (if bad : bool then unreadable tail else tail = []) -> (length (encodeRecords rs) < fuel)%nat ->
  forall a', deliver a rs = (a', None) ->
  readSegment_loop fn fuel a off (encodeRecords rs ++ tail) =
    (a', off + lenN (encodeRecords rs), if bad then Some errTorn else None).
Proof.
  induction rs as [|r rs IH]; intros fuel a off Hrs Ht Hfuel a' Hd.
  - cbn in Hd. simplify_eq. destruct fuel as [|fuel]; [lia|]. change (encodeRecords []) with (@nil byte). cbn [app].
    rewrite lenN_nil, N.add_0_r. destruct bad; [apply Ht|by subst].
  - apply Forall_cons in Hrs as [Hr Hrs]. rewrite encodeRecords_cons, <- app_assoc in *.
    destruct fuel as [|fuel]; [lia|]. rewrite readSegment_record by done. cbn in Hd. rewrite length_app, encodeRecord_length in Hfuel.
    destruct (fn a r) as [a1 [e|]]; [done|]. rewrite (IH _ _ _ Hrs Ht) with (a' := a'); [|lia|done].
    f_equal. f_equal. rewrite lenN_app. lia.
Qed.

Lemma readSegment_whole rs a a' :
  Forall rec_ok rs -> deliver a rs = (a', None) ->
  readSegment fn a (encodeRecords rs) = (a', lenN (encodeRecords rs), None).
Proof.
  intros. unfold readSegment. rewrite <- (app_nil_r (encodeRecords rs)) at 2.
  by rewrite (readSegment_loop_spec rs [] false) with (a' := a'); [|done|done|lia|done].
Qed.

Lemma readSegment_bad rs tail a a' :
  Forall rec_ok rs -> unreadable tail -> deliver a rs = (a', None) ->
  readSegment fn a (encodeRecords rs ++ tail) = (a', lenN (encodeRecords rs), Some errTorn).
Proof.
  intros. unfold readSegment.
  by rewrite (readSegment_loop_spec rs tail true) with (a' := a'); [|done|done|rewrite length_app; lia|done].
Qed.

(** A segment in which the callback fails. *)
Lemma readSegment_fail rs tail : forall fuel a off e a',
  Forall rec_ok rs -> (length (encodeRecords rs ++ tail) < fuel)%nat -> deliver a rs = (a', Some e) ->
  exists off', readSegment_loop fn fuel a off (encodeRecords rs ++ tail) = (a', off', Some (errFn e)).
Proof.
  induction rs as [|r rs IH]; intros fuel a off e a' Hrs Hfuel Hd; [done|].
  apply Forall_cons in Hrs as [Hr Hrs]. rewrite encodeRecords_cons, <- app_assoc in *.
  destruct fuel as [|fuel]; [lia|]. rewrite readSegment_record by done. cbn in Hd.
  destruct (fn a r) as [a1 [e1|]]; [simplify_eq; eauto|].
  apply IH; [done|rewrite length_app, encodeRecord_length in Hfuel; lia|done].
Qed.

End ReadFacts.

(** ** The log as a list of records *)

(** Every segment is a sequence of whole, acceptable records: [rss] lists them. *)
Definition holds_records (s : Segment) (rs : list WalRecord) : Prop :=
  seg_file s = encodeRecords rs /\ Forall rec_ok rs.

Definition clean (segs : list Segment) (rss : list (list WalRecord)) : Prop := Forall2 holds_records segs rss.

(** The records of the segments from [minSeq] on. *)
Fixpoint records_from (minSeq : N) (segs : list Segment) (rss : list (list WalRecord)) : list WalRecord :=
  match segs, rss with
  | s :: segs, rs :: rss => (if seg_Seq s <? minSeq then [] else rs) ++ records_from minSeq segs rss
  | _, _ => []
  end.

Lemma records_from_app minSeq segs1 rss1 segs2 rss2 :
  length segs1 = length rss1 ->
  records_from minSeq (segs1 ++ segs2) (rss1 ++ rss2) = records_from minSeq segs1 rss1 ++ records_from minSeq segs2 rss2.
Proof.
  revert rss1. induction segs1 as [|s segs1 IH]; intros [|rs rss1] Hl; try done. cbn.
  rewrite IH by (cbn in Hl; lia). by rewrite app_assoc.
Qed.

Section ReadAllFacts.
Context {A E : Type} (fn : A -> WalRecord -> A * option E).

(** What reading a clean segment does. *)
Lemma readSegment_clean s rs a :
  holds_records s rs ->
  match deliver fn a rs with
  | (a', None) => readSegment fn a (seg_file s) = (a', lenN (seg_file s), None)
  | (a', Some e) => exists off, readSegment fn a (seg_file s) = (a', off, Some (errFn e))
  end.
Proof.
  intros [Hf Hrs]. rewrite Hf, <- (app_nil_r (encodeRecords rs)). destruct (deliver fn a rs) as [a' [e|]] eqn:Hd.
  - apply readSegment_fail with (rs := rs); [done|lia|done].
  - rewrite app_nil_r. by apply readSegment_whole.
Qed.

Lemma readAll_clean_loop minSeq w segs rss : forall a before,
  clean segs rss ->
  readAll_loop fn minSeq a before segs w =
    match deliver fn a (records_from minSeq segs rss) with
    | (a', None) => (a', w, None)
    | (a', Some e) => (a', w, Some (ErrCallback e))
    end.
Proof.
  intros a before Hc. revert a before. induction Hc as [|s rs segs rss Hs _ IH]; intros a before; cbn [readAll_loop records_from]; [done|].
  destruct (seg_Seq s <? minSeq); [apply IH|]. rewrite deliver_app. pose proof (readSegment_clean s rs a Hs) as Hr.
  destruct (deliver fn a rs) as [a' [e|]].
  - by destruct Hr as [off ->].
  - rewrite Hr. apply IH.
Qed.

Lemma ReadAll_clean minSeq a w rss :
  clean (segments w) rss ->
  ReadAll fn minSeq a w =
    match deliver fn a (records_from minSeq (segments w) rss) with
    | (a', None) => (a', w, None)
    | (a', Some e) => (a', w, Some (ErrCallback e))
    end.
Proof. apply readAll_clean_loop. Qed.

(** In the last segment, what cannot be read is cut off. *)
Lemma readAll_last_loop minSeq w segs rss s good : forall a a1 a' before,
  clean segs rss -> minSeq <= seg_Seq s -> deliver fn a (records_from minSeq segs rss) = (a1, None) ->
  readSegment fn a1 (seg_file s) = (a', good, Some errTorn) ->
  readAll_loop fn minSeq a before (segs ++ [s]) w =
    (a', w <| segments := before ++ segs ++ [s <| seg_file := take (N.to_nat good) (seg_file s) |>] |>
           <| wal_size := Z.of_N good |>, None).
Proof.
  intros a a1 a' before Hc. revert a before.
  induction Hc as [|s0 rs0 segs rss Hs0 _ IH]; intros a before Hmin Hd Hr;
    cbn [readAll_loop records_from app deliver] in Hd |- *.
  - simplify_eq. destruct (N.ltb_spec (seg_Seq s) minSeq); [lia|]. by rewrite Hr.
  - destruct (seg_Seq s0 <? minSeq).
    + rewrite IH by done. by rewrite <- app_assoc.
    + rewrite deliver_app in Hd. pose proof (readSegment_clean s0 rs0 a Hs0) as Hr0.
      destruct (deliver fn a rs0) as [a2 [e|]]; [done|]. rewrite Hr0, IH by done. by rewrite <- app_assoc.
Qed.

Lemma readAll_bad_tail minSeq w init rss s rs tail a a' :
  segments w = init ++ [s] -> clean init rss -> seg_file s = encodeRecords rs ++ tail -> Forall rec_ok rs ->
  unreadable fn tail -> minSeq <= seg_Seq s -> deliver fn a (records_from minSeq init rss ++ rs) = (a', None) ->
  ReadAll fn minSeq a w =
    (a', w <| segments := init ++ [s <| seg_file := encodeRecords rs |>] |>
           <| wal_size := Z.of_nat (length (encodeRecords rs)) |>, None).
Proof.
  intros Hw Hc Hf Hrs Ht Hmin Hd. rewrite deliver_app in Hd.
  destruct (deliver fn a (records_from minSeq init rss)) as [a1 [e|]] eqn:Hd1; [done|].
  unfold ReadAll. rewrite Hw. erewrite readAll_last_loop; [|exact Hc|exact Hmin|exact Hd1|].
  2: { rewrite Hf. by eapply readSegment_bad. }
  rewrite Hf. replace (N.to_nat (lenN (encodeRecords rs))) with (length (encodeRecords rs)) by (unfold lenN; lia).
  rewrite take_app_length. unfold lenN. by rewrite nat_N_Z.
Qed.

(** Damage in a segment that is not the last one stops recovery. *)
Lemma readAll_corrupt_loop minSeq w segs rss s segs' rs tail off : forall a a' a1 before,
  clean segs rss -> segs' <> [] -> minSeq <= seg_Seq s ->
  deliver fn a (records_from minSeq segs rss) = (a1, None) ->
  readSegment fn a1 (seg_file s) = (a', off, Some errTorn) -> seg_file s = encodeRecords rs ++ tail ->
  readAll_loop fn minSeq a before (segs ++ s :: segs') w = (a', w, Some (ErrCorrupt (seg_Seq s) off)).
Proof.
  intros a a' a1 before Hc. revert a before.
  induction Hc as [|s0 rs0 segs rss Hs0 _ IH]; intros a before Hne Hmin Hd Hr Hf;
    cbn [readAll_loop records_from app deliver] in Hd |- *.
  - simplify_eq. destruct (N.ltb_spec (seg_Seq s) minSeq); [lia|]. rewrite Hr. by destruct segs'.
  - destruct (seg_Seq s0 <? minSeq); [by apply IH|].
    rewrite deliver_app in Hd. pose proof (readSegment_clean s0 rs0 a Hs0) as Hr0.
    destruct (deliver fn a rs0) as [a2 [e|]]; [done|]. rewrite Hr0. by apply IH.
Qed.

End ReadAllFacts.

(** The callback that only collects. *)
Definition collect (acc : list WalRecord) (r : WalRecord) : list WalRecord * option Empty_set := (acc ++ [r], None).

Lemma deliver_collect acc rs : deliver collect acc rs = (acc ++ rs, None).
Proof.
  revert acc. induction rs as [|r rs IH]; intros acc; cbn; [by rewrite app_nil_r|]. by rewrite IH, <- app_assoc.
Qed.

(** ** Torn writes *)

(** Any prefix of an encoded batch is some of its records and a torn one. *)
Lemma encode_prefix rs : forall n, Forall rec_ok rs ->
  exists k tail, take n (encodeRecords rs) = encodeRecords (take k rs) ++ tail /\ (tail = [] \/ torn tail) /\
    ((length (encodeRecords rs) <= n)%nat -> take k rs = rs).
Proof.
  induction rs as [|r rs IH]; intros n Hrs.
  - exists 0%nat, []. cbn. rewrite take_nil. auto.
  - apply Forall_cons in Hrs as [Hr Hrs]. rewrite encodeRecords_cons.
    destruct (Nat.lt_ge_cases n (length (encodeRecord r))) as [Hlt|Hge].
    + rewrite take_app_le by lia. exists 0%nat, (take n (encodeRecord r)). split_and!; [done| |rewrite length_app; lia].
      destruct n as [|n]; [by left|right]. exists r, (Datatypes.S n). split_and!; [done|lia|lia|done].
    + rewrite take_app_ge by done. destruct (IH (n - length (encodeRecord r))%nat Hrs) as (k & tail & -> & Ht & Hall).
      exists (Datatypes.S k), tail. cbn [take]. rewrite encodeRecords_cons, <- app_assoc. split_and!; [done..|].
      intros Hn. rewrite length_app in Hn. rewrite Hall by lia. done.
Qed.

(** ** Well-formedness, and its preservation by every operation *)
Definition segment_lt (a b : Segment) : Prop := seg_Seq a < seg_Seq b.

(** There is an active segment, sequence numbers increase, and the recorded size
    is that of the active file. *)
Record wal_wf (w : WAL) : Prop := {
  wf_sorted : StronglySorted segment_lt (segments w);
  wf_active : exists s, last (segments w) = Some s /\ wal_size w = Z.of_nat (length (seg_file s));
}.

Lemma wf_split w : wal_wf w -> exists init s,
  segments w = init ++ [s] /\ wal_size w = Z.of_nat (length (seg_file s)).
Proof.
  intros [_ (s & Hl & Hs)]. apply last_Some in Hl as [init Hi]. by exists init, s.
Qed.

Lemma write_active_snoc b w init s :
  segments w = init ++ [s] ->
  write_active b w = mkWAL (SegmentSize w) (init ++ [s <| seg_file := seg_file s ++ b |>])
                       (wal_size w + Z.of_nat (length b)).
Proof.
  intros Hw. unfold write_active. rewrite Hw, last_snoc. unfold set_field. cbn. by rewrite removelast_last.
Qed.

(** Changing only the contents of the active file keeps the order. *)
Lemma sorted_replace init s s' :
  seg_Seq s' = seg_Seq s -> StronglySorted segment_lt (init ++ [s]) -> StronglySorted segment_lt (init ++ [s']).
Proof.
  intros Hs Hsort. apply StronglySorted_app in Hsort as (Hall & Hi & _). apply StronglySorted_app_2; [|done|repeat constructor].
  intros x y Hx ->%list_elem_of_singleton. unfold segment_lt. rewrite Hs. apply Hall; [done|set_solver].
Qed.

Lemma write_active_wf b w : wal_wf w -> wal_wf (write_active b w).
Proof.
  intros Hwf. destruct (wf_split w Hwf) as (init & s & Hw & Hsz). rewrite (write_active_snoc _ _ _ _ Hw). split; cbn.
  - eapply (sorted_replace _ s); [done|]. rewrite <- Hw. apply Hwf.
  - rewrite last_snoc. eexists. split; [done|]. cbn. rewrite Hsz, length_app. lia.
Qed.

Lemma append_SegmentSize fault recs w : SegmentSize (appendLocked fault recs w).1 = SegmentSize w.
Proof. unfold appendLocked, write_active. by repeat case_match. Qed.

Lemma appendLocked_wf fault recs w : wal_wf w -> wal_wf (appendLocked fault recs w).1.
Proof. intros. unfold appendLocked. repeat case_match; cbn; try done; by apply write_active_wf. Qed.

Lemma createSegment_wf seq tag w :
  StronglySorted segment_lt (segments w) -> (forall s, s ∈ segments w -> seg_Seq s < seq) ->
  wal_wf (createSegment seq tag w).
Proof.
  intros Hs Hlt. split; cbn; [|rewrite last_snoc; by eexists].
  apply StronglySorted_app_2; [|done|repeat constructor]. intros x y Hx ->%list_elem_of_singleton. by apply Hlt.
Qed.

Lemma lastSeq_max w s : StronglySorted segment_lt (segments w) -> s ∈ segments w -> seg_Seq s <= lastSeq w.
Proof.
  intros Hsort Hs. unfold lastSeq. destruct (last (segments w)) as [sl|] eqn:Hl.
  - apply last_Some in Hl as [init Hi]. rewrite Hi in *. apply StronglySorted_app in Hsort as (Hall & _).
    apply elem_of_app in Hs as [Hs| ->%list_elem_of_singleton]; [|lia]. apply N.lt_le_incl, Hall; [done|set_solver].
  - apply last_None in Hl. rewrite Hl in Hs. by apply elem_of_nil in Hs.
Qed.

Lemma Rotate_wf fault tag head w : wal_wf w -> wal_wf (Rotate fault tag head w).1.1.
Proof.
  intros [Hs _]. unfold Rotate. destruct (appendLocked fault head _) as [w' ok] eqn:Ha. cbn.
  replace w' with (appendLocked fault head (createSegment (lastSeq w + 1) tag w)).1 by by rewrite Ha.
  apply appendLocked_wf, createSegment_wf; [done|]. intros s Hin. pose proof (lastSeq_max w s Hs Hin). lia.
Qed.

Lemma removeBefore_sublist seq segs : removeBefore seq segs `sublist_of` segs.
Proof.
  induction segs as [|s segs IH]; cbn; [done|]. case_match; [by apply sublist_cons|by apply sublist_skip].
Qed.

Lemma removeBefore_last seq segs : last (removeBefore seq segs) = last segs.
Proof.
  induction segs as [|s segs IH]; [done|]. cbn [removeBefore].
  destruct (decide (segs = [])) as [->|Hne]; [by rewrite bool_decide_true, andb_false_r|].
  rewrite (bool_decide_false _ Hne), andb_true_r.
  assert (is_Some (last segs)) as [x Hx] by by apply last_is_Some.
  destruct (seg_Seq s <? seq); [by rewrite last_cons, IH, Hx|]. by rewrite !last_cons, IH, Hx.
Qed.

Lemma RemoveBefore_wf seq w : wal_wf w -> wal_wf (RemoveBefore seq w).
Proof.
  intros [Hs Ha]. split; cbn; [|by rewrite removeBefore_last].
  eapply StronglySorted_of_sublist; [apply removeBefore_sublist|done].
Qed.

Lemma Open_wf size dir : NoDup (seg_Seq <$> dir) -> wal_wf (Open size dir).
Proof.
  intros Hnd. unfold Open, listSegments. set (segs := merge_sort segment_le dir).
  assert (Hperm : segs ≡ₚ dir) by apply merge_sort_Permutation.
  assert (Hsort : StronglySorted segment_le segs).
  { apply StronglySorted_merge_sort; unfold segment_le; [intros x y z; lia|intros x y; lia]. }
  assert (Hnd' : NoDup (seg_Seq <$> segs)) by (by rewrite Hperm).
  assert (Hlt : StronglySorted segment_lt segs).
  { clearbody segs. clear Hperm. induction Hsort as [|s segs Hs IH Hall]; [constructor|].
    apply NoDup_cons in Hnd' as [Hni Hnd']. constructor; [by apply IH|].
    rewrite Forall_forall in Hall |- *. intros x Hx. specialize (Hall x Hx). unfold segment_le, segment_lt in *.
    assert (seg_Seq s <> seg_Seq x); [|lia]. intros He. apply Hni, list_elem_of_fmap. by exists x. }
  destruct (last segs) as [s|] eqn:Hl.
  - split; cbn; [done|]. rewrite Hl. by eexists.
  - apply last_None in Hl. apply createSegment_wf; [constructor|]. by intros s Hs%elem_of_nil.
Qed.

(** A sequence number names one segment. *)
Lemma sorted_seq_inj segs x y :
  StronglySorted segment_lt segs -> x ∈ segs -> y ∈ segs -> seg_Seq x = seg_Seq y -> x = y.
Proof.
  induction 1 as [|s segs _ IH Hall]; [by intros ?%elem_of_nil|]. rewrite Forall_forall in Hall. unfold segment_lt in Hall.
  intros [->|Hx]%elem_of_cons [->|Hy]%elem_of_cons He; [done| | |by apply IH].
  - specialize (Hall y Hy). lia.
  - specialize (Hall x Hx). lia.
Qed.

(** Reopening the files of a well-formed log gives the same log. *)
Lemma Open_reopens w : wal_wf w -> (0 < SegmentSize w)%Z -> Open (SegmentSize w) (segments w) = w.
Proof.
  intros [Hs (s & Hl & Hsz)] Hpos. unfold Open, listSegments.
  assert (Hm : merge_sort segment_le (segments w) = segments w).
  { apply (StronglySorted_unique_strong segment_le).
    - intros x y Hx Hy Hxy Hyx. rewrite merge_sort_Permutation in Hx. unfold segment_le in *.
      eapply sorted_seq_inj; [exact Hs|done|done|lia].
    - apply StronglySorted_merge_sort; unfold segment_le; [intros x y z; lia|intros x y; lia].
    - eapply StronglySorted_mono; [|exact Hs]. intros x y. unfold segment_lt, segment_le. lia.
    - apply merge_sort_Permutation. }
  rewrite Hm, Hl, <- Hsz. destruct (Z.leb_spec (SegmentSize w) 0); [lia|]. by destruct w.
Qed.

(** ** What the files hold after the operations *)
Lemma clean_snoc_inv init s rss :
  clean (init ++ [s]) rss -> exists rss0 rs, rss = rss0 ++ [rs] /\ clean init rss0 /\ holds_records s rs.
Proof.
  intros Hc. apply Forall2_app_inv_l in Hc as (rss0 & l & Hc & Hl & ->).
  apply Forall2_cons_inv_l in Hl as (rs & l' & Hs & Hn & ->). apply Forall2_nil_inv_l in Hn as ->. eauto.
Qed.

Lemma holds_records_app s rs recs :
  holds_records s rs -> Forall rec_ok recs ->
  holds_records (s <| seg_file := seg_file s ++ encodeRecords recs |>) (rs ++ recs).
Proof. intros [Hf Hrs] Hr. split; cbn; [by rewrite Hf, encodeRecords_app|by apply Forall_app]. Qed.

(** A batch that was written completely. *)
Lemma append_clean w rss rs recs :
  wal_wf w -> clean (segments w) (rss ++ [rs]) -> Forall rec_ok recs ->
  clean (segments (appendLocked None recs w).1) (rss ++ [rs ++ recs]).
Proof.
  intros Hwf Hc Hr. destruct recs as [|r recs]; [by rewrite app_nil_r|]. cbn [appendLocked fst].
  destruct (wf_split w Hwf) as (init & s & Hw & _). rewrite (write_active_snoc _ _ _ _ Hw). cbn [segments].
  rewrite Hw in Hc. apply clean_snoc_inv in Hc as (rss0 & rs0 & He & Hi & Hs). apply app_inj_tail in He as [<- <-].
  apply Forall2_app; [done|]. constructor; [by apply holds_records_app|constructor].
Qed.

Lemma createSegment_clean seq tag w rss :
  clean (segments w) rss -> clean (segments (createSegment seq tag w)) (rss ++ [[]]).
Proof. intros Hc. cbn. apply Forall2_app; [done|]. constructor; [by split|constructor]. Qed.

(** An operation on the log, with the records it writes. *)
Inductive walOp :=
| OpAppend (recs : list WalRecord)
| OpRotate (tag : N) (head : list WalRecord).

Definition op_records (op : walOp) : list WalRecord :=
  match op with OpAppend recs => recs | OpRotate _ head => head end.

Definition exec_op (w : WAL) (op : walOp) : WAL :=
  match op with
  | OpAppend recs => (Append None recs w).1
  | OpRotate tag head => (Rotate None tag head w).1.1
  end.

Lemma exec_op_clean op w rss :
  wal_wf w -> (exists rss0 rs, rss = rss0 ++ [rs]) -> clean (segments w) rss -> Forall rec_ok (op_records op) ->
  wal_wf (exec_op w op) /\ SegmentSize (exec_op w op) = SegmentSize w /\
  exists rss', clean (segments (exec_op w op)) rss' /\ (exists rss0 rs, rss' = rss0 ++ [rs]) /\
    mjoin rss' = mjoin rss ++ op_records op.
Proof.
  intros Hwf (rss0 & rs & ->) Hc Hr. destruct op as [recs|tag head]; cbn in Hr |- *.
  - split_and!; [by apply appendLocked_wf| |].
    { apply append_SegmentSize. }
    exists (rss0 ++ [rs ++ recs]). split_and!; [by apply append_clean|by eauto|].
    rewrite !join_app. cbn. by rewrite !app_nil_r, app_assoc.
  - pose proof (Rotate_wf None tag head w Hwf) as Hwf'. unfold Rotate in *.
    destruct (appendLocked None head _) as [w' ok] eqn:Ha. cbn in *.
    assert (Hw' : w' = (appendLocked None head (createSegment (lastSeq w + 1) tag w)).1) by by rewrite Ha.
    split_and!; [done| |].
    { by rewrite Hw', append_SegmentSize. }
    exists ((rss0 ++ [rs]) ++ [[] ++ head]). split_and!; [|by eauto|rewrite join_app; cbn; by rewrite app_nil_r].
    rewrite Hw'. apply append_clean; [|by apply createSegment_clean|done].
    apply createSegment_wf; [apply Hwf|]. intros s Hs. pose proof (lastSeq_max w s (wf_sorted _ Hwf) Hs). lia.
Qed.

Lemma exec_ops_clean ops : forall w rss,
  wal_wf w -> (exists rss0 rs, rss = rss0 ++ [rs]) -> clean (segments w) rss ->
  Forall rec_ok (ops ≫= op_records) ->
  wal_wf (foldl exec_op w ops) /\ SegmentSize (foldl exec_op w ops) = SegmentSize w /\
  exists rss0 rs, clean (segments (foldl exec_op w ops)) (rss0 ++ [rs]) /\
    mjoin (rss0 ++ [rs]) = mjoin rss ++ (ops ≫= op_records).
Proof.
  induction ops as [|op ops IH]; intros w rss Hwf Hne Hc Hr.
  - destruct Hne as (rss0 & rs & ->). split_and!; [done..|]. exists rss0, rs. by rewrite app_nil_r.
  - cbn in Hr. apply Forall_app in Hr as [Hr1 Hr2].
    destruct (exec_op_clean op w rss Hwf Hne Hc Hr1) as (Hwf1 & Hsz1 & rss1 & Hc1 & Hne1 & Hj1).
    destruct (IH _ _ Hwf1 Hne1 Hc1 Hr2) as (Hwf2 & Hsz2 & rss0 & rs & Hc2 & Hj2).
    cbn. split_and!; [done|congruence|]. exists rss0, rs. split; [done|]. by rewrite Hj2, Hj1, <- app_assoc.
Qed.

(** The records from sequence number 0 on are all of them. *)
Lemma records_from_0 segs rss : clean segs rss -> records_from 0 segs rss = mjoin rss.
Proof.
  induction 1 as [|s rs segs rss _ _ IH]; [done|]. cbn. destruct (N.ltb_spec (seg_Seq s) 0); [lia|]. by rewrite IH.
Qed.

Lemma records_from_min k segs rss :
  clean segs rss -> (forall s, s ∈ segs -> k <= seg_Seq s) -> records_from k segs rss = mjoin rss.
Proof.
  induction 1 as [|s rs segs rss _ _ IH]; intros Hall; [done|]. cbn. pose proof (Hall s ltac:(by left)).
  destruct (N.ltb_spec (seg_Seq s) k); [lia|]. rewrite IH; [done|]. intros s' Hs'. apply Hall. by right.
Qed.

Lemma ReadAll_collect w rss :
  clean (segments w) rss -> ReadAll collect 0 [] w = (mjoin rss, w, None).
Proof. intros Hc. rewrite ReadAll_clean with (rss := rss) by done. by rewrite deliver_collect, records_from_0. Qed.

(** The records of clean files are determined by the files. *)
Lemma clean_unique segs rss rss' : clean segs rss -> clean segs rss' -> rss = rss'.
Proof.
  intros Hc. revert rss'. induction Hc as [|s rs segs rss [Hf Hrs] _ IH]; intros rss' Hc'; [by apply Forall2_nil_inv_l in Hc'|].
  apply Forall2_cons_inv_l in Hc' as (rs' & rss'' & [Hf' Hrs'] & Hc' & ->). f_equal; [|by apply IH].
  pose proof (readSegment_whole collect rs [] rs Hrs ltac:(by rewrite deliver_collect)) as H1.
  pose proof (readSegment_whole collect rs' [] rs' Hrs' ltac:(by rewrite deliver_collect)) as H2.
  rewrite <- Hf in H1. rewrite <- Hf' in H2. congruence.
Qed.

(** For any reader: an interrupted append reads, and is repaired, as the append of
    a prefix of its records. *)
Lemma ReadAll_torn w rss rs recs n :
  wal_wf w -> clean (segments w) (rss ++ [rs]) -> Forall rec_ok recs ->
  exists k, ((length (encodeRecords recs) <= n)%nat -> take k recs = recs) /\
  forall (A E : Type) (fn : A -> WalRecord -> A * option E) minSeq a a',
    (forall s, s ∈ segments w -> minSeq <= seg_Seq s) ->
    deliver fn a (mjoin (rss ++ [rs ++ take k recs])) = (a', None) ->
    ReadAll fn minSeq a (Append (Some n) recs w).1 = (a', (Append None (take k recs) w).1, None).
Proof.
  intros Hwf Hc Hr. destruct (decide (recs = [])) as [->|Hne].
  { exists 0%nat. split; [done|]. intros A E fn minSeq a a' Hmin Hd. cbn [Append appendLocked fst take] in *.
    rewrite app_nil_r in Hd. rewrite (ReadAll_clean _ _ _ _ _ Hc), records_from_min by done. by rewrite Hd. }
  destruct (encode_prefix recs n Hr) as (k & tail & Htake & Htail & Hall). exists k. split; [exact Hall|]. intros A E fn minSeq a a' Hmin Hd.
  assert (Happ : (Append (Some n) recs w).1 = write_active (take n (encodeRecords recs)) w) by by destruct recs.
  assert (Hk : (Append None (take k recs) w).1 = write_active (encodeRecords (take k recs)) w).
  { destruct (take k recs) eqn:Ht; [|done]. cbn. destruct (wf_split w Hwf) as (init & s & Hw & _).
    rewrite (write_active_snoc _ _ _ _ Hw), app_nil_r. destruct w as [sz segs size]. cbn in *. subst segs.
    f_equal; [f_equal; f_equal; by destruct s|lia]. }
  rewrite Happ, Htake, Hk. destruct (wf_split w Hwf) as (init & s & Hw & Hsz).
  rewrite !(write_active_snoc _ _ _ _ Hw).
  pose proof Hc as Hc0. rewrite Hw in Hc0. apply clean_snoc_inv in Hc0 as (rss0 & rs0 & He & Hi & Hs).
  apply app_inj_tail in He as [<- <-].
  assert (Hok : Forall rec_ok (rs ++ take k recs)) by (apply Forall_app; split; [apply Hs|by apply Forall_take]).
  rewrite Hw in Hmin. rewrite join_app in Hd. cbn in Hd. rewrite app_nil_r in Hd.
  destruct Htail as [->|Ht].
  - rewrite app_nil_r, ReadAll_clean with (rss := rss ++ [rs ++ take k recs]).
    + cbn [segments]. rewrite records_from_min.
      * rewrite join_app. cbn. by rewrite app_nil_r, Hd.
      * apply Forall2_app; [done|]. constructor; [|constructor]. by apply holds_records_app; [|apply Forall_take].
      * intros s0 [Hs0|Hs0%list_elem_of_singleton]%elem_of_app; [apply Hmin; set_solver|]. subst s0. cbn. apply Hmin. set_solver.
    + apply Forall2_app; [done|]. constructor; [|constructor]. by apply holds_records_app; [|apply Forall_take].
  - erewrite readAll_bad_tail with (rss := rss) (rs := rs ++ take k recs) (tail := tail) (a' := a');
      [|reflexivity|done| |done|by apply torn_unreadable|cbn; apply Hmin; set_solver|].
    + do 2 f_equal. unfold set_field. cbn. destruct Hs as [Hf _]. f_equal.
      * rewrite Hf, encodeRecords_app. done.
      * rewrite Hsz, Hf, encodeRecords_app, length_app. lia.
    + cbn. destruct Hs as [-> _]. by rewrite encodeRecords_app, <- app_assoc.
    + rewrite records_from_min; [done|done|]. intros s0 Hs0. apply Hmin. set_solver.
Qed.

(** A write cut off by a crash: recovery keeps what was there and a prefix of
    the interrupted batch, and leaves clean files. *)
Lemma ReadAll_interrupted w rss rs recs n :
  wal_wf w -> clean (segments w) (rss ++ [rs]) -> Forall rec_ok recs ->
  exists k w', ReadAll collect 0 [] (Append (Some n) recs w).1 = (mjoin (rss ++ [rs]) ++ take k recs, w', None) /\
    wal_wf w' /\ SegmentSize w' = SegmentSize w /\ clean (segments w') (rss ++ [rs ++ take k recs]) /\
    ((length (encodeRecords recs) <= n)%nat -> take k recs = recs).
Proof.
  intros Hwf Hc Hr. destruct (ReadAll_torn w rss rs recs n Hwf Hc Hr) as (k & Hall & Hread).
  exists k, (Append None (take k recs) w).1. split_and!.
  - apply Hread; [lia|]. rewrite deliver_collect. cbn [app]. rewrite !join_app. cbn. by rewrite !app_nil_r, app_assoc.
  - by apply appendLocked_wf.
  - apply append_SegmentSize.
  - apply append_clean; [done..|by apply Forall_take].
  - done.
Qed.


(** ** Damage *)

(** The bytes of a record one of whose data bytes has been replaced. *)
Definition damaged (typ : byte) (p : bytes) (x y : byte) (q : bytes) : bytes :=
  header (mkRec typ (p ++ x :: q)) ++ p ++ y :: q.

Lemma damaged_unreadable {A E} (fn : A -> WalRecord -> A * option E) typ p x y q rest :
  rec_ok (mkRec typ (p ++ x :: q)) -> x <> y -> unreadable fn (damaged typ p x y q ++ rest).
Proof.
  intros Hr Hne fuel a off. unfold damaged. rewrite <- app_assoc.
  cbn [readSegment_loop]. rewrite ReadFull_app; [|done|lia].
  rewrite header_len, header_sum, header_typ, (rec_ok_u32 _ Hr). cbn [rec_Data rec_Type].
  destruct (N.ltb_spec maxRecordSize (lenN (p ++ x :: q))); [done|].
  replace (N.to_nat (lenN (p ++ x :: q))) with (length (p ++ y :: q)) by (unfold lenN; rewrite !length_app; cbn; lia).
  rewrite ReadFull_data. cbn [default id].
  destruct (N.eqb_spec (checksum typ (p ++ y :: q)) (checksum typ (p ++ x :: q))) as [He|]; [|done].
  exfalso. apply Hne. symmetry. eapply crc_one_byte, He. by apply crc_update_word.
Qed.

Lemma oversized_unreadable {A E} (fn : A -> WalRecord -> A * option E) r rest :
  maxRecordSize < lenN (rec_Data r) < 2 ^ 32 -> unreadable fn (encodeRecord r ++ rest).
Proof.
  intros [Hlo Hhi] fuel a off. rewrite encode_header, <- app_assoc.
  cbn [readSegment_loop]. rewrite ReadFull_app; [|done|lia]. rewrite header_len.
  unfold u32, u32_modulus. rewrite N.mod_small by done. apply N.ltb_lt in Hlo. by rewrite Hlo.
Qed.

(** C37: damage to a sealed segment is never silent. If any single data byte of any
    record of a segment other than the last one has changed, recovery stops with
    [ErrCorrupt], naming the segment and the offset of the damaged record, and
    changes no file. *)
Theorem damaged_sealed_segment_refused w before rss s rs typ p x y q rest after :
  segments w = before ++ s :: after -> after <> [] -> clean before rss ->
  seg_file s = encodeRecords rs ++ damaged typ p x y q ++ rest ->
  Forall rec_ok rs -> rec_ok (mkRec typ (p ++ x :: q)) -> x <> y ->
  ReadAll collect 0 [] w =
    (mjoin rss ++ rs, w, Some (ErrCorrupt (seg_Seq s) (lenN (encodeRecords rs)))).
Proof.
  intros Hw Hne Hc Hf Hrs Hr Hxy. unfold ReadAll. rewrite Hw.
  eapply readAll_corrupt_loop; [exact Hc|done|lia|by rewrite deliver_collect, records_from_0| |exact Hf].
  rewrite Hf. apply readSegment_bad; [done|by apply damaged_unreadable|by rewrite deliver_collect].
Qed.

(** Damage in the active segment is not told apart from a torn write. If a data
    byte of a record in the middle of the last segment has changed, recovery
    succeeds, and that record and every record after it, although they had been
    acknowledged, are cut off the file. *)
Theorem damaged_active_segment_truncated w before rss s rs typ p x y q after :
  segments w = before ++ [s] -> clean before rss ->
  seg_file s = encodeRecords rs ++ damaged typ p x y q ++ encodeRecords after ->
  Forall rec_ok rs -> rec_ok (mkRec typ (p ++ x :: q)) -> x <> y ->
  ReadAll collect 0 [] w =
    (mjoin rss ++ rs,
     w <| segments := before ++ [s <| seg_file := encodeRecords rs |>] |>
       <| wal_size := Z.of_nat (length (encodeRecords rs)) |>, None).
Proof.
  intros Hw Hc Hf Hrs Hr Hxy.
  eapply readAll_bad_tail; [done|exact Hc|exact Hf|done|by apply damaged_unreadable|lia|].
  by rewrite deliver_collect, records_from_0.
Qed.

(** A record longer than [maxRecordSize] is accepted, acknowledged and then lost:
    [Append] succeeds, but recovery takes it for a torn write and cuts it off. *)
Theorem oversized_record_lost w rss rs r :
  wal_wf w -> clean (segments w) (rss ++ [rs]) -> maxRecordSize < lenN (rec_Data r) < 2 ^ 32 ->
  (Append None [r] w).2 = true /\
  exists w', ReadAll collect 0 [] (Append None [r] w).1 = (mjoin rss ++ rs, w', None) /\ segments w' = segments w.
Proof.
  intros Hwf Hc Hr. split; [done|]. destruct (wf_split w Hwf) as (init & s & Hw & _).
  rewrite Hw in Hc. apply clean_snoc_inv in Hc as (rss0 & rs0 & He & Hi & [Hf Hrs]). apply app_inj_tail in He as [<- <-].
  eexists. unfold Append. cbn [appendLocked fst]. rewrite (write_active_snoc _ _ _ _ Hw).
  erewrite readAll_bad_tail with (tail := encodeRecord r ++ []); [|reflexivity|exact Hi| |exact Hrs|by apply oversized_unreadable|lia|].
  - split; [reflexivity|]. rewrite Hw. cbn. f_equal. f_equal. rewrite <- Hf. by destruct s.
  - cbn [seg_file set_field]. cbn. by rewrite Hf.
  - by rewrite deliver_collect, records_from_0.
Qed.

Lemma removeBefore_elem seq segs s :
  s ∈ removeBefore seq segs <-> s ∈ segs /\ (seq <= seg_Seq s \/ last segs = Some s).
Proof.
  induction segs as [|s0 segs IH]; cbn [removeBefore]; [rewrite elem_of_nil; naive_solver|].
  destruct (decide (segs = [])) as [->|Hne].
  { rewrite bool_decide_true, andb_false_r by done. cbn. rewrite !elem_of_cons, elem_of_nil. naive_solver. }
  rewrite (bool_decide_false _ Hne), andb_true_r.
  assert (Hl : last (s0 :: segs) = last segs).
  { rewrite last_cons. by destruct (last segs) eqn:E; [|apply last_None in E]. }
  assert (Hin : last segs = Some s -> s ∈ segs) by apply last_Some_elem_of.
  rewrite Hl, (elem_of_cons segs). destruct (N.ltb_spec (seg_Seq s0) seq).
  - rewrite IH. split; [naive_solver|]. intros [[->|?] [?|?]]; (lia || auto).
  - rewrite elem_of_cons, IH. split; [|naive_solver]. intros [->|?]; [|naive_solver]. auto.
Qed.

(** Removing old segments. [RemoveBefore] keeps the log well formed, and keeps
    exactly the segments numbered [seq] or higher and the active segment. *)
Theorem RemoveBefore_exact seq w :
  wal_wf w ->
  wal_wf (RemoveBefore seq w) /\
  forall s, s ∈ segments (RemoveBefore seq w) <->
    s ∈ segments w /\ (seq <= seg_Seq s \/ last (segments w) = Some s).
Proof. intros Hwf. split; [by apply RemoveBefore_wf|]. intros s. apply removeBefore_elem. Qed.

(** ** Concrete logs *)
Definition demo_rec (t : byte) (n : nat) : WalRecord := mkRec t (replicate n t).
Definition demo_ops : list walOp :=
  [OpAppend [demo_rec Byte.x01 3; demo_rec Byte.x02 0]; OpRotate 5 [demo_rec Byte.x02 2]; OpAppend [demo_rec Byte.x01 1]].
Definition demo_wal : WAL := foldl exec_op (Open 4096 []) demo_ops.

Lemma demo_recs_ok rs : forallb (fun r => lenN (rec_Data r) <=? maxRecordSize) rs = true -> Forall rec_ok rs.
Proof. rewrite forallb_forall. intros Ha. apply Forall_forall. intros r Hr. apply N.leb_le, Ha. by apply list_elem_of_In. Qed.


Definition demo_damaged (after : list Segment) : WAL :=
  mkWAL 4096 ([mkSegment 1 0 (encodeRecords [demo_rec Byte.x01 3])] ++
    mkSegment 2 1 (encodeRecords [demo_rec Byte.x02 1] ++ damaged Byte.x01 [Byte.x01] Byte.x01 Byte.x11 [] ++
                   encodeRecords [demo_rec Byte.x02 2]) :: after) 0.

Lemma demo_before_clean : clean [mkSegment 1 0 (encodeRecords [demo_rec Byte.x01 3])] [[demo_rec Byte.x01 3]].
Proof. constructor; [|constructor]. split; [done|by apply demo_recs_ok]. Qed.

Lemma damaged_sealed_segment_refused_witness :
  ReadAll collect 0 [] (demo_damaged [mkSegment 3 2 []]) =
    ([demo_rec Byte.x01 3; demo_rec Byte.x02 1], demo_damaged [mkSegment 3 2 []], Some (ErrCorrupt 2 10)).
Proof.
  apply (damaged_sealed_segment_refused (demo_damaged [mkSegment 3 2 []]) _ [[demo_rec Byte.x01 3]] _ [demo_rec Byte.x02 1]
    Byte.x01 [Byte.x01] Byte.x01 Byte.x11 [] (encodeRecords [demo_rec Byte.x02 2]) _ eq_refl);
    [done|exact demo_before_clean|done|by apply demo_recs_ok|done|done].
Defined.

Lemma damaged_active_segment_truncated_witness :
  exists w', ReadAll collect 0 [] (demo_damaged []) = ([demo_rec Byte.x01 3; demo_rec Byte.x02 1], w', None) /\
    (length (seg_file <$> segments w') = 2)%nat.
Proof.
  eexists. split; [|].
  - apply (damaged_active_segment_truncated (demo_damaged []) _ [[demo_rec Byte.x01 3]] _ [demo_rec Byte.x02 1]
      Byte.x01 [Byte.x01] Byte.x01 Byte.x11 [] [demo_rec Byte.x02 2] eq_refl);
      [exact demo_before_clean|done|by apply demo_recs_ok|done|done].
  - done.
Defined.

Definition demo_huge : WalRecord := mkRec Byte.x01 (replicate (N.to_nat (maxRecordSize + 1)) Byte.x00).

Lemma demo_huge_size : maxRecordSize < lenN (rec_Data demo_huge) < 2 ^ 32.
Proof. unfold demo_huge, lenN. cbn [rec_Data]. rewrite length_replicate, N2Nat.id. by split. Qed.

Lemma demo_wal_clean :
  wal_wf demo_wal /\
  clean (segments demo_wal) ([[demo_rec Byte.x01 3; demo_rec Byte.x02 0]] ++ [[demo_rec Byte.x02 2; demo_rec Byte.x01 1]]).
Proof.
  split.
  - split; [vm_compute; repeat constructor|]. vm_compute. by eexists.
  - repeat constructor; vm_compute; done.
Qed.

Lemma oversized_record_lost_witness :
  (Append None [demo_huge] demo_wal).2 = true /\
  exists w', ReadAll collect 0 [] (Append None [demo_huge] demo_wal).1 = (demo_ops ≫= op_records, w', None) /\
    segments w' = segments demo_wal.
Proof.
  exact (oversized_record_lost demo_wal _ _ demo_huge (proj1 demo_wal_clean) (proj2 demo_wal_clean) demo_huge_size).
Defined.

Lemma RemoveBefore_exact_witness :
  wal_wf (RemoveBefore 2 demo_wal) /\ (length (segments (RemoveBefore 2 demo_wal)) = 1)%nat.
Proof. split; [apply (RemoveBefore_exact 2 demo_wal), demo_wal_clean|by vm_compute]. Defined.
