(* ===== verification/RaftStore.v ===== *)
(** * The durable storage (internal/raftstore/raftstore.go)

    Hard state and entries are records of the write-ahead log; snapshots are
    files next to it, named by index and term in hexadecimal. Protobuf encoding
    is the [Codec] parameter. File operations other than interrupted writes are
    taken to succeed; what a crash can leave on disk is described explicitly. *)

From Stdlib Require Import Ascii.
From S2P Require Import Prelude Types Crc RaftLog Storage Wal.

(** ** File names *)
Definition hexdigit (n : N) : ascii :=
  match n with
  | 0 => "0" | 1 => "1" | 2 => "2" | 3 => "3" | 4 => "4" | 5 => "5" | 6 => "6" | 7 => "7"
  | 8 => "8" | 9 => "9" | 10 => "a" | 11 => "b" | 12 => "c" | 13 => "d" | 14 => "e" | _ => "f"
  end%char.

(** The last [k] hexadecimal digits of a number, most significant first. *)
Fixpoint hex (k : nat) (n : N) : string :=
  match k with
  | O => ""
  | S k => String (hexdigit ((n / 16 ^ N.of_nat k) mod 16)) (hex k n)
  end.

Definition snapshotName (index t : N) : string :=
  "snap-" +:+ hex 16 index +:+ "-" +:+ hex 16 t +:+ ".snap".

(** Reading a hexadecimal number of at most [k] digits, as [Sscanf] does with a width. *)
Definition hexvalue (c : ascii) : option N :=
  let n := N_of_ascii c in
  if (48 <=? n) && (n <=? 57) then Some (n - 48)
  else if (97 <=? n) && (n <=? 102) then Some (n - 87)
  else if (65 <=? n) && (n <=? 70) then Some (n - 55)
  else None.

Fixpoint scan_hex (k : nat) (acc : N) (s : string) : N * string :=
  match k, s with
  | S k, String c s' =>
      match hexvalue c with
      | Some d => scan_hex k (acc * 16 + d) s'
      | None => (acc, s)
      end
  | _, _ => (acc, s)
  end.

(** At least one digit must be there. *)
Definition scan_number (s : string) : option (N * string) :=
  match s with
  | String c _ => if bool_decide (is_Some (hexvalue c)) then Some (scan_hex 16 0 s) else None
  | EmptyString => None
  end.

Fixpoint scan_literal (lit s : string) : option string :=
  match lit, s with
  | EmptyString, _ => Some s
  | String a lit, String b s => if bool_decide (a = b) then scan_literal lit s else None
  | _, _ => None
  end.

Definition parseSnapshotPath (path : string) : option (N * N) :=
  s ← scan_literal "snap-" path;
  '(i, s) ← scan_number s;
  s ← scan_literal "-" s;
  '(t, s) ← scan_number s;
  _ ← scan_literal ".snap" s;
  Some (i, t).

Fixpoint has_suffix (suffix s : string) : bool :=
  bool_decide (s = suffix) || match s with EmptyString => false | String _ s => has_suffix suffix s end.

Definition is_snapshot_file (name : string) : bool :=
  bool_decide (is_Some (scan_literal "snap-" name)) && has_suffix ".snap" name.
Definition is_snapshot_tmp (name : string) : bool :=
  bool_decide (is_Some (scan_literal "snap-" name)) && has_suffix ".snap.tmp" name.

Definition string_le (a b : string) : Prop := String.leb a b = true.
#[global] Instance string_le_dec : RelDecision string_le.
Proof. intros a b. unfold string_le. apply _. Defined.

(** ** Snapshot files *)
Definition snapMagic : bytes := byteN <$> [69; 75; 86; 83; 78; 65; 80; 49].

Section Store.
Context `{Codec HardState, Codec Entry, Codec SnapshotMeta}.

Definition encodeSnapshot (metaBytes data : bytes) : bytes :=
  let body := snapMagic ++ le_bytes 4 (u32 (lenN metaBytes)) ++ metaBytes ++ le_bytes 8 (lenN data) ++ data in
  body ++ le_bytes 4 (crc_checksum body).

(** [None] is [errBadSnapshot]. *)
Definition readSnapshotFile (buf : bytes) : option (SnapshotMeta * bytes) :=
  if (length buf <? 8 + 4 + 8 + 4)%nat || negb (bool_decide (take 8 buf = snapMagic)) then None
  else
    let body := take (length buf - 4) buf in
    let sum := le_value (drop (length buf - 4) buf) in
    if negb (crc_checksum body =? sum) then None
    else
      let p := drop 8 body in
      let metaLen := le_value (take 4 p) in
      let p := drop 4 p in
      if lenN p <? metaLen + 8 then None
      else
        match unmarshal (take (N.to_nat metaLen) p) with
        | None => None
        | Some meta =>
            let p := drop (N.to_nat metaLen) p in
            let dataLen := le_value (take 8 p) in
            let p := drop 8 p in
            if negb (lenN p =? dataLen) then None else Some (meta, p)
        end.

(** ** State *)
Definition recEntry : byte := Byte.x01.
Definition recHardState : byte := Byte.x02.

Record RStore := mkRStore {
  rs_files : gmap string bytes;    (* the directory, without the log's *)
  rs_wal : WAL;
  rs_hs : option HardState;
  rs_meta : option SnapshotMeta;
  rs_lastIndex : N;
}.

#[global] Instance eta_RStore : Eta RStore := fun s =>
  mkRStore (rs_files s) (rs_wal s) (rs_hs s) (rs_meta s) (rs_lastIndex s).

(** What is on disk. *)
Record Disk := mkDisk {
  dk_files : gmap string bytes;
  dk_segments : list Segment;
}.

Definition disk (s : RStore) : Disk := mkDisk (rs_files s) (segments (rs_wal s)).

Definition OpenStore (segmentSize : Z) (d : Disk) : RStore :=
  mkRStore (dk_files d) (Open segmentSize (dk_segments d)) None None 0.

(** ** Snapshot directory *)
Definition snapshotFiles (s : RStore) : list string :=
  merge_sort string_le (filter (fun n => is_snapshot_file n = true) (map_to_list (rs_files s)).*1).

Definition snapshotPath (m : SnapshotMeta) : string := snapshotName (sm_LastIncludedIndex m) (sm_LastIncludedTerm m).

Definition removeTmps (s : RStore) : RStore :=
  s <| rs_files := filter (fun '(n, _) => is_snapshot_tmp n = false) (rs_files s) |>.

(** [None] is an error; [Some None]: there is no snapshot. *)
Definition loadNewestSnapshot (s : RStore) : RStore * option (option (SnapshotMeta * bytes)) :=
  let s := removeTmps s in
  (s, match last (snapshotFiles s) with
      | None => Some None
      | Some newest =>
          match rs_files s !! newest ≫= readSnapshotFile with
          | None => None
          | Some md => Some (Some md)
          end
      end).

(** The three steps of [writeSnapshotFile]: the bytes, the temporary file, the rename. *)
Definition snapshotBytes (m : SnapshotMeta) (data : bytes) : option bytes :=
  metaBytes ← marshal m; Some (encodeSnapshot metaBytes data).

Definition writeTmp (m : SnapshotMeta) (buf : bytes) (s : RStore) : RStore :=
  s <| rs_files := <[snapshotPath m +:+ ".tmp" := buf]> (rs_files s) |>.

Definition renameTmp (m : SnapshotMeta) (buf : bytes) (s : RStore) : RStore :=
  s <| rs_files := <[snapshotPath m := buf]> (delete (snapshotPath m +:+ ".tmp") (rs_files s)) |>.

Definition writeSnapshotFile (m : SnapshotMeta) (data : bytes) (s : RStore) : RStore * bool :=
  match snapshotBytes m data with
  | None => (s, false)
  | Some buf => (renameTmp m buf (writeTmp m buf s), true)
  end.

(** ** Garbage collection *)

(** The loop that looks for the first segment recovery still needs. *)
Fixpoint gcBound (index bound : N) (segs : list Segment) : N :=
  match segs with
  | s :: ((s' :: _) as segs) =>
      if index + 1 <? seg_Tag s' then bound else gcBound index (N.max bound (seg_Seq s')) segs
  | _ => bound
  end.

Definition keepFile (m : SnapshotMeta) (name : string) : bool :=
  negb (is_snapshot_file name) || bool_decide (name = snapshotPath m) ||
  match parseSnapshotPath name with
  | Some (idx, _) => sm_LastIncludedIndex m <? idx
  | None => false
  end.

Definition gcLocked (s : RStore) : RStore :=
  match rs_meta s with
  | None => s
  | Some m =>
      let bound := gcBound (sm_LastIncludedIndex m) (sm_MinWalSegment m) (Segments (rs_wal s)) in
      s <| rs_wal := RemoveBefore bound (rs_wal s) |>
        <| rs_files := filter (fun '(n, _) => keepFile m n = true) (rs_files s) |>
  end.

(** ** Recovery *)
Inductive loadErr :=
| ErrUnmarshal
| ErrGap (have snapIndex index : N)
| ErrUnknownType (typ : byte).

(** The callback of [Load]: the hard state and the entries so far. *)
Definition loadRecord (snapIndex : N) (a : option HardState * list Entry) (r : WalRecord) :
    (option HardState * list Entry) * option loadErr :=
  let '(hs, es) := a in
  if bool_decide (rec_Type r = recHardState) then
    match unmarshal (rec_Data r) with
    | None => (a, Some ErrUnmarshal)
    | Some h => ((Some h, es), None)
    end
  else if bool_decide (rec_Type r = recEntry) then
    match unmarshal (rec_Data r) with
    | None => (a, Some ErrUnmarshal)
    | Some e =>
        if ent_Index e <=? snapIndex then (a, None)
        else
          let pos := ent_Index e - snapIndex - 1 in
          if lenN es <? pos then (a, Some (ErrGap (lenN es) snapIndex (ent_Index e)))
          else ((hs, take (N.to_nat pos) es ++ [e]), None)
    end
  else (a, Some (ErrUnknownType (rec_Type r))).

Definition rs_Load (s : RStore) : option Loaded * RStore :=
  match loadNewestSnapshot s with
  | (s, None) => (None, s)
  | (s, Some snap) =>
      let s := s <| rs_meta := fst <$> snap |> in
      let snapIndex := match snap with Some (m, _) => sm_LastIncludedIndex m | None => 0 end in
      let minSeq := match snap with Some (m, _) => sm_MinWalSegment m | None => 0 end in
      match ReadAll (loadRecord snapIndex) minSeq (rs_hs s, []) (rs_wal s) with
      | ((hs, _), w, Some _) => (None, s <| rs_hs := hs |> <| rs_wal := w |>)
      | ((hs, es), w, None) =>
          let s := s <| rs_hs := hs |> <| rs_wal := w |> <| rs_lastIndex := snapIndex + lenN es |> in
          (Some (mkLoaded hs (fst <$> snap) (match snap with Some (_, data) => data | None => [] end) es), gcLocked s)
      end
  end.

(** ** Writing *)
Definition hardStateRecord (hs : HardState) : option WalRecord :=
  b ← marshal hs; Some (mkRec recHardState b).

Definition entryRecord (e : Entry) : option WalRecord :=
  b ← marshal e; Some (mkRec recEntry b).

(** [fault] interrupts the write of the new segment's first records. *)
Definition rotateLocked (fault : option nat) (s : RStore) : RStore * bool :=
  match match rs_hs s with
        | None => Some []
        | Some hs => r ← hardStateRecord hs; Some [r]
        end with
  | None => (s, false)
  | Some head =>
      let '(w, _, ok) := Rotate fault (rs_lastIndex s + 1) head (rs_wal s) in
      (s <| rs_wal := w |>, ok)
  end.

(** The records of a [Save]; [None] when one of them cannot be encoded. *)
Definition saveRecords (hs : option HardState) (es : list Entry) : option (list WalRecord) :=
  hr ← match hs with
       | None => Some []
       | Some h => r ← hardStateRecord h; Some [r]
       end;
  er ← mapM entryRecord es;
  Some (hr ++ er).

(** [f1] interrupts the write of the batch, [f2] that of the next segment's head. *)
Definition rs_Save (f1 f2 : option nat) (s : RStore) (hs : option HardState) (es : list Entry) : RStore * bool :=
  match saveRecords hs es with
  | None => (s, false)
  | Some recs =>
      let '(w, ok) := Append f1 recs (rs_wal s) in
      let s := s <| rs_wal := w |> in
      if negb ok then (s, false)
      else
        let s := match hs with Some h => s <| rs_hs := Some h |> | None => s end in
        let s := match last es with Some e => s <| rs_lastIndex := ent_Index e |> | None => s end in
        if ShouldRotate (rs_wal s) then
          match rotateLocked f2 s with
          | (s, false) => (s, false)
          | (s, true) => (gcLocked s, true)
          end
        else (s, true)
  end.

(** The first critical section of [SaveSnapshot]: the metadata to write, unless
    the snapshot is stale. *)
Definition snapshot_begin (fault : option nat) (meta : SnapshotMeta) (discardLog : bool) (s : RStore) :
    RStore * bool * option SnapshotMeta :=
  if match rs_meta s with
     | Some m => sm_LastIncludedIndex meta <=? sm_LastIncludedIndex m
     | None => false
     end
  then (s, true, None)
  else
    let meta := match rs_meta s with
                | Some m => meta <| sm_MinWalSegment := sm_MinWalSegment m |>
                | None => meta
                end in
    if discardLog then
      match rotateLocked fault (s <| rs_lastIndex := sm_LastIncludedIndex meta |>) with
      | (s, false) => (s, false, None)
      | (s, true) => (s, true, Some (meta <| sm_MinWalSegment := lastSeq (rs_wal s) |>))
      end
    else (s, true, Some meta).

(** The last one: publish the metadata and collect garbage. *)
Definition snapshot_end (meta : SnapshotMeta) (s : RStore) : RStore :=
  gcLocked (if match rs_meta s with
               | None => true
               | Some m => sm_LastIncludedIndex m <? sm_LastIncludedIndex meta
               end
            then s <| rs_meta := Some meta |> else s).

Definition rs_SaveSnapshot (s : RStore) (meta : SnapshotMeta) (data : bytes) (discardLog : bool) : RStore * bool :=
  match snapshot_begin None meta discardLog s with
  | (s, ok, None) => (s, ok)
  | (s, _, Some meta) =>
      match writeSnapshotFile meta data s with
      | (s, false) => (s, false)
      | (s, true) => (snapshot_end meta s, true)
      end
  end.

Definition rs_Snapshot (s : RStore) : option (option SnapshotMeta * bytes) :=
  match rs_meta s with
  | None => Some (None, [])
  | Some m =>
      md ← rs_files s !! snapshotPath m ≫= readSnapshotFile;
      Some (Some md.1, md.2)
  end.

Definition WALSize (s : RStore) : Z := SizeOnDisk (rs_wal s).

End Store.
