(* ===== verification/SnapshotFile.v ===== *)
(** * Snapshot files

    The names of snapshot files parse back and sort by index, and a file reads back
    what was written or is refused. *)

From Stdlib Require Import Ascii.
From S2P Require Import Prelude Types Crc RaftLog Storage Wal RaftStore.

(** ** File names *)
Definition digits : list N := [0; 1; 2; 3; 4; 5; 6; 7; 8; 9; 10; 11; 12; 13; 14; 15].

Lemma digit_In n : n < 16 -> In n digits.
Proof. intros. cbn. lia. Qed.

Lemma hexdigit_value n : n < 16 -> hexvalue (hexdigit n) = Some n.
Proof.
  intros Hn%digit_In.
  assert (Hall : forallb (fun a => bool_decide (hexvalue (hexdigit a) = Some a)) digits = true) by by vm_compute.
  rewrite forallb_forall in Hall. by apply Hall, bool_decide_eq_true in Hn.
Qed.

Lemma hexdigit_compare a b : a < 16 -> b < 16 -> Ascii.compare (hexdigit a) (hexdigit b) = (a ?= b).
Proof.
  intros Ha%digit_In Hb%digit_In.
  assert (Hall : forallb (fun a => forallb (fun b => bool_decide (Ascii.compare (hexdigit a) (hexdigit b) = (a ?= b)))
    digits) digits = true) by by vm_compute.
  rewrite forallb_forall in Hall. specialize (Hall a Ha). rewrite forallb_forall in Hall.
  by apply Hall, bool_decide_eq_true in Hb.
Qed.

(** A number is its leading digit and the rest. *)
Lemma lead_digit k n : n < 16 ^ N.of_nat (S k) ->
  n = (n / 16 ^ N.of_nat k) * 16 ^ N.of_nat k + n mod 16 ^ N.of_nat k /\ n / 16 ^ N.of_nat k < 16.
Proof.
  intros Hn. rewrite Nat2N.inj_succ, N.pow_succ_r' in Hn. split.
  - rewrite (N.mul_comm (n / _)). apply N.div_mod. apply N.pow_nonzero. lia.
  - apply N.Div0.div_lt_upper_bound. lia.
Qed.

Lemma hex_mod k m n : (k <= m)%nat -> hex k (n mod 16 ^ N.of_nat m) = hex k n.
Proof.
  revert n. induction k as [|k IH]; intros n Hk; [done|]. cbn [hex]. rewrite IH by lia. do 2 f_equal.
  assert (Hp : 16 ^ N.of_nat m = 16 ^ N.of_nat k * (16 * 16 ^ N.of_nat (m - S k))).
  { rewrite <- N.pow_succ_r', <- N.pow_add_r. f_equal. lia. }
  assert (16 ^ N.of_nat k <> 0) by (apply N.pow_nonzero; lia).
  assert (16 ^ N.of_nat (m - S k) <> 0) by (apply N.pow_nonzero; lia).
  rewrite Hp, N.Div0.mod_mul_r. rewrite (N.mul_comm (16 ^ N.of_nat k) (_ mod _)), N.div_add by done.
  rewrite N.div_small by (by apply N.mod_lt). rewrite N.add_0_l, N.Div0.mod_mul_r.
  rewrite (N.mul_comm 16), N.Div0.mod_add. apply N.Div0.mod_mod.
Qed.

(** Fixed-width hexadecimal: lexical order is numeric order. *)
Lemma hex_compare k a b x y :
  a < 16 ^ N.of_nat k -> b < 16 ^ N.of_nat k ->
  String.compare (hex k a +:+ x) (hex k b +:+ y) =
    match a ?= b with Eq => String.compare x y | c => c end.
Proof.
  revert a b. induction k as [|k IH]; intros a b Ha Hb.
  - cbn in *. assert (a = 0) as -> by lia. assert (b = 0) as -> by lia. done.
  - destruct (lead_digit k a Ha) as [Ea Da], (lead_digit k b Hb) as [Eb Db].
    cbn [hex]. rewrite !N.mod_small by done.
    change (String.compare (String ?c ?s +:+ x) (String ?d ?t +:+ y)) with
      (match Ascii.compare c d with Eq => String.compare (s +:+ x) (t +:+ y) | ne => ne end).
    rewrite hexdigit_compare by done.
    assert (Hz : 16 ^ N.of_nat k <> 0) by (apply N.pow_nonzero; lia).
    rewrite <- (hex_mod k k a), <- (hex_mod k k b) by lia. rewrite IH by (by apply N.mod_lt).
    pose proof (N.mod_lt a _ Hz). pose proof (N.mod_lt b _ Hz). rewrite Ea, Eb at 3.
    set (p := 16 ^ N.of_nat k) in *. clearbody p. generalize dependent (a / p). generalize dependent (b / p). intros qb ? ? qa ? ?.
    assert (Hm : forall u v, u < v -> u * p + p <= v * p).
    { intros u v Huv. replace (u * p + p) with ((u + 1) * p) by lia. apply N.mul_le_mono_r. lia. }
    clear Ea Eb Ha Hb. generalize dependent (a mod p). generalize dependent (b mod p). intros rb ? ra ?.
    destruct (N.compare_spec qa qb) as [->|Hlt|Hgt].
    + assert (Hc : (qb * p + ra ?= qb * p + rb) = (ra ?= rb)); [|by rewrite Hc].
      destruct (N.compare_spec ra rb) as [->| |];
        [apply N.compare_refl|apply N.compare_lt_iff; lia|apply N.compare_gt_iff; lia].
    + assert (Hc : (qa * p + ra ?= qb * p + rb) = Lt); [|by rewrite Hc].
      apply N.compare_lt_iff. specialize (Hm _ _ Hlt). lia.
    + assert (Hc : (qa * p + ra ?= qb * p + rb) = Gt); [|by rewrite Hc].
      apply N.compare_gt_iff. specialize (Hm _ _ Hgt). lia.
Qed.

Definition u64_ok (n : N) : Prop := n < 16 ^ N.of_nat 16.

Lemma snapshotName_compare i t j u :
  u64_ok i -> u64_ok j -> u64_ok t -> u64_ok u ->
  String.compare (snapshotName i t) (snapshotName j u) = match i ?= j with Eq => t ?= u | c => c end.
Proof.
  intros. unfold snapshotName. change (String.compare ("snap-" +:+ ?x) ("snap-" +:+ ?y)) with (String.compare x y).
  rewrite hex_compare by done. destruct (i ?= j); try done.
  change (String.compare ("-" +:+ ?x) ("-" +:+ ?y)) with (String.compare x y). rewrite hex_compare by done.
  by destruct (t ?= u).
Qed.

Lemma scan_hex_hex k : forall acc n rest, n < 16 ^ N.of_nat k ->
  scan_hex k acc (hex k n +:+ rest) = (acc * 16 ^ N.of_nat k + n, rest).
Proof.
  induction k as [|k IH]; intros acc n rest Hn.
  - cbn in *. assert (n = 0) as -> by lia. by rewrite N.mul_1_r, N.add_0_r.
  - destruct (lead_digit k n Hn) as [En Dn]. cbn [hex]. rewrite N.mod_small by done.
    change (String ?c ?s +:+ rest) with (String c (s +:+ rest)). cbn [scan_hex]. rewrite hexdigit_value by done.
    rewrite <- (hex_mod k k n) by lia. rewrite IH by (apply N.mod_lt, N.pow_nonzero; lia). f_equal.
    rewrite En at 3. rewrite Nat2N.inj_succ, N.pow_succ_r'. lia.
Qed.

Lemma scan_number_hex n rest : u64_ok n -> scan_number (hex 16 n +:+ rest) = Some (n, rest).
Proof.
  intros Hn. destruct (lead_digit 15 n Hn) as [_ Dn].
  assert (He : scan_number (hex 16 n +:+ rest) = Some (scan_hex 16 0 (hex 16 n +:+ rest))).
  { change (hex 16 n +:+ rest) with (String (hexdigit ((n / 16 ^ N.of_nat 15) mod 16)) (hex 15 n +:+ rest)).
    unfold scan_number. rewrite N.mod_small, hexdigit_value by done. done. }
  rewrite He, scan_hex_hex by done. by rewrite N.mul_0_l, N.add_0_l.
Qed.

Lemma parse_snapshotName i t : u64_ok i -> u64_ok t -> parseSnapshotPath (snapshotName i t) = Some (i, t).
Proof.
  intros Hi Ht. unfold parseSnapshotPath, snapshotName.
  change (scan_literal "snap-" ("snap-" +:+ ?x)) with (Some x). cbn [mbind option_bind].
  rewrite scan_number_hex by done. cbn [mbind option_bind].
  change (scan_literal "-" ("-" +:+ ?x)) with (Some x). cbn [mbind option_bind].
  rewrite scan_number_hex by done. done.
Qed.

Lemma snapshotName_inj i t j u :
  u64_ok i -> u64_ok j -> u64_ok t -> u64_ok u -> snapshotName i t = snapshotName j u -> i = j /\ t = u.
Proof.
  intros ? ? ? ? He. apply (f_equal parseSnapshotPath) in He. rewrite !parse_snapshotName in He by done. by simplify_eq.
Qed.

Lemma has_suffix_app x suffix : has_suffix suffix (x +:+ suffix) = true.
Proof.
  induction x as [|c x IH].
  - change ("" +:+ suffix) with suffix. destruct suffix; cbn [has_suffix]; by rewrite bool_decide_true.
  - change (String c x +:+ suffix) with (String c (x +:+ suffix)). cbn [has_suffix]. rewrite IH. apply orb_true_r.
Qed.

Lemma has_suffix_true suffix s : has_suffix suffix s = true -> exists x, s = x +:+ suffix.
Proof.
  induction s as [|c s IH]; cbn [has_suffix]; rewrite orb_true_iff, bool_decide_eq_true.
  - intros [<-|?]; [by exists ""|done].
  - intros [<-|Hs]; [by exists ""|]. destruct (IH Hs) as [x ->]. by exists (String c x).
Qed.

Lemma list_ascii_app a b : String.list_ascii_of_string (a +:+ b) = String.list_ascii_of_string a ++ String.list_ascii_of_string b.
Proof.
  induction a as [|c a IH]; [done|]. change (String c a +:+ b) with (String c (a +:+ b)).
  cbn [String.list_ascii_of_string app]. by rewrite IH.
Qed.

Lemma suffixes_differ x y : x +:+ ".snap" <> y +:+ ".tmp".
Proof.
  intros He. apply (f_equal (fun s => reverse (String.list_ascii_of_string s))) in He.
  rewrite !list_ascii_app, !reverse_app in He. done.
Qed.

Lemma string_app_assoc (a b c : string) : (a +:+ b) +:+ c = a +:+ b +:+ c.
Proof.
  induction a as [|x a IH]; [done|]. change (String x a +:+ ?s) with (String x (a +:+ s)).
  change (String x ?t +:+ c) with (String x (t +:+ c)). by rewrite IH.
Qed.

Lemma snapshotName_prefix i t : exists x, snapshotName i t = "snap-" +:+ x +:+ ".snap".
Proof. exists (hex 16 i +:+ "-" +:+ hex 16 t). unfold snapshotName. by rewrite !string_app_assoc. Qed.

Lemma snapshotName_is_file i t : is_snapshot_file (snapshotName i t) = true.
Proof.
  unfold is_snapshot_file. apply andb_true_iff. split.
  - apply bool_decide_eq_true. unfold snapshotName. by eexists.
  - destruct (snapshotName_prefix i t) as [x ->]. rewrite <- string_app_assoc. apply has_suffix_app.
Qed.

Lemma snapshotName_not_tmp i t : is_snapshot_tmp (snapshotName i t) = false.
Proof.
  unfold is_snapshot_tmp. apply andb_false_iff. right. apply not_true_is_false. intros (x & Hx)%has_suffix_true.
  destruct (snapshotName_prefix i t) as [y Hy]. rewrite Hy in Hx. rewrite <- string_app_assoc in Hx.
  apply (suffixes_differ ("snap-" +:+ y) (x +:+ ".snap")). by rewrite Hx, string_app_assoc.
Qed.

Lemma tmp_is_tmp i t : is_snapshot_tmp (snapshotName i t +:+ ".tmp") = true.
Proof.
  unfold is_snapshot_tmp. apply andb_true_iff. split.
  - apply bool_decide_eq_true. unfold snapshotName. by eexists.
  - destruct (snapshotName_prefix i t) as [x ->]. rewrite !string_app_assoc.
    change (".snap" +:+ ".tmp") with ".snap.tmp". rewrite <- string_app_assoc. apply has_suffix_app.
Qed.

Lemma tmp_not_file i t : is_snapshot_file (snapshotName i t +:+ ".tmp") = false.
Proof.
  unfold is_snapshot_file. apply andb_false_iff. right. apply not_true_is_false. intros (x & Hx)%has_suffix_true.
  by apply (suffixes_differ x (snapshotName i t)).
Qed.

(** ** Snapshot files *)
Section SnapshotFile.
Context `{CodecLaws SnapshotMeta}.

Lemma crc_checksum_word p : word32 (crc_checksum p).
Proof. by apply crc_update_word. Qed.

Definition snapshotBody (metaBytes data : bytes) : bytes :=
  snapMagic ++ le_bytes 4 (u32 (lenN metaBytes)) ++ metaBytes ++ le_bytes 8 (lenN data) ++ data.

Lemma encodeSnapshot_body mb data :
  encodeSnapshot mb data = snapshotBody mb data ++ le_bytes 4 (crc_checksum (snapshotBody mb data)).
Proof. done. Qed.

Lemma take_app_len {A} n (l k : list A) : length l = n -> take n (l ++ k) = l.
Proof. intros <-. apply take_app_length. Qed.
Lemma drop_app_len {A} n (l k : list A) : length l = n -> drop n (l ++ k) = k.
Proof. intros <-. apply drop_app_length. Qed.

Lemma read_encodeSnapshot (m : SnapshotMeta) mb data :
  marshal m = Some mb -> lenN mb < 2 ^ 32 -> lenN data < 2 ^ 64 ->
  readSnapshotFile (encodeSnapshot mb data) = Some (m, data).
Proof.
  intros Hm Hmb Hdata. rewrite encodeSnapshot_body. set (body := snapshotBody mb data).
  assert (Hlen : length body = (20 + length mb + length data)%nat).
  { unfold body, snapshotBody. rewrite !length_app, !le_bytes_length. change (length snapMagic) with 8%nat. lia. }
  unfold readSnapshotFile. rewrite length_app, le_bytes_length.
  replace (length body + 4 - 4)%nat with (length body) by lia. rewrite take_app_length, drop_app_length.
  destruct (Nat.ltb_spec (length body + 4) (8 + 4 + 8 + 4)); [lia|].
  assert (Hmagic : take 8 (body ++ le_bytes 4 (crc_checksum body)) = snapMagic).
  { unfold body at 1, snapshotBody. rewrite <- app_assoc. by apply take_app_len. }
  rewrite (bool_decide_true _ Hmagic). cbn [orb negb].
  rewrite le_value_small by (apply crc_checksum_word). rewrite N.eqb_refl. cbn [negb].
  assert (Hp : drop 8 body = le_bytes 4 (u32 (lenN mb)) ++ mb ++ le_bytes 8 (lenN data) ++ data)
    by (unfold body, snapshotBody; by apply drop_app_len).
  rewrite Hp, take_app_len, drop_app_len by done.
  assert (Hu : u32 (lenN mb) = lenN mb) by (unfold u32, u32_modulus; by apply N.mod_small).
  rewrite Hu, le_value_small by done.
  destruct (N.ltb_spec (lenN (mb ++ le_bytes 8 (lenN data) ++ data)) (lenN mb + 8)) as [Hc|_].
  { rewrite !lenN_app in Hc. unfold lenN at 2 in Hc. rewrite le_bytes_length in Hc. lia. }
  replace (N.to_nat (lenN mb)) with (length mb) by (unfold lenN; lia).
  rewrite take_app_length, drop_app_length, (unmarshal_marshal _ _ Hm).
  rewrite take_app_len, drop_app_len by done. rewrite le_value_small by done. by rewrite N.eqb_refl.
Qed.

(** C29: snapshot files. A snapshot that was written reads back as its metadata and
    data; and if any single byte of the file before its checksum has changed,
    reading it fails instead of returning another snapshot. *)
Theorem snapshot_file_roundtrip (m : SnapshotMeta) data mb :
  marshal m = Some mb -> lenN mb < 2 ^ 32 -> lenN data < 2 ^ 64 ->
  (exists buf, snapshotBytes m data = Some buf /\ readSnapshotFile buf = Some (m, data)) /\
  (forall p x y q, snapshotBody mb data = p ++ x :: q -> x <> y ->
     readSnapshotFile (p ++ y :: q ++ le_bytes 4 (crc_checksum (snapshotBody mb data))) = None).
Proof.
  intros Hm Hmb Hdata. split.
  - exists (encodeSnapshot mb data). split; [|by apply read_encodeSnapshot]. unfold snapshotBytes. by rewrite Hm.
  - intros p x y q Hb Hne. unfold readSnapshotFile. rewrite app_comm_cons, app_assoc.
    case_match; [done|]. rewrite length_app, le_bytes_length, Nat.add_sub, take_app_length, drop_app_length.
    rewrite le_value_small by apply crc_checksum_word.
    destruct (N.eqb_spec (crc_checksum (p ++ y :: q)) (crc_checksum (snapshotBody mb data))) as [He|]; [|done].
    exfalso. rewrite Hb in He. apply Hne. symmetry. by eapply crc_one_byte, He.
Qed.

End SnapshotFile.

(** ** Witness *)

(** A fixed-width encoding of snapshot metadata. *)
Definition meta_codec : Codec SnapshotMeta := {|
  marshal m :=
    if forallb (fun n => n <? 256 ^ 8) [sm_LastIncludedIndex m; sm_LastIncludedTerm m; sm_MinWalSegment m]
    then Some (le_bytes 8 (sm_LastIncludedIndex m) ++ le_bytes 8 (sm_LastIncludedTerm m) ++ le_bytes 8 (sm_MinWalSegment m))
    else None;
  unmarshal b :=
    Some (mkSnapshotMeta (le_value (take 8 b)) (le_value (take 8 (drop 8 b))) (le_value (drop 16 b)));
|}.

Lemma meta_codec_laws : @CodecLaws SnapshotMeta meta_codec.
Proof.
  intros m b. cbn [marshal meta_codec]. destruct (forallb _ _) eqn:Hb; [|done]. intros [= <-].
  cbn in Hb. rewrite !andb_true_iff, !N.ltb_lt in Hb. destruct Hb as (H1 & H2 & H3 & _), m as [i t n].
  cbn [sm_LastIncludedIndex sm_LastIncludedTerm sm_MinWalSegment] in *.
  transitivity (Some (mkSnapshotMeta (le_value (le_bytes 8 i)) (le_value (le_bytes 8 t)) (le_value (le_bytes 8 n)))); [done|].
  by rewrite !le_value_small by done.
Qed.

#[local] Existing Instance meta_codec.
#[local] Existing Instance meta_codec_laws.

Lemma snapshot_file_roundtrip_witness :
  let m := mkSnapshotMeta 7 2 1 in
  let body := snapshotBody (default [] (marshal m)) [Byte.x41; Byte.x42] in
  (exists buf, snapshotBytes m [Byte.x41; Byte.x42] = Some buf /\ readSnapshotFile buf = Some (m, [Byte.x41; Byte.x42])) /\
  readSnapshotFile (take 8 body ++ Byte.xff :: drop 9 body ++ le_bytes 4 (crc_checksum body)) = None.
Proof.
  intros m body. destruct (snapshot_file_roundtrip m [Byte.x41; Byte.x42] (default [] (marshal m))) as [H1 H2]; [done..|].
  split; [exact H1|]. apply (H2 _ Byte.x18); done.
Defined.
