(* ===== verification/RaftStoreFacts.v ===== *)
(** * Correctness of the durable storage

    The storage implements the contract of [Storage.v]: after any sequence of
    operations, a crash and [Load] return exactly what the contract says is
    durable. One condition is needed on snapshots that keep the log; the last
    section shows that the code breaks the contract without it, and when a
    crash interrupts a rotation. *)

From Stdlib Require Import Ascii.
From S2P Require Import Prelude Types Crc RaftLog Storage Wal RaftStore SnapshotFile.

(** ** Replaying entries

    [replay after] is what [Load] makes of the entries of the log, in the order
    they were written: an index that already exists replaces the tail, an
    index the snapshot covers is skipped, a gap is an error ([None]). *)
Fixpoint replay (after : N) (L : list Entry) (es : list Entry) : option (list Entry) :=
  match es with
  | [] => Some L
  | e :: es =>
      if (after <? ent_Index e) && (lenN L <? ent_Index e - after - 1) then None
      else replay after (spec_append after L e) es
  end.

Lemma replay_app after L es1 es2 : replay after L (es1 ++ es2) = replay after L es1 ≫= fun L => replay after L es2.
Proof. revert L. induction es1 as [|e es1 IH]; intros L; cbn; [done|]. case_match; [done|]. apply IH. Qed.

(** Entries as they are written one after another: each continues the log or
    goes back in it. [last] is the index of the end of the log before them. *)
Fixpoint chain (last : N) (es : list Entry) : Prop :=
  match es with
  | [] => True
  | e :: es => 1 <= ent_Index e <= last + 1 /\ chain (ent_Index e) es
  end.

Fixpoint chain_end (last : N) (es : list Entry) : N :=
  match es with
  | [] => last
  | e :: es => chain_end (ent_Index e) es
  end.

Lemma chain_app last es1 es2 : chain last (es1 ++ es2) <-> chain last es1 /\ chain (chain_end last es1) es2.
Proof. revert last. induction es1 as [|e es1 IH]; intros last; cbn; [tauto|]. rewrite IH. tauto. Qed.

Lemma chain_end_app last es1 es2 : chain_end last (es1 ++ es2) = chain_end (chain_end last es1) es2.
Proof. revert last. induction es1 as [|e es1 IH]; intros last; cbn; [done|]. apply IH. Qed.

Lemma chain_contiguous after es last : contiguous after es -> after <= last -> chain last es.
Proof.
  revert after last. induction es as [|e es IH]; intros after last Hc Hle; cbn; [done|].
  apply contiguous_cons in Hc as [He Hc]. split; [lia|]. eapply IH; [exact Hc|lia].
Qed.

(** Replaying over a snapshot at [i] and over a later one at [j]: once the log is
    past [j] again, the second is the first without what the later snapshot covers. *)
Lemma replay_two i j es : forall cur L L',
  i <= j -> chain cur es ->
  (i < cur -> i + lenN L = cur) -> (j < cur -> L' = drop (N.to_nat (j - i)) L) ->
  exists X X', replay i L es = Some X /\ replay j L' es = Some X' /\
    (i < chain_end cur es -> i + lenN X = chain_end cur es) /\
    (j < chain_end cur es -> X' = drop (N.to_nat (j - i)) X).
Proof.
  induction es as [|e es IH]; intros cur L L' Hij Hc HL HL'; [cbn; eauto 10|].
  destruct Hc as [He Hc]. cbn [replay chain_end].
  assert (HgL : (i <? ent_Index e) && (lenN L <? ent_Index e - i - 1) = false).
  { apply andb_false_iff. destruct (N.ltb_spec i (ent_Index e)); [right|by left]. apply N.ltb_ge. lia. }
  assert (HgL' : (j <? ent_Index e) && (lenN L' <? ent_Index e - j - 1) = false).
  { apply andb_false_iff. destruct (N.ltb_spec j (ent_Index e)); [right|by left]. apply N.ltb_ge.
    destruct (N.lt_ge_cases j cur) as [Hjc|]; [|lia]. rewrite (HL' Hjc), lenN_drop. lia. }
  rewrite HgL, HgL'. apply IH; [done|done| |].
  - intros Hi. unfold spec_append. destruct (N.leb_spec (ent_Index e) i); [lia|].
    autorewrite with edgekv. lia.
  - intros Hj. unfold spec_append. destruct (N.leb_spec (ent_Index e) j); [lia|].
    destruct (N.leb_spec (ent_Index e) i); [lia|].
    destruct (N.lt_ge_cases j cur) as [Hjc|Hjc].
    + rewrite (HL' Hjc), take_drop_commute, drop_app_le.
      * do 3 f_equal; lia.
      * rewrite length_take. unfold lenN in *. lia.
    + replace (ent_Index e - j - 1) with 0 by lia. change (take (N.to_nat 0) L') with (@nil Entry).
      destruct (N.lt_ge_cases i cur) as [Hic|Hic].
      * rewrite take_ge by (unfold lenN in *; lia). rewrite drop_app_len; [done|]. unfold lenN in *. lia.
      * assert (j = i) as -> by lia. replace (ent_Index e - i - 1) with 0 by lia. by rewrite N.sub_diag.
Qed.

Lemma replay_total i es cur L :
  chain cur es -> (i < cur -> i + lenN L = cur) ->
  exists X, replay i L es = Some X /\ (i < chain_end cur es -> i + lenN X = chain_end cur es).
Proof.
  intros Hc HL. destruct (replay_two i i es cur L L) as (X & X' & HX & _ & HX1 & _); [lia|done|done| |eauto].
  intros. by rewrite N.sub_diag.
Qed.

(** Entries the snapshot covers change nothing. *)
Lemma replay_covered i es L : Forall (fun e => ent_Index e <= i) es -> replay i L es = Some L.
Proof.
  induction 1 as [|e es He _ IH]; [done|]. cbn. unfold spec_append.
  destruct (N.ltb_spec i (ent_Index e)); [lia|]. cbn. destruct (N.leb_spec (ent_Index e) i); [done|lia].
Qed.

Lemma chain_end_covered i es cur : Forall (fun e => ent_Index e <= i) es -> cur <= i -> chain_end cur es <= i.
Proof. intros Hf. revert cur. induction Hf as [|e es He _ IH]; intros cur Hcur; [done|]. cbn. by apply IH. Qed.

(** Starting at or before the snapshot, either every entry is covered, or the
    result does not depend on what was there before. *)
Lemma replay_dichotomy i es : forall cur, chain cur es -> cur <= i ->
  Forall (fun e => ent_Index e <= i) es \/ exists X, forall L, replay i L es = Some X.
Proof.
  induction es as [|e es IH]; intros cur Hc Hcur; [by left|]. destruct Hc as [He Hc].
  destruct (N.le_gt_cases (ent_Index e) i) as [Hle|Hgt].
  - destruct (IH _ Hc Hle) as [Hf|[X HX]]; [left; by constructor|right]. exists X. intros L. cbn.
    destruct (N.ltb_spec i (ent_Index e)); [lia|]. apply HX.
  - right. destruct (replay_total i es (ent_Index e) [e] Hc) as (X & HX & _).
    { intros _. rewrite lenN_cons, lenN_nil. lia. }
    exists X. intros L. cbn. destruct (N.ltb_spec (lenN L) (ent_Index e - i - 1)); [lia|]. rewrite andb_false_r.
    unfold spec_append. destruct (N.leb_spec (ent_Index e) i); [lia|].
    by replace (ent_Index e - i - 1) with 0 by lia.
Qed.

(** Cutting off a part of the log that ends at or before the snapshot changes nothing. *)
Lemma replay_cut i A B cur :
  chain cur B -> cur <= i -> forall X, replay i [] (A ++ B) = Some X ->
  (chain_end cur B <= i -> X = []) -> replay i [] B = Some X.
Proof.
  intros Hc Hcur X HX Hend. rewrite replay_app in HX. apply bind_Some in HX as (LA & HA & HB).
  destruct (replay_dichotomy i B cur Hc Hcur) as [Hf|[Y HY]].
  - rewrite replay_covered by done. rewrite replay_covered in HB by done. simplify_eq.
    by rewrite Hend by by apply chain_end_covered.
  - rewrite HY in *. done.
Qed.

(** Entries that continue the log are replayed as the contract says. *)
Lemma replay_spec_append i es : forall L cur,
  chain cur es -> (i < cur -> i + lenN L = cur) -> replay i L es = Some (foldl (spec_append i) L es).
Proof.
  induction es as [|e es IH]; intros L cur Hc HL; [done|]. destruct Hc as [He Hc]. cbn [replay foldl].
  assert (Hg : (i <? ent_Index e) && (lenN L <? ent_Index e - i - 1) = false).
  { apply andb_false_iff. destruct (N.ltb_spec i (ent_Index e)); [right|by left]. apply N.ltb_ge. lia. }
  rewrite Hg. apply (IH _ _ Hc). intros Hi. unfold spec_append. destruct (N.leb_spec (ent_Index e) i); [lia|].
  autorewrite with edgekv. lia.
Qed.

(** ** The log as a sequence of logical records *)
Inductive lrec :=
| LHard (h : HardState)
| LEntry (e : Entry).

Definition ents (ls : list lrec) : list Entry := omap (fun l => match l with LEntry e => Some e | _ => None end) ls.

Definition hs_replay (hs : option HardState) (ls : list lrec) : option HardState :=
  foldl (fun hs l => match l with LHard h => Some h | _ => hs end) hs ls.

Lemma ents_app ls1 ls2 : ents (ls1 ++ ls2) = ents ls1 ++ ents ls2.
Proof. apply omap_app. Qed.

Lemma hs_replay_app hs ls1 ls2 : hs_replay hs (ls1 ++ ls2) = hs_replay (hs_replay hs ls1) ls2.
Proof. apply foldl_app. Qed.

Section Refinement.
Context `{CodecLaws HardState} `{CodecLaws Entry} `{CodecLaws SnapshotMeta}.

Definition encodes (r : WalRecord) (l : lrec) : Prop :=
  match l with
  | LHard h => hardStateRecord h = Some r
  | LEntry e => entryRecord e = Some r
  end.

(** What [Load]'s callback does with encoded records. *)
Lemma deliver_load i rs ls : Forall2 encodes rs ls -> forall hs L X,
  replay i L (ents ls) = Some X ->
  deliver (loadRecord i) (hs, L) rs = ((hs_replay hs ls, X), None).
Proof.
  induction 1 as [|r l rs ls Hr _ IH]; intros hs L X HX; [by cbn in *; simplify_eq|].
  destruct l as [h|e]; cbn in Hr; unfold hardStateRecord, entryRecord in Hr; apply bind_Some in Hr as (b & Hb & Hr);
    injection Hr as <-; cbn [deliver loadRecord rec_Type rec_Data].
  - cbn. rewrite (unmarshal_marshal _ _ Hb). by apply IH.
  - change (bool_decide (recEntry = recHardState)) with false.
    change (bool_decide (recEntry = recEntry)) with true. cbn [rec_Data]. rewrite (unmarshal_marshal _ _ Hb).
    cbn in HX. unfold spec_append in HX. destruct (N.ltb_spec i (ent_Index e)), (N.leb_spec (ent_Index e) i); try lia.
    + cbn in HX. destruct (N.ltb_spec (lenN L) (ent_Index e - i - 1)); [done|]. by apply IH.
    + cbn in HX. by apply IH.
Qed.

(** ** The invariant of the files and the contract's durable state *)

(** The file of the current snapshot, and no other. *)
Definition snap_ok (files : gmap string bytes) (m : option SnapshotMeta) (d : Durable) : Prop :=
  match m, d_snap d with
  | None, None => files = ∅
  | Some m, Some (i, t, data) =>
      sm_LastIncludedIndex m = i /\ sm_LastIncludedTerm m = t /\ u64_ok i /\ u64_ok t /\
      exists mb, marshal m = Some mb /\ lenN mb < 2 ^ 32 /\ lenN data < 2 ^ 64 /\
        files = {[snapshotPath m := encodeSnapshot mb data]}
  | _, _ => False
  end.

Definition minSeq (m : option SnapshotMeta) : N := match m with Some m => sm_MinWalSegment m | None => 0 end.

Record log_ok (segs : list Segment) (lss : list (list lrec)) (d : Durable) : Prop := {
  lk_hs : forall j, (j < length lss)%nat -> hs_replay None (mjoin (drop j lss)) = d_hs d;
  lk_hs_enc : forall h, d_hs d = Some h -> exists r, hardStateRecord h = Some r /\ rec_ok r;
  lk_chain : forall j s, segs !! j = Some s ->
    chain (seg_Tag s - 1) (ents (mjoin (drop j lss))) /\
    chain_end (seg_Tag s - 1) (ents (mjoin (drop j lss))) = d_lastIndex d;
  lk_base : forall s, head segs = Some s -> seg_Tag s - 1 <= d_snapIndex d;
  lk_replay : replay (d_snapIndex d) [] (ents (mjoin lss)) = Some (d_entries d);
}.

Definition recs_ok (segs : list Segment) (lss : list (list lrec)) : Prop :=
  exists rss, clean segs rss /\ Forall2 (Forall2 encodes) rss lss.

Record disk_ok (files : gmap string bytes) (w : WAL) (m : option SnapshotMeta) (d : Durable) : Prop := {
  dk_wf : wal_wf w;
  dk_size : (0 < SegmentSize w)%Z;
  dk_snap : snap_ok files m d;
  dk_min : forall s, s ∈ segments w -> minSeq m <= seg_Seq s;
  dk_log : exists lss, recs_ok (segments w) lss /\ log_ok (segments w) lss d;
}.

(** The invariant of a running store. *)
Record rs_inv (s : RStore) (d : Durable) : Prop := {
  ri_disk : disk_ok (rs_files s) (rs_wal s) (rs_meta s) d;
  ri_hs : rs_hs s = d_hs d;
  ri_last : rs_lastIndex s = d_lastIndex d;
}.

Lemma recs_ok_length segs lss : recs_ok segs lss -> length segs = length lss.
Proof. intros (rss & Hc & He). apply Forall2_length in Hc, He. congruence. Qed.

Lemma recs_ok_drop segs lss j : recs_ok segs lss -> recs_ok (drop j segs) (drop j lss).
Proof. intros (rss & Hc & He). exists (drop j rss). split; by apply Forall2_drop. Qed.

(** *** Cutting old segments off *)
Lemma removeBefore_low seq segs :
  (forall s, s ∈ segs -> seq <= seg_Seq s) -> removeBefore seq segs = segs.
Proof.
  induction segs as [|s segs IH]; intros Hall; [done|]. cbn. pose proof (Hall s ltac:(by left)).
  destruct (N.ltb_spec (seg_Seq s) seq); [lia|]. cbn. f_equal. apply IH. intros s' Hs'. apply Hall. by right.
Qed.

Lemma removeBefore_drop segs : StronglySorted segment_lt segs -> forall j s,
  segs !! j = Some s -> removeBefore (seg_Seq s) segs = drop j segs.
Proof.
  induction 1 as [|s0 segs Hs IH Hall]; intros j s Hj; [done|]. destruct j as [|j].
  - cbn in Hj. injection Hj as ->. apply (removeBefore_low (seg_Seq s) (s :: segs)). intros s' [->|Hs']%elem_of_cons; [lia|].
    rewrite Forall_forall in Hall. apply N.lt_le_incl. by apply Hall.
  - cbn in Hj |- *. assert (Hin : s ∈ segs) by by eapply list_elem_of_lookup_2.
    rewrite Forall_forall in Hall. specialize (Hall s Hin). unfold segment_lt in Hall. apply N.ltb_lt in Hall. rewrite Hall.
    rewrite bool_decide_false by (intros ->; by apply elem_of_nil in Hin). cbn. by apply IH.
Qed.

(** The bound is low, or the number of a segment that starts within the snapshot. *)
Lemma gcBound_spec i segs : forall bound, StronglySorted segment_lt segs ->
  (forall s, s ∈ segs -> bound <= seg_Seq s) ->
  gcBound i bound segs = bound \/
  exists j s, segs !! j = Some s /\ gcBound i bound segs = seg_Seq s /\ seg_Tag s <= i + 1.
Proof.
  induction segs as [|s segs IH]; intros bound Hs Hb; [by left|]. destruct segs as [|s' segs]; [by left|].
  apply StronglySorted_cons in Hs as [Hall Hs]. change (gcBound i bound (s :: s' :: segs)) with
    (if i + 1 <? seg_Tag s' then bound else gcBound i (N.max bound (seg_Seq s')) (s' :: segs)).
  destruct (N.ltb_spec (i + 1) (seg_Tag s')); [by left|right].
  assert (bound <= seg_Seq s') by (apply Hb; set_solver). rewrite N.max_r by done.
  destruct (IH (seg_Seq s')) as [->|(j & sj & Hj & -> & Ht)]; [done| | |].
  - apply StronglySorted_cons in Hs as [Hall' _]. rewrite Forall_forall in Hall'.
    intros x [->|Hx]%elem_of_cons; [lia|]. by apply N.lt_le_incl, Hall'.
  - by exists 1%nat, s'.
  - by exists (S j), sj.
Qed.

Lemma log_ok_drop segs lss d j s :
  length segs = length lss -> log_ok segs lss d -> segs !! j = Some s -> seg_Tag s - 1 <= d_snapIndex d ->
  log_ok (drop j segs) (drop j lss) d.
Proof.
  intros Hlen Hl Hj Ht. split.
  - intros k Hk. rewrite length_drop in Hk. rewrite drop_drop. apply Hl. lia.
  - apply Hl.
  - intros k s' Hk. rewrite lookup_drop in Hk. rewrite drop_drop. by apply Hl.
  - intros s' Hs'. rewrite head_lookup, lookup_drop, Nat.add_0_r in Hs'. by simplify_eq.
  - destruct (lk_chain _ _ _ Hl _ _ Hj) as [Hc He].
    apply (replay_cut _ (ents (mjoin (take j lss))) _ (seg_Tag s - 1)); [done|done| |].
    + rewrite <- ents_app, <- join_app, take_drop. apply Hl.
    + intros Hle. rewrite He in Hle. unfold d_lastIndex in Hle. destruct (d_entries d); [done|].
      rewrite lenN_cons in Hle. lia.
Qed.

Lemma RemoveBefore_segments bound w j :
  segments (RemoveBefore bound w) = drop j (segments w) -> RemoveBefore bound w = w <| segments := drop j (segments w) |>.
Proof. intros <-. done. Qed.

(** Cutting at a bound found by the collector keeps everything recovery needs. *)
Lemma disk_ok_cut files w m d i :
  disk_ok files w (Some m) d -> sm_LastIncludedIndex m = i -> d_snapIndex d = i ->
  disk_ok files (RemoveBefore (gcBound i (sm_MinWalSegment m) (segments w)) w) (Some m) d.
Proof.
  intros [Hwf Hsz Hsn Hmin (lss & Hr & Hl)] Hm Hi. pose proof (wf_sorted _ Hwf) as Hsort.
  assert (Hj : exists j, segments (RemoveBefore (gcBound i (sm_MinWalSegment m) (segments w)) w) = drop j (segments w) /\
    (j = 0%nat \/ exists s, segments w !! j = Some s /\ seg_Tag s <= i + 1)).
  { destruct (gcBound_spec i (segments w) (sm_MinWalSegment m) Hsort Hmin) as [->|(j & s & Hj & -> & Ht)].
    - exists 0%nat. split; [by apply removeBefore_low|by left].
    - exists j. split; [by apply removeBefore_drop|right; eauto]. }
  destruct Hj as (j & Hj & Hcase). split; [by apply RemoveBefore_wf|done|done| |].
  - rewrite Hj. intros s Hs. apply Hmin. apply list_elem_of_lookup in Hs as [k Hk]. rewrite lookup_drop in Hk.
    by eapply list_elem_of_lookup_2.
  - rewrite Hj. exists (drop j lss). split; [by apply recs_ok_drop|].
    destruct Hcase as [->|(s & Hs & Ht)]; [by rewrite !drop_0|].
    eapply log_ok_drop; [by apply recs_ok_length|done|done|lia].
Qed.

Lemma snap_ok_index files m d : snap_ok files (Some m) d -> d_snapIndex d = sm_LastIncludedIndex m.
Proof. unfold snap_ok, d_snapIndex. destruct (d_snap d) as [[[i t] data]|]; [|done]. naive_solver. Qed.

(** The collector keeps the current snapshot's file. *)
Lemma gc_files files m d :
  snap_ok files (Some m) d -> filter (fun '(n, _) => keepFile m n = true) files = files.
Proof.
  unfold snap_ok. destruct (d_snap d) as [[[i t] data]|]; [|done]. intros (_ & _ & _ & _ & mb & _ & _ & _ & ->).
  rewrite map_filter_singleton_True; [done|]. unfold keepFile.
  rewrite (bool_decide_true (snapshotPath m = snapshotPath m)) by done. by rewrite orb_true_r.
Qed.

Lemma gc_ok s d : rs_inv s d -> rs_inv (gcLocked s) d.
Proof.
  intros [Hd Hh Hla]. unfold gcLocked. destruct (rs_meta s) as [m|] eqn:Hm; [|by split; rewrite ?Hm].
  pose proof (dk_snap _ _ _ _ Hd) as Hsn. split; cbn; [|done|done]. rewrite Hm, (gc_files _ _ _ Hsn).
  apply disk_ok_cut; [done|done|by eapply snap_ok_index].
Qed.

(** *** Recovery *)
Lemma sorted_singleton (x : string) : merge_sort string_le [x] = [x].
Proof. done. Qed.

Lemma loadNewest_ok s m d :
  snap_ok (rs_files s) m d ->
  loadNewestSnapshot s = (s, Some (match m with Some m => Some (m, match d_snap d with Some (_, _, x) => x | None => [] end) | None => None end)).
Proof.
  unfold snap_ok, loadNewestSnapshot, removeTmps, snapshotFiles. destruct m as [m|], (d_snap d) as [[[i t] data]|]; try done.
  - intros (_ & _ & _ & _ & mb & Hmb & Hl1 & Hl2 & Hf).
    assert (Hft : filter (fun '(n, _) => is_snapshot_tmp n = false) (rs_files s) = rs_files s).
    { rewrite Hf. rewrite map_filter_singleton_True; [done|]. apply snapshotName_not_tmp. }
    rewrite Hft. replace (s <| rs_files := rs_files s |>) with s by by destruct s. rewrite Hf, map_to_list_singleton.
    cbn [fmap list_fmap fst]. rewrite filter_cons_True by apply snapshotName_is_file. rewrite filter_nil, sorted_singleton.
    cbn [last]. rewrite lookup_singleton_eq. cbn [mbind option_bind]. by rewrite (read_encodeSnapshot _ _ _ Hmb Hl1 Hl2).
  - intros Hf. destruct s as [files w h m li]. cbn [rs_files] in Hf. subst files. reflexivity.
Qed.

Lemma Forall2_join {A B} (P : A -> B -> Prop) ass bss :
  Forall2 (Forall2 P) ass bss -> Forall2 P (mjoin ass) (mjoin bss).
Proof. induction 1; cbn; [constructor|]. by apply Forall2_app. Qed.

(** Recovery: when the log reads back as [d] and is left as [wk], the durable
    state is returned and the store runs. *)
Lemma rs_Load_from files w wk m d :
  disk_ok files wk m d ->
  ReadAll (loadRecord (d_snapIndex d)) (minSeq m) (None, []) w = ((d_hs d, d_entries d), wk, None) ->
  exists l s, rs_Load (mkRStore files w None None 0) = (Some l, s) /\ durable_of l = d /\ rs_inv s d.
Proof.
  intros Hd Hread. pose proof (dk_snap _ _ _ _ Hd) as Hsn. unfold rs_Load.
  erewrite loadNewest_ok by exact Hsn. cbn [rs_hs rs_wal set_field].
  set (snap := match m with Some m => _ | None => None end).
  assert (Hidx : match snap with Some (m, _) => sm_LastIncludedIndex m | None => 0 end = d_snapIndex d).
  { unfold snap. destruct m as [m|]; [by rewrite (snap_ok_index _ _ _ Hsn)|]. unfold snap_ok in Hsn. unfold d_snapIndex.
    by destruct (d_snap d). }
  assert (Hms : match snap with Some (m, _) => sm_MinWalSegment m | None => 0 end = minSeq m) by by destruct m.
  assert (Hfst : fst <$> snap = m) by by destruct m.
  rewrite Hidx, Hms, Hfst. unfold set_field at 1. cbn [rs_hs rs_wal]. rewrite Hread.
  eexists _, _. split; [reflexivity|]. split.
  - unfold durable_of. cbn [ld_HardState ld_SnapshotMeta ld_SnapshotData ld_Entries].
    destruct d as [hs sn es]. f_equal. unfold snap_ok in Hsn. cbn [d_snap] in *.
    destruct m as [m|], sn as [[[i t] data]|]; try done. destruct Hsn as (<- & <- & _). done.
  - apply gc_ok. by split.
Qed.

Lemma disk_ok_pos files w m d lss : disk_ok files w m d -> recs_ok (segments w) lss -> (0 < length lss)%nat.
Proof.
  intros Hd Hr. rewrite <- (recs_ok_length _ _ Hr). destruct (wf_split w (dk_wf _ _ _ _ Hd)) as (init & s & -> & _).
  rewrite length_app. cbn. lia.
Qed.

(** What the callback is given, and what it makes of it. *)
Lemma disk_ok_deliver files w m d :
  disk_ok files w m d -> exists rss, clean (segments w) rss /\
    deliver (loadRecord (d_snapIndex d)) (None, []) (mjoin rss) = ((d_hs d, d_entries d), None).
Proof.
  intros Hd. destruct (dk_log _ _ _ _ Hd) as (lss & Hr & Hl). pose proof (disk_ok_pos _ _ _ _ _ Hd Hr) as Hpos.
  destruct Hr as (rss & Hc & He). exists rss. split; [done|].
  erewrite deliver_load; [|by apply Forall2_join|apply Hl]. f_equal. f_equal.
  rewrite <- (lk_hs _ _ _ Hl 0 Hpos). by rewrite drop_0.
Qed.

(** Recovery from good files returns the durable state and a running store. *)
Lemma rs_Load_ok files w m d :
  disk_ok files w m d ->
  exists l s, rs_Load (mkRStore files w None None 0) = (Some l, s) /\ durable_of l = d /\ rs_inv s d.
Proof.
  intros Hd. apply (rs_Load_from files w w m d Hd). destruct (disk_ok_deliver _ _ _ _ Hd) as (rss & Hc & Hdel).
  rewrite (ReadAll_clean _ _ _ _ _ Hc), records_from_min by (done || apply Hd). by rewrite Hdel.
Qed.

(** *** Saving *)

(** The entries of a [Save] continue the log or go back in it, but never into the snapshot. *)
Definition rs_save_pre (d : Durable) (es : list Entry) : Prop :=
  match es with
  | [] => True
  | e :: _ => d_snapIndex d < ent_Index e <= d_lastIndex d + 1 /\ contiguous (ent_Index e - 1) es
  end.

Definition slog (hs : option HardState) (es : list Entry) : list lrec :=
  match hs with Some h => [LHard h] | None => [] end ++ (LEntry <$> es).

Lemma ents_slog hs es : ents (slog hs es) = es.
Proof.
  unfold slog. rewrite ents_app. replace (ents (LEntry <$> es)) with es; [by destruct hs|].
  induction es as [|e es IH]; [done|]. cbn. by f_equal.
Qed.

Lemma hs_replay_slog h0 hs es : hs_replay h0 (slog hs es) = match hs with Some h => Some h | None => h0 end.
Proof.
  unfold slog. rewrite hs_replay_app.
  assert (He : forall h, hs_replay h (LEntry <$> es) = h).
  { intros h. unfold hs_replay. revert h. induction es as [|e es IH]; intros h; [done|]. cbn. apply IH. }
  rewrite He. by destruct hs.
Qed.

Lemma saveRecords_encodes hs es recs : saveRecords hs es = Some recs -> Forall2 encodes recs (slog hs es).
Proof.
  unfold saveRecords. intros Hs. apply bind_Some in Hs as (hr & Hh & Hs). apply bind_Some in Hs as (er & He & Hs).
  injection Hs as <-. apply Forall2_app.
  - destruct hs as [h|]; [|injection Hh as <-; constructor]. apply bind_Some in Hh as (r & Hr & Hh). injection Hh as <-.
    constructor; [done|constructor].
  - apply mapM_Some in He. clear -He. induction He; cbn; constructor; done.
Qed.

Lemma saveRecords_hs hs es recs h :
  saveRecords hs es = Some recs -> Forall rec_ok recs -> hs = Some h -> exists r, hardStateRecord h = Some r /\ rec_ok r.
Proof.
  intros Hs Hok ->. unfold saveRecords in Hs. apply bind_Some in Hs as (hr & Hh & Hs).
  apply bind_Some in Hh as (r & Hr & Hh). injection Hh as <-. apply bind_Some in Hs as (er & _ & Hs). injection Hs as <-.
  exists r. split; [done|]. by apply Forall_cons in Hok as [? _].
Qed.

Lemma mjoin_drop_snoc {A} j (lss : list (list A)) ls x :
  (j < length (lss ++ [ls]))%nat -> mjoin (drop j (lss ++ [ls ++ x])) = mjoin (drop j (lss ++ [ls])) ++ x.
Proof.
  rewrite length_app. cbn. intros Hj. rewrite !drop_app_le by lia. rewrite !join_app. cbn. by rewrite !app_nil_r, app_assoc.
Qed.

(** The tags are the same. *)
Definition same_tags (segs segs' : list Segment) : Prop := seg_Tag <$> segs' = seg_Tag <$> segs.

Lemma same_tags_lookup segs segs' j s' :
  same_tags segs segs' -> segs' !! j = Some s' -> exists s, segs !! j = Some s /\ seg_Tag s' = seg_Tag s.
Proof.
  intros Ht Hj. apply (f_equal (fun l => l !! j)) in Ht. rewrite !list_lookup_fmap, Hj in Ht. cbn in Ht.
  destruct (segs !! j) as [s|]; [|done]. exists s. cbn in Ht. split; congruence.
Qed.

Lemma rs_save_pre_save d es : rs_save_pre d es -> save_pre d es.
Proof. unfold rs_save_pre, save_pre. destruct es; [done|]. intros [? ?]. split; [lia|done]. Qed.

Lemma contiguous_chain_end e es a : contiguous a (e :: es) -> chain_end (ent_Index e) es = a + lenN (e :: es).
Proof.
  revert e a. induction es as [|e' es IH]; intros e a Hc.
  - apply contiguous_cons in Hc as [He _]. cbn. autorewrite with edgekv. lia.
  - apply contiguous_cons in Hc as [_ Hc]. cbn [chain_end]. rewrite (IH _ _ Hc). autorewrite with edgekv. lia.
Qed.

Lemma log_ok_save segs segs' lss ls d hs es :
  length segs = length (lss ++ [ls]) -> same_tags segs segs' ->
  log_ok segs (lss ++ [ls]) d -> rs_save_pre d es ->
  (forall h, hs = Some h -> exists r, hardStateRecord h = Some r /\ rec_ok r) ->
  log_ok segs' (lss ++ [ls ++ slog hs es]) (spec_save d hs es).
Proof.
  intros Hlen Htags Hl Hpre Hhs.
  assert (Hlen' : length segs' = length segs) by (apply (f_equal length) in Htags; by rewrite !length_fmap in Htags).
  assert (Hlast : d_lastIndex (spec_save d hs es) = chain_end (d_lastIndex d) es).
  { rewrite spec_save_last by by apply rs_save_pre_save. destruct es as [|e es]; [done|]. cbn [head].
    destruct Hpre as [Hr Hc]. cbn [chain_end]. rewrite (contiguous_chain_end _ _ _ Hc).
    destruct (N.leb_spec (ent_Index e - 1 + lenN (e :: es)) (d_snapIndex d)) as [Hle|]; [|done].
    rewrite lenN_cons in Hle. lia. }
  assert (Hchain : chain (d_lastIndex d) es).
  { destruct es as [|e es]; [done|]. destruct Hpre as [Hr Hc]. eapply chain_contiguous; [exact Hc|lia]. }
  assert (Hcur : d_snapIndex d < d_lastIndex d -> d_snapIndex d + lenN (d_entries d) = d_lastIndex d) by done.
  split.
  - intros j Hj. rewrite mjoin_drop_snoc by (rewrite !length_app in *; cbn in *; lia).
    rewrite hs_replay_app, hs_replay_slog. rewrite (lk_hs _ _ _ Hl) by (rewrite !length_app in *; cbn in *; lia). done.
  - cbn. intros h Hh. destruct hs as [h'|]; [by apply Hhs|by apply (lk_hs_enc _ _ _ Hl)].
  - intros j s' Hj. destruct (same_tags_lookup _ _ _ _ Htags Hj) as (s & Hs & ->).
    destruct (lk_chain _ _ _ Hl _ _ Hs) as [Hc He]. pose proof (lookup_lt_Some _ _ _ Hs).
    rewrite mjoin_drop_snoc, ents_app, ents_slog by lia. rewrite chain_app, chain_end_app, He. by split.
  - intros s' Hs'. rewrite head_lookup in Hs'. destruct (same_tags_lookup _ _ _ _ Htags Hs') as (s & Hs & ->).
    rewrite <- head_lookup in Hs. by apply (lk_base _ _ _ Hl).
  - cbn [spec_save d_entries]. change (d_snapIndex (spec_save d hs es)) with (d_snapIndex d).
    pose proof (mjoin_drop_snoc 0 lss ls (slog hs es)) as Hj. rewrite !drop_0 in Hj.
    rewrite Hj by (rewrite length_app; cbn; lia). rewrite ents_app, ents_slog, replay_app, (lk_replay _ _ _ Hl).
    cbn [mbind option_bind]. by apply (replay_spec_append _ _ _ (d_lastIndex d)).
Qed.

(** A new segment that restates the hard state. *)
Lemma log_ok_rotate segs lss d s ls :
  length segs = length lss -> (0 < length lss)%nat -> log_ok segs lss d -> seg_Tag s = d_lastIndex d + 1 ->
  ls = match d_hs d with Some h => [LHard h] | None => [] end ->
  log_ok (segs ++ [s]) (lss ++ [ls]) d.
Proof.
  intros Hlen Hpos Hl Ht ->. set (ls := match d_hs d with Some h => [LHard h] | None => [] end).
  assert (Hents : ents ls = []) by by unfold ls; destruct (d_hs d).
  assert (Hjoin : forall j, (j <= length lss)%nat -> mjoin (drop j (lss ++ [ls])) = mjoin (drop j lss) ++ ls).
  { intros j Hj. rewrite drop_app_le by lia. rewrite join_app. cbn. by rewrite app_nil_r. }
  split.
  - intros j Hj. rewrite length_app in Hj. cbn in Hj. rewrite Hjoin, hs_replay_app by lia.
    destruct (decide (j = length lss)) as [->|].
    + rewrite drop_all. cbn. unfold ls. by destruct (d_hs d).
    + rewrite (lk_hs _ _ _ Hl) by lia. unfold ls. by destruct (d_hs d).
  - apply Hl.
  - intros j s' Hj. pose proof (lookup_lt_Some _ _ _ Hj) as Hjl. rewrite length_app in Hjl. cbn in Hjl.
    rewrite Hjoin, ents_app, Hents, app_nil_r by lia. apply lookup_app_Some in Hj as [Hj|[Hge Hj]]; [by apply Hl|].
    assert (j = length segs) as -> by lia. rewrite Nat.sub_diag in Hj. injection Hj as <-. rewrite Hlen, drop_all. cbn. lia.
  - intros s' Hs'. destruct segs as [|s0 segs]; [cbn in Hlen; lia|]. by apply (lk_base _ _ _ Hl).
  - pose proof (Hjoin 0%nat ltac:(lia)) as Hj. rewrite !drop_0 in Hj. rewrite Hj, ents_app, Hents, app_nil_r. apply Hl.
Qed.

Lemma append_recs_ok w lss recs new :
  wal_wf w -> recs_ok (segments w) lss -> Forall rec_ok recs -> Forall2 encodes recs new ->
  exists lss0 ls, lss = lss0 ++ [ls] /\ recs_ok (segments (Append None recs w).1) (lss0 ++ [ls ++ new]) /\
    same_tags (segments w) (segments (Append None recs w).1) /\
    seg_Seq <$> segments (Append None recs w).1 = seg_Seq <$> segments w.
Proof.
  intros Hwf (rss & Hc & He) Hr Hn. destruct (wf_split w Hwf) as (init & s & Hw & _).
  pose proof Hc as Hc0. rewrite Hw in Hc0. apply clean_snoc_inv in Hc0 as (rss0 & rs & -> & Hi & Hs).
  apply Forall2_app_inv_l in He as (lss0 & x & He0 & Hx & ->).
  apply Forall2_cons_inv_l in Hx as (ls & x' & Hls & Hx & ->). apply Forall2_nil_inv_l in Hx as ->.
  exists lss0, ls. split_and!; [done| | |].
  - exists (rss0 ++ [rs ++ recs]). split; [by apply append_clean|]. apply Forall2_app; [done|].
    constructor; [by apply Forall2_app|constructor].
  - unfold same_tags, Append, appendLocked. destruct recs; [done|]. cbn [fst]. rewrite (write_active_snoc _ _ _ _ Hw), Hw.
    cbn [segments]. by rewrite !fmap_app.
  - unfold Append, appendLocked. destruct recs; [done|]. cbn [fst]. rewrite (write_active_snoc _ _ _ _ Hw), Hw.
    cbn [segments]. by rewrite !fmap_app.
Qed.

Lemma Rotate_segments tag head w :
  segments (Rotate None tag head w).1.1 = segments w ++ [mkSegment (lastSeq w + 1) tag (encodeRecords head)] /\
  (Rotate None tag head w).2 = true /\ SegmentSize (Rotate None tag head w).1.1 = SegmentSize w.
Proof.
  unfold Rotate, appendLocked. destruct head as [|r head]; [done|]. cbn [fst snd].
  rewrite (write_active_snoc _ _ (segments w) (mkSegment (lastSeq w + 1) tag [])) by done. done.
Qed.

Lemma seqs_min w w' k : seg_Seq <$> segments w' = seg_Seq <$> segments w ->
  (forall s, s ∈ segments w -> k <= seg_Seq s) -> forall s, s ∈ segments w' -> k <= seg_Seq s.
Proof.
  intros He Hall s Hs. apply (list_elem_of_fmap_2 seg_Seq) in Hs. rewrite He in Hs.
  apply list_elem_of_fmap in Hs as (s' & -> & Hs'). by apply Hall.
Qed.

Definition hs_log (hs : option HardState) : list lrec := match hs with Some h => [LHard h] | None => [] end.

Lemma rotate_segments s :
  wal_wf (rs_wal s) -> (forall h, rs_hs s = Some h -> exists r, hardStateRecord h = Some r /\ rec_ok r) ->
  exists w' head, rotateLocked None s = (s <| rs_wal := w' |>, true) /\ wal_wf w' /\
    SegmentSize w' = SegmentSize (rs_wal s) /\
    segments w' = segments (rs_wal s) ++ [mkSegment (lastSeq (rs_wal s) + 1) (rs_lastIndex s + 1) (encodeRecords head)] /\
    Forall rec_ok head /\ Forall2 encodes head (hs_log (rs_hs s)).
Proof.
  intros Hwf Henc. unfold rotateLocked.
  assert (Hhead : exists head, match rs_hs s with None => Some [] | Some hs => r ← hardStateRecord hs; Some [r] end = Some head /\
    Forall rec_ok head /\ Forall2 encodes head (hs_log (rs_hs s))).
  { destruct (rs_hs s) as [h|]; [|exists []; repeat constructor].
    destruct (Henc h eq_refl) as (r & Hrec & Hrok). exists [r]. rewrite Hrec. repeat constructor; done. }
  destruct Hhead as (head & -> & Hok & He).
  destruct (Rotate_segments (rs_lastIndex s + 1) head (rs_wal s)) as (Hsegs & Hb & Hsz').
  pose proof (Rotate_wf None (rs_lastIndex s + 1) head (rs_wal s) Hwf) as Hwf'.
  destruct (Rotate None (rs_lastIndex s + 1) head (rs_wal s)) as [[w' seq] b]. cbn in Hsegs, Hb, Hsz', Hwf'. subst b.
  by exists w', head.
Qed.

Lemma rotate_ok s d : rs_inv s d -> exists s', rotateLocked None s = (s', true) /\ rs_inv s' d.
Proof.
  intros [[Hwf Hsz Hsn Hmin (lss & Hr & Hl)] Hh Hla].
  destruct (rotate_segments s Hwf) as (w' & head & -> & Hwf' & Hsz' & Hsegs & Hok & Henc).
  { rewrite Hh. apply Hl. }
  eexists. split; [reflexivity|]. split; cbn; [|done|done]. split; [done|lia|done| |].
  - rewrite Hsegs. intros s0 [Hs0|Hs0%list_elem_of_singleton]%elem_of_app; [by apply Hmin|]. subst s0. cbn.
    destruct (wf_split _ Hwf) as (init & sl & Hw & _). unfold lastSeq. rewrite Hw, last_snoc.
    pose proof (Hmin sl ltac:(rewrite Hw; set_solver)). lia.
  - rewrite Hsegs. exists (lss ++ [hs_log (d_hs d)]). rewrite Hh in Henc. split.
    + destruct Hr as (rss & Hc & He). exists (rss ++ [head]). split; [|apply Forall2_app; [done|by repeat constructor]].
      apply Forall2_app; [done|]. constructor; [by split|constructor].
    + apply log_ok_rotate; [by apply recs_ok_length| |done|cbn; by rewrite Hla|done].
      rewrite <- (recs_ok_length (segments (rs_wal s)) lss) by done. destruct (wf_split _ Hwf) as (init & s0 & -> & _).
      rewrite length_app. cbn. lia.
Qed.

(** A batch written completely. *)
Lemma disk_ok_append files w m d hs es recs :
  disk_ok files w m d -> rs_save_pre d es -> saveRecords hs es = Some recs -> Forall rec_ok recs ->
  disk_ok files (Append None recs w).1 m (spec_save d hs es).
Proof.
  intros [Hwf Hsz Hsn Hmin (lss & Hr & Hl)] Hpre Hrecs Hok.
  destruct (append_recs_ok w lss recs (slog hs es) Hwf Hr Hok (saveRecords_encodes _ _ _ Hrecs))
    as (lss0 & ls & -> & Hr' & Htags & Hseqs).
  split; [by apply appendLocked_wf|unfold Append; by rewrite append_SegmentSize|done|by eapply seqs_min|].
  exists (lss0 ++ [ls ++ slog hs es]). split; [done|].
  eapply log_ok_save; [by apply recs_ok_length|done|done|done|]. intros h Hhs. by eapply saveRecords_hs.
Qed.

Lemma rs_save_last d hs es e :
  rs_save_pre d es -> last es = Some e -> d_lastIndex (spec_save d hs es) = ent_Index e.
Proof.
  intros Hpre El. rewrite spec_save_last by by apply rs_save_pre_save. destruct es as [|e0 es]; [done|]. cbn [head].
  destruct Hpre as [Hpr Hc]. rewrite last_lookup in El. rewrite (Hc _ _ El). cbn [length pred].
  destruct (N.leb_spec (ent_Index e0 - 1 + lenN (e0 :: es)) (d_snapIndex d)) as [Hle|];
    [rewrite lenN_cons in Hle; lia|]. unfold lenN. cbn [length]. lia.
Qed.

(** The whole of [Save], rotation and collection included. *)
Lemma rs_Save_ok s d hs es recs :
  rs_inv s d -> rs_save_pre d es -> saveRecords hs es = Some recs -> Forall rec_ok recs ->
  exists s', rs_Save None None s hs es = (s', true) /\ rs_inv s' (spec_save d hs es).
Proof.
  intros [Hd Hh Hla] Hpre Hrecs Hok. unfold rs_Save. rewrite Hrecs.
  pose proof (disk_ok_append _ _ _ _ hs es recs Hd Hpre Hrecs Hok) as Hd'.
  assert (Hb : (Append None recs (rs_wal s)).2 = true) by by destruct recs.
  destruct (Append None recs (rs_wal s)) as [w' b]. cbn in Hd', Hb. subst b. cbn [negb].
  match goal with |- context [ShouldRotate (rs_wal ?x)] => set (s1 := x) end.
  assert (Hinv1 : rs_inv s1 (spec_save d hs es)).
  { assert (Hf1 : rs_files s1 = rs_files s /\ rs_wal s1 = w' /\ rs_meta s1 = rs_meta s)
      by (unfold s1; destruct hs, (last es); done).
    destruct Hf1 as (Hf1 & Hw1 & Hm1). split; [by rewrite Hf1, Hw1, Hm1|unfold s1; destruct hs, (last es); cbn; done|].
    destruct (last es) as [e|] eqn:El; [rewrite (rs_save_last _ _ _ e) by done; unfold s1; by destruct hs|].
    apply last_None in El. subst es. unfold s1. by destruct hs. }
  clearbody s1. destruct (ShouldRotate (rs_wal s1)); [|by eexists].
  destruct (rotate_ok s1 _ Hinv1) as (s2 & -> & Hinv2). eexists. split; [done|]. by apply gc_ok.
Qed.

(** *** Snapshots *)

(** The entries in the files, oldest first. *)
Definition logged (w : WAL) : list Entry :=
  omap (fun r => if bool_decide (rec_Type r = recEntry) then unmarshal (rec_Data r) else None)
    (ReadAll collect 0 [] w).1.1.

Lemma logged_ok w lss : recs_ok (segments w) lss -> logged w = ents (mjoin lss).
Proof.
  intros (rss & Hc & He). unfold logged. rewrite (ReadAll_collect _ _ Hc). cbn [fst].
  apply Forall2_join in He. induction He as [|r l rs ls Hr _ IH]; [done|].
  destruct l as [h|e]; cbn in Hr; unfold hardStateRecord, entryRecord in Hr; apply bind_Some in Hr as (b & Hb & Hr);
    injection Hr as <-; cbn [omap list_omap ents rec_Type rec_Data].
  - change (bool_decide (recHardState = recEntry)) with false. exact IH.
  - change (bool_decide (recEntry = recEntry)) with true. cbn iota. rewrite (unmarshal_marshal _ _ Hb). by f_equal.
Qed.

(** When a snapshot at [i] that keeps the log is harmless: the log ends after [i], or
    no entry after [i] was ever written to the files that are kept. *)
Definition keep_ok (w : WAL) (d : Durable) (i : N) : Prop :=
  i <= d_lastIndex d /\ (i < d_lastIndex d \/ Forall (fun e => ent_Index e <= i) (logged w)).

Lemma spec_snapshot_new d i t data discard :
  d_snapIndex d < i -> spec_snapshot d i t data discard =
    mkDurable (d_hs d) (Some (i, t, data)) (if discard then [] else drop (N.to_nat (i - d_snapIndex d)) (d_entries d)).
Proof. intros Hi. unfold spec_snapshot. destruct (N.leb_spec i (d_snapIndex d)); [lia|]. by rewrite andb_false_r. Qed.

Lemma log_ok_snapshot w lss d i t data :
  recs_ok (segments w) lss -> log_ok (segments w) lss d -> d_snapIndex d < i -> keep_ok w d i -> (0 < length (segments w))%nat ->
  log_ok (segments w) lss (spec_snapshot d i t data false).
Proof.
  intros Hr Hl Hi [Hle Hkeep] Hpos. rewrite spec_snapshot_new by done.
  assert (Hlast : forall es, es = drop (N.to_nat (i - d_snapIndex d)) (d_entries d) ->
    d_lastIndex (mkDurable (d_hs d) (Some (i, t, data)) es) = d_lastIndex d).
  { intros es ->. unfold d_lastIndex in *. cbn. rewrite lenN_drop. lia. }
  destruct (segments w) as [|s0 segs] eqn:Hsegs; [cbn in Hpos; lia|].
  destruct (lk_chain _ _ _ Hl 0 s0 eq_refl) as [Hc He]. rewrite drop_0 in Hc, He.
  pose proof (lk_base _ _ _ Hl s0 eq_refl) as Hb.
  split; [apply Hl|apply Hl| | |].
  - intros j s Hj. rewrite Hlast by done. by apply Hl.
  - intros s Hs. cbn in Hs. injection Hs as <-. cbn. lia.
  - cbn [d_entries]. change (d_snapIndex (mkDurable (d_hs d) (Some (i, t, data)) _)) with i.
    destruct (replay_two (d_snapIndex d) i (ents (mjoin lss)) (seg_Tag s0 - 1) [] []) as (X & X' & HX & HX' & _ & Hd);
      [lia|done|lia|lia|].
    rewrite (lk_replay _ _ _ Hl) in HX. injection HX as <-. rewrite He in Hd.
    destruct (N.lt_ge_cases i (d_lastIndex d)) as [Hlt|Hge]; [rewrite HX'; f_equal; by apply Hd|].
    destruct Hkeep as [|Hall]; [lia|]. rewrite <- Hsegs in Hr. rewrite (logged_ok _ _ Hr) in Hall.
    rewrite replay_covered by done. rewrite drop_ge; [done|]. unfold d_lastIndex, lenN in *. lia.
Qed.

(** Snapshot metadata encodes, and in far less than four gigabytes. *)
Context (meta_encodes : forall m : SnapshotMeta,
  u64_ok (sm_LastIncludedIndex m) -> u64_ok (sm_LastIncludedTerm m) -> u64_ok (sm_MinWalSegment m) ->
  exists mb, marshal m = Some mb /\ lenN mb < 2 ^ 32).

(** The segment a snapshot starts from is one of the log, or the first. *)
Lemma minSeq_last files w m d : disk_ok files w m d -> minSeq m <= lastSeq w.
Proof.
  intros Hd. destruct (wf_split _ (dk_wf _ _ _ _ Hd)) as (init & sl & Hw & _). unfold lastSeq. rewrite Hw, last_snoc.
  apply (dk_min _ _ _ _ Hd). rewrite Hw. set_solver.
Qed.

Lemma snapshotPath_eq m m' :
  sm_LastIncludedIndex m = sm_LastIncludedIndex m' -> sm_LastIncludedTerm m = sm_LastIncludedTerm m' ->
  snapshotPath m = snapshotPath m'.
Proof. unfold snapshotPath. by intros -> ->. Qed.

(** A temporary file is not there between two operations, and comes and goes. *)
Lemma files_no_tmp files m d i t : snap_ok files m d -> files !! (snapshotName i t +:+ ".tmp") = None.
Proof.
  unfold snap_ok. destruct m as [m|], (d_snap d) as [[[i' t'] data]|]; try done; [|by intros ->].
  intros (_ & _ & _ & _ & mb & _ & _ & _ & ->). apply lookup_singleton_ne. intros He.
  pose proof (tmp_not_file i t) as Hn. rewrite <- He in Hn. unfold snapshotPath in Hn. by rewrite snapshotName_is_file in Hn.
Qed.

Lemma writeSnapshotFile_ok m data s mb :
  marshal m = Some mb -> rs_files s !! (snapshotPath m +:+ ".tmp") = None ->
  writeSnapshotFile m data s = (s <| rs_files := <[snapshotPath m := encodeSnapshot mb data]> (rs_files s) |>, true).
Proof.
  intros Hm Ht. unfold writeSnapshotFile, snapshotBytes. rewrite Hm. cbn [mbind option_bind].
  unfold renameTmp, writeTmp. cbn [rs_files set_field]. unfold set_field. cbn. do 2 f_equal. f_equal. by apply delete_insert_id.
Qed.

(** The collector removes the file of the older snapshot. *)
Lemma gc_two_files files m0 d m buf :
  snap_ok files m0 d -> d_snapIndex d < sm_LastIncludedIndex m -> u64_ok (sm_LastIncludedIndex m) -> u64_ok (sm_LastIncludedTerm m) ->
  filter (fun '(n, _) => keepFile m n = true) (<[snapshotPath m := buf]> files) = {[snapshotPath m := buf]}.
Proof.
  intros Hsn Hi Hu1 Hu2.
  assert (Hk : keepFile m (snapshotPath m) = true).
  { unfold keepFile. rewrite (bool_decide_true (snapshotPath m = snapshotPath m)) by done. by rewrite orb_true_r. }
  rewrite map_filter_insert_True by done. change ({[snapshotPath m := buf]}) with (<[snapshotPath m := buf]> (∅ : gmap string bytes)).
  f_equal. unfold snap_ok in Hsn. destruct m0 as [m0|], (d_snap d) as [[[i t] data]|] eqn:Hd; try done; [|by rewrite Hsn].
  destruct Hsn as (Ei & Et & Hv1 & Hv2 & mb & _ & _ & _ & ->). apply map_filter_singleton_False. intros Hf.
  unfold d_snapIndex in Hi. rewrite Hd in Hi.
  assert (Hp : snapshotPath m0 = snapshotName i t) by (unfold snapshotPath; by rewrite Ei, Et).
  rewrite Hp in Hf. revert Hf. unfold keepFile. rewrite snapshotName_is_file, parse_snapshotName by done.
  rewrite bool_decide_false.
  - cbn. intros Hf%N.ltb_lt. lia.
  - unfold snapshotPath. intros He. apply snapshotName_inj in He as [? _]; try done. lia.
Qed.

Lemma gcBound_high i segs bound :
  (forall s, s ∈ segs -> seg_Seq s <= bound) -> gcBound i bound segs = bound.
Proof.
  induction segs as [|s segs IH]; intros Hall; [done|]. destruct segs as [|s' segs]; [done|].
  change (gcBound i bound (s :: s' :: segs)) with
    (if i + 1 <? seg_Tag s' then bound else gcBound i (N.max bound (seg_Seq s')) (s' :: segs)).
  case_match; [done|]. rewrite N.max_l by (apply Hall; set_solver). apply IH. intros x Hx. apply Hall. by right.
Qed.

Lemma stale_snapshot s d i t data discard :
  rs_inv s d -> (is_Some (d_snap d) /\ i <= d_snapIndex d) ->
  rs_SaveSnapshot s (mkSnapshotMeta i t 0) data discard = (s, true) /\ spec_snapshot d i t data discard = d.
Proof.
  intros Hinv [Hsome Hi]. pose proof (dk_snap _ _ _ _ (ri_disk _ _ Hinv)) as Hsn. split.
  - unfold rs_SaveSnapshot, snapshot_begin. destruct (rs_meta s) as [m|] eqn:Hm.
    + rewrite (snap_ok_index _ _ _ Hsn) in Hi. apply N.leb_le in Hi. cbn. by rewrite Hi.
    + unfold snap_ok in Hsn. destruct (d_snap d); [done|]. by destruct Hsome.
  - unfold spec_snapshot. rewrite bool_decide_true by done. apply N.leb_le in Hi. by rewrite Hi.
Qed.

(** A newer snapshot is not stale. *)
Lemma snapshot_fresh s d i :
  rs_inv s d -> d_snapIndex d < i ->
  match rs_meta s with Some m => i <=? sm_LastIncludedIndex m | None => false end = false.
Proof.
  intros Hinv Hi. destruct (rs_meta s) as [m|] eqn:Hm; [|done]. pose proof (dk_snap _ _ _ _ (ri_disk _ _ Hinv)) as Hsn.
  rewrite Hm in Hsn. rewrite (snap_ok_index _ _ _ Hsn) in Hi. by apply N.leb_gt.
Qed.

Lemma gcLocked_meta s m :
  rs_meta s = Some m ->
  gcLocked s = s <| rs_wal := RemoveBefore (gcBound (sm_LastIncludedIndex m) (sm_MinWalSegment m) (segments (rs_wal s))) (rs_wal s) |>
                 <| rs_files := filter (fun '(n, _) => keepFile m n = true) (rs_files s) |>.
Proof. intros Hm. unfold gcLocked. by rewrite Hm. Qed.

Lemma SaveSnapshot_keep_ok s d i t data :
  rs_inv s d -> d_snapIndex d < i -> u64_ok i -> u64_ok t -> u64_ok (lastSeq (rs_wal s) + 1) -> lenN data < 2 ^ 64 ->
  keep_ok (rs_wal s) d i ->
  exists s', rs_SaveSnapshot s (mkSnapshotMeta i t 0) data false = (s', true) /\ rs_inv s' (spec_snapshot d i t data false).
Proof.
  intros Hinv Hi Hui Hut Huw Hdata Hkeep. pose proof (snapshot_fresh s d i Hinv Hi) as Hfresh.
  pose proof (minSeq_last _ _ _ _ (ri_disk _ _ Hinv)) as Hms. destruct Hinv as [[Hwf Hsz Hsn Hmin (lss & Hr & Hl)] Hh Hla].
  set (m := mkSnapshotMeta i t (minSeq (rs_meta s))).
  destruct (meta_encodes m) as (mb & Hmb & Hmbl); [done|done|cbn; unfold u64_ok in *; lia|].
  assert (Hbegin : snapshot_begin None (mkSnapshotMeta i t 0) false s = (s, true, Some m)).
  { unfold snapshot_begin. cbn [sm_LastIncludedIndex]. rewrite Hfresh. unfold m. by destruct (rs_meta s). }
  unfold rs_SaveSnapshot. rewrite Hbegin, (writeSnapshotFile_ok _ _ _ _ Hmb) by by eapply files_no_tmp.
  eexists. split; [reflexivity|]. unfold snapshot_end. cbn [rs_meta set_field].
  match goal with |- context [if ?b then _ else _] => assert (Hb : b = true) end.
  { cbn. destruct (rs_meta s) as [m0|]; [|done]. apply N.leb_gt in Hfresh. by apply N.ltb_lt. }
  rewrite Hb.
  set (s1 := mkRStore {[snapshotPath m := encodeSnapshot mb data]} (rs_wal s) (rs_hs s) (Some m) (rs_lastIndex s)).
  assert (Hgc : forall s0, rs_meta s0 = Some m -> rs_wal s0 = rs_wal s -> rs_hs s0 = rs_hs s -> rs_lastIndex s0 = rs_lastIndex s ->
    rs_files s0 = <[snapshotPath m := encodeSnapshot mb data]> (rs_files s) -> gcLocked s0 = gcLocked s1).
  { intros s0 Hm0 Hw0 Hh0 Hl0 Hf0. rewrite !(gcLocked_meta _ m) by done. destruct s0. cbn in *. subst.
    unfold s1. unfold set_field. cbn. f_equal. rewrite (gc_two_files _ _ _ _ _ Hsn) by done.
    symmetry. apply map_filter_singleton_True. unfold keepFile.
    rewrite (bool_decide_true (snapshotPath m = snapshotPath m)) by done. by rewrite orb_true_r. }
  rewrite Hgc by done. apply gc_ok. split; cbn.
  - split; [done|done| |done|].
    + rewrite spec_snapshot_new by done. cbn. split_and!; try done. by exists mb.
    + exists lss. split; [done|]. apply log_ok_snapshot; try done. destruct (wf_split _ Hwf) as (init & s0 & -> & _).
      rewrite length_app. cbn. lia.
  - by rewrite spec_snapshot_new.
  - rewrite spec_snapshot_new by done. rewrite Hla. destruct Hkeep as [Hle _]. unfold d_lastIndex in *. cbn.
    rewrite lenN_drop. lia.
Qed.

Lemma lastSeq_snoc segs s w : segments w = segs ++ [s] -> lastSeq w = seg_Seq s.
Proof. intros Hw. unfold lastSeq. by rewrite Hw, last_snoc. Qed.

(** The log that starts over at an installed snapshot. *)
Lemma log_ok_restart s d i t data :
  seg_Tag s = i + 1 -> (forall h, d_hs d = Some h -> exists r, hardStateRecord h = Some r /\ rec_ok r) ->
  log_ok [s] [hs_log (d_hs d)] (mkDurable (d_hs d) (Some (i, t, data)) []).
Proof.
  intros Ht Henc. assert (Hents : ents (mjoin [hs_log (d_hs d)]) = []) by by destruct (d_hs d).
  split; [|done| | |].
  - intros j Hj. cbn in Hj. assert (j = 0%nat) as -> by lia. by destruct d as [[h|] ? ?].
  - intros j s' Hj. pose proof (lookup_lt_Some _ _ _ Hj) as Hlt. cbn in Hlt. assert (j = 0%nat) as -> by lia. cbn in Hj.
    injection Hj as <-. rewrite drop_0, Hents. unfold d_lastIndex. cbn. rewrite lenN_nil. split; [done|lia].
  - intros s' Hs'. cbn in Hs'. injection Hs' as <-. cbn. lia.
  - by rewrite Hents.
Qed.

Lemma SaveSnapshot_discard_ok s d i t data :
  rs_inv s d -> d_snapIndex d < i -> u64_ok i -> u64_ok t -> u64_ok (lastSeq (rs_wal s) + 1) -> lenN data < 2 ^ 64 ->
  exists s', rs_SaveSnapshot s (mkSnapshotMeta i t 0) data true = (s', true) /\ rs_inv s' (spec_snapshot d i t data true).
Proof.
  intros Hinv Hi Hui Hut Huw Hdata. pose proof (snapshot_fresh s d i Hinv Hi) as Hfresh.
  destruct Hinv as [[Hwf Hsz Hsn Hmin (lss & Hr & Hl)] Hh Hla].
  destruct (rotate_segments (s <| rs_lastIndex := i |>)) as (w' & head & Hrot & Hwf' & Hsz' & Hsegs & Hok & Henc);
    [done|cbn; rewrite Hh; apply Hl|]. cbn in Hsz', Hsegs, Henc.
  set (seg := mkSegment (lastSeq (rs_wal s) + 1) (i + 1) (encodeRecords head)) in *.
  assert (Hseg : seg_Tag seg = i + 1 /\ seg_file seg = encodeRecords head) by done. destruct Hseg as [Htag Hfile].
  assert (Hseq : lastSeq w' = seg_Seq seg) by by eapply lastSeq_snoc. assert (Hsu : u64_ok (seg_Seq seg)) by done. clearbody seg.
  set (m := mkSnapshotMeta i t (lastSeq w')). destruct (meta_encodes m) as (mb & Hmb & Hmbl); [done|done|by cbn; rewrite Hseq|].
  assert (Hbegin : snapshot_begin None (mkSnapshotMeta i t 0) true s = (s <| rs_lastIndex := i |> <| rs_wal := w' |>, true, Some m)).
  { unfold snapshot_begin. cbn [sm_LastIncludedIndex]. rewrite Hfresh. destruct (rs_meta s); cbn; by rewrite Hrot. }
  unfold rs_SaveSnapshot. rewrite Hbegin, (writeSnapshotFile_ok _ _ _ _ Hmb) by by eapply files_no_tmp.
  eexists. split; [reflexivity|]. unfold snapshot_end.
  match goal with |- context [if ?b then _ else _] => assert (Hb : b = true) end.
  { cbn. destruct (rs_meta s) as [m0|]; [|done]. apply N.leb_gt in Hfresh. by apply N.ltb_lt. }
  rewrite Hb, (gcLocked_meta _ m) by done.
  assert (Hbound : gcBound i (lastSeq w') (segments w') = seg_Seq seg).
  { rewrite gcBound_high; [exact Hseq|]. intros s0 Hs0. apply lastSeq_max; [apply Hwf'|done]. }
  assert (Hcut : removeBefore (seg_Seq seg) (segments w') = [seg]).
  { rewrite (removeBefore_drop (segments w') (wf_sorted _ Hwf') (length (segments (rs_wal s))) seg).
    - by rewrite Hsegs, drop_app_length.
    - rewrite Hsegs. by apply list_lookup_middle. }
  cbn [rs_wal rs_files set_field sm_LastIncludedIndex sm_MinWalSegment m]. unfold set_field. cbn.
  rewrite Hbound, (gc_two_files _ _ _ m _ Hsn) by done. rewrite spec_snapshot_new by done.
  split; cbn; [|done|unfold d_lastIndex; cbn; rewrite lenN_nil; lia].
  split; cbn; [|lia| | |].
  - by apply (RemoveBefore_wf (seg_Seq seg)).
  - split_and!; try done. by exists mb.
  - rewrite Hcut. intros s0 Hs0%list_elem_of_singleton. subst s0. lia.
  - rewrite Hcut. exists [hs_log (d_hs d)]. split.
    + exists [head]. rewrite <- Hh. repeat constructor; done.
    + apply log_ok_restart; [done|apply Hl].
Qed.

(** ** The contract *)

(** The operations a replica performs, with what they require. *)
Inductive storeOp :=
| OSave (hs : option HardState) (es : list Entry)
| OSnapshot (i t : N) (data : bytes) (discardLog : bool).

Definition op_spec (d : Durable) (op : storeOp) : Durable :=
  match op with
  | OSave hs es => spec_save d hs es
  | OSnapshot i t data discard => spec_snapshot d i t data discard
  end.

Definition op_run (s : RStore) (op : storeOp) : RStore * bool :=
  match op with
  | OSave hs es => rs_Save None None s hs es
  | OSnapshot i t data discard => rs_SaveSnapshot s (mkSnapshotMeta i t 0) data discard
  end.

Definition op_pre (s : RStore) (d : Durable) (op : storeOp) : Prop :=
  match op with
  | OSave hs es => rs_save_pre d es /\ exists recs, saveRecords hs es = Some recs /\ Forall rec_ok recs
  | OSnapshot i t data discard =>
      u64_ok i /\ u64_ok t /\ 0 < i /\ u64_ok (lastSeq (rs_wal s) + 1) /\ lenN data < 2 ^ 64 /\
      (discard = false -> d_snapIndex d < i -> keep_ok (rs_wal s) d i)
  end.

Lemma op_run_ok s d op : rs_inv s d -> op_pre s d op -> exists s', op_run s op = (s', true) /\ rs_inv s' (op_spec d op).
Proof.
  intros Hinv Hpre. destruct op as [hs es|i t data discard]; cbn in Hpre |- *.
  - destruct Hpre as (Hp & recs & Hr & Hok). by eapply rs_Save_ok.
  - destruct Hpre as (Hi & Ht & Hpos & Hw & Hdata & Hkeep).
    destruct (N.lt_ge_cases (d_snapIndex d) i) as [Hlt|Hge].
    + destruct discard; [by apply SaveSnapshot_discard_ok|by apply SaveSnapshot_keep_ok; auto].
    + destruct (stale_snapshot s d i t data discard Hinv) as [Hs Hd].
      { split; [|done]. unfold d_snapIndex in Hge. destruct (d_snap d); [done|lia]. }
      exists s. split; [done|]. by rewrite Hd.
Qed.

Lemma reopen s d : rs_inv s d ->
  exists l s', rs_Load (OpenStore (SegmentSize (rs_wal s)) (disk s)) = (Some l, s') /\ durable_of l = d /\ rs_inv s' d.
Proof.
  intros [Hd _ _]. unfold OpenStore, disk. cbn [dk_files dk_segments].
  rewrite Open_reopens by apply Hd. by eapply rs_Load_ok.
Qed.

(** *** A crash in the middle of a batch *)

(** A prefix of the records of a batch is the batch of a prefix. *)
Lemma saveRecords_take hs es recs k :
  saveRecords hs es = Some recs ->
  exists hs' k', saveRecords hs' (take k' es) = Some (take k recs) /\ (hs' = hs \/ hs' = None /\ k' = 0%nat).
Proof.
  unfold saveRecords. intros Hs. apply bind_Some in Hs as (hr & Hh & Hs). apply bind_Some in Hs as (er & He & Hs).
  injection Hs as <-.
  assert (Htake : forall j, mapM entryRecord (take j es) = Some (take j er)).
  { intros j. apply mapM_Some. apply mapM_Some in He. by apply Forall2_take. }
  destruct hs as [h|].
  - apply bind_Some in Hh as (r & Hr & Hh). injection Hh as <-. destruct k as [|k].
    + exists None, 0%nat. split; [done|by right].
    + exists (Some h), k. split; [|by left]. rewrite Hr. cbn [mbind option_bind]. by rewrite Htake.
  - injection Hh as <-. exists None, k. cbn [mbind option_bind app]. rewrite Htake. split; [done|by left].
Qed.

Lemma rs_save_pre_take d es k : rs_save_pre d es -> rs_save_pre d (take k es).
Proof.
  destruct es as [|e es], k as [|k]; try done. intros [Hr Hc]. split; [done|].
  apply (contiguous_take _ _ (S k)) in Hc. exact Hc.
Qed.

(** Recovery finds the state before the batch, or the batch cut short. *)
Lemma torn_Save_ok s d hs es recs n f2 :
  rs_inv s d -> rs_save_pre d es -> saveRecords hs es = Some recs -> Forall rec_ok recs -> recs <> [] ->
  exists l s' hs' k, rs_Load (OpenStore (SegmentSize (rs_wal s)) (disk (rs_Save (Some n) f2 s hs es).1)) = (Some l, s') /\
    durable_of l = spec_save d hs' (take k es) /\ (hs' = hs \/ hs' = None /\ k = 0%nat) /\ rs_inv s' (durable_of l).
Proof.
  intros [Hd _ _] Hpre Hrecs Hok Hne. destruct (disk_ok_deliver _ _ _ _ Hd) as (rss & Hc & _).
  pose proof (dk_wf _ _ _ _ Hd) as Hwf. destruct (wf_split _ Hwf) as (init & sl & Hw & _).
  pose proof Hc as Hc0. rewrite Hw in Hc0. apply clean_snoc_inv in Hc0 as (rss0 & rs0 & -> & _).
  destruct (ReadAll_torn (rs_wal s) rss0 rs0 recs n Hwf Hc Hok) as (k & _ & Hread).
  destruct (saveRecords_take hs es recs k Hrecs) as (hs' & k' & Hrecs' & Hcase).
  pose proof (disk_ok_append _ _ _ _ hs' (take k' es) (take k recs) Hd (rs_save_pre_take _ _ k' Hpre) Hrecs'
    (Forall_take _ k _ Hok)) as Hd'.
  assert (Hdisk : disk (rs_Save (Some n) f2 s hs es).1 = mkDisk (rs_files s) (segments (Append (Some n) recs (rs_wal s)).1)).
  { unfold rs_Save. rewrite Hrecs. destruct recs; [done|]. done. }
  unfold OpenStore. rewrite Hdisk. cbn [dk_files dk_segments].
  rewrite <- (append_SegmentSize (Some n) recs (rs_wal s)). change appendLocked with Append.
  rewrite Open_reopens; [|by apply appendLocked_wf|unfold Append; rewrite append_SegmentSize; apply Hd].
  destruct (rs_Load_from (rs_files s) (Append (Some n) recs (rs_wal s)).1 (Append None (take k recs) (rs_wal s)).1
    (rs_meta s) (spec_save d hs' (take k' es)) Hd') as (l & s' & Hl & Hdl & Hi).
  { change (d_snapIndex (spec_save d hs' (take k' es))) with (d_snapIndex d). apply Hread; [apply Hd|].
    destruct (disk_ok_deliver _ _ _ _ Hd') as (rss' & Hc' & Hdel).
    replace (rss0 ++ [rs0 ++ take k recs]) with rss'; [exact Hdel|].
    eapply clean_unique; [exact Hc'|]. apply append_clean; [done..|by apply Forall_take]. }
  exists l, s', hs', k'. split_and!; [done|done|done|by rewrite Hdl].
Qed.

(** Runs of operations, each within its precondition, some of them interrupted
    while a batch is written or followed by a crash, and recovery from the files. *)
Inductive store_run : RStore -> Durable -> RStore -> Durable -> Prop :=
| run_nil s d : store_run s d s d
| run_op s d s1 d1 op s2 :
    store_run s d s1 d1 -> op_pre s1 d1 op -> op_run s1 op = (s2, true) ->
    store_run s d s2 (op_spec d1 op)
| run_torn s d s1 d1 hs es n f2 l s2 :
    store_run s d s1 d1 -> op_pre s1 d1 (OSave hs es) -> hs <> None \/ es <> [] ->
    rs_Load (OpenStore (SegmentSize (rs_wal s1)) (disk (rs_Save (Some n) f2 s1 hs es).1)) = (Some l, s2) ->
    store_run s d s2 (durable_of l)
| run_crash s d s1 d1 l s2 :
    store_run s d s1 d1 -> rs_Load (OpenStore (SegmentSize (rs_wal s1)) (disk s1)) = (Some l, s2) ->
    store_run s d s2 d1.

Lemma store_run_inv s d s' d' : store_run s d s' d' -> rs_inv s d -> rs_inv s' d'.
Proof.
  induction 1 as [s d|s d s1 d1 op s2 _ IH Hpre Hrun|s d s1 d1 hs es n f2 l s2 _ IH Hpre Hne Hload|s d s1 d1 l s2 _ IH Hload];
    intros Hinv; [done|..].
  - destruct (op_run_ok s1 d1 op (IH Hinv) Hpre) as (s' & Hs' & Hi).
    rewrite Hrun in Hs'. by injection Hs' as ->.
  - destruct Hpre as (Hp & recs & Hr & Hok).
    destruct (torn_Save_ok s1 d1 hs es recs n f2 (IH Hinv) Hp Hr Hok) as (l' & s' & hs' & k & Hs' & _ & _ & Hi).
    { intros ->. apply saveRecords_encodes, Forall2_nil_inv_l in Hr. apply app_nil in Hr as [Hx Hy].
      apply fmap_nil_inv in Hy. destruct hs; [done|]. by destruct Hne. }
    rewrite Hload in Hs'. by injection Hs' as -> ->.
  - destruct (reopen s1 d1 (IH Hinv)) as (l' & s' & Hs' & _ & Hi).
    rewrite Hload in Hs'. by injection Hs' as _ ->.
Qed.

(** *** A crash in the middle of a snapshot *)
Inductive snapshot_crash (s : RStore) (i t : N) (data : bytes) (discard : bool) : bool -> Disk -> Prop :=
| crash_begun s1 m :
    snapshot_begin None (mkSnapshotMeta i t 0) discard s = (s1, true, Some m) ->
    snapshot_crash s i t data discard false (disk s1)
| crash_writing s1 m buf :
    snapshot_begin None (mkSnapshotMeta i t 0) discard s = (s1, true, Some m) ->
    snapshot_crash s i t data discard false (disk (writeTmp m buf s1))
| crash_renamed s1 m s2 :
    snapshot_begin None (mkSnapshotMeta i t 0) discard s = (s1, true, Some m) ->
    writeSnapshotFile m data s1 = (s2, true) ->
    snapshot_crash s i t data discard true (disk s2).

Lemma Load_value s0 s1 snap hs es w' :
  loadNewestSnapshot s0 = (s1, Some snap) ->
  ReadAll (loadRecord (match snap with Some (m, _) => sm_LastIncludedIndex m | None => 0 end))
    (match snap with Some (m, _) => sm_MinWalSegment m | None => 0 end) (rs_hs s1, []) (rs_wal s1) = ((hs, es), w', None) ->
  exists s', rs_Load s0 =
    (Some (mkLoaded hs (fst <$> snap) (match snap with Some (_, data) => data | None => [] end) es), s').
Proof. intros Hn Hr. unfold rs_Load. rewrite Hn. cbn [rs_hs rs_wal set_field] in *. unfold set_field at 1. cbn. rewrite Hr. eauto. Qed.

(** A leftover temporary file is swept away. *)
Lemma removeTmps_tmp files w m d i t buf :
  snap_ok files m d ->
  removeTmps (mkRStore (<[snapshotName i t +:+ ".tmp" := buf]> files) w None None 0) = mkRStore files w None None 0.
Proof.
  intros Hsn. unfold removeTmps, set_field. cbn. f_equal.
  rewrite map_filter_insert_False by (rewrite tmp_is_tmp; done).
  rewrite map_filter_delete. unfold snap_ok in Hsn.
  assert (Hf : filter (fun '(n, _) => is_snapshot_tmp n = false) files = files).
  { destruct m as [m|], (d_snap d) as [[[i' t'] data]|]; try done; [|by rewrite Hsn].
    destruct Hsn as (_ & _ & _ & _ & mb & _ & _ & _ & ->). apply map_filter_singleton_True. apply snapshotName_not_tmp. }
  rewrite Hf. apply delete_id. by eapply files_no_tmp.
Qed.

Lemma loadNewest_tmp files w m d i t buf :
  snap_ok files m d ->
  loadNewestSnapshot (mkRStore (<[snapshotName i t +:+ ".tmp" := buf]> files) w None None 0) =
  loadNewestSnapshot (mkRStore files w None None 0).
Proof.
  intros Hsn. pose proof (removeTmps_tmp files w m d i t buf Hsn) as H1'. unfold loadNewestSnapshot. rewrite H1'.
  assert (H2' : removeTmps (mkRStore files w None None 0) = mkRStore files w None None 0).
  { pose proof (loadNewest_ok (mkRStore files w None None 0) m d Hsn) as Hl. unfold loadNewestSnapshot in Hl.
    exact (f_equal fst Hl). }
  by rewrite H2'.
Qed.

(** *** The newest of two snapshots *)
Lemma string_le_trans a b c : string_le a b -> string_le b c -> string_le a c.
Proof.
  unfold string_le, String.leb. revert b c. induction a as [|x a IH]; intros [|y b] [|z c]; cbn; try done.
  unfold Ascii.compare. destruct (N.compare_spec (N_of_ascii x) (N_of_ascii y)) as [Hxy|Hxy|Hxy]; [| |done];
    destruct (N.compare_spec (N_of_ascii y) (N_of_ascii z)) as [Hyz|Hyz|Hyz]; try done;
    destruct (N.compare_spec (N_of_ascii x) (N_of_ascii z)) as [Hxz|Hxz|Hxz]; try done; try lia.
  apply IH.
Qed.

Lemma string_le_total a b : string_le a b \/ string_le b a.
Proof.
  unfold string_le, String.leb. revert b. induction a as [|x a IH]; intros [|y b]; cbn; auto.
  unfold Ascii.compare. rewrite (N.compare_antisym (N_of_ascii x) (N_of_ascii y)).
  destruct (N_of_ascii x ?= N_of_ascii y); cbn; auto.
Qed.

(** The last of the sorted names is the greatest one. *)
Lemma last_sorted_max (l : list string) z :
  z ∈ l -> (forall x, x ∈ l -> x = z \/ String.compare x z = Lt) -> last (merge_sort string_le l) = Some z.
Proof.
  intros Hz Hall. set (ms := merge_sort string_le l). assert (Hp : ms ≡ₚ l) by apply merge_sort_Permutation.
  assert (Hs : StronglySorted string_le ms).
  { apply StronglySorted_merge_sort; [intros a b c; apply string_le_trans|intros a b; apply string_le_total]. }
  assert (Hzm : z ∈ ms) by by rewrite Hp. destruct (last ms) as [u|] eqn:Hl.
  2: { apply last_None in Hl. rewrite Hl in Hzm. by apply elem_of_nil in Hzm. }
  apply last_Some in Hl as [init Hi]. assert (Hu : u ∈ l) by (rewrite <- Hp, Hi; set_solver).
  destruct (Hall u Hu) as [->|Hlt]; [done|]. exfalso. rewrite Hi in Hzm, Hs.
  apply elem_of_app in Hzm as [Hzi|Hzu%list_elem_of_singleton].
  - apply StronglySorted_app in Hs as (Hr & _). specialize (Hr z u Hzi ltac:(set_solver)).
    unfold string_le, String.leb in Hr. rewrite String.compare_antisym, Hlt in Hr. done.
  - subst u. pose proof (String.compare_antisym z z) as Ha. by rewrite Hlt in Ha.
Qed.

Lemma loadNewest_newer files w m0 d m mb data :
  snap_ok files m0 d -> d_snapIndex d < sm_LastIncludedIndex m -> u64_ok (sm_LastIncludedIndex m) -> u64_ok (sm_LastIncludedTerm m) ->
  marshal m = Some mb -> lenN mb < 2 ^ 32 -> lenN data < 2 ^ 64 ->
  exists s1, loadNewestSnapshot (mkRStore (<[snapshotPath m := encodeSnapshot mb data]> files) w None None 0) =
    (s1, Some (Some (m, data))) /\ rs_hs s1 = None /\ rs_wal s1 = w.
Proof.
  intros Hsn Hi Hu1 Hu2 Hmb Hl1 Hl2. unfold loadNewestSnapshot. set (files' := <[_ := _]> files).
  assert (Hname : forall n b, files' !! n = Some b -> n = snapshotPath m \/ String.compare n (snapshotPath m) = Lt).
  { intros n b [[<- _]|[_ Hn]]%lookup_insert_Some; [by left|right]. unfold snap_ok in Hsn.
    destruct m0 as [m0|], (d_snap d) as [[[i' t'] data']|] eqn:Hd; try done; [|by rewrite Hsn in Hn].
    destruct Hsn as (Ei & Et & Hv1 & Hv2 & mb' & _ & _ & _ & ->). apply lookup_singleton_Some in Hn as [<- _].
    unfold snapshotPath. rewrite snapshotName_compare by (rewrite ?Ei, ?Et; done).
    unfold d_snapIndex in Hi. rewrite Hd in Hi. rewrite Ei. apply N.compare_lt_iff in Hi. by rewrite Hi. }
  assert (Hfiles : forall n b, files' !! n = Some b -> is_snapshot_tmp n = false).
  { intros n b [[<- _]|[_ Hn]]%lookup_insert_Some; [apply snapshotName_not_tmp|]. unfold snap_ok in Hsn.
    destruct m0 as [m0|], (d_snap d) as [[[i' t'] data']|]; try done; [|by rewrite Hsn in Hn].
    destruct Hsn as (_ & _ & _ & _ & mb' & _ & _ & _ & ->). apply lookup_singleton_Some in Hn as [<- _].
    apply snapshotName_not_tmp. }
  assert (Hr : removeTmps (mkRStore files' w None None 0) = mkRStore files' w None None 0).
  { unfold removeTmps, set_field. cbn. f_equal. apply map_filter_id. intros n b Hn. by eapply Hfiles. }
  rewrite Hr. unfold snapshotFiles. cbn [rs_files]. rewrite (last_sorted_max _ (snapshotPath m)).
  - assert (Hlk : files' !! snapshotPath m = Some (encodeSnapshot mb data)) by apply lookup_insert_eq.
    rewrite Hlk. cbn [mbind option_bind]. rewrite (read_encodeSnapshot _ _ _ Hmb Hl1 Hl2). by eexists.
  - apply list_elem_of_filter. split; [apply snapshotName_is_file|]. apply list_elem_of_fmap.
    exists (snapshotPath m, encodeSnapshot mb data). split; [done|]. apply elem_of_map_to_list. apply lookup_insert_eq.
  - intros x [_ Hx]%list_elem_of_filter. apply list_elem_of_fmap in Hx as ([n b] & -> & Hx%elem_of_map_to_list). by eapply Hname.
Qed.

(** *** Recovery after a crash in [SaveSnapshot] *)
Lemma records_from_high k segs rss : (forall s, s ∈ segs -> seg_Seq s < k) -> records_from k segs rss = [].
Proof.
  revert rss. induction segs as [|s segs IH]; intros [|rs rss] Hall; try done. cbn. pose proof (Hall s ltac:(by left)).
  destruct (N.ltb_spec (seg_Seq s) k); [|lia]. apply IH. intros s' Hs'. apply Hall. by right.
Qed.

(** What [snapshot_begin] leaves, in both modes. *)
Lemma snapshot_begin_ok s d i t discard :
  rs_inv s d -> d_snapIndex d < i ->
  exists s1 m, snapshot_begin None (mkSnapshotMeta i t 0) discard s = (s1, true, Some m) /\
    rs_files s1 = rs_files s /\ SegmentSize (rs_wal s1) = SegmentSize (rs_wal s) /\ wal_wf (rs_wal s1) /\
    sm_LastIncludedIndex m = i /\ sm_LastIncludedTerm m = t /\ sm_MinWalSegment m <= lastSeq (rs_wal s) + 1 /\
    if discard
    then exists head seg, segments (rs_wal s1) = segments (rs_wal s) ++ [seg] /\ seg_file seg = encodeRecords head /\
           Forall rec_ok head /\ Forall2 encodes head (hs_log (d_hs d)) /\ sm_MinWalSegment m = seg_Seq seg /\
           (forall s0, s0 ∈ segments (rs_wal s) -> seg_Seq s0 < seg_Seq seg)
    else rs_wal s1 = rs_wal s /\ sm_MinWalSegment m = minSeq (rs_meta s).
Proof.
  intros Hinv Hi. pose proof (snapshot_fresh s d i Hinv Hi) as Hfresh. pose proof (minSeq_last _ _ _ _ (ri_disk _ _ Hinv)) as Hms.
  destruct Hinv as [[Hwf Hsz Hsn Hmin (lss & Hr & Hl)] Hh Hla].
  unfold snapshot_begin. cbn [sm_LastIncludedIndex]. rewrite Hfresh. destruct discard.
  - destruct (rotate_segments (s <| rs_lastIndex := i |>)) as (w' & head & Hrot & Hwf' & Hsz' & Hsegs & Hok & Henc);
      [done|cbn; rewrite Hh; apply Hl|]. cbn in Hsz', Hsegs, Henc. rewrite Hh in Henc.
    set (seg := mkSegment (lastSeq (rs_wal s) + 1) (i + 1) (encodeRecords head)) in *.
    assert (Hseq : lastSeq w' = seg_Seq seg) by by eapply lastSeq_snoc.
    exists (s <| rs_lastIndex := i |> <| rs_wal := w' |>), (mkSnapshotMeta i t (lastSeq w')).
    split_and!; try done; [destruct (rs_meta s); cbn; by rewrite Hrot|cbn; rewrite Hseq; done|]. exists head, seg. split_and!; try done.
    intros s0 Hs0. pose proof (lastSeq_max _ _ (wf_sorted _ Hwf) Hs0). cbn. lia.
  - exists s, (mkSnapshotMeta i t (minSeq (rs_meta s))). split_and!; try done; [by destruct (rs_meta s)|cbn; lia].
Qed.

(** Reading the files a crash leaves before the rename: the old state. *)
Lemma begun_reads s d i t discard s1 m :
  rs_inv s d -> d_snapIndex d < i ->
  snapshot_begin None (mkSnapshotMeta i t 0) discard s = (s1, true, Some m) ->
  ReadAll (loadRecord (d_snapIndex d)) (minSeq (rs_meta s)) (None, []) (rs_wal s1) = ((d_hs d, d_entries d), rs_wal s1, None).
Proof.
  intros Hinv Hi Hb. destruct (snapshot_begin_ok s d i t discard Hinv Hi) as (s1' & m' & Hb' & _ & _ & _ & _ & _ & _ & Hw).
  rewrite Hb in Hb'. injection Hb' as <- <-. destruct Hinv as [Hd _ _].
  destruct (disk_ok_deliver _ _ _ _ Hd) as (rss & Hc & Hdel). destruct discard.
  - destruct Hw as (head & seg & Hsegs & Hf & Hok & Henc & _ & Hlt).
    assert (Hc1 : clean (segments (rs_wal s1)) (rss ++ [head])).
    { rewrite Hsegs. apply Forall2_app; [done|]. constructor; [by split|constructor]. }
    rewrite (ReadAll_clean _ _ _ _ _ Hc1), records_from_min; [|done|].
    + rewrite join_app, deliver_app, Hdel. cbn [mjoin list_join app]. rewrite app_nil_r.
      erewrite deliver_load; [|exact Henc|by destruct (d_hs d)]. by destruct (d_hs d).
    + rewrite Hsegs. intros s0 [Hs0|Hs0%list_elem_of_singleton]%elem_of_app; [by apply Hd|]. subst s0.
      destruct (wf_split _ (dk_wf _ _ _ _ Hd)) as (init & sl & Hws & _).
      pose proof (dk_min _ _ _ _ Hd sl ltac:(rewrite Hws; set_solver)).
      pose proof (Hlt sl ltac:(rewrite Hws; set_solver)). lia.
  - destruct Hw as [-> _]. rewrite (ReadAll_clean _ _ _ _ _ Hc), records_from_min by (done || apply Hd). by rewrite Hdel.
Qed.

(** Reading them after the rename: the new one. *)
Lemma renamed_reads s d i t data discard s1 m :
  rs_inv s d -> d_snapIndex d < i -> (discard = false -> keep_ok (rs_wal s) d i) ->
  snapshot_begin None (mkSnapshotMeta i t 0) discard s = (s1, true, Some m) ->
  ReadAll (loadRecord i) (sm_MinWalSegment m) (None, []) (rs_wal s1) =
    ((d_hs d, d_entries (spec_snapshot d i t data discard)), rs_wal s1, None).
Proof.
  intros Hinv Hi Hkeep Hb. destruct (snapshot_begin_ok s d i t discard Hinv Hi) as (s1' & m' & Hb' & _ & _ & _ & _ & _ & _ & Hw).
  rewrite Hb in Hb'. injection Hb' as <- <-. destruct Hinv as [Hd _ _]. pose proof Hd as [Hwf Hsz Hsn Hmin (lss & Hr & Hl)].
  destruct Hr as (rss & Hc & He) eqn:Er. clear Er. destruct discard.
  - rewrite spec_snapshot_new by done. cbn [d_entries].
    destruct Hw as (head & seg & Hsegs & Hf & Hok & Henc & -> & Hlt).
    assert (Hc1 : clean (segments (rs_wal s1)) (rss ++ [head])).
    { rewrite Hsegs. apply Forall2_app; [done|]. constructor; [by split|constructor]. }
    rewrite (ReadAll_clean _ _ _ _ _ Hc1), Hsegs, records_from_app by by eapply Forall2_length.
    rewrite records_from_high by done. cbn [records_from app]. rewrite N.ltb_irrefl, app_nil_r.
    erewrite deliver_load; [|exact Henc|by destruct (d_hs d)]. by destruct (d_hs d).
  - destruct Hw as [-> ->]. assert (Hlk : log_ok (segments (rs_wal s)) lss (spec_snapshot d i t data false)).
    { apply log_ok_snapshot; [by exists rss|done|done|by apply Hkeep|]. destruct (wf_split _ Hwf) as (init & s0 & -> & _).
      rewrite length_app. cbn. lia. }
    rewrite (ReadAll_clean _ _ _ _ _ Hc), records_from_min by done.
    pose proof (lk_replay _ _ _ Hlk) as Hrep. rewrite (spec_snapshot_new d i t data false Hi) in Hrep |- *.
    cbn [d_entries] in *. change (d_snapIndex (mkDurable _ (Some (i, t, data)) _)) with i in Hrep.
    erewrite deliver_load; [|by apply Forall2_join|exact Hrep]. f_equal. f_equal. f_equal.
    rewrite <- (lk_hs _ _ _ Hl 0); [by rewrite drop_0|]. eapply disk_ok_pos; [exact Hd|by exists rss].
Qed.

(** Opening the files left while a snapshot is saved. *)
Lemma begun_opens s d i t discard s1 m fs :
  rs_inv s d -> d_snapIndex d < i -> snapshot_begin None (mkSnapshotMeta i t 0) discard s = (s1, true, Some m) ->
  OpenStore (SegmentSize (rs_wal s)) (mkDisk fs (segments (rs_wal s1))) = mkRStore fs (rs_wal s1) None None 0 /\
  rs_files s1 = rs_files s /\ sm_LastIncludedIndex m = i /\ sm_LastIncludedTerm m = t /\
  sm_MinWalSegment m <= lastSeq (rs_wal s) + 1.
Proof.
  intros Hinv Hi Hb. destruct (snapshot_begin_ok s d i t discard Hinv Hi) as (s1' & m' & Hb' & Hf & Hsz & Hwf & Hmi & Hmt & Hmm & _).
  rewrite Hb in Hb'. injection Hb' as <- <-. split_and!; try done. unfold OpenStore. cbn. rewrite <- Hsz, Open_reopens; [done|done|].
  rewrite Hsz. apply Hinv.
Qed.

(** Before the rename, recovery finds the old snapshot and the old log. *)
Lemma begun_loads s d i t discard s1 m s0 :
  rs_inv s d -> d_snapIndex d < i -> snapshot_begin None (mkSnapshotMeta i t 0) discard s = (s1, true, Some m) ->
  loadNewestSnapshot s0 = loadNewestSnapshot (mkRStore (rs_files s) (rs_wal s1) None None 0) ->
  exists l s', rs_Load s0 = (Some l, s') /\ durable_of l = d.
Proof.
  intros Hinv Hi Hb Hln. pose proof (dk_snap _ _ _ _ (ri_disk _ _ Hinv)) as Hsn.
  rewrite (loadNewest_ok (mkRStore (rs_files s) (rs_wal s1) None None 0) _ _ Hsn) in Hln.
  assert (Hidx : match rs_meta s with Some m => sm_LastIncludedIndex m | None => 0 end = d_snapIndex d).
  { destruct (rs_meta s) as [m0|] eqn:Hm; [by rewrite (snap_ok_index _ _ _ Hsn)|]. unfold snap_ok in Hsn. unfold d_snapIndex.
    by destruct (d_snap d). }
  pose proof (begun_reads s d i t discard s1 m Hinv Hi Hb) as Hread.
  destruct (Load_value _ _ _ (d_hs d) (d_entries d) (rs_wal s1) Hln) as [s' Hs'].
  { cbn [rs_hs rs_wal]. rewrite <- Hread, <- Hidx. by destruct (rs_meta s). }
  eexists _, s'. split; [exact Hs'|]. unfold durable_of. cbn. destruct d as [hs sn es]. f_equal. unfold snap_ok in Hsn. cbn in Hsn |- *.
  destruct (rs_meta s) as [m0|], sn as [[[i' t'] data']|]; try done. destruct Hsn as (<- & <- & _). done.
Qed.

Lemma snapshot_crash_ok s d i t data discard renamed dk :
  rs_inv s d -> d_snapIndex d < i -> u64_ok i -> u64_ok t -> u64_ok (lastSeq (rs_wal s) + 1) -> lenN data < 2 ^ 64 ->
  (discard = false -> keep_ok (rs_wal s) d i) ->
  snapshot_crash s i t data discard renamed dk ->
  exists l s', rs_Load (OpenStore (SegmentSize (rs_wal s)) dk) = (Some l, s') /\
    durable_of l = if renamed then spec_snapshot d i t data discard else d.
Proof.
  intros Hinv Hi Hui Hut Huw Hdata Hkeep Hcr. pose proof (dk_snap _ _ _ _ (ri_disk _ _ Hinv)) as Hsn.
  destruct Hcr as [s1 m Hb|s1 m buf Hb|s1 m s2 Hb Hw];
    destruct (begun_opens _ _ _ _ _ _ _ (rs_files s1) Hinv Hi Hb) as (Hopen & Hf & Hmi & Hmt & Hmm).
  - unfold disk. rewrite Hopen. eapply begun_loads; [done..|]. by rewrite Hf.
  - unfold disk, writeTmp. cbn [rs_files rs_wal set_field]. unfold set_field. cbn [rs_files rs_wal].
    rewrite (proj1 (begun_opens _ _ _ _ _ _ _ _ Hinv Hi Hb)). eapply begun_loads; [done..|]. rewrite Hf. by eapply loadNewest_tmp.
  - destruct (meta_encodes m) as (mb & Hmb & Hmbl); [congruence|congruence|unfold u64_ok in *; lia|].
    rewrite (writeSnapshotFile_ok _ _ _ _ Hmb) in Hw by (rewrite Hf; by eapply files_no_tmp). injection Hw as <-.
    unfold disk. cbn [rs_files rs_wal set_field]. unfold set_field. cbn [rs_files rs_wal].
    rewrite (proj1 (begun_opens _ _ _ _ _ _ _ _ Hinv Hi Hb)), Hf.
    destruct (loadNewest_newer (rs_files s) (rs_wal s1) _ _ m mb data Hsn) as (s3 & Hln & Hh3 & Hw3); rewrite ?Hmi, ?Hmt; try done.
    destruct (Load_value _ _ _ (d_hs d) (d_entries (spec_snapshot d i t data discard)) (rs_wal s1) Hln) as [s' Hs'].
    { rewrite Hh3, Hw3, Hmi. by apply (renamed_reads s d i t data discard s1 m). }
    eexists _, s'. split; [exact Hs'|]. unfold durable_of. cbn. rewrite spec_snapshot_new by done. by rewrite Hmi, Hmt.
Qed.

(** ** The theorems *)
Definition empty_durable : Durable := mkDurable None None [].

(** A store opened for the first time. *)
Definition fresh (size : Z) : RStore := (rs_Load (OpenStore size (mkDisk ∅ []))).2.

Lemma fresh_ok size : (0 < size)%Z -> rs_inv (fresh size) empty_durable.
Proof.
  intros Hsize. unfold fresh. destruct (rs_Load_ok ∅ (Open size []) None empty_durable) as (l & s & Hl & _ & Hi).
  - split; [apply Open_wf, NoDup_nil_2|cbn; by destruct (Z.leb_spec size 0); [lia|]|done|cbn; lia|].
    exists [[]]. split; [exists [[]]; repeat constructor; done|].
    split; [|done| | |done].
    + intros j Hj. cbn in Hj. assert (j = 0%nat) as -> by lia. done.
    + intros j s Hj. pose proof (lookup_lt_Some _ _ _ Hj) as Hlt. cbn in Hlt. assert (j = 0%nat) as -> by lia. cbn in Hj.
      injection Hj as <-. done.
    + intros s Hs. cbn in Hs. injection Hs as <-. done.
  - unfold OpenStore. cbn [dk_files dk_segments]. by rewrite Hl.
Qed.

Lemma rs_Snapshot_ok s d : rs_inv s d ->
  exists om data, rs_Snapshot s = Some (om, data) /\
    d_snap d = (fun m => (sm_LastIncludedIndex m, sm_LastIncludedTerm m, data)) <$> om.
Proof.
  intros Hinv. pose proof (dk_snap _ _ _ _ (ri_disk _ _ Hinv)) as Hsn. unfold rs_Snapshot, snap_ok in *.
  destruct (rs_meta s) as [m|], (d_snap d) as [[[i t] data]|]; try done; [|by eexists _, _].
  destruct Hsn as (<- & <- & _ & _ & mb & Hmb & Hl1 & Hl2 & ->). rewrite lookup_singleton_eq. cbn [mbind option_bind].
  rewrite (read_encodeSnapshot _ _ _ Hmb Hl1 Hl2). cbn. by eexists _, _.
Qed.

(** C9: the durable storage implements its contract. After any sequence of saves and
    snapshots on a fresh store, with segments rotated and collected at any size,
    crashes between operations and in the middle of writing a batch, recovery
    returns exactly the state the contract says is durable; every further operation
    within its precondition succeeds and moves that state as the contract says;
    and the newest snapshot is readable. A snapshot that keeps the log needs [keep_ok]. *)
Theorem raftstore_implements_contract size s d :
  (0 < size)%Z -> store_run (fresh size) empty_durable s d ->
  (exists l s', rs_Load (OpenStore (SegmentSize (rs_wal s)) (disk s)) = (Some l, s') /\ durable_of l = d) /\
  (forall op, op_pre s d op -> exists s' l s'', op_run s op = (s', true) /\
     rs_Load (OpenStore (SegmentSize (rs_wal s')) (disk s')) = (Some l, s'') /\ durable_of l = op_spec d op) /\
  (exists om data, rs_Snapshot s = Some (om, data) /\
     d_snap d = (fun m => (sm_LastIncludedIndex m, sm_LastIncludedTerm m, data)) <$> om).
Proof.
  intros Hsize Hrun. pose proof (store_run_inv _ _ _ _ Hrun (fresh_ok size Hsize)) as Hinv. split_and!.
  - destruct (reopen s d Hinv) as (l & s' & ? & ? & _). eauto.
  - intros op Hpre. destruct (op_run_ok s d op Hinv Hpre) as (s' & Hs' & Hinv').
    destruct (reopen s' _ Hinv') as (l & s'' & ? & ? & _). eauto 10.
  - by apply rs_Snapshot_ok.
Qed.

(** C27: A crash while a batch is written. Recovery succeeds and finds the state before
    the batch, or with the hard state and a prefix of the entries of the batch: never a
    reordered, partial or foreign entry, and never the entries without the hard state
    that was written with them. *)
Theorem interrupted_save_is_prefix size s d hs es n f2 :
  (0 < size)%Z -> store_run (fresh size) empty_durable s d ->
  op_pre s d (OSave hs es) -> hs <> None \/ es <> [] ->
  exists l s' hs' k, rs_Load (OpenStore (SegmentSize (rs_wal s)) (disk (rs_Save (Some n) f2 s hs es).1)) = (Some l, s') /\
    durable_of l = spec_save d hs' (take k es) /\ (hs' = hs \/ hs' = None /\ k = 0%nat).
Proof.
  intros Hsize Hrun (Hp & recs & Hr & Hok) Hne. pose proof (store_run_inv _ _ _ _ Hrun (fresh_ok size Hsize)) as Hinv.
  destruct (torn_Save_ok s d hs es recs n f2 Hinv Hp Hr Hok) as (l & s' & hs' & k & ? & ? & ? & _); [|eauto 10].
  intros ->. apply saveRecords_encodes, Forall2_nil_inv_l in Hr. apply app_nil in Hr as [Hx Hy].
  apply fmap_nil_inv in Hy. destruct hs; [done|]. by destruct Hne.
Qed.


End Refinement.

(** ** Witnesses *)
#[local] Instance hs_codec : Codec HardState := countable_codec HardState.
#[local] Instance entry_codec : Codec Entry := countable_codec Entry.
#[local] Instance hs_codec_laws : CodecLaws HardState := countable_codec_laws HardState.
#[local] Instance entry_codec_laws : CodecLaws Entry := countable_codec_laws Entry.

#[local] Existing Instance meta_codec.
#[local] Existing Instance meta_codec_laws.

Lemma meta_codec_encodes (m : SnapshotMeta) :
  u64_ok (sm_LastIncludedIndex m) -> u64_ok (sm_LastIncludedTerm m) -> u64_ok (sm_MinWalSegment m) ->
  exists mb, marshal m = Some mb /\ lenN mb < 2 ^ 32.
Proof.
  intros H1%N.ltb_lt H2%N.ltb_lt H3%N.ltb_lt. eexists. split.
  - cbn [marshal meta_codec]. cbn [forallb]. change (256 ^ 8) with (16 ^ N.of_nat 16). by rewrite H1, H2, H3.
  - unfold lenN. by rewrite !length_app, !le_bytes_length.
Qed.

Definition demo_entry (i t : N) : Entry := mkEntry i t ENTRY_NORMAL [Byte.x41].
Definition demo_hs (t : N) : HardState := mkHardState t "a".

(** Elected in term 1, a batch that fills its segment, an overwritten tail, a
    snapshot of a prefix. *)
Definition demo_store_ops : list storeOp :=
  [OSave (Some (demo_hs 1)) [demo_entry 1 1; demo_entry 2 1; demo_entry 3 1];
   OSave (Some (demo_hs 2)) [demo_entry 3 2; demo_entry 4 2];
   OSnapshot 2 1 [Byte.x99] false].

Definition demo_run (ops : list storeOp) : RStore * Durable :=
  foldl (fun '(s, d) op => ((op_run s op).1, op_spec d op)) (fresh 64, empty_durable) ops.

Lemma demo_save_pre s d hs es recs :
  match es with [] => true | e :: _ => (d_snapIndex d <? ent_Index e) && (ent_Index e <=? d_lastIndex d + 1) end = true ->
  es = [] \/ contiguous (default 0 (ent_Index <$> head es) - 1) es ->
  saveRecords hs es = Some recs -> forallb (fun r => lenN (rec_Data r) <=? maxRecordSize) recs = true ->
  op_pre s d (OSave hs es).
Proof.
  intros Hb Hc Hr Hall. split.
  - destruct es as [|e es]; [done|]. apply andb_true_iff in Hb as [?%N.ltb_lt ?%N.leb_le]. destruct Hc as [|Hc]; [done|]. by split.
  - exists recs. split; [done|]. apply Forall_forall. intros r Hin%list_elem_of_In. rewrite forallb_forall in Hall.
    by apply N.leb_le, Hall.
Qed.

Lemma demo_store_run : store_run (fresh 64) empty_durable (demo_run demo_store_ops).1 (demo_run demo_store_ops).2.
Proof.
  assert (H0 : store_run (fresh 64) empty_durable (demo_run []).1 (demo_run []).2) by constructor.
  assert (H1 : store_run (fresh 64) empty_durable (demo_run (take 1 demo_store_ops)).1 (demo_run (take 1 demo_store_ops)).2).
  { eapply (run_op _ _ _ _ (OSave (Some (demo_hs 1)) [demo_entry 1 1; demo_entry 2 1; demo_entry 3 1]) _ H0); [|by vm_compute].
    eapply demo_save_pre; [by vm_compute|right; by rewrite !contiguous_cons; split_and!; try apply contiguous_nil|vm_compute; reflexivity|by vm_compute]. }
  assert (H2 : store_run (fresh 64) empty_durable (demo_run (take 2 demo_store_ops)).1 (demo_run (take 2 demo_store_ops)).2).
  { eapply (run_op _ _ _ _ (OSave (Some (demo_hs 2)) [demo_entry 3 2; demo_entry 4 2]) _ H1); [|by vm_compute].
    eapply demo_save_pre; [by vm_compute|right; by rewrite !contiguous_cons; split_and!; try apply contiguous_nil|vm_compute; reflexivity|by vm_compute]. }
  eapply (run_op _ _ _ _ (OSnapshot 2 1 [Byte.x99] false) _ H2); [|by vm_compute].
  split_and!; [by vm_compute..|]. intros _ _. split; [by vm_compute|left; by vm_compute].
Qed.

Lemma raftstore_implements_contract_witness :
  (exists l s', rs_Load (OpenStore 64 (disk (demo_run demo_store_ops).1)) = (Some l, s') /\
     durable_of l = mkDurable (Some (demo_hs 2)) (Some (2, 1, [Byte.x99])) [demo_entry 3 2; demo_entry 4 2]) /\
  (exists s' l s'', op_run (demo_run demo_store_ops).1 (OSave None [demo_entry 5 2]) = (s', true) /\
     rs_Load (OpenStore (SegmentSize (rs_wal s')) (disk s')) = (Some l, s'') /\
     durable_of l = mkDurable (Some (demo_hs 2)) (Some (2, 1, [Byte.x99])) [demo_entry 3 2; demo_entry 4 2; demo_entry 5 2]).
Proof.
  destruct (raftstore_implements_contract meta_codec_encodes 64 _ _ ltac:(lia) demo_store_run) as (H1 & H2 & _). split; [exact H1|].
  apply (H2 (OSave None [demo_entry 5 2])).
  eapply demo_save_pre; [by vm_compute|right; by rewrite !contiguous_cons; split_and!; try apply contiguous_nil
    |vm_compute; reflexivity|by vm_compute].
Defined.

Lemma interrupted_save_is_prefix_witness :
  exists l s' hs' k,
    rs_Load (OpenStore 64 (disk (rs_Save (Some 60%nat) None (demo_run demo_store_ops).1
      (Some (demo_hs 3)) [demo_entry 4 3; demo_entry 5 3]).1)) = (Some l, s') /\
    durable_of l = spec_save (demo_run demo_store_ops).2 hs' (take k [demo_entry 4 3; demo_entry 5 3]) /\
    (hs' = Some (demo_hs 3) \/ hs' = None /\ k = 0%nat).
Proof.
  apply (interrupted_save_is_prefix meta_codec_encodes 64 _ _ (Some (demo_hs 3)) [demo_entry 4 3; demo_entry 5 3] 60 None
    ltac:(lia) demo_store_run); [|by left].
  eapply demo_save_pre; [by vm_compute|right; by rewrite !contiguous_cons; split_and!; try apply contiguous_nil
    |vm_compute; reflexivity|by vm_compute].
Defined.


(** ** Where the code breaks the contract *)

(** Three entries overwrite a longer tail, and a snapshot covers all of them. *)
Definition resurrect_ops : list storeOp :=
  [OSave (Some (demo_hs 1)) [demo_entry 1 1; demo_entry 2 1; demo_entry 3 1; demo_entry 4 1];
   OSave (Some (demo_hs 2)) [demo_entry 2 2; demo_entry 3 2];
   OSnapshot 3 2 [Byte.x99] false].

Definition loaded_after (size : Z) (s : RStore) : option Durable :=
  durable_of <$> (rs_Load (OpenStore size (disk s))).1.

Definition big_run (ops : list storeOp) : RStore * Durable :=
  foldl (fun '(s, d) op => ((op_run s op).1, op_spec d op)) (fresh 4096, empty_durable) ops.


(** The first batch fills its segment, and the crash hits before the next segment has
    its hard state; after the restart one more entry is saved, and a snapshot. *)
Definition headless_run : RStore :=
  let s := (rs_Save None (Some 0%nat) (fresh 100) (Some (demo_hs 1)) [demo_entry 1 1; demo_entry 2 1; demo_entry 3 1]).1 in
  let s := (rs_Load (OpenStore 100 (disk s))).2 in
  let s := (rs_Save None None s None [demo_entry 4 1]).1 in
  (rs_SaveSnapshot s (mkSnapshotMeta 3 1 0) [Byte.x99] false).1.

