(* ===== verification/Shard.v ===== *)
(** * Keys to shards (internal/shard)

    The 32-bit FNV-1a hash of the key, reduced modulo the number of shards. *)

From Stdlib Require Import Ascii.
From S2P Require Import Prelude GoStrings.

(** [hash/fnv]'s 32-bit FNV-1a. *)
Definition fnv_offset : N := 2166136261.
Definition fnv_prime : N := 16777619.

Definition fnv_step (h b : N) : N := u32 (N.lxor h b * fnv_prime).

Fixpoint fnv32a (h : N) (s : string) : N :=
  match s with
  | EmptyString => h
  | String a s => fnv32a (fnv_step h (N_of_ascii a)) s
  end.

(** The conversion [uint32(numShards)] keeps the low 32 bits; a zero divisor panics. *)
Definition ForKey (key : string) (numShards : Z) : res N :=
  if (numShards <=? 1)%Z then Ok 0
  else
    let m := Z.to_N (numShards mod 2 ^ 32) in
    if m =? 0 then Panic "integer divide by zero" else Ok (fnv32a fnv_offset key mod m).

Lemma fnv32a_bound h s : h < u32_modulus -> fnv32a h s < u32_modulus.
Proof. revert h. induction s as [|a s IH]; intros h Hh; [done|]. apply IH. by apply N.mod_lt. Qed.

Lemma ForKey_total key numShards :
  (numShards < 2 ^ 32)%Z -> exists s, ForKey key numShards = Ok s /\ s < N.max 1 (Z.to_N numShards).
Proof.
  intros Hn. unfold ForKey. destruct (Z.leb_spec numShards 1) as [Hle|Hgt]; [exists 0; split; [done|lia]|].
  rewrite Z.mod_small by lia. destruct (N.eqb_spec (Z.to_N numShards) 0) as [Hz|Hz]; [lia|].
  eexists. split; [done|]. pose proof (N.mod_lt (fnv32a fnv_offset key) _ Hz). lia.
Qed.

(** Every key has exactly one shard, in range, for every number of shards a cluster
    can have; with one shard or fewer it is shard 0. *)
Theorem ForKey_in_range key numShards :
  (numShards < 2 ^ 32)%Z ->
  exists s, ForKey key numShards = Ok s /\ s < N.max 1 (Z.to_N numShards).
Proof. apply ForKey_total. Qed.

Lemma ForKey_in_range_witness :
  (3 < 2 ^ 32)%Z /\ exists s, ForKey "task:4832:status" 3 = Ok s /\ s < N.max 1 (Z.to_N 3).
Proof. split; [done|]. exact (ForKey_in_range "task:4832:status" 3 eq_refl). Defined.

(** The value the repository's test pins. *)
Example ForKey_pinned : ForKey "task:4832:status" 3 = Ok 1.
Proof. by vm_compute. Qed.
