(* ===== verification/Transport.v ===== *)
(** * Raft over gRPC (internal/transport)

    The client keeps one connection per peer and sends a snapshot as a header
    followed by chunks; the server puts the request together again and hands each
    RPC to the group it names. gRPC itself is a parameter: dialling may fail, and
    a stream delivers the messages in order until it ends or breaks. *)

From S2P Require Import Prelude Types.

Definition snapshotChunkSize : N := 2 ^ 20.

Inductive rpcError :=
| ErrUnknownPeer (to : string)
| ErrDial
| ErrStream                        (* the call failed or the stream broke *)
| ErrNotHosted (group : N)         (* codes.NotFound *)
| ErrNoHeader                      (* codes.InvalidArgument *)
| ErrEmptyStream.                  (* codes.InvalidArgument *)

(** ** Client *)
Section Client.
Context {Conn : Type} (dial : string -> option Conn).

Record Client := mkClient {
  addrs : gmap string string;
  conns : gmap string Conn;
}.

#[global] Instance eta_Client : Eta Client := fun c => mkClient (addrs c) (conns c).

Definition NewClient (addrs : gmap string string) : Client := mkClient addrs ∅.

Definition peer (to : string) (c : Client) : Client * (Conn + rpcError) :=
  match conns c !! to with
  | Some conn => (c, inl conn)
  | None =>
      match addrs c !! to with
      | None => (c, inr (ErrUnknownPeer to))
      | Some addr =>
          match dial addr with
          | None => (c, inr ErrDial)
          | Some conn => (c <| conns := <[to := conn]> (conns c) |>, inl conn)
          end
      end
  end.

(** A unary call; [send] is what the stub does with the connection. *)
Definition unary {Req Resp} (send : Conn -> Req -> Resp + rpcError) (to : string) (req : Req) (c : Client) :
    Client * (Resp + rpcError) :=
  match peer to c with
  | (c, inl conn) => (c, send conn req)
  | (c, inr err) => (c, inr err)
  end.

Definition RequestVote_call (send : Conn -> RequestVoteRequest -> RequestVoteResponse + rpcError) := unary send.
Definition AppendEntries_call (send : Conn -> AppendEntriesRequest -> AppendEntriesResponse + rpcError) := unary send.
Definition TimeoutNow_call (send : Conn -> TimeoutNowRequest -> TimeoutNowResponse + rpcError) := unary send.

(** Connections closed by [Close], in some order, and the table left empty. *)
Definition Close (c : Client) : Client * list Conn :=
  (c <| conns := ∅ |>, (map_to_list (conns c)).*2).
End Client.
Arguments Client Conn : clear implicits.

(** The messages of one snapshot: [for data := req.Data; len(data) > 0;]. Every
    round sends a byte at least, so the length is enough fuel. *)
Fixpoint chunk_loop (size fuel : nat) (data : bytes) : list InstallSnapshotChunk :=
  match fuel, data with
  | S fuel, _ :: _ =>
      let n := Nat.min (length data) size in
      mkInstallSnapshotChunk None (take n data) :: chunk_loop size fuel (drop n data)
  | _, _ => []
  end.

Definition snapshot_header (req : InstallSnapshotRequest) : InstallSnapshotRequest :=
  mkInstallSnapshotRequest (is_Group req) (is_Term req) (is_LeaderId req) (is_LastIncludedIndex req) (is_LastIncludedTerm req) [].

Definition snapshot_messages (req : InstallSnapshotRequest) : list InstallSnapshotChunk :=
  mkInstallSnapshotChunk (Some (snapshot_header req)) [] :: chunk_loop (N.to_nat snapshotChunkSize) (length (is_Data req)) (is_Data req).

Lemma chunk_size_pos : (0 < N.to_nat snapshotChunkSize)%nat.
Proof. assert (0 < snapshotChunkSize) by done. lia. Qed.

(** ** Server *)

(** The receiving loop: the messages that arrive, and whether the stream then ends
    ([io.EOF]) or breaks. *)
Fixpoint recv_loop (req : option InstallSnapshotRequest) (msgs : list InstallSnapshotChunk) (eof : bool) :
    InstallSnapshotRequest + rpcError :=
  match msgs with
  | [] => if eof then match req with Some req => inl req | None => inr ErrEmptyStream end else inr ErrStream
  | chunk :: msgs =>
      match (match isc_Header chunk with Some h => Some h | None => req end) with
      | None => inr ErrNoHeader
      | Some req => recv_loop (Some (req <| is_Data := is_Data req ++ isc_Data chunk |>)) msgs eof
      end
  end.

Section Server.
(** [Handler] is a Raft group as its handlers see it: each call returns the new
    state of the group with the answer. *)
Context {Handler : Type}.
Context (HandleRequestVote : Handler -> RequestVoteRequest -> res (Handler * RequestVoteResponse)).
Context (HandleAppendEntries : Handler -> AppendEntriesRequest -> res (Handler * AppendEntriesResponse)).
Context (HandleInstallSnapshot : Handler -> InstallSnapshotRequest -> res (Handler * InstallSnapshotResponse)).
Context (HandleTimeoutNow : Handler -> TimeoutNowRequest -> res (Handler * TimeoutNowResponse)).

(** The groups a node hosts; [Resolve] finds one by its number. *)
Context (Groups : Type) (Resolve : Groups -> N -> option Handler) (Update : N -> Handler -> Groups -> Groups).

Definition serve {Req Resp} (handle : Handler -> Req -> res (Handler * Resp)) (group : N) (req : Req) (s : Groups) :
    res (Groups * (Resp + rpcError)) :=
  match Resolve s group with
  | None => Ok (s, inr (ErrNotHosted group))
  | Some h => '(h, resp) ← handle h req; Ok (Update group h s, inl resp)
  end.

Definition RequestVote_serve (req : RequestVoteRequest) := serve HandleRequestVote (rv_Group req) req.
Definition AppendEntries_serve (req : AppendEntriesRequest) := serve HandleAppendEntries (ae_Group req) req.
Definition TimeoutNow_serve (req : TimeoutNowRequest) := serve HandleTimeoutNow (tn_Group req) req.

Definition InstallSnapshot_serve (msgs : list InstallSnapshotChunk) (eof : bool) (s : Groups) :
    res (Groups * (InstallSnapshotResponse + rpcError)) :=
  match recv_loop None msgs eof with
  | inr err => Ok (s, inr err)
  | inl req => serve HandleInstallSnapshot (is_Group req) req s
  end.

(** One snapshot transfer: [broken] is the number of messages that get through before
    the stream breaks, or [None] if it does not; then the client waits for the answer. *)
Definition InstallSnapshot_call (broken : option nat) (req : InstallSnapshotRequest) (s : Groups) :
    res (Groups * (InstallSnapshotResponse + rpcError)) :=
  match broken with
  | None => InstallSnapshot_serve (snapshot_messages req) true s
  | Some k =>
      '(s, _) ← InstallSnapshot_serve (take k (snapshot_messages req)) false s;
      Ok (s, inr ErrStream)
  end.

(** *** Properties *)
Lemma chunk_loop_recv size data eof : forall fuel req,
  (0 < size)%nat -> (length data <= fuel)%nat ->
  recv_loop (Some req) (chunk_loop size fuel data) eof =
    if eof then inl (req <| is_Data := is_Data req ++ data |>) else inr ErrStream.
Proof.
  intros fuel. revert data. induction fuel as [|fuel IH]; intros data req Hs Hl.
  - destruct data; [|cbn in Hl; lia]. cbn. destruct req; cbn. by rewrite app_nil_r.
  - destruct data as [|b data]; [cbn; destruct req; cbn; by rewrite app_nil_r|].
    cbn [chunk_loop recv_loop isc_Header isc_Data]. set (n := Nat.min _ _).
    assert (Hn : (0 < n)%nat) by (subst n; cbn [length]; lia). clearbody n.
    rewrite IH; [|done|rewrite length_drop; cbn [length] in *; lia]. cbn.
    by rewrite <- app_assoc, take_drop.
Qed.

Lemma recv_loop_broken msgs : forall req, recv_loop (Some req) msgs false = inr ErrStream.
Proof. induction msgs as [|c msgs IH]; intros req; [done|]. cbn. destruct (isc_Header c); apply IH. Qed.

Lemma InstallSnapshot_serve_whole req s :
  InstallSnapshot_serve (snapshot_messages req) true s = serve HandleInstallSnapshot (is_Group req) req s.
Proof.
  unfold InstallSnapshot_serve, snapshot_messages. cbn [recv_loop isc_Header isc_Data].
  rewrite chunk_loop_recv; [|apply chunk_size_pos|done]. cbn. by destruct req.
Qed.

End Server.

Lemma chunk_loop_size size fuel : forall data,
  Forall (fun c => (length (isc_Data c) <= size)%nat) (chunk_loop size fuel data).
Proof.
  induction fuel as [|fuel IH]; intros data; [by destruct data|]. destruct data as [|b data]; [constructor|].
  cbn [chunk_loop]. constructor; [|apply IH]. cbn [isc_Data]. rewrite length_take. lia.
Qed.

Lemma chunk_loop_count (size : N) fuel : forall data,
  0 < size -> (length data <= fuel)%nat ->
  lenN (chunk_loop (N.to_nat size) fuel data) = (lenN data + (size - 1)) / size.
Proof.
  induction fuel as [|fuel IH]; intros data Hs Hl.
  - destruct data; [|cbn in Hl; lia]. unfold lenN. cbn [chunk_loop length]. symmetry. apply N.div_small. lia.
  - destruct data as [|b data]; [unfold lenN; cbn [chunk_loop length]; symmetry; apply N.div_small; lia|].
    cbn [chunk_loop]. set (l := b :: data) in *. assert (Hpos : (0 < length l)%nat) by (subst l; cbn; lia). clearbody l.
    rewrite lenN_cons, IH; [|done|rewrite length_drop; lia]. rewrite lenN_drop, <- N.div_add_l by lia. rewrite N.mul_1_l.
    destruct (N.le_gt_cases (lenN l) size) as [Hle|Hgt].
    + rewrite Nat.min_l by (unfold lenN in *; lia). unfold lenN in *. rewrite N.sub_diag.
      rewrite <- (N.div_unique (size + (0 + (size - 1))) size 1 (size - 1)) by lia.
      rewrite <- (N.div_unique (N.of_nat (length l) + (size - 1)) size 1 (N.of_nat (length l) - 1)) by lia. done.
    + rewrite Nat.min_r by (unfold lenN in *; lia). rewrite N2Nat.id. f_equal. lia.
Qed.

(** No message of a snapshot transfer carries more than [snapshotChunkSize] bytes of it,
    and the number of messages is the data's size in chunks, rounded up, and one for the header. *)
Theorem snapshot_messages_bounded req :
  Forall (fun c => lenN (isc_Data c) <= snapshotChunkSize) (snapshot_messages req) /\
  lenN (snapshot_messages req) = 1 + (lenN (is_Data req) + (snapshotChunkSize - 1)) / snapshotChunkSize.
Proof.
  unfold snapshot_messages. split.
  - constructor; [apply N.le_0_l|]. eapply Forall_impl; [apply chunk_loop_size|]. intros c Hc. cbn in Hc. unfold lenN. lia.
  - rewrite lenN_cons, chunk_loop_count; [done|done|done].
Qed.

(** A transfer of two and a half chunks, with a chunk size of 4. *)
Example snapshot_chunks :
  isc_Data <$> chunk_loop 4 10 (repeat Byte.x61 10) = [repeat Byte.x61 4; repeat Byte.x61 4; repeat Byte.x61 2].
Proof. by vm_compute. Qed.
