(* ===== verification/Stubs.v ===== *)
(** * The gRPC stubs of the Raft service (internal/pb/edgekv_grpc.pb.go)

    The client's four stubs, the service description, and the handlers the
    description names for the server side. The gRPC library is a class: a server on
    which services are registered, unary calls and streams on a connection to it, with
    the routing gRPC documents as laws. The stubs and the description have to agree on
    every name and every message type; the theorems say that they do, so that a call of
    a stub is a call of the method of the same name on the registered server, and, for
    internal/transport's server, of the handler of the Raft group the request names. *)

From S2P Require Import Prelude Types Transport.

Definition Raft_RequestVote_FullMethodName : string := "/edgekv.v1.Raft/RequestVote".
Definition Raft_AppendEntries_FullMethodName : string := "/edgekv.v1.Raft/AppendEntries".
Definition Raft_InstallSnapshot_FullMethodName : string := "/edgekv.v1.Raft/InstallSnapshot".
Definition Raft_TimeoutNow_FullMethodName : string := "/edgekv.v1.Raft/TimeoutNow".

(** What a call can end with: an error of the server's method, [codes.Unimplemented],
    or a message that does not decode. *)
Inductive grpcError :=
| MethodError (e : rpcError)
| Unimplemented (msg : string)
| ErrCodec.

(** ** Messages behind [interface{}] *)
Inductive any :=
| AnyRequestVoteRequest (m : RequestVoteRequest)
| AnyRequestVoteResponse (m : RequestVoteResponse)
| AnyAppendEntriesRequest (m : AppendEntriesRequest)
| AnyAppendEntriesResponse (m : AppendEntriesResponse)
| AnyTimeoutNowRequest (m : TimeoutNowRequest)
| AnyTimeoutNowResponse (m : TimeoutNowResponse).

(** Conversion to the interface and the type assertion back. *)
Class Message (A : Type) := {
  to_any : A -> any;
  of_any : any -> option A;
  of_to_any (a : A) : of_any (to_any a) = Some a;
}.

#[export] Instance Message_RequestVoteRequest : Message RequestVoteRequest :=
  {| to_any := AnyRequestVoteRequest; of_any m := match m with AnyRequestVoteRequest m => Some m | _ => None end; of_to_any _ := eq_refl |}.
#[export] Instance Message_RequestVoteResponse : Message RequestVoteResponse :=
  {| to_any := AnyRequestVoteResponse; of_any m := match m with AnyRequestVoteResponse m => Some m | _ => None end; of_to_any _ := eq_refl |}.
#[export] Instance Message_AppendEntriesRequest : Message AppendEntriesRequest :=
  {| to_any := AnyAppendEntriesRequest; of_any m := match m with AnyAppendEntriesRequest m => Some m | _ => None end; of_to_any _ := eq_refl |}.
#[export] Instance Message_AppendEntriesResponse : Message AppendEntriesResponse :=
  {| to_any := AnyAppendEntriesResponse; of_any m := match m with AnyAppendEntriesResponse m => Some m | _ => None end; of_to_any _ := eq_refl |}.
#[export] Instance Message_TimeoutNowRequest : Message TimeoutNowRequest :=
  {| to_any := AnyTimeoutNowRequest; of_any m := match m with AnyTimeoutNowRequest m => Some m | _ => None end; of_to_any _ := eq_refl |}.
#[export] Instance Message_TimeoutNowResponse : Message TimeoutNowResponse :=
  {| to_any := AnyTimeoutNowResponse; of_any m := match m with AnyTimeoutNowResponse m => Some m | _ => None end; of_to_any _ := eq_refl |}.

(** [dec]: fills a message of the type the handler asks for from the bytes received. *)
Definition decoder := forall A : Type, Codec A -> A + grpcError.

Section Stubs.
Context `{Codec RequestVoteRequest, Codec RequestVoteResponse, Codec AppendEntriesRequest, Codec AppendEntriesResponse,
          Codec TimeoutNowRequest, Codec TimeoutNowResponse}.

(** ** The server's interface

    [S] is the state the methods work on; a client stream is the messages that arrive
    and whether it then ends ([io.EOF]) or breaks. *)
Context {S : Type}.

Local Abbreviation outcome A := (res (S * (A + grpcError))).

Record RaftServer := mkRaftServer {
  RequestVote : RequestVoteRequest -> S -> outcome RequestVoteResponse;
  AppendEntries : AppendEntriesRequest -> S -> outcome AppendEntriesResponse;
  InstallSnapshot : list InstallSnapshotChunk * bool -> S -> outcome InstallSnapshotResponse;
  TimeoutNow : TimeoutNowRequest -> S -> outcome TimeoutNowResponse;
}.

Definition UnimplementedRaftServer : RaftServer := {|
  RequestVote _ s := Ok (s, inr (Unimplemented "method RequestVote not implemented"));
  AppendEntries _ s := Ok (s, inr (Unimplemented "method AppendEntries not implemented"));
  InstallSnapshot _ s := Ok (s, inr (Unimplemented "method InstallSnapshot not implemented"));
  TimeoutNow _ s := Ok (s, inr (Unimplemented "method TimeoutNow not implemented"));
|}.

(** [(interface{}, error)] from the typed result of a method. *)
Definition boxed {A} `{Message A} (r : outcome A) : outcome any :=
  '(s, out) ← r; Ok (s, match out with inl a => inl (to_any a) | inr err => inr err end).

(** [grpc.UnaryServerInterceptor]: the request, [info.FullMethod] and the handler to go on with. *)
Definition interceptor : Type := any -> string -> (any -> S -> outcome any) -> S -> outcome any.

(** ** Handlers *)
Definition Raft_RequestVote_Handler (srv : RaftServer) (dec : decoder) (i : option interceptor) (s : S) : outcome any :=
  match dec RequestVoteRequest _ with
  | inr err => Ok (s, inr err)
  | inl req =>
      match i with
      | None => boxed (RequestVote srv req s)
      | Some i =>
          i (to_any req) Raft_RequestVote_FullMethodName
            (fun req s => match of_any req with Some req => boxed (RequestVote srv req s) | None => Panic "interface conversion" end) s
      end
  end.

Definition Raft_AppendEntries_Handler (srv : RaftServer) (dec : decoder) (i : option interceptor) (s : S) : outcome any :=
  match dec AppendEntriesRequest _ with
  | inr err => Ok (s, inr err)
  | inl req =>
      match i with
      | None => boxed (AppendEntries srv req s)
      | Some i =>
          i (to_any req) Raft_AppendEntries_FullMethodName
            (fun req s => match of_any req with Some req => boxed (AppendEntries srv req s) | None => Panic "interface conversion" end) s
      end
  end.

Definition Raft_InstallSnapshot_Handler (srv : RaftServer) (stream : list InstallSnapshotChunk * bool) (s : S) :
    outcome InstallSnapshotResponse := InstallSnapshot srv stream s.

Definition Raft_TimeoutNow_Handler (srv : RaftServer) (dec : decoder) (i : option interceptor) (s : S) : outcome any :=
  match dec TimeoutNowRequest _ with
  | inr err => Ok (s, inr err)
  | inl req =>
      match i with
      | None => boxed (TimeoutNow srv req s)
      | Some i =>
          i (to_any req) Raft_TimeoutNow_FullMethodName
            (fun req s => match of_any req with Some req => boxed (TimeoutNow srv req s) | None => Panic "interface conversion" end) s
      end
  end.

(** ** The service description *)
Record MethodDesc := mkMethodDesc {
  MethodName : string;
  MethodHandler : RaftServer -> decoder -> option interceptor -> S -> outcome any;
}.

Record StreamDesc := mkStreamDesc {
  StreamName : string;
  StreamHandler : RaftServer -> list InstallSnapshotChunk * bool -> S -> outcome InstallSnapshotResponse;
  ClientStreams : bool;
}.

Record ServiceDesc := mkServiceDesc {
  ServiceName : string;
  Methods : list MethodDesc;
  Streams : list StreamDesc;
  Metadata : string;
}.

Definition Raft_ServiceDesc : ServiceDesc := {|
  ServiceName := "edgekv.v1.Raft";
  Methods := [
    mkMethodDesc "RequestVote" Raft_RequestVote_Handler;
    mkMethodDesc "AppendEntries" Raft_AppendEntries_Handler;
    mkMethodDesc "TimeoutNow" Raft_TimeoutNow_Handler
  ];
  Streams := [ mkStreamDesc "InstallSnapshot" Raft_InstallSnapshot_Handler true ];
  Metadata := "proto/edgekv.proto";
|}.

(** ** gRPC

    [Server] is the library's server with the services registered on it, which is also
    what a connection leads to. *)
Class Grpc := {
  Server : Type;
  NewServer : Server;
  RegisterService : ServiceDesc -> RaftServer -> Server -> Server;
  Invoke {Req Resp : Type} `{Codec Req, Codec Resp, Message Resp} :
    Server -> string -> Req -> S -> outcome Resp;
  NewStream : Server -> StreamDesc -> string -> list InstallSnapshotChunk * bool -> S -> outcome InstallSnapshotResponse;
}.

(** The client's end of a unary call: the answer travels encoded. *)
Definition delivered {Resp} `{Codec Resp, Message Resp} (out : any + grpcError) : Resp + grpcError :=
  match out with
  | inr err => inr err
  | inl out => match (a ← of_any out; b ← marshal (A := Resp) a; unmarshal b) with Some resp => inl resp | None => inr ErrCodec end
  end.

(** A request is routed by its full name [/service/method] to the handler the
    description of the service gives for that method, without an interceptor
    ([grpc.NewServer] is called with no options), and nowhere if no method has the name. *)
Definition routed (desc : ServiceDesc) (m : string) : string := "/" +:+ ServiceName desc +:+ "/" +:+ m.

Definition received (b : bytes) : decoder := fun A _ => match unmarshal b with Some a => inl a | None => inr ErrCodec end.

Class GrpcLaws `{Grpc} := {
  Invoke_registered {Req Resp : Type} `{Codec Req, Codec Resp, Message Resp} desc srv md (req : Req) b s :
    NoDup (MethodName <$> Methods desc) -> md ∈ Methods desc -> marshal req = Some b ->
    Invoke (RegisterService desc srv NewServer) (routed desc (MethodName md)) req s =
      ('(s, out) ← MethodHandler md srv (received b) None s; Ok (s, delivered (Resp := Resp) out));
  NewStream_registered desc srv sd sd' msgs s :
    NoDup (StreamName <$> Streams desc) -> sd ∈ Streams desc -> ClientStreams sd' = true ->
    NewStream (RegisterService desc srv NewServer) sd' (routed desc (StreamName sd)) msgs s = StreamHandler sd srv msgs s;
}.

(** ** Client stubs *)
Section Client.
Context `{Grpc}.

Definition raftClient_RequestVote (cc : Server) (req : RequestVoteRequest) (s : S) : outcome RequestVoteResponse :=
  '(s, out) ← Invoke cc Raft_RequestVote_FullMethodName req s;
  Ok (s, match out with inr err => inr err | inl out => inl out end).

Definition raftClient_AppendEntries (cc : Server) (req : AppendEntriesRequest) (s : S) : outcome AppendEntriesResponse :=
  '(s, out) ← Invoke cc Raft_AppendEntries_FullMethodName req s;
  Ok (s, match out with inr err => inr err | inl out => inl out end).

(** The stream the stub opens, with the messages sent on it. *)
Definition raftClient_InstallSnapshot (cc : Server) (msgs : list InstallSnapshotChunk * bool) (s : S) :
    outcome InstallSnapshotResponse :=
  match Streams Raft_ServiceDesc !! 0%nat with
  | None => Panic "index out of range"
  | Some desc => NewStream cc desc Raft_InstallSnapshot_FullMethodName msgs s
  end.

Definition raftClient_TimeoutNow (cc : Server) (req : TimeoutNowRequest) (s : S) : outcome TimeoutNowResponse :=
  '(s, out) ← Invoke cc Raft_TimeoutNow_FullMethodName req s;
  Ok (s, match out with inr err => inr err | inl out => inl out end).

Definition RegisterRaftServer (srv : RaftServer) (server : Server) : Server := RegisterService Raft_ServiceDesc srv server.
End Client.

(** ** A stub calls the method of its name *)
Section Laws.
Context `{GrpcLaws}.

Lemma delivered_boxed {A} `{Codec A, !CodecLaws A, !CodecTotal A, Message A} (r : outcome A) :
  ('(s, out) ← boxed r; Ok (s, delivered (Resp := A) out)) = r.
Proof.
  destruct r as [[s [a|err]]|w]; [|done|done]. cbn. rewrite of_to_any. cbn.
  destruct (marshal_total a) as [b Hb]. by rewrite Hb; cbn; rewrite (unmarshal_marshal a b Hb).
Qed.

Lemma Raft_names_unique :
  NoDup (MethodName <$> Methods Raft_ServiceDesc) /\ NoDup (StreamName <$> Streams Raft_ServiceDesc).
Proof. split; vm_compute; by apply (bool_decide_unpack _). Qed.

Lemma repack {A} (r : outcome A) :
  ('(s, out) ← r; Ok (s, match out with inr err => inr err | inl out => inl out end)) = r.
Proof. by destruct r as [[s [a|err]]|w]. Qed.

(** A unary stub and the handler its full name is routed to: the request arrives as it
    was sent, and the method's answer comes back. *)
Lemma Invoke_calls {Req Resp} `{Codec Req, !CodecLaws Req, !CodecTotal Req, Codec Resp, !CodecLaws Resp, !CodecTotal Resp, Message Resp}
    srv md (method : Req -> S -> outcome Resp) (req : Req) s :
  md ∈ Methods Raft_ServiceDesc ->
  (forall dec, dec Req _ = inl req -> MethodHandler md srv dec None s = boxed (method req s)) ->
  Invoke (RegisterRaftServer srv NewServer) (routed Raft_ServiceDesc (MethodName md)) req s = method req s.
Proof.
  intros Hmd Hm. destruct (marshal_total req) as [b Hb]. unfold RegisterRaftServer.
  rewrite (Invoke_registered _ srv md req b s (proj1 Raft_names_unique) Hmd Hb), Hm; [apply delivered_boxed|].
  unfold received. by rewrite (unmarshal_marshal req b Hb).
Qed.

Context `{!CodecLaws RequestVoteRequest, !CodecTotal RequestVoteRequest, !CodecLaws RequestVoteResponse, !CodecTotal RequestVoteResponse,
          !CodecLaws AppendEntriesRequest, !CodecTotal AppendEntriesRequest, !CodecLaws AppendEntriesResponse, !CodecTotal AppendEntriesResponse,
          !CodecLaws TimeoutNowRequest, !CodecTotal TimeoutNowRequest, !CodecLaws TimeoutNowResponse, !CodecTotal TimeoutNowResponse}.

Lemma RequestVote_stub srv req s :
  raftClient_RequestVote (RegisterRaftServer srv NewServer) req s = RequestVote srv req s.
Proof.
  unfold raftClient_RequestVote. rewrite repack.
  apply (Invoke_calls srv (mkMethodDesc "RequestVote" Raft_RequestVote_Handler)); [left|].
  intros dec Hdec. cbn. unfold Raft_RequestVote_Handler. by rewrite Hdec.
Qed.

Lemma AppendEntries_stub srv req s :
  raftClient_AppendEntries (RegisterRaftServer srv NewServer) req s = AppendEntries srv req s.
Proof.
  unfold raftClient_AppendEntries. rewrite repack.
  apply (Invoke_calls srv (mkMethodDesc "AppendEntries" Raft_AppendEntries_Handler)); [right; left|].
  intros dec Hdec. cbn. unfold Raft_AppendEntries_Handler. by rewrite Hdec.
Qed.

Lemma TimeoutNow_stub srv req s :
  raftClient_TimeoutNow (RegisterRaftServer srv NewServer) req s = TimeoutNow srv req s.
Proof.
  unfold raftClient_TimeoutNow. rewrite repack.
  apply (Invoke_calls srv (mkMethodDesc "TimeoutNow" Raft_TimeoutNow_Handler)); [right; right; left|].
  intros dec Hdec. cbn. unfold Raft_TimeoutNow_Handler. by rewrite Hdec.
Qed.

Lemma InstallSnapshot_stub srv msgs s :
  raftClient_InstallSnapshot (RegisterRaftServer srv NewServer) msgs s = InstallSnapshot srv msgs s.
Proof.
  unfold raftClient_InstallSnapshot, RegisterRaftServer. cbn [Streams Raft_ServiceDesc lookup list_lookup].
  by apply (NewStream_registered _ srv (mkStreamDesc "InstallSnapshot" Raft_InstallSnapshot_Handler true) _ msgs s
    (proj2 Raft_names_unique)); [left|].
Qed.

(** *** The server of internal/transport, registered by cmd/edgekv *)
Section Groups.
Context {Handler : Type}.
Context (HandleRequestVote : Handler -> RequestVoteRequest -> res (Handler * RequestVoteResponse)).
Context (HandleAppendEntries : Handler -> AppendEntriesRequest -> res (Handler * AppendEntriesResponse)).
Context (HandleInstallSnapshot : Handler -> InstallSnapshotRequest -> res (Handler * InstallSnapshotResponse)).
Context (HandleTimeoutNow : Handler -> TimeoutNowRequest -> res (Handler * TimeoutNowResponse)).
Context (Resolve : S -> N -> option Handler) (Update : N -> Handler -> S -> S).

Definition method_outcome {A} (r : res (S * (A + rpcError))) : outcome A :=
  '(s, out) ← r; Ok (s, match out with inl a => inl a | inr err => inr (MethodError err) end).

Definition transport_Server : RaftServer := {|
  RequestVote req s := method_outcome (RequestVote_serve HandleRequestVote S Resolve Update req s);
  AppendEntries req s := method_outcome (AppendEntries_serve HandleAppendEntries S Resolve Update req s);
  InstallSnapshot '(msgs, eof) s := method_outcome (InstallSnapshot_serve HandleInstallSnapshot S Resolve Update msgs eof s);
  TimeoutNow req s := method_outcome (TimeoutNow_serve HandleTimeoutNow S Resolve Update req s);
|}.

(** One RPC from stub to group: over a connection to a process that registered
    internal/transport's server, each of the four calls of the client runs the handler of
    the same name, of the group its request names, once, on the request as it was sent, and
    returns that handler's answer or [codes.NotFound]; a snapshot sent in chunks is one
    request for the handler. *)
Theorem rpcs_reach_their_group :
  let cc := RegisterRaftServer transport_Server NewServer in
  (forall req s, raftClient_RequestVote cc req s =
    method_outcome (serve S Resolve Update HandleRequestVote (rv_Group req) req s)) /\
  (forall req s, raftClient_AppendEntries cc req s =
    method_outcome (serve S Resolve Update HandleAppendEntries (ae_Group req) req s)) /\
  (forall req s, raftClient_TimeoutNow cc req s =
    method_outcome (serve S Resolve Update HandleTimeoutNow (tn_Group req) req s)) /\
  (forall req s, raftClient_InstallSnapshot cc (snapshot_messages req, true) s =
    method_outcome (serve S Resolve Update HandleInstallSnapshot (is_Group req) req s)).
Proof.
  intros cc. subst cc. split_and!; intros req s.
  - by rewrite RequestVote_stub.
  - by rewrite AppendEntries_stub.
  - by rewrite TimeoutNow_stub.
  - rewrite InstallSnapshot_stub. cbn [InstallSnapshot transport_Server]. by rewrite InstallSnapshot_serve_whole.
Qed.
End Groups.
End Laws.

(** ** The laws can hold

    A server that keeps the last service registered on it and looks methods and streams
    up by their full names. *)
Definition loopback : Grpc := {|
  Server := option (ServiceDesc * RaftServer);
  NewServer := None;
  RegisterService desc srv _ := Some (desc, srv);
  Invoke Req Resp _ _ _ cc name req s :=
    match cc, marshal req with
    | Some (desc, srv), Some b =>
        match list_find (fun md => routed desc (MethodName md) = name) (Methods desc) with
        | Some (_, md) => '(s, out) ← MethodHandler md srv (received b) None s; Ok (s, delivered out)
        | None => Ok (s, inr (Unimplemented "unknown method"))
        end
    | Some _, None => Ok (s, inr ErrCodec)
    | None, _ => Ok (s, inr (Unimplemented "unknown service"))
    end;
  NewStream cc _ name msgs s :=
    match cc with
    | Some (desc, srv) =>
        match list_find (fun sd => routed desc (StreamName sd) = name) (Streams desc) with
        | Some (_, sd) => StreamHandler sd srv msgs s
        | None => Ok (s, inr (Unimplemented "unknown method"))
        end
    | None => Ok (s, inr (Unimplemented "unknown service"))
    end;
|}.

Lemma routed_inj desc m m' : routed desc m = routed desc m' -> m = m'.
Proof. unfold routed. intros Heq. by simplify_eq. Qed.

Lemma list_find_named {A} (name : A -> string) desc l a :
  NoDup (name <$> l) -> a ∈ l -> exists i, list_find (fun x => routed desc (name x) = routed desc (name a)) l = Some (i, a).
Proof.
  intros Hnd Ha. destruct (list_find_elem_of (fun x => routed desc (name x) = routed desc (name a)) l a Ha eq_refl) as [[i x] Hx].
  exists i. rewrite Hx. apply list_find_Some in Hx as (Hi & Hr & _). apply routed_inj in Hr.
  apply list_elem_of_lookup in Ha as [j Hj]. repeat f_equal.
  assert (i = j) as -> by (eapply (NoDup_lookup (name <$> l)); [done|rewrite list_lookup_fmap, Hi; cbn; by rewrite Hr|by rewrite list_lookup_fmap, Hj]).
  congruence.
Qed.

#[local] Instance loopback_laws : @GrpcLaws loopback.
Proof.
  split.
  - intros Req Resp ??? desc srv md req b s Hnd Hmd Hb. cbn. rewrite Hb.
    by destruct (list_find_named MethodName desc _ _ Hnd Hmd) as [i ->].
  - intros desc srv sd sd' msgs s Hnd Hsd _. cbn.
    by destruct (list_find_named StreamName desc _ _ Hnd Hsd) as [i ->].
Qed.
End Stubs.
