(* ===== verification/MemNet.v ===== *)
(** * The in-process network of the tests (internal/raft/memnet.go)

    Nodes register a handler; links can be cut, nodes taken down, messages dropped
    and delayed. What is random in the code (whether a message is dropped, how
    long it is delayed) and whether the caller's context ends first are inputs. *)

From Stdlib Require Import QArith.
From S2P Require Import Prelude.

#[local] Open Scope N_scope.

Inductive netError := errUnreachable | errContext.

(** The random numbers one call of [deliver] draws, and whether its context ends
    before the delay is over. *)
Record luck := mkLuck {
  lk_float : Q;      (* rand.Float64() *)
  lk_ended : bool;
}.

Section MemNet.
Context {Handler : Type}.

Record MemNetwork := mkMemNetwork {
  handlers : gmap string Handler;
  down : gmap string bool;
  blocked : gmap (string * string) bool;
  dropRate : Q;
  minDelay : Z;
  maxDelay : Z;
}.

#[global] Instance eta_MemNetwork : Eta MemNetwork := fun n =>
  mkMemNetwork (handlers n) (down n) (blocked n) (dropRate n) (minDelay n) (maxDelay n).

Definition NewMemNetwork : MemNetwork := mkMemNetwork ∅ ∅ ∅ 0 0 0.

Definition Register (id : string) (h : Handler) (n : MemNetwork) : MemNetwork :=
  n <| handlers := <[id := h]> (handlers n) |>.

Definition SetDown (id : string) (isDown : bool) (n : MemNetwork) : MemNetwork :=
  n <| down := <[id := isDown]> (down n) |>.

Definition block_pair (m : gmap (string * string) bool) (xy : string * string) : gmap (string * string) bool :=
  <[(xy.2, xy.1) := true]> (<[(xy.1, xy.2) := true]> m).

Definition Partition (a b : list string) (n : MemNetwork) : MemNetwork :=
  n <| blocked := foldl block_pair (blocked n) (x ← a; y ← b; [(x, y)]) |>.

Definition Heal (n : MemNetwork) : MemNetwork := n <| blocked := ∅ |>.

Definition SetUnreliable (rate : Q) (minD maxD : Z) (n : MemNetwork) : MemNetwork :=
  n <| dropRate := rate |> <| minDelay := minD |> <| maxDelay := maxD |>.

(** A missing key of a Go map reads as [false]. *)
Definition flag {K} `{Countable K} (m : gmap K bool) (k : K) : bool := default false (m !! k).

Definition cut (src dst : string) (n : MemNetwork) : bool :=
  flag (down n) src || flag (down n) dst || flag (blocked n) (src, dst).

(** [deliver]: the handler that receives the message, or the error the caller gets. *)
Definition deliver (l : luck) (src dst : string) (n : MemNetwork) : res (Handler + netError) :=
  match handlers n !! dst with
  | None => Ok (inr errUnreachable)
  | Some h =>
      if cut src dst n || (negb (Qle_bool (dropRate n) 0) && negb (Qle_bool (dropRate n) (lk_float l))) then Ok (inr errUnreachable)
      else if (0 <? maxDelay n)%Z then
        if (maxDelay n - minDelay n + 1 <=? 0)%Z then Panic "invalid argument to Int64N"
        else Ok (if lk_ended l then inr errContext else inl h)
      else Ok (inl h)
  end.

Definition replyPath (l : luck) (src dst : string) (n : MemNetwork) : res (option netError) :=
  r ← deliver l dst src n;
  Ok (match r with inl _ => None | inr err => Some err end).

(** [call]: the request reaches the handler, which acts on it; then the answer travels
    back. *)
Definition call {Req Resp} (there back : luck) (fn : Handler -> Req -> res (Handler * Resp)) (src dst : string) (req : Req)
    (n : MemNetwork) : res (MemNetwork * (Resp + netError)) :=
  r ← deliver there src dst n;
  match r with
  | inr err => Ok (n, inr err)
  | inl h =>
      '(h, resp) ← fn h req;
      let n := Register dst h n in
      lost ← replyPath back src dst n;
      Ok (n, match lost with Some err => inr err | None => inl resp end)
  end.

(** ** Properties *)
Lemma block_pair_mono m xy k : flag m k = true -> flag (block_pair m xy) k = true.
Proof.
  unfold block_pair, flag. intros Hk. destruct (decide ((xy.2, xy.1) = k)) as [<-|]; [by rewrite lookup_insert_eq|].
  rewrite lookup_insert_ne by done. destruct (decide ((xy.1, xy.2) = k)) as [<-|]; [by rewrite lookup_insert_eq|].
  by rewrite lookup_insert_ne.
Qed.

Lemma block_pair_new m x y : flag (block_pair m (x, y)) (x, y) = true /\ flag (block_pair m (x, y)) (y, x) = true.
Proof.
  unfold block_pair, flag. cbn. split; [|by rewrite lookup_insert_eq].
  destruct (decide ((y, x) = (x, y))) as [->|]; [by rewrite lookup_insert_eq|]. rewrite lookup_insert_ne by done. by rewrite lookup_insert_eq.
Qed.

Lemma block_fold l : forall m k, flag m k = true -> flag (foldl block_pair m l) k = true.
Proof. induction l as [|xy l IH]; intros m k Hk; [done|]. apply IH. by apply block_pair_mono. Qed.

Lemma block_all l : forall m x y, (x, y) ∈ l ->
  flag (foldl block_pair m l) (x, y) = true /\ flag (foldl block_pair m l) (y, x) = true.
Proof.
  induction l as [|xy l IH]; intros m x y Hin; [by apply elem_of_nil in Hin|].
  apply elem_of_cons in Hin as [<-|Hin]; [|by apply IH]. destruct (block_pair_new m x y). cbn. split; by apply block_fold.
Qed.

(** A partition cuts every link between its two sides, in both directions, for requests and
    answers alike, whatever else is configured: no handler acts on such a call. *)
Theorem partition_cuts_both_ways {Req Resp} there back (fn : Handler -> Req -> res (Handler * Resp)) a b x y req n :
  x ∈ a -> y ∈ b ->
  call there back fn x y req (Partition a b n) = Ok (Partition a b n, inr errUnreachable) /\
  call there back fn y x req (Partition a b n) = Ok (Partition a b n, inr errUnreachable).
Proof.
  intros Ha Hb.
  assert (Hin : (x, y) ∈ (x ← a; y ← b; [(x, y)])).
  { apply list_elem_of_bind. exists x. split; [|done]. apply list_elem_of_bind. exists y. split; [|done]. by apply list_elem_of_singleton. }
  destruct (block_all _ (blocked n) x y Hin) as [H1 H2].
  assert (Hcut : cut x y (Partition a b n) = true /\ cut y x (Partition a b n) = true).
  { unfold cut. cbn. by rewrite H1, H2, !orb_true_r. }
  destruct Hcut as [Hc1 Hc2].
  split; unfold call, deliver; (destruct (handlers _ !! _); [|done]); by rewrite ?Hc1, ?Hc2.
Qed.

(** A call runs the handler at most once: it either never reached it, and changed nothing, or
    the handler acted on the request exactly once, even if the caller only sees an error. *)
Theorem call_runs_handler_at_most_once {Req Resp} there back (fn : Handler -> Req -> res (Handler * Resp)) src dst req n n' out :
  call there back fn src dst req n = Ok (n', out) ->
  (n' = n /\ exists err, out = inr err) \/
  exists h h' resp, handlers n !! dst = Some h /\ fn h req = Ok (h', resp) /\ n' = Register dst h' n /\
    (out = inl resp \/ exists err, out = inr err).
Proof.
  unfold call. intros Hc. apply bind_Ok in Hc as (r & Hd & Hc). destruct r as [h|err].
  - right. apply bind_Ok in Hc as ([h' resp] & Hf & Hc). apply bind_Ok in Hc as (lost & _ & Hc). injection Hc as <- <-.
    exists h, h', resp. split_and!; try done; [|destruct lost; eauto].
    unfold deliver in Hd. destruct (handlers n !! dst) as [h0|]; [|done]. repeat case_match; by simplify_eq.
  - left. injection Hc as <- <-. eauto.
Qed.
End MemNet.
Arguments MemNetwork Handler : clear implicits.

(** Two nodes whose state counts the requests they acted on. *)
Definition demo_net : MemNetwork nat := Register "a" 0%nat (Register "b" 0%nat NewMemNetwork).
Definition demo_count (n : nat) (req : unit) : res (nat * nat) := Ok (S n, n).
Definition demo_luck : luck := mkLuck 0 false.

Lemma partition_cuts_both_ways_witness :
  call demo_luck demo_luck demo_count "a" "b" tt (Partition ["a"] ["b"; "c"] demo_net)
    = Ok (Partition ["a"] ["b"; "c"] demo_net, inr errUnreachable) /\
  call demo_luck demo_luck demo_count "b" "a" tt (Partition ["a"] ["b"; "c"] demo_net)
    = Ok (Partition ["a"] ["b"; "c"] demo_net, inr errUnreachable).
Proof. apply (partition_cuts_both_ways demo_luck demo_luck demo_count ["a"] ["b"; "c"] "a" "b" tt demo_net); by left. Defined.

(** The answer is lost on the way back, but [b] has acted. *)
Lemma call_runs_handler_at_most_once_witness :
  let n := Register "b" 0%nat NewMemNetwork in
  call demo_luck demo_luck demo_count "a" "b" tt n = Ok (Register "b" 1%nat n, inr errUnreachable) /\
  ((Register "b" 1%nat n = n /\ exists err, inr errUnreachable = @inr nat netError err) \/
   exists h h' resp, handlers n !! "b" = Some h /\ demo_count h tt = Ok (h', resp) /\ Register "b" 1%nat n = Register "b" h' n /\
    (inr errUnreachable = inl resp \/ exists err, inr errUnreachable = @inr nat netError err)).
Proof.
  intros n. split; [by vm_compute|].
  apply (call_runs_handler_at_most_once demo_luck demo_luck demo_count "a" "b" tt n). by vm_compute.
Defined.
