(* ===== verification/Node.v ===== *)
(** * A node: one replica of every shard (internal/node)

    [Node] hosts one Raft replica per shard, routes keys to shards and RPCs to groups,
    and hands leadership back to a shard's preferred node. The calls that wait
    (Propose, ReadIndex) are split where they wait: what is handed to the shard before, and
    what is done with the answer after. *)

From S2P Require Import Prelude Types GoStrings Shard Store RaftLog Storage Raft RaftFacts Cluster Run Replica.

Record NodeConfig := mkNodeConfig {
  nc_ID : string;
  nc_Peers : list string;
  nc_NumShards : Z;
  nc_SnapshotThreshold : N;
  nc_HeartbeatInterval : Z;
  nc_ElectionTimeoutMin : Z;
  nc_ElectionTimeoutMax : Z;
  nc_RebalanceInterval : Z;
}.

Inductive nodeError :=
| ErrNumShards
| ErrOpenShard (i : N)
| ErrStartShard (i : N) (err : raftError).

(** What a read can fail with. *)
Inductive readError :=
| ReadRaft (err : raftError)
| ReadContext                 (* the caller's context ended *)
| ReadStore (err : error).

Section Node.
Context {S : Type} `{Storage S} `{StateMachine Store} `{Codec Command} `{Codec Result}.

#[local] Abbreviation Raft := (Raft S Store).

(** The replica's store is the state machine of its Raft instance: both are pointers
    to the same object. *)
Record Shard := mkShard {
  sh_ID : N;
  sh_Raft : Raft;
}.
Definition sh_Store (s : Shard) : Store := machine (sh_Raft s).

#[global] Instance eta_Shard : Eta Shard := fun s => mkShard (sh_ID s) (sh_Raft s).

Record Node := mkNode {
  no_cfg : NodeConfig;
  no_peers : list string;
  no_shards : list Shard;
}.

#[global] Instance eta_Node : Eta Node := fun n => mkNode (no_cfg n) (no_peers n) (no_shards n).

(** ** Construction *)
Definition shardDir (i : N) : string := "shard-" +:+ FormatUint i.

Definition raftConfig (c : NodeConfig) (id : N) : Config :=
  mkConfig (nc_ID c) id (nc_Peers c) (nc_ElectionTimeoutMin c) (nc_ElectionTimeoutMax c) (nc_HeartbeatInterval c) 0
    (nc_SnapshotThreshold c) 0 0.

(** The loop over the shards that are left. On failure it also returns the shards whose
    storage is closed again. *)
Fixpoint New_loop (open : string -> option S) (c : NodeConfig) (todo : nat) (shards : list Shard) :
    res (list Shard + nodeError * list N) :=
  match todo with
  | O => Ok (inl shards)
  | Datatypes.S todo =>
      let i := lenN shards in
      match open (shardDir i) with
      | None => Ok (inr (ErrOpenShard i, sh_ID <$> shards))
      | Some st =>
          r ← New (raftConfig c (u32 i)) st Store.New;
          match r with
          | inr err => Ok (inr (ErrStartShard i err, u32 i :: (sh_ID <$> shards)))
          | inl r => New_loop open c todo (shards ++ [mkShard (u32 i) r])
          end
      end
  end.

Definition Node_New (open : string -> option S) (c : NodeConfig) : res (Node + nodeError * list N) :=
  if (nc_NumShards c <=? 0)%Z then Ok (inr (ErrNumShards, []))
  else
    r ← New_loop open c (Z.to_nat (nc_NumShards c)) [];
    Ok (match r with
        | inl shards => inl (mkNode c (sort_strings (nc_Peers c)) shards)
        | inr err => inr err
        end).

Definition Node_Start (env : Env) (n : Node) : Node :=
  n <| no_shards := (fun s => s <| sh_Raft := Start env (sh_Raft s) |>) <$> no_shards n |>.

Definition Node_Stop (n : Node) : Node :=
  n <| no_shards := (fun s => s <| sh_Raft := Stop (sh_Raft s) |>) <$> no_shards n |>.

(** ** Routing *)
Definition Handler (group : N) (n : Node) : option Raft := sh_Raft <$> no_shards n !! N.to_nat group.

Definition NumShards (n : Node) : nat := length (no_shards n).

(** One incoming RPC: to the group it names, or the zero answer if that is not hosted. *)
Definition dispatch {Req Resp} (zero : Resp) (handle : Req -> Raft -> res (Raft * Resp)) (group : N) (req : Req) (n : Node) :
    res (Node * Resp) :=
  match Handler group n with
  | None => Ok (n, zero)
  | Some r =>
      '(r, resp) ← handle req r;
      Ok (n <| no_shards := alter (fun s => s <| sh_Raft := r |>) (N.to_nat group) (no_shards n) |>, resp)
  end.

Definition Dispatch_RequestVote (env : Env) (req : RequestVoteRequest) : Node -> res (Node * RequestVoteResponse) :=
  dispatch (mkRequestVoteResponse 0 false) (HandleRequestVote env) (rv_Group req) req.
Definition Dispatch_AppendEntries (env : Env) (req : AppendEntriesRequest) : Node -> res (Node * AppendEntriesResponse) :=
  dispatch (mkAppendEntriesResponse 0 false 0 0) (HandleAppendEntries env) (ae_Group req) req.
Definition Dispatch_InstallSnapshot (env : Env) (req : InstallSnapshotRequest) : Node -> res (Node * InstallSnapshotResponse) :=
  dispatch (mkInstallSnapshotResponse 0) (HandleInstallSnapshot env) (is_Group req) req.
Definition Dispatch_TimeoutNow (req : TimeoutNowRequest) : Node -> res (Node * (TimeoutNowResponse * bool)) :=
  dispatch (mkTimeoutNowResponse 0, false)
    (fun req r => let '(r, resp, started) := HandleTimeoutNow req r in Ok (r, (resp, started))) (tn_Group req) req.

Definition ShardFor (key : string) (n : Node) : res Shard :=
  i ← ForKey key (Z.of_nat (length (no_shards n)));
  or_panic "index out of range" (no_shards n !! N.to_nat i).

(** ** Operations *)

(** [Write] up to the call of Propose: the shard and the bytes proposed to it; [None] if the
    command cannot be encoded. *)
Definition Write_prepare (nowMs : Z) (cmd : Command) (n : Node) : res (option (Shard * bytes)) :=
  match marshal (cmd <| cmd_TimestampUnixMs := nowMs |>) with
  | None => Ok None
  | Some d => s ← ShardFor (cmd_Key cmd) n; Ok (Some (s, d))
  end.

(** [Write] after Propose has returned a result. *)
Definition Write_finish (out : bytes) : option Result := unmarshal out.

(** The loop of [Get] around ReadIndex: its answers in order ([None]: no error), until the
    context ends. *)
Fixpoint Get_loop (answers : list (option raftError)) : option readError :=
  match answers with
  | [] => Some ReadContext
  | None :: _ => None
  | Some err :: answers => if bool_decide (err = ErrNotReady) then Get_loop answers else Some (ReadRaft err)
  end.

(** [Get]: [n] is the node when the last ReadIndex has returned. *)
Definition Node_Get (answers : list (option raftError)) (key : string) (n : Node) : res (ReadEntry + readError) :=
  s ← ShardFor key n;
  Ok (match Get_loop answers with
      | Some err => inr err
      | None => match Get (sh_Store s) key with inl e => inl e | inr err => inr (ReadStore err) end
      end).

(** ** Preferred leaders *)
Definition PreferredLeader (shardID : N) (n : Node) : res string :=
  if (length (no_peers n) =? 0)%nat then Panic "integer divide by zero"
  else or_panic "index out of range" (no_peers n !! (N.to_nat shardID `mod` length (no_peers n))%nat).

(** One shard in one round of the rebalancer: the node to hand leadership to, if any. *)
Definition rebalance_shard (n : Node) (s : Shard) : res (option string) :=
  preferred ← PreferredLeader (sh_ID s) n;
  let st := statusLocked (sh_Raft s) in
  if negb (bool_decide (st_State st = Leader)) || bool_decide (preferred = nc_ID (no_cfg n)) then Ok None
  else
    match st_MatchIndex st !! preferred with
    | None => Ok None
    | Some m => Ok (if 64 <? u64_sub (st_LastLogIndex st) m then None else Some preferred)
    end.

(** ** Invariant: shard [i] is at position [i] and takes part in group [i] *)
Definition shards_ok (l : list Shard) : Prop :=
  forall i s, l !! i = Some s -> sh_ID s = N.of_nat i /\ Group (cfg (sh_Raft s)) = N.of_nat i.

Record node_wf (n : Node) : Prop := {
  wf_shards : shards_ok (no_shards n);
  wf_some : (0 < length (no_shards n))%nat;
  wf_width : lenN (no_shards n) < u32_modulus;
}.

Lemma New_config c st sm r : New c st sm = Ok (inl r) -> Group (cfg r) = Group c.
Proof.
  unfold New. destruct (setDefaults c) as [c'|] eqn:Hc; [|done]. destruct (Load st) as [[l|] st']; [|done].
  destruct (match ld_HardState l with Some hs => _ | None => _ end) as [t v].
  destruct (match ld_SnapshotMeta l with Some _ => _ | None => _ end) as [[l0 sm']|]; [|done].
  intros Hb. apply bind_Ok in Hb as (l1 & _ & Hb). injection Hb as <-. cbn.
  unfold setDefaults in Hc. repeat case_match; by simplify_eq.
Qed.

Lemma shards_ok_snoc l s : shards_ok l -> sh_ID s = lenN l -> Group (cfg (sh_Raft s)) = lenN l -> shards_ok (l ++ [s]).
Proof.
  intros Hl Hi Hg i x Hx. apply lookup_app_Some in Hx as [Hx|[Hle Hx]]; [by apply Hl|].
  apply list_lookup_singleton_Some in Hx as [Hz <-]. unfold lenN in *. assert (i = length l) as -> by lia. done.
Qed.

Lemma New_loop_ok open c todo : forall shards shards',
  shards_ok shards -> lenN shards + N.of_nat todo < u32_modulus -> New_loop open c todo shards = Ok (inl shards') ->
  shards_ok shards' /\ lenN shards' = lenN shards + N.of_nat todo.
Proof.
  induction todo as [|todo IH]; intros shards shards' Hok Hw Hb; cbn [New_loop] in Hb.
  { injection Hb as <-. split; [done|lia]. }
  destruct (open _) as [st|]; [|done]. apply bind_Ok in Hb as ([r|err] & Hn & Hb); [|done].
  assert (Hi : u32 (lenN shards) = lenN shards) by (apply N.mod_small; lia). rewrite Hi in *.
  destruct (IH (shards ++ [mkShard (lenN shards) r]) shards') as [H1' H2']; [| |done|].
  - apply shards_ok_snoc; [done|done|]. cbn. by rewrite (New_config _ _ _ _ Hn).
  - rewrite lenN_app. unfold lenN in *. cbn [length]. lia.
  - split; [done|]. rewrite H2', lenN_app. unfold lenN. cbn [length]. lia.
Qed.
Lemma Node_New_ok open c n :
  (nc_NumShards c < 2 ^ 32)%Z -> Node_New open c = Ok (inl n) ->
  node_wf n /\ no_cfg n = c /\ no_peers n = sort_strings (nc_Peers c) /\ Z.of_nat (NumShards n) = nc_NumShards c.
Proof.
  intros Hw. unfold Node_New, NumShards. destruct (Z.leb_spec (nc_NumShards c) 0) as [|Hpos]; [done|].
  intros Hb. apply bind_Ok in Hb as ([shards|err] & Hl & Hb); [|done]. injection Hb as <-.
  apply New_loop_ok in Hl as [Hok Hlen]; [|by intros i s Hi|rewrite lenN_nil; change u32_modulus with (Z.to_N (2 ^ 32)); lia].
  rewrite lenN_nil, N.add_0_l in Hlen. unfold lenN in Hlen.
  split_and!; [|done|done|cbn; lia]. split; cbn; [done|lia|]. unfold lenN. change u32_modulus with (Z.to_N (2 ^ 32)). lia.
Qed.

(** Every key is owned by exactly one of the shards a node hosts: routing it never fails,
    and the shard it finds takes part in the Raft group with the number [ForKey] computes,
    which is the same on every node with that number of shards. *)
Theorem ShardFor_total open c n key :
  (nc_NumShards c < 2 ^ 32)%Z -> Node_New open c = Ok (inl n) ->
  exists s, ShardFor key n = Ok s /\ ForKey key (nc_NumShards c) = Ok (sh_ID s) /\ Group (cfg (sh_Raft s)) = sh_ID s /\
    Handler (sh_ID s) n = Some (sh_Raft s).
Proof.
  intros Hw Hn. destruct (Node_New_ok open c n Hw Hn) as ([Hok Hpos Hlen] & _ & _ & Hnum).
  unfold ShardFor. unfold NumShards in Hnum. rewrite Hnum. destruct (ForKey_total key (nc_NumShards c) Hw) as (i & Hf & Hi).
  rewrite Hf. cbn. destruct (lookup_lt_is_Some_2 (no_shards n) (N.to_nat i)) as [s Hs]; [lia|].
  exists s. rewrite Hs. destruct (Hok _ _ Hs) as [Hid Hg]. rewrite N2Nat.id in Hid, Hg. split_and!; [done|congruence|congruence|].
  unfold Handler. by rewrite Hid, Hs.
Qed.

(** Groups do not interfere: an RPC for a group the node does not host changes nothing and gets the
    zero answer; an RPC for a hosted group runs that group's handler once and leaves every
    other replica of the node exactly as it was. *)
Theorem dispatch_touches_one_group {Req Resp} (zero : Resp) (handle : Req -> Raft -> res (Raft * Resp)) group req n n' resp :
  dispatch zero handle group req n = Ok (n', resp) ->
  (Handler group n = None /\ n' = n /\ resp = zero) \/
  exists r r', Handler group n = Some r /\ handle req r = Ok (r', resp) /\ Handler group n' = Some r' /\
    NumShards n' = NumShards n /\ forall g, g <> group -> no_shards n' !! N.to_nat g = no_shards n !! N.to_nat g.
Proof.
  unfold dispatch. destruct (Handler group n) as [r|] eqn:Hh; [|intros [= <- <-]; by left].
  intros Hb. apply bind_Ok in Hb as ([r' resp'] & Hr & Hb). injection Hb as <- <-. right. exists r, r'.
  unfold Handler in Hh. apply fmap_Some in Hh as (s & Hs & ->).
  split_and!; [done|done| | |].
  - unfold Handler. cbn. by rewrite list_lookup_alter_eq, Hs.
  - unfold NumShards. cbn. apply length_alter.
  - intros g Hg. cbn. apply list_lookup_alter_ne. lia.
Qed.

(** All nodes agree on preferred leaders: whatever the order in which their configurations list the
    members, two nodes prefer the same member as the leader of a shard. *)
Theorem PreferredLeader_agrees open open' c c' n n' shardID :
  Node_New open c = Ok (inl n) -> Node_New open' c' = Ok (inl n') -> nc_Peers c ≡ₚ nc_Peers c' ->
  PreferredLeader shardID n = PreferredLeader shardID n' /\
  (nc_Peers c <> [] -> exists p, PreferredLeader shardID n = Ok p /\ p ∈ nc_Peers c).
Proof.
  assert (Hpeers : forall open c n, Node_New open c = Ok (inl n) -> no_peers n = sort_strings (nc_Peers c)).
  { intros op cc m. unfold Node_New. case_match; [done|]. intros Hb. apply bind_Ok in Hb as ([?|?] & _ & Hb); [|done].
    by injection Hb as <-. }
  intros Hn Hn' Hp. unfold PreferredLeader. rewrite (Hpeers _ _ _ Hn), (Hpeers _ _ _ Hn'), (sort_strings_unique _ _ Hp). split; [done|].
  intros Hne. destruct (Nat.eqb_spec (length (sort_strings (nc_Peers c'))) 0) as [Hz|Hz].
  { destruct Hne. apply nil_length_inv. by rewrite Hp, <- sort_strings_perm. }
  destruct (lookup_lt_is_Some_2 (sort_strings (nc_Peers c')) (N.to_nat shardID `mod` length (sort_strings (nc_Peers c')))) as [p Hlk];
    [by apply Nat.mod_upper_bound|].
  exists p. rewrite Hlk. split; [done|]. rewrite Hp, <- sort_strings_perm. by eapply list_elem_of_lookup_2.
Qed.

(** Whom the rebalancer hands a shard to. *)
Lemma rebalance_shard_target n s p : rebalance_shard n s = Ok (Some p) -> PreferredLeader (sh_ID s) n = Ok p /\ p <> nc_ID (no_cfg n).
Proof.
  unfold rebalance_shard. intros Hb. apply bind_Ok in Hb as (q & Hq & Hb). destruct (negb _ || _) eqn:Hg; [done|].
  apply orb_false_iff in Hg as [_ Hne%bool_decide_eq_false]. destruct (_ !! q); [|done]. case_match; by simplify_eq.
Qed.

(** The rebalancer only ever hands leadership over when it holds it, to the shard's preferred member, which is
    another node that is known to be at most 64 entries behind. *)
Theorem rebalance_shard_safe n s p :
  rebalance_shard n s = Ok (Some p) ->
  PreferredLeader (sh_ID s) n = Ok p /\ p <> nc_ID (no_cfg n) /\ state (sh_Raft s) = Leader /\
  exists m, matchIndex (sh_Raft s) !! p = Some m /\
    (m <= lastIndex (rlog (sh_Raft s)) -> lastIndex (rlog (sh_Raft s)) < u64_modulus -> lastIndex (rlog (sh_Raft s)) - m <= 64).
Proof.
  unfold rebalance_shard. intros Hb. apply bind_Ok in Hb as (q & Hq & Hb).
  destruct (negb _ || _) eqn:Hg; [done|]. apply orb_false_iff in Hg as [Hl%negb_false_iff Hne].
  apply bool_decide_eq_true in Hl. apply bool_decide_eq_false in Hne. cbn in Hl, Hb. rewrite bool_decide_true in Hb by done.
  destruct (matchIndex (sh_Raft s) !! q) as [m|] eqn:Hm; [|done].
  destruct (N.ltb_spec 64 (u64_sub (lastIndex (rlog (sh_Raft s))) m)) as [|Hle]; [done|]. injection Hb as <-.
  split_and!; [done..|]. exists m. split; [done|]. intros H1' H2'. by rewrite u64_sub_small in Hle.
Qed.

(** A write reaches the log as the command that was asked for, stamped with the leader's clock, in the shard that
    owns its key: decoding the proposed bytes gives that command back. *)
Theorem Write_proposes_command `{!CodecLaws Command} nowMs cmd n s d :
  Write_prepare nowMs cmd n = Ok (Some (s, d)) ->
  ShardFor (cmd_Key cmd) n = Ok s /\ unmarshal d = Some (cmd <| cmd_TimestampUnixMs := nowMs |>).
Proof.
  unfold Write_prepare. destruct (marshal _) as [d'|] eqn:Hm; [|done]. intros Hb. apply bind_Ok in Hb as (s' & Hs & Hb).
  injection Hb as <- <-. split; [done|]. by apply unmarshal_marshal.
Qed.

End Node.
Arguments Shard S : clear implicits.
Arguments Node S : clear implicits.

(** ** A node with three shards *)
Section Demo.
#[local] Existing Instance kv_command.
#[local] Existing Instance kv_result.
#[local] Existing Instance kv_snapshot.
#[local] Existing Instance kv_machine.

Definition demo_open (dir : string) : option MemStorage := Some NewMemStorage.
Definition demo_nc (peers : list string) : NodeConfig := mkNodeConfig "n1" peers 3 0 0 0 0 0.
Definition demo_node (peers : list string) : Node MemStorage :=
  match Node_New demo_open (demo_nc peers) with Ok (inl n) => n | _ => mkNode (demo_nc peers) [] [] end.

Lemma demo_node_new :
  Node_New demo_open (demo_nc ["n1"; "n2"]) = Ok (inl (demo_node ["n1"; "n2"])) /\
  Node_New demo_open (demo_nc ["n2"; "n1"]) = Ok (inl (demo_node ["n2"; "n1"])).
Proof. by vm_compute. Qed.

#[local] Opaque demo_node.

Lemma ShardFor_total_witness :
  exists s, ShardFor "task:4832:status" (demo_node ["n1"; "n2"]) = Ok s /\ ForKey "task:4832:status" 3 = Ok (sh_ID s) /\
    Group (cfg (sh_Raft s)) = sh_ID s /\ Handler (sh_ID s) (demo_node ["n1"; "n2"]) = Some (sh_Raft s).
Proof.
  exact (ShardFor_total demo_open (demo_nc ["n1"; "n2"]) (demo_node ["n1"; "n2"]) "task:4832:status" eq_refl (proj1 demo_node_new)).
Defined.

Lemma PreferredLeader_agrees_witness :
  PreferredLeader 1 (demo_node ["n1"; "n2"]) = PreferredLeader 1 (demo_node ["n2"; "n1"]) /\
  (["n1"; "n2"] <> [] -> exists p, PreferredLeader 1 (demo_node ["n1"; "n2"]) = Ok p /\ p ∈ ["n1"; "n2"]).
Proof.
  exact (PreferredLeader_agrees demo_open demo_open (demo_nc ["n1"; "n2"]) (demo_nc ["n2"; "n1"]) (demo_node ["n1"; "n2"])
    (demo_node ["n2"; "n1"]) 1 (proj1 demo_node_new) (proj2 demo_node_new) (perm_swap _ _ _)).
Defined.

(** A pre-vote request for group 1, and one for a group that is not hosted. *)
Definition demo_vote (group : N) : RequestVoteRequest := mkRequestVoteRequest group 1 "n2" 0 0 true.
Definition demo_voted : Node MemStorage * RequestVoteResponse :=
  match Dispatch_RequestVote (mkEnv 10000000000 0) (demo_vote 1) (demo_node ["n1"; "n2"]) with
  | Ok x => x
  | Panic _ => (demo_node ["n1"; "n2"], mkRequestVoteResponse 9 false)
  end.

Lemma demo_vote_runs :
  Dispatch_RequestVote (mkEnv 10000000000 0) (demo_vote 1) (demo_node ["n1"; "n2"]) = Ok (demo_voted.1, demo_voted.2) /\
  demo_voted.2 = mkRequestVoteResponse 0 true.
Proof. by vm_compute. Qed.

#[local] Opaque demo_voted.

Lemma dispatch_touches_one_group_witness :
  let handle := HandleRequestVote (mkEnv 10000000000 0) in
  (Handler 1 (demo_node ["n1"; "n2"]) = None /\ demo_voted.1 = demo_node ["n1"; "n2"] /\ demo_voted.2 = mkRequestVoteResponse 0 false) \/
  exists r r', Handler 1 (demo_node ["n1"; "n2"]) = Some r /\ handle (demo_vote 1) r = Ok (r', demo_voted.2) /\
    Handler 1 demo_voted.1 = Some r' /\ NumShards demo_voted.1 = NumShards (demo_node ["n1"; "n2"]) /\
    forall g, g <> 1 -> no_shards demo_voted.1 !! N.to_nat g = no_shards (demo_node ["n1"; "n2"]) !! N.to_nat g.
Proof.
  exact (dispatch_touches_one_group (mkRequestVoteResponse 0 false) (HandleRequestVote (mkEnv 10000000000 0)) 1 (demo_vote 1)
    (demo_node ["n1"; "n2"]) demo_voted.1 demo_voted.2 (proj1 demo_vote_runs)).
Defined.

(** [n1] leads a shard that [n2] should lead and that [n2] has nearly caught up with. *)
Definition demo_lead (s : Shard MemStorage) : Shard MemStorage :=
  mkShard (sh_ID s) ((sh_Raft s) <| state := Leader |> <| matchIndex := {["n2" := 9]} |> <| rlog := mkLog 10 1 [] |>).

Lemma demo_rebalance :
  (fun s => rebalance_shard (demo_node ["n1"; "n2"]) (demo_lead s)) <$> no_shards (demo_node ["n1"; "n2"]) !! 1%nat = Some (Ok (Some "n2")).
Proof. by vm_compute. Qed.

Lemma rebalance_shard_safe_witness :
  exists s : Shard MemStorage, PreferredLeader (sh_ID s) (demo_node ["n1"; "n2"]) = Ok "n2" /\ "n2" <> nc_ID (no_cfg (demo_node ["n1"; "n2"])) /\
    state (sh_Raft s) = Leader /\
    exists m, matchIndex (sh_Raft s) !! "n2" = Some m /\
      (m <= lastIndex (rlog (sh_Raft s)) -> lastIndex (rlog (sh_Raft s)) < u64_modulus -> lastIndex (rlog (sh_Raft s)) - m <= 64).
Proof.
  destruct (no_shards (demo_node ["n1"; "n2"]) !! 1%nat) as [s|] eqn:Hs; [|by vm_compute in Hs]. exists (demo_lead s).
  apply (rebalance_shard_safe (demo_node ["n1"; "n2"]) (demo_lead s) "n2").
  pose proof demo_rebalance as Hr. rewrite Hs in Hr. by injection Hr as Hr.
Defined.

Definition demo_write_cmd : Command := mkCommand OP_PUT "task:4832:status" [Byte.x41] false 0 "r" false 0 0.

Lemma demo_write_prepared :
  exists s d, Write_prepare 7 demo_write_cmd (demo_node ["n1"; "n2"]) = Ok (Some (s, d)).
Proof.
  assert (Hm : match Write_prepare 7 demo_write_cmd (demo_node ["n1"; "n2"]) with Ok (Some _) => true | _ => false end = true) by by vm_compute.
  destruct (Write_prepare _ _ _) as [[[s d]|]|]; [|done..]. by exists s, d.
Qed.

Lemma Write_proposes_command_witness :
  exists s d, ShardFor "task:4832:status" (demo_node ["n1"; "n2"]) = Ok s /\
    unmarshal d = Some (demo_write_cmd <| cmd_TimestampUnixMs := 7%Z |>).
Proof.
  destruct demo_write_prepared as (s & d & Hp). exists s, d.
  exact (Write_proposes_command (CodecLaws0 := countable_codec_laws Command) 7 demo_write_cmd (demo_node ["n1"; "n2"]) s d Hp).
Defined.
End Demo.
