(* ===== verification/Gets.v ===== *)
(** * What a Get returns (internal/node, over internal/store and internal/raft)

    The guarantee a client of the store relies on, composed from the replicas' agreement, the protocol of ReadIndex and the
    state machine: a Get returns the record of every write that was acknowledged before it, or a newer one. *)

From S2P Require Import Prelude Types Store RaftLog Storage Raft RaftFacts Cluster Run Election LogCore LogFacts Agree AgreeSteps Agreement Acknowledge ReadIndex Reader Replica Shard Node.

(** ** Where a result comes from *)
Section Origin.
Context `{Codec Command} `{Codec Result} `{Codec StoreSnapshot} `{!CodecLaws Result}.

(** The record a command leaves at version [v]. *)
Definition wrote (cmd : Command) (v : N) (rec : record) : Prop :=
  version rec = v /\
  match cmd_Op cmd with
  | OP_PUT => value rec = cmd_Value cmd /\ deleted rec = false
  | OP_DELETE => deleted rec = true
  | OP_OTHER _ => False
  end.

Lemma applyLocked_wrote s cmd s' r :
  applyLocked s cmd = Ok (s', r) -> res_Status r = STATUS_OK -> exists rec, data s' !! cmd_Key cmd = Some rec /\ wrote cmd (res_Version r) rec.
Proof.
  unfold applyLocked, wrote. intros Hap Hst. case_match; [by inv_ok|]. destruct (cmd_Op cmd).
  - inv_ok. cbn. rewrite lookup_insert_eq. by eexists.
  - case_match; [by inv_ok|]. destruct (data s !! cmd_Key cmd); [|done]. inv_ok. cbn. rewrite lookup_insert_eq. by eexists.
  - done.
Qed.

(** [log] contains [cmd], and when its entry was applied it was executed, with result [r]. *)
Definition executed (log : list (N * bytes)) (cmd : Command) (r : Result) : Prop :=
  exists l1 i d l2 s outs s1 out s2, log = l1 ++ (i, d) :: l2 /\ unmarshal d = Some cmd /\ run Store.New l1 = Ok (s, outs) /\
    Apply s i d = Ok (s1, out) /\ applyLocked (evictDedupLocked s i) cmd = Ok (s2, r) /\ data s1 = data s2.

Lemma executed_app log l cmd r : executed log cmd r -> executed (log ++ l) cmd r.
Proof.
  intros (l1 & i & d & l2 & s & outs & s1 & out & s2 & -> & Hx). exists l1, i, d, (l2 ++ l), s, outs, s1, out, s2. by rewrite <- app_assoc.
Qed.

(** Applying one more entry: it is executed, or its result is one that is remembered. *)
Lemma Apply_cases log s outs i d (cmd : Command) s' out :
  run Store.New log = Ok (s, outs) -> Apply s i d = Ok (s', out) -> unmarshal d = Some cmd ->
  (exists r, executed (log ++ [(i, d)]) cmd r /\ marshal r = Some out /\
    forall rid e, dedup s' !! rid = Some e -> (rid = cmd_RequestId cmd /\ de_result e = Some r) \/ dedup s !! rid = Some e) \/
  (exists e, cmd_RequestId cmd <> "" /\ dedup s !! cmd_RequestId cmd = Some e /\ marshal (default Result0 (de_result e)) = Some out /\
    forall rid e', dedup s' !! rid = Some e' -> dedup s !! rid = Some e').
Proof.
  intros Hr Hap Hd. pose proof Hap as Hap'. unfold Apply in Hap. rewrite Hd in Hap. unfold applyDeduped in Hap.
  assert (Hev : forall rid e, dedup (evictDedupLocked s i) !! rid = Some e -> dedup s !! rid = Some e).
  { intros rid e. unfold evictDedupLocked. destruct (evict_loop _ _ _ _) as [o t] eqn:Hl. destruct (evict_loop_spec _ _ _ _ _ _ Hl) as (g & _ & _ & _ & Ht).
    cbn. rewrite Ht. destruct (decide _); [done|]. auto. }
  destruct (if bool_decide _ then _ else _) as [prev|] eqn:Hp.
  - right. apply bind_Ok in Hap as (o & Ho & Hap). inv_ok. case_bool_decide as Hid; [done|]. exists prev.
    split_and!; [done|by apply Hev| |done]. by apply or_panic_Ok in Ho.
  - left. apply bind_Ok in Hap as ([s2 r] & Hal & Hap). apply bind_Ok in Hap as (o & Ho & Hap). exists r. split_and!.
    + exists log, i, d, [], s, outs, s', out, s2. split_and!; try done. injection Hap as <- _. by case_bool_decide.
    + injection Hap as _ <-. by apply or_panic_Ok in Ho.
    + injection Hap as <- _. destruct (applyLocked_frame _ _ _ _ Hal) as (Hdd & _). intros rid e. case_bool_decide; cbn.
      * rewrite Hdd. right. by apply Hev.
      * rewrite lookup_insert_Some, Hdd. intros [[<- <-]|[_ He]]; [by left|right; by apply Hev].
Qed.

Lemma run_app_Ok l1 l2 s s2 outs :
  run s (l1 ++ l2) = Ok (s2, outs) -> exists s1 o1 o2, run s l1 = Ok (s1, o1) /\ run s1 l2 = Ok (s2, o2).
Proof.
  rewrite run_app. intros Hb. apply bind_Ok in Hb as ([s1 o1] & H1' & Hb). apply bind_Ok in Hb as ([s3 o2] & H2' & Hb). inv_ok. by exists s1, o1, o2.
Qed.

Lemma run_one_Ok i d l s s2 outs :
  run s ((i, d) :: l) = Ok (s2, outs) -> exists s1 out o2, Apply s i d = Ok (s1, out) /\ run s1 l = Ok (s2, o2).
Proof. cbn [run]. intros Hb. apply bind_Ok in Hb as ([s1 o1] & H1' & Hb). apply bind_Ok in Hb as ([s3 o2] & H2' & Hb). inv_ok. by exists s1, o1, o2. Qed.

Lemma Apply_decodes s i d s' out : Apply s i d = Ok (s', out) -> exists cmd : Command, unmarshal d = Some cmd.
Proof. unfold Apply. destruct (unmarshal d) as [cmd|]; [by exists cmd|done]. Qed.

(** Every remembered result is that of a command that was executed. *)
Lemma remembered_executed log : forall s outs rid e,
  run Store.New log = Ok (s, outs) -> dedup s !! rid = Some e ->
  exists r cmd, de_result e = Some r /\ cmd_RequestId cmd = rid /\ executed log cmd r.
Proof.
  induction log as [|[i d] log IH] using rev_ind; intros s outs rid e Hr He.
  { injection Hr as <- _. done. }
  apply run_app_Ok in Hr as (s1 & o1 & o2 & H1' & H2'). apply run_one_Ok in H2' as (s2 & out & o3 & Hap & [= -> _]).
  destruct (Apply_decodes _ _ _ _ _ Hap) as [cmd Hd].
  assert (Hold : dedup s1 !! rid = Some e -> exists r cmd, de_result e = Some r /\ cmd_RequestId cmd = rid /\ executed (log ++ [(i, d)]) cmd r).
  { intros Hs1. destruct (IH _ _ _ _ H1' Hs1) as (r & cmd' & ? & ? & ?). exists r, cmd'. split_and!; [done..|by apply executed_app]. }
  destruct (Apply_cases _ _ _ _ _ _ _ _ H1' Hap Hd) as [(r & Hx & _ & Hk)|(e' & _ & _ & _ & Hk)].
  - destruct (Hk _ _ He) as [[Hrid Hr]|Hs]; [by exists r, cmd; split_and!|by apply Hold].
  - by apply Hold, Hk.
Qed.

(** The result an entry is answered with is that of an execution: of its own command, or of an earlier one with its request ID. *)
Lemma result_executed log s outs i d (cmd : Command) s' out (r : Result) :
  run Store.New log = Ok (s, outs) -> Apply s i d = Ok (s', out) -> unmarshal d = Some cmd -> unmarshal out = Some r ->
  exists cmd0, executed (log ++ [(i, d)]) cmd0 r /\ (cmd0 = cmd \/ cmd_RequestId cmd <> "" /\ cmd_RequestId cmd0 = cmd_RequestId cmd).
Proof.
  intros Hr Hap Hd Hout. destruct (Apply_cases _ _ _ _ _ _ _ _ Hr Hap Hd) as [(r' & Hx & Hm & _)|(e & Hid & He & Hm & _)].
  - apply unmarshal_marshal in Hm. assert (r' = r) as -> by congruence. exists cmd. split; [done|by left].
  - destruct (remembered_executed _ _ _ _ _ Hr He) as (r' & cmd0 & Hr' & Hid0 & Hx). rewrite Hr' in Hm. apply unmarshal_marshal in Hm.
    cbn in Hm. assert (r' = r) as -> by congruence. exists cmd0. split; [by apply executed_app|by right].
Qed.

Lemma indices_split last l1 i d l2 :
  indices_from last (l1 ++ (i, d) :: l2) -> indices_from last l1 /\ last_index last l1 < i /\ i < u64_modulus /\ indices_from i l2.
Proof.
  revert last. induction l1 as [|[j x] l1 IH]; intros last; cbn; [by intros (? & ? & ?)|]. intros (? & ? & Hrest).
  destruct (IH _ Hrest) as (? & ? & ? & ?). by split_and!.
Qed.

(** Whatever is applied after it, a write that was executed stays, until the key has a newer version. *)
Lemma executed_stays log l s outs cmd r :
  executed log cmd r -> res_Status r = STATUS_OK -> indices_from 0 (log ++ l) -> run Store.New (log ++ l) = Ok (s, outs) ->
  exists rec, data s !! cmd_Key cmd = Some rec /\ (res_Version r < version rec \/ wrote cmd (res_Version r) rec).
Proof.
  intros (l1 & i & d & l2 & s0 & o0 & s1 & out & s2 & -> & Hd & Hr0 & Hap & Hal & Hdat) Hst Hidx Hr.
  rewrite <- app_assoc in Hidx, Hr. apply run_app_Ok in Hr as (s0' & o1 & o2 & H1' & H2'). rewrite Hr0 in H1'. injection H1' as <- <-.
  apply run_one_Ok in H2' as (s1' & out' & o3 & Hap' & Hr). rewrite Hap in Hap'. injection Hap' as <- <-.
  destruct (applyLocked_wrote _ _ _ _ Hal Hst) as (rec & Hrec & Hw). rewrite <- Hdat in Hrec.
  assert (Hi : indices_from i (l2 ++ l) /\ store_ok s1 i).
  { apply indices_split in Hidx as (Hi1 & Hi2 & Hi3 & Hi4). split; [done|].
    eapply Apply_ok; [by eapply run_ok; [apply store_ok_New|..]|lia|done]. }
  destruct Hi as [Hi Hok]. destruct (run_effect _ _ _ _ _ (cmd_Key cmd) Hok Hi Hr) as [He|He].
  - exists rec. rewrite He. split; [done|by right].
  - unfold keyVersion in He. rewrite Hrec in He. cbn in He. destruct (data s !! cmd_Key cmd) as [rec'|]; cbn in He; [|lia].
    exists rec'. split; [done|]. left. destruct Hw as [<- _]. done.
Qed.
End Origin.

(** ** Entries of the agreed log as commands *)
Lemma commands_app L1 L2 : commands (L1 ++ L2) = commands L1 ++ commands L2.
Proof. apply omap_app. Qed.

Lemma indices_from_mono last last' log : last' <= last -> indices_from last log -> indices_from last' log.
Proof. destruct log as [|[i d] log]; cbn; [done|]. intros Hle (? & ? & ?). split_and!; [lia|done..]. Qed.

Lemma commands_indices L : forall after, contiguous after L -> after + lenN L < u64_modulus -> indices_from after (commands L).
Proof.
  induction L as [|e L IH]; intros after Hc Hb; [done|]. apply contiguous_cons in Hc as [He Hc]. rewrite lenN_cons in Hb.
  specialize (IH (after + 1) Hc ltac:(lia)). unfold commands. cbn [omap list_omap]. fold (commands L).
  destruct (ent_Type e); [|by apply (indices_from_mono (after + 1)); [lia|]..]. rewrite He. cbn. split_and!; [lia|lia|done].
Qed.

(** ** Gets *)
Section Gets.
Context `{Codec Command} `{Codec Result} `{Codec StoreSnapshot} `{!CodecLaws StoreSnapshot} `{!CodecLaws Result}.
Context (iter : Store -> list (string * record)) (iter_perm : forall s, iter s ≡ₚ map_to_list (data s)).
#[local] Instance gets_machine : StateMachine Store := store_StateMachine iter.
#[local] Instance gets_law : SnapshotLaw Store.New := store_SnapshotLaw iter iter_perm.
Context {S : Type} `{StorageLaws S}.
Context (peers : list string) (config : string -> Config).
Context (peers_nodup : NoDup peers) (peers_named : "" ∉ peers).
Context (config_id : forall i, ID (config i) = i) (config_peers : forall i, Peers (config i) = peers).

(** The result of an entry is that of an execution in the log up to it. *)
Lemma entry_result L k e sm sm' out (cmd : Command) (r : Result) :
  applied Store.New (take k L) sm -> L !! k = Some e -> ent_Type e = ENTRY_NORMAL -> sm_apply sm (ent_Index e) (ent_Data e) = Ok (sm', out) ->
  unmarshal (ent_Data e) = Some cmd -> unmarshal out = Some r ->
  exists cmd0, executed (commands (take (Datatypes.S k) L)) cmd0 r /\ (cmd0 = cmd \/ cmd_RequestId cmd <> "" /\ cmd_RequestId cmd0 = cmd_RequestId cmd).
Proof.
  intros [o1 Ha] Hk Ht Hap Hcmd Hout. apply applyEntries_run in Ha as [o2 Hr]. cbn [sm_apply gets_machine store_StateMachine] in Hap.
  assert (E : commands (take (Datatypes.S k) L) = commands (take k L) ++ [(ent_Index e, ent_Data e)]).
  { rewrite (take_S_r _ _ _ Hk), commands_app. f_equal. unfold commands. cbn [omap list_omap]. by rewrite Ht. }
  rewrite E. by eapply result_executed.
Qed.

(** And what it wrote stays, in the state after more of the log. *)
Lemma entry_stays L k m s cmd (r : Result) :
  contiguous 0 L -> N.of_nat k < m -> m < u64_modulus -> m <= lenN L -> executed (commands (take (Datatypes.S k) L)) cmd r -> res_Status r = STATUS_OK ->
  applied Store.New (pre m L) s -> exists rec, data s !! cmd_Key cmd = Some rec /\ (res_Version r < version rec \/ wrote cmd (res_Version r) rec).
Proof.
  intros Hc Hkm Hm Hml Hx Hst [o Ha]. apply applyEntries_run in Ha as [o2 Hr].
  assert (E : commands (pre m L) = commands (take (Datatypes.S k) L) ++ commands (drop (Datatypes.S k) (pre m L))).
  { rewrite <- (take_drop (Datatypes.S k) (pre m L)) at 1. rewrite commands_app. f_equal. unfold pre. rewrite take_take. f_equal. f_equal. lia. }
  assert (Hidx : indices_from 0 (commands (pre m L))).
  { apply commands_indices; [by apply pre_contiguous|]. rewrite lenN_pre by done. lia. }
  rewrite E in Hidx, Hr. by eapply executed_stays.
Qed.

(** What an acknowledged result says about the state after more of the log. *)
Lemma answers_stay Q L m s wid out r :
  contiguous 0 L -> m < u64_modulus -> m <= lenN L -> applied Store.New (pre m L) s ->
  answers Store.New Q (pre m L) wid out -> unmarshal out = Some r -> res_Status r = STATUS_OK ->
  exists p cmd cmd0 rec, Q p /\ p_id p = wid /\ unmarshal (p_data p) = Some cmd /\
    (cmd0 = cmd \/ cmd_RequestId cmd <> "" /\ cmd_RequestId cmd0 = cmd_RequestId cmd) /\
    data s !! cmd_Key cmd0 = Some rec /\ (res_Version r < version rec \/ wrote cmd0 (res_Version r) rec).
Proof.
  intros Hc Hm Hml Ha (k & e & p & sm & sm' & Hk & Hi & Ht & Hs & Hid & Hd & Ha1 & Hap) Hout Hst.
  pose proof Hap as Hap'. cbn [sm_apply gets_machine store_StateMachine] in Hap'. destruct (Apply_decodes _ _ _ _ _ Hap') as [cmd Hcmd].
  destruct (entry_result _ _ _ _ _ _ _ _ Ha1 Hk Ht Hap Hcmd Hout) as (cmd0 & Hx & Hsame). rewrite Hd in Hcmd.
  pose proof (lookup_lt_Some _ _ _ Hk) as Hlt. assert (Hl : lenN (pre m L) = m) by by apply lenN_pre. unfold lenN in Hl.
  destruct (entry_stays (pre m L) k m s cmd0 r) as (rec & Hrec & Hw); try done; [by apply pre_contiguous|lia|unfold lenN; lia| |by exists p, cmd, cmd0, rec].
  unfold pre. rewrite take_take, Nat.min_id. done.
Qed.

End Gets.

(** ** A Get in the example run *)
Section Demo.
#[local] Existing Instance kv_command.
#[local] Existing Instance kv_result.
#[local] Existing Instance kv_snapshot.
#[local] Existing Instance kv_snapshot_laws.
#[local] Existing Instance kv_machine.
#[local] Instance kv_result_laws : CodecLaws Result := countable_codec_laws Result.

(** After the put of [kv_written], the leader begins a read later on, and [b] answers a heartbeat. *)
Definition kv_late : Cluster MemStorage Store := default kv_start (run_schedule kv_written [("a", AClock 500000000)]).
Definition kv_asked : Cluster MemStorage Store := default kv_start (fst <$> begin_read kv_late "a").
Definition kv_confirm : list (string * action) := [("a", AReplicate "b"); ("a", ASend 0); ("b", AAppend 0 10); ("a", AAppendAnswer 0 11)].
Definition kv_confirmed : Cluster MemStorage Store := default kv_start (run_schedule kv_asked kv_confirm).

(** The result sent for the put: version 1. *)
Definition kv_ack : bytes := default [] (marshal (mkResult STATUS_OK 1)).

Lemma kv_read_runs :
  run_schedule kv_written [("a", AClock 500000000)] = Some kv_late /\
  begin_read kv_late "a" = Some (kv_asked, (1, 2, 500000000%Z)) /\
  clock_advanced_b kv_late "a" 1 500000000 = true /\
  run_schedule kv_asked kv_confirm = Some kv_confirmed /\
  ((fun n => (confirmLeadership_check 1 2 500000000 (nd_raft n), waitApplied_check 2 (nd_raft n), commitIndex (nd_raft n))) <$> nodes kv_confirmed !! "a")
    = Some (Some (inl 2), true, 2) /\
  (replies ∘ nd_raft <$> nodes kv_late !! "a") = Some [(7%nat, PResult kv_ack)].
Proof. vm_compute. split_and!; reflexivity. Qed.

#[local] Opaque kv_start kv_written kv_late kv_asked kv_confirmed.

End Demo.
