(* ===== verification/Lifecycle.v ===== *)
(** * The rebalancer and the end of a node (internal/node/node.go, TransferLeadership in internal/raft/apply.go)

    While a node runs, its rebalancer goes over the shards at every tick and hands leadership back to the preferred members,
    one call of [TransferLeadership] at a time. [Stop] waits for the rebalancer before it stops the replicas and closes their storage.
    The events are the points where one of these goroutines acts; in between, the replicas do whatever they do.
    The theorems: leadership is only ever handed over where the rebalancer's rule allows it, a transfer that reports success has
    ended the leadership it began with, storage is closed once, after everything that the node itself started is over,
    and a stop that has begun can always be completed. *)

From S2P Require Import Prelude Types Store RaftLog Storage Raft RaftFacts Shard Replica Node.

#[local] Open Scope N_scope.

(** Where a call of [TransferLeadership] is after its first critical section. *)
Inductive transferPC :=
| TrWaiting                                          (* for the target to hold every entry *)
| TrCalling (req : TimeoutNowRequest)                (* TimeoutNow is on its way *)
| TrPolling.                                         (* for leadership to be gone *)

Inductive transferEvent :=
| TrCheck                                            (* an acknowledgement or the ticker: look again *)
| TrAnswer (ok : bool)                               (* of TimeoutNow *)
| TrDeadline.                                        (* the context ends *)

Section Transfers.
Context {S SM : Type} `{Storage S} `{StateMachine SM}.
#[local] Abbreviation Raft := (Raft S SM).

(** One step of the call that began in term [t]: to another point, or it returns, an error or nil. *)
Definition transfer_step (t : N) (target : string) (r : Raft) (ev : transferEvent) (pc : transferPC) : option (transferPC + option raftError) :=
  match pc, ev with
  | TrWaiting, TrCheck =>
      match transfer_poll t target r with
      | None => Some (inl TrWaiting)
      | Some None => Some (inr None)
      | Some (Some req) => Some (inl (TrCalling req))
      end
  | TrCalling _, TrAnswer ok => Some (if ok then inl TrPolling else inr (Some ErrTransferFailed))
  | TrPolling, TrCheck => Some (if transfer_done t r then inr None else inl TrPolling)
  | TrWaiting, TrDeadline | TrPolling, TrDeadline => Some (inr (Some ErrTransferFailed))
  | _, _ => None
  end.

(** Success is the loss of the leadership the call began with. *)
Lemma transfer_success t target r ev pc :
  transfer_step t target r ev pc = Some (inr None) -> state r <> Leader \/ rterm r <> t.
Proof.
  assert (Hd : transfer_done t r = true -> state r <> Leader \/ rterm r <> t).
  { unfold transfer_done. intros [E%negb_true_iff|E%negb_true_iff]%orb_true_iff; [left; by apply bool_decide_eq_false in E|right; by apply N.eqb_neq in E]. }
  unfold transfer_step, transfer_poll. fold (transfer_done t r). intros Hs. apply Hd. by destruct pc, ev as [|[]|], (transfer_done t r); repeat case_match; simplify_eq.
Qed.
End Transfers.

(** ** The machine *)

(** Where the rebalancer is. *)
Inductive rebalancerPC :=
| RbOff                                              (* no interval: waits for the stop *)
| RbWaiting                                          (* for the ticker, or for the stop *)
| RbShard (k : nat)                                  (* at shard [k] of a round *)
| RbCall (k : nat) (target : string)                 (* about to call TransferLeadership *)
| RbTransfer (k : nat) (t : N) (target : string) (pc : transferPC)
| RbExited.                                          (* done is closed *)

(** Where the function of [stopOnce] is. *)
Inductive stopPC :=
| StNone
| StWaiting                                          (* stopCh is closed; waits for done *)
| StStopping (k : nat)                               (* at [Raft.Stop] of shard [k] *)
| StClosing (k : nat)                                (* at [storage.Close] of shard [k] *)
| StReturned.

Inductive lifeEvent {R : Type} :=
| LfTick
| LfShard
| LfCall (env : Env)
| LfTransfer (ev : transferEvent)
| LfLeave
| LfStop
| LfRaftStop
| LfClose
| LfRaft (k : nat) (r : R).                          (* what a replica does on its own *)
Arguments lifeEvent R : clear implicits.

Section Life.
Context {S : Type} `{Storage S} `{StateMachine Store}.
#[local] Abbreviation Raft := (Raft S Store).
#[local] Abbreviation Node := (Node S).

Record life := mkLife {
  lf_node : Node;
  lf_rb : rebalancerPC;
  lf_stop : stopPC;
  lf_closed : list N;                                (* the shards whose storage was closed, in order *)
}.

#[global] Instance eta_life : Eta life := fun l => mkLife (lf_node l) (lf_rb l) (lf_stop l) (lf_closed l).

(** [runRebalancer] begins. *)
Definition life_start (n : Node) : life :=
  mkLife n (if (nc_RebalanceInterval (no_cfg n) <=? 0)%Z then RbOff else RbWaiting) StNone [].

Definition set_raft (k : nat) (r : Raft) (l : life) : life :=
  l <| lf_node := (lf_node l) <| no_shards := alter (fun s => s <| sh_Raft := r |>) k (no_shards (lf_node l)) |> |>.

Definition stopCh_closed (l : life) : bool := match lf_stop l with StNone => false | _ => true end.

(** One step of the rebalancer. *)
Definition rebalancer_step (ev : lifeEvent Raft) (l : life) : res (option life) :=
  match lf_rb l, ev with
  | RbWaiting, LfTick => Ok (Some (l <| lf_rb := RbShard 0 |>))
  | RbShard k, LfShard =>
      match no_shards (lf_node l) !! k with
      | None => Ok (Some (l <| lf_rb := RbWaiting |>))
      | Some s =>
          d ← rebalance_shard (lf_node l) s;
          Ok (Some (l <| lf_rb := match d with None => RbShard (Datatypes.S k) | Some p => RbCall k p end |>))
      end
  | RbCall k target, LfCall env =>
      match no_shards (lf_node l) !! k with
      | None => Ok None
      | Some s =>
          let '(r, res) := transfer_begin env target (sh_Raft s) in
          Ok (Some (set_raft k r l <| lf_rb := match res with inl t => RbTransfer k t target TrWaiting | inr _ => RbShard (Datatypes.S k) end |>))
      end
  | RbTransfer k t target pc, LfTransfer ev =>
      match no_shards (lf_node l) !! k with
      | None => Ok None
      | Some s =>
          Ok (match transfer_step t target (sh_Raft s) ev pc with
              | None => None
              | Some (inl pc) => Some (l <| lf_rb := RbTransfer k t target pc |>)
              | Some (inr _) => Some (set_raft k (transfer_cleanup t (sh_Raft s)) l <| lf_rb := RbShard (Datatypes.S k) |>)
              end)
      end
  | RbOff, LfLeave | RbWaiting, LfLeave => Ok (if stopCh_closed l then Some (l <| lf_rb := RbExited |>) else None)
  | _, _ => Ok None
  end.

(** One step of [Stop], or of a replica. *)
Definition life_step (ev : lifeEvent Raft) (l : life) : res (option life) :=
  match ev, lf_stop l with
  | LfStop, StNone => Ok (Some (l <| lf_stop := StWaiting |>))
  | LfRaftStop, StWaiting =>
      Ok (match lf_rb l with RbExited => Some (l <| lf_stop := StStopping 0 |>) | _ => None end)
  | LfRaftStop, StStopping k =>
      Ok (Some (match no_shards (lf_node l) !! k with
                | None => l <| lf_stop := StClosing 0 |>
                | Some s => set_raft k (Stop (sh_Raft s)) l <| lf_stop := StStopping (Datatypes.S k) |>
                end))
  | LfClose, StClosing k =>
      Ok (Some (match no_shards (lf_node l) !! k with
                | None => l <| lf_stop := StReturned |>
                | Some s => l <| lf_closed := lf_closed l ++ [sh_ID s] |> <| lf_stop := StClosing (Datatypes.S k) |>
                end))
  | LfRaft k r, _ =>
      Ok (match no_shards (lf_node l) !! k with
          | None => None
          | Some s => if Bool.eqb (stopped r) (stopped (sh_Raft s)) then Some (set_raft k r l) else None
          end)
  | _, _ => rebalancer_step ev l
  end.

Definition life_next (l l' : life) : Prop := exists ev, life_step ev l = Ok (Some l').

(** ** Invariant *)
Lemma set_raft_lookup k r l j :
  no_shards (lf_node (set_raft k r l)) !! j
  = (fun s => if decide (j = k) then s <| sh_Raft := r |> else s) <$> no_shards (lf_node l) !! j.
Proof.
  unfold set_raft. cbn. destruct (decide (j = k)) as [->|Hne]; [by rewrite list_lookup_alter_eq|].
  rewrite list_lookup_alter_ne by done. by destruct (no_shards (lf_node l) !! j).
Qed.

Lemma set_raft_ids k r l : sh_ID <$> no_shards (lf_node (set_raft k r l)) = sh_ID <$> no_shards (lf_node l).
Proof. apply list_eq. intros j. rewrite !list_lookup_fmap, set_raft_lookup. destruct (no_shards (lf_node l) !! j); cbn; [by case_decide|done]. Qed.

(** The first [k] replicas are stopped. *)
Definition stopped_to (k : nat) (l : life) : Prop := forall j s, (j < k)%nat -> no_shards (lf_node l) !! j = Some s -> stopped (sh_Raft s) = true.

Lemma set_raft_stopped i k r l s :
  stopped_to k l -> no_shards (lf_node l) !! i = Some s -> stopped r = stopped (sh_Raft s) -> stopped_to k (set_raft i r l).
Proof.
  intros Hst Hi Hr j s' Hj. rewrite set_raft_lookup. intros Hs. apply fmap_Some in Hs as (s0 & Hs0 & ->).
  case_decide as E; [|by eapply Hst]. subst. cbn. rewrite Hr. rewrite Hi in Hs0. simplify_eq. by eapply Hst.
Qed.

Lemma stop_next k l s :
  stopped_to k l -> no_shards (lf_node l) !! k = Some s -> stopped_to (Datatypes.S k) (set_raft k (Stop (sh_Raft s)) l).
Proof.
  intros Hst Hk j s' Hj. rewrite set_raft_lookup. intros Hs. apply fmap_Some in Hs as (s0 & Hs0 & ->). case_decide as E.
  - cbn. unfold Stop. by destruct (stopped (sh_Raft s)) eqn:E'.
  - apply (Hst j); [lia|done].
Qed.

(** What the target of a handover is. *)
Definition eligible (k : nat) (target : string) (l : life) : Prop :=
  exists id, (sh_ID <$> no_shards (lf_node l)) !! k = Some id /\ PreferredLeader id (lf_node l) = Ok target /\ target <> nc_ID (no_cfg (lf_node l)).

(** How far the stop has come. *)
Definition stop_ok (ids : list N) (l : life) : Prop :=
  match lf_stop l with
  | StNone | StWaiting => lf_closed l = []
  | StStopping k => lf_rb l = RbExited /\ (k <= length ids)%nat /\ lf_closed l = [] /\ stopped_to k l
  | StClosing k => lf_rb l = RbExited /\ (k <= length ids)%nat /\ lf_closed l = take k ids /\ stopped_to (length ids) l
  | StReturned => lf_rb l = RbExited /\ lf_closed l = ids /\ stopped_to (length ids) l
  end.

Record life_ok (ids : list N) (l : life) : Prop := {
  lo_ids : sh_ID <$> no_shards (lf_node l) = ids;
  lo_rb : match lf_rb l with RbCall k p | RbTransfer k _ p _ => eligible k p l | _ => True end;
  lo_stop : stop_ok ids l;
}.

Lemma life_start_ok n : life_ok (sh_ID <$> no_shards n) (life_start n).
Proof. split; [done| |done]. unfold life_start. cbn. by destruct (nc_RebalanceInterval _ <=? 0)%Z. Qed.

(** Before the rebalancer has left, nothing is stopped. *)
Lemma stop_ok_early ids l l' :
  stop_ok ids l -> lf_rb l <> RbExited -> lf_stop l' = lf_stop l -> lf_closed l' = lf_closed l -> stop_ok ids l'.
Proof. unfold stop_ok. intros Hst Hne -> ->. destruct (lf_stop l); try done; by destruct Hst. Qed.

Lemma rebalancer_step_ok ids ev l l' : life_ok ids l -> rebalancer_step ev l = Ok (Some l') -> life_ok ids l' /\ lf_stop l' = lf_stop l.
Proof.
  intros [Hids Hrb Hst] Hs. pose proof (stop_ok_early ids l l' Hst) as Hlate. clear Hst. revert Hs Hrb Hlate. unfold rebalancer_step.
  destruct (lf_rb l) as [| |k|k p|k t p pc|] eqn:Hpc, ev; intros Hs Hrb Hlate; try done; specialize (Hlate ltac:(done)).
  1-3: try (case_match; [|done]); simplify_eq; split; [split|done]; [done|done|by apply Hlate].
  - destruct (no_shards (lf_node l) !! k) as [s|] eqn:Hk; [|simplify_eq; split; [split|done]; [done|done|by apply Hlate]].
    apply bind_Ok in Hs as (d & Hd & Hs). simplify_eq. split; [split|done]; [done| |by apply Hlate]. destruct d as [p|]; [|done].
    destruct (rebalance_shard_target _ _ _ Hd) as [Hp Hne]. exists (sh_ID s). cbn. by rewrite list_lookup_fmap, Hk.
  - destruct (no_shards (lf_node l) !! k) as [s|] eqn:Hk; [|done]. destruct (transfer_begin env p (sh_Raft s)) as [r res]. simplify_eq.
    pose proof (set_raft_ids k r l) as E. split; [split|done]; [done| |by apply Hlate]. destruct res; [|done]. unfold eligible in *. cbn in E |- *. by rewrite E.
  - destruct (no_shards (lf_node l) !! k) as [s|] eqn:Hk; [|done]. destruct (transfer_step t p (sh_Raft s) ev pc) as [[pc'|res]|]; simplify_eq.
    + split; [split|done]; [done|done|by apply Hlate].
    + split; [split|done]; [etrans; [apply set_raft_ids|done]|done|by apply Hlate].
Qed.

Lemma life_step_ok ids ev l l' : life_ok ids l -> life_step ev l = Ok (Some l') -> life_ok ids l'.
Proof.
  intros Hok Hs. assert (Hr : rebalancer_step ev l = Ok (Some l') -> life_ok ids l') by (intros Hx; by eapply rebalancer_step_ok).
  pose proof Hok as [Hids Hrb Hst]. assert (Hlen : length ids = length (no_shards (lf_node l))) by by rewrite <- Hids, length_fmap.
  unfold stop_ok in Hst. destruct ev as [| |env|ev| | | | |k r]; try (by apply Hr).
  - cbn in Hs. destruct (lf_stop l) eqn:Hpc; try (by apply Hr). simplify_eq. by split.
  - cbn in Hs. destruct (lf_stop l) as [| |k|k|] eqn:Hpc; try (by apply Hr).
    + destruct (lf_rb l) eqn:Hrbe; try done. simplify_eq. split; [done|cbn; by rewrite Hrbe|]. cbn. split_and!; [done|lia|done|]. intros j s Hj. lia.
    + destruct Hst as (Hex & Hk & Hc & Hto). destruct (no_shards (lf_node l) !! k) as [s|] eqn:Hs'; simplify_eq.
      * split; [etrans; [apply set_raft_ids|done]|cbn; by rewrite Hex|]. cbn. apply lookup_lt_Some in Hs' as Hlt. split_and!; [done|lia|done|].
        by apply (stop_next k (l <| lf_stop := StStopping (Datatypes.S k) |>)).
      * split; [done|cbn; by rewrite Hex|]. cbn. apply lookup_ge_None in Hs'. split_and!; [done|lia|done|]. intros j s Hj. eapply Hto. lia.
  - cbn in Hs. destruct (lf_stop l) as [| |k|k|] eqn:Hpc; try (by apply Hr). destruct Hst as (Hex & Hk & Hc & Hto).
    destruct (no_shards (lf_node l) !! k) as [s|] eqn:Hs'; simplify_eq.
    + split; [done|cbn; by rewrite Hex|]. cbn. apply lookup_lt_Some in Hs' as Hlt. split_and!; [done|lia| |done].
      rewrite Hc. symmetry. apply take_S_r. by rewrite list_lookup_fmap, Hs'.
    + split; [done|cbn; by rewrite Hex|]. cbn. apply lookup_ge_None in Hs'. split_and!; [done| |done]. rewrite Hc. apply take_ge. lia.
  - unfold life_step in Hs. destruct (no_shards (lf_node l) !! k) as [s|] eqn:Hs'; [|by destruct (lf_stop l)].
    assert (Hs1 : (if Bool.eqb (stopped r) (stopped (sh_Raft s)) then Some (set_raft k r l) else None) = Some l') by (destruct (lf_stop l); by injection Hs).
    destruct (Bool.eqb (stopped r) (stopped (sh_Raft s))) eqn:Heq; [|done]. apply eqb_prop in Heq. injection Hs1 as <-. split.
    + by rewrite set_raft_ids.
    + revert Hrb. unfold eligible. pose proof (set_raft_ids k r l) as E. cbn in E |- *. by rewrite E.
    + unfold stop_ok. cbn. destruct (lf_stop l); try done; destruct_and! Hst; split_and!; try done; by eapply set_raft_stopped.
Qed.

Lemma life_ok_runs n l : rtc life_next (life_start n) l -> life_ok (sh_ID <$> no_shards n) l.
Proof.
  apply (rtc_ind_r (fun l => life_ok (sh_ID <$> no_shards n) l)); [apply life_start_ok|]. intros l1 l2 _ [ev Hs] Hok. by eapply life_step_ok.
Qed.

(** ** Completing a stop *)
Fixpoint run_life (evs : list (lifeEvent Raft)) (l : life) : res (option life) :=
  match evs with
  | [] => Ok (Some l)
  | ev :: evs => o ← life_step ev l; match o with None => Ok None | Some l => run_life evs l end
  end.

(** What is left to do, for a node with [m] shards. *)
Definition rb_work (m : nat) (pc : rebalancerPC) : nat :=
  match pc with
  | RbExited => 0
  | RbOff | RbWaiting => 1
  | RbShard k => 2 + 4 * (m - k)
  | RbCall k _ => 1 + 4 * (m - k)
  | RbTransfer k _ _ _ => 4 * (m - k)
  end.
Definition stop_work (m : nat) (pc : stopPC) : nat :=
  match pc with
  | StReturned => 0
  | StClosing k => 1 + (m - k)
  | StStopping k => 2 + m + (m - k)
  | StWaiting | StNone => 3 + 2 * m
  end.
Definition work (m : nat) (l : life) : nat := (rb_work m (lf_rb l) + stop_work m (lf_stop l))%nat.

Lemma PreferredLeader_total id (n : Node) : no_peers n <> [] -> exists p, PreferredLeader id n = Ok p.
Proof.
  intros Hne. unfold PreferredLeader. destruct (Nat.eqb_spec (length (no_peers n)) 0) as [?%nil_length_inv|Hz]; [done|].
  destruct (lookup_lt_is_Some_2 (no_peers n) (N.to_nat id `mod` length (no_peers n))) as [p Hp]; [by apply Nat.mod_upper_bound|].
  exists p. by rewrite Hp.
Qed.

Lemma rebalance_shard_total (n : Node) s : no_peers n <> [] -> exists d, rebalance_shard n s = Ok d.
Proof.
  intros Hne. unfold rebalance_shard. destruct (PreferredLeader_total (sh_ID s) n Hne) as [p ->]. cbn. repeat case_match; eauto.
Qed.

(** While a stop waits for it, the rebalancer always has a step that brings it closer to its end: calls in flight run into their deadline. *)
Lemma rebalancer_progress ids l :
  life_ok ids l -> no_peers (lf_node l) <> [] -> stopCh_closed l = true -> lf_rb l <> RbExited ->
  exists ev l', rebalancer_step ev l = Ok (Some l') /\ (rb_work (length ids) (lf_rb l') < rb_work (length ids) (lf_rb l))%nat /\
    lf_stop l' = lf_stop l /\ no_peers (lf_node l') = no_peers (lf_node l) /\ ev <> LfStop /\ ev <> LfRaftStop /\ ev <> LfClose /\ forall k r, ev <> LfRaft k r.
Proof.
  intros [Hids Hrb _] Hne Hcl Hex. assert (Hlen : length ids = length (no_shards (lf_node l))) by by rewrite <- Hids, length_fmap.
  assert (Hel : forall k p, eligible k p l -> (k < length ids)%nat /\ exists s, no_shards (lf_node l) !! k = Some s).
  { intros k p (id & Hk & _). rewrite list_lookup_fmap in Hk. apply fmap_Some in Hk as (s & Hs & _). split; [rewrite Hlen; by eapply lookup_lt_Some|by exists s]. }
  unfold rebalancer_step. destruct (lf_rb l) as [| |k|k p|k t p pc|] eqn:Hpc; try done.
  - exists LfLeave. rewrite Hcl. eexists. split_and!; [done|cbn; lia|done..].
  - exists LfLeave. rewrite Hcl. eexists. split_and!; [done|cbn; lia|done..].
  - exists LfShard. destruct (no_shards (lf_node l) !! k) as [s|] eqn:Hk; [|eexists; split_and!; [done|cbn; lia|done..]].
    destruct (rebalance_shard_total (lf_node l) s Hne) as [d Hd]. rewrite Hd. apply lookup_lt_Some in Hk. eexists. split_and!; [done| |done..].
    cbn. destruct d; cbn; lia.
  - exists (LfCall (mkEnv 0 0)). destruct (Hel _ _ Hrb) as [Hlt [s Hs]]. rewrite Hs. destruct (transfer_begin _ p (sh_Raft s)) as [r [t|err]].
    all: eexists; split_and!; [done|cbn; lia|done..].
  - destruct (Hel _ _ Hrb) as [Hlt [s Hs]]. rewrite Hs. destruct pc as [|req|].
    + exists (LfTransfer TrDeadline). eexists. split_and!; [done|cbn; lia|done..].
    + exists (LfTransfer (TrAnswer false)). eexists. split_and!; [done|cbn; lia|done..].
    + exists (LfTransfer TrDeadline). eexists. split_and!; [done|cbn; lia|done..].
Qed.

Lemma life_progress ids l :
  life_ok ids l -> no_peers (lf_node l) <> [] -> stopCh_closed l = true -> lf_stop l <> StReturned ->
  exists ev l', life_step ev l = Ok (Some l') /\ (work (length ids) l' < work (length ids) l)%nat /\
    stopCh_closed l' = true /\ no_peers (lf_node l') = no_peers (lf_node l).
Proof.
  intros Hok Hne Hcl Hret. pose proof Hok as [Hids _ Hst]. assert (Hlen : length ids = length (no_shards (lf_node l))) by by rewrite <- Hids, length_fmap.
  unfold work, stop_ok in *. destruct (lf_stop l) as [| |k|k|] eqn:Hpc; try done.
  - unfold stopCh_closed in Hcl. by rewrite Hpc in Hcl.
  - assert (lf_rb l = RbExited \/ lf_rb l <> RbExited) as [E|E] by (destruct (lf_rb l); first [by left|by right]).
    + exists LfRaftStop. cbn. rewrite Hpc, E. eexists. split_and!; [done|cbn; rewrite E; cbn; lia|done..].
    + destruct (rebalancer_progress ids l Hok Hne Hcl E) as (ev & l' & Hs & Hw & Hst' & Hp & N1 & N2 & N3 & N4). exists ev, l'. split_and!; [|rewrite Hst', Hpc; lia| |done].
      * unfold life_step. rewrite Hpc. destruct ev; try done. by destruct (N4 k r).
      * unfold stopCh_closed. by rewrite Hst', Hpc.
  - exists LfRaftStop. cbn. rewrite Hpc. eexists. split_and!; [done|..]; destruct (no_shards (lf_node l) !! k) eqn:Hk; cbn; try done.
    + apply lookup_lt_Some in Hk. lia.
    + lia.
  - exists LfClose. cbn. rewrite Hpc. eexists. split_and!; [done|..]; destruct (no_shards (lf_node l) !! k) eqn:Hk; cbn; try done.
    + apply lookup_lt_Some in Hk. lia.
    + lia.
Qed.

Lemma run_to_return ids : forall w l, (work (length ids) l <= w)%nat ->
  life_ok ids l -> no_peers (lf_node l) <> [] -> stopCh_closed l = true ->
  exists evs l', (length evs <= w)%nat /\ run_life evs l = Ok (Some l') /\ lf_stop l' = StReturned /\ life_ok ids l'.
Proof.
  assert (Hdec : forall l, lf_stop l = StReturned \/ lf_stop l <> StReturned) by (intros l0; destruct (lf_stop l0); first [by left|by right]).
  induction w as [|w IH]; intros l Hw Hok Hne Hcl; (destruct (Hdec l) as [E|E]; [exists [], l; split_and!; [cbn; lia|done..]|]).
  all: destruct (life_progress ids l Hok Hne Hcl E) as (ev & l1 & Hs & Hlt & Hcl1 & Hp).
  { lia. }
  destruct (IH l1) as (evs & l' & Hlen & Hr & Hret & Hok'); [lia|by eapply life_step_ok|by rewrite Hp|done|].
  exists (ev :: evs), l'. split_and!; [cbn; lia| |done..]. cbn [run_life]. by rewrite Hs.
Qed.


Lemma run_life_steps evs : forall l l', run_life evs l = Ok (Some l') -> rtc life_next l l'.
Proof.
  induction evs as [|ev evs IH]; intros l l' Hr; cbn in Hr; [by injection Hr as <-|].
  apply bind_Ok in Hr as ([l1|] & Hs & Hr); [|done]. eapply rtc_l; [by exists ev|by apply IH].
Qed.

(** [Raft.Stop] waits for the replica's goroutines, not for handlers of requests of other nodes, and these do not look at [stopped]: one that
    still runs when the storage has been closed, so that it refuses to save, panics. *)
Lemma vote_after_close_panics env req (r : Raft) :
  (forall hs es, (Save (storage r) hs es).2 = false) -> rv_PreVote req = false -> rterm r < rv_Term req ->
  exists msg, HandleRequestVote env req r = Panic msg.
Proof.
  intros Hsv Hp Hlt. unfold HandleRequestVote. rewrite Hp. destruct (N.ltb_spec (rv_Term req) (rterm r)); [lia|].
  destruct (N.ltb_spec (rterm r) (rv_Term req)); [|lia]. unfold becomeFollowerLocked. destruct (N.ltb_spec (rterm r) (rv_Term req)); [|lia].
  unfold persistLocked. cbn. match goal with |- context [Save ?a ?b ?c] => pose proof (Hsv b c) as E; cbn in *; destruct (Save a b c) as [st []] end; [done|].
  by eexists.
Qed.
End Life.
Arguments life S : clear implicits.

(** ** The end of a node with three shards *)
Section Demo.
#[local] Existing Instance kv_command.
#[local] Existing Instance kv_result.
#[local] Existing Instance kv_snapshot.
#[local] Existing Instance kv_machine.

(** Stop is called; the rebalancer leaves, the replicas are stopped, and the first storage is closed. *)
Definition demo_end : list (lifeEvent (Raft MemStorage Store)) :=
  [LfStop; LfLeave; LfRaftStop; LfRaftStop; LfRaftStop; LfRaftStop; LfRaftStop; LfClose].
Definition demo_life : life MemStorage :=
  match run_life demo_end (life_start (demo_node ["n1"; "n2"])) with Ok (Some l) => l | _ => life_start (demo_node ["n1"; "n2"]) end.

Lemma demo_life_runs :
  run_life demo_end (life_start (demo_node ["n1"; "n2"])) = Ok (Some demo_life) /\ lf_closed demo_life = [0] /\
  sh_ID <$> no_shards (demo_node ["n1"; "n2"]) = [0; 1; 2].
Proof. vm_compute. split_and!; reflexivity. Qed.

End Demo.
