(* ===== verification/Http.v ===== *)
(** * HTTP messages

    Requests and responses as the gateway, the edge cache and the client see them.
    Bodies are kept as the value that is JSON-encoded, headers as the map from
    canonical names to their values. *)

From S2P Require Import Prelude Types.

(** ** Durations *)
Definition second : Z := 1000000000.

(** Conversion to [int64], as [time.Duration(n) * time.Second] wraps. *)
Definition i64 (z : Z) : Z := ((z + 2 ^ 63) mod 2 ^ 64 - 2 ^ 63)%Z.

(** ** Headers ([http.Header]) *)
Abbreviation Header := (gmap string (list string)).

Definition hdr_Get (h : Header) (k : string) : string :=
  match h !! k with Some (v :: _) => v | _ => "" end.

Definition hdr_Set (k v : string) (h : Header) : Header := <[k := [v]]> h.

Definition hdr_Del (k : string) (h : Header) : Header := delete k h.

(** [for k, vs := range src { dst[k] = vs }]. *)
Definition copyHeader (dst src : Header) : Header := src ∪ dst.

(** ** Bodies *)
Inductive Body :=
| BEmpty
| BWrite (key : string) (version shard : N)                            (* writeResponse *)
| BRead (key : string) (value : bytes) (version : N) (updatedMs : Z)   (* readResponse *)
| BMismatch (current : N)
| BNotLeader (shard : N) (leader leaderURL : string)
| BUnavailable (detail : string)
| BError (kind detail : string)
| BText (text : string).

#[global] Instance Body_eq_dec : EqDecision Body.
Proof. solve_decision. Defined.

(** ** Responses *)

(** What a handler has done to its [ResponseWriter]; [None]: no status written yet. *)
Record Response := mkResponse {
  rs_code : option N;
  rs_header : Header;
  rs_body : Body;
}.

#[global] Instance eta_Response : Eta Response := fun w => mkResponse (rs_code w) (rs_header w) (rs_body w).

Definition fresh : Response := mkResponse None ∅ BEmpty.

Definition setHeader (k v : string) (w : Response) : Response := w <| rs_header := hdr_Set k v (rs_header w) |>.

(** The first status written wins. *)
Definition writeHeader (code : N) (w : Response) : Response :=
  match rs_code w with Some _ => w | None => w <| rs_code := Some code |> end.

(** A handler that writes nothing answers 200. *)
Definition status (w : Response) : N := default 200 (rs_code w).

(** ** Requests *)
Record Request := mkRequest {
  rq_method : string;
  rq_path : string;                   (* r.URL.Path, decoded *)
  rq_uri : string;                    (* r.URL.RequestURI(), as on the wire *)
  rq_query : gmap string string;      (* first value of each query parameter *)
  rq_header : Header;
  rq_body : option bytes;             (* [None]: reading it fails *)
}.

#[global] Instance eta_Request : Eta Request := fun r =>
  mkRequest (rq_method r) (rq_path r) (rq_uri r) (rq_query r) (rq_header r) (rq_body r).

Definition query (r : Request) (k : string) : string := default "" (rq_query r !! k).

(** ** Lemmas *)
Lemma hdr_Get_Set k v h : hdr_Get (hdr_Set k v h) k = v.
Proof. unfold hdr_Get, hdr_Set. by rewrite lookup_insert_eq. Qed.

Lemma hdr_Get_Set_ne k k' v h : k' <> k -> hdr_Get (hdr_Set k v h) k' = hdr_Get h k'.
Proof. intros Hne. unfold hdr_Get, hdr_Set. by rewrite lookup_insert_ne. Qed.

Lemma hdr_Get_copy dst src k : hdr_Get (copyHeader dst src) k = match src !! k with Some (v :: _) => v | Some [] => "" | None => hdr_Get dst k end.
Proof. unfold hdr_Get, copyHeader. rewrite lookup_union. by destruct (src !! k) as [[|]|], (dst !! k) as [[|]|]. Qed.
