(* ===== verification/Mux.v ===== *)
(** * Routes of the gateway

    The patterns internal/server registers with [http.ServeMux], and what the mux
    does with a request: it works on the path as it is on the wire, cleans it,
    matches it segment by segment, and answers a redirect itself when cleaning
    changed the path. Where a redirect points is not modelled. *)

From Stdlib Require Import Ascii.
From S2P Require Import Prelude Types GoStrings Http.

(** ** Paths on the wire ([url.URL.EscapedPath]) *)

(** Bytes [shouldEscape] leaves alone in a path. *)
Definition path_byte (a : ascii) : bool :=
  alnum a || bool_decide (N_of_ascii a ∈ [45; 95; 46; 126; 36; 38; 43; 44; 47; 58; 59; 61; 64]).

Fixpoint escape_path (s : string) : string :=
  match s with
  | EmptyString => EmptyString
  | String a s =>
      if path_byte a then String a (escape_path s)
      else String "%"%char (String (upper_hex (N_of_ascii a / 16)) (String (upper_hex (N_of_ascii a mod 16)) (escape_path s)))
  end.

(** [validEncoded]: also [!'()*[]] and the percent sign. *)
Fixpoint validEncoded (s : string) : bool :=
  match s with
  | EmptyString => true
  | String a s => (path_byte a || bool_decide (N_of_ascii a ∈ [33; 39; 40; 41; 42; 91; 93; 37])) && validEncoded s
  end.

Definition wire_path (r : Request) : string :=
  match Cut "?"%char (rq_uri r) with Some (p, _) => p | None => rq_uri r end.

Definition EscapedPath (r : Request) : string :=
  let p := wire_path r in
  if bool_decide (p = escape_path (rq_path r)) || validEncoded p then p else escape_path (rq_path r).

(** ** Cleaning ([path.Clean] on a rooted path, and [cleanPath]) *)
Definition clean_segment (acc : list string) (s : string) : list string :=
  if bool_decide (s = "") || bool_decide (s = ".") then acc
  else if bool_decide (s = "..") then tail acc
  else s :: acc.

Definition Clean (p : string) : string := "/" +:+ Join "/" (rev (foldl clean_segment [] (Split "/"%char p))).

Fixpoint ends_with_slash (s : string) : bool :=
  match s with
  | EmptyString => false
  | String a EmptyString => bool_decide (a = "/"%char)
  | String _ s => ends_with_slash s
  end.

Definition cleanPath (p : string) : string :=
  if bool_decide (p = "") then "/"
  else
    let p := if HasPrefix p "/" then p else "/" +:+ p in
    let np := Clean p in
    if ends_with_slash p && negb (bool_decide (np = "/")) then np +:+ "/" else np.

(** ** Matching *)
Inductive endpoint := EpPut | EpGet | EpDelete | EpCacheGet | EpStatus | EpMetrics | EpHealthz.

#[global] Instance endpoint_eq_dec : EqDecision endpoint.
Proof. solve_decision. Defined.

(** Literal segments, then maybe a wildcard for the rest of the path. *)
Record pattern := mkPattern {
  pt_method : string;
  pt_literals : list string;
  pt_multi : bool;
  pt_endpoint : endpoint;
}.

(** [New]'s registrations. *)
Definition patterns : list pattern :=
  [mkPattern "PUT" ["v1"; "kv"] true EpPut;
   mkPattern "GET" ["v1"; "kv"] true EpGet;
   mkPattern "DELETE" ["v1"; "kv"] true EpDelete;
   mkPattern "GET" ["v1"; "cache"] true EpCacheGet;
   mkPattern "GET" ["v1"; "status"] false EpStatus;
   mkPattern "GET" ["metrics"] false EpMetrics;
   mkPattern "GET" ["healthz"] false EpHealthz].

Definition pathUnescape (s : string) : string := default s (PathUnescape s).

Definition firstSegment (path : string) : string * string :=
  match path with
  | EmptyString => ("", "")
  | String _ rest =>
      if bool_decide (rest = "") then ("/", "")
      else match Cut "/"%char rest with
           | Some (seg, rest) => (pathUnescape seg, String "/" rest)
           | None => (pathUnescape rest, "")
           end
  end.

(** The value of the wildcard, empty where there is none. *)
Fixpoint matchPath (literals : list string) (multi : bool) (path : string) : option string :=
  match literals with
  | [] =>
      match path with
      | EmptyString => if multi then None else Some ""
      | String _ rest => if multi then Some (pathUnescape rest) else None
      end
  | l :: literals =>
      if bool_decide (path = "") then None
      else
        let '(seg, rest) := firstSegment path in
        if bool_decide (seg = l) then matchPath literals multi rest else None
  end.

Fixpoint first_match (method path : string) (ps : list pattern) : option (pattern * string) :=
  match ps with
  | [] => None
  | p :: ps =>
      if bool_decide (pt_method p = method) then
        match matchPath (pt_literals p) (pt_multi p) path with
        | Some key => Some (p, key)
        | None => first_match method path ps
        end
      else first_match method path ps
  end.

(** A pattern for GET also serves HEAD. *)
Definition mux_match (method path : string) : option (pattern * string) :=
  match first_match method path patterns with
  | Some x => Some x
  | None => if bool_decide (method = "HEAD") then first_match "GET" path patterns else None
  end.

Definition count_slashes (s : string) : nat := (length (Split "/"%char s) - 1)%nat.

(** The wildcard of the pattern matched nothing but the end of the path. *)
Definition exactMatch (m : option (pattern * string)) (path : string) : bool :=
  match m with
  | None => false
  | Some (p, _) =>
      if negb (pt_multi p) then true
      else ends_with_slash path && (length (pt_literals p) + 1 =? count_slashes path)%nat
  end.

(** ** Requests *)
Inductive routed :=
| RHandle (ep : endpoint) (key : string)
| RRedirect
| RNotAllowed
| RNotFound.

#[global] Instance routed_eq_dec : EqDecision routed.
Proof. solve_decision. Defined.

Definition allowed (path : string) : bool :=
  existsb (fun p => bool_decide (is_Some (matchPath (pt_literals p) (pt_multi p) path)) ||
    (negb (ends_with_slash path) && bool_decide (is_Some (matchPath (pt_literals p) (pt_multi p) (path +:+ "/"))))) patterns.

Definition findHandler (r : Request) : routed :=
  let escaped := EscapedPath r in
  let path := if bool_decide (rq_method r = "CONNECT") then escaped else cleanPath escaped in
  let m := mux_match (rq_method r) path in
  if negb (exactMatch m path) && negb (ends_with_slash path) && negb (bool_decide (path = "")) &&
     exactMatch (mux_match (rq_method r) (path +:+ "/")) (path +:+ "/") then RRedirect
  else if negb (bool_decide (path = escaped)) then RRedirect
  else
    match m with
    | Some (p, key) => RHandle (pt_endpoint p) key
    | None => if allowed path then RNotAllowed else RNotFound
    end.

Definition route (r : Request) : option (endpoint * string) :=
  match findHandler r with RHandle ep key => Some (ep, key) | _ => None end.

(** ** Paths of keys *)
Lemma segment_byte_path a : segment_byte a = true -> path_byte a = true.
Proof. by destruct a as [[] [] [] [] [] [] [] []]. Qed.

Lemma validEncoded_app x y : validEncoded (x +:+ y) = validEncoded x && validEncoded y.
Proof. induction x as [|a x IH]; [done|]. rewrite app_String. cbn. by rewrite IH, andb_assoc. Qed.

Lemma validEncoded_PathEscape s : validEncoded (PathEscape s) = true.
Proof.
  assert (Hup : forall n, n < 16 -> path_byte (upper_hex n) = true).
  { intros n Hn. assert (Hc : n ∈ [0; 1; 2; 3; 4; 5; 6; 7; 8; 9; 10; 11; 12; 13; 14; 15]) by (rewrite !elem_of_cons; lia).
    repeat (apply elem_of_cons in Hc as [->|Hc]; [by vm_compute|]). by apply elem_of_nil in Hc. }
  induction s as [|a s IH]; [done|]. cbn [PathEscape]. destruct (segment_byte a) eqn:Ha; cbn [validEncoded]; rewrite IH.
  - by rewrite segment_byte_path.
  - pose proof (N_ascii_lt a). rewrite !Hup; [by vm_compute|apply N.mod_lt; lia|apply N.Div0.div_lt_upper_bound; lia].
Qed.

Lemma PathEscape_inj s t : PathEscape s = PathEscape t -> s = t.
Proof. intros He. apply (f_equal PathUnescape) in He. rewrite !PathUnescape_PathEscape in He. by injection He. Qed.

Lemma pathUnescape_PathEscape s : pathUnescape (PathEscape s) = s.
Proof. unfold pathUnescape. by rewrite PathUnescape_PathEscape. Qed.

Lemma PathEscape_no_slash s : has_byte "/"%char (PathEscape s) = false.
Proof. by apply has_byte_PathEscape. Qed.

Lemma ends_with_slash_app x y : y <> "" -> ends_with_slash (x +:+ y) = ends_with_slash y.
Proof.
  intros Hy. induction x as [|a x IH]; [done|]. rewrite app_String. cbn. rewrite IH. destruct (x +:+ y) eqn:E; [|done].
  destruct x; [|done]. by destruct y.
Qed.

Lemma ends_with_slash_has s : has_byte "/"%char s = false -> ends_with_slash s = false.
Proof.
  induction s as [|a s IH]; [done|]. cbn. intros [Ha Hs]%orb_false_iff. destruct s; [done|]. by apply IH.
Qed.

(** The directories keys live in. *)
Definition key_dir (d : string) : Prop := d = "kv" \/ d = "cache".

(** A key that is a path segment of its own; the two others name directories. *)
Definition plain_key (key : string) : Prop := key <> "." /\ key <> "..".

#[global] Instance plain_key_dec key : Decision (plain_key key).
Proof. unfold plain_key. apply _. Defined.

Lemma Split_dir d x : key_dir d -> has_byte "/"%char x = false -> Split "/"%char ("/v1/" +:+ d +:+ "/" +:+ x) = [""; "v1"; d; x].
Proof.
  intros Hd Hx. change ("/v1/" +:+ d +:+ "/" +:+ x) with ("" +:+ String "/" ("v1" +:+ String "/" (d +:+ String "/" x))).
  destruct Hd as [-> | ->]; rewrite !Split_app by done; by rewrite Split_none.
Qed.

Lemma cleanPath_rooted s :
  cleanPath (String "/" s) =
    if ends_with_slash (String "/" s) && negb (bool_decide (Clean (String "/" s) = "/")) then Clean (String "/" s) +:+ "/"
    else Clean (String "/" s).
Proof.
  unfold cleanPath. rewrite bool_decide_false by done. assert (Hp : HasPrefix (String "/" s) "/" = true) by (cbn; by destruct s).
  by rewrite Hp.
Qed.

Lemma cleanPath_key d key : key_dir d -> plain_key key ->
  cleanPath ("/v1/" +:+ d +:+ "/" +:+ PathEscape key) = "/v1/" +:+ d +:+ "/" +:+ PathEscape key.
Proof.
  intros Hd [Hk1 Hk2]. set (p := "/v1/" +:+ d +:+ "/" +:+ PathEscape key).
  assert (Hs1 : PathEscape key <> ".") by (intros E; by apply (PathEscape_inj key ".") in E).
  assert (Hs2 : PathEscape key <> "..") by (intros E; by apply (PathEscape_inj key "..") in E).
  destruct (decide (PathEscape key = "")) as [E|Hne]; [unfold p; rewrite E; by destruct Hd as [-> | ->]|].
  assert (Hc : Clean p = p).
  { unfold Clean, p. rewrite Split_dir by (done || apply PathEscape_no_slash).
    assert (Hfold : foldl clean_segment [] [""; "v1"; d; PathEscape key] = [PathEscape key; d; "v1"]).
    { destruct Hd as [-> | ->]; cbn [foldl]; unfold clean_segment; by rewrite !(bool_decide_false (PathEscape key = _)). }
    rewrite Hfold. done. }
  assert (He : ends_with_slash p = false).
  { unfold p. rewrite !ends_with_slash_app by (done || by destruct Hd as [-> | ->]). apply ends_with_slash_has, PathEscape_no_slash. }
  change p with (String "/" ("v1/" +:+ d +:+ "/" +:+ PathEscape key)) at 1. rewrite cleanPath_rooted.
  change (String "/" ("v1/" +:+ d +:+ "/" +:+ PathEscape key)) with p. by rewrite He, Hc.
Qed.

(** ** The mux finds every key by the path clients send for it *)
Lemma matchPath_literal l literals multi rest :
  l <> "" -> has_byte "/"%char l = false -> pathUnescape l = l ->
  matchPath (l :: literals) multi (String "/" (l +:+ String "/" rest)) = matchPath literals multi (String "/" rest).
Proof.
  intros Hl Hs Hu. cbn [matchPath firstSegment]. rewrite bool_decide_false by done. rewrite bool_decide_false by by destruct l.
  rewrite Cut_app by done. rewrite Hu. by rewrite bool_decide_true.
Qed.

Lemma matchPath_dir d x : key_dir d -> matchPath ["v1"; d] true ("/v1/" +:+ d +:+ "/" +:+ x) = Some (pathUnescape x).
Proof.
  intros Hd. change ("/v1/" +:+ d +:+ "/" +:+ x) with (String "/" ("v1" +:+ String "/" (d +:+ String "/" x))).
  rewrite matchPath_literal by done. by rewrite matchPath_literal by (by destruct Hd as [-> | ->]).
Qed.

(** The routes of the keys. *)
Definition key_routes : list (string * string * endpoint) :=
  [("PUT", "kv", EpPut); ("GET", "kv", EpGet); ("DELETE", "kv", EpDelete); ("GET", "cache", EpCacheGet)].

Lemma key_routes_dir method d ep : (method, d, ep) ∈ key_routes -> key_dir d /\ method <> "CONNECT".
Proof. unfold key_routes, key_dir. intros Hm. repeat (apply elem_of_cons in Hm as [[= -> -> ->]|Hm]); [by auto..|by apply elem_of_nil in Hm]. Qed.

Lemma mux_match_dir method d ep x :
  (method, d, ep) ∈ key_routes ->
  mux_match method ("/v1/" +:+ d +:+ "/" +:+ x) = Some (mkPattern method ["v1"; d] true ep, pathUnescape x).
Proof.
  intros Hm. pose proof (matchPath_dir d x (proj1 (key_routes_dir _ _ _ Hm))) as Hp.
  assert (Hk : matchPath ["v1"; "kv"] true ("/v1/" +:+ "cache" +:+ "/" +:+ x) = None).
  { change ("/v1/" +:+ "cache" +:+ "/" +:+ x) with (String "/" ("v1" +:+ String "/" ("cache" +:+ String "/" x))). by rewrite matchPath_literal. }
  unfold mux_match, patterns, key_routes in *.
  repeat (apply elem_of_cons in Hm as [[= -> -> ->]|Hm]); [..|by apply elem_of_nil in Hm]; cbn [first_match pt_method pt_literals pt_multi].
  all: rewrite ?bool_decide_false, ?bool_decide_true by done; rewrite ?Hk; by rewrite ?bool_decide_true, Hp by done.
Qed.

Lemma no_subtree_redirect method d ep x :
  (method, d, ep) ∈ key_routes -> has_byte "/"%char x = false ->
  exactMatch (mux_match method (("/v1/" +:+ d +:+ "/" +:+ x) +:+ "/")) (("/v1/" +:+ d +:+ "/" +:+ x) +:+ "/") = false.
Proof.
  intros Hm Hx. destruct (key_routes_dir _ _ _ Hm) as [Hd _].
  assert (Ea : ("/v1/" +:+ d +:+ "/" +:+ x) +:+ "/" = "/v1/" +:+ d +:+ "/" +:+ (x +:+ "/")) by (by destruct Hd as [-> | ->]).
  rewrite Ea, (mux_match_dir _ _ ep) by done. unfold exactMatch, count_slashes. cbn [pt_multi pt_literals negb length].
  change ("/v1/" +:+ d +:+ "/" +:+ x +:+ "/") with ("" +:+ String "/" ("v1" +:+ String "/" (d +:+ String "/" (x +:+ String "/" "")))).
  rewrite !Split_app by (done || by destruct Hd as [-> | ->]). by rewrite andb_false_r.
Qed.

Lemma key_EscapedPath d key r :
  key_dir d -> wire_path r = "/v1/" +:+ d +:+ "/" +:+ PathEscape key -> EscapedPath r = "/v1/" +:+ d +:+ "/" +:+ PathEscape key.
Proof.
  intros Hd Hw. unfold EscapedPath. rewrite Hw. assert (Hv : validEncoded ("/v1/" +:+ d +:+ "/" +:+ PathEscape key) = true).
  { rewrite !validEncoded_app, validEncoded_PathEscape. by destruct Hd as [-> | ->]. }
  by rewrite Hv, orb_true_r.
Qed.

Lemma find_key method d ep key r :
  (method, d, ep) ∈ key_routes -> rq_method r = method -> wire_path r = "/v1/" +:+ d +:+ "/" +:+ PathEscape key -> plain_key key ->
  findHandler r = RHandle ep key.
Proof.
  intros Hm Hme Hw Hk. destruct (key_routes_dir _ _ _ Hm) as [Hd Hc]. unfold findHandler.
  rewrite (key_EscapedPath d key), Hme, bool_decide_false by done.
  rewrite cleanPath_key by done. rewrite no_subtree_redirect with (ep := ep) by (done || apply PathEscape_no_slash).
  rewrite andb_false_r, bool_decide_true by done. rewrite (mux_match_dir _ _ ep) by done. by rewrite pathUnescape_PathEscape.
Qed.

(** C32: the gateway's mux finds every key, under each of the four routes, by the path that clients and other
    gateways send for it, whatever bytes the key has; only the keys [.] and [..], which are segments a path is cleaned of, are not found. *)
Theorem mux_finds_every_key method d ep key r :
  (method, d, ep) ∈ key_routes -> rq_method r = method -> wire_path r = "/v1/" +:+ d +:+ "/" +:+ PathEscape key ->
  if decide (plain_key key) then findHandler r = RHandle ep key else forall ep' key', findHandler r <> RHandle ep' key'.
Proof.
  intros Hm Hme Hw. case_decide as Hk; [by eapply find_key|]. destruct (key_routes_dir _ _ _ Hm) as [Hd _].
  assert (Hkk : key = "." \/ key = "..").
  { unfold plain_key in Hk. destruct (decide (key = ".")); [by left|]. destruct (decide (key = "..")); [by right|]. by destruct Hk. }
  unfold findHandler. rewrite (key_EscapedPath d key), Hme by done. unfold key_routes in Hm. intros ep' key'.
  repeat (apply elem_of_cons in Hm as [[= -> -> ->]|Hm]); [..|by apply elem_of_nil in Hm]; destruct Hkk as [-> | ->]; vm_compute; discriminate.
Qed.

Lemma mux_finds_every_key_witness :
  findHandler (mkRequest "PUT" "/v1/kv/a b/../c" "/v1/kv/a%20b%2F..%2Fc?expectedVersion=3" ∅ ∅ (Some [])) = RHandle EpPut "a b/../c".
Proof.
  exact (mux_finds_every_key "PUT" "kv" EpPut "a b/../c"
    (mkRequest "PUT" "/v1/kv/a b/../c" "/v1/kv/a%20b%2F..%2Fc?expectedVersion=3" ∅ ∅ (Some []))
    ltac:(repeat constructor) eq_refl eq_refl).
Defined.

(** A request that is not for a key: the mux cleans the path, redirects, or refuses the method. *)
Lemma mux_examples :
  findHandler (mkRequest "GET" "/v1/kv" "/v1/kv" ∅ ∅ None) = RRedirect /\
  findHandler (mkRequest "GET" "/v1//status" "/v1//status" ∅ ∅ None) = RRedirect /\
  findHandler (mkRequest "HEAD" "/v1/status" "/v1/status?x=1" ∅ ∅ None) = RHandle EpStatus "" /\
  findHandler (mkRequest "POST" "/v1/kv/a" "/v1/kv/a" ∅ ∅ None) = RNotAllowed /\
  findHandler (mkRequest "PUT" "/v1/cache/a" "/v1/cache/a" ∅ ∅ None) = RNotAllowed /\
  findHandler (mkRequest "GET" "/v2" "/v2" ∅ ∅ None) = RNotFound.
Proof. vm_compute. split_and!; reflexivity. Qed.

(** Keys named by one or two dots: the cleaned path is another one, so no handler is found for them. *)
Lemma dot_keys_are_redirected :
  findHandler (mkRequest "PUT" "/v1/kv/." "/v1/kv/." ∅ ∅ None) = RRedirect /\
  findHandler (mkRequest "GET" "/v1/kv/.." "/v1/kv/.." ∅ ∅ None) = RRedirect.
Proof. vm_compute. split; reflexivity. Qed.
