(* ===== verification/Server.v ===== *)
(** * The HTTP gateway (internal/server)

    Every handler is a function from the request and the answers of what it calls (the
    node, the leader it forwards to, the JSON decoder, the clock's formats, the generator of
    request IDs) to the response and the list of effects it has, in order: writes and reads
    on the node, invalidations queued, requests forwarded. *)

From Stdlib Require Import Ascii.
From S2P Require Import Prelude Types GoStrings Store Raft Http Mux.

Definition maxBodyBytes : N := 2 ^ 20.
Definition headerForwarded : string := "X-Edgekv-Forwarded".
Definition headerNoForward : string := "X-Edgekv-No-Forward".
Definition headerRequestID : string := "X-Request-Id".
Definition headerVersion : string := "X-Edgekv-Version".
Definition headerServedBy : string := "X-Edgekv-Served-By".
Definition headerShard : string := "X-Edgekv-Shard".

Record ServerConfig := mkServerConfig {
  NodeID : string;
  PeerHTTP : gmap string string;
  CacheableNamespaces : list string;
  DefaultTTLSeconds : N;
  MaxTTLSeconds : N;
  Invalidations : bool;           (* a queue is configured *)
  RequestTimeout : Z;
}.

#[global] Instance eta_ServerConfig : Eta ServerConfig := fun c =>
  mkServerConfig (NodeID c) (PeerHTTP c) (CacheableNamespaces c) (DefaultTTLSeconds c) (MaxTTLSeconds c) (Invalidations c)
    (RequestTimeout c).

(** The defaults [New] fills in. *)
Definition Server_New (c : ServerConfig) : ServerConfig :=
  c <| RequestTimeout := if (RequestTimeout c =? 0)%Z then 5000000000%Z else RequestTimeout c |>
    <| DefaultTTLSeconds := if DefaultTTLSeconds c =? 0 then 30 else DefaultTTLSeconds c |>
    <| MaxTTLSeconds := if MaxTTLSeconds c =? 0 then 300 else MaxTTLSeconds c |>.

Record putRequest := mkPutRequest {
  pr_RequestID : string;
  pr_Value : string;
  pr_CachePolicy : option (bool * N);   (* cacheable, ttl_seconds *)
}.

(** ** What the handlers call *)
Inductive nodeErr :=
| NotLeader (leader : string)      (* raft.NotLeaderError *)
| OtherErr (detail : string).      (* timeout, shutdown, encoding *)

Inductive getErr :=
| GetNotFound                      (* store.ErrNotFound *)
| GetErr (err : nodeErr).

Record Backend := mkBackend {
  be_Write : Command -> Result + nodeErr;
  be_Get : string -> ReadEntry + getErr;
  be_ShardFor : string -> N;
  be_json : bytes -> putRequest + string;                 (* json.Unmarshal *)
  be_newRequestID : string;
  be_parseURL : string -> option string;                  (* the error, if the URL is bad *)
  be_Do : string -> Request -> Response + string;         (* the leader's answer *)
  be_httpTime : Z -> string;                              (* http.TimeFormat *)
}.

Inductive effect :=
| EWrite (cmd : Command)
| EGet (key : string)
| EEnqueue (path : string)
| EForward (base : string) (r : Request).

#[global] Instance effect_dec_forward (e : effect) : Decision (exists base r, e = EForward base r).
Proof. destruct e; try (right; intros (? & ? & ?); done). left. eauto. Defined.

(** ** Helpers *)
Definition namespaceCacheable (c : ServerConfig) (key : string) : bool :=
  existsb (fun prefix => HasPrefix key prefix) (CacheableNamespaces c).

Definition quote : ascii := ascii_of_N 34.
Definition etag (version : N) : string := String quote ("v" +:+ FormatUint version +:+ String quote EmptyString).

Definition firstNonEmpty (vals : list string) : string :=
  default "" (head (filter (fun v => v <> "") vals)).

Definition writeJSON (code : N) (v : Body) (w : Response) : Response :=
  (writeHeader code (setHeader "Content-Type" "application/json" w)) <| rs_body := v |>.

Definition writeError (code : N) (kind detail : string) : Response -> Response := writeJSON code (BError kind detail).

Definition toReadResponse (key : string) (e : ReadEntry) : Body := BRead key (re_Value e) (re_Version e) (re_UpdatedUnixMs e).

(** ** Handlers *)
Section Handlers.
Context (c : ServerConfig) (be : Backend).

(** [forward]: one hop to the leader, with the headers that matter and the request ID. *)
Definition forwarded_header (r : Request) (requestID : string) : Header :=
  let h := foldl (fun h k => if bool_decide (hdr_Get (rq_header r) k = "") then h else hdr_Set k (hdr_Get (rq_header r) k) h)
             ∅ ["Content-Type"; "If-None-Match"] in
  let h := hdr_Set headerForwarded (NodeID c) h in
  if bool_decide (requestID = "") then h else hdr_Set headerRequestID requestID h.

Definition forward (r : Request) (body : bytes) (leaderURL requestID : string) (w : Response) : Response * list effect :=
  match be_parseURL be (leaderURL +:+ rq_uri r) with
  | Some err => (writeError 500 "forward_failed" err w, [])
  | None =>
      let out := r <| rq_header := forwarded_header r requestID |> <| rq_body := Some body |> in
      match be_Do be leaderURL out with
      | inr err =>
          (writeJSON 503 (BUnavailable ("forward to leader failed: " +:+ err)) (setHeader "Retry-After" "1" w), [EForward leaderURL out])
      | inl resp =>
          let w := w <| rs_header := copyHeader (rs_header w) (rs_header resp) |> in
          ((writeHeader (status resp) w) <| rs_body := rs_body resp |>, [EForward leaderURL out])
      end
  end.

Definition handleRaftError (r : Request) (body : bytes) (key requestID : string) (err : nodeErr) (w : Response) :
    Response * list effect :=
  match err with
  | NotLeader leader =>
      let leaderURL := default "" (PeerHTTP c !! leader) in
      let alreadyForwarded := negb (bool_decide (hdr_Get (rq_header r) headerForwarded = "")) in
      let wantsRedirect := negb (bool_decide (hdr_Get (rq_header r) headerNoForward = "")) in
      if negb (bool_decide (leaderURL = "")) && negb (bool_decide (leader = NodeID c)) && negb alreadyForwarded && negb wantsRedirect
      then forward r body leaderURL requestID w
      else (writeJSON 421 (BNotLeader (be_ShardFor be key) leader leaderURL) (setHeader "Retry-After" "0" w), [])
  | OtherErr detail => (writeJSON 503 (BUnavailable detail) (setHeader "Retry-After" "1" w), [])
  end.

(** [write]: the command goes through the node; the invalidation is queued only once it is committed. *)
Definition write (r : Request) (body : bytes) (cmd : Command) (w : Response) : Response * list effect :=
  match be_Write be cmd with
  | inr err =>
      let '(w, es) := handleRaftError r body (cmd_Key cmd) (cmd_RequestId cmd) err w in (w, EWrite cmd :: es)
  | inl res =>
      let w := setHeader headerShard (FormatUint (be_ShardFor be (cmd_Key cmd))) (setHeader headerServedBy (NodeID c) w) in
      match res_Status res with
      | STATUS_OK =>
          (writeJSON 200 (BWrite (cmd_Key cmd) (res_Version res) (be_ShardFor be (cmd_Key cmd))) w,
           EWrite cmd :: (if Invalidations c && namespaceCacheable c (cmd_Key cmd) then [EEnqueue ("/v1/cache/" +:+ cmd_Key cmd)] else []))
      | STATUS_VERSION_MISMATCH => (writeJSON 412 (BMismatch (res_Version res)) w, [EWrite cmd])
      | STATUS_NOT_FOUND => (writeError 404 "not_found" "key does not exist" w, [EWrite cmd])
      | STATUS_OTHER _ => (w, [EWrite cmd])
      end
  end.

(** The command a PUT asks for, or the error response. *)
Definition put_command (key : string) (r : Request) (body : bytes) : Command + (N * string * string) :=
  match be_json be body with
  | inr err => inr (400, "bad_json", err)
  | inl req =>
      let id := firstNonEmpty [pr_RequestID req; hdr_Get (rq_header r) headerRequestID; be_newRequestID be] in
      let ev := query r "expectedVersion" in
      match (if bool_decide (ev = "") then Some None else Some <$> ParseUint ev 64) with
      | None => inr (400, "bad_expected_version", "expectedVersion must be a non-negative integer")
      | Some expected =>
          let cmd := mkCommand OP_PUT key (String.list_byte_of_string (pr_Value req)) (bool_decide (is_Some expected)) (default 0 expected)
                       id false 0 0 in
          match pr_CachePolicy req with
          | Some (true, ttl) =>
              if namespaceCacheable c key then
                inl (cmd <| cmd_Cacheable := true |>
                         <| cmd_TtlSeconds := if ttl =? 0 then DefaultTTLSeconds c else N.min (N.max ttl 1) (MaxTTLSeconds c) |>)
              else inr (400, "namespace_not_cacheable", "keys outside [" +:+ Join " " (CacheableNamespaces c) +:+ "] can never be cached")
          | _ => inl cmd
          end
      end
  end.

Definition handlePut (key : string) (r : Request) (w : Response) : Response * list effect :=
  match rq_body r with
  | None => (writeError 413 "body_too_large" "request body exceeds 1 MiB" w, [])
  | Some body =>
      if maxBodyBytes <? lenN body then (writeError 413 "body_too_large" "request body exceeds 1 MiB" w, [])
      else match put_command key r body with
           | inr (code, kind, detail) => (writeError code kind detail w, [])
           | inl cmd => write r body cmd w
           end
  end.

Definition delete_command (key : string) (r : Request) : Command :=
  mkCommand OP_DELETE key [] false 0
    (firstNonEmpty [query r "request_id"; hdr_Get (rq_header r) headerRequestID; be_newRequestID be]) false 0 0.

Definition handleDelete (key : string) (r : Request) (w : Response) : Response * list effect :=
  write r [] (delete_command key r) w.

(** [read]: the entry, or the response that has been written already. *)
Definition read (r : Request) (key : string) (w : Response) : (Response * ReadEntry) + (Response * list effect) :=
  let answer := be_Get be key in
  let w := setHeader headerShard (FormatUint (be_ShardFor be key)) w in
  match answer with
  | inl e => inl (setHeader headerServedBy (NodeID c) w, e)
  | inr GetNotFound => inr (writeError 404 "not_found" "key does not exist" (setHeader headerServedBy (NodeID c) w), [EGet key])
  | inr (GetErr err) => let '(w, es) := handleRaftError r [] key "" err w in inr (w, EGet key :: es)
  end.

Definition handleGet (key : string) (r : Request) (w : Response) : Response * list effect :=
  let w := setHeader "Cache-Control" "no-store" w in
  match read r key w with
  | inr done => done
  | inl (w, e) =>
      (writeJSON 200 (toReadResponse key e) (setHeader headerVersion (FormatUint (re_Version e)) (setHeader "ETag" (etag (re_Version e)) w)),
       [EGet key])
  end.

Definition immutable : string := "public, max-age=31536000, immutable".
Definition public_max_age (ttl : N) : string := "public, max-age=" +:+ FormatUint ttl.

Definition handleCacheGet (key : string) (r : Request) (w : Response) : Response * list effect :=
  let w := setHeader "Cache-Control" "no-store" w in
  if negb (namespaceCacheable c key)
  then (writeError 403 "not_cacheable" "this key's namespace is never served from the cache path" w, [])
  else
    match read r key w with
    | inr done => done
    | inl (w, e) =>
        if negb (re_Cacheable e)
        then (writeError 403 "not_cacheable" "this key was not written with cache_policy.cacheable" w, [EGet key])
        else
          let v := query r "v" in
          match (if bool_decide (v = "") then Some (public_max_age (re_TTLSeconds e))
                 else if bool_decide (ParseUint v 64 = Some (re_Version e)) then Some immutable else None) with
          | None => (writeError 404 "version_not_found" "only the current version is retained" w, [EGet key])
          | Some cc =>
              let w := setHeader "Cache-Control" cc w in
              let w := setHeader "ETag" (etag (re_Version e)) w in
              let w := setHeader headerVersion (FormatUint (re_Version e)) w in
              let w := setHeader "Last-Modified" (be_httpTime be (re_UpdatedUnixMs e)) w in
              let m := hdr_Get (rq_header r) "If-None-Match" in
              if negb (bool_decide (m = "")) && bool_decide (m = etag (re_Version e))
              then (writeHeader 304 w, [EGet key])
              else (writeJSON 200 (toReadResponse key e) w, [EGet key])
          end
    end.

(** The key-value endpoints. *)
Definition serve (r : Request) : option (Response * list effect) :=
  match route r with
  | Some (EpPut, key) => Some (handlePut key r fresh)
  | Some (EpGet, key) => Some (handleGet key r fresh)
  | Some (EpDelete, key) => Some (handleDelete key r fresh)
  | Some (EpCacheGet, key) => Some (handleCacheGet key r fresh)
  | _ => None
  end.
End Handlers.

(** ** Cache-Control *)
Definition cacheControl (w : Response) : string := hdr_Get (rs_header w) "Cache-Control".

Lemma cc_setHeader k v w : k <> "Cache-Control" -> cacheControl (setHeader k v w) = cacheControl w.
Proof. intros Hk. unfold cacheControl, setHeader. cbn. by rewrite hdr_Get_Set_ne. Qed.

Lemma cc_set v w : cacheControl (setHeader "Cache-Control" v w) = v.
Proof. unfold cacheControl, setHeader. cbn. by rewrite hdr_Get_Set. Qed.

Lemma cc_writeHeader code w : cacheControl (writeHeader code w) = cacheControl w.
Proof. unfold cacheControl, writeHeader. by destruct (rs_code w). Qed.

Lemma cc_writeJSON code v w : cacheControl (writeJSON code v w) = cacheControl w.
Proof. unfold writeJSON. change (cacheControl (writeHeader code (setHeader "Content-Type" "application/json" w)) = cacheControl w).
  rewrite cc_writeHeader. by apply cc_setHeader. Qed.

Lemma cc_fresh : cacheControl fresh = "".
Proof. done. Qed.

#[export] Hint Rewrite cc_writeHeader cc_writeJSON cc_set cc_fresh : edgekv.
#[export] Hint Rewrite cc_setHeader using done : edgekv.

Definition forwards (e : effect) : Prop := exists base r, e = EForward base r.

Lemma cc_raftError c be r body key id err w w' es :
  handleRaftError c be r body key id err w = (w', es) -> Forall (fun e => ~ forwards e) es -> cacheControl w' = cacheControl w.
Proof.
  unfold handleRaftError, forward, writeError. intros Hh Hes. destruct err.
  - destruct (_ && _); [|injection Hh as <- <-; by autorewrite with edgekv].
    destruct (be_parseURL _ _); [injection Hh as <- <-; by autorewrite with edgekv|].
    destruct (be_Do _ _ _); injection Hh as <- <-; apply Forall_cons in Hes as [Hes _]; destruct Hes; by eexists _, _.
  - injection Hh as <- <-. by autorewrite with edgekv.
Qed.

Lemma cc_write c be r body cmd w w' es :
  write c be r body cmd w = (w', es) -> Forall (fun e => ~ forwards e) es -> cacheControl w' = cacheControl w.
Proof.
  unfold write, writeError. intros Hw Hes. destruct (be_Write be cmd) as [res|err].
  - destruct (res_Status res); injection Hw as <- <-; by autorewrite with edgekv.
  - destruct (handleRaftError _ _ _ _ _ _ _ _) as [w1 es1] eqn:Hh. injection Hw as <- <-. apply Forall_cons in Hes as [_ Hes].
    by eapply cc_raftError.
Qed.

Lemma cc_read c be r key w w' es :
  read c be r key w = inr (w', es) -> Forall (fun e => ~ forwards e) es -> cacheControl w' = cacheControl w.
Proof.
  unfold read, writeError. intros Hr Hes. destruct (be_Get be key) as [e|[|err]]; [done|injection Hr as <- <-; by autorewrite with edgekv|].
  destruct (handleRaftError _ _ _ _ _ _ _ _) as [w1 es1] eqn:Hh. injection Hr as <- <-. apply Forall_cons in Hes as [_ Hes].
  rewrite (cc_raftError _ _ _ _ _ _ _ _ _ _ Hh Hes). by autorewrite with edgekv.
Qed.

Lemma read_entry c be r key w w' e : read c be r key w = inl (w', e) -> be_Get be key = inl e /\ cacheControl w' = cacheControl w /\ rs_code w' = rs_code w.
Proof.
  unfold read. destruct (be_Get be key) as [e'|[|err]]; [|done|by destruct (handleRaftError _ _ _ _ _ _ _ _)].
  intros [= <- <-]. split_and!; [done| |done]. by autorewrite with edgekv.
Qed.

Lemma handleCacheGet_cc c be key r w0 w es :
  handleCacheGet c be key r w0 = (w, es) -> Forall (fun e => ~ forwards e) es -> rs_code w0 = None ->
  cacheControl w = "no-store" \/
  exists e, namespaceCacheable c key = true /\ be_Get be key = inl e /\ re_Cacheable e = true /\ (status w = 200 \/ status w = 304) /\
    (query r "v" = "" /\ cacheControl w = public_max_age (re_TTLSeconds e) \/
     ParseUint (query r "v") 64 = Some (re_Version e) /\ cacheControl w = immutable).
Proof.
  unfold handleCacheGet, writeError. intros Hs Hes H0.
  destruct (namespaceCacheable c key) eqn:Hnc; cbn [negb] in Hs; [|left; injection Hs as <- <-; by autorewrite with edgekv].
  destruct (read _ _ _ _ _) as [[w1 e]|[w1 es1]] eqn:Hr.
  2: { left. injection Hs as <- <-. apply cc_read in Hr; [|done]. by autorewrite with edgekv in Hr. }
  apply read_entry in Hr as (Hget & Hcc & Hcode). autorewrite with edgekv in Hcc. cbn in Hcode. rewrite H0 in Hcode.
  destruct (re_Cacheable e) eqn:Hce; cbn [negb] in Hs; [|left; injection Hs as <- <-; by autorewrite with edgekv].
  destruct (if bool_decide (query r "v" = "") then _ else _) as [cc|] eqn:Hv; [|left; injection Hs as <- <-; by autorewrite with edgekv].
  right. exists e. split_and!; [done..| |].
  - destruct (_ && _) in Hs; injection Hs as <- <-; unfold status, writeJSON, writeHeader; cbn; rewrite Hcode; cbn; [by right|by left].
  - assert (Hw : cacheControl w = cc) by (destruct (_ && _) in Hs; injection Hs as <- <-; by autorewrite with edgekv).
    rewrite Hw. destruct (decide (query r "v" = "")) as [Hq|Hq].
    + rewrite bool_decide_true in Hv by done. injection Hv as <-. by left.
    + rewrite bool_decide_false in Hv by done. right.
      destruct (decide (ParseUint (query r "v") 64 = Some (re_Version e))) as [Hp|Hp].
      * rewrite bool_decide_true in Hv by done. by injection Hv as <-.
      * by rewrite bool_decide_false in Hv.
Qed.

(** C35: what may be cached: an answer this node gives itself carries a Cache-Control other than "no-store"
    only on the cache path, for a key in a cacheable namespace whose current value was written as cacheable;
    it then promises the TTL the value was written with, or immutability for the version the URL names,
    and is a 200 or a 304. In particular the linearizable path is never cacheable. *)
Theorem cacheable_responses_are_allowed c be r w es :
  serve c be r = Some (w, es) -> Forall (fun e => ~ forwards e) es ->
  cacheControl w <> "" -> cacheControl w <> "no-store" ->
  exists key e, route r = Some (EpCacheGet, key) /\ namespaceCacheable c key = true /\
    be_Get be key = inl e /\ re_Cacheable e = true /\ (status w = 200 \/ status w = 304) /\
    (query r "v" = "" /\ cacheControl w = public_max_age (re_TTLSeconds e) \/
     ParseUint (query r "v") 64 = Some (re_Version e) /\ cacheControl w = immutable).
Proof.
  unfold serve. destruct (route r) as [[[] key]|] eqn:Hroute; intros Hs Hes Hne Hns; [| | | |done..]; injection Hs as Hs.
  - exfalso. apply Hne. unfold handlePut, writeError in Hs. destruct (rq_body r) as [body|]; [|injection Hs as <- <-; by autorewrite with edgekv].
    destruct (_ <? _); [injection Hs as <- <-; by autorewrite with edgekv|].
    destruct (put_command _ _ _ _ _) as [cmd|[[code kind] detail]]; [|injection Hs as <- <-; by autorewrite with edgekv].
    by rewrite (cc_write _ _ _ _ _ _ _ _ Hs Hes).
  - exfalso. unfold handleGet in Hs. destruct (read _ _ _ _ _) as [[w1 e]|[w1 es1]] eqn:Hr.
    + injection Hs as <- <-. apply read_entry in Hr as (_ & Hcc & _). apply Hns. autorewrite with edgekv. rewrite Hcc. by autorewrite with edgekv.
    + injection Hs as <- <-. apply cc_read in Hr; [|done]. apply Hns. rewrite Hr. by autorewrite with edgekv.
  - exfalso. apply Hne. unfold handleDelete in Hs. by rewrite (cc_write _ _ _ _ _ _ _ _ Hs Hes).
  - exists key. destruct (handleCacheGet_cc _ _ _ _ _ _ _ Hs Hes eq_refl) as [Hcc|(e & Hc)]; [done|by exists e].
Qed.

(** ** Forwarding *)
Lemma raftError_forwards c be r body key id err w w' es base out :
  handleRaftError c be r body key id err w = (w', es) -> EForward base out ∈ es ->
  hdr_Get (rq_header r) headerForwarded = "" /\ hdr_Get (rq_header r) headerNoForward = "" /\ (exists leader, err = NotLeader leader /\
    leader <> NodeID c /\ PeerHTTP c !! leader = Some base /\ base <> "") /\
  out = r <| rq_header := forwarded_header c r id |> <| rq_body := Some body |>.
Proof.
  unfold handleRaftError, forward. intros Hh Hin. destruct err as [leader|]; [|injection Hh as <- <-; by apply elem_of_nil in Hin].
  destruct (_ && _) eqn:Hg; [|injection Hh as <- <-; by apply elem_of_nil in Hin].
  rewrite !andb_true_iff, !negb_true_iff, !negb_false_iff, !bool_decide_eq_false, !bool_decide_eq_true in Hg. destruct Hg as [[[Hu Hl] Hf] Hn].
  destruct (be_parseURL _ _); [injection Hh as <- <-; by apply elem_of_nil in Hin|].
  destruct (PeerHTTP c !! leader) as [url|] eqn:Hp; [|done]. cbn in Hu.
  destruct (be_Do _ _ _); injection Hh as <- <-; apply list_elem_of_singleton in Hin; injection Hin as -> ->; split_and!; eauto 10.
Qed.

Lemma write_forwards c be r body cmd w w' es base out :
  write c be r body cmd w = (w', es) -> EForward base out ∈ es ->
  hdr_Get (rq_header r) headerForwarded = "" /\ out = r <| rq_header := forwarded_header c r (cmd_RequestId cmd) |> <| rq_body := Some body |>.
Proof.
  unfold write. intros Hw Hin. destruct (be_Write be cmd) as [res|err].
  - exfalso. destruct (res_Status res); injection Hw as <- <-; try destruct (_ && _); set_solver.
  - destruct (handleRaftError _ _ _ _ _ _ _ _) as [w1 es1] eqn:Hh. injection Hw as <- <-. apply elem_of_cons in Hin as [|Hin]; [done|].
    destruct (raftError_forwards _ _ _ _ _ _ _ _ _ _ _ _ Hh Hin) as (? & _ & _ & ?). done.
Qed.

Lemma read_forwards c be r key w w' es base out :
  read c be r key w = inr (w', es) -> EForward base out ∈ es ->
  hdr_Get (rq_header r) headerForwarded = "" /\ out = r <| rq_header := forwarded_header c r "" |> <| rq_body := Some [] |>.
Proof.
  unfold read. intros Hr Hin. destruct (be_Get be key) as [e|[|err]]; [done|injection Hr as <- <-; set_solver|].
  destruct (handleRaftError _ _ _ _ _ _ _ _) as [w1 es1] eqn:Hh. injection Hr as <- <-. apply elem_of_cons in Hin as [|Hin]; [done|].
  destruct (raftError_forwards _ _ _ _ _ _ _ _ _ _ _ _ Hh Hin) as (? & _ & _ & ?). done.
Qed.

Lemma handleCacheGet_forwards c be key r w w' es base out :
  handleCacheGet c be key r w = (w', es) -> EForward base out ∈ es ->
  hdr_Get (rq_header r) headerForwarded = "" /\ out = r <| rq_header := forwarded_header c r "" |> <| rq_body := Some [] |>.
Proof.
  unfold handleCacheGet. intros Hs Hin. destruct (negb _); [injection Hs as <- <-; set_solver|].
  destruct (read _ _ _ _ _) as [[w1 e]|[w1 es1]] eqn:Hr; [|injection Hs as <- <-; by eapply read_forwards].
  destruct (negb _); [injection Hs as <- <-; set_solver|].
  destruct (if bool_decide _ then _ else _); [|injection Hs as <- <-; set_solver].
  destruct (_ && _) in Hs; injection Hs as <- <-; set_solver.
Qed.

Lemma serve_forwards c be r w es base out :
  serve c be r = Some (w, es) -> EForward base out ∈ es ->
  hdr_Get (rq_header r) headerForwarded = "" /\
  exists id body, out = r <| rq_header := forwarded_header c r id |> <| rq_body := Some body |>.
Proof.
  unfold serve. destruct (route r) as [[[] key]|]; intros Hs Hin; [| | | |done..]; injection Hs as Hs.
  - unfold handlePut in Hs. destruct (rq_body r) as [body|]; [|injection Hs as <- <-; set_solver].
    destruct (_ <? _); [injection Hs as <- <-; set_solver|].
    destruct (put_command _ _ _ _ _) as [cmd|[[code kind] detail]]; [|injection Hs as <- <-; set_solver].
    destruct (write_forwards _ _ _ _ _ _ _ _ _ _ Hs Hin). eauto.
  - unfold handleGet in Hs. destruct (read _ _ _ _ _) as [[w1 e]|[w1 es1]] eqn:Hr; injection Hs as <- <-; [set_solver|].
    destruct (read_forwards _ _ _ _ _ _ _ _ _ Hr Hin). eauto.
  - destruct (write_forwards _ _ _ _ _ _ _ _ _ _ Hs Hin). eauto.
  - destruct (handleCacheGet_forwards _ _ _ _ _ _ _ _ _ Hs Hin). eauto.
Qed.

Lemma forwarded_header_mark c r id : hdr_Get (forwarded_header c r id) headerForwarded = NodeID c.
Proof. unfold forwarded_header. case_bool_decide; rewrite ?hdr_Get_Set_ne by done; apply hdr_Get_Set. Qed.

Lemma forwarded_header_id c r id : id <> "" -> hdr_Get (forwarded_header c r id) headerRequestID = id.
Proof. intros Hid. unfold forwarded_header. rewrite bool_decide_false by done. apply hdr_Get_Set. Qed.

(** A request crosses at most one hop: a node that receives a request another node forwarded never forwards
    it again, whatever its own view of the leader, so requests cannot loop. *)
Theorem forwarded_requests_stop c be r w es base out c' be' w' es' :
  NodeID c <> "" -> serve c be r = Some (w, es) -> EForward base out ∈ es ->
  serve c' be' out = Some (w', es') -> Forall (fun e => ~ forwards e) es'.
Proof.
  intros Hid Hs Hin Hs'. destruct (serve_forwards _ _ _ _ _ _ _ Hs Hin) as (_ & id & body & ->).
  apply Forall_forall. intros e He (b & o & ->). destruct (serve_forwards _ _ _ _ _ _ _ Hs' He) as [Hf _]. cbn in Hf.
  by rewrite forwarded_header_mark in Hf.
Qed.

Lemma firstNonEmpty_ne l : Exists (fun v => v <> "") l -> firstNonEmpty l <> "".
Proof.
  unfold firstNonEmpty. intros He. induction l as [|v l IH]; [by apply Exists_nil in He|]. rewrite filter_cons.
  case_decide; [done|]. apply IH. by apply Exists_cons in He as [|].
Qed.

Lemma firstNonEmpty_again a b id id' : firstNonEmpty [a; b; id] <> "" -> firstNonEmpty [a; firstNonEmpty [a; b; id]; id'] = firstNonEmpty [a; b; id].
Proof.
  unfold firstNonEmpty. intros Hne. destruct (decide (a = "")) as [->|Ha].
  - rewrite (filter_cons_False _ "" [b; id]) in * by tauto. rewrite (filter_cons_False _ "") by tauto. by rewrite filter_cons_True.
  - by rewrite !(filter_cons_True _ a).
Qed.


(** ** Cache policy and invalidation *)

(** The TTL a write records: a command is marked cacheable only for keys in a cacheable namespace and on request;
    its TTL is then at least one second, the requested one cut to the maximum, or the configured default if
    none was requested; any other command has no TTL. *)
Theorem put_ttl_bounds c0 be key r body cmd (c := Server_New c0) :
  put_command c be key r body = inl cmd ->
  (cmd_Cacheable cmd = true /\ namespaceCacheable c key = true /\ 1 <= cmd_TtlSeconds cmd /\
   (cmd_TtlSeconds cmd <= MaxTTLSeconds c \/
    cmd_TtlSeconds cmd = DefaultTTLSeconds c /\ exists req, be_json be body = inl req /\ pr_CachePolicy req = Some (true, 0))) \/
  (cmd_Cacheable cmd = false /\ cmd_TtlSeconds cmd = 0).
Proof.
  unfold put_command. destruct (be_json be body) as [req|] eqn:Hj; [|done]. destruct (if bool_decide _ then _ else _); [|done].
  assert (Hd : 1 <= DefaultTTLSeconds c /\ 1 <= MaxTTLSeconds c).
  { unfold c, Server_New. cbn. destruct (N.eqb_spec (DefaultTTLSeconds c0) 0), (N.eqb_spec (MaxTTLSeconds c0) 0); lia. }
  clearbody c.
  destruct (pr_CachePolicy req) as [[[] ttl]|] eqn:Hp; [|intros [= <-]; by right..].
  destruct (namespaceCacheable c key) eqn:Hn; [|done]. intros [= <-]. left. cbn. destruct (N.eqb_spec ttl 0) as [->|Hz].
  - split_and!; [done..|lia|]. right. eauto.
  - split_and!; [done..|lia|]. left. lia.
Qed.

(** Invalidation follows the commit: a path is queued for invalidation only after the write has been
    committed with success, only for keys that may be cached, and it is the key's path; and if a queue is
    configured such a write always queues it. *)
Theorem invalidation_after_commit c be r body cmd w w' es :
  write c be r body cmd w = (w', es) ->
  (forall p, EEnqueue p ∈ es <->
     p = "/v1/cache/" +:+ cmd_Key cmd /\ Invalidations c = true /\ namespaceCacheable c (cmd_Key cmd) = true /\
     exists res, be_Write be cmd = inl res /\ res_Status res = STATUS_OK) /\
  head es = Some (EWrite cmd).
Proof.
  unfold write. destruct (be_Write be cmd) as [res|err].
  - intros Hw. split; [|by destruct (res_Status res); injection Hw as <- <-]. intros p.
    destruct (res_Status res) eqn:Hst; injection Hw as <- <-; [|split; [set_solver|intros (_ & _ & _ & r' & [= <-] & ?); congruence]..].
    destruct (Invalidations c), (namespaceCacheable c (cmd_Key cmd)); cbn; rewrite elem_of_cons; split; try (intros (_ & ? & ? & _); done);
      try (intros [?|?%elem_of_nil]; done).
    + intros [?|[= ->]%list_elem_of_singleton]; [done|]. eauto 10.
    + intros (-> & _). right. by apply list_elem_of_singleton.
  - destruct (handleRaftError _ _ _ _ _ _ _ _) as [w1 es1] eqn:Hh. intros [= <- <-]. split; [|done]. intros p.
    split; [|by intros (_ & _ & _ & ? & ? & _)]. intros [?|Hin]%elem_of_cons; [done|]. exfalso. revert Hh Hin. clear.
    unfold handleRaftError, forward. destruct err; [|intros [= <- <-]; set_solver].
    destruct (_ && _); [|intros [= <- <-]; set_solver]. destruct (be_parseURL _ _); [intros [= <- <-]; set_solver|].
    destruct (be_Do _ _ _); intros [= <- <-]; set_solver.
Qed.

(** ** Concrete requests *)
Definition demo_config_n1 : ServerConfig :=
  Server_New (mkServerConfig "n1" {["n2" := "http://n2:8080"]} ["config:"] 0 10 true 0).
Definition demo_entry_cfg : ReadEntry := mkReadEntry [Byte.x41] 3 true 5 0.
Definition demo_put_json (ttl : N) : putRequest := mkPutRequest "" "A" (Some (true, ttl)).

(** [n1] follows [n2]: its own attempts to write fail; reads succeed. *)
Definition demo_be (ttl : N) : Backend :=
  mkBackend (fun _ => inr (NotLeader "n2")) (fun _ => inl demo_entry_cfg) (fun _ => 1) (fun _ => inl (demo_put_json ttl)) "id1"
    (fun _ => None) (fun _ _ => inr "down") (fun _ => "").
(** A leader. *)
Definition demo_be_leader : Backend :=
  mkBackend (fun _ => inl (mkResult STATUS_OK 4)) (fun _ => inl demo_entry_cfg) (fun _ => 1) (fun _ => inl (demo_put_json 7)) "id2"
    (fun _ => None) (fun _ _ => inr "down") (fun _ => "").

Definition demo_put_req : Request := mkRequest "PUT" "/v1/kv/config:model" "/v1/kv/config:model" ∅ ∅ (Some []).
Definition demo_cache_req : Request := mkRequest "GET" "/v1/cache/config:model" "/v1/cache/config:model" ∅ ∅ (Some []).
Definition demo_fwd : Request :=
  demo_put_req <| rq_header := forwarded_header demo_config_n1 demo_put_req "id1" |> <| rq_body := Some [] |>.
Definition demo_cmd_cfg : Command := mkCommand OP_PUT "config:model" [Byte.x41] false 0 "id1" true 7 0.

Definition demo_put_run := handlePut demo_config_n1 (demo_be 7) "config:model" demo_put_req fresh.
Definition demo_cache_run := handleCacheGet demo_config_n1 (demo_be 7) "config:model" demo_cache_req fresh.
Definition demo_leader_run := handlePut demo_config_n1 demo_be_leader "config:model" demo_put_req fresh.

Lemma cacheable_responses_are_allowed_witness :
  cacheControl demo_cache_run.1 = "public, max-age=5" /\
  exists key e, route demo_cache_req = Some (EpCacheGet, key) /\ namespaceCacheable demo_config_n1 key = true /\
    be_Get (demo_be 7) key = inl e /\ re_Cacheable e = true /\ (status demo_cache_run.1 = 200 \/ status demo_cache_run.1 = 304) /\
    (query demo_cache_req "v" = "" /\ cacheControl demo_cache_run.1 = public_max_age (re_TTLSeconds e) \/
     ParseUint (query demo_cache_req "v") 64 = Some (re_Version e) /\ cacheControl demo_cache_run.1 = immutable).
Proof.
  split; [by vm_compute|]. apply (cacheable_responses_are_allowed demo_config_n1 (demo_be 7) demo_cache_req demo_cache_run.1 demo_cache_run.2).
  - by vm_compute.
  - constructor; [|constructor]. intros (? & ? & ?). done.
  - by vm_compute.
  - by vm_compute.
Defined.

Lemma demo_put_forwards : serve demo_config_n1 (demo_be 7) demo_put_req = Some (demo_put_run.1, demo_put_run.2) /\
  demo_put_run.2 = [EWrite demo_cmd_cfg; EForward "http://n2:8080" demo_fwd].
Proof. by vm_compute. Qed.

Definition demo_second_run := handlePut demo_config_n1 (demo_be 7) "config:model" demo_fwd fresh.

Lemma forwarded_requests_stop_witness :
  status demo_second_run.1 = 421 /\ Forall (fun e => ~ forwards e) demo_second_run.2.
Proof.
  split; [by vm_compute|].
  refine (forwarded_requests_stop demo_config_n1 (demo_be 7) demo_put_req demo_put_run.1 demo_put_run.2 "http://n2:8080" demo_fwd
    demo_config_n1 (demo_be 7) demo_second_run.1 demo_second_run.2 _ (proj1 demo_put_forwards) _ _).
  - done.
  - rewrite (proj2 demo_put_forwards). right. by left.
  - by vm_compute.
Defined.


Lemma put_ttl_bounds_witness :
  let c := Server_New (mkServerConfig "n1" ∅ ["config:"] 0 10 true 0) in
  (cmd_Cacheable demo_cmd_cfg = true /\ namespaceCacheable c "config:model" = true /\ 1 <= cmd_TtlSeconds demo_cmd_cfg /\
   (cmd_TtlSeconds demo_cmd_cfg <= MaxTTLSeconds c \/
    cmd_TtlSeconds demo_cmd_cfg = DefaultTTLSeconds c /\
    exists req, be_json (demo_be 7) [] = inl req /\ pr_CachePolicy req = Some (true, 0))) \/
  (cmd_Cacheable demo_cmd_cfg = false /\ cmd_TtlSeconds demo_cmd_cfg = 0).
Proof.
  apply (put_ttl_bounds (mkServerConfig "n1" ∅ ["config:"] 0 10 true 0) (demo_be 7) "config:model" demo_put_req [] demo_cmd_cfg). by vm_compute.
Defined.

Lemma invalidation_after_commit_witness :
  (forall p, EEnqueue p ∈ demo_leader_run.2 <->
     p = "/v1/cache/config:model" /\ Invalidations demo_config_n1 = true /\ namespaceCacheable demo_config_n1 "config:model" = true /\
     exists res, be_Write demo_be_leader demo_cmd_cfg = inl res /\ res_Status res = STATUS_OK) /\
  head demo_leader_run.2 = Some (EWrite (demo_cmd_cfg <| cmd_RequestId := "id2" |>)).
Proof.
  exact (invalidation_after_commit demo_config_n1 demo_be_leader demo_put_req [] (demo_cmd_cfg <| cmd_RequestId := "id2" |>) fresh
    demo_leader_run.1 demo_leader_run.2 ltac:(by vm_compute)).
Defined.

(** The maximum TTL does not bound the default one: with a maximum of 10 seconds and the standard default, a
    cacheable write that names no TTL is stored, and later served, with 30 seconds. *)
Theorem default_ttl_is_not_clamped :
  MaxTTLSeconds demo_config_n1 = 10 /\
  exists cmd, put_command demo_config_n1 (demo_be 0) "config:model" demo_put_req [] = inl cmd /\ cmd_TtlSeconds cmd = 30.
Proof. split; [done|]. eexists. split; [by vm_compute|done]. Qed.
