(* ===== verification/Edge.v ===== *)
(** * The edge cache (cmd/edgekv-edge)

    A caching reverse proxy. The cache maps request URIs to entries through pointers, and a
    revalidated entry is updated in place, so entries live in a heap here and the map
    holds their addresses. A request that goes to the origin gives the lock up meanwhile: [handle] is
    split into what it does before the fetch and what it does with the answer, and any number of requests
    and invalidations can come in between. *)

From stdpp Require Import functions.
From Stdlib Require Import Ascii.
From S2P Require Import Prelude Types GoStrings Http.

(** [strings.Contains] *)
Fixpoint Contains (s sub : string) : bool :=
  HasPrefix s sub || match s with EmptyString => false | String _ s => Contains s sub end.

Fixpoint first_max_age (parts : list string) : Z :=
  match parts with
  | [] => 0
  | part :: parts =>
      match CutPrefix (TrimSpace part) "max-age=" ≫= Atoi with
      | Some n => i64 (n * second)
      | None => first_max_age parts
      end
  end.

Definition maxAge (h : Header) : Z := first_max_age (Split ","%char (hdr_Get h "Cache-Control")).

Record entry := mkEntry' {
  en_status : N;
  en_header : Header;
  en_body : Body;
  en_etag : string;
  en_fetched : Z;
  en_expires : Z;
}.

#[global] Instance eta_entry : Eta entry := fun e =>
  mkEntry' (en_status e) (en_header e) (en_body e) (en_etag e) (en_fetched e) (en_expires e).

Record edge := mkEdge {
  eg_origins : list string;
  eg_delay : Z;
  eg_failInval : bool;
  eg_next : N;
  eg_heap : gmap nat entry;
  eg_alloc : nat;                       (* the next free address *)
  eg_cache : gmap string nat;
  eg_timers : list (list string);       (* invalidations waiting for their propagation delay *)
  eg_hits : N;
  eg_misses : N;
  eg_refreshHits : N;
  eg_originRequests : N;
  eg_invalidations : N;
  eg_failedInvalidations : N;
}.

#[global] Instance eta_edge : Eta edge := fun e =>
  mkEdge (eg_origins e) (eg_delay e) (eg_failInval e) (eg_next e) (eg_heap e) (eg_alloc e) (eg_cache e) (eg_timers e) (eg_hits e)
    (eg_misses e) (eg_refreshHits e) (eg_originRequests e) (eg_invalidations e) (eg_failedInvalidations e).

(** [serve]: a copy of the entry with its age. *)
Definition serve_entry (ent : entry) (result : string) (now : Z) : Response :=
  let h := hdr_Set "Age" (pretty (Z.quot (now - en_fetched ent) second)) (hdr_Set "X-Cache" result (en_header ent)) in
  mkResponse (Some (en_status ent)) h (en_body ent).

(** [fetch] up to the call: the origin chosen round-robin, and the request sent to it. *)
Definition fetch_begin (r : Request) (extra : Header) (e : edge) : res (edge * (string * Request)) :=
  let e := e <| eg_originRequests := u64 (eg_originRequests e + 1) |> <| eg_next := u64 (eg_next e + 1) |> in
  if (length (eg_origins e) =? 0)%nat then Panic "integer divide by zero"
  else
    origin ← or_panic "index out of range" (eg_origins e !! (N.to_nat (eg_next e) `mod` length (eg_origins e))%nat);
    Ok (e, (origin, r <| rq_header := hdr_Del "X-Edgekv-No-Forward" (copyHeader (rq_header r) extra) |>)).

Definition cacheable (r : Request) : bool := bool_decide (rq_method r = "GET") && HasPrefix (rq_path r) "/v1/cache/".

(** A request on its way to the origin: what [handle] remembers. *)
Record pending := mkPending {
  pd_uri : string;
  pd_ent : option nat;
  pd_now : Z;
}.

Inductive looked :=
| Served (w : Response)
| Fetching (p : pending) (conditional : Header)
| Passing.                                       (* not cacheable: proxied as is *)

(** [handle] up to the fetch. *)
Definition handle_begin (now : Z) (r : Request) (e : edge) : edge * looked :=
  if negb (cacheable r) then (e, Passing)
  else
    let ptr := eg_cache e !! rq_uri r in
    let ent := ptr ≫= fun p => eg_heap e !! p in
    match ent with
    | Some x =>
        if (now <? en_expires x)%Z
        then (e <| eg_hits := u64 (eg_hits e + 1) |>, Served (serve_entry x "Hit" now))
        else (e, Fetching (mkPending (rq_uri r) ptr now)
                   (if bool_decide (en_etag x = "") then ∅ else {["If-None-Match" := [en_etag x]]}))
    | None => (e, Fetching (mkPending (rq_uri r) None now) ∅)
    end.

(** The answer is stored under the URI if it may be, and served either way. *)
Definition handle_store (p : pending) (resp : Response) (e : edge) : edge * Response :=
  let e := e <| eg_misses := u64 (eg_misses e + 1) |> in
  let ttl := maxAge (rs_header resp) in
  if (status resp =? 200) && (0 <? ttl)%Z && negb (Contains (hdr_Get (rs_header resp) "Cache-Control") "no-store") then
    let ent := mkEntry' (status resp) (rs_header resp) (rs_body resp) (hdr_Get (rs_header resp) "ETag") (pd_now p) (pd_now p + ttl)%Z in
    (e <| eg_heap := <[eg_alloc e := ent]> (eg_heap e) |> <| eg_alloc := S (eg_alloc e) |>
       <| eg_cache := <[pd_uri p := eg_alloc e]> (eg_cache e) |>,
     serve_entry ent "Miss" (pd_now p))
  else (e, mkResponse (Some (status resp)) (hdr_Set "X-Cache" "Miss" (rs_header resp)) (rs_body resp)).

(** [handle] with the origin's answer; [None]: the origin could not be reached. *)
Definition handle_finish (p : pending) (answer : option Response) (e : edge) : edge * Response :=
  let ent := pd_ent p ≫= fun a => (fun x => (a, x)) <$> eg_heap e !! a in
  match answer, ent with
  | None, Some (_, x) => (e, serve_entry x "Stale" (pd_now p))
  | None, None => (e, mkResponse (Some 502) ∅ (BText "origin unreachable"))
  | Some resp, Some (a, x) =>
      if status resp =? 304 then
        let ttl := if (maxAge (rs_header resp) =? 0)%Z then maxAge (en_header x) else maxAge (rs_header resp) in
        let x := x <| en_fetched := pd_now p |> <| en_expires := (pd_now p + ttl)%Z |> in
        (e <| eg_heap := <[a := x]> (eg_heap e) |> <| eg_refreshHits := u64 (eg_refreshHits e + 1) |>,
         serve_entry x "RefreshHit" (pd_now p))
      else handle_store p resp e
  | Some resp, None => handle_store p resp e
  end.

(** [proxy] with the origin's answer. *)
Definition proxy_finish (answer : option Response) : Response :=
  match answer with
  | None => mkResponse (Some 502) ∅ (BText "origin unreachable")
  | Some resp => mkResponse (Some (status resp)) (hdr_Set "X-Cache" "Pass" (rs_header resp)) (rs_body resp)
  end.

(** ** Invalidation *)
Definition matches (p key : string) : bool := bool_decide (key = p) || HasPrefix key (p +:+ "?").

Definition apply_invalidation (paths : list string) (e : edge) : edge :=
  e <| eg_cache := filter (fun kv => existsb (fun p => matches p kv.1) paths = false) (eg_cache e) |>.

(** [handleInvalidate]; [None]: the body is not JSON. *)
Definition handleInvalidate (paths : option (list string)) (e : edge) : edge * N :=
  if eg_failInval e then (e <| eg_failedInvalidations := u64 (eg_failedInvalidations e + 1) |>, 503)
  else
    match paths with
    | None => (e, 400)
    | Some paths =>
        let e := e <| eg_invalidations := u64 (eg_invalidations e + 1) |> in
        if (0 <? eg_delay e)%Z then (e <| eg_timers := eg_timers e ++ [paths] |>, 202) else (apply_invalidation paths e, 202)
    end.

(** A timer of a delayed invalidation fires. *)
Definition fire_timer (i : nat) (e : edge) : edge :=
  match eg_timers e !! i with
  | None => e
  | Some paths => apply_invalidation paths (e <| eg_timers := list_delete i (eg_timers e) |>)
  end.

Definition flush (e : edge) : edge := e <| eg_cache := ∅ |>.

(** ** Statistics, with the hit ratio as a fraction *)
Record edgeStats := mkEdgeStats {
  es_entries : nat;
  es_hits : N;
  es_misses : N;
  es_refresh_hits : N;
  es_hit_ratio : N * N;
  es_origin_requests : N;
  es_invalidations : N;
  es_failed_invalidations : N;
}.

Definition handleStats (e : edge) : edgeStats :=
  let total := u64 (u64 (eg_hits e + eg_misses e) + eg_refreshHits e) in
  mkEdgeStats (size (eg_cache e)) (eg_hits e) (eg_misses e) (eg_refreshHits e)
    (if 0 <? total then (u64 (eg_hits e + eg_refreshHits e), total) else (0, 1))
    (eg_originRequests e) (eg_invalidations e) (eg_failedInvalidations e).

(** ** Bounded staleness

    The edge in front of an origin whose answer to a URI changes over time: [origin t u] is what
    it would answer at time [t] to an unconditional GET of [u]. Requests overlap: each reads the clock when it
    arrives, goes to the origin, and is answered any time later. *)
Section Staleness.
Context (origin : Z -> string -> Response) (D : Z).

(** What the gateway promises of its answers: cacheable ones carry an ETag, equal ETags mean equal contents, and no
    answer may be kept longer than [D]. *)
Context (etag_present : forall t u, status (origin t u) = 200 -> hdr_Get (rs_header (origin t u)) "ETag" <> "").
Context (etag_identifies : forall t t' u, status (origin t u) = 200 -> status (origin t' u) = 200 ->
  hdr_Get (rs_header (origin t u)) "ETag" = hdr_Get (rs_header (origin t' u)) "ETag" -> rs_body (origin t u) = rs_body (origin t' u)).
Context (no_unasked_304 : forall t u, status (origin t u) <> 304).
Context (age_bound : forall t u, (maxAge (rs_header (origin t u)) <= D)%Z) (D_pos : (0 < D)%Z).

(** The answer the origin gives at [t], with the If-None-Match it is sent. *)
Definition answers (t : Z) (u inm : string) (resp : Response) : Prop :=
  resp = origin t u \/
  status resp = 304 /\ status (origin t u) = 200 /\ inm <> "" /\ inm = hdr_Get (rs_header (origin t u)) "ETag" /\
    maxAge (rs_header resp) = maxAge (rs_header (origin t u)).

Record esys := mkEsys {
  es_edge : edge;
  es_time : Z;
  es_pending : list (pending * string);      (* with the If-None-Match that was sent *)
}.

(** A response handed to a viewer: the URI, when the request arrived, the response. *)
Abbreviation output := (string * Z * Response)%type.

Inductive estep (s : esys) : option output -> esys -> Prop :=
| estep_clock t : (es_time s <= t)%Z -> estep s None (mkEsys (es_edge s) t (es_pending s))
| estep_hit r e w :
    handle_begin (es_time s) r (es_edge s) = (e, Served w) ->
    estep s (Some (rq_uri r, es_time s, w)) (mkEsys e (es_time s) (es_pending s))
| estep_begin r e p cond :
    handle_begin (es_time s) r (es_edge s) = (e, Fetching p cond) ->
    estep s None (mkEsys e (es_time s) ((p, hdr_Get (copyHeader (rq_header r) cond) "If-None-Match") :: es_pending s))
| estep_answer p inm t resp e w :
    (p, inm) ∈ es_pending s -> (pd_now p <= t)%Z -> (t <= es_time s)%Z -> answers t (pd_uri p) inm resp ->
    handle_finish p (Some resp) (es_edge s) = (e, w) ->
    estep s (Some (pd_uri p, pd_now p, w)) (mkEsys e (es_time s) (es_pending s))
| estep_error p inm e w :
    (p, inm) ∈ es_pending s -> handle_finish p None (es_edge s) = (e, w) ->
    estep s (Some (pd_uri p, pd_now p, w)) (mkEsys e (es_time s) (es_pending s))
| estep_invalidate paths e code :
    handleInvalidate paths (es_edge s) = (e, code) -> estep s None (mkEsys e (es_time s) (es_pending s))
| estep_timer i : estep s None (mkEsys (fire_timer i (es_edge s)) (es_time s) (es_pending s))
| estep_flush : estep s None (mkEsys (flush (es_edge s)) (es_time s) (es_pending s)).

(** An edge that has just started. *)
Definition started (s : esys) : Prop :=
  eg_heap (es_edge s) = ∅ /\ eg_cache (es_edge s) = ∅ /\ es_pending s = [].

(** An entry for [u] holds what the origin answered at some time [t], and expires within [D] of it. *)
Definition entry_ok (now : Z) (u : string) (x : entry) : Prop :=
  (maxAge (en_header x) <= D)%Z /\ en_status x = 200 /\
  exists t, (t <= now)%Z /\ (en_expires x <= t + D)%Z /\ status (origin t u) = 200 /\ en_body x = rs_body (origin t u) /\
    en_etag x = hdr_Get (rs_header (origin t u)) "ETag".

(** [owner a] is the URI whose entry is at address [a]. *)
Record einv (owner : nat -> string) (s : esys) : Prop := {
  ei_heap : forall a x, eg_heap (es_edge s) !! a = Some x -> (a < eg_alloc (es_edge s))%nat /\ entry_ok (es_time s) (owner a) x;
  ei_cache : forall u a, eg_cache (es_edge s) !! u = Some a -> owner a = u /\ is_Some (eg_heap (es_edge s) !! a);
  ei_pending : forall p inm, (p, inm) ∈ es_pending s -> (pd_now p <= es_time s)%Z /\
    match pd_ent p with
    | None => True
    | Some a => owner a = pd_uri p /\ exists x, eg_heap (es_edge s) !! a = Some x /\ (en_etag x <> "" -> inm = en_etag x)
    end;
}.

Lemma entry_ok_mono now now' u x : (now <= now')%Z -> entry_ok now u x -> entry_ok now' u x.
Proof. intros Hle (Ha & Hs & t & Ht & Hrest). split_and!; [done..|]. exists t. split; [lia|done]. Qed.

(** Steps that only remove keys from the map. *)
Lemma einv_cache owner s e t :
  einv owner s -> eg_heap e = eg_heap (es_edge s) -> eg_alloc e = eg_alloc (es_edge s) -> eg_cache e ⊆ eg_cache (es_edge s) ->
  (es_time s <= t)%Z -> einv owner (mkEsys e t (es_pending s)).
Proof.
  intros [Hh Hc Hp] Eh Ea Hsub Ht. split; cbn; rewrite ?Eh, ?Ea.
  - intros a x Hx. destruct (Hh _ _ Hx). split; [done|by eapply entry_ok_mono].
  - intros u a Hu. apply Hc. by eapply lookup_weaken.
  - intros p inm Hin. destruct (Hp _ _ Hin) as [Hn Hm]. split; [lia|]. by destruct (pd_ent p).
Qed.

(** An entry that is fresh at [now] was the origin's answer less than [D] ago. *)
Lemma fresh_entry now u x : entry_ok now u x -> (now < en_expires x)%Z ->
  exists t, (now - D < t <= now)%Z /\ en_status x = 200 /\ status (origin t u) = 200 /\ en_body x = rs_body (origin t u).
Proof. intros (_ & Hs & t & Ht & He & Ho & Hb & _) Hlt. exists t. split_and!; try done; lia. Qed.

(** What a viewer gets for a request that arrived at [q]: nothing new (304), or what the origin answered at some time after
    [q - D]. *)
Definition output_ok (now : Z) (o : output) : Prop :=
  let '(u, q, w) := o in
  status w = 304 \/
  exists t, (q - D < t <= now)%Z /\ status w = status (origin t u) /\ rs_body w = rs_body (origin t u).

Lemma store_ok owner s p inm t resp e w :
  einv owner s -> (p, inm) ∈ es_pending s -> (pd_now p <= t)%Z -> (t <= es_time s)%Z -> answers t (pd_uri p) inm resp ->
  handle_store p resp (es_edge s) = (e, w) ->
  (exists owner', einv owner' (mkEsys e (es_time s) (es_pending s))) /\ output_ok (es_time s) (pd_uri p, pd_now p, w).
Proof.
  intros [Hh Hc Hp] Hin Hn Ht Ha Hs. unfold handle_store in Hs.
  destruct (_ && _) eqn:Hg.
  - rewrite !andb_true_iff, N.eqb_eq, Z.ltb_lt in Hg. destruct Hg as [[H200 Hpos] _].
    destruct Ha as [->|[Hx _]]; [|congruence]. injection Hs as <- <-. split.
    + exists (<[eg_alloc (es_edge s) := pd_uri p]> owner).
      assert (Hne : forall a x, eg_heap (es_edge s) !! a = Some x -> a <> eg_alloc (es_edge s)) by (intros a x Hx; apply Hh in Hx as [? _]; lia).
      split; cbn.
      * intros a x Hx. destruct (decide (a = eg_alloc (es_edge s))) as [->|Ha].
        -- rewrite lookup_insert_eq in Hx. injection Hx as <-. rewrite fn_lookup_insert. split; [lia|].
           split; [apply age_bound|]. split; [done|]. exists t. cbn. pose proof (age_bound t (pd_uri p)). split_and!; try done; lia.
        -- rewrite lookup_insert_ne in Hx by done. rewrite fn_lookup_insert_ne by done. destruct (Hh _ _ Hx). split; [lia|done].
      * intros u a Hu. destruct (decide (u = pd_uri p)) as [->|Hu'].
        -- rewrite lookup_insert_eq in Hu. injection Hu as <-. rewrite fn_lookup_insert, lookup_insert_eq. eauto.
        -- rewrite lookup_insert_ne in Hu by done. destruct (Hc _ _ Hu) as [Ho [x Hx]]. pose proof (Hne _ _ Hx).
           rewrite fn_lookup_insert_ne, lookup_insert_ne by done. eauto.
      * intros p' inm' Hin'. destruct (Hp _ _ Hin') as [Hn' Hm]. split; [done|]. destruct (pd_ent p') as [a|]; [|done].
        destruct Hm as (Ho & x & Hx & He). pose proof (Hne _ _ Hx). rewrite fn_lookup_insert_ne, lookup_insert_ne by done. eauto.
    + right. exists t. cbn. split_and!; [lia|lia|done|done].
  - injection Hs as <- <-. split; [exists owner; by apply (einv_cache owner s)|].
    destruct Ha as [->|[Hx _]]; [right; exists t; cbn; split_and!; [lia|lia|done|done]|by left].
Qed.

Lemma finish_ok owner s p inm t resp e w :
  einv owner s -> (p, inm) ∈ es_pending s -> (pd_now p <= t)%Z -> (t <= es_time s)%Z -> answers t (pd_uri p) inm resp ->
  handle_finish p (Some resp) (es_edge s) = (e, w) ->
  (exists owner', einv owner' (mkEsys e (es_time s) (es_pending s))) /\ output_ok (es_time s) (pd_uri p, pd_now p, w).
Proof.
  intros HI Hin Hn Ht Ha Hs. pose proof HI as [Hh Hc Hp]. destruct (Hp _ _ Hin) as [_ Hm]. unfold handle_finish in Hs.
  destruct (pd_ent p) as [a|]; cbn in Hs; [|by eapply store_ok]. destruct Hm as (Ho & x & Hx & Het). rewrite Hx in Hs. cbn in Hs.
  destruct (N.eqb_spec (status resp) 304) as [H304|]; [|by eapply store_ok]. injection Hs as <- <-.
  destruct (Hh _ _ Hx) as [Hlt (Hage & Hst & t0 & Ht0 & He0 & Hs0 & Hb0 & Hetag)]. rewrite Ho in *.
  destruct Ha as [->|(_ & Hs1 & Hine & Hinm & Hma)]; [by apply no_unasked_304 in H304|].
  assert (Hxe : en_etag x <> "") by (rewrite Hetag; by apply etag_present).
  assert (Hbody : rs_body (origin t0 (pd_uri p)) = rs_body (origin t (pd_uri p))).
  { apply etag_identifies; [done..|]. rewrite <- Hetag, <- (Het Hxe). done. }
  set (ttl := if (_ =? 0)%Z then _ else _). assert (Httl : (ttl <= D)%Z).
  { subst ttl. destruct (_ =? 0)%Z; [done|]. rewrite Hma. apply age_bound. }
  split.
  - exists owner. split; cbn.
    + intros b y Hy. destruct (decide (b = a)) as [->|Hb].
      * rewrite lookup_insert_eq in Hy. injection Hy as <-. split; [done|]. rewrite Ho. split_and!; [done..|]. exists t. cbn.
        split_and!; [done|lia|done|congruence|]. rewrite <- (Het Hxe). done.
      * rewrite lookup_insert_ne in Hy by done. by apply Hh.
    + intros u b Hu. destruct (Hc _ _ Hu) as [Hob Hbs]. split; [done|]. destruct (decide (b = a)) as [->|Hb].
      * rewrite lookup_insert_eq. eauto.
      * by rewrite lookup_insert_ne.
    + intros p' inm' Hin'. destruct (Hp _ _ Hin') as [Hn' Hm']. split; [done|]. destruct (pd_ent p') as [b|]; [|done].
      destruct Hm' as (Hob & y & Hy & He). split; [done|]. destruct (decide (b = a)) as [->|Hb].
      * rewrite lookup_insert_eq. eexists. split; [done|]. cbn. by simplify_eq.
      * rewrite lookup_insert_ne by done. eauto.
  - right. exists t. cbn. split_and!; [lia|lia|congruence|congruence].
Qed.

Lemma begin_ok owner s r e out :
  einv owner s -> handle_begin (es_time s) r (es_edge s) = (e, out) ->
  eg_heap e = eg_heap (es_edge s) /\ eg_alloc e = eg_alloc (es_edge s) /\ eg_cache e = eg_cache (es_edge s) /\
  match out with
  | Served w => output_ok (es_time s) (rq_uri r, es_time s, w)
  | Fetching p cond => pd_now p = es_time s /\
      match pd_ent p with
      | None => True
      | Some a => owner a = pd_uri p /\ exists x, eg_heap (es_edge s) !! a = Some x /\
          (en_etag x <> "" -> hdr_Get (copyHeader (rq_header r) cond) "If-None-Match" = en_etag x)
      end
  | Passing => True
  end.
Proof.
  intros [Hh Hc Hp] Hb. unfold handle_begin in Hb. destruct (negb _); [by injection Hb as <- <-|].
  destruct (eg_cache (es_edge s) !! rq_uri r) as [a|] eqn:Hca; cbn in Hb; [|by injection Hb as <- <-].
  destruct (Hc _ _ Hca) as [Ho [x Hx]]. rewrite Hx in Hb.
  destruct (Z.ltb_spec (es_time s) (en_expires x)) as [Hlt|Hge]; injection Hb as <- <-.
  - split_and!; try done. destruct (Hh _ _ Hx) as [_ Hok]. rewrite Ho in Hok.
    destruct (fresh_entry _ _ _ Hok Hlt) as (t & Ht & Hst & Hs200 & Hbd). right. exists t. cbn. split_and!; [lia|lia|congruence|done].
  - split_and!; try done. cbn. split; [done|]. exists x. split; [done|]. intros Hne. rewrite bool_decide_false by done.
    rewrite hdr_Get_copy. by rewrite lookup_singleton_eq.
Qed.

Lemma apply_invalidation_sub paths e : eg_cache (apply_invalidation paths e) ⊆ eg_cache e.
Proof. cbn. apply map_filter_subseteq. Qed.

Lemma estep_inv owner s o s' :
  einv owner s -> estep s o s' ->
  (exists owner', einv owner' s') /\
  match o with Some (u, q, w) => hdr_Get (rs_header w) "X-Cache" = "Stale" \/ status w = 502 \/ output_ok (es_time s) (u, q, w) | None => True end.
Proof.
  intros HI Hst. pose proof HI as [Hh Hc Hp].
  destruct Hst as [t Ht|r e w Hb|r e p cond Hb|p inm t resp e w Hin Hn Ht Ha Hb|p inm e w Hin Hb|paths e code Hb|i|].
  - split; [|done]. exists owner. by apply (einv_cache owner s).
  - destruct (begin_ok owner s r e _ HI Hb) as (E1 & E2 & E3 & Ho). split; [|by right; right].
    exists owner. apply (einv_cache owner s); [done..|by rewrite E3|lia].
  - destruct (begin_ok owner s r e _ HI Hb) as (E1 & E2 & E3 & Hn & Ho). split; [|done]. exists owner.
    destruct (einv_cache owner s e (es_time s) HI E1 E2 ltac:(by rewrite E3) ltac:(lia)) as [Hh' Hc' Hp'].
    split; [done|done|]. intros p' inm' [[= -> ->]|Hin]%elem_of_cons; [|by apply Hp']. cbn. rewrite E1. split; [lia|done].
  - destruct (finish_ok owner s p inm t resp e w HI Hin Hn Ht Ha Hb) as [Hi Ho]. split; [done|by right; right].
  - unfold handle_finish in Hb.
    destruct (pd_ent p ≫= _) as [[a x]|]; injection Hb as <- <-; (split; [exists owner; by apply (einv_cache owner s)|]).
    + left. cbn. rewrite hdr_Get_Set_ne by done. by rewrite hdr_Get_Set.
    + by right; left.
  - split; [|done]. exists owner. unfold handleInvalidate in Hb.
    destruct (eg_failInval _); [injection Hb as <- <-; by apply (einv_cache owner s)|].
    destruct paths as [paths|]; [|injection Hb as <- <-; by apply (einv_cache owner s)].
    destruct (0 <? _)%Z; injection Hb as <- <-; apply (einv_cache owner s); try done. etrans; [apply apply_invalidation_sub|done].
  - split; [|done]. exists owner. unfold fire_timer. destruct (eg_timers _ !! i); [|by apply (einv_cache owner s)].
    apply (einv_cache owner s); try done. etrans; [apply apply_invalidation_sub|done].
  - split; [|done]. exists owner. apply (einv_cache owner s); try done. apply map_empty_subseteq.
Qed.

Lemma started_inv s : started s -> einv (fun _ => "") s.
Proof.
  intros (Hh & Hc & Hp). split; [rewrite Hh|rewrite Hc|rewrite Hp].
  - intros a x Hx. by rewrite lookup_empty in Hx.
  - intros u a Hu. by rewrite lookup_empty in Hu.
  - intros p inm Hin. by apply elem_of_nil in Hin.
Qed.

(** C16: bounded staleness. With any number of overlapping requests and with invalidations that come, are delayed or
    fail, whatever the edge hands to a viewer, apart from an error and the copies it serves while the origin is
    unreachable, is what the origin answered at some moment less than [D] before the request arrived or later, where
    [D] bounds the lifetimes the origin grants; so a stale copy is less than [D] old. *)
Theorem edge_staleness_is_bounded s0 s u q w s' :
  started s0 -> rtc (fun a b => exists o, estep a o b) s0 s -> estep s (Some (u, q, w)) s' ->
  hdr_Get (rs_header w) "X-Cache" <> "Stale" -> status w <> 502 ->
  status w = 304 \/
  exists t, (q - D < t <= es_time s)%Z /\ status w = status (origin t u) /\ rs_body w = rs_body (origin t u).
Proof.
  intros H0 Hrun Hst Hns Hne. assert (Hinv : exists owner, einv owner s).
  { apply started_inv in H0. revert H0. generalize (fun _ : nat => ""). clear Hst. induction Hrun as [s|a b c [o Ho] _ IH]; intros owner HI; [by exists owner|].
    destruct (estep_inv _ _ _ _ HI Ho) as [[owner' HI'] _]. by eapply IH. }
  destruct Hinv as [owner HI]. destruct (estep_inv _ _ _ _ HI Hst) as [_ [?|[?|Ho]]]; done.
Qed.
End Staleness.

(** ** Invalidation reaches exactly the variants of a path *)

Lemma apply_invalidation_lookup paths e u :
  eg_cache (apply_invalidation paths e) !! u =
    if decide (Exists (fun p => u = p \/ HasPrefix u (p +:+ "?") = true) paths) then None else eg_cache e !! u.
Proof.
  assert (Hb : existsb (fun p => matches p u) paths = true <-> Exists (fun p => u = p \/ HasPrefix u (p +:+ "?") = true) paths).
  { rewrite existsb_exists, Exists_exists. unfold matches. setoid_rewrite orb_true_iff. setoid_rewrite bool_decide_eq_true.
    setoid_rewrite <- list_elem_of_In. done. }
  cbn. rewrite map_lookup_filter. destruct (eg_cache e !! u) as [a|]; cbn; [|by case_decide].
  destruct (existsb (fun p => matches p u) paths) eqn:Hex.
  - rewrite decide_True by by apply Hb. by rewrite option_guard_False.
  - rewrite decide_False; [by rewrite option_guard_True|]. intros Hx%Hb. congruence.
Qed.

(** An invalidation that takes effect removes exactly the entries whose URI is one of the paths, or one of the paths
    followed by a query string, and leaves every other entry as it was. *)
Theorem invalidation_is_exact paths e u :
  eg_cache (apply_invalidation paths e) !! u =
    if decide (Exists (fun p => u = p \/ HasPrefix u (p +:+ "?") = true) paths) then None else eg_cache e !! u.
Proof. apply apply_invalidation_lookup. Qed.

(** *** Keys that need escaping *)
Lemma HasPrefix_byte c x : forall u, HasPrefix u (x +:+ String c "") = true -> has_byte c u = true.
Proof.
  unfold HasPrefix. induction x as [|a x IH]; intros u Hp.
  - change ("" +:+ String c "") with (String c "") in Hp. destruct u as [|b u]; [done|]. cbn in Hp. cbn [has_byte].
    destruct (ascii_dec c b) as [->|]; [by rewrite bool_decide_true|done].
  - rewrite app_String in Hp. destruct u as [|b u]; [done|]. cbn in Hp. destruct (ascii_dec a b); [|done]. cbn [has_byte].
    rewrite (IH u Hp). apply orb_true_r.
Qed.

Lemma upper_hex_kept n : n < 16 -> has_byte "?"%char (String (upper_hex n) "") = false.
Proof.
  intros Hn. assert (Hc : n ∈ [0; 1; 2; 3; 4; 5; 6; 7; 8; 9; 10; 11; 12; 13; 14; 15]) by (rewrite !elem_of_cons; lia).
  repeat (apply elem_of_cons in Hc as [->|Hc]; [by vm_compute|]). by apply elem_of_nil in Hc.
Qed.

Lemma PathEscape_no_query key : has_byte "?"%char (PathEscape key) = false.
Proof.
  induction key as [|a key IH]; [done|]. cbn [PathEscape]. destruct (segment_byte a) eqn:Ha.
  - cbn [has_byte]. rewrite IH, orb_false_r. apply bool_decide_eq_false. intros ->. by vm_compute in Ha.
  - pose proof (N_ascii_lt a). cbn [has_byte]. rewrite IH.
    pose proof (upper_hex_kept (N_of_ascii a / 16) ltac:(apply N.Div0.div_lt_upper_bound; lia)) as H1.
    pose proof (upper_hex_kept (N_of_ascii a mod 16) ltac:(apply N.mod_lt; lia)) as H2.
    cbn [has_byte] in H1, H2. rewrite orb_false_r in H1, H2. by rewrite H1, H2.
Qed.

Lemma app_inj_l p x y : p +:+ x = p +:+ y -> x = y.
Proof. induction p as [|a p IH]; [done|]. rewrite !app_String. intros [= He]. by apply IH. Qed.

(** C40: the invalidation a write sends reaches the copy clients read only for keys that need no escaping: the gateway
    queues the path with the key as it is, while the client asks for, and the edge caches under, the
    escaped path, so the cached copy of any other key is not removed. *)
Theorem invalidation_misses_escaped_keys key e :
  eg_cache (apply_invalidation ["/v1/cache/" +:+ key] e) !! ("/v1/cache/" +:+ PathEscape key) =
    if decide (PathEscape key = key) then None else eg_cache e !! ("/v1/cache/" +:+ PathEscape key).
Proof.
  assert (Hlk : forall u, eg_cache (apply_invalidation ["/v1/cache/" +:+ key] e) !! u =
    if matches ("/v1/cache/" +:+ key) u then None else eg_cache e !! u).
  { intros u. cbn. rewrite map_lookup_filter. cbn. rewrite orb_false_r.
    destruct (eg_cache e !! u) as [a|]; cbn; [|by destruct (matches _ _)].
    destruct (matches _ _) eqn:Hm; [by rewrite option_guard_False|by rewrite option_guard_True]. }
  rewrite Hlk. unfold matches.
  destruct (HasPrefix ("/v1/cache/" +:+ PathEscape key) (("/v1/cache/" +:+ key) +:+ "?")) eqn:Hp.
  { exfalso. apply HasPrefix_byte in Hp. rewrite has_byte_app, PathEscape_no_query in Hp. by vm_compute in Hp. }
  rewrite orb_false_r. destruct (decide (PathEscape key = key)) as [->|Hne]; [by rewrite bool_decide_true|].
  rewrite bool_decide_false; [done|]. intros He. by apply app_inj_l in He.
Qed.

(** ** An origin whose value changes every second *)
Definition demo_value (t : Z) : string := FormatUint (Z.to_N (t / second)).
Definition demo_header (t : Z) : Header := hdr_Set "ETag" (demo_value t) {["Cache-Control" := ["public, max-age=5"]]}.
Definition demo_origin (t : Z) (u : string) : Response := mkResponse (Some 200) (demo_header t) (BText (demo_value t)).

Lemma demo_etag t u : hdr_Get (rs_header (demo_origin t u)) "ETag" = demo_value t.
Proof. apply hdr_Get_Set. Qed.

Lemma demo_age t u : maxAge (rs_header (demo_origin t u)) = (5 * second)%Z.
Proof. unfold maxAge. cbn [rs_header demo_origin]. unfold demo_header. rewrite hdr_Get_Set_ne by done. by vm_compute. Qed.

Definition demo_uri : string := "/v1/cache/config:model".
Definition demo_get : Request := mkRequest "GET" demo_uri demo_uri ∅ ∅ (Some []).
Definition demo_edge : edge := mkEdge ["http://o"] 0 false 0 ∅ 0 ∅ [] 0 0 0 0 0 0.
Definition demo_sys : esys := mkEsys demo_edge 0 [].

(** The request that fills the cache at time 0, answered at once. *)
Definition demo_pending : pending := mkPending demo_uri None 0.
Definition demo_filled : edge := (handle_finish demo_pending (Some (demo_origin 0 demo_uri)) demo_edge).1.
Definition demo_later (t : Z) : esys := mkEsys demo_filled t [(demo_pending, "")].

Lemma estep_begin_to s r e p cond inm :
  handle_begin (es_time s) r (es_edge s) = (e, Fetching p cond) -> hdr_Get (copyHeader (rq_header r) cond) "If-None-Match" = inm ->
  estep demo_origin s None (mkEsys e (es_time s) ((p, inm) :: es_pending s)).
Proof. intros Hb <-. by apply estep_begin. Qed.

Lemma demo_reaches t : (0 <= t)%Z -> rtc (fun a b => exists o, estep demo_origin a o b) demo_sys (demo_later t).
Proof.
  intros Ht. apply (rtc_l _ _ (mkEsys demo_edge 0 [(demo_pending, "")])).
  { exists None. by apply (estep_begin_to demo_sys demo_get demo_edge demo_pending ∅). }
  apply (rtc_l _ _ (demo_later 0)); [|apply rtc_once; exists None; by apply (estep_clock demo_origin (demo_later 0))].
  exists (Some (demo_uri, 0%Z, (handle_finish demo_pending (Some (demo_origin 0 demo_uri)) demo_edge).2)).
  by apply (estep_answer demo_origin (mkEsys demo_edge 0 [(demo_pending, "")]) demo_pending "" 0 (demo_origin 0 demo_uri) demo_filled); [left|..|left|].
Qed.

(** Three seconds later the copy is still served. *)
Definition demo_hit : edge * looked := handle_begin (3 * second) demo_get demo_filled.
Definition demo_hit_response : Response := match demo_hit.2 with Served w => w | _ => fresh end.

Lemma demo_hit_step : estep demo_origin (demo_later (3 * second)) (Some (demo_uri, (3 * second)%Z, demo_hit_response))
  (mkEsys demo_hit.1 (3 * second) [(demo_pending, "")]).
Proof. apply (estep_hit demo_origin (demo_later (3 * second)) demo_get). by vm_compute. Qed.

Lemma edge_staleness_is_bounded_witness :
  rs_body demo_hit_response = BText "0" /\
  (status demo_hit_response = 304 \/
   exists t, (3 * second - 5 * second < t <= 3 * second)%Z /\ status demo_hit_response = status (demo_origin t demo_uri) /\
     rs_body demo_hit_response = rs_body (demo_origin t demo_uri)).
Proof.
  split; [by vm_compute|].
  refine (edge_staleness_is_bounded demo_origin (5 * second) _ _ _ _ _ demo_sys (demo_later (3 * second)) demo_uri (3 * second)%Z
    demo_hit_response _ _ (demo_reaches (3 * second) _) demo_hit_step _ _).
  - intros t u _. rewrite demo_etag. apply pretty_nonempty.
  - intros t t' u _ _ He. rewrite !demo_etag in He. cbn. by rewrite He.
  - intros t u. done.
  - intros t u. rewrite demo_age. done.
  - done.
  - done.
  - done.
  - by vm_compute.
  - by vm_compute.
Defined.

(** Copies served while the origin is unreachable have no age limit: an hour after the origin allowed five
    seconds, the edge still answers 200 with a value the origin has not had for 3599 seconds. *)
Theorem stale_if_error_is_unbounded :
  exists s s' w, rtc (fun a b => exists o, estep demo_origin a o b) demo_sys s /\
    estep demo_origin s (Some (demo_uri, (3600 * second)%Z, w)) s' /\ status w = 200 /\
    forall t, (second <= t <= 3600 * second)%Z -> rs_body w <> rs_body (demo_origin t demo_uri).
Proof.
  set (p := mkPending demo_uri (Some 0%nat) (3600 * second)).
  exists (mkEsys demo_filled (3600 * second) ((p, "0") :: [(demo_pending, "")])), (mkEsys demo_filled (3600 * second) ((p, "0") :: [(demo_pending, "")])).
  exists (handle_finish p None demo_filled).2. split_and!.
  - eapply rtc_r; [by apply (demo_reaches (3600 * second))|]. exists None.
    by apply (estep_begin_to (demo_later (3600 * second)) demo_get demo_filled p {["If-None-Match" := ["0"]]}); vm_compute.
  - apply (estep_error demo_origin (mkEsys demo_filled (3600 * second) ((p, "0") :: [(demo_pending, "")])) p "0"); [by left|]. by vm_compute.
  - by vm_compute.
  - intros t Ht. replace (rs_body _) with (BText "0") by by vm_compute. cbn. intros [= He].
    assert (Hv : demo_value t = demo_value 0) by exact (eq_sym He). unfold demo_value, FormatUint in Hv. apply (inj pretty) in Hv.
    assert (1 <= t / second)%Z by (apply Z.div_le_lower_bound; unfold second in *; lia).
    change (0 / second)%Z with 0%Z in Hv. lia.
Qed.

(** A response marked private is cached and served to everyone: only "no-store" is looked for. *)
Theorem private_responses_are_cached :
  let resp := mkResponse (Some 200) {["Cache-Control" := ["private, max-age=60"]]} (BText "secret") in
  exists e x, (handle_finish demo_pending (Some resp) demo_edge).1 = e /\
    eg_cache e !! demo_uri = Some x /\ exists w, (handle_begin second demo_get e).2 = Served w /\ rs_body w = BText "secret".
Proof. eexists _, 0%nat. split; [done|]. split; [by vm_compute|]. eexists. split; [by vm_compute|done]. Qed.
