(* ===== verification/Client.v ===== *)
(** * The client library (pkg/client)

    A client sends each request to the node it believes leads the key's shard, follows the hints of nodes that do
    not, and retries on failures. The network, the context and the JSON encoder are parameters; a
    call of the network is a value that says what is sent where, and every operation returns the list of
    the calls it has made with what they gave, in order. *)

From Stdlib Require Import Ascii.
From S2P Require Import Prelude Types GoStrings Store Raft Http Mux Shard Server.

(** ** Data *)
#[warnings="-register-all"] Inductive clientErr :=
| ErrNotFound
| ErrVersionMismatch
| ErrNotCacheable
| redirectError (shard : N) (leaderURL : string)
| ErrCall (detail : string)                    (* the URL, the connection or the body could not be read *)
| ErrDecode                                    (* the body is not the JSON that is expected *)
| ErrAnswer (kind detail : string)             (* 400 and 403 *)
| ErrStatus (code : N)                         (* any other status *)
| ErrContext (detail : string)
| ErrGivingUp (attempts : Z) (cause : option clientErr).

Record Entry := mkClientEntry {
  ce_Value : bytes;
  ce_Version : N;
  ce_UpdatedMs : Z;
  ce_FromCache : bool;
  ce_CacheAge : Z;
}.

Record CachePolicy := mkCachePolicy {
  cp_Cacheable : bool;
  cp_TTLSeconds : N;
}.

Record Client := mkClient {
  cl_nodes : list string;
  cl_edge : string;
  cl_retries : Z;
  cl_backoff : Z;
  cl_leaders : gmap N string;
  cl_shardOf : gmap string N;
}.

#[global] Instance eta_Client : Eta Client := fun c =>
  mkClient (cl_nodes c) (cl_edge c) (cl_retries c) (cl_backoff c) (cl_leaders c) (cl_shardOf c).

Inductive ClientOption :=
| WithEdge (baseURL : string)
| WithRetries (n : Z).

Definition apply_option (c : Client) (o : ClientOption) : Client :=
  match o with
  | WithEdge baseURL => c <| cl_edge := baseURL |>
  | WithRetries n => c <| cl_retries := n |>
  end.

Definition Client_New (nodes : list string) (opts : list ClientOption) : Client :=
  foldl apply_option (mkClient nodes "" 8 20000000 ∅ ∅) opts.

(** ** The leader cache *)
Definition pickNode (key : string) (c : Client) : res string :=
  match cl_shardOf c !! key ≫= fun shard => cl_leaders c !! shard with
  | Some leader => Ok leader
  | None => or_panic "index out of range" (head (cl_nodes c))
  end.

Definition setLeader (key : string) (shard : N) (leaderURL : string) (c : Client) : Client :=
  let c := c <| cl_shardOf := <[key := shard]> (cl_shardOf c) |> in
  if negb (bool_decide (leaderURL = "")) then c <| cl_leaders := <[shard := leaderURL]> (cl_leaders c) |>
  else c <| cl_leaders := delete shard (cl_leaders c) |>.

Definition learn (key : string) (hdr : Header) (target : string) (c : Client) : Client :=
  let shard := hdr_Get hdr "X-Edgekv-Shard" in
  if bool_decide (shard = "") then c
  else match ParseUint shard 32 with Some n => setLeader key n target c | None => c end.

Definition forget (key : string) (c : Client) : Client :=
  match cl_shardOf c !! key with
  | Some shard => c <| cl_leaders := delete shard (cl_leaders c) |>
  | None => c
  end.

(** ** Request IDs: 16 random bytes in hexadecimal *)
Definition lower_hex (n : N) : ascii := ascii_of_N (if n <? 10 then 48 + n else 87 + n).

Fixpoint EncodeToString (src : bytes) : string :=
  match src with
  | [] => EmptyString
  | b :: src => let n := Byte.to_N b in String (lower_hex (n / 16)) (String (lower_hex (n mod 16)) (EncodeToString src))
  end.

(** ** Decoding answers: the fields each body has; plain text is not a JSON object *)
Definition decode_version (b : Body) : option N :=
  match b with
  | BEmpty | BText _ => None
  | BWrite _ version _ | BRead _ _ version _ => Some version
  | _ => Some 0
  end.

Record readBody := mkReadBody {
  rb_Value : bytes;
  rb_Version : N;
  rb_UpdatedMs : Z;
}.

Definition zero_time : Z := -62135596800000.

Definition decode_read (b : Body) : option readBody :=
  match b with
  | BEmpty | BText _ => None
  | BRead _ value version updated => Some (mkReadBody value version updated)
  | BWrite _ version _ => Some (mkReadBody [] version zero_time)
  | _ => Some (mkReadBody [] 0 zero_time)
  end.

Definition readBody_entry (b : readBody) : Entry := mkClientEntry (rb_Value b) (rb_Version b) (rb_UpdatedMs b) false 0.

Definition decode_error (b : Body) : string * string :=
  match b with
  | BError kind detail => (kind, detail)
  | BUnavailable detail => ("unavailable", detail)
  | BMismatch _ => ("version_mismatch", "")
  | BNotLeader _ _ _ => ("not_leader", "")
  | _ => ("", "")
  end.

Definition decode_redirect (b : Body) : N * string :=
  match b with
  | BNotLeader shard _ leaderURL => (shard, leaderURL)
  | BWrite _ _ shard => (shard, "")
  | _ => (0, "")
  end.

(** ** Calls *)
Record sent := mkSent {
  sn_base : string;
  sn_method : string;
  sn_path : string;
  sn_header : Header;
  sn_body : option bytes;
}.

Inductive exchange :=
| Failed (detail : string)                     (* no answer *)
| Broken (h : Header) (detail : string)        (* the body breaks off *)
| Answered (resp : Response).

Definition bodyLimit : N := 4 * 2 ^ 20.

Section Requests.
Context {W : Type}.
Context (call : sent -> W -> W * exchange).
Context (sleep : Z -> W -> W * option string).        (* the context's error, if it ends first *)
Context (ctxErr : W -> option string).
Context (badURL : string -> option string).
Context (wire_length : Body -> N).

Definition override_header (h : Header) (kv : string * option (list string)) : Header :=
  match kv.2 with None => hdr_Del kv.1 h | Some v => <[kv.1 := v]> h end.

Definition request_header (override : list (string * option (list string))) (body : option bytes) : Header :=
  let h := foldl override_header (hdr_Set "X-Edgekv-No-Forward" "1" ∅) override in
  match body with Some _ => hdr_Set "Content-Type" "application/json" h | None => h end.

(** The JSON object in the part of the body that is read. *)
Definition read_json {A} (b : Body) (zero : A) (decode : Body -> A) : A := if wire_length b <=? bodyLimit then decode b else zero.

Definition interpret {A} (decode : Body -> option A) (resp : Response) : A + clientErr :=
  let b := rs_body resp in
  if status resp =? 200 then match read_json b None decode with Some out => inl out | None => inr ErrDecode end
  else if status resp =? 404 then inr ErrNotFound
  else if status resp =? 412 then inr ErrVersionMismatch
  else if (status resp =? 403) || (status resp =? 400) then
    let '(kind, detail) := read_json b ("", "") decode_error in
    if bool_decide (kind = "not_cacheable") || bool_decide (kind = "namespace_not_cacheable") then inr ErrNotCacheable
    else inr (ErrAnswer kind detail)
  else if status resp =? 421 then
    let '(shard, leaderURL) := read_json b (0, "") decode_redirect in inr (redirectError shard leaderURL)
  else inr (ErrStatus (status resp)).

Definition request {A} (base method path : string) (body : option bytes) (override : list (string * option (list string)))
    (decode : Body -> option A) (w : W) : W * list (sent * exchange) * Header * (A + clientErr) :=
  match badURL (base +:+ path) with
  | Some err => (w, [], ∅, inr (ErrCall err))
  | None =>
      let s := mkSent base method path (request_header override body) body in
      let '(w, x) := call s w in
      match x with
      | Failed err => (w, [(s, x)], ∅, inr (ErrCall err))
      | Broken h err => (w, [(s, x)], h, inr (ErrCall err))
      | Answered resp => (w, [(s, x)], rs_header resp, interpret decode resp)
      end
  end.

(** What [do] does with the error of an attempt. *)
Inductive verdict :=
| Follow (leaderURL : string)
| Stop (err : clientErr)
| Retry.

Definition judge (w : W) (err : clientErr) : verdict :=
  match err with
  | redirectError _ leaderURL => if bool_decide (leaderURL = "") then Retry else Follow leaderURL
  | ErrNotFound | ErrVersionMismatch | ErrNotCacheable => Stop err
  | _ => match ctxErr w with Some e => Stop (ErrContext e) | None => Retry end
  end.

Definition note_redirect (key : string) (err : clientErr) (c : Client) : Client :=
  match err with redirectError shard leaderURL => setLeader key shard leaderURL c | _ => c end.

(** The loop of [do], with [remaining] attempts left after [attempt] of them. *)
Fixpoint do_loop {A} (remaining : nat) (attempt : nat) (method key path : string) (body : option bytes) (decode : Body -> option A)
    (target : string) (lastErr : option clientErr) (c : Client) (w : W) :
    res (Client * W * list (sent * exchange) * ((A * Header) + clientErr)) :=
  match remaining with
  | O => Ok (c, w, [], inr (ErrGivingUp (cl_retries c) lastErr))
  | S remaining =>
      let '(w, tr, hdr, r) := request target method path body [] decode w in
      match r with
      | inl out => Ok (learn key hdr target c, w, tr, inl (out, hdr))
      | inr err =>
          let c := note_redirect key err c in
          match judge w err with
          | Follow leaderURL =>
              '(c, w, tr', r) ← do_loop remaining (S attempt) method key path body decode leaderURL lastErr c w;
              Ok (c, w, tr ++ tr', r)
          | Stop err => Ok (c, w, tr, inr err)
          | Retry =>
              let c := forget key c in
              if (length (cl_nodes c) =? 0)%nat then Panic "integer divide by zero"
              else
                target ← or_panic "index out of range" (cl_nodes c !! (attempt `mod` length (cl_nodes c))%nat);
                let '(w, ended) := sleep (Z.shiftl (cl_backoff c) (Z.of_nat (Nat.min attempt 5))) w in
                match ended with
                | Some e => Ok (c, w, tr, inr (ErrContext e))
                | None =>
                    '(c, w, tr', r) ← do_loop remaining (S attempt) method key path body decode target (Some err) c w;
                    Ok (c, w, tr ++ tr', r)
                end
          end
      end
  end.

Definition do_ {A} (method key path : string) (body : option bytes) (decode : Body -> option A) (c : Client) (w : W) :
    res (Client * W * list (sent * exchange) * ((A * Header) + clientErr)) :=
  target ← pickNode key c;
  do_loop (Z.to_nat (cl_retries c)) 0 method key path body decode target None c w.

(** ** Operations *)
Context (marshal : putRequest -> bytes).

Definition keyPath (key : string) : string := "/v1/kv/" +:+ PathEscape key.

Definition put_path (key : string) (expected : option N) : string :=
  keyPath key +:+ match expected with Some v => "?expectedVersion=" +:+ FormatUint v | None => "" end.

Definition put_body (id value : string) (policy : option CachePolicy) : putRequest :=
  mkPutRequest id value ((fun p => (cp_Cacheable p, cp_TTLSeconds p)) <$> policy).

Definition put (random : bytes) (key value : string) (policy : option CachePolicy) (expected : option N) (c : Client) (w : W) :
    res (Client * W * list (sent * exchange) * (N + clientErr)) :=
  let raw := marshal (put_body (EncodeToString random) value policy) in
  '(c, w, tr, r) ← do_ "PUT" key (put_path key expected) (Some raw) decode_version c w;
  Ok (c, w, tr, match r with inl (version, _) => inl version | inr err => inr err end).

Definition Put random key value policy := put random key value policy None.
Definition CAS random key value expectedVersion policy := put random key value policy (Some expectedVersion).

Definition delete_path (random : bytes) (key : string) : string := keyPath key +:+ "?request_id=" +:+ EncodeToString random.

Definition Delete (random : bytes) (key : string) (c : Client) (w : W) : res (Client * W * list (sent * exchange) * (N + clientErr)) :=
  '(c, w, tr, r) ← do_ "DELETE" key (delete_path random key) None decode_version c w;
  Ok (c, w, tr, match r with inl (version, _) => inl version | inr err => inr err end).

Definition Get (key : string) (c : Client) (w : W) : res (Client * W * list (sent * exchange) * (Entry + clientErr)) :=
  '(c, w, tr, r) ← do_ "GET" key (keyPath key) None decode_read c w;
  Ok (c, w, tr, match r with inl (out, _) => inl (readBody_entry out) | inr err => inr err end).

Definition lower (a : ascii) : ascii :=
  let n := N_of_ascii a in if (65 <=? n) && (n <=? 90) then ascii_of_N (n + 32) else a.

(** [bytes.ToLower], as far as ASCII letters of the result go: the capital dotted I is the only letter outside
    ASCII that becomes one, but for the Kelvin sign, which becomes a k. *)
Fixpoint ToLower (s : string) : string :=
  match s with
  | EmptyString => EmptyString
  | String a s' =>
      match s' with
      | String b s'' =>
          if (N_of_ascii a =? 196) && (N_of_ascii b =? 176) then String "i"%char (ToLower s'') else String (lower a) (ToLower s')
      | EmptyString => String (lower a) EmptyString
      end
  end.

Definition cached_entry (out : readBody) (hdr : Header) : Entry :=
  let e := readBody_entry out in
  mkClientEntry (ce_Value e) (ce_Version e) (ce_UpdatedMs e) (HasPrefix (ToLower (hdr_Get hdr "X-Cache")) "hit")
    (match Atoi (hdr_Get hdr "Age") with Some age => i64 (age * second) | None => 0%Z end).

Definition CachedGet (key : string) (c : Client) (w : W) : res (Client * W * list (sent * exchange) * (Entry + clientErr)) :=
  let path := "/v1/cache/" +:+ PathEscape key in
  if bool_decide (cl_edge c = "") then
    '(c, w, tr, r) ← do_ "GET" key path None decode_read c w;
    Ok (c, w, tr, match r with inl (out, hdr) => inl (cached_entry out hdr) | inr err => inr err end)
  else
    let '(w, tr, hdr, r) := request (cl_edge c) "GET" path None [("X-Edgekv-No-Forward", None)] decode_read w in
    Ok (c, w, tr, match r with inl out => inl (cached_entry out hdr) | inr err => inr err end).
End Requests.

(** ** The retry loop *)
Definition answer_of {A} (wire_length : Body -> N) (decode : Body -> option A) (x : exchange) : A + clientErr :=
  match x with
  | Failed err | Broken _ err => inr (ErrCall err)
  | Answered resp => interpret wire_length decode resp
  end.

(** Results that end the loop whatever attempts are left. *)
Definition settled {A} (r : A + clientErr) : bool :=
  match r with
  | inl _ | inr ErrNotFound | inr ErrVersionMismatch | inr ErrNotCacheable => true
  | _ => false
  end.

Definition drop_header {A} (r : (A * Header) + clientErr) : A + clientErr :=
  match r with inl (out, _) => inl out | inr err => inr err end.

Section Loop.
Context {W A : Type} (call : sent -> W -> W * exchange) (sleep : Z -> W -> W * option string) (ctxErr : W -> option string).
Context (badURL : string -> option string) (wire_length : Body -> N).
Context (method key path : string) (body : option bytes) (decode : Body -> option A).

#[local] Abbreviation loop := (do_loop call sleep ctxErr badURL wire_length).
#[local] Abbreviation answer := (answer_of wire_length decode).
#[local] Abbreviation unsettled := (fun p : sent * exchange => settled (answer p.2) = false).
#[local] Abbreviation attempt_to := (fun base : string => mkSent base method path (request_header [] body) body).

Lemma request_cases base w w' tr hdr r :
  request call badURL wire_length base method path body [] decode w = (w', tr, hdr, r) ->
  (tr = [] /\ w' = w /\ exists err, r = inr (ErrCall err)) \/
  (exists x, call (attempt_to base) w = (w', x) /\ tr = [(attempt_to base, x)] /\ answer x = r /\
     forall resp, x = Answered resp -> hdr = rs_header resp).
Proof.
  unfold request. destruct (badURL _) as [err|]; [intros [= <- <- <- <-]; left; eauto|].
  destruct (call _ w) as [w1 x] eqn:Hc. intros H. right. exists x.
  destruct x; injection H as <- <- <- <-; (split_and!; [done..|]); intros ? ?; by simplify_eq.
Qed.

Lemma setLeader_nodes k sh url c : cl_nodes (setLeader k sh url c) = cl_nodes c /\ cl_retries (setLeader k sh url c) = cl_retries c.
Proof. unfold setLeader. by destruct (negb _). Qed.

Lemma forget_nodes k c : cl_nodes (forget k c) = cl_nodes c /\ cl_retries (forget k c) = cl_retries c.
Proof. unfold forget. by destruct (_ !! _). Qed.

Lemma note_nodes k err c : cl_nodes (note_redirect k err c) = cl_nodes c /\ cl_retries (note_redirect k err c) = cl_retries c.
Proof. destruct err; try done. apply setLeader_nodes. Qed.

Lemma settled_judge w err : settled (A:=A) (inr err) = true <-> judge ctxErr w err = Stop err /\ (forall e, err <> ErrContext e).
Proof.
  split.
  - by destruct err.
  - intros [H Hc]. destruct err; try done; cbn in H; try (destruct (ctxErr w); simplify_eq; by edestruct Hc). by case_bool_decide.
Qed.

(** What the calls of a run say about its result. *)
Definition explains (tr : list (sent * exchange)) (r : (A * Header) + clientErr) : Prop :=
  Forall (fun p => exists base, p.1 = attempt_to base) tr /\
  if settled r then exists tr' s x, tr = tr' ++ [(s, x)] /\ answer x = drop_header r /\ Forall unsettled tr'
  else Forall unsettled tr.

Lemma explains_one base x tr r : answer x = r -> tr = [(attempt_to base, x)] -> forall hdr,
  explains tr (match r with inl out => inl (out, hdr) | inr err => inr err end).
Proof.
  intros Ha -> hdr. split; [repeat constructor; eauto|].
  destruct r as [out|err]; cbn [settled].
  - by exists [], (attempt_to base), x.
  - destruct err; cbn; first [by exists [], (attempt_to base), x|constructor; [cbn; by rewrite Ha|constructor]].
Qed.

Lemma explains_app tr tr' r :
  Forall (fun p => exists base, p.1 = attempt_to base) tr -> Forall unsettled tr -> explains tr' r -> explains (tr ++ tr') r.
Proof.
  intros Hs Hu [Hs' Hr]. split; [by apply Forall_app|]. destruct (settled r); [|by apply Forall_app].
  destruct Hr as (tr'' & s & x & -> & Ha & Hu'). exists (tr ++ tr''), s, x. split_and!; [by rewrite app_assoc|done|by apply Forall_app].
Qed.

Lemma request_explains base w w' tr hdr r :
  request call badURL wire_length base method path body [] decode w = (w', tr, hdr, r) ->
  (length tr <= 1)%nat /\ explains tr (match r with inl out => inl (out, hdr) | inr err => inr err end).
Proof.
  intros [(-> & _ & err & ->)|(x & _ & -> & Ha & _)]%request_cases.
  - split; [cbn; lia|]. by repeat constructor.
  - split; [done|]. by eapply explains_one.
Qed.

Lemma do_loop_explains remaining attempt target lastErr c w c' w' tr r :
  loop remaining attempt method key path body decode target lastErr c w = Ok (c', w', tr, r) ->
  (length tr <= remaining)%nat /\ explains tr r.
Proof.
  revert attempt target lastErr c w tr. induction remaining as [|n IH]; intros attempt target lastErr c w tr; cbn [do_loop].
  { intros [= <- <- <- <-]. split; [done|]. by repeat constructor. }
  destruct (request _ _ _ _ _ _ _ _ _ _) as [[[w1 tr1] hdr] [out|err]] eqn:Hr; apply request_explains in Hr as [Hl He].
  { intros [= <- <- <- <-]. split; [lia|done]. }
  assert (Hu : settled (A:=A) (inr err) = false -> Forall (fun p => exists base, p.1 = attempt_to base) tr1 /\ Forall unsettled tr1).
  { intros Hs. destruct He as [? He]. rewrite (Hs : settled (A:=A*Header) (inr err) = false) in He. done. }
  destruct (judge ctxErr w1 err) as [url|e|] eqn:Hj.
  - assert (settled (A:=A) (inr err) = false) as [Hb Hun]%Hu by by destruct err.
    intros ([[[c2 w2] tr2] r2] & Hd & [= -> -> <- ->])%bind_Ok. apply IH in Hd as [Hl2 He2].
    split; [rewrite length_app; lia|by apply explains_app].
  - intros [= <- <- <- <-]. split; [lia|]. destruct (settled (A:=A) (inr err)) eqn:Hs.
    + apply settled_judge with (w:=w1) in Hs as [Hj' _]. rewrite Hj in Hj'. by injection Hj' as ->.
    + destruct (Hu eq_refl) as [Hb Hun]. split; [done|].
      assert (exists x, e = ErrContext x) as [x ->]; [|done].
      destruct err; cbn in Hj, Hs; try done; try (destruct (ctxErr w1); simplify_eq; by eexists). by case_bool_decide.
  - assert (settled (A:=A) (inr err) = false) as [Hb Hun]%Hu by by destruct err.
    destruct (length _ =? 0)%nat; [done|]. intros (tgt & _ & H)%bind_Ok.
    destruct (sleep _ w1) as [w2 [e|]]; [injection H as <- <- <- <-; split; [lia|done]|].
    apply bind_Ok in H as ([[[c2 w3] tr2] r2] & Hd & [= -> -> <- ->]). apply IH in Hd as [Hl2 He2].
    split; [rewrite length_app; lia|by apply explains_app].
Qed.

Lemma do_loop_total remaining attempt target lastErr c w :
  cl_nodes c <> [] -> exists res, loop remaining attempt method key path body decode target lastErr c w = Ok res.
Proof.
  revert attempt target lastErr c w. induction remaining as [|n IH]; intros attempt target lastErr c w Hn; cbn [do_loop]; [by eexists|].
  destruct (request _ _ _ _ _ _ _ _ _ _) as [[[w1 tr1] hdr] [out|err]]; [by eexists|].
  pose proof (note_nodes key err c) as [Hnn _]. destruct (judge ctxErr w1 err) as [url|e|].
  - destruct (IH (S attempt) url lastErr (note_redirect key err c) w1) as [[[[c2 w2] tr2] r2] ->]; [by rewrite Hnn|]. by eexists.
  - by eexists.
  - pose proof (forget_nodes key (note_redirect key err c)) as [Hfn _]. rewrite Hnn in Hfn. set (c2 := forget _ _) in *.
    destruct (Nat.eqb_spec (length (cl_nodes c2)) 0) as [Hz|Hz]; [rewrite Hfn in Hz; by destruct (cl_nodes c)|].
    destruct (lookup_lt_is_Some_2 (cl_nodes c2) (attempt `mod` length (cl_nodes c2))) as [tgt Ht]; [by apply Nat.mod_upper_bound|].
    rewrite Ht. cbn [or_panic mbind res_bind]. destruct (sleep _ w1) as [w2 [e|]]; [by eexists|].
    destruct (IH (S attempt) tgt (Some err) c2 w2) as [[[[c3 w3] tr2] r2] ->]; [by rewrite Hfn|]. by eexists.
Qed.
End Loop.

(** C23: every request ends: whatever the network does, a request to a client that has a node returns after at most the
    configured number of calls, all of them the same request sent to different nodes. A result is returned
    only if the last call was answered with it, no call is made after a definitive answer, and the client gives up
    only if no call got one. *)
Theorem requests_end_and_repeat_exactly {W A} call sleep ctxErr badURL wire_length method key path body (decode : Body -> option A)
    (c : Client) (w : W) :
  cl_nodes c <> [] ->
  exists c' w' tr r, do_ call sleep ctxErr badURL wire_length method key path body decode c w = Ok (c', w', tr, r) /\
    (length tr <= Z.to_nat (cl_retries c))%nat /\ explains wire_length method path body decode tr r.
Proof.
  intros Hn. unfold do_. assert (exists t, pickNode key c = Ok t) as [t ->].
  { unfold pickNode. destruct (_ ≫= _); [by eexists|]. by destruct (cl_nodes c); [|eexists]. }
  cbn [mbind res_bind]. edestruct @do_loop_total as [[[[c' w'] tr] r] Hd]; [exact Hn|]. rewrite Hd.
  exists c', w', tr, r. split; [done|]. by eapply do_loop_explains.
Qed.

(** ** From the client to the gateway *)

(** A request as the server sees it ([net/http]). *)
Definition receive (s : sent) : option Request :=
  let '(path, q) := match Cut "?"%char (sn_path s) with Some p => p | None => (sn_path s, "") end in
  p ← PathUnescape path;
  Some (mkRequest (sn_method s) p (sn_path s) (ParseQuery q) (sn_header s) (Some (default [] (sn_body s)))).

Lemma EncodeToString_alnum b : all_alnum (EncodeToString b) = true.
Proof.
  induction b as [|b l IH]; [done|]. cbn [EncodeToString all_alnum]. rewrite IH, andb_true_r.
  assert (forall n, n < 16 -> alnum (lower_hex n) = true) as Hx.
  { intros n Hn. assert (Hc : n ∈ [0; 1; 2; 3; 4; 5; 6; 7; 8; 9; 10; 11; 12; 13; 14; 15]) by (rewrite !elem_of_cons; lia).
    repeat (apply elem_of_cons in Hc as [->|Hc]; [by vm_compute|]). by apply elem_of_nil in Hc. }
  pose proof (Byte.to_N_bounded b). rewrite !Hx; [done|apply N.mod_lt; lia|apply N.Div0.div_lt_upper_bound; lia].
Qed.

Lemma PathUnescape_keyPath key : PathUnescape (keyPath key) = Some ("/v1/kv/" +:+ key).
Proof. unfold keyPath. change (PathUnescape ("/v1/kv/" +:+ PathEscape key)) with
  (String "/" <$> (String "v" <$> (String "1" <$> (String "/" <$> (String "k" <$> (String "v" <$> (String "/" <$> PathUnescape (PathEscape key)))))))).
  by rewrite PathUnescape_PathEscape. Qed.

Lemma keyPath_no_query key : has_byte "?"%char (keyPath key) = false.
Proof. unfold keyPath. rewrite has_byte_app. by rewrite has_byte_PathEscape by (by vm_compute). Qed.

Lemma Cut_none sep x : has_byte sep x = false -> Cut sep x = None.
Proof.
  induction x as [|a x IH]; [done|]. cbn [has_byte Cut]. intros [Ha Hx]%orb_false_iff. apply bool_decide_eq_false in Ha.
  rewrite decide_False by done. by rewrite IH.
Qed.

Lemma receive_query base method key param v h body :
  all_alnum v = true -> all_alnum param = true -> param <> "" ->
  receive (mkSent base method (keyPath key +:+ String "?" (param +:+ String "=" v)) h body) =
  Some (mkRequest method ("/v1/kv/" +:+ key) (keyPath key +:+ String "?" (param +:+ String "=" v)) {[param := v]} h (Some (default [] body))).
Proof.
  intros Hv Hp Hne. unfold receive. cbn [sn_path sn_method sn_header sn_body]. rewrite Cut_app by apply keyPath_no_query.
  cbn [mbind option_bind]. rewrite PathUnescape_keyPath. cbn [mbind option_bind]. rewrite ParseQuery_one; [done|done|done|..].
  1-3: by apply all_alnum_no_byte. by apply QueryUnescape_alnum.
Qed.

(** The command a PUT of the client stands for. *)
Definition client_command (cfg : ServerConfig) (random : bytes) (key value : string) (policy : option CachePolicy) (expected : option N) : Command :=
  let cacheable := match policy with Some p => cp_Cacheable p | None => false end in
  let ttl := match policy with Some p => cp_TTLSeconds p | None => 0 end in
  mkCommand OP_PUT key (String.list_byte_of_string value) (bool_decide (is_Some expected)) (default 0 expected) (EncodeToString random)
    cacheable (if cacheable then if ttl =? 0 then DefaultTTLSeconds cfg else N.min (N.max ttl 1) (MaxTTLSeconds cfg) else 0) 0.

(** The gateway accepts the policy: cacheable only in a cacheable namespace. *)
Definition policy_allowed (cfg : ServerConfig) (key : string) (policy : option CachePolicy) : Prop :=
  match policy with Some p => cp_Cacheable p = true -> namespaceCacheable cfg key = true | None => True end.

Section Gateway.
Context (marshal : putRequest -> bytes) (random : bytes) (key value : string) (policy : option CachePolicy) (expected : option N).
Context (random_some : random <> []) (expected_u64 : default 0 expected < 2 ^ 64).
#[local] Abbreviation raw := (marshal (put_body (EncodeToString random) value policy)).
#[local] Abbreviation attempt_at := (fun base => mkSent base "PUT" (put_path key expected) (request_header [] (Some raw)) (Some raw)).

Lemma receive_put base : exists r, receive (attempt_at base) = Some r /\
  rq_method r = "PUT" /\ rq_path r = "/v1/kv/" +:+ key /\ query r "expectedVersion" = match expected with Some v => FormatUint v | None => "" end /\
  rq_header r = request_header [] (Some raw) /\ rq_body r = Some raw /\ wire_path r = keyPath key.
Proof.
  unfold put_path. destruct expected as [v|].
  - change ("?expectedVersion=" +:+ FormatUint v) with (String "?" ("expectedVersion" +:+ String "=" (FormatUint v))).
    rewrite receive_query by first [apply all_alnum_FormatUint|done]. eexists. split_and!; try done.
    unfold wire_path. cbn [rq_uri]. by rewrite Cut_app by apply keyPath_no_query.
  - unfold receive. cbn [sn_path]. replace (keyPath key +:+ "") with (keyPath key) by (induction (keyPath key); [done|by rewrite app_String; f_equal]).
    rewrite Cut_none by apply keyPath_no_query. rewrite PathUnescape_keyPath. eexists. split_and!; try done.
    unfold wire_path. cbn [rq_uri]. by rewrite Cut_none by apply keyPath_no_query.
Qed.

Lemma put_routes base r : plain_key key -> receive (attempt_at base) = Some r -> route r = Some (EpPut, key).
Proof.
  intros Hk Hr. destruct (receive_put base) as (r' & Hr' & Hm & _ & _ & _ & _ & Hw). rewrite Hr in Hr'. injection Hr' as <-.
  unfold route. rewrite (find_key "PUT" "kv" EpPut key r); [done|apply list_elem_of_here|done..].
Qed.

Lemma put_is_command cfg be base :
  be_json be raw = inl (put_body (EncodeToString random) value policy) -> policy_allowed cfg key policy ->
  exists r, receive (attempt_at base) = Some r /\ rq_header r = request_header [] (Some raw) /\ rq_body r = Some raw /\
    put_command cfg be key r raw = inl (client_command cfg random key value policy expected).
Proof.
  intros Hj Hpol. destruct (receive_put base) as (r & Hr & Hm & Hp & Hq & Hh & Hb & _). exists r. split_and!; try done.
  unfold put_command. rewrite Hj, Hq. cbn [pr_RequestID put_body pr_CachePolicy pr_Value].
  assert (Hid : forall l, firstNonEmpty (EncodeToString random :: l) = EncodeToString random) by by destruct random.
  rewrite Hid. assert (Hev : (if bool_decide (match expected with Some v => FormatUint v | None => "" end = "") then Some None
    else Some <$> ParseUint (match expected with Some v => FormatUint v | None => "" end) 64) = Some expected).
  { destruct expected as [v|]; [|done]. rewrite bool_decide_false by apply pretty_nonempty. by rewrite ParseUint_FormatUint. }
  rewrite Hev. unfold client_command. destruct policy as [[[] ttl]|]; try done. cbn in *. by rewrite Hpol.
Qed.
End Gateway.

Lemma put_explains {W} call sleep ctxErr badURL wire_length marshal random key value policy expected c (w : W) c' w' tr r :
  put call sleep ctxErr badURL wire_length marshal random key value policy expected c w = Ok (c', w', tr, r) ->
  Forall (fun p => exists base, p.1 = mkSent base "PUT" (put_path key expected)
    (request_header [] (Some (marshal (put_body (EncodeToString random) value policy))))
    (Some (marshal (put_body (EncodeToString random) value policy)))) tr.
Proof.
  unfold put, do_. intros ([[[c1 w1] tr1] r1] & (t & _ & Hd)%bind_Ok & [= -> -> -> _])%bind_Ok.
  by apply do_loop_explains in Hd as [_ [Hs _]].
Qed.


(** ** A client in front of a cluster of gateways *)
Definition gw_call (g : gmap string (ServerConfig * Backend)) (s : sent) (w : unit) : unit * exchange :=
  match g !! sn_base s with
  | None => (w, Failed "connection refused")
  | Some (cfg, be) =>
      match receive s with
      | None => (w, Answered (mkResponse (Some 400) ∅ (BText "400 Bad Request")))
      | Some r =>
          match serve cfg be r with
          | None => (w, Answered (mkResponse (Some 404) ∅ (BText "404 page not found")))
          | Some (resp, _) => (w, Answered resp)
          end
      end
  end.

Section Converge.
Context (g : gmap string (ServerConfig * Backend)).
Context (sleep : Z -> unit -> unit * option string) (ctxErr : unit -> option string) (wire_length : Body -> N) (marshal : putRequest -> bytes).
Context (random : bytes) (key value : string) (policy : option CachePolicy) (expected : option N).
Context (leaderURL leader : string) (shard version : N).
#[local] Abbreviation raw := (marshal (put_body (EncodeToString random) value policy)).
#[local] Abbreviation command := (fun cfg => client_command cfg random key value policy expected).
#[local] Abbreviation attempt_at := (fun base => mkSent base "PUT" (put_path key expected) (request_header [] (Some raw)) (Some raw)).

(** One node leads the key's shard and commits the command; the others know it. *)
Record settled_cluster : Prop := mkSettled {
  st_random : random <> [];
  st_expected : default 0 expected < 2 ^ 64;
  st_key : plain_key key;
  st_size : lenN raw <= maxBodyBytes;
  st_wire : forall b, wire_length b <= bodyLimit;
  st_url : leaderURL <> "";
  st_shard : shard < 2 ^ 32;
  st_leads : is_Some (g !! leaderURL);
  st_json : forall url cfg be, g !! url = Some (cfg, be) -> be_json be raw = inl (put_body (EncodeToString random) value policy);
  st_policy : forall url cfg be, g !! url = Some (cfg, be) -> policy_allowed cfg key policy;
  st_shards : forall url cfg be, g !! url = Some (cfg, be) -> be_ShardFor be key = shard;
  st_leader : forall cfg be, g !! leaderURL = Some (cfg, be) -> be_Write be (command cfg) = inl (mkResult STATUS_OK version);
  st_others : forall url cfg be, url <> leaderURL -> g !! url = Some (cfg, be) ->
    be_Write be (command cfg) = inr (NotLeader leader) /\ PeerHTTP cfg !! leader = Some leaderURL;
}.

Context (SC : settled_cluster).

Lemma serve_put base cfg be : g !! base = Some (cfg, be) ->
  exists r, gw_call g (attempt_at base) () = ((), Answered (write cfg be r raw (command cfg) fresh).1) /\
    rq_header r = request_header [] (Some raw).
Proof.
  intros Hg. destruct (put_is_command marshal random key value policy expected (st_random SC) (st_expected SC) cfg be base
    (st_json SC _ _ _ Hg) (st_policy SC _ _ _ Hg)) as (r & Hr & Hh & Hb & Hp).
  pose proof (put_routes marshal random key value policy expected (st_expected SC) base r (st_key SC) Hr) as Hrt. exists r. split; [|done]. unfold gw_call. cbn [sn_base]. rewrite Hg, Hr. unfold serve, handlePut. rewrite Hrt, Hb, Hp.
  rewrite (proj2 (N.ltb_ge _ _) (st_size SC)). by destruct (write _ _ _ _ _ _).
Qed.

#[local] Abbreviation answer := (answer_of wire_length decode_version).

Lemma leader_answers : exists resp, gw_call g (attempt_at leaderURL) () = ((), Answered resp) /\
  answer (Answered resp) = inl version /\ hdr_Get (rs_header resp) "X-Edgekv-Shard" = FormatUint shard.
Proof.
  destruct (st_leads SC) as [[cfg be] Hg]. destruct (serve_put _ _ _ Hg) as (r & Hc & _). rewrite Hc. eexists. split; [done|].
  unfold write. rewrite (st_leader SC _ _ Hg). cbn. unfold interpret, read_json. cbn. rewrite (proj2 (N.leb_le _ _) (st_wire SC _)). cbn.
  split; [done|]. unfold hdr_Get, hdr_Set. rewrite lookup_insert_ne, lookup_insert_eq by done. by rewrite (st_shards SC _ _ _ Hg).
Qed.

Lemma others_redirect base cfg be : base <> leaderURL -> g !! base = Some (cfg, be) ->
  exists resp, gw_call g (attempt_at base) () = ((), Answered resp) /\ answer (Answered resp) = inr (redirectError shard leaderURL).
Proof.
  intros Hne Hg. destruct (serve_put _ _ _ Hg) as (r & Hc & Hh). rewrite Hc. eexists. split; [done|].
  destruct (st_others SC _ _ _ Hne Hg) as [Hw Hp]. unfold write. rewrite Hw. unfold handleRaftError. rewrite Hh, Hp.
  replace (negb (bool_decide (hdr_Get (request_header [] (Some raw)) headerNoForward = ""))) with true by by vm_compute.
  rewrite andb_false_r. cbn. unfold interpret, read_json. cbn. rewrite (proj2 (N.leb_le _ _) (st_wire SC _)).
  by rewrite (st_shards SC _ _ _ Hg).
Qed.

Lemma setLeader_pick c : pickNode key (setLeader key shard leaderURL c) = Ok leaderURL.
Proof.
  unfold setLeader, pickNode. rewrite bool_decide_false by apply SC. cbn. rewrite lookup_insert_eq. cbn. by rewrite lookup_insert_eq.
Qed.

Lemma learn_pick c hdr : hdr_Get hdr "X-Edgekv-Shard" = FormatUint shard -> pickNode key (learn key hdr leaderURL c) = Ok leaderURL.
Proof.
  intros Hh. unfold learn. rewrite Hh, bool_decide_false by apply pretty_nonempty. rewrite ParseUint_FormatUint by apply SC. apply setLeader_pick.
Qed.

#[local] Abbreviation loop := (do_loop (gw_call g) sleep ctxErr (fun _ => None) wire_length).

Lemma loop_leader n attempt lastErr c : exists c' hdr x,
  loop (S n) attempt "PUT" key (put_path key expected) (Some raw) decode_version leaderURL lastErr c () =
    Ok (c', (), [(attempt_at leaderURL, x)], inl (version, hdr)) /\ pickNode key c' = Ok leaderURL.
Proof.
  destruct leader_answers as (resp & Hc & Ha & Hh). exists (learn key (rs_header resp) leaderURL c), (rs_header resp), (Answered resp).
  split; [|by apply learn_pick]. cbn [do_loop]. unfold request. rewrite Hc. cbn in Ha. by rewrite Ha.
Qed.

Lemma loop_other base n attempt lastErr c : base <> leaderURL -> is_Some (g !! base) -> exists c' hdr x y,
  loop (S (S n)) attempt "PUT" key (put_path key expected) (Some raw) decode_version base lastErr c () =
    Ok (c', (), [(attempt_at base, x); (attempt_at leaderURL, y)], inl (version, hdr)) /\ pickNode key c' = Ok leaderURL.
Proof.
  intros Hne [[cfg be] Hg]. destruct (others_redirect _ _ _ Hne Hg) as (resp & Hc & Ha). cbn in Ha.
  destruct (loop_leader n (S attempt) lastErr (setLeader key shard leaderURL c)) as (c' & hdr & y & Hl & Hp).
  exists c', hdr, (Answered resp), y. split; [|done]. cbn [do_loop] in Hl |- *. unfold request at 1. rewrite Hc, Ha.
  cbn [judge note_redirect]. rewrite bool_decide_false by apply SC. by rewrite Hl.
Qed.

Lemma put_converges c base :
  pickNode key c = Ok base -> is_Some (g !! base) -> (2 <= cl_retries c)%Z ->
  exists c' tr, put (gw_call g) sleep ctxErr (fun _ => None) wire_length marshal random key value policy expected c () = Ok (c', (), tr, inl version) /\
    pickNode key c' = Ok leaderURL /\ (fun p => sn_base p.1) <$> tr = if decide (base = leaderURL) then [leaderURL] else [base; leaderURL].
Proof.
  intros Hp Hg Hr. unfold put, do_. rewrite Hp. cbn [mbind res_bind].
  replace (Z.to_nat (cl_retries c)) with (S (S (Z.to_nat (cl_retries c - 2)))) by lia. destruct (decide (base = leaderURL)) as [->|Hne].
  - destruct (loop_leader (S (Z.to_nat (cl_retries c - 2))) 0 None c) as (c' & hdr & x & -> & Hp'). by eexists _, _.
  - destruct (loop_other base (Z.to_nat (cl_retries c - 2)) 0 None c Hne Hg) as (c' & hdr & x & y & -> & Hp'). by eexists _, _.
Qed.
End Converge.



(** ** Two gateways *)
Definition demo_random : bytes := replicate 16 Byte.xa5.
Definition demo_json : putRequest -> bytes := fun _ => [].
Definition demo_put_body : putRequest := put_body (EncodeToString demo_random) "v" None.
Definition demo_shard (key : string) : N := match ForKey key 3 with Ok s => s | Panic _ => 0 end.
Definition demo_backend (answer : Result + nodeErr) : Backend :=
  mkBackend (fun _ => answer) (fun _ => inr GetNotFound) demo_shard (fun _ => inl demo_put_body) "gen" (fun _ => None) (fun _ _ => inr "down") (fun _ => "").
Definition demo_gw (id : string) : ServerConfig :=
  mkServerConfig id {["a" := "http://a"; "b" := "http://b"]} [] 30 300 false 0.

(** [b] leads every shard. *)
Definition demo_cluster : gmap string (ServerConfig * Backend) :=
  {["http://a" := (demo_gw "a", demo_backend (inr (NotLeader "b"))); "http://b" := (demo_gw "b", demo_backend (inl (mkResult STATUS_OK 7)))]}.

(** Each believes the other leads. *)
Definition demo_confused : gmap string (ServerConfig * Backend) :=
  {["http://a" := (demo_gw "a", demo_backend (inr (NotLeader "b"))); "http://b" := (demo_gw "b", demo_backend (inr (NotLeader "a")))]}.

Definition demo_client : Client := Client_New ["http://a"; "http://b"] [].
Definition no_sleep : Z -> unit -> unit * option string := fun _ w => (w, None).
Definition demo_Put (g : gmap string (ServerConfig * Backend)) (key : string) (c : Client) :=
  put (gw_call g) no_sleep (fun _ => None) (fun _ => None) (fun _ => 0) demo_json demo_random key "v" None None c ().

Lemma requests_end_and_repeat_exactly_witness : cl_nodes demo_client <> [] /\
  exists c' w' tr r, do_ (gw_call demo_confused) no_sleep (fun _ => None) (fun _ => None) (fun _ => 0) "GET" "k" (keyPath "k") None decode_read
    demo_client () = Ok (c', w', tr, r) /\ (length tr <= Z.to_nat (cl_retries demo_client))%nat /\
    explains (fun _ => 0) "GET" (keyPath "k") None decode_read tr r.
Proof.
  split; [done|]. by apply (requests_end_and_repeat_exactly (gw_call demo_confused) no_sleep (fun _ => None) (fun _ => None) (fun _ => 0)
    "GET" "k" (keyPath "k") None decode_read demo_client ()).
Defined.

Definition demo_Put_run := demo_Put demo_cluster "a b/c" demo_client.
Definition demo_trace : list (sent * exchange) := match demo_Put_run with Ok (_, _, tr, _) => tr | Panic _ => [] end.
Definition demo_found : Client := match demo_Put_run with Ok (c, _, _, _) => c | Panic _ => demo_client end.

Lemma demo_Put_ok : demo_Put_run = Ok (demo_found, (), demo_trace, inl 7).
Proof. by vm_compute. Qed.

Definition demo_attempt : sent * exchange := default (mkSent "" "" "" ∅ None, Failed "") (demo_trace !! 1%nat).


Lemma demo_cluster_cases url cfg be : demo_cluster !! url = Some (cfg, be) ->
  url = "http://a" /\ (cfg, be) = (demo_gw "a", demo_backend (inr (NotLeader "b"))) \/
  url = "http://b" /\ (cfg, be) = (demo_gw "b", demo_backend (inl (mkResult STATUS_OK 7))).
Proof.
  unfold demo_cluster. intros [[<- <-]|[_ [<- <-]%lookup_singleton_Some]]%lookup_insert_Some; [by left|by right].
Qed.

Lemma demo_cluster_settled :
  settled_cluster demo_cluster (fun _ => 0) demo_json demo_random "k" "v" None None "http://b" "b" (demo_shard "k") 7.
Proof.
  split; try done.
  - by intros url cfg be [[_ [= -> ->]]|[_ [= -> ->]]]%demo_cluster_cases.
  - by intros url cfg be [[_ [= -> ->]]|[_ [= -> ->]]]%demo_cluster_cases.
  - by intros cfg be [[? _]|[_ [= -> ->]]]%demo_cluster_cases.
  - by intros url cfg be Hne [[_ [= -> ->]]|[? _]]%demo_cluster_cases.
Qed.


Section Once.
#[local] Existing Instance countable_codec.

(** Both attempts are committed: at 1 and, after a deletion of the key, at 3. *)
Definition demo_first : sent * exchange := default (mkSent "" "" "" ∅ None, Failed "") (demo_trace !! 0%nat).
Definition demo_received (a : sent) : Request := default (mkRequest "" "" "" ∅ ∅ None) (receive a).
Definition demo_command : Command := client_command (demo_gw "a") demo_random "a b/c" "v" None None.
Definition demo_data (ms : Z) : bytes := default [] (marshal (demo_command <| cmd_TimestampUnixMs := ms |>)).
Definition demo_between : list (N * bytes) := [(2, default [] (marshal (mkCommand OP_DELETE "a b/c" [] false 0 "other" false 0 0)))].
Definition demo_after_first : Store * bytes := match Apply Store.New 1 (demo_data 5) with Ok p => p | Panic _ => (Store.New, []) end.
Definition demo_before_second : Store * list bytes := match run demo_after_first.1 demo_between with Ok p => p | Panic _ => (Store.New, []) end.

End Once.

(** A request that is redirected until its attempts are used up fails without a cause: no attempt's error is kept. *)
Theorem redirects_lose_the_cause :
  exists c tr, demo_Put demo_confused "k" (Client_New ["http://a"; "http://b"] [WithRetries 3]) = Ok (c, (), tr, inr (ErrGivingUp 3 None)) /\
    length tr = 3%nat /\
    Forall (fun p => exists sh url, answer_of (fun _ => 0) decode_version p.2 = inr (redirectError sh url)) tr.
Proof.
  eexists _, _. split; [by vm_compute|]. split; [done|]. repeat (constructor; [by eexists _, _|]). constructor.
Qed.

(** What is remembered is per key: after a Put has found the leader of a shard, the first Put of another key of
    that shard is still sent to the first node of the list, and redirected. *)
Theorem leaders_are_learned_per_key :
  ForKey "k" 3 = ForKey "k1" 3 /\
  exists c tr c' tr', demo_Put demo_cluster "k" demo_client = Ok (c, (), tr, inl 7) /\ cl_leaders c !! demo_shard "k1" = Some "http://b" /\
    demo_Put demo_cluster "k1" c = Ok (c', (), tr', inl 7) /\ (fun p => sn_base p.1) <$> tr' = ["http://a"; "http://b"].
Proof. split; [by vm_compute|]. eexists _, _, _, _. split; [by vm_compute|]. split; [by vm_compute|]. split; by vm_compute. Qed.
