(* ===== verification/Cdn.v ===== *)
(** * Invalidation of cached copies (internal/cdn)

    The queue between the gateway and the invalidator: writers add paths and signal a worker, which collects them
    in batches and retries each batch a few times. Writers and the worker run concurrently, so adding a path
    and signalling are two steps, and the worker is a machine that stops at each of the points where it
    waits. The invalidators of the local edge caches are modelled on top of the edge itself. *)

From S2P Require Import Prelude Types GoStrings Http Edge.

(** ** Invalidators *)

(** [HTTPPurge.Invalidate], with [call] the POST to one endpoint: the state of the edges, and the error. An
    endpoint that is not a URL ends the loop. *)
Section Purge.
Context {W : Type} (badURL : string -> option string) (call : list string -> string -> W -> W * option string).

Fixpoint purge_loop (paths : list string) (endpoints : list string) (firstErr : option string) (w : W) : W * option string :=
  match endpoints with
  | [] => (w, firstErr)
  | ep :: endpoints =>
      match badURL (ep +:+ "/_edge/invalidate") with
      | Some err => (w, Some err)
      | None =>
          let '(w, err) := call paths ep w in
          purge_loop paths endpoints (match firstErr with None => err | Some _ => firstErr end) w
      end
  end.

Definition HTTPPurge_Invalidate (endpoints paths : list string) (w : W) : W * option string := purge_loop paths endpoints None w.
End Purge.

(** The POST, answered by an edge: 300 and above is an error. *)
Definition post_invalidate (paths : list string) (ep : string) (w : gmap string edge) : gmap string edge * option string :=
  match w !! ep with
  | None => (w, Some "connection refused")
  | Some e =>
      let '(e, code) := handleInvalidate (Some paths) e in
      (<[ep := e]> w, if 300 <=? code then Some ("cdn: edge " +:+ ep +:+ " answered " +:+ FormatUint code) else None)
  end.

(** ** The queue *)
Inductive phase :=
| Waiting                                        (* for a signal *)
| Pausing                                        (* for 50ms, so that a burst shares one call *)
| Sending (paths : list string) (attempt : nat)  (* in Invalidate *)
| BackingOff (paths : list string) (attempt : nat) (err : string)
| Exited.

Record Queue := mkQueue {
  q_noop : bool;                                  (* the invalidator is [Noop] *)
  q_pending : gset string;
  q_wake : bool;                                  (* the channel of capacity one is full *)
  q_stop : bool;
  q_phase : phase;
  q_signals : nat;                                (* writers between the insertion and the signal *)
  q_calls : list (list string);                   (* the batches given to Invalidate, in order *)
  q_results : list (bool * list string);          (* what was reported to onResult, with the batch *)
}.

#[global] Instance eta_Queue : Eta Queue := fun q =>
  mkQueue (q_noop q) (q_pending q) (q_wake q) (q_stop q) (q_phase q) (q_signals q) (q_calls q) (q_results q).

Definition NewQueue (noop : bool) : Queue := mkQueue noop ∅ false false Waiting 0 [] [].

Definition attempts : nat := 4.

(** [Enqueue], up to the unlock and after it. *)
Definition Enqueue_insert (path : string) (q : Queue) : Queue :=
  if q_noop q then q else q <| q_pending := {[path]} ∪ q_pending q |> <| q_signals := S (q_signals q) |>.

Definition Enqueue_signal (q : Queue) : option Queue :=
  match q_signals q with O => None | S n => Some (q <| q_signals := n |> <| q_wake := true |>) end.

Definition Queue_Stop (q : Queue) : Queue := q <| q_stop := true |>.

(** ** The worker: what it does at each point it waits, when what it waits for happens *)
Definition send (paths : list string) (attempt : nat) (q : Queue) : Queue :=
  q <| q_phase := Sending paths attempt |> <| q_calls := q_calls q ++ [paths] |>.

Definition report (ok : bool) (paths : list string) (q : Queue) : Queue :=
  q <| q_phase := Waiting |> <| q_results := q_results q ++ [(ok, paths)] |>.

Definition take_batch (q : Queue) : Queue :=
  let paths := elements (q_pending q) in
  let q := q <| q_pending := ∅ |> in
  match paths with [] => q <| q_phase := Waiting |> | _ => send paths 0 q end.

(** [err]: what the call of Invalidate returns, if the worker is in one. [None]: it waits on. *)
Definition worker (err : option string) (q : Queue) : option Queue :=
  match q_phase q with
  | Waiting => if q_wake q then Some (q <| q_wake := false |> <| q_phase := Pausing |>) else None
  | Pausing => Some (take_batch q)
  | Sending paths attempt =>
      match err with
      | None => Some (report true paths q)
      | Some e => Some (q <| q_phase := BackingOff paths attempt e |>)
      end
  | BackingOff paths attempt e =>
      if (S attempt <? attempts)%nat then Some (send paths (S attempt) q) else Some (report false paths q)
  | Exited => None
  end.

(** Where the worker waits it may see the stop instead. *)
Definition worker_exit (q : Queue) : option Queue :=
  match q_phase q with
  | Sending _ _ | Exited => None
  | _ => if q_stop q then Some (q <| q_phase := Exited |>) else None
  end.

Inductive qstep (q : Queue) : Queue -> Prop :=
| qs_insert path : qstep q (Enqueue_insert path q)
| qs_signal q' : Enqueue_signal q = Some q' -> qstep q q'
| qs_stop : qstep q (Queue_Stop q)
| qs_worker err q' : worker err q = Some q' -> qstep q q'
| qs_exit q' : worker_exit q = Some q' -> qstep q q'.

(** ** Purging every edge *)

(** No copy of any of the paths is left. *)
Definition purged (paths : list string) (e : edge) : Prop :=
  forall u, Exists (fun p => u = p \/ HasPrefix u (p +:+ "?") = true) paths -> eg_cache e !! u = None.

Lemma apply_invalidation_purged paths paths' e : purged paths' e \/ paths' = paths -> purged paths' (apply_invalidation paths e).
Proof.
  intros H u Hu. rewrite apply_invalidation_lookup. case_decide; [done|]. destruct H as [H| ->]; [by apply H|done].
Qed.

Lemma handleInvalidate_cases paths e e' code : handleInvalidate (Some paths) e = (e', code) ->
  eg_failInval e' = eg_failInval e /\ eg_delay e' = eg_delay e /\ code = (if eg_failInval e then 503 else 202) /\
  (purged paths e -> purged paths e') /\ (eg_failInval e = false -> (eg_delay e <= 0)%Z -> purged paths e').
Proof.
  unfold handleInvalidate. destruct (eg_failInval e) eqn:Hf; [intros [= <- <-]; by split_and!|].
  cbn [eg_delay set_field]. destruct (Z.ltb_spec 0 (eg_delay e)); intros [= <- <-]; cbn.
  - split_and!; try done. lia.
  - split_and!; try done; intros; apply apply_invalidation_purged; [by left|by right].
Qed.

Lemma post_invalidate_spec paths ep w w1 err1 : post_invalidate paths ep w = (w1, err1) ->
  (forall ep' e, w !! ep' = Some e -> exists e1, w1 !! ep' = Some e1 /\ eg_failInval e1 = eg_failInval e /\ eg_delay e1 = eg_delay e /\
      (purged paths e -> purged paths e1) /\ (ep' = ep -> eg_failInval e = false -> (eg_delay e <= 0)%Z -> purged paths e1)) /\
    (err1 = None <-> exists e, w !! ep = Some e /\ eg_failInval e = false) /\
    (forall ep' e1, w1 !! ep' = Some e1 -> exists e, w !! ep' = Some e /\ eg_failInval e1 = eg_failInval e).
Proof.
  intros Hp. unfold post_invalidate in Hp. destruct (w !! ep) as [e|] eqn:He; [|injection Hp as <- <-; split_and!].
  - destruct (handleInvalidate (Some paths) e) as [e1 code] eqn:Hh. apply handleInvalidate_cases in Hh as (Hf & Hd & -> & Hk & Hpg).
    injection Hp as <- <-. split_and!.
    + intros ep' e'. destruct (decide (ep' = ep)) as [->|Hne].
      * rewrite He. intros [= <-]. exists e1. rewrite lookup_insert_eq. by split_and!.
      * intros He'. exists e'. by rewrite lookup_insert_ne by done.
    + split; [|intros (x & [= <-] & ->); done]. intros H. exists e. by destruct (eg_failInval e).
    + intros ep' e'. destruct (decide (ep' = ep)) as [->|Hne]; [rewrite lookup_insert_eq; intros [= <-]; eauto|].
      rewrite lookup_insert_ne by done. eauto.
  - intros ep' e He'. exists e. split_and!; try done. intros ->. congruence.
  - split; [done|]. intros (? & ? & _). congruence.
  - eauto.
Qed.

Lemma purge_spec badURL paths endpoints : (forall u, badURL u = None) -> forall firstErr w w' err,
  purge_loop badURL post_invalidate paths endpoints firstErr w = (w', err) ->
  (forall ep e, w !! ep = Some e -> exists e', w' !! ep = Some e' /\ eg_failInval e' = eg_failInval e /\ (purged paths e -> purged paths e') /\
     (ep ∈ endpoints -> eg_failInval e = false -> (eg_delay e <= 0)%Z -> purged paths e')) /\
  (err = None <-> firstErr = None /\ forall ep, ep ∈ endpoints -> exists e, w !! ep = Some e /\ eg_failInval e = false).
Proof.
  intros Hb. induction endpoints as [|ep endpoints IH]; intros firstErr w w' err; cbn [purge_loop].
  { intros [= <- <-]. split; [|set_solver]. intros ep e He. exists e. split_and!; [done..|set_solver]. }
  rewrite Hb. destruct (post_invalidate paths ep w) as [w1 err1] eqn:Hp. intros Hl. apply IH in Hl as [Hw Herr].
  apply post_invalidate_spec in Hp as (Hw1 & He1 & Hback). split.
  - intros ep' e He. destruct (Hw1 _ _ He) as (e1 & Hl1 & Hf1 & Hd1 & Hk1 & Hp1). destruct (Hw _ _ Hl1) as (e2 & Hl2 & Hf2 & Hk2 & Hp2).
    exists e2. split_and!; [done|congruence|auto|]. intros [->|Hin]%elem_of_cons Hf Hd; [auto|]. apply Hp2; [done|congruence|by rewrite Hd1].
  - rewrite Herr. destruct firstErr; [by split; intros [? _]|]. rewrite He1. split.
    + intros (He & Hrest). split; [done|]. intros ep' [->|Hin]%elem_of_cons; [done|]. destruct (Hrest _ Hin) as (e1 & Hl1 & Hf1).
      destruct (Hback _ _ Hl1) as (e & ? & ?). exists e. split; congruence.
    + intros [_ Hall]. split; [apply Hall; by left|]. intros ep' Hin. destruct (Hall ep') as (e & He & Hf); [by right|].
      destruct (Hw1 _ _ He) as (e1 & ? & ? & _). exists e1. split; congruence.
Qed.

(** A purge reaches every edge: one that rejects it or cannot be reached does not keep the others from being purged, every
    edge that applies invalidations at once is left without a copy of the paths, and the purge reports
    success exactly if every endpoint accepted it. *)
Theorem purge_reaches_every_edge badURL endpoints paths w w' err :
  (forall u, badURL u = None) -> HTTPPurge_Invalidate badURL post_invalidate endpoints paths w = (w', err) ->
  (forall ep e, ep ∈ endpoints -> w !! ep = Some e -> eg_failInval e = false -> (eg_delay e <= 0)%Z ->
     exists e', w' !! ep = Some e' /\ purged paths e') /\
  (err = None <-> forall ep, ep ∈ endpoints -> exists e, w !! ep = Some e /\ eg_failInval e = false).
Proof.
  intros Hb H. apply purge_spec in H as [Hw Herr]; [|done]. split.
  - intros ep e Hin He Hf Hd. destruct (Hw _ _ He) as (e' & ? & _ & _ & Hp). eauto.
  - rewrite Herr. naive_solver.
Qed.

(** ** The queue *)

(** What has been reported accounts for the calls: each report follows between one and four calls with its batch, four if it is
    a failure. *)
Inductive accounted : list (bool * list string) -> list (list string) -> Prop :=
| acc_nil : accounted [] []
| acc_report rs cs ok paths n :
    accounted rs cs -> (1 <= n <= attempts)%nat -> (ok = false -> n = attempts) -> NoDup paths -> paths <> [] ->
    accounted (rs ++ [(ok, paths)]) (cs ++ replicate n paths).

(** The batch in hand and how often it has been sent. *)
Definition in_hand (q : Queue) (paths : list string) (n : nat) : Prop :=
  match q_phase q with
  | Waiting | Pausing => n = 0%nat
  | Sending p k | BackingOff p k _ => p = paths /\ n = S k
  | Exited => True
  end.

Record queue_ok (q : Queue) : Prop := mkQueueOk {
  qo_signal : q_phase q <> Exited -> q_pending q <> ∅ -> q_wake q = true \/ q_phase q = Pausing \/ (0 < q_signals q)%nat;
  qo_noop : q_noop q = true -> q_pending q = ∅ /\ q_signals q = 0%nat /\ q_calls q = [];
  qo_calls : exists cs paths n, q_calls q = cs ++ replicate n paths /\ accounted (q_results q) cs /\ in_hand q paths n /\
    (n <= attempts)%nat /\ NoDup paths /\ (n <> 0%nat -> paths <> []);
}.

Lemma NewQueue_ok noop : queue_ok (NewQueue noop).
Proof. split; try done. exists [], [], 0%nat. split_and!; try done; [constructor|unfold attempts; lia|constructor]. Qed.

Lemma send_ok q paths k cs :
  (q_pending q <> ∅ -> q_wake q = true \/ (0 < q_signals q)%nat) -> q_noop q = false ->
  q_calls q = cs ++ replicate k paths -> accounted (q_results q) cs -> (k < attempts)%nat -> NoDup paths -> paths <> [] ->
  queue_ok (send paths k q).
Proof.
  intros Hs Hn Hc Ha Hk Hd Hp. split; cbn.
  - intros _ Hne. destruct (Hs Hne); auto.
  - congruence.
  - exists cs, paths, (S k). split_and!; try done. by rewrite Hc, <- app_assoc, <- replicate_S_end.
Qed.

Lemma report_ok q ok paths k cs :
  (q_pending q <> ∅ -> q_wake q = true \/ (0 < q_signals q)%nat) -> q_noop q = false ->
  q_calls q = cs ++ replicate (S k) paths -> accounted (q_results q) cs -> (k < attempts)%nat -> (ok = false -> S k = attempts) ->
  NoDup paths -> paths <> [] -> queue_ok (report ok paths q).
Proof.
  intros Hs Hn Hc Ha Hk Hok Hd Hp. split; cbn.
  - intros _ Hne. destruct (Hs Hne); auto.
  - congruence.
  - exists (cs ++ replicate (S k) paths), paths, 0%nat. split_and!; try done; [by rewrite Hc, app_nil_r| |lia]. constructor; try done. lia.
Qed.

Lemma worker_ok err q q' : queue_ok q -> worker err q = Some q' -> queue_ok q'.
Proof.
  intros [Hs Hn (cs & paths & n & Hc & Ha & Hh & Hle & Hd & Hne)]. unfold worker, in_hand in *. destruct (q_phase q) as [| |p k|p k e|] eqn:Hph.
  - destruct (q_wake q); [|done]. intros [= <-]. subst n. split; cbn; [auto|done|]. exists cs, paths, 0%nat. by split_and!.
  - intros [= <-]. subst n. rewrite app_nil_r in Hc. unfold take_batch. destruct (elements (q_pending q)) as [|x l] eqn:He.
    + split; cbn; [done|naive_solver|]. exists cs, [], 0%nat. split_and!; try done; [by rewrite app_nil_r|constructor].
    + eapply (send_ok _ _ 0 cs); cbn; try done; [|by rewrite app_nil_r|unfold attempts; lia|rewrite <- He; apply NoDup_elements].
      destruct (q_noop q); [|done]. destruct Hn as [Hn _]; [done|]. by rewrite Hn, elements_empty in He.
  - destruct Hh as [-> ->]. assert (Hnp : q_noop q = false).
    { destruct (q_noop q); [|done]. destruct Hn as (_ & _ & Hn); [done|]. rewrite Hn in Hc. by destruct cs. }
    destruct err as [e|]; intros [= <-].
    + split; cbn; [naive_solver|congruence|]. exists cs, paths, (S k). by split_and!.
    + apply (report_ok q true paths k cs); try done; [naive_solver|by apply Hne].
  - destruct Hh as [-> ->]. assert (Hnp : q_noop q = false).
    { destruct (q_noop q); [|done]. destruct Hn as (_ & _ & Hn); [done|]. rewrite Hn in Hc. by destruct cs. }
    destruct (Nat.ltb_spec (S k) attempts); intros [= <-].
    + apply (send_ok q paths (S k) cs); try done; [naive_solver|by apply Hne].
    + apply (report_ok q false paths k cs); try done; [naive_solver|lia|by apply Hne].
  - done.
Qed.

Lemma qstep_ok q q' : queue_ok q -> qstep q q' -> queue_ok q'.
Proof.
  intros HI [path|q'' Hsig| |err q'' Hw|q'' He].
  - unfold Enqueue_insert. destruct (q_noop q) eqn:Hn; [done|]. destruct HI as [Hs _ Hc]. split; cbn; [intros _ _; right; right; lia|congruence|exact Hc].
  - unfold Enqueue_signal in Hsig. destruct (q_signals q) as [|n] eqn:Hq; [done|]. injection Hsig as <-. destruct HI as [Hs Hn Hc].
    split; cbn; [auto| |exact Hc]. intros (_ & H0 & _)%Hn. congruence.
  - by destruct HI as [Hs Hn Hc].
  - by eapply worker_ok.
  - unfold worker_exit in He. destruct HI as [Hs Hn (cs & paths & n & Hc & Ha & Hh & Hle & Hd & Hne)].
    assert (q'' = q <| q_phase := Exited |>) as ->. { destruct (q_phase q), (q_stop q); by simplify_eq. }
    split; cbn; [done|done|]. exists cs, paths, n. by split_and!.
Qed.

Lemma reachable_ok noop q : rtc qstep (NewQueue noop) q -> queue_ok q.
Proof. intros Hr. pose proof (NewQueue_ok noop) as HI. induction Hr as [|a b c Hs _ IH]; [done|]. by apply IH, (qstep_ok a b). Qed.


(** *** The worker alone *)
Fixpoint worker_run (errs : nat -> option string) (n : nat) (q : Queue) : Queue :=
  match n with
  | O => q
  | S n => match worker (errs n) q with Some q' => worker_run errs n q' | None => q end
  end.

(** Steps until the next batch is collected and sent. *)
Definition rank (q : Queue) : nat :=
  match q_phase q with
  | Pausing => 1
  | Waiting => 2
  | BackingOff _ k _ => 3 + 2 * (attempts - S k)
  | Sending _ k => 4 + 2 * (attempts - S k)
  | Exited => 0
  end.

Lemma worker_progress err q path :
  q_phase q <> Exited -> path ∈ q_pending q -> q_wake q = true \/ q_phase q = Pausing ->
  (forall p k, q_phase q = Sending p k \/ (exists e, q_phase q = BackingOff p k e) -> (k < attempts)%nat) ->
  exists q', worker err q = Some q' /\
    ((exists batch, path ∈ batch /\ q_calls q' = q_calls q ++ [batch] /\ rank q = 1%nat) \/
     q_phase q' <> Exited /\ path ∈ q_pending q' /\ (q_wake q' = true \/ q_phase q' = Pausing) /\ (rank q' < rank q)%nat).
Proof.
  intros Hx Hp Hw Hk. unfold worker, rank. destruct (q_phase q) as [| |p k|p k e|] eqn:Hph.
  - destruct Hw as [->|]; [|done]. eexists. split; [done|]. right. cbn. split_and!; [done..|by right|lia].
  - eexists. split; [done|]. left. exists (elements (q_pending q)). rewrite elem_of_elements. split; [done|].
    unfold take_batch. destruct (elements (q_pending q)) eqn:He; [|done]. apply elem_of_elements in Hp. rewrite He in Hp. by apply elem_of_nil in Hp.
  - destruct Hw as [Hw|]; [|done]. destruct err; (eexists; split; [done|]); right; cbn; split_and!; try done; try (by left); unfold attempts in *; try lia.
  - destruct Hw as [Hw|]; [|done]. assert (k < attempts)%nat by (eapply Hk; eauto).
    destruct (Nat.ltb_spec (S k) attempts); (eexists; split; [done|]); right; cbn; split_and!; try done; try (by left); unfold attempts in *; try lia.
  - done.
Qed.
Lemma queue_attempt q p k : queue_ok q -> q_phase q = Sending p k \/ (exists e, q_phase q = BackingOff p k e) -> (k < attempts)%nat.
Proof.
  intros [_ _ (cs & paths & n & _ & _ & Hh & Hle & _)]. unfold in_hand in Hh.
  intros [Hp|[e Hp]]; rewrite Hp in Hh; destruct Hh as [_ ->]; lia.
Qed.

Lemma worker_calls errs n q : exists more, q_calls (worker_run errs n q) = q_calls q ++ more.
Proof.
  revert q. induction n as [|n IH]; intros q; cbn; [exists []; by rewrite app_nil_r|].
  destruct (worker (errs n) q) as [q'|] eqn:Hw; [|exists []; by rewrite app_nil_r]. destruct (IH q') as [more ->].
  assert (exists m, q_calls q' = q_calls q ++ m) as [m ->]; [|exists (m ++ more); by rewrite app_assoc].
  unfold worker in Hw. destruct (q_phase q); [destruct (q_wake q)| |destruct (errs n)|destruct (_ <? _)%nat|]; simplify_eq; cbn;
    try (exists []; by rewrite app_nil_r); try (by eexists).
  unfold take_batch. destruct (elements _); cbn; [exists []; by rewrite app_nil_r|by eexists].
Qed.

Lemma worker_run_sends errs path n q :
  queue_ok q -> q_phase q <> Exited -> path ∈ q_pending q -> q_wake q = true \/ q_phase q = Pausing -> (rank q <= n)%nat ->
  exists before batch after, q_calls (worker_run errs n q) = q_calls q ++ before ++ batch :: after /\ path ∈ batch.
Proof.
  revert q. induction n as [|n IH]; intros q HI Hx Hp Hw Hr.
  { exfalso. unfold rank in Hr. by destruct (q_phase q); lia || done. }
  destruct (worker_progress (errs n) q path Hx Hp Hw) as (q' & Hs & [(batch & Hin & Hc & _)|(Hx' & Hp' & Hw' & Hlt)]).
  { intros p k. by apply queue_attempt. }
  - cbn. rewrite Hs. destruct (worker_calls errs n q') as [more ->]. rewrite Hc. exists [], batch, more. by rewrite <- app_assoc.
  - cbn. rewrite Hs. destruct (IH q') as (before & batch & after & Hc & Hin); [by eapply worker_ok|done..|lia|].
    assert (exists m, q_calls q' = q_calls q ++ m) as [m' Hm'].
    { destruct (worker_calls (fun _ => errs n) 1 q) as [m' Hm']. cbn in Hm'. rewrite Hs in Hm'. by exists m'. }
    exists (m' ++ before), batch, after. split; [|done]. by rewrite Hc, Hm', <- !app_assoc.
Qed.


(** ** Concrete runs *)
Definition demo_path : string := "/v1/cache/config:model".

(** A path is added and signalled while the worker is sending an earlier one. *)
Definition demo_queue : Queue :=
  mkQueue false {[demo_path]} true false (Sending ["/v1/cache/config:a"] 0) 0 [["/v1/cache/config:a"]] [].

Lemma demo_queue_reachable : rtc qstep (NewQueue false) demo_queue.
Proof.
  eapply rtc_l; [apply (qs_insert _ "/v1/cache/config:a")|]. eapply rtc_l; [eapply qs_signal; reflexivity|].
  eapply rtc_l; [by apply (qs_worker _ None)|]. eapply rtc_l; [by apply (qs_worker _ None)|].
  eapply rtc_l; [apply (qs_insert _ demo_path)|]. apply rtc_once. apply qs_signal. by vm_compute.
Qed.



Definition demo_edges : gmap string edge :=
  {["http://e1" := mkEdge [] 0 true 0 ∅ 1 {[demo_path := 0%nat]} [] 0 0 0 0 0 0;
    "http://e2" := mkEdge [] 0 false 0 ∅ 1 {[demo_path := 0%nat]} [] 0 0 0 0 0 0]}.
Definition demo_purged := HTTPPurge_Invalidate (fun _ => None) post_invalidate ["http://e1"; "http://e2"] [demo_path] demo_edges.

(** The first edge rejects invalidations; the second is purged all the same. *)
Lemma purge_reaches_every_edge_witness : demo_purged.2 = Some "cdn: edge http://e1 answered 503" /\
  exists e', demo_purged.1 !! "http://e2" = Some e' /\ purged [demo_path] e'.
Proof.
  split; [by vm_compute|].
  destruct (purge_reaches_every_edge (fun _ => None) ["http://e1"; "http://e2"] [demo_path] demo_edges demo_purged.1 demo_purged.2) as [H _];
    [done|apply surjective_pairing|]. eapply H; [|by vm_compute|done|done]. set_solver.
Defined.
