(* ===== verification/CloudFront.v ===== *)
(** * CloudFront (internal/cdn/cloudfront.go)

    The invalidator of a CloudFront distribution builds one request per call. The service is a parameter: what it does with the
    request, and the error it returns. *)

From S2P Require Import Prelude GoStrings.

#[local] Open Scope Z_scope.

Record CreateInvalidationInput := mkCreateInvalidationInput {
  ci_DistributionId : string;
  ci_CallerReference : string;
  ci_Quantity : Z;                                   (* an int32 *)
  ci_Items : list string;
}.

(** The conversion to int32. *)
Definition int32 (z : Z) : Z := (z + 2147483648) mod 4294967296 - 2147483648.

(** [NewCloudFront]; [loadErr]: the error of loading the AWS configuration, if any. *)
Definition NewCloudFront (loadErr : option string) (distributionID : string) : string + string :=
  match loadErr with Some err => inr ("cdn: load AWS config: " +:+ err) | None => inl distributionID end.

Definition cloudfront_request (distributionID : string) (nowNanos : Z) (paths : list string) : CreateInvalidationInput :=
  mkCreateInvalidationInput distributionID ("edgekv-" +:+ pretty nowNanos) (int32 (Z.of_nat (length paths))) paths.

Section Invalidate.
Context {W : Type} (create : CreateInvalidationInput -> W -> W * option string).

Definition CloudFront_Invalidate (distributionID : string) (nowNanos : Z) (paths : list string) (w : W) : W * option string :=
  create (cloudfront_request distributionID nowNanos paths) w.

(** The attempts of the queue's worker at one batch, at the times [times], until one succeeds. *)
Fixpoint cloudfront_attempts (distributionID : string) (times : list Z) (paths : list string) (w : W) : W * bool :=
  match times with
  | [] => (w, false)
  | t :: times =>
      match CloudFront_Invalidate distributionID t paths w with
      | (w, None) => (w, true)
      | (w, Some _) => cloudfront_attempts distributionID times paths w
      end
  end.

(** How many invalidations the service has created, of which a request with a caller reference it has not seen adds one even when
    its answer is lost, and one with a reference it has seen adds none. *)
Context (known : W -> gset string) (created : W -> nat).
Hypothesis create_new : forall req w, ci_CallerReference req ∉ known w ->
  created (create req w).1 = S (created w) /\ known (create req w).1 = {[ci_CallerReference req]} ∪ known w.

(** Every attempt at a batch has a caller reference of its own, so a batch whose first attempts were carried out but not answered is
    invalidated once for each of them: the reference does not make retries idempotent. *)
Lemma retries_are_not_idempotent distributionID times paths : forall w,
  NoDup times -> (forall t, t ∈ times -> ("edgekv-" +:+ pretty t) ∉ known w) -> (forall req w, (create req w).2 <> None) ->
  created (cloudfront_attempts distributionID times paths w).1 = (created w + length times)%nat.
Proof.
  induction times as [|t times IH]; intros w Hnd Hf Hlost; cbn; [lia|]. apply NoDup_cons in Hnd as [Ht Hnd].
  unfold CloudFront_Invalidate. destruct (create_new (cloudfront_request distributionID t paths) w) as [Hc Hk]; [apply Hf; by left|].
  specialize (Hlost (cloudfront_request distributionID t paths) w) as Hl. destruct (create _ w) as [w1 [err|]]; [|done]. cbn in Hc, Hk.
  rewrite IH; [lia|done| |done]. intros t' Hin. rewrite Hk, not_elem_of_union, not_elem_of_singleton. split; [|apply Hf; by right].
  intros E. apply (inj (String.append "edgekv-")), (inj pretty) in E. by subst.
Qed.
End Invalidate.

(** A batch of fewer than 2^31 paths is announced with its number of paths. *)
Lemma cloudfront_quantity distributionID nowNanos paths :
  Z.of_nat (length paths) < 2147483648 -> ci_Quantity (cloudfront_request distributionID nowNanos paths) = Z.of_nat (length (ci_Items (cloudfront_request distributionID nowNanos paths))).
Proof. intros Hb. cbn. unfold int32. rewrite Z.mod_small; lia. Qed.

(** A service that loses its answers: four attempts, four invalidations. *)
Definition forgetful (req : CreateInvalidationInput) (w : gset string * nat) : (gset string * nat) * option string :=
  if decide (ci_CallerReference req ∈ w.1) then (w, Some "timeout") else (({[ci_CallerReference req]} ∪ w.1, S w.2), Some "timeout").

Lemma retries_are_not_idempotent_example : (cloudfront_attempts forgetful "E1" [1; 2; 4; 8] ["/v1/cache/a"] (∅, 0%nat)).1.2 = 4%nat.
Proof.
  apply (retries_are_not_idempotent forgetful fst snd).
  - intros req w Hn. unfold forgetful. by rewrite decide_False.
  - apply (bool_decide_unpack _). by vm_compute.
  - intros t _. apply not_elem_of_empty.
  - intros req w. unfold forgetful. by case_decide.
Qed.
