(* ===== verification/Metrics.v ===== *)
(** * Metrics (internal/metrics)

    Counters, histograms and gauges, and their text form. A [float64] is an IEEE 754 number of the
    standard library's specification, so comparisons and sums are those of the machine; how a number that is not
    a small integer is printed ([%g]) is a parameter. *)

From Stdlib Require Import Ascii SpecFloat.
From S2P Require Import Prelude GoStrings.

#[local] Open Scope N_scope.

(** ** float64 *)
Abbreviation float64 := spec_float.
Definition fadd : float64 -> float64 -> float64 := SFadd 53 1024.
Definition fle : float64 -> float64 -> bool := SFleb.

(** The integer a number is, if it is one ([v == math.Trunc(v)], infinities apart). *)
Definition float_integer (v : float64) : option Z :=
  match v with
  | S754_zero _ => Some 0%Z
  | S754_finite s m e =>
      let z := if s then Z.neg m else Z.pos m in
      if (0 <=? e)%Z then Some (z * 2 ^ e)%Z
      else if (z mod 2 ^ (- e) =? 0)%Z then Some (z / 2 ^ (- e))%Z else None
  | _ => None
  end.

(** ** sort.SearchFloat64s *)
Fixpoint search_loop (fuel : nat) (f : nat -> bool) (i j : nat) : nat :=
  match fuel with
  | O => i
  | S fuel =>
      if (i <? j)%nat then
        let h := ((i + j) / 2)%nat in
        if f h then search_loop fuel f i h else search_loop fuel f (S h) j
      else i
  end.

Definition SearchFloat64s (a : list float64) (x : float64) : nat :=
  search_loop (length a) (fun h => match a !! h with Some b => fle x b | None => false end) 0 (length a).

(** ** Data *)
Definition DefaultBuckets : list float64 :=
  [S754_finite false 7378697629483821 (-66); S754_finite false 4611686018427388 (-64); S754_finite false 4611686018427388 (-63);
   S754_finite false 4611686018427388 (-62); S754_finite false 5764607523034235 (-61); S754_finite false 5764607523034235 (-60);
   S754_finite false 5764607523034235 (-59); S754_finite false 7205759403792794 (-58); S754_finite false 7205759403792794 (-57);
   S754_finite false 7205759403792794 (-56); S754_finite false 4503599627370496 (-54); S754_finite false 4503599627370496 (-53);
   S754_finite false 4503599627370496 (-52); S754_finite false 5629499534213120 (-51); S754_finite false 5629499534213120 (-50);
   S754_finite false 5629499534213120 (-49)].

Record histogram := mkHistogram {
  h_buckets : list float64;
  h_counts : list N;
  h_sum : float64;
}.

Abbreviation labels := (gmap string string).

(** [L]: the live state the collectors read. *)
Record Registry (L : Type) := mkRegistry {
  r_counters : gmap string N;
  r_histograms : gmap string histogram;
  r_help : gmap string string;
  r_collectors : list (L -> list (string * labels * float64));
}.
Arguments mkRegistry {L}.
Arguments r_counters {L}.
Arguments r_histograms {L}.
Arguments r_help {L}.
Arguments r_collectors {L}.

#[global] Instance eta_Registry L : Eta (Registry L) := fun r => mkRegistry (r_counters r) (r_histograms r) (r_help r) (r_collectors r).

Definition NewRegistry {L} : Registry L := mkRegistry ∅ ∅ ∅ [].

(** ** Series keys *)

(** [%q] for ASCII strings. *)
Definition quote_byte (a : ascii) : string :=
  let n := N_of_ascii a in
  let esc c := String "\"%char (String c EmptyString) in
  if n =? 34 then esc (ascii_of_N 34)
  else if n =? 92 then esc "\"%char
  else if n =? 7 then esc "a"%char else if n =? 8 then esc "b"%char else if n =? 12 then esc "f"%char
  else if n =? 10 then esc "n"%char else if n =? 13 then esc "r"%char else if n =? 9 then esc "t"%char else if n =? 11 then esc "v"%char
  else if (n <? 32) || (n =? 127)
       then let hex d := ascii_of_N (if d <? 10 then 48 + d else 87 + d) in
            String "\"%char (String "x"%char (String (hex (n / 16)) (String (hex (n mod 16)) EmptyString)))
       else String a EmptyString.

Definition dquote : string := String (ascii_of_N 34) EmptyString.

Fixpoint quote_bytes (s : string) : string :=
  match s with EmptyString => EmptyString | String a s => quote_byte a +:+ quote_bytes s end.

Definition Quote (s : string) : string := dquote +:+ quote_bytes s +:+ dquote.

Definition seriesKey (name : string) (ls : labels) : string :=
  if (size ls =? 0)%nat then name
  else
    let keys := sort_strings (map_to_list ls).*1 in
    let parts := (fun k => k +:+ "=" +:+ Quote (default EmptyString (ls !! k))) <$> keys in
    name +:+ "{" +:+ Join "," parts +:+ "}".

Fixpoint splitKey (key : string) : string * string :=
  match key with
  | EmptyString => (EmptyString, EmptyString)
  | String a rest =>
      if bool_decide (a = "{"%char) then (EmptyString, key)
      else let '(name, ls) := splitKey rest in (String a name, ls)
  end.

Fixpoint drop_last (s : string) : string :=
  match s with
  | EmptyString | String _ EmptyString => EmptyString
  | String a s => String a (drop_last s)
  end.

Definition withLabel (ls k v : string) : string :=
  let extra := k +:+ "=" +:+ Quote v in
  if bool_decide (ls = EmptyString) then "{" +:+ extra +:+ "}" else drop_last ls +:+ "," +:+ extra +:+ "}".

(** ** Recording *)
Section Ops.
Context {L : Type}.

Definition Add (name : string) (ls : labels) (n : N) (r : Registry L) : Registry L :=
  let key := seriesKey name ls in
  r <| r_counters := <[key := u64 (default 0 (r_counters r !! key) + n)]> (r_counters r) |>.

Definition Inc (name : string) (ls : labels) (r : Registry L) : Registry L := Add name ls 1 r.

Definition observe (v : float64) (h : histogram) : res histogram :=
  let idx := SearchFloat64s (h_buckets h) v in
  c ← or_panic "index out of range" (h_counts h !! idx);
  Ok (mkHistogram (h_buckets h) (<[idx := u64 (c + 1)]> (h_counts h)) (fadd (h_sum h) v)).

Definition fresh_histogram : histogram :=
  mkHistogram DefaultBuckets (replicate (S (length DefaultBuckets)) 0) (S754_zero false).

Definition Observe (name : string) (ls : labels) (v : float64) (r : Registry L) : res (Registry L) :=
  let key := seriesKey name ls in
  h ← observe v (default fresh_histogram (r_histograms r !! key));
  Ok (r <| r_histograms := <[key := h]> (r_histograms r) |>).

Definition Collect (fn : L -> list (string * labels * float64)) (r : Registry L) : Registry L :=
  r <| r_collectors := r_collectors r ++ [fn] |>.

Definition Help (name text : string) (r : Registry L) : Registry L := r <| r_help := <[name := text]> (r_help r) |>.

(** ** Rendering *)
Context (fmtG : float64 -> string).

Definition formatFloat (v : float64) : string :=
  match float_integer v with
  | Some z => if (Z.abs z <? 10 ^ 15)%Z then pretty z else fmtG v
  | None => fmtG v
  end.

(** The running sums of the counts. *)
Fixpoint running (acc : N) (counts : list N) : list N :=
  match counts with
  | [] => []
  | c :: counts => let acc := u64 (acc + c) in acc :: running acc counts
  end.

Definition bucket_line (name ls : string) (p : float64 * N) : string :=
  name +:+ "_bucket" +:+ withLabel ls "le" (formatFloat p.1) +:+ " " +:+ FormatUint p.2.

Definition histogram_lines (key : string) (h : histogram) : res (list string) :=
  let '(name, ls) := splitKey key in
  let sums := running 0 (h_counts h) in
  total ← or_panic "index out of range" (sums !! length (h_buckets h));
  Ok ((bucket_line name ls <$> zip (h_buckets h) sums) ++
      [name +:+ "_bucket" +:+ withLabel ls "le" "+Inf" +:+ " " +:+ FormatUint total;
       name +:+ "_sum" +:+ ls +:+ " " +:+ formatFloat (h_sum h);
       name +:+ "_count" +:+ ls +:+ " " +:+ FormatUint total]).

Fixpoint all_histogram_lines (l : list (string * histogram)) : res (list string) :=
  match l with
  | [] => Ok []
  | (key, h) :: l => ls ← histogram_lines key h; rest ← all_histogram_lines l; Ok (ls ++ rest)
  end.

Definition metric_lines (live : L) (r : Registry L) : res (list string) :=
  hs ← all_histogram_lines (map_to_list (r_histograms r));
  Ok (((fun kv : string * N => kv.1 +:+ " " +:+ FormatUint kv.2) <$> map_to_list (r_counters r)) ++
      ((fun e : string * labels * float64 => seriesKey e.1.1 e.1.2 +:+ " " +:+ formatFloat e.2) <$> (r_collectors r ≫= fun fn => fn live)) ++ hs).

Fixpoint TrimSuffix (s suffix : string) : string :=
  if bool_decide (s = suffix) then EmptyString
  else match s with EmptyString => EmptyString | String a s => String a (TrimSuffix s suffix) end.

(** The text up to the first brace or space. *)
Fixpoint line_name (line : string) : string :=
  match line with
  | EmptyString => EmptyString
  | String a line => if bool_decide (a = "{"%char \/ a = " "%char) then EmptyString else String a (line_name line)
  end.

Definition base_name (line : string) : string := foldl TrimSuffix (line_name line) ["_bucket"; "_sum"; "_count"].

(** Each line with the HELP line printed before it, if any. *)
Fixpoint with_help (help : gmap string string) (seen : list string) (lines : list string) : list (option string * string) :=
  match lines with
  | [] => []
  | line :: lines =>
      let name := base_name line in
      match help !! name with
      | Some text =>
          if bool_decide (name ∈ seen) then (None, line) :: with_help help seen lines
          else (Some ("# HELP " +:+ name +:+ " " +:+ text), line) :: with_help help (name :: seen) lines
      | None => (None, line) :: with_help help seen lines
      end
  end.

Definition Registry_Write (live : L) (r : Registry L) : res (list string) :=
  lines ← metric_lines live r;
  Ok (with_help (r_help r) [] (sort_strings lines) ≫= fun p => match p.1 with Some h => [h; p.2] | None => [p.2] end).
End Ops.

(** ** Binary search *)
Lemma search_loop_spec f n fuel i j : (j - i <= fuel)%nat -> (i <= j <= n)%nat ->
  (forall a b, (a <= b < n)%nat -> f a = true -> f b = true) ->
  let k := search_loop fuel f i j in (i <= k <= j)%nat /\ (forall h, (i <= h < k)%nat -> f h = false) /\ ((k < j)%nat -> f k = true).
Proof.
  intros Hf Hij Hm. revert i j Hf Hij. induction fuel as [|fuel IH]; intros i j Hf Hij; cbn [search_loop].
  { split_and!; lia. }
  destruct (Nat.ltb_spec i j) as [Hlt|Hge]; [|split_and!; lia].
  assert (Hh : (i <= (i + j) / 2 < j)%nat) by (split; [apply Nat.div_le_lower_bound|apply Nat.Div0.div_lt_upper_bound]; lia).
  destruct (f ((i + j) / 2)%nat) eqn:Hfh.
  - destruct (IH i ((i + j) / 2)%nat) as (H1 & H2 & H3); [lia..|]. split_and!; [lia|lia|done|].
    intros _. destruct (decide (search_loop fuel f i ((i + j) / 2) = (i + j) / 2)%nat) as [->|Hne]; [done|]. apply H3. lia.
  - destruct (IH (S ((i + j) / 2)) j) as (H1 & H2 & H3); [lia..|]. split_and!; [lia|lia| |done].
    intros h Hr. destruct (decide (h <= (i + j) / 2)%nat); [|apply H2; lia].
    destruct (f h) eqn:Hb; [|done]. rewrite (Hm h ((i + j) / 2)%nat) in Hfh; [done|lia|done].
Qed.

(** Comparison is the lexicographic one of a triple of integers. *)
Definition float_key (v : float64) : option (Z * Z * Z) :=
  match v with
  | S754_nan => None
  | S754_infinity s => Some (if s then (-2, 0, 0)%Z else (2, 0, 0)%Z)
  | S754_zero _ => Some (0, 0, 0)%Z
  | S754_finite s m e => Some (if s then (-1, - e, Z.neg m)%Z else (1, e, Z.pos m)%Z)
  end.

Definition key_le (a b : Z * Z * Z) : Prop :=
  (a.1.1 < b.1.1 \/ a.1.1 = b.1.1 /\ (a.1.2 < b.1.2 \/ a.1.2 = b.1.2 /\ a.2 <= b.2))%Z.

Lemma fle_key x y : fle x y = true <-> exists a b, float_key x = Some a /\ float_key y = Some b /\ key_le a b.
Proof.
  unfold fle, SFleb, key_le. destruct x as [[]|[]| |[] m e], y as [[]|[]| |[] m' e']; cbn;
    try (split; [done|intros (? & ? & ? & ? & ?); simplify_eq; cbn in *; lia]);
    try (split; [intros _; eexists _, _; split_and!; [done..|cbn; lia]|done]).
  1-2: change (PosDef.Pos.compare_cont Eq m m') with (Pos.compare m m');
    destruct (Z.compare_spec e e') as [->|?|?]; cbn; [destruct (Pos.compare_spec m m') as [->|?|?]; cbn|..];
    (split; [intros Hf|intros (? & ? & [= <-] & [= <-] & ?)]); cbn in *; try done; try lia;
    eexists _, _; (split_and!; [done..|cbn; lia]).
Qed.

Lemma fle_trans x y z : fle x y = true -> fle y z = true -> fle x z = true.
Proof.
  rewrite !fle_key. intros (a & b & Ha & Hb & H1) (b' & c & Hb' & Hc & H2). rewrite Hb in Hb'. injection Hb' as <-.
  exists a, c. split_and!; [done..|]. unfold key_le in *. lia.
Qed.

(** ** Histograms *)
Definition increasing (buckets : list float64) : Prop :=
  forall i j a b, (i <= j)%nat -> buckets !! i = Some a -> buckets !! j = Some b -> fle a b = true.

Lemma SearchFloat64s_spec buckets v : increasing buckets ->
  let k := SearchFloat64s buckets v in
  (k <= length buckets)%nat /\ (forall i b, buckets !! i = Some b -> fle v b = true <-> (k <= i)%nat).
Proof.
  intros Hinc k. unfold k, SearchFloat64s. set (f := fun h => _).
  destruct (search_loop_spec f (length buckets) (length buckets) 0 (length buckets)) as (H1 & H2 & H3); [lia..| |].
  { intros a b Hab Ha. unfold f in *. destruct (lookup_lt_is_Some_2 buckets b) as [y Hy]; [lia|].
    destruct (buckets !! a) as [x|] eqn:Hx; [|done]. rewrite Hy. eapply fle_trans; [exact Ha|]. by apply (Hinc a b); [lia|..]. }
  split; [lia|]. intros i b Hb. assert (Hi : f i = fle v b) by (unfold f; by rewrite Hb). rewrite <- Hi. split.
  - intros Ht. destruct (decide (search_loop (length buckets) f 0 (length buckets) <= i)%nat); [done|]. rewrite H2 in Ht; [done|lia].
  - intros Hk. apply lookup_lt_Some in Hb as Hlt. assert (Hs : f (search_loop (length buckets) f 0 (length buckets)) = true) by (apply H3; lia).
    clear -Hinc Hb Hs Hk Hi. rewrite Hi. unfold f in Hs at 1. destruct (buckets !! search_loop _ _ _ _) as [x|] eqn:Hx; [|done].
    eapply fle_trans; [exact Hs|]. by eapply Hinc.
Qed.

Lemma DefaultBuckets_increasing : increasing DefaultBuckets.
Proof.
  assert (H : forallb (fun i => forallb (fun j => match DefaultBuckets !! i, DefaultBuckets !! j with
    Some a, Some b => fle a b | _, _ => true end) (seq i (16 - i))) (seq 0 16) = true) by by vm_compute.
  intros i j a b Hij Ha Hb. apply lookup_lt_Some in Ha as Hi, Hb as Hj. change (length DefaultBuckets) with 16%nat in *.
  rewrite forallb_forall in H. specialize (H i ltac:(apply in_seq; lia)). rewrite forallb_forall in H.
  specialize (H j ltac:(apply in_seq; lia)). by rewrite Ha, Hb in H.
Qed.

Definition observe_all (vs : list float64) (h : histogram) : res histogram :=
  foldl (fun m v => h ← m; observe v h) (Ok h) vs.

(** How many of the values a bucket's bound covers. *)
Definition covered (b : float64) (vs : list float64) : N := lenN (filter (fun v => fle v b = true) vs).

Definition sumN (l : list N) : N := foldr N.add 0 l.

Lemma running_lookup acc counts i :
  acc + sumN counts < u64_modulus -> (i < length counts)%nat -> running acc counts !! i = Some (acc + sumN (take (S i) counts)).
Proof.
  revert acc i. induction counts as [|c counts IH]; intros acc i Hs Hi; [cbn in Hi; lia|].
  cbn in Hs, Hi. fold (sumN counts) in Hs. cbn [running]. rewrite u64_small by lia. change (sumN (take (S i) (c :: counts))) with (c + sumN (take i counts)).
  destruct i as [|i].
  { cbn. replace (sumN (take 0 counts)) with 0 by done. f_equal. lia. }
  cbn [lookup list_lookup]. rewrite IH by lia. f_equal. lia.
Qed.

Lemma sumN_insert l k c d n : l !! k = Some c ->
  sumN (take n (<[k := d]> l)) + (if (k <? n)%nat then c else 0) = sumN (take n l) + (if (k <? n)%nat then d else 0).
Proof.
  unfold sumN. revert k n. induction l as [|x l IH]; intros k n Hk; [done|]. destruct n as [|n]; [by destruct k|]. destruct k as [|k].
  - injection Hk as ->. cbn. lia.
  - specialize (IH k n Hk). cbn [insert list_insert take foldr]. rewrite <- !N.add_assoc. f_equal. exact IH.
Qed.

(** The counts up to a bucket add up to the values its bound covers, and all of them to the values there were. *)
Record counted (h : histogram) (vs : list float64) : Prop := mkCounted {
  ct_buckets : h_buckets h = DefaultBuckets;
  ct_length : length (h_counts h) = S (length DefaultBuckets);
  ct_sums : forall i b, DefaultBuckets !! i = Some b -> sumN (take (S i) (h_counts h)) = covered b vs;
  ct_total : sumN (h_counts h) = lenN vs;
}.

Lemma fresh_counted : counted fresh_histogram [].
Proof. split; [done..| |done]. intros i b Hb. apply lookup_lt_Some in Hb. change (length DefaultBuckets) with 16%nat in Hb.
  do 16 (destruct i as [|i]; [done|]). lia. Qed.

Lemma observe_counted h vs v : counted h vs -> lenN vs + 1 < u64_modulus -> exists h', observe v h = Ok h' /\ counted h' (vs ++ [v]).
Proof.
  intros [Hb Hl Hs Ht] Hbound. unfold observe. rewrite Hb.
  destruct (SearchFloat64s_spec DefaultBuckets v DefaultBuckets_increasing) as [Hk Hi]. set (k := SearchFloat64s DefaultBuckets v) in *. clearbody k.
  destruct (lookup_lt_is_Some_2 (h_counts h) k) as [c Hc]; [lia|]. rewrite Hc. cbn. eexists. split; [done|].
  assert (Hcs : c <= sumN (h_counts h)).
  { pose proof (sumN_insert (h_counts h) k c 0 (S (length (h_counts h))) Hc) as H. rewrite (proj2 (Nat.ltb_lt k _)) in H by lia.
    rewrite take_ge in H by (rewrite length_insert; lia). rewrite (take_ge (h_counts h)) in H by lia. lia. }
  rewrite (u64_small (c + 1)) by lia. split; cbn [h_buckets h_counts].
  - done.
  - by rewrite length_insert.
  - intros i b Hb'. pose proof (sumN_insert (h_counts h) k c (c + 1) (S i) Hc) as H. rewrite (Hs i b Hb') in H.
    unfold covered in *. rewrite filter_app, lenN_app. rewrite filter_cons, filter_nil. specialize (Hi i b Hb').
    destruct (Nat.ltb_spec k (S i)), (decide (fle v b = true)) as [Hv|Hv]; try (rewrite Hi in Hv; lia).
    + change (lenN [v]) with 1. lia.
    + change (lenN (@nil float64)) with 0. lia.
  - pose proof (sumN_insert (h_counts h) k c (c + 1) (S (length (h_counts h))) Hc) as H. rewrite (proj2 (Nat.ltb_lt k _)) in H by lia.
    rewrite take_ge in H by (rewrite length_insert; lia). rewrite (take_ge (h_counts h)) in H by lia. rewrite lenN_app. change (lenN [v]) with 1. lia.
Qed.

Lemma observe_all_counted vs : lenN vs < u64_modulus -> exists h, observe_all vs fresh_histogram = Ok h /\ counted h vs.
Proof.
  induction vs as [|v vs IH] using rev_ind; [exists fresh_histogram; split; [done|apply fresh_counted]|].
  rewrite lenN_app. change (lenN [v]) with 1. intros Hb. destruct IH as (h & Ho & Hc); [lia|].
  destruct (observe_counted h vs v Hc Hb) as (h' & Ho' & Hc'). exists h'. split; [|done].
  unfold observe_all in *. rewrite foldl_app, Ho. done.
Qed.

(** A rendered histogram is right: after any fewer than 2^64 observations, infinite and not-a-number ones included, the
    count a bucket is rendered with is the number of observations at most its bound, and the last one is the number of all observations;
    recording and rendering never index out of range. *)
Theorem histogram_renders_cumulative_counts vs :
  lenN vs < u64_modulus ->
  exists h, observe_all vs fresh_histogram = Ok h /\
    (forall i b, DefaultBuckets !! i = Some b -> running 0 (h_counts h) !! i = Some (covered b vs)) /\
    running 0 (h_counts h) !! length (h_buckets h) = Some (lenN vs) /\
    forall fmtG key, is_ok (histogram_lines fmtG key h) = true.
Proof.
  intros Hb. destruct (observe_all_counted vs Hb) as (h & Ho & [Hbk Hl Hs Ht]). exists h. split; [done|].
  assert (Htot : running 0 (h_counts h) !! length (h_buckets h) = Some (lenN vs)).
  { rewrite Hbk. rewrite running_lookup by lia. by rewrite take_ge, Ht by lia. }
  split_and!; [|done|].
  - intros i b Hi. apply lookup_lt_Some in Hi as Hlt. rewrite running_lookup by lia. by rewrite (Hs i b Hi).
  - intros fmtG key. unfold histogram_lines. destruct (splitKey key). rewrite Htot. done.
Qed.

(** 200 microseconds, one second, infinity, and not a number. *)
Definition demo_values : list float64 :=
  [S754_finite false 7378697629483821 (-65); S754_finite false 4503599627370496 (-52); S754_infinity false; S754_nan].

Lemma histogram_renders_cumulative_counts_witness : lenN demo_values < u64_modulus /\
  exists h, observe_all demo_values fresh_histogram = Ok h /\
    (forall i b, DefaultBuckets !! i = Some b -> running 0 (h_counts h) !! i = Some (covered b demo_values)) /\
    running 0 (h_counts h) !! length (h_buckets h) = Some (lenN demo_values) /\
    forall fmtG key, is_ok (histogram_lines fmtG key h) = true.
Proof. split; [by vm_compute|]. apply (histogram_renders_cumulative_counts demo_values). by vm_compute. Defined.

(** The counts kept are per bucket, not cumulative: after one observation of 200 microseconds the slot of every larger bound is zero. *)
Theorem counts_are_not_cumulative :
  exists h v, observe_all [v] fresh_histogram = Ok h /\ forall i b, (1 < i)%nat -> DefaultBuckets !! i = Some b -> fle v b = true /\ h_counts h !! i = Some 0.
Proof.
  eexists _, (S754_finite false 7378697629483821 (-65)). split; [by vm_compute|]. intros i b Hi Hb.
  apply lookup_lt_Some in Hb as Hlt. change (length DefaultBuckets) with 16%nat in Hlt.
  do 16 (destruct i as [|i]; [first [lia|injection Hb as <-; by vm_compute]|]). lia.
Qed.

(** ** The text *)
Definition flatten_help (pairs : list (option string * string)) : list string :=
  pairs ≫= fun p => match p.1 with Some h => [h; p.2] | None => [p.2] end.

(** The metrics a HELP line is printed for. *)
Definition helped (pairs : list (option string * string)) : list string := base_name <$> (filter (fun p => is_Some p.1) pairs).*2.

Lemma with_help_spec help seen lines :
  (with_help help seen lines).*2 = lines /\ NoDup (helped (with_help help seen lines)) /\
  forall n, n ∈ helped (with_help help seen lines) -> n ∉ seen.
Proof.
  revert seen. induction lines as [|line lines IH]; intros seen; cbn [with_help]; [split_and!; [done|constructor|]; intros n Hn; by apply elem_of_nil in Hn|].
  assert (Hnone : forall seen, helped ((None, line) :: with_help help seen lines) = helped (with_help help seen lines)).
  { intros s. unfold helped. rewrite filter_cons_False; [done|]. by intros []. }
  destruct (help !! base_name line) as [text|]; [case_bool_decide as Hs|]; cbn [fmap list_fmap snd]; rewrite ?Hnone.
  - destruct (IH seen) as (H1 & H2 & H3). split_and!; [by f_equal|done..].
  - destruct (IH (base_name line :: seen)) as (H1 & H2 & H3). unfold helped in *. rewrite filter_cons_True by (by eexists). cbn [fmap list_fmap snd].
    split_and!; [by f_equal| |].
    + constructor; [|done]. intros Hin%H3. apply Hin. by left.
    + intros n [->|Hin]%elem_of_cons; [done|]. apply H3 in Hin. set_solver.
  - destruct (IH seen) as (H1 & H2 & H3). split_and!; [by f_equal|done..].
Qed.

(** Every metric is rendered once: what is written are exactly the sorted lines of the counters, gauges and
    histograms, with a HELP line before some of them, at most one per metric. *)
Theorem every_metric_is_rendered_once {L} fmtG (live : L) r out :
  Registry_Write fmtG live r = Ok out ->
  exists lines pairs, metric_lines fmtG live r = Ok lines /\ out = flatten_help pairs /\ pairs.*2 = sort_strings lines /\ pairs.*2 ≡ₚ lines /\ NoDup (helped pairs).
Proof.
  unfold Registry_Write. intros (lines & Hl & [= <-])%bind_Ok. exists lines, (with_help (r_help r) [] (sort_strings lines)).
  destruct (with_help_spec (r_help r) [] (sort_strings lines)) as (H1 & H2 & _). split_and!; [done..| |done]. rewrite H1. apply sort_strings_perm.
Qed.

(** ** A scrape *)
Definition demo_registry : Registry unit :=
  Inc "ops_total" {["op" := "put"; "code" := "200"]} (Help "lat" "Latency." (Inc "ops_total" {["code" := "200"; "op" := "put"]} NewRegistry)).
Definition demo_observed : res (Registry unit) := Observe "lat" ∅ (S754_finite false 4503599627370496 (-52)) demo_registry.
Definition demo_scrape : res (list string) := r ← demo_observed; Registry_Write (fun _ => "0.5") () r.

Lemma every_metric_is_rendered_once_witness : exists r out, demo_observed = Ok r /\ Registry_Write (fun _ => "0.5") () r = Ok out /\
  exists lines pairs, metric_lines (fun _ => "0.5") () r = Ok lines /\ out = flatten_help pairs /\ pairs.*2 = sort_strings lines /\ pairs.*2 ≡ₚ lines /\
    NoDup (helped pairs).
Proof.
  assert (Hs : is_ok demo_scrape = true) by by vm_compute. destruct demo_scrape as [out|] eqn:He; [|done].
  apply bind_Ok in He as (r & Ho & Hw). exists r, out. split; [done|]. split; [done|]. exact (every_metric_is_rendered_once _ _ _ _ Hw).
Defined.

(** The lines of a histogram are sorted as text, so its buckets are not in the order of their bounds: the infinite one comes first and
    10 comes before 5. *)
Theorem buckets_are_not_in_order :
  let line le n := String.concat "" ["lat_bucket{le="; Quote le; "} "; n] in
  exists out i j k, demo_scrape = Ok out /\ out !! i = Some (line "+Inf" "1") /\ out !! j = Some (line "10" "1") /\ out !! k = Some (line "5" "1") /\
    (i < j < k)%nat.
Proof.
  eexists _, 1%nat, 16%nat, 17%nat. split; [by vm_compute|]. split_and!; try (by vm_compute); lia.
Qed.

(** ** Recording and rendering never fail *)
Definition histogram_wf (h : histogram) : Prop := h_buckets h = DefaultBuckets /\ length (h_counts h) = S (length DefaultBuckets).

Definition registry_ok {L} (r : Registry L) : Prop := map_Forall (fun _ h => histogram_wf h) (r_histograms r).

Lemma observe_wf v h : histogram_wf h -> exists h', observe v h = Ok h' /\ histogram_wf h'.
Proof.
  intros [Hb Hl]. unfold observe. rewrite Hb. destruct (SearchFloat64s_spec DefaultBuckets v DefaultBuckets_increasing) as [Hk _].
  set (k := SearchFloat64s DefaultBuckets v) in *. clearbody k. destruct (lookup_lt_is_Some_2 (h_counts h) k) as [c ->]; [lia|].
  eexists. split; [done|]. split; [done|]. cbn [h_counts]. by rewrite length_insert.
Qed.

Lemma Observe_ok {L} name ls v (r : Registry L) : registry_ok r -> exists r', Observe name ls v r = Ok r' /\ registry_ok r' /\ r_counters r' = r_counters r.
Proof.
  intros Hr. unfold Observe. assert (Hh : histogram_wf (default fresh_histogram (r_histograms r !! seriesKey name ls))).
  { destruct (r_histograms r !! seriesKey name ls) as [h|] eqn:Hk; [by apply (Hr _ _ Hk)|done]. }
  destruct (observe_wf v _ Hh) as (h' & -> & Hh'). eexists. split; [done|]. split; [|done]. by apply map_Forall_insert_2.
Qed.

Lemma running_length acc counts : length (running acc counts) = length counts.
Proof. revert acc. induction counts as [|c counts IH]; intros acc; cbn; [done|]. by rewrite IH. Qed.

Lemma histogram_lines_total fmtG key h : histogram_wf h -> exists ls, histogram_lines fmtG key h = Ok ls.
Proof.
  intros [Hb Hl]. unfold histogram_lines. destruct (splitKey key). rewrite Hb.
  destruct (lookup_lt_is_Some_2 (running 0 (h_counts h)) (length DefaultBuckets)) as [t ->]; [rewrite running_length; lia|]. by eexists.
Qed.

Lemma Registry_Write_total {L} fmtG (live : L) r : registry_ok r -> exists out, Registry_Write fmtG live r = Ok out.
Proof.
  intros Hr. unfold Registry_Write, metric_lines.
  assert (exists hs, all_histogram_lines fmtG (map_to_list (r_histograms r)) = Ok hs) as [hs ->]; [|by eexists].
  apply map_Forall_to_list in Hr. induction Hr as [|[k h] l Hh _ [rest IH]]; [by eexists|]. cbn.
  destruct (histogram_lines_total fmtG k h Hh) as [ls ->]. rewrite IH. by eexists.
Qed.

(** What the program does with its registry. *)
Inductive metric_op (L : Type) :=
| MAdd (name : string) (ls : labels) (n : N)
| MObserve (name : string) (ls : labels) (v : float64)
| MCollect (fn : L -> list (string * labels * float64))
| MHelp (name text : string).
Arguments MAdd {L}.
Arguments MObserve {L}.
Arguments MCollect {L}.
Arguments MHelp {L}.

Definition apply_metric {L} (op : metric_op L) (r : Registry L) : res (Registry L) :=
  match op with
  | MAdd name ls n => Ok (Add name ls n r)
  | MObserve name ls v => Observe name ls v r
  | MCollect fn => Ok (Collect fn r)
  | MHelp name text => Ok (Help name text r)
  end.

Lemma apply_metric_ok {L} (op : metric_op L) r : registry_ok r -> exists r', apply_metric op r = Ok r' /\ registry_ok r'.
Proof.
  intros Hr. destruct op; cbn; try (by eexists). destruct (Observe_ok name ls v r Hr) as (r' & ? & ? & _). eauto.
Qed.

(** Metrics never fail: after any sequence of counter updates, observations of any number and registrations, every histogram has one
    count per bucket and one more, and a scrape renders. *)
Theorem metrics_never_panic {L} (ops : list (metric_op L)) fmtG live :
  exists r out, foldl (fun m op => r ← m; apply_metric op r) (Ok NewRegistry) ops = Ok r /\ registry_ok r /\ Registry_Write fmtG live r = Ok out.
Proof.
  assert (exists r, foldl (fun m op => r ← m; apply_metric op r) (Ok NewRegistry) ops = Ok r /\ registry_ok r) as (r & Hf & Hr).
  { induction ops as [|op ops IH] using rev_ind; [exists NewRegistry; split; [done|]; apply map_Forall_empty|].
    destruct IH as (r & Hf & Hr). destruct (apply_metric_ok op r Hr) as (r' & Ha & Hr'). exists r'. by rewrite foldl_app, Hf. }
  destruct (Registry_Write_total fmtG live r Hr) as [out Hw]. by exists r, out.
Qed.
