(* ===== verification/Status.v ===== *)
(** * Status and instrumentation (internal/server)

    The status endpoint, the gauges read on every scrape, and the wrapper that counts and times requests. *)

From Stdlib Require Import SpecFloat.
From S2P Require Import Prelude Types GoStrings Store RaftLog Storage Raft Shard Metrics Node Http Mux Server.

#[local] Open Scope N_scope.

Definition State_String (s : State) : string :=
  match s with Follower => "follower" | Candidate => "candidate" | Leader => "leader" end.

Record shardStatus := mkShardStatus {
  ss_Shard : N;
  ss_State : string;
  ss_Term : N;
  ss_Leader : string;
  ss_LeaderURL : string;
  ss_PreferredLeader : string;
  ss_CommitIndex : N;
  ss_LastApplied : N;
  ss_LastLogIndex : N;
  ss_SnapshotIndex : N;
  ss_WALBytes : Z;
  ss_Keys : nat;
  ss_MatchIndex : gmap string N;
}.

Record statusResponse := mkStatusResponse {
  sr_Node : string;
  sr_NumShards : nat;
  sr_Nodes : gmap string string;
  sr_Shards : list shardStatus;
}.

Definition float_of_N (n : N) : float64 := binary_normalize 53 1024 (Z.of_N n) 0 false.
Definition boolFloat (b : bool) : float64 := float_of_N (if b then 1 else 0).

Section Status.
Context {S : Type} `{Storage S} `{StateMachine Store} `{Codec Command} `{Codec Result}.
Context (walSize : Node.Shard S -> Z).           (* the size of the shard's log on disk *)

Definition shard_status (c : ServerConfig) (n : Node S) (sh : Node.Shard S) : res shardStatus :=
  let st := statusLocked (sh_Raft sh) in
  preferred ← PreferredLeader (sh_ID sh) n;
  Ok (mkShardStatus (sh_ID sh) (State_String (st_State st)) (st_Term st) (st_Leader st) (default "" (PeerHTTP c !! st_Leader st)) preferred
        (st_CommitIndex st) (st_LastApplied st) (st_LastLogIndex st) (st_SnapshotIndex st) (walSize sh) (Len (sh_Store sh)) (st_MatchIndex st)).

Fixpoint shard_statuses (c : ServerConfig) (n : Node S) (shs : list (Node.Shard S)) : res (list shardStatus) :=
  match shs with
  | [] => Ok []
  | sh :: shs => x ← shard_status c n sh; rest ← shard_statuses c n shs; Ok (x :: rest)
  end.

Definition handleStatus (c : ServerConfig) (n : Node S) : res (statusResponse * Header) :=
  shs ← shard_statuses c n (no_shards n);
  Ok (mkStatusResponse (NodeID c) (NumShards n) (PeerHTTP c) shs,
      hdr_Set "Content-Type" "application/json" (hdr_Set "Cache-Control" "no-store" ∅)).

(** ** Gauges *)
Definition shard_gauges (sh : Node.Shard S) : list (string * labels * float64) :=
  let st := statusLocked (sh_Raft sh) in
  let shard := FormatUint (sh_ID sh) in
  let l : labels := {["shard" := shard]} in
  [("edgekv_raft_term", l, float_of_N (st_Term st));
   ("edgekv_raft_is_leader", l, boolFloat (bool_decide (st_State st = Leader)));
   ("edgekv_raft_commit_index", l, float_of_N (st_CommitIndex st));
   ("edgekv_raft_last_applied", l, float_of_N (st_LastApplied st));
   ("edgekv_raft_last_log_index", l, float_of_N (st_LastLogIndex st));
   ("edgekv_raft_snapshot_index", l, float_of_N (st_SnapshotIndex st));
   ("edgekv_wal_size_bytes", l, binary_normalize 53 1024 (walSize sh) 0 false)] ++
  ((fun pm : string * N => ("edgekv_raft_replication_lag_entries", <["peer" := pm.1]> l, float_of_N (u64_sub (st_LastLogIndex st) pm.2))) <$>
     map_to_list (st_MatchIndex st)).

Definition registerCollectors (r : Registry (Node S)) : Registry (Node S) :=
  let r := Help "edgekv_http_requests_total" "HTTP requests by operation and status code." r in
  let r := Help "edgekv_http_request_duration_seconds" "HTTP request latency by operation." r in
  let r := Help "edgekv_raft_is_leader" "1 if this node leads the shard." r in
  let r := Help "edgekv_raft_replication_lag_entries" "Leader only: entries the follower is behind." r in
  Collect (fun n => no_shards n ≫= shard_gauges) r.
End Status.

(** ** Counting and timing requests *)

(** What the recorder around the writer remembers: the last status written, 200 if none is. *)
Definition recorded (codes : list N) : N := default 200 (last codes).

Definition instrument {L} (op : string) (codes : list N) (elapsed : float64) (r : Registry L) : res (Registry L) :=
  let r := Inc "edgekv_http_requests_total" {["op" := op; "code" := FormatUint (recorded codes)]} r in
  Observe "edgekv_http_request_duration_seconds" {["op" := op]} elapsed r.

(** A request is counted once, under its operation and status code, for every latency that can be measured. *)
Lemma instrument_ok {L} op codes elapsed (r : Registry L)
    (key := seriesKey "edgekv_http_requests_total" {["op" := op; "code" := FormatUint (recorded codes)]}) :
  registry_ok r ->
  exists r', instrument op codes elapsed r = Ok r' /\ registry_ok r' /\
    r_counters r' !! key = Some (u64 (default 0 (r_counters r !! key) + 1)) /\ forall k, k <> key -> r_counters r' !! k = r_counters r !! k.
Proof.
  intros Hr. unfold instrument. destruct (Observe_ok "edgekv_http_request_duration_seconds" {["op" := op]} elapsed
    (Inc "edgekv_http_requests_total" {["op" := op; "code" := FormatUint (recorded codes)]} r) Hr) as (r' & -> & Hr' & Hc).
  exists r'. rewrite Hc. cbn. fold key. split_and!; [done..|by rewrite lookup_insert_eq|]. intros k Hk. by rewrite lookup_insert_ne.
Qed.

(** ** Status *)
Section StatusFacts.
Context {S : Type} `{Storage S} `{StateMachine Store} `{Codec Command} `{Codec Result}.
Context (walSize : Node.Shard S -> Z).

Lemma shard_statuses_spec c n shs : no_peers n <> [] ->
  exists l, shard_statuses walSize c n shs = Ok l /\ ss_Shard <$> l = sh_ID <$> shs /\
    forall x, x ∈ l -> ss_PreferredLeader x ∈ no_peers n /\ ss_LeaderURL x = default "" (PeerHTTP c !! ss_Leader x).
Proof.
  intros Hp. induction shs as [|sh shs IH]; [exists []; split_and!; [done..|]; intros x Hx; by apply elem_of_nil in Hx|].
  destruct IH as (l & Hl & Hid & Hx). cbn [shard_statuses]. unfold shard_status, PreferredLeader.
  destruct (Nat.eqb_spec (length (no_peers n)) 0) as [Hz|Hz]; [by destruct (no_peers n)|].
  destruct (lookup_lt_is_Some_2 (no_peers n) (N.to_nat (sh_ID sh) `mod` length (no_peers n))) as [p Hlk]; [by apply Nat.mod_upper_bound|].
  rewrite Hlk, Hl. cbn [or_panic mbind res_bind]. eexists. split; [done|]. split; [cbn; by rewrite Hid|].
  intros x [->|Hin]%elem_of_cons; [|by apply Hx]. cbn. split; [|done]. by eapply list_elem_of_lookup_2.
Qed.

(** The status endpoint lists every shard of the node once, in order, with a member as its preferred leader, and may not be cached. *)
Theorem status_lists_every_shard c n :
  no_peers n <> [] ->
  exists resp hdr, handleStatus walSize c n = Ok (resp, hdr) /\ ss_Shard <$> sr_Shards resp = sh_ID <$> no_shards n /\
    (forall x, x ∈ sr_Shards resp -> ss_PreferredLeader x ∈ no_peers n) /\ hdr_Get hdr "Cache-Control" = "no-store".
Proof.
  intros Hp. unfold handleStatus. destruct (shard_statuses_spec c n (no_shards n) Hp) as (l & -> & Hid & Hx). eexists _, _.
  split; [done|]. split_and!; [done| |done]. intros x Hin. by apply Hx.
Qed.

Lemma handleStatus_total c n : no_peers n <> [] -> exists resp hdr, handleStatus walSize c n = Ok (resp, hdr).
Proof. intros Hp. destruct (shard_statuses_spec c n (no_shards n) Hp) as (l & Hl & _). unfold handleStatus. rewrite Hl. by eexists _, _. Qed.
End StatusFacts.
