(* ===== verification/Gateway.v ===== *)
(** * The public HTTP API (internal/server)

    [ServeHTTP]: the mux in front of the handlers, with the instrumentation of the key-value endpoints. A gateway answers every
    request, counts exactly those that reach a key, and only a write can have an effect on the node. *)

From Stdlib Require Import SpecFloat.
From S2P Require Import Prelude Types GoStrings Store RaftLog Storage Raft Shard Metrics Node Http Mux Server Status.

(** What a request gets: the answer of a key-value endpoint with its effects, of another endpoint, or of the mux itself. *)
Inductive served :=
| SKey (w : Response) (es : list effect)
| SStatus (resp : statusResponse) (h : Header)
| SMetrics (h : Header) (lines : list string)
| SText (text : string)
| SMux (m : routed).

(** The operation a key-value endpoint is counted under. *)
Definition op_name (ep : endpoint) : option string :=
  match ep with
  | EpPut => Some "put"
  | EpGet => Some "get"
  | EpDelete => Some "delete"
  | EpCacheGet => Some "cache_get"
  | EpStatus | EpMetrics | EpHealthz => None
  end.

Section Gateway.
Context {S : Type} `{Storage S} `{StateMachine Store} `{Codec Command} `{Codec Result}.
Context (walSize : Node.Shard S -> Z) (fmtG : float64 -> string).
Context (c : ServerConfig) (be : Backend).

Definition handle_key (ep : endpoint) (key : string) (r : Request) : Response * list effect :=
  match ep with
  | EpPut => handlePut c be key r fresh
  | EpDelete => handleDelete c be key r fresh
  | EpCacheGet => handleCacheGet c be key r fresh
  | _ => handleGet c be key r fresh
  end.

(** The status codes a handler has written on its recorder. *)
Definition written (w : Response) : list N := match rs_code w with Some code => [code] | None => [] end.

Definition ServeHTTP (n : Node S) (elapsed : float64) (r : Request) (reg : Registry (Node S)) : res (served * Registry (Node S)) :=
  match findHandler r with
  | RHandle ep key =>
      match ep, op_name ep with
      | EpStatus, _ => '(resp, h) ← handleStatus walSize c n; Ok (SStatus resp h, reg)
      | EpMetrics, _ =>
          lines ← Registry_Write fmtG n reg;
          Ok (SMetrics (hdr_Set "Content-Type" "text/plain; version=0.0.4" ∅) lines, reg)
      | EpHealthz, _ => Ok (SText (String.append "ok" (bytes_string [10])), reg)
      | _, Some op =>
          let '(w, es) := handle_key ep key r in
          reg ← instrument op (written w) elapsed reg;
          Ok (SKey w es, reg)
      | _, None => Ok (SMux RNotFound, reg)
      end
  | m => Ok (SMux m, reg)
  end.

(** [serve] is the part of it that handles keys. *)
Lemma serve_handle_key r : serve c be r = match findHandler r with
  | RHandle ep key => match op_name ep with Some _ => Some (handle_key ep key r) | None => None end
  | _ => None
  end.
Proof. unfold serve, route. destruct (findHandler r) as [[] key| | |]; done. Qed.

Definition requests_total (op : string) (code : N) : string :=
  seriesKey "edgekv_http_requests_total" {["op" := op; "code" := FormatUint code]}.

End Gateway.

