(* ===== verification/Cmd.v ===== *)
(** * The commands (cmd/edgekv, cmd/edgekv-bench)

    How a node reads its configuration, and what the load generator computes: the keys it draws, the operation
    mix, the percentiles, and the staleness of cached reads. *)

From Stdlib Require Import Ascii SpecFloat.
From S2P Require Import Prelude GoStrings Metrics Client CloudFront.

#[local] Open Scope N_scope.

(** ** Configuration of a node *)
Definition splitNonEmpty (s : string) : list string :=
  filter (fun part => part <> EmptyString) (TrimSpace <$> Split ","%char s).

(** One "id=raftAddr|httpURL" added to the two maps. *)
Definition parse_node (item : string) : option (string * (string * string)) :=
  match Cut "="%char item with
  | None => None
  | Some (id, rest) =>
      match Cut "|"%char rest with
      | None => None
      | Some (raftAddr, httpURL) => Some (id, (raftAddr, TrimRight httpURL "/"%char))
      end
  end.

Fixpoint parseCluster_loop (items : list string) (raftAddrs httpURLs : gmap string string) :
    (gmap string string * gmap string string) + string :=
  match items with
  | [] => inl (raftAddrs, httpURLs)
  | item :: items =>
      match parse_node item with
      | None => inr item
      | Some (id, (addr, url)) => parseCluster_loop items (<[id := addr]> raftAddrs) (<[id := url]> httpURLs)
      end
  end.

Definition parseCluster (spec : string) : (gmap string string * gmap string string) + string :=
  match parseCluster_loop (splitNonEmpty spec) ∅ ∅ with
  | inl (raftAddrs, httpURLs) => if (size raftAddrs =? 0)%nat then inr "no nodes given" else inl (raftAddrs, httpURLs)
  | inr err => inr err
  end.

(** The members a node starts with: sorted, so that every node has them in the same order; none if the node
    itself is not listed. *)
Definition cluster_peers (id : string) (raftAddrs : gmap string string) : option (list string) :=
  match raftAddrs !! id with
  | None => None
  | Some _ => Some (sort_strings (map_to_list raftAddrs).*1)
  end.

Inductive Invalidator :=
| Noop
| HTTPPurge (endpoints : list string)
| CloudFront (distributionID : string).

(** [cloudfront]: what loading the AWS configuration gives. *)
Definition newInvalidator (loadAWS : option string) (spec : string) : Invalidator + string :=
  let '(kind, arg) := match Cut ":"%char spec with Some p => p | None => (spec, EmptyString) end in
  if bool_decide (kind = EmptyString \/ kind = "none") then inl Noop
  else if bool_decide (kind = "edge") then inl (HTTPPurge (splitNonEmpty arg))
  else if bool_decide (kind = "cloudfront") then
    if bool_decide (arg = EmptyString) then inr "cloudfront needs a distribution ID"
    else match NewCloudFront loadAWS arg with inr err => inr err | inl id => inl (CloudFront id) end
  else inr ("unknown invalidator " +:+ spec).

Section Env.
Context (getenv : string -> string).

Definition env (key fallback : string) : string := if bool_decide (getenv key = EmptyString) then fallback else getenv key.

Definition envInt (key : string) (fallback : Z) : Z := default fallback (Atoi (getenv key)).

Definition ParseBool (s : string) : option bool :=
  if bool_decide (s ∈ ["1"; "t"; "T"; "true"; "TRUE"; "True"]) then Some true
  else if bool_decide (s ∈ ["0"; "f"; "F"; "false"; "FALSE"; "False"]) then Some false
  else None.

Definition envBool (key : string) (fallback : bool) : bool := default fallback (ParseBool (getenv key)).
End Env.

(** ** The load generator *)

(** [fmt.Sscanf(s, "%d", &n)]: blanks are skipped and what follows the digits is ignored. *)
Fixpoint skip_blanks (s : string) : string :=
  match s with
  | String a s' => if bool_decide (N_of_ascii a ∈ [9; 11; 12; 32]) then skip_blanks s' else s
  | EmptyString => s
  end.

Fixpoint digits_prefix (s : string) : string :=
  match s with
  | String a s' => match digit_value a with Some _ => String a (digits_prefix s') | None => EmptyString end
  | EmptyString => EmptyString
  end.

Definition Sscanf_d (s : string) : option Z :=
  let s := skip_blanks s in
  let '(sign, s) := match s with String "-"%char s' => ("-", s') | String "+"%char s' => ("", s') | _ => ("", s) end in
  Atoi (sign +:+ digits_prefix s).

Fixpoint parseMix_loop (parts : list string) (ops : list string) : list string + string :=
  match parts with
  | [] => inl ops
  | part :: parts =>
      match Cut "="%char (TrimSpace part) with
      | None => inr "bad mix entry"
      | Some (name, pct) =>
          match Sscanf_d pct with
          | None => inr "bad percentage"
          | Some n => parseMix_loop parts (ops ++ replicate (Z.to_nat n) name)
          end
      end
  end.

Definition parseMix (spec : string) : list string + string :=
  match parseMix_loop (Split ","%char spec) [] with
  | inl [] => inr "empty mix"
  | r => r
  end.

Definition float_of_Z (z : Z) : float64 := binary_normalize 53 1024 z 0 false.

(** [int(v)] for finite numbers in range. *)
Definition float_trunc (v : float64) : Z :=
  match v with
  | S754_finite s m e =>
      let a := if (0 <=? e)%Z then (Z.pos m * 2 ^ e)%Z else (Z.pos m / 2 ^ (- e))%Z in
      if s then (- a)%Z else a
  | _ => 0%Z
  end.

Definition keyName (cacheable : float64) (i : Z) : string :=
  if SFltb (SFdiv 53 1024 (float_of_Z (Z.rem i 1000)) (float_of_Z 1000)) cacheable
  then "config:item:" +:+ pretty i
  else "task:" +:+ pretty i +:+ ":status".

Definition policyFor (ttl : N) (key : string) : option CachePolicy :=
  if HasPrefix key "config:" then Some (mkCachePolicy true (u32 ttl)) else None.

Record latency := mkLatency {
  P50 : float64;
  P95 : float64;
  P99 : float64;
  Max : float64;
  Nsamples : nat;
}.

(** [sort.Float64s]: numbers that are not come first. *)
Definition is_nan (v : float64) : bool := match v with S754_nan => true | _ => false end.
Definition float_less (a b : float64) : bool := SFltb a b || (is_nan a && negb (is_nan b)).
Definition float_ordered (a b : float64) : Prop := float_less b a = false.
#[global] Instance float_ordered_dec a b : Decision (float_ordered a b).
Proof. unfold float_ordered. apply _. Defined.
Definition sort_floats (xs : list float64) : list float64 := merge_sort float_ordered xs.

Definition half : float64 := S754_finite false 4503599627370496 (-53).
Definition p95 : float64 := S754_finite false 8556839292003942 (-53).
Definition p99 : float64 := S754_finite false 8917127262193582 (-53).

Definition at_index (n : nat) (p : float64) : Z :=
  Z.min (Z.of_nat n - 1) (float_trunc (SFmul 53 1024 (float_of_Z (Z.of_nat n)) p)).

Definition at_percentile (xs : list float64) (p : float64) : res float64 :=
  let i := at_index (length xs) p in
  if (i <? 0)%Z then Panic "index out of range" else or_panic "index out of range" (xs !! Z.to_nat i).

Definition percentiles (xs : list float64) : res latency :=
  match xs with
  | [] => Ok (mkLatency (S754_zero false) (S754_zero false) (S754_zero false) (S754_zero false) 0)
  | _ =>
      let xs := sort_floats xs in
      a ← at_percentile xs half;
      b ← at_percentile xs p95;
      c ← at_percentile xs p99;
      d ← or_panic "index out of range" (xs !! (length xs - 1)%nat);
      Ok (mkLatency a b c d (length xs))
  end.

(** *** Staleness of cached reads *)
Record stamp := mkStamp { st_version : N; st_at : Z }.

Record staleness := mkStaleness {
  sl_latest : gmap string stamp;
  sl_staleReads : N;
  sl_maxStale : Z;
}.

(** A Put of a cacheable key was acknowledged with version [v] at time [now]. *)
Definition note_put (key : string) (v : N) (now : Z) (s : staleness) : staleness :=
  if HasPrefix key "config:" then mkStaleness (<[key := mkStamp v now]> (sl_latest s)) (sl_staleReads s) (sl_maxStale s) else s.

(** A cached read that started at [start] returned version [v]. *)
Definition note_cget (key : string) (v : N) (start : Z) (s : staleness) : staleness :=
  match sl_latest s !! key with
  | None => s
  | Some st =>
      if (v <? st_version st) && (st_at st <? start)%Z then
        let age := (start - st_at st)%Z in
        mkStaleness (sl_latest s) (u64 (sl_staleReads s + 1)) (if (0 <? age)%Z then Z.max (sl_maxStale s) age else sl_maxStale s)
      else s
  end.

(** ** The cluster's description *)
Record member := mkMember { mb_id : string; mb_raft : string; mb_http : string }.

Definition member_item (m : member) : string := mb_id m +:+ String "="%char (mb_raft m +:+ String "|"%char (mb_http m)).
Definition cluster_spec (ms : list member) : string := Join "," (member_item <$> ms).

(** A description that can be written down: no separators in the parts, no blanks around them, no slash at the end of the URL. *)
Record writable (m : member) : Prop := mkWritable {
  wr_id : has_byte "="%char (mb_id m) = false;
  wr_raft : has_byte "|"%char (mb_raft m) = false;
  wr_comma : has_byte ","%char (member_item m) = false;
  wr_trim : TrimSpace (member_item m) = member_item m;
  wr_http : TrimRight (mb_http m) "/"%char = mb_http m;
}.

Lemma parse_node_item m : writable m -> parse_node (member_item m) = Some (mb_id m, (mb_raft m, mb_http m)).
Proof. intros [Hi Hr _ _ Hh]. unfold parse_node, member_item. rewrite Cut_app by done. rewrite Cut_app by done. by rewrite Hh. Qed.

Lemma member_item_ne m : member_item m <> EmptyString.
Proof. unfold member_item. destruct (mb_id m); rewrite ?app_String; done. Qed.

Lemma splitNonEmpty_spec ms : ms <> [] -> Forall writable ms -> splitNonEmpty (cluster_spec ms) = member_item <$> ms.
Proof.
  intros Hne Hw. unfold splitNonEmpty, cluster_spec. rewrite Split_Join.
  - assert (Ht : TrimSpace <$> (member_item <$> ms) = member_item <$> ms).
    { clear Hne. induction Hw as [|m ms Hm Hw IH]; [done|]. cbn. rewrite (wr_trim m Hm). f_equal. exact IH. }
    rewrite Ht. clear. induction ms as [|m ms IH]; [done|]. cbn [fmap list_fmap]. rewrite filter_cons_True by apply member_item_ne. f_equal. exact IH.
  - by destruct ms.
  - apply Forall_fmap. eapply Forall_impl; [exact Hw|]. by intros m [].
Qed.

Lemma parseCluster_loop_spec ms a h :
  Forall writable ms ->
  parseCluster_loop (member_item <$> ms) a h =
    inl (foldl (fun a m => <[mb_id m := mb_raft m]> a) a ms, foldl (fun h m => <[mb_id m := mb_http m]> h) h ms).
Proof.
  intros Hw. revert a h. induction Hw as [|m ms Hm Hw IH]; intros a h; [done|]. cbn [fmap list_fmap parseCluster_loop].
  rewrite (parse_node_item m Hm). rewrite IH. done.
Qed.

Lemma members_lookup (f : member -> string) ms (a : gmap string string) k : NoDup (mb_id <$> ms) ->
  foldl (fun a m => <[mb_id m := f m]> a) a ms !! k =
    match list_find (fun m => mb_id m = k) ms with Some (_, m) => Some (f m) | None => a !! k end.
Proof.
  revert a. induction ms as [|m ms IH]; intros a Hn; [done|]. cbn [foldl list_find]. apply NoDup_cons in Hn as [Hm Hn].
  rewrite IH by done. destruct (decide (mb_id m = k)) as [<-|Hne].
  - destruct (list_find (fun x => mb_id x = mb_id m) ms) as [[i x]|] eqn:Hf; [|by rewrite lookup_insert_eq].
    apply list_find_Some in Hf as (Hx & He & _). exfalso. apply Hm. rewrite <- He. apply list_elem_of_fmap_2. by eapply list_elem_of_lookup_2.
  - destruct (list_find (fun x => mb_id x = k) ms) as [[i x]|] eqn:Hf; cbn; [done|]. by rewrite lookup_insert_ne.
Qed.

Lemma members_in (f : member -> string) ms m : NoDup (mb_id <$> ms) -> m ∈ ms ->
  foldl (fun a m => <[mb_id m := f m]> a) (∅ : gmap string string) ms !! mb_id m = Some (f m).
Proof.
  intros Hn Hin. rewrite members_lookup by done. destruct (list_find _ ms) as [[i x]|] eqn:Hf.
  - apply list_find_Some in Hf as (Hx & He & _). apply list_elem_of_lookup_1 in Hin as [j Hj].
    assert (i = j) as ->; [|congruence]. eapply (NoDup_lookup _ _ _ _ Hn); rewrite list_lookup_fmap; [by rewrite Hx; cbn; rewrite He|by rewrite Hj].
  - apply list_find_None in Hf. rewrite Forall_forall in Hf. by apply Hf in Hin.
Qed.

Lemma members_other (f : member -> string) ms k : NoDup (mb_id <$> ms) -> k ∉ mb_id <$> ms ->
  foldl (fun a m => <[mb_id m := f m]> a) (∅ : gmap string string) ms !! k = None.
Proof.
  intros Hn Hk. rewrite members_lookup by done. destruct (list_find _ ms) as [[i x]|] eqn:Hf; [|done].
  apply list_find_Some in Hf as (Hx & <- & _). exfalso. apply Hk, list_elem_of_fmap_2. by eapply list_elem_of_lookup_2.
Qed.

(** A cluster's description is read back exactly: the parser recovers every member's addresses and nothing else, and every
    listed node derives the same sorted member list, whatever order the description lists them in. *)
Theorem parseCluster_roundtrip ms :
  ms <> [] -> Forall writable ms -> NoDup (mb_id <$> ms) ->
  exists raftAddrs httpURLs, parseCluster (cluster_spec ms) = inl (raftAddrs, httpURLs) /\
    (forall m, m ∈ ms -> raftAddrs !! mb_id m = Some (mb_raft m) /\ httpURLs !! mb_id m = Some (mb_http m)) /\
    (forall k, k ∉ mb_id <$> ms -> raftAddrs !! k = None /\ httpURLs !! k = None /\ cluster_peers k raftAddrs = None) /\
    (forall ms' m, ms' ≡ₚ ms -> m ∈ ms -> cluster_peers (mb_id m) raftAddrs = Some (sort_strings (mb_id <$> ms'))).
Proof.
  intros Hne Hw Hn. unfold parseCluster. rewrite splitNonEmpty_spec, parseCluster_loop_spec by done.
  set (a := foldl _ ∅ ms). set (h := foldl _ ∅ ms).
  assert (Ha : forall m, m ∈ ms -> a !! mb_id m = Some (mb_raft m)) by (intros; by apply members_in).
  assert (Ha' : forall k, k ∉ mb_id <$> ms -> a !! k = None) by (intros; by apply members_other).
  destruct (Nat.eqb_spec (size a) 0) as [Hz|_].
  { apply map_size_empty_inv in Hz. destruct ms as [|m ms]; [done|]. specialize (Ha m ltac:(by left)). by rewrite Hz in Ha. }
  exists a, h. split_and!; [done|..].
  - intros m Hm. split; [by apply Ha|by apply members_in].
  - intros k Hk. split_and!; [by apply Ha'|by apply members_other|]. unfold cluster_peers. by rewrite Ha'.
  - intros ms' m Hp Hm. unfold cluster_peers. rewrite (Ha m Hm). f_equal. apply sort_strings_unique. rewrite Hp.
    apply NoDup_Permutation; [apply NoDup_fst_map_to_list|done|]. intros k. split.
    + intros ([k' v] & -> & Hin%elem_of_map_to_list)%list_elem_of_fmap_1. cbn in *.
      destruct (decide (k' ∈ mb_id <$> ms)) as [|Hk]; [done|]. by rewrite Ha' in Hin.
    + intros (x & -> & Hx)%list_elem_of_fmap_1. apply (list_elem_of_fmap_2' _ _ (mb_id x, mb_raft x)); [|done]. apply elem_of_map_to_list. by apply Ha.
Qed.

Definition demo_members : list member :=
  [mkMember "n2" "10.0.0.2:9090" "http://10.0.0.2:8080"; mkMember "n1" "10.0.0.1:9090" "http://10.0.0.1:8080"].

Lemma parseCluster_roundtrip_witness :
  exists raftAddrs httpURLs, parseCluster (cluster_spec demo_members) = inl (raftAddrs, httpURLs) /\
    (forall m, m ∈ demo_members -> raftAddrs !! mb_id m = Some (mb_raft m) /\ httpURLs !! mb_id m = Some (mb_http m)) /\
    (forall k, k ∉ mb_id <$> demo_members -> raftAddrs !! k = None /\ httpURLs !! k = None /\ cluster_peers k raftAddrs = None) /\
    (forall ms' m, ms' ≡ₚ demo_members -> m ∈ demo_members -> cluster_peers (mb_id m) raftAddrs = Some (sort_strings (mb_id <$> ms'))).
Proof.
  apply (parseCluster_roundtrip demo_members); [done| |].
  - repeat (constructor; [split; by vm_compute|]). constructor.
  - by apply (bool_decide_unpack _); vm_compute.
Defined.

(** A later entry for the same node silently replaces an earlier one. *)
Theorem duplicate_members_are_accepted :
  exists a h, parseCluster "n1=a:1|http://a,n1=b:1|http://b" = inl (a, h) /\ a !! "n1" = Some "b:1" /\ size a = 1%nat.
Proof. eexists _, _. split; [by vm_compute|]. split; by vm_compute. Qed.

(** ** The operation mix and the percentiles *)

(** The description of a mix of operations and percentages. *)
Theorem parseMix_need_not_add_up : parseMix "get=1" = inl ["get"] /\ exists ops, parseMix "get=80,put=40" = inl ops /\ length ops = 120%nat.
Proof. split; [by vm_compute|]. eexists. split; by vm_compute. Qed.

(** Rounding keeps the sign. *)
Definition not_negative (v : float64) : Prop := match v with S754_finite s _ _ => s = false | S754_infinity s | S754_zero s => s = false | S754_nan => True end.

Lemma round_aux_not_negative mx ex lx : not_negative (binary_round_aux 53 1024 false mx ex lx).
Proof.
  unfold binary_round_aux. destruct (shr_fexp _ _ mx ex lx) as [mrs e]. destruct (shr_fexp _ _ _ e loc_Exact) as [mrs' e'].
  destruct (shr_m mrs'); [done| |done]. by destruct (Z.leb _ _).
Qed.

Lemma float_of_nat_not_negative n : not_negative (float_of_Z (Z.of_nat n)).
Proof.
  unfold float_of_Z, binary_normalize. destruct (Z.of_nat n) as [|p|p] eqn:Hn; [done| |lia].
  unfold binary_round. destruct (shl_align _ _ _) as [mz ez]. apply round_aux_not_negative.
Qed.

Lemma float_trunc_nonneg n m e : (0 <= float_trunc (SFmul 53 1024 (float_of_Z (Z.of_nat n)) (S754_finite false m e)))%Z.
Proof.
  pose proof (float_of_nat_not_negative n) as Hn. assert (Ht : forall v, not_negative v -> (0 <= float_trunc v)%Z).
  { intros v Hv. unfold float_trunc. destruct v as [| | |s k x]; try lia. cbn in Hv. subst s.
    assert (0 <= 2 ^ x /\ 0 <= 2 ^ (- x))%Z as [? ?] by (split; apply Z.pow_nonneg; lia).
    destruct (0 <=? x)%Z; [by apply Z.mul_nonneg_nonneg|by apply Z_div_nonneg_nonneg]. }
  apply Ht. destruct (float_of_Z _) as [s|s| |s k x]; cbn in *; subst; try done. apply round_aux_not_negative.
Qed.

Lemma at_percentile_total xs p : xs <> [] -> (exists m e, p = S754_finite false m e) -> exists v, at_percentile xs p = Ok v /\ v ∈ xs.
Proof.
  intros Hne (m & e & ->). unfold at_percentile, at_index. pose proof (float_trunc_nonneg (length xs) m e) as Hf.
  assert (0 < length xs)%nat by (destruct xs; [done|cbn; lia]). set (t := float_trunc _) in *. clearbody t.
  destruct (Z.ltb_spec (Z.min (Z.of_nat (length xs) - 1) t) 0) as [|_]; [lia|].
  destruct (lookup_lt_is_Some_2 xs (Z.to_nat (Z.min (Z.of_nat (length xs) - 1) t))) as [v Hv]; [lia|]. exists v. rewrite Hv.
  split; [done|]. by eapply list_elem_of_lookup_2.
Qed.

(** The percentiles are defined for every set of samples: no index is out of range, however the product of the number of samples and the
    fraction is rounded, and each percentile is one of the samples. *)
Theorem percentiles_total xs :
  exists l, percentiles xs = Ok l /\ Nsamples l = length xs /\ (xs <> [] -> P50 l ∈ xs /\ P95 l ∈ xs /\ P99 l ∈ xs /\ Max l ∈ xs).
Proof.
  unfold percentiles. destruct xs as [|x xs']; [by eexists|]. set (xs := x :: xs').
  assert (Hp : sort_floats xs ≡ₚ xs) by apply merge_sort_Permutation.
  assert (Hne : sort_floats xs <> []) by (intros He; rewrite He in Hp; by apply Permutation_nil_l in Hp).
  pose proof (Permutation_length Hp) as Hl. clearbody xs. generalize dependent (sort_floats xs). intros ys Hp Hne Hl.
  destruct (at_percentile_total ys half Hne) as (a & -> & Ha); [by eexists _, _|].
  destruct (at_percentile_total ys p95 Hne) as (b & -> & Hb); [by eexists _, _|].
  destruct (at_percentile_total ys p99 Hne) as (c & -> & Hc); [by eexists _, _|]. cbn [mbind res_bind].
  destruct (lookup_lt_is_Some_2 ys (length ys - 1)%nat) as [d Hd]; [destruct ys; [done|cbn; lia]|]. rewrite Hd. cbn. eexists. split; [done|].
  apply list_elem_of_lookup_2 in Hd. rewrite Hp in Ha, Hb, Hc, Hd. by split_and!.
Qed.

(** ** Staleness of cached reads *)
Definition note_puts (key : string) (puts : list stamp) (s : staleness) : staleness :=
  foldl (fun s p => note_put key (st_version p) (st_at p) s) s puts.

Lemma note_puts_latest key puts s : HasPrefix key "config:" = true ->
  sl_latest (note_puts key puts s) !! key = match last puts with Some p => Some p | None => sl_latest s !! key end /\
  sl_maxStale (note_puts key puts s) = sl_maxStale s.
Proof.
  intros Hk. induction puts as [|p puts IH] using rev_ind; [done|]. unfold note_puts in *. rewrite foldl_app, last_snoc. cbn. unfold note_put at 1 3.
  rewrite Hk. cbn. rewrite lookup_insert_eq. destruct IH as [_ ->]. by destruct p.
Qed.

(** The staleness that is measured never exceeds the real one: what a read adds to the maximum is at most the time since any
    acknowledged write it missed. *)
Theorem measured_staleness_is_a_lower_bound key puts s v start p :
  HasPrefix key "config:" = true -> (forall q, q ∈ puts -> v < st_version q -> (st_at p <= st_at q)%Z) -> p ∈ puts -> v < st_version p ->
  (st_at p < start)%Z ->
  (sl_maxStale (note_cget key v start (note_puts key puts s)) <= Z.max (sl_maxStale s) (start - st_at p))%Z.
Proof.
  intros Hk Hmin Hp Hv Hs. destruct (note_puts_latest key puts s Hk) as [Hl Hm]. unfold note_cget. rewrite Hl, Hm.
  destruct (last puts) as [q|] eqn:Hlast; [|apply last_None in Hlast; subst; by apply elem_of_nil in Hp].
  destruct (N.ltb_spec v (st_version q)) as [Hvq|]; cbn [andb]; [|cbn; lia].
  destruct (Z.ltb_spec (st_at q) start); cbn; [|lia].
  assert (Hq : q ∈ puts) by (apply last_Some in Hlast as [l ->]; set_solver). specialize (Hmin q Hq Hvq).
  destruct (Z.ltb_spec 0 (start - st_at q)); lia.
Qed.

(** And it can be far less: a read at second 10 of a version that was replaced at second 0 and again at second 9 counts as one second stale. *)
Theorem measured_staleness_misses_earlier_writes :
  let s := mkStaleness ∅ 0 0 in
  sl_maxStale (note_cget "config:k" 1 10 (note_puts "config:k" [mkStamp 2 0; mkStamp 3 9] s)) = 1%Z.
Proof. by vm_compute. Qed.
