(* ===== verification/Bench.v ===== *)
(** * The load generator (cmd/edgekv-bench)

    The workers share counters, the samples and the latest version written of each cacheable key. One iteration of a worker draws
    an operation and a key, runs it, and touches the shared state only once it has ended; a run is the sequence of those ends, in any
    interleaving of the workers. What the client answers, the clock and the random draws are part of the events. *)

From Stdlib Require Import SpecFloat.
From S2P Require Import Prelude GoStrings Metrics Client Cmd.

#[local] Open Scope N_scope.

(** ** One iteration *)

(** What the client returned; [None] for a call that returned no error. *)
Inductive outcome :=
| OGet (err : option clientErr)
| OCGet (r : (N * bool) + clientErr)                      (* version, from the cache *)
| OPut (r : N + clientErr) (at_ : Z)                      (* version; the time the answer was noted *)
| OCas (get : option clientErr) (cas : option clientErr)  (* the second call is only made after the first succeeded *)
| ODelete (err : option clientErr)
| OUnknown.                                               (* an operation the switch has no case for *)

Record event := mkEvent {
  ev_op : string;
  ev_key : string;
  ev_start : Z;
  ev_outcome : outcome;
  ev_ended : Z;         (* time.Now() when it is recorded *)
  ev_expired : bool;    (* ctx.Err() != nil after the call *)
}.

Record bench := mkBench {
  b_measuring : bool;
  b_total : N;
  b_errs : N;
  b_cacheHits : N;
  b_cacheReads : N;
  b_stale : staleness;
  b_samples : list (string * float64);
}.

#[global] Instance eta_bench : Eta bench := fun b =>
  mkBench (b_measuring b) (b_total b) (b_errs b) (b_cacheHits b) (b_cacheReads b) (b_stale b) (b_samples b).

Definition bench_start : bench := mkBench false 0 0 0 0 (mkStaleness ∅ 0 0) [].

(** [float64(d.Microseconds()) / 1000]. *)
Definition millis (d : Z) : float64 := SFdiv 53 1024 (float_of_Z (Z.quot d 1000)) (float_of_Z 1000).

Definition record_op (op : string) (d : Z) (failed : bool) (b : bench) : bench :=
  if negb (b_measuring b) then b
  else
    let b := b <| b_total := u64 (b_total b + 1) |> in
    if failed then b <| b_errs := u64 (b_errs b + 1) |>
    else b <| b_samples := b_samples b ++ [(op, millis d)] |>.

(** Outcomes that are expected are not failures. *)
Definition is_failure (err : clientErr) : bool :=
  match err with ErrNotFound | ErrVersionMismatch | ErrNotCacheable => false | _ => true end.

Definition failed (err : option clientErr) : bool := match err with Some err => is_failure err | None => false end.

(** The cached read of the switch: hits and stale reads are counted while measuring. *)
Definition end_cget (key : string) (start : Z) (r : (N * bool) + clientErr) (b : bench) : bench * option clientErr :=
  match r with
  | inr err => (b, Some err)
  | inl (version, fromCache) =>
      if b_measuring b then
        (b <| b_cacheReads := u64 (b_cacheReads b + 1) |>
           <| b_cacheHits := if fromCache : bool then u64 (b_cacheHits b + 1) else b_cacheHits b |>
           <| b_stale := note_cget key version start (b_stale b) |>, None)
      else (b, None)
  end.

Definition end_put (key : string) (r : N + clientErr) (now : Z) (b : bench) : bench * option clientErr :=
  match r with
  | inr err => (b, Some err)
  | inl v => (b <| b_stale := note_put key v now (b_stale b) |>, None)
  end.

Definition end_cas (get cas : option clientErr) : option clientErr :=
  match get with Some err => Some err | None => cas end.

(** The rest of an iteration, from the return of the client on. *)
Definition iterate (e : event) (b : bench) : bench :=
  let '(b, err) :=
    match ev_outcome e with
    | OGet err => (b, err)
    | OCGet r => end_cget (ev_key e) (ev_start e) r b
    | OPut r now => end_put (ev_key e) r now b
    | OCas get cas => (b, end_cas get cas)
    | ODelete err => (b, err)
    | OUnknown => (b, None)
    end in
  if ev_expired e then b else record_op (ev_op e) (ev_ended e - ev_start e)%Z (failed err) b.

(** The key of a cached read: drawn again until it is cacheable. [None]: the draws are used up. *)
Fixpoint draw_cacheable (cacheable : float64) (key : string) (draws : list Z) : option string :=
  if HasPrefix key "config:" then Some key
  else match draws with
       | [] => None
       | i :: draws => draw_cacheable cacheable (keyName cacheable i) draws
       end.

(** Warm-up, then the measured part. *)
Inductive bench_step : bench -> bench -> Prop :=
| bs_iterate e b : bench_step b (iterate e b)
| bs_measure b : bench_step b (b <| b_measuring := true |>).

(** ** The result *)
Record result := mkBenchResult {
  res_Ops : N;
  res_Errors : N;
  res_Throughput : float64;
  res_Latency : gmap string latency;
  res_CacheHits : N;
  res_CacheReads : N;
  res_StaleReads : N;
  res_MaxStalenessMs : float64;
}.

(** [float64(n)] of a [uint64], and [duration.Seconds()] for whole nanoseconds. *)
Definition seconds (d : Z) : float64 :=
  SFadd 53 1024 (float_of_Z (Z.quot d 1000000000)) (SFdiv 53 1024 (float_of_Z (Z.rem d 1000000000)) (float_of_Z 1000000000)).

(** [byOp]: the samples of each operation, in order. *)
Definition samples_of (op : string) (l : list (string * float64)) : list float64 := (filter (fun s => s.1 = op) l).*2.

Fixpoint op_latencies (ops : list string) (l : list (string * float64)) : res (list (string * latency)) :=
  match ops with
  | [] => Ok []
  | op :: ops =>
      x ← percentiles (samples_of op l);
      rest ← op_latencies ops l;
      Ok ((op, x) :: rest)
  end.

Definition report (duration : Z) (b : bench) : res result :=
  all ← percentiles (b_samples b).*2;
  byOp ← op_latencies (remove_dups (b_samples b).*1) (b_samples b);
  Ok (mkBenchResult (b_total b) (b_errs b)
        (SFdiv 53 1024 (float_of_Z (Z.of_N (u64_sub (b_total b) (b_errs b)))) (seconds duration))
        (list_to_map byOp ∪ {["all" := all]})
        (b_cacheHits b) (b_cacheReads b) (sl_staleReads (b_stale b))
        (float_of_Z (Z.quot (sl_maxStale (b_stale b)) 1000000))).

(** ** The numbers add up *)
Record accounted (b : bench) : Prop := {
  ac_total : b_total b = u64 (b_errs b + lenN (b_samples b));
  ac_hits : exists hits reads, b_cacheHits b = u64 hits /\ b_cacheReads b = u64 reads /\ hits <= reads;
  ac_stale : (0 <= sl_maxStale (b_stale b))%Z;
}.

Lemma u64_idem n : u64 (u64 n) = u64 n.
Proof. unfold u64. by rewrite N.Div0.mod_mod. Qed.

Lemma u64_add_l a b : u64 (u64 a + b) = u64 (a + b).
Proof. unfold u64. by rewrite N.Div0.add_mod_idemp_l. Qed.

Lemma record_accounted op d f b : accounted b -> accounted (record_op op d f b).
Proof.
  intros [Ht Hh Hs]. unfold record_op. destruct (b_measuring b); cbn [negb]; [|done]. destruct f; split; cbn; try done.
  - rewrite Ht, u64_add_l, u64_add_l. f_equal. lia.
  - rewrite Ht, u64_add_l, lenN_app. f_equal. change (lenN [_]) with 1. lia.
Qed.

Lemma note_cget_stale key v start s : (0 <= sl_maxStale s)%Z -> (0 <= sl_maxStale (note_cget key v start s))%Z.
Proof. intros Hs. unfold note_cget. case_match; [|done]. case_match; [|done]. cbn. case_match; lia. Qed.

Lemma note_put_stale key v now s : sl_maxStale (note_put key v now s) = sl_maxStale s.
Proof. unfold note_put. by case_match. Qed.

Lemma end_cget_accounted key start r b : accounted b -> accounted (end_cget key start r b).1.
Proof.
  intros [Ht (hits & reads & Hh & Hr & Hle) Hs]. unfold end_cget. destruct r as [[v fc]|err]; [|split; eauto]. destruct (b_measuring b); [|split; eauto].
  split; cbn; [done| |by apply note_cget_stale]. rewrite Hh, Hr. destruct fc.
  - exists (hits + 1), (reads + 1). split_and!; [apply u64_add_l..|lia].
  - exists hits, (reads + 1). split_and!; [done|apply u64_add_l|lia].
Qed.

Lemma iterate_accounted e b : accounted b -> accounted (iterate e b).
Proof.
  intros Hb. unfold iterate.
  assert (Hx : forall x : bench * option clientErr, accounted x.1 ->
    accounted (let '(b, err) := x in if ev_expired e then b else record_op (ev_op e) (ev_ended e - ev_start e)%Z (failed err) b)).
  { intros [b' err] Hb'. cbn in Hb'. destruct (ev_expired e); [done|by apply record_accounted]. }
  destruct (ev_outcome e); try (by apply (Hx (_, _))).
  - apply Hx. by apply end_cget_accounted.
  - apply Hx. unfold end_put. destruct r; [|done]. destruct Hb as [Ht Hh Hs]. split; cbn; [done|done|by rewrite note_put_stale].
Qed.

Lemma steps_accounted b b' : rtc bench_step b b' -> accounted b -> accounted b'.
Proof.
  induction 1 as [|b b1 b' Hst _ IH]; [done|]. intros Hb. apply IH. destruct Hst; [by apply iterate_accounted|]. destruct Hb. by split.
Qed.

Lemma bench_start_accounted : accounted bench_start.
Proof. split; cbn; [done|by exists 0, 0|lia]. Qed.

(** *** Samples by operation *)
Definition op_count (l : list (string * float64)) (op : string) : nat := length (samples_of op l).

Lemma sum_indicator (ops : list string) x :
  NoDup ops -> x ∈ ops -> sum_list ((fun op => if decide (x = op) then 1 else 0)%nat <$> ops) = 1%nat.
Proof.
  intros Hnd Hx. induction Hnd as [|op ops Hop _ IH]; [by apply elem_of_nil in Hx|]. cbn. case_decide as Hd.
  - subst op. assert (Hz : sum_list ((fun op => if decide (x = op) then 1 else 0)%nat <$> ops) = 0%nat); [|lia].
    clear IH Hx. induction ops as [|y ops IH]; [done|]. apply not_elem_of_cons in Hop as [Hy Hop]. cbn. rewrite decide_False by done. by apply IH.
  - apply elem_of_cons in Hx as [->|Hx]; [done|]. by rewrite IH.
Qed.

Lemma sum_list_add (f g : string -> nat) ops : sum_list ((fun op => f op + g op)%nat <$> ops) = (sum_list (f <$> ops) + sum_list (g <$> ops))%nat.
Proof. induction ops as [|op ops IH]; [done|]. cbn. rewrite IH. lia. Qed.

Lemma counts_add_up l ops : NoDup ops -> Forall (fun s => s.1 ∈ ops) l -> sum_list (op_count l <$> ops) = length l.
Proof.
  intros Hnd Hl. induction Hl as [|[x v] l Hx _ IH].
  - unfold op_count, samples_of. cbn. clear Hnd. induction ops as [|op ops IH]; [done|exact IH].
  - rewrite <- (list_fmap_ext (fun op => (if decide (x = op) then 1 else 0) + op_count l op)%nat).
    + rewrite sum_list_add, (sum_indicator ops x Hnd Hx), IH. done.
    + intros i op _. unfold op_count, samples_of. rewrite filter_cons. cbn. by case_decide.
Qed.

Lemma op_latencies_ok ops l : exists byOp, op_latencies ops l = Ok byOp /\ byOp.*1 = ops /\ Forall (fun x => Nsamples x.2 = op_count l x.1) byOp.
Proof.
  induction ops as [|op ops (byOp & IH & Hf & Ha)]; [by exists []|]. cbn [op_latencies].
  destruct (percentiles_total (samples_of op l)) as (x & Hx & Hn & _). rewrite Hx, IH. cbn. eexists. split; [done|]. cbn. rewrite Hf.
  split; [done|]. by constructor.
Qed.

(** The load generator's report adds up, whatever the interleaving of its workers: it can always be made, every operation that was
    measured is counted as an error or has a latency, throughput is taken over exactly the samples, the samples of the single operations add up to
    all of them, and there are at most as many cache hits as cached reads. *)
Theorem report_adds_up b duration :
  rtc bench_step bench_start b -> lenN (b_samples b) + b_errs b < 2 ^ 64 ->
  exists r ops, report duration b = Ok r /\ res_Ops r = res_Errors r + lenN (b_samples b) /\
    res_Throughput r = SFdiv 53 1024 (float_of_Z (Z.of_N (lenN (b_samples b)))) (seconds duration) /\
    (forall op, op ∈ ops -> exists x, res_Latency r !! op = Some x /\ Nsamples x = op_count (b_samples b) op) /\
    NoDup ops /\ sum_list (op_count (b_samples b) <$> ops) = length (b_samples b) /\
    exists hits reads, res_CacheHits r = u64 hits /\ res_CacheReads r = u64 reads /\ hits <= reads.
Proof.
  intros Hr Hlt. apply steps_accounted in Hr as [Ht Hh _]; [|apply bench_start_accounted]. unfold report.
  destruct (percentiles_total (b_samples b).*2) as (all & -> & _). set (ops := remove_dups (b_samples b).*1).
  destruct (op_latencies_ok ops (b_samples b)) as (byOp & -> & Hf & Ha). eexists _, ops. split; [done|]. cbn [res_Ops res_Errors res_Throughput res_Latency res_CacheHits res_CacheReads].
  assert (Hnd : NoDup ops) by apply NoDup_remove_dups.
  assert (Hu : u64 (b_errs b + lenN (b_samples b)) = b_errs b + lenN (b_samples b)) by (apply N.mod_small; unfold u64_modulus; lia).
  rewrite Ht, Hu. split_and!; [done| | |done| |done].
  - do 3 f_equal. unfold u64_sub, u64. rewrite (N.mod_small (b_errs b)) by (unfold u64_modulus; lia).
    replace (b_errs b + lenN (b_samples b) + u64_modulus - b_errs b) with (lenN (b_samples b) + 1 * u64_modulus) by lia.
    rewrite N.Div0.mod_add. apply N.mod_small. unfold u64_modulus. lia.
  - intros op Hop. rewrite <- Hf in Hop. apply list_elem_of_fmap in Hop as ([op' x] & -> & Hx). exists x. rewrite Forall_forall in Ha.
    split; [|by apply (Ha (op', x))]. apply lookup_union_Some_l, elem_of_list_to_map_1; [by rewrite Hf|done].
  - apply counts_add_up; [done|]. apply Forall_forall. intros s Hs. unfold ops. apply elem_of_remove_dups. by apply list_elem_of_fmap_2.
Qed.

(** *** The share of cacheable keys *)
Definition cacheable_key (cacheable : float64) (i : Z) : bool := SFltb (SFdiv 53 1024 (float_of_Z (Z.rem i 1000)) (float_of_Z 1000)) cacheable.

Lemma keyName_cacheable cacheable i : HasPrefix (keyName cacheable i) "config:" = cacheable_key cacheable i.
Proof. unfold keyName, cacheable_key. by case_match. Qed.

(** [0.2], the default of the flag. *)
Definition one_fifth : float64 := S754_finite false 7205759403792794 (-55).

Lemma cacheable_key_block cacheable b (k : nat) : (0 <= b)%Z -> (k < 1000)%nat ->
  cacheable_key cacheable (1000 * b + Z.of_nat k) = cacheable_key cacheable (Z.of_nat k).
Proof.
  intros Hb Hk. assert (He : Z.rem (1000 * b + Z.of_nat k) 1000 = Z.rem (Z.of_nat k) 1000).
  { rewrite !Z.rem_mod_nonneg by lia. by rewrite Z.add_comm, Z.mul_comm, Z.mod_add by lia. }
  unfold cacheable_key. by rewrite He.
Qed.

Lemma count_block cacheable b l : (0 <= b)%Z -> Forall (fun k => k < 1000)%nat l ->
  length (filter (fun i => HasPrefix (keyName cacheable i) "config:" = true) ((fun k => (1000 * b + Z.of_nat k)%Z) <$> l)) =
  length (filter (fun k => cacheable_key cacheable (Z.of_nat k) = true) l).
Proof.
  intros Hb Hl. induction Hl as [|k l Hk _ IH]; [done|]. cbn [fmap list_fmap]. rewrite !filter_cons, keyName_cacheable, cacheable_key_block by done.
  case_decide; [|exact IH]. rewrite !length_cons. by f_equal.
Qed.

(** With the default flags exactly a fifth of the keys is cacheable, in every block of a thousand, however the fractions are rounded. *)
Theorem a_fifth_of_the_keys_is_cacheable b : (0 <= b)%Z ->
  length (filter (fun i => HasPrefix (keyName one_fifth i) "config:" = true) ((fun k => (1000 * b + Z.of_nat k)%Z) <$> seq 0 1000)) = 200%nat.
Proof.
  intros Hb. rewrite count_block; [vm_compute; reflexivity|done|]. apply Forall_forall. intros k Hk. apply elem_of_seq in Hk. lia.
Qed.

(** *** Where the generator falls short *)
Lemma none_cacheable i : (0 <= i)%Z -> cacheable_key (S754_zero false) i = false.
Proof.
  intros Hi. assert (Hall : forallb (fun k => negb (cacheable_key (S754_zero false) (Z.of_nat k))) (seq 0 1000) = true) by (vm_compute; reflexivity).
  rewrite forallb_forall in Hall. rewrite (Z.div_mod i 1000) by lia. pose proof (Z.mod_pos_bound i 1000 ltac:(lia)).
  pose proof (Z.div_pos i 1000 ltac:(lia) ltac:(lia)). rewrite <- (Z2Nat.id (i `mod` 1000)) by lia. rewrite cacheable_key_block by lia.
  specialize (Hall (Z.to_nat (i `mod` 1000))). rewrite in_seq in Hall. specialize (Hall ltac:(lia)). by apply negb_true_iff.
Qed.

(** With no cacheable keys a cached read never finds one: whatever is drawn, another draw follows, and the deadline of the run is not looked at. *)
Theorem cached_reads_need_cacheable_keys i draws :
  (0 <= i)%Z -> Forall (fun i => (0 <= i)%Z) draws -> draw_cacheable (S754_zero false) (keyName (S754_zero false) i) draws = None.
Proof.
  intros Hi Hd. revert i Hi. induction Hd as [|j draws Hj Hd IH]; intros i Hi; cbn [draw_cacheable]; rewrite keyName_cacheable, none_cacheable by done; [done|].
  by apply IH.
Qed.

(** An operation the switch does not know is accepted by the mix and measured as a success. *)
Theorem unknown_operations_are_measured :
  parseMix "gett=100" = inl (replicate 100 "gett") /\
  b_samples (iterate (mkEvent "gett" "task:1:status" 0 OUnknown 2000000 false) (bench_start <| b_measuring := true |>)) = [("gett", float_of_Z 2)].
Proof. split; vm_compute; reflexivity. Qed.

(** The latest version of a key is the one noted last: a Put that was acknowledged first but noted second hides a newer version, and a
    stale read is not detected. *)
Theorem late_notes_hide_newer_versions :
  let b := foldl (fun b e => iterate e b) (bench_start <| b_measuring := true |>)
    [mkEvent "put" "config:item:1" 0 (OPut (inl 6) 5) 6 false; mkEvent "put" "config:item:1" 0 (OPut (inl 5) 7) 8 false;
     mkEvent "cget" "config:item:1" 10 (OCGet (inl (5, true))) 11 false] in
  sl_staleReads (b_stale b) = 0.
Proof. vm_compute. reflexivity. Qed.

(** *** A run *)
Definition demo_bench : bench :=
  foldl (fun b e => iterate e b) (bench_start <| b_measuring := true |>)
    [mkEvent "put" "config:item:1" 0 (OPut (inl 2) 5000000) 5000000 false;
     mkEvent "get" "task:5:status" 0 (OGet (Some ErrNotFound)) 2000000 false;
     mkEvent "get" "task:6:status" 0 (OGet (Some (ErrStatus 500))) 9000000 false;
     mkEvent "cget" "config:item:1" 6000000 (OCGet (inl (1, true))) 7000000 false].

Lemma iterates_run es : forall b, rtc bench_step b (foldl (fun b e => iterate e b) b es).
Proof. induction es as [|e es IH]; intros b; [done|]. cbn [foldl]. eapply rtc_l; [apply bs_iterate|apply IH]. Qed.

Lemma demo_bench_runs : rtc bench_step bench_start demo_bench.
Proof. eapply rtc_l; [apply bs_measure|]. apply iterates_run. Qed.

Lemma report_adds_up_witness :
  b_total demo_bench = 4 /\ b_errs demo_bench = 1 /\ sl_staleReads (b_stale demo_bench) = 1 /\
  exists r ops, report 1000000000 demo_bench = Ok r /\ res_Ops r = res_Errors r + lenN (b_samples demo_bench) /\
  res_Throughput r = SFdiv 53 1024 (float_of_Z (Z.of_N (lenN (b_samples demo_bench)))) (seconds 1000000000) /\
  (forall op, op ∈ ops -> exists x, res_Latency r !! op = Some x /\ Nsamples x = op_count (b_samples demo_bench) op) /\
  NoDup ops /\ sum_list (op_count (b_samples demo_bench) <$> ops) = length (b_samples demo_bench) /\
  exists hits reads, res_CacheHits r = u64 hits /\ res_CacheReads r = u64 reads /\ hits <= reads.
Proof.
  split; [vm_compute; reflexivity|]. split; [vm_compute; reflexivity|]. split; [vm_compute; reflexivity|].
  exact (report_adds_up demo_bench 1000000000 demo_bench_runs ltac:(vm_compute; reflexivity)).
Defined.
