(* ===== verification/Preload.v ===== *)
(** * Preloading (cmd/edgekv-bench)

    Before it measures, the load generator writes every key once: the main goroutine sends the numbers of the keys on a buffered
    channel, closes it and waits for the 64 workers that put what they receive. The events are the points where one of these
    goroutines acts. Every run ends, none gets stuck, and at the end every key has been put exactly once, under the
    name and with the policy of its number. *)

From Stdlib Require Import SpecFloat.
From S2P Require Import Prelude GoStrings Metrics Client Cmd.

#[local] Open Scope nat_scope.

Inductive workerPC :=
| WkIdle                                             (* at the range over the channel *)
| WkBusy (i : nat)                                   (* in [Put] of key [i] *)
| WkExited.

#[global] Instance workerPC_eq_dec : EqDecision workerPC.
Proof. solve_decision. Defined.

Record preload := mkPreload {
  pl_next : nat;                                     (* the next number to send *)
  pl_work : list nat;                                (* the channel's buffer *)
  pl_closed : bool;
  pl_workers : list workerPC;
  pl_puts : list (nat * bool);                       (* the puts that have returned, and whether without an error *)
}.

#[global] Instance eta_preload : Eta preload := fun s => mkPreload (pl_next s) (pl_work s) (pl_closed s) (pl_workers s) (pl_puts s).

Definition workCap : nat := N.to_nat 1024.
Definition preloaders : nat := N.to_nat 64.

Definition preload_start : preload := mkPreload 0 [] false (replicate preloaders WkIdle) [].

Inductive preloadEvent :=
| PlSend
| PlClose
| PlTake (w : nat)
| PlPut (w : nat) (ok : bool)
| PlExit (w : nat).

Definition preload_step (keys : nat) (ev : preloadEvent) (s : preload) : option preload :=
  match ev with
  | PlSend =>
      if (pl_next s <? keys) && (length (pl_work s) <? workCap)
      then Some (s <| pl_work := pl_work s ++ [pl_next s] |> <| pl_next := S (pl_next s) |>) else None
  | PlClose => if (pl_next s =? keys) && negb (pl_closed s) then Some (s <| pl_closed := true |>) else None
  | PlTake w =>
      match pl_workers s !! w, pl_work s with
      | Some WkIdle, i :: work => Some (s <| pl_work := work |> <| pl_workers := <[w := WkBusy i]> (pl_workers s) |>)
      | _, _ => None
      end
  | PlPut w ok =>
      match pl_workers s !! w with
      | Some (WkBusy i) => Some (s <| pl_puts := pl_puts s ++ [(i, ok)] |> <| pl_workers := <[w := WkIdle]> (pl_workers s) |>)
      | _ => None
      end
  | PlExit w =>
      match pl_workers s !! w, pl_work s with
      | Some WkIdle, [] => if pl_closed s then Some (s <| pl_workers := <[w := WkExited]> (pl_workers s) |>) else None
      | _, _ => None
      end
  end.

Definition preload_next (keys : nat) (s s' : preload) : Prop := exists ev, preload_step keys ev s = Some s'.

(** [wg.Wait] returns. *)
Definition preload_done (s : preload) : bool := pl_closed s && forallb (fun w => bool_decide (w = WkExited)) (pl_workers s).

(** What the client was asked to put. *)
Definition preload_puts (cacheable : float64) (ttl : N) (s : preload) : list (string * option CachePolicy) :=
  (fun p => let key := keyName cacheable (Z.of_nat p.1) in (key, policyFor ttl key)) <$> pl_puts s.

(** ** Every number is in one place *)
Definition busy_with (w : workerPC) : list nat := match w with WkBusy i => [i] | _ => [] end.
Definition in_hand (s : preload) : list nat := pl_workers s ≫= busy_with.

Record preload_ok (keys : nat) (s : preload) : Prop := {
  po_all : (pl_puts s).*1 ++ in_hand s ++ pl_work s ≡ₚ seq 0 (pl_next s);
  po_next : pl_next s <= keys;
  po_closed : pl_closed s = true -> pl_next s = keys;
  po_exited : WkExited ∈ pl_workers s -> pl_closed s = true /\ pl_work s = [];
  po_workers : length (pl_workers s) = preloaders;
}.

Lemma in_hand_insert ws w a b :
  ws !! w = Some a -> (<[w := b]> ws ≫= busy_with) ++ busy_with a ≡ₚ (ws ≫= busy_with) ++ busy_with b.
Proof.
  intros Hw. rewrite <- (take_drop_middle _ _ _ Hw) at 2. rewrite insert_take_drop by by eapply lookup_lt_Some.
  rewrite !bind_app. cbn. rewrite <- !app_assoc. apply Permutation_app_head.
  rewrite (Permutation_app_comm (busy_with b)), (Permutation_app_comm (busy_with a) (_ ++ _)), <- !app_assoc.
  apply Permutation_app_head, Permutation_app_comm.
Qed.

Lemma elem_of_insert_ne {A} (l : list A) w a x : x ∈ <[w := a]> l -> x <> a -> x ∈ l.
Proof. intros (j & Hj)%list_elem_of_lookup Hne. apply list_lookup_insert_Some in Hj as [(-> & <- & _)|[_ Hj]]; [done|by eapply list_elem_of_lookup_2]. Qed.

Lemma preload_start_ok keys : preload_ok keys preload_start.
Proof.
  split; cbn; [|lia|done| |by rewrite length_replicate].
  - unfold in_hand. cbn [pl_workers preload_start]. by induction preloaders.
  - intros Hin. apply elem_of_replicate in Hin as [Hx _]. done.
Qed.

Lemma preload_step_ok keys ev s s' : preload_ok keys s -> preload_step keys ev s = Some s' -> preload_ok keys s'.
Proof.
  intros [Hall Hn Hc He Hw] Hs. destruct ev as [| |w|w ok|w]; cbn [preload_step] in Hs.
  - destruct (Nat.ltb_spec (pl_next s) keys); [|done]. destruct (_ <? workCap); [|done]. cbn [andb] in Hs. injection Hs as <-.
    split; cbn -[seq]; [|lia|intros ?; specialize (Hc ltac:(done)); lia| |done].
    + rewrite seq_S. cbn -[seq]. rewrite <- Hall, <- !app_assoc. done.
    + intros [Hx _]%He. specialize (Hc Hx). lia.
  - destruct (Nat.eqb_spec (pl_next s) keys) as [E|]; [|done]. destruct (pl_closed s) eqn:Ec; [done|]. injection Hs as <-. split; cbn; try done.
    intros [Hx _]%He. done.
  - destruct (pl_workers s !! w) as [[]|] eqn:Ew; try done. destruct (pl_work s) as [|i work] eqn:Ek; [done|]. injection Hs as <-.
    split; cbn; try done; [| |by rewrite length_insert].
    + rewrite <- Hall. apply Permutation_app_head. pose proof (in_hand_insert _ _ _ (WkBusy i) Ew) as Hp. cbn in Hp. rewrite app_nil_r in Hp.
      unfold in_hand. cbn. rewrite Hp, <- app_assoc. done.
    + intros Hin%elem_of_insert_ne; [|done]. destruct (He Hin) as [_ ?]. done.
  - destruct (pl_workers s !! w) as [[|i|]|] eqn:Ew; try done. injection Hs as <-. split; cbn; try done; [| |by rewrite length_insert].
    + rewrite <- Hall, fmap_app, <- app_assoc. apply Permutation_app_head. pose proof (in_hand_insert _ _ _ WkIdle Ew) as Hp. cbn in Hp. rewrite app_nil_r in Hp.
      unfold in_hand. cbn. rewrite <- Hp, <- app_assoc. cbn. by rewrite Permutation_middle.
    + intros Hin%elem_of_insert_ne; [|done]. by apply He.
  - destruct (pl_workers s !! w) as [[]|] eqn:Ew; try done. destruct (pl_work s) as [|i work] eqn:Ek; [|done]. destruct (pl_closed s) eqn:Ec; [|done].
    injection Hs as <-. split; cbn; rewrite ?Ek, ?Ec; try done; [|by rewrite length_insert].
    rewrite <- Hall. apply Permutation_app_head. pose proof (in_hand_insert _ _ _ WkExited Ew) as Hp. cbn in Hp. rewrite !app_nil_r in Hp.
    unfold in_hand. cbn. by rewrite Hp.
Qed.

Lemma preload_ok_runs keys s : rtc (preload_next keys) preload_start s -> preload_ok keys s.
Proof.
  apply (rtc_ind_r (fun s => preload_ok keys s)); [apply preload_start_ok|]. intros s1 s2 _ [ev Hs] Hok. by eapply preload_step_ok.
Qed.

(** ** Runs end *)
Definition effort (w : workerPC) : nat := match w with WkIdle => 1 | WkBusy _ => 2 | WkExited => 0 end.
Definition remaining (keys : nat) (s : preload) : nat :=
  3 * (keys - pl_next s) + 2 * length (pl_work s) + sum_list (effort <$> pl_workers s) + (if pl_closed s then 0 else 1).

Lemma effort_insert ws w a b : ws !! w = Some a -> sum_list (effort <$> <[w := b]> ws) + effort a = sum_list (effort <$> ws) + effort b.
Proof.
  intros Hw. rewrite <- (take_drop_middle _ _ _ Hw) at 2. rewrite insert_take_drop by by eapply lookup_lt_Some.
  rewrite !fmap_app, !fmap_cons, !sum_list_with_app. cbn. lia.
Qed.

Lemma preload_step_remaining keys ev s s' : preload_step keys ev s = Some s' -> remaining keys s' < remaining keys s.
Proof.
  unfold remaining. destruct ev as [| |w|w ok|w]; cbn [preload_step]; intros Hs.
  - destruct (Nat.ltb_spec (pl_next s) keys); [|done]. destruct (_ <? workCap); [|done]. cbn [andb] in Hs. injection Hs as <-. cbn. rewrite length_app. cbn. lia.
  - destruct (pl_next s =? keys); [|done]. destruct (pl_closed s) eqn:Ec; [done|]. injection Hs as <-. cbn. lia.
  - destruct (pl_workers s !! w) as [[]|] eqn:Ew; try done. destruct (pl_work s) as [|i work] eqn:Ek; [done|]. injection Hs as <-.
    pose proof (effort_insert _ _ _ (WkBusy i) Ew) as E. cbn in E |- *. lia.
  - destruct (pl_workers s !! w) as [[|i|]|] eqn:Ew; try done. injection Hs as <-. pose proof (effort_insert _ _ _ WkIdle Ew) as E. cbn in E |- *. lia.
  - destruct (pl_workers s !! w) as [[]|] eqn:Ew; try done. destruct (pl_work s) as [|i work] eqn:Ek; [|done]. destruct (pl_closed s) eqn:Ec; [|done].
    injection Hs as <-. pose proof (effort_insert _ _ _ WkExited Ew) as E. cbn in E |- *. rewrite Ek, Ec. cbn. lia.
Qed.

Lemma preload_progress keys s : preload_ok keys s -> preload_done s = false -> exists s', preload_next keys s s'.
Proof.
  intros [_ Hn _ He Hw] Hd. destruct (decide (Exists (fun w => busy_with w <> []) (pl_workers s))) as [Hb|Hb].
  { apply Exists_exists in Hb as ([|i|] & (w & Hi)%list_elem_of_lookup & ?); try done. eexists. exists (PlPut w true). cbn. by rewrite Hi. }
  destruct (decide (WkIdle ∈ pl_workers s)) as [Hi|Hi].
  - apply list_elem_of_lookup in Hi as [w Hi]. destruct (pl_work s) as [|i work] eqn:Ek; [|eexists; exists (PlTake w); cbn; by rewrite Hi, Ek].
    destruct (pl_closed s) eqn:Ec; [eexists; exists (PlExit w); cbn; by rewrite Hi, Ek, Ec|].
    destruct (decide (pl_next s = keys)) as [E|E].
    + eexists. exists PlClose. cbn. rewrite Ec, (proj2 (Nat.eqb_eq _ _) E). done.
    + eexists. exists PlSend. unfold preload_step. rewrite Ek, (proj2 (Nat.ltb_lt (pl_next s) keys)) by lia. done.
  - exfalso. assert (Hx : Forall (fun w => w = WkExited) (pl_workers s)).
    { apply Forall_forall. intros [|i|] Hin; try done. destruct Hb. apply Exists_exists. by eexists. }
    assert (Hc : pl_closed s = true).
    { apply He. destruct (pl_workers s) as [|a ws]; [unfold preloaders in Hw; cbn in Hw; lia|]. apply Forall_cons in Hx as [-> _]. left. }
    revert Hd. unfold preload_done. rewrite Hc. cbn [andb]. apply not_false_iff_true, forallb_forall. intros a Ha%list_elem_of_In. apply bool_decide_eq_true.
    rewrite Forall_forall in Hx. by apply Hx.
Qed.

Lemma nsteps_remaining keys k s s' : nsteps (preload_next keys) k s s' -> k + remaining keys s' <= remaining keys s.
Proof. induction 1 as [|k s1 s2 s3 [ev Hs] _ IH]; [lia|]. apply preload_step_remaining in Hs. lia. Qed.

(** Preloading writes every key exactly once. No state of it is stuck before the end, every run ends after at most [3 * keys + 65] steps,
    and when the workers have left, the puts made are those of the numbers below [keys], each once. *)
Theorem preload_puts_every_key_once keys cacheable ttl k s :
  nsteps (preload_next keys) k preload_start s ->
  k <= 3 * keys + 65 /\ (preload_done s = false -> exists s', preload_next keys s s') /\
  (preload_done s = true -> preload_puts cacheable ttl s ≡ₚ
    (fun i => let key := keyName cacheable (Z.of_nat i) in (key, policyFor ttl key)) <$> seq 0 keys).
Proof.
  intros Hr. assert (Hok : preload_ok keys s) by (apply preload_ok_runs, rtc_nsteps; by exists k). split_and!.
  - apply nsteps_remaining in Hr. assert (E : remaining keys preload_start = 3 * keys + 65) by (unfold remaining, preload_start; cbn [pl_next pl_work pl_workers pl_closed length]; vm_compute (sum_list _); lia). lia.
  - by apply preload_progress.
  - intros [Hc Hex]%andb_true_iff. destruct Hok as [Hall _ Hcl He Hw]. rewrite forallb_forall in Hex.
    assert (Hx : Forall (fun w => w = WkExited) (pl_workers s)).
    { apply Forall_forall. intros w Hin. eapply bool_decide_eq_true_1, Hex. by apply list_elem_of_In. }
    assert (Hh : in_hand s = []).
    { unfold in_hand. clear -Hx. induction Hx as [|w ws -> _ IH]; [done|cbn; by rewrite IH]. }
    destruct He as [_ Hk]; [destruct (pl_workers s) as [|a ws]; [unfold preloaders in Hw; cbn in Hw; lia|]; apply Forall_cons in Hx as [-> _]; left|].
    rewrite Hh, Hk, !app_nil_r, (Hcl Hc) in Hall. unfold preload_puts. rewrite <- Hall, <- list_fmap_compose. done.
Qed.
